(* ===== verification/_CoqProject ===== *)
-Q . S2P
Prelude.v
Bytes.v
Keys.v
Config.v
Storage.v
Bolt.v
Pebble.v
Proto.v
Repository.v
Codec.v
EventCommands.v
EventStateMachine.v
Engines.v
Hub.v
Deleter.v
Dispatcher.v
Janitor.v
Producer.v
Consumer.v
Broker.v
MetaCommands.v
MetaStateMachine.v
MetaService.v
Cluster.v
EventShard.v
RaftPath.v
ClusterBroker.v
Runners.v
Threads.v
StoreTyping.v
Lifecycle.v
Durability.v
Restart.v
Handles.v
Liveness.v
Net.v
App.v
Commands.v
Shutdown.v
Servers.v
Metrics.v
