(* ===== verification/Prelude.v ===== *)
(** * FutureQ: a verification library

    FutureQ is a message broker for delayed delivery: a producer publishes a
    message with a delay, the broker stores it, and a consumer of its topic gets
    it once it is due.  A node runs alone or as a replica of a Raft cluster.
    This library models the Go sources under [src/] as executable definitions
    and proves what the parts promise to each other.

    ** The program and the files that model it

    A published batch enters through the producer handler.  Alone, the handler
    writes it into the store through the event repository, which numbers the
    messages; in a cluster it proposes a StoreBatchCmd, and the event state
    machine of every replica does the same write when the command is committed.
    The dispatcher scans the due range of every topic that has a listener and
    hands the records to the hub, which picks the consumers and puts the
    messages into their channels.  An acknowledged message goes to the deleter,
    whose backend deletes directly or proposes a DeleteBatchCmd.  The janitor
    marks messages whose time to live is over.  A second Raft group, the
    metadata group, replicates who leads and how clients reach whom.

    - [Prelude]: errors, outcomes of calls, the state-and-outcome monad, machine
      integers, the tactics and hint bases, shared lemmas.
    - [Bytes]: byte slices, fixed-width encodings, [bytes.Compare].
    - [Keys] ([pkg/utils/keys.go]): event keys, buckets, scan bounds.
    - [Config] ([internal/config/*.go]): defaults, overrides, validation.
    - [Storage] ([internal/storage/contract.go]): the interface of a storage
      engine as the class [DB]: operations, a view [contents] of the store as a
      finite map, and the laws the interface documents (atomic commits, ordered
      scans, snapshots, faults).  [healthy] says that no fault occurs.
    - [Bolt] ([internal/storage/bbolt.go]) and [Pebble]
      ([internal/storage/pebble.go]): the engines as instances of [DB];
      [MapDB], in [Pebble], is the reference engine the examples run on.
      [Engines]: the two compared.
    - [Proto]: the protobuf messages, which are defined outside the repository;
      encoding is the class [Protobuf] with its round trip as a law.  What it
      means that a record holds a published message ([carries]) and that a
      frame shows it ([shows], [delivers]) is said here field by field, without
      the code that fills them.
    - [Repository] ([internal/repository/events.go]): the id counter and the
      writes of a message.
    - [Codec]: the two idioms of the hand-written binary codecs, a buffer filled
      at a position and a slice read at a position, with Go's bounds checks.
    - [EventCommands] ([internal/raft/event/commands.go]) and
      [EventStateMachine] ([internal/raft/event/statemachine.go]): the commands
      of the event shard and the state machine that applies them, with its
      snapshots.
    - [Hub], [Deleter], [Dispatcher], [Janitor] ([internal/dispatcher/*.go]):
      subscriptions and delivery, deletion, the dispatch round, expiry.
    - [Producer] ([internal/api/grpc/handlers/producer.go]): the publish stream
      and both write paths.
    - [Consumer] ([internal/api/grpc/handlers/consumer.go]): subscription,
      acknowledgement, clean-up.
    - [Broker] ([cmd/futureq/start.go]): a standalone node, all components over
      one store, as a system of steps.
    - [MetaCommands], [MetaStateMachine], [MetaService]
      ([pkg/raft/metadata/*.go]) and [Cluster]
      ([internal/api/grpc/handlers/cluster.go]): the metadata group, discovery
      and membership.
    - [EventShard]: the abstract specification of the event shard, a log of
      decoded commands over a finite map, and the refinement of [Update] to it.
      [RaftPath]: the Raft write path of the producer against it, and against
      the standalone path.  [ClusterBroker]: a cluster of brokers over one
      replicated log, as a system of steps (publish, apply, dispatch,
      acknowledge, sweep, flush, crash, restart, install a snapshot).
    - [Runners]: the goroutines around the rounds, [Deleter.Run],
      [Dispatcher.Run] and [Janitor.Run], over the events of their [select]
      statements; [Liveness]: the dispatch loop together with consumers that
      read and acknowledge.
    - [Threads]: the goroutines of a standalone node over the memory they share.
      Here a step is one critical section, one access to a concurrent map, one
      channel operation or one call of the store, and the goroutines interleave
      in any way; the calls of [Broker] are shown to be schedules of it.
      [StoreTyping]: what kind of value stands under which key, for the
      interleaved node and for the cluster.  [Lifecycle]: a message from its
      publication to its end.
    - [Durability] ([Flush], [Sync] and the sync modes of the engines and of the
      event state machine): what a power failure leaves of a store.
      [Restart]: the interleaved goroutines of a standalone node with power
      failures between their steps, and what a start takes over from the store.
    - [Handles] ([NewIter], [NewBatch], [Get] and the [Close] methods of the
      engines, the deferred calls of their users): the transactions, snapshots,
      iterators, batches and closers a goroutine holds; the class [HandleDB] is
      what an engine promises about them.
    - [Net] ([cmd/futureq/start.go], [grpcAdvertiseAddr]): the host-port
      functions of package [net] the code uses, and the advertised address.
    - [App] ([internal/app/app.go], [cmd/futureq/*.go]): opening the engines,
      starting Raft, the commands [start] and [leave].  [Commands]
      ([cmd/futureq/root.go] and the [init] functions): the command tree and
      [main].
    - [Shutdown] ([cmd/futureq/start.go], [internal/api/grpc/setup.go]): the
      goroutines of a running node and their end, as a step relation in which
      every component and every handler may panic.
    - [Servers] ([internal/api/grpc/setup.go], [internal/metrics/prometheus.go],
      [pkg/log/logger.go]): the gRPC server and its Listen goroutine beside
      those of [Shutdown], the metrics server, the logger.
    - [Metrics] ([internal/metrics/prometheus.go]): the registry, the
      standalone broker with its counters, and the publish stream with its
      counters in both modes.

    ** How Go is modelled

    A call returns an [outcome]: a value, an error, a run-time panic, or
    [OutOfFuel] where a loop got a bound.  Code that mutates and may fail is in
    the monad [st], which keeps the mutations made before an error.  Integers
    are [Z] with the wrap-around of their width written where the source can
    overflow ([u64], [i64], ...).  A Go map is a [gmap]; the order of a range
    statement is a parameter with no law but that every pair is visited once
    ([MapRange], [NodeRange]).  A channel is a bounded buffer in a store of
    channels.  A component's operation is one step in the files of the components
    and in [Broker] and [ClusterBroker]; [Threads] takes the operations apart into
    the sections their mutexes really protect.  Third-party code is a class
    whose laws state documented behaviour: [DB] instances aside these are
    [XXHash], [Protobuf], [Proposer] and [RaftNode] (the NodeHost of the event
    shard), [MetaGroup], [ClusterHost], [BoltFiles] and [PebbleFiles] (opening
    and closing a database directory), [RaftRuntime] (starting the NodeHost and
    the two groups, removing the data directory, which may fail), [PebbleWal]
    (what the write-ahead log promises: Pebble ends the process when it cannot
    write its log, so a commit that returns an error has written nothing),
    [GrpcServer], [Zap], [Cobra], [Clock], [Writer] and [Reader]; each is instantiated with a
    concrete function in the runs at the end of the files.  Logging is left out;
    metrics calls are left out of the components and modelled beside them in
    [Metrics].

    ** What the theorems show

    - Keys: injective, ordered as (topic hash, bucket, id); the due range of a
      topic selects exactly its due keys; buckets are monotone and total for
      every size a loaded configuration can have.
    - Storage: both engines implement the same contract, so every client
      theorem holds for both; on the same pairs they answer lookups, scans and
      commits alike, but for the not-found error.
    - Repository and event state machine: the id invariant ([repo_inv]) is kept
      on every path; a store never overwrites an event; a restart resumes the
      counter; the log can be cut into portions in any way; the applied index is
      committed with the data; a snapshot carries the whole state and a failed
      recovery never leaves a mixture.  Decoders are total up to the allocation
      limit of the runtime, and invert the encoders.
    - Producer: an acknowledged message is stored with everything that was
      published, under an id of its own, over any stream of frames with
      failures; on the Raft path too, among the entries of other proposers, when
      the level waits for the proposal; both write paths store the same; a
      rejected batch has no effect.
    - The whole node: through any run of a standalone broker, and through any
      interleaving of its goroutines, a stored event stays in the store until
      its tag is acknowledged or it has expired; what a consumer is sent was
      stored when a scan found it, in a due bucket and unexpired by the clock
      its pass began with, and is not sent again before its timeout unless it is
      rejected or a consumer leaves; a deleted event never comes back; a message goes
      from publication over delivery to deletion, whatever runs in between; a
      subscription queues only acknowledged tags and leaves no trace when it
      ends.
    - The store: every key has a type (event, id counter, applied index, index
      entry) and every reachable store, standalone or replicated, is well typed;
      readers of a well-typed store do not go wrong.  These theorems, and those
      on messages that stay, assume that no published index encodes to 24 bytes
      or to a key of the repository ([index_ok]): the code writes indexes as raw
      keys, and such an index overwrites a record ([index_overwrites_record]).
    - Power failures: a standalone store loses nothing that was committed; a
      replica falls back to the state of a prefix of the log, with its applied
      index and not before the last sync; recovery from a snapshot is atomic;
      a standalone node loses no message over restarts that find a counter on
      disk which has reached its id, as they do when batches are published one
      at a time.
    - Resources: every path through the repository, the state machine, the
      producer and the deleter closes what it opened, once, whichever call
      fails, and gives the result of the operation without handles.
    - Hub, dispatcher, deleter, janitor: the indexes of the hub agree in every
      reachable state; a dispatch offers a message to every universal consumer
      and to one member of every group; round robin is fair; a dispatch round
      delivers only stored, due, unexpired records, all of them when a listener
      has room, none that is in flight, and at most one bucket early; no key
      marked for deletion is lost; a sweep marks exactly the expired records.
    - The cluster: [Update] refines the abstract shard for every cut of the log;
      every replica, through restarts and snapshots, holds the state its applied
      prefix of the log determines; a published message is on every replica that
      applied its command, as long as no node got its acknowledgement or saw it
      expired.  A node that has installed a snapshot keeps a stale id counter;
      the theorems are about runs in which it is restarted before it applies
      further entries ([no_stale_apply]), and without that replicas diverge
      ([snapshot_recovery_diverges]).
    - The loops: the passes that set the timer to zero are bounded by the
      backlog; with a receptive consumer the due backlog of a topic drains; the
      deleter's loop never forgets a marked key, shutdown included, and what it
      reports is gone unless the engine refused it; an expired record is
      collected by the next successful flush.
    - The process: a start that succeeds has a valid configuration, a counter
      read from the store and, with Raft, both groups started in order with the
      members and the join flag of its case, after a membership change when it
      joins; a bootstrap that broke off leaves no local data behind unless
      removing it fails; shutdown stops the parts in the order the code intends
      and ends, and crashes only where a component or a handler panics; a node
      that serves never exits through a fatal error of its own; a command line
      that is refused touches nothing, and a node leaves only through the seed
      it was given; the consumer gauge counts the registered consumers and the
      in-flight gauge is sends minus answers; the published counter follows the
      successful acknowledgements.
    - Metadata: the state machine is total on arbitrary log entries and does
      what an encoded command says, its invariant holds in every state reached
      through entries and recoveries, commands and snapshots round
      trip for every map order; clients find a registered leader; joining and
      leaving touch no other node and keep the order of the two groups.
    - Some theorems show where the code does not do what it means to, on a
      concrete run: a persisted counter that goes back under concurrent commits,
      a replica that diverges after a snapshot, an index that overwrites an event
      or the counter, an index length that is cut to
      16 bits, sums of times that overflow, a bad delivery tag that blocks all
      deletions, a tag that deletes the id counter, a fresh bbolt store that
      does not open, a panic when a client closes before its first frame, groups
      that share a round-robin counter, an epoch that a snapshot recovery
      lowers, an acknowledged message that a scan in progress delivers again,
      in-flight entries that are made after their clean-up, a topic that gets
      the messages of another with the same hash, a signal right after the start
      that ends the process without closing the store, a commit under an open
      iterator when a bbolt store is cleared.

    ** Bounds and fuel

    Loops over lists are structural.  Fuel is used for the loops whose bound is
    the data: a command decoder gets one unit per byte, the snapshot reader one
    per byte, clearing the store one per pair, a bbolt scan one per pair ahead
    of the cursor; lemmas show that none of them runs out.  The loops driven by
    events ([PublishStream], [Subscribe], [waitForCatchUp], [Deleter_Run],
    [Dispatcher_Run], [Janitor_Run], the address registration) run over the
    events received so far and answer [OutOfFuel] when they would wait for the
    next one.  The interleaved and the step-relation models ([Threads],
    [ClusterBroker], [Shutdown], [Servers], [Durability], [Restart]) have no fuel: a run is a
    list of steps, and the theorems are about all of them.

    ** Not modelled

    Reading configuration files and the environment (a library call whose result
    is an argument of [Load]), log calls, the text format of the metrics, and the
    internals of Raft, of gRPC, of the storage libraries and of protobuf.  The
    memory model of Go is not modelled: shared data is accessed under mutexes,
    atomically or through channels, which [Threads] takes as the steps. *)
From stdpp Require Import prelude gmap strings sorting.

(** ** Errors

    Go's [error] values.  The sentinels the code compares against are
    constructors of their own; [ErrorMsg] is [errors.New] / [fmt.Errorf]
    without a wrapped error (the arguments printed into the message are kept
    as a list), [ErrorWrap] is [fmt.Errorf] with [%w]. *)
Inductive error :=
  | ErrNotFound                              (* storage.ErrNotFound *)
  | PebbleErrNotFound                        (* pebble.ErrNotFound *)
  | ErrSnapshotStopped                       (* statemachine.ErrSnapshotStopped *)
  | ErrEOF                                   (* io.EOF *)
  | ErrUnexpectedEOF                         (* io.ErrUnexpectedEOF *)
  | ErrorMsg (msg : string) (args : list Z)
  | ErrorWrap (ctx : string) (e : error).

#[export] Instance error_eq_dec : EqDecision error.
Proof. solve_decision. Defined.

(** [errors.Is]: compare along the chain of wrapped errors. *)
Fixpoint errors_Is (e target : error) : bool :=
  bool_decide (e = target) ||
  match e with
  | ErrorWrap _ e' => errors_Is e' target
  | _ => false
  end.

(** ** Outcomes of a Go call

    [Ok] is a normal return with a nil error, [Err] a return with an error,
    [Panic] a run-time panic.  [OutOfFuel] is the model's own value for a loop
    that did not finish within the fuel it was given; every function that can
    produce it comes with a lemma that it does not. *)
Inductive outcome (A : Type) :=
  | Ok (a : A)
  | Err (e : error)
  | Panic
  | OutOfFuel.
Arguments Ok {A} a.
Arguments Err {A} e.
Arguments Panic {A}.
Arguments OutOfFuel {A}.

#[export] Instance outcome_ret : MRet outcome := λ A a, Ok a.
#[export] Instance outcome_bind : MBind outcome := λ A B f m,
  match m with
  | Ok a => f a
  | Err e => Err e
  | Panic => Panic
  | OutOfFuel => OutOfFuel
  end.
#[export] Instance outcome_eq_dec {A} `{EqDecision A} : EqDecision (outcome A).
Proof. solve_decision. Defined.

(** [fmt.Errorf("ctx: %w", err)] on the error path of a call. *)
Definition wrap_err {A} (ctx : string) (m : outcome A) : outcome A :=
  match m with
  | Err e => Err (ErrorWrap ctx e)
  | m => m
  end.

(** ** State and outcome

    Code that mutates a state and may fail: the state is kept on every path,
    as in Go, where an early return leaves the assignments made before it. *)
Definition st (S A : Type) : Type := S → S * outcome A.

#[export] Instance st_ret {S} : MRet (st S) := λ A a s, (s, Ok a).
#[export] Instance st_bind {S} : MBind (st S) := λ A B f m s,
  match m s with
  | (s', Ok a) => f a s'
  | (s', Err e) => (s', Err e)
  | (s', Panic) => (s', Panic)
  | (s', OutOfFuel) => (s', OutOfFuel)
  end.

Definition st_lift {S A} (m : outcome A) : st S A := λ s, (s, m).

(** [for _, x := range l { f(x) }] with an early return on error. *)
Fixpoint st_iter {S A} (f : A → st S ()) (l : list A) : st S () :=
  match l with
  | [] => mret ()
  | x :: l' => f x ;; st_iter f l'
  end.

(** The same loop, collecting a result per element. *)
Fixpoint st_mapM {S A B} (f : A → st S B) (l : list A) : st S (list B) :=
  match l with
  | [] => mret []
  | x :: l' => y ← f x; ys ← st_mapM f l'; mret (y :: ys)
  end.

(** [if err := m(); err != nil { log; return d }]: an error is turned into a
    value; the mutations made before it stay. *)
Definition st_catch {S A} (d : A) (m : st S A) : st S A := λ s,
  match m s with
  | (s', Err _) => (s', Ok d)
  | r => r
  end.

(** ** Machine integers

    A Go integer is a [Z]; an operation that can leave the width of its type
    is followed by the wrap of that type. *)
Definition u64 (z : Z) : Z := z `mod` 2 ^ 64.
Definition u32 (z : Z) : Z := z `mod` 2 ^ 32.
Definition u16 (z : Z) : Z := z `mod` 2 ^ 16.
Definition i64 (z : Z) : Z := (z + 2 ^ 63) `mod` 2 ^ 64 - 2 ^ 63.

Definition is_u64 (z : Z) : Prop := (0 ≤ z < 2 ^ 64)%Z.
Definition is_i64 (z : Z) : Prop := (- 2 ^ 63 ≤ z < 2 ^ 63)%Z.

(** ** Hint databases and tactics *)
Create HintDb goq discriminated.
Create Rewrite HintDb goq_len.

(** Destruct the scrutinee of a [match] or an [if], in the goal or in a
    hypothesis, keeping the equation. *)
Ltac case_split_eq :=
  match goal with
  | |- context [match ?x with _ => _ end] =>
      lazymatch type of x with
      | sumbool _ _ => destruct x
      | _ => let E := fresh "E" in destruct x eqn:E
      end
  | H : context [match ?x with _ => _ end] |- _ =>
      lazymatch type of x with
      | sumbool _ _ => destruct x
      | _ => let E := fresh "E" in destruct x eqn:E
      end
  end.

(** Turn an equation [mbind f m = Ok b] into its two steps. *)
Ltac bind_inv H :=
  match type of H with
  | mbind ?f ?m = Ok _ =>
      let E := fresh "E" in
      destruct m eqn:E; simpl in H; [| discriminate H ..]
  end.

(** Arithmetic with lengths normalised by the [goq_len] rewrite base. *)
Ltac len_lia := autorewrite with goq_len in *; simpl in *; lia.

(** ** Facts on machine integers *)
Section integers.
Local Open Scope Z_scope.

Lemma u64_range z : is_u64 (u64 z).
Proof. unfold is_u64, u64. apply Z.mod_pos_bound. lia. Qed.

Lemma u64_small z : is_u64 z → u64 z = z.
Proof. intros H. by apply Z.mod_small. Qed.

Lemma i64_range z : is_i64 (i64 z).
Proof.
  unfold is_i64, i64.
  pose proof (Z.mod_pos_bound (z + 2 ^ 63) (2 ^ 64) ltac:(lia)). lia.
Qed.

Lemma i64_small z : is_i64 z → i64 z = z.
Proof. unfold is_i64, i64. intros H. rewrite Z.mod_small; lia. Qed.

(** The sum of two non-negative [int64] that does not fit wraps to a negative
    number. *)
Lemma i64_overflow a b :
  0 ≤ a < 2 ^ 63 → 0 ≤ b < 2 ^ 63 → 2 ^ 63 ≤ a + b → i64 (a + b) < 0.
Proof.
  unfold i64. intros Ha Hb Hs.
  replace (a + b + 2 ^ 63) with (a + b - 2 ^ 63 + 1 * 2 ^ 64) by lia.
  rewrite Z_mod_plus_full, Z.mod_small; lia.
Qed.

Lemma u32_small z : 0 ≤ z < 2 ^ 32 → u32 z = z.
Proof. intros H. by apply Z.mod_small. Qed.

Lemma u16_small z : 0 ≤ z < 2 ^ 16 → u16 z = z.
Proof. intros H. by apply Z.mod_small. Qed.
End integers.

#[export] Hint Resolve u64_range i64_range : goq.

(** ** Facts on errors, options and lists *)
Lemma errors_Is_refl e : errors_Is e e = true.
Proof. destruct e; simpl; first [done | by rewrite bool_decide_eq_true_2]. Qed.

Lemma outcome_bind_ok {A B} (f : A → outcome B) m b :
  mbind f m = Ok b ↔ ∃ a, m = Ok a ∧ f a = Ok b.
Proof. split; [destruct m; naive_solver | by intros (a & -> & ?)]. Qed.

Lemma wrap_err_ok {A} ctx (m : outcome A) a : wrap_err ctx m = Ok a → m = Ok a.
Proof. by destruct m. Qed.

Lemma st_bind_ok {S A B} (f : A → st S B) (m : st S A) s s' b :
  mbind f m s = (s', Ok b) ↔ ∃ s1 a, m s = (s1, Ok a) ∧ f a s1 = (s', Ok b).
Proof.
  unfold mbind, st_bind. destruct (m s) as [s1 [a|e| |]]; naive_solver.
Qed.

Lemma st_mapM_app {S A B} (f : A → st S B) l k s :
  st_mapM f (l ++ k) s = (ys ← st_mapM f l; zs ← st_mapM f k; mret (ys ++ zs)) s.
Proof.
  unfold mbind, st_bind, mret, st_ret.
  induction l as [|x l IH] in s |- *; simpl.
  { by destruct (st_mapM f k s) as [s' [zs|e| |]]. }
  unfold mbind, st_bind, mret, st_ret. destruct (f x s) as [s1 [y|e| |]]; [|done..].
  rewrite IH. destruct (st_mapM f l s1) as [s2 [ys|e| |]]; [|done..].
  by destruct (st_mapM f k s2) as [s3 [zs|e| |]].
Qed.

Lemma pair_snd_eq {A B} (p : A * B) b : p.2 = b → p = (p.1, b).
Proof. destruct p. by intros <-. Qed.

Lemma take_app_exact {A} (l k : list A) n : n = length l → take n (l ++ k) = l.
Proof. intros ->. apply take_app_length. Qed.

Lemma drop_app_exact {A} (l k : list A) n : n = length l → drop n (l ++ k) = k.
Proof. intros ->. apply drop_app_length. Qed.

Lemma filter_none {A} (P : A → Prop) `{∀ x, Decision (P x)} (l : list A) :
  (∀ x, x ∈ l → ¬ P x) → filter P l = [].
Proof.
  induction l as [|x l IH]; [done|]. intros Hl.
  rewrite filter_cons_False by (apply Hl; left). apply IH. intros y Hy. apply Hl. by right.
Qed.

Lemma filter_all {A} (P : A → Prop) `{∀ x, Decision (P x)} (l : list A) :
  (∀ x, x ∈ l → P x) → filter P l = l.
Proof.
  induction l as [|x l IH]; [done|]. intros Hl.
  rewrite filter_cons_True by (apply Hl; left). f_equal. apply IH. intros y Hy. apply Hl. by right.
Qed.

Lemma filter_ext_elem {A} (P Q : A → Prop) `{∀ x, Decision (P x), ∀ x, Decision (Q x)} (l : list A) :
  (∀ x, x ∈ l → P x ↔ Q x) → filter P l = filter Q l.
Proof.
  induction l as [|x l IH]; [done|]. intros Hl. rewrite !filter_cons.
  assert (P x ↔ Q x) as Hx by (apply Hl; left).
  rewrite IH by (intros y Hy; apply Hl; by right). repeat case_decide; tauto.
Qed.

Lemma StronglySorted_filter {A} (R : relation A) (P : A → Prop) `{∀ x, Decision (P x)} l :
  StronglySorted R l → StronglySorted R (filter P l).
Proof.
  induction 1 as [|x l Hs IH Hf]; [constructor|].
  destruct (decide (P x)) as [Hx|Hx].
  - rewrite filter_cons_True by done. constructor; [done|].
    rewrite Forall_forall in *. intros y [_ Hy]%list_elem_of_filter. by apply Hf.
  - by rewrite filter_cons_False.
Qed.

Lemma NoDup_fmap_inj_on {A B} (f : A → B) l x y :
  NoDup (f <$> l) → x ∈ l → y ∈ l → f x = f y → x = y.
Proof.
  induction l as [|z l IH]; [by intros _ ?%elem_of_nil|]. rewrite fmap_cons, NoDup_cons.
  intros [Hn Hd] [->|Hx]%elem_of_cons [->|Hy]%elem_of_cons E; auto.
  - destruct Hn. rewrite E. by apply list_elem_of_fmap_2.
  - destruct Hn. rewrite <-E. by apply list_elem_of_fmap_2.
Qed.

Lemma NoDup_fmap_filter {A B} (f : A → B) (P : A → Prop) `{∀ x, Decision (P x)} l :
  NoDup (f <$> l) → NoDup (f <$> filter P l).
Proof.
  intros Hd. eapply sublist_NoDup; [exact Hd|]. apply fmap_sublist.
  induction l as [|x l IH]; [constructor|]. rewrite fmap_cons, NoDup_cons in Hd.
  rewrite filter_cons. destruct Hd. case_decide; constructor; auto.
Qed.

Lemma omap_seq_S {A} (f : nat → option A) n :
  omap f (seq 0 (S n)) = option_list (f 0%nat) ++ omap (λ i, f (S i)) (seq 0 n).
Proof.
  cbn [seq]. rewrite <-fmap_S_seq.
  assert (∀ l : list nat, omap f (S <$> l) = omap (λ i, f (S i)) l) as E.
  { induction l as [|i l IH]; [done|]. rewrite fmap_cons. cbn. by rewrite <-IH. }
  simpl. rewrite E. by destruct (f 0%nat).
Qed.

Lemma omap_ext {A B} (f g : A → option B) (l : list A) : (∀ x, f x = g x) → omap f l = omap g l.
Proof.
  intros E. induction l as [|x l IH]; [done|]. simpl. rewrite E.
  destruct (g x); [f_equal|]; exact IH.
Qed.

Lemma omap_snoc {A B} (f : A → option B) (l : list A) x :
  omap f (l ++ [x]) = omap f l ++ option_list (f x).
Proof. by rewrite omap_app. Qed.

Lemma length_omap {A B} (f : A → option B) (l : list A) : (length (omap f l) ≤ length l)%nat.
Proof.
  induction l as [|x l IH]; [done|]. change (x :: l) with ([x] ++ l).
  rewrite omap_app, !length_app. simpl. destruct (f x); simpl; lia.
Qed.

(** Reading consecutive positions of a list. *)
Lemma omap_lookup_seq {A} (l : list A) (f : nat → option A) a b n :
  (a + n ≤ length l)%nat → (∀ i, (i < n)%nat → f (b + i)%nat = l !! (a + i)%nat) →
  omap f (seq b n) = take n (drop a l).
Proof.
  revert a b. induction n as [|n IH]; intros a b Hl Hf; [by rewrite take_0|].
  destruct (lookup_lt_is_Some_2 l a ltac:(lia)) as [x Hx].
  rewrite (drop_S _ _ _ Hx). simpl.
  pose proof (Hf 0%nat ltac:(lia)) as H0. rewrite !Nat.add_0_r in H0. rewrite H0, Hx. f_equal.
  apply IH; [lia|]. intros i Hi. rewrite Nat.add_succ_comm, Hf by lia. f_equal. lia.
Qed.

Lemma mjoin_cons {A} (x : list A) l : mjoin (x :: l) = x ++ mjoin l.
Proof. done. Qed.

Lemma length_mjoin_fmap {A B} (f : A → list B) (g : A → nat) l :
  (∀ x, length (f x) = g x) → length (mjoin (f <$> l)) = sum_list (g <$> l).
Proof.
  intros Hfg. induction l as [|x l IH]; [done|]. rewrite !fmap_cons, mjoin_cons, length_app, Hfg, IH. done.
Qed.

#[export] Hint Rewrite @length_app @length_take @length_drop @length_cons
  @length_reverse @length_replicate @length_nil @length_fmap : goq_len.
