(* ===== verification/Bytes.v ===== *)
(** * Byte slices

    Go's [[]byte] as lists of [Byte.byte], the fixed-width big-endian and
    little-endian encodings of [encoding/binary], [bytes.Compare] and the order
    it decides.  Every byte list is a valid Go slice, so no side condition on
    byte values appears anywhere in the development. *)
From stdpp Require Import prelude gmap strings.
From Stdlib Require Import Strings.Byte.
From S2P Require Import Prelude.
Local Open Scope Z_scope.

Abbreviation byte := Init.Byte.byte.
Abbreviation bytes := (list Init.Byte.byte).

#[export] Instance byte_eq_dec : EqDecision byte := Byte.byte_eq_dec.
#[export] Program Instance byte_countable : Countable byte :=
  inj_countable Byte.to_N (λ n, Byte.of_N n) _.
Next Obligation. intros b. apply Byte.of_to_N. Qed.

(** The value of a byte, and Go's conversion [byte(z)]. *)
Definition byte_Z (b : byte) : Z := Z.of_N (Byte.to_N b).
Definition Z_byte (z : Z) : byte :=
  default Byte.x00 (Byte.of_N (Z.to_N (z `mod` 256))).

(** Length of a slice as a Go [int]. *)
Definition len {A} (l : list A) : Z := Z.of_nat (length l).

(** A Go string literal as a byte slice, [[]byte("...")]. *)
Definition of_str (s : string) : bytes := String.list_byte_of_string s.

(** ** Fixed-width encodings *)

(** [binary.BigEndian.PutUint16/32/64]: [n] bytes, most significant first. *)
Fixpoint be_bytes (n : nat) (z : Z) : bytes :=
  match n with
  | O => []
  | S n' => Z_byte (Z.shiftr z (8 * Z.of_nat n')) :: be_bytes n' z
  end.

Definition le_bytes (n : nat) (z : Z) : bytes := reverse (be_bytes n z).

(** The number a big-endian slice denotes. *)
Fixpoint be_val (l : bytes) : Z :=
  match l with
  | [] => 0
  | b :: l' => byte_Z b * 2 ^ (8 * len l') + be_val l'
  end.

Definition le_val (l : bytes) : Z := be_val (reverse l).

(** [binary.BigEndian.Uint64(b)]: reads [b[0..7]] and panics on a shorter
    slice; likewise for the other widths. *)
Definition be_uint (n : nat) (b : bytes) : outcome Z :=
  if decide (n ≤ length b)%nat then Ok (be_val (take n b)) else Panic.

(** ** bytes.Compare *)
Fixpoint bytes_compare (a b : bytes) : comparison :=
  match a, b with
  | [], [] => Eq
  | [], _ :: _ => Lt
  | _ :: _, [] => Gt
  | x :: a', y :: b' =>
      match byte_Z x ?= byte_Z y with
      | Eq => bytes_compare a' b'
      | c => c
      end
  end.

Definition bytes_le (a b : bytes) : Prop := bytes_compare a b ≠ Gt.
Definition bytes_lt (a b : bytes) : Prop := bytes_compare a b = Lt.

#[export] Instance bytes_le_dec : RelDecision bytes_le.
Proof. intros a b. unfold bytes_le. solve_decision. Defined.
#[export] Instance bytes_lt_dec : RelDecision bytes_lt.
Proof. intros a b. unfold bytes_lt. solve_decision. Defined.

(** ** Lemmas on bytes *)
Lemma byte_Z_range b : 0 ≤ byte_Z b < 256.
Proof. unfold byte_Z. pose proof (Byte.to_N_bounded b). lia. Qed.

Lemma byte_Z_Z_byte z : byte_Z (Z_byte z) = z `mod` 256.
Proof.
  unfold byte_Z, Z_byte.
  pose proof (Z.mod_pos_bound z 256 ltac:(lia)) as Hr.
  destruct (Byte.of_N (Z.to_N (z `mod` 256))) as [b|] eqn:E; simpl.
  - apply Byte.to_of_N in E. rewrite E. lia.
  - apply Byte.of_N_None_iff in E. lia.
Qed.

Lemma Z_byte_byte_Z b : Z_byte (byte_Z b) = b.
Proof.
  unfold Z_byte, byte_Z. pose proof (Byte.to_N_bounded b).
  rewrite Z.mod_small by lia. rewrite N2Z.id, Byte.of_to_N. done.
Qed.

#[export] Instance byte_Z_inj : Inj (=) (=) byte_Z.
Proof. intros a b E. by rewrite <-(Z_byte_byte_Z a), E, Z_byte_byte_Z. Qed.

Lemma len_app {A} (l k : list A) : len (l ++ k) = len l + len k.
Proof. unfold len. rewrite length_app. lia. Qed.

Lemma len_cons {A} (x : A) (l : list A) : len (x :: l) = 1 + len l.
Proof. unfold len. simpl. lia. Qed.

Lemma len_nonneg {A} (l : list A) : 0 ≤ len l.
Proof. unfold len. lia. Qed.

Lemma length_be_bytes n z : length (be_bytes n z) = n.
Proof. induction n; simpl; congruence. Qed.

Lemma length_le_bytes n z : length (le_bytes n z) = n.
Proof. unfold le_bytes. by rewrite length_reverse, length_be_bytes. Qed.

#[export] Hint Rewrite length_be_bytes length_le_bytes : goq_len.

Lemma be_val_range l : 0 ≤ be_val l < 2 ^ (8 * len l).
Proof.
  induction l as [|b l IH]; [done|].
  simpl be_val. pose proof (byte_Z_range b).
  rewrite len_cons.
  replace (8 * (1 + len l)) with (8 + 8 * len l) by lia.
  pose proof (len_nonneg l).
  rewrite Z.pow_add_r by lia. change (2 ^ 8) with 256. nia.
Qed.

Lemma be_val_be_bytes n z : be_val (be_bytes n z) = z `mod` 2 ^ (8 * Z.of_nat n).
Proof.
  induction n as [|n IH]; [symmetry; apply Z.mod_1_r|].
  simpl be_bytes. simpl be_val. rewrite byte_Z_Z_byte, IH.
  unfold len. rewrite length_be_bytes, Z.shiftr_div_pow2 by lia.
  replace (8 * Z.of_nat (S n)) with (8 * Z.of_nat n + 8) by lia.
  rewrite (Z.pow_add_r 2 (8 * Z.of_nat n) 8) by lia. change (2 ^ 8) with 256.
  rewrite (Z.rem_mul_r z (2 ^ (8 * Z.of_nat n)) 256) by lia. lia.
Qed.

Lemma be_val_app l k : be_val (l ++ k) = be_val l * 2 ^ (8 * len k) + be_val k.
Proof.
  induction l as [|b l IH]; [done|]. simpl. rewrite IH, len_app.
  pose proof (len_nonneg l). pose proof (len_nonneg k).
  replace (8 * (len l + len k)) with (8 * len l + 8 * len k) by lia.
  rewrite Z.pow_add_r by lia. ring.
Qed.

(** Two slices of one length with one value are the same slice. *)
Lemma be_val_inj l k : length l = length k → be_val l = be_val k → l = k.
Proof.
  revert k. induction l as [|a l IH]; intros [|b k] Hl Hv; try done.
  simpl in *. unfold len in Hv. injection Hl as Hl. rewrite Hl in Hv.
  pose proof (be_val_range l) as Rl. pose proof (be_val_range k) as Rk.
  unfold len in Rl, Rk. rewrite Hl in Rl.
  set (m := 2 ^ (8 * Z.of_nat (length k))) in *.
  assert (byte_Z a = byte_Z b) as Hab.
  { pose proof (byte_Z_range a). pose proof (byte_Z_range b). nia. }
  apply (inj byte_Z) in Hab as ->. f_equal. apply IH; lia.
Qed.

Lemma be_bytes_be_val l : be_bytes (length l) (be_val l) = l.
Proof.
  apply be_val_inj; [apply length_be_bytes|].
  rewrite be_val_be_bytes. apply Z.mod_small, be_val_range.
Qed.

Lemma le_val_le_bytes n z : le_val (le_bytes n z) = z `mod` 2 ^ (8 * Z.of_nat n).
Proof. unfold le_val, le_bytes. by rewrite reverse_involutive, be_val_be_bytes. Qed.

(** Reading a number back from the front of a slice. *)
Lemma be_uint_app n z rest :
  be_uint n (be_bytes n z ++ rest) = Ok (z `mod` 2 ^ (8 * Z.of_nat n)).
Proof.
  unfold be_uint. rewrite decide_True by (rewrite length_app, length_be_bytes; lia).
  by rewrite take_app_exact, be_val_be_bytes by (by rewrite length_be_bytes).
Qed.

Lemma be_uint_exact n z : be_uint n (be_bytes n z) = Ok (z `mod` 2 ^ (8 * Z.of_nat n)).
Proof. rewrite <-(app_nil_r (be_bytes n z)). apply be_uint_app. Qed.

(** ** The lexicographic order *)

(** Slices with heads of one length compare as the numbers the heads denote,
    and as their tails when these are equal: this is what makes the big-endian
    key layout sortable. *)
Lemma bytes_compare_app l k x y :
  length l = length k →
  bytes_compare (l ++ x) (k ++ y) =
    match be_val l ?= be_val k with Eq => bytes_compare x y | c => c end.
Proof.
  revert k. induction l as [|a l IH]; intros [|b k] Hl; try done.
  simpl in *. injection Hl as Hl. rewrite (IH k Hl).
  pose proof (be_val_range l) as Rl. pose proof (be_val_range k) as Rk.
  unfold len in *. rewrite Hl in *.
  set (m := 2 ^ (8 * Z.of_nat (length k))) in *.
  destruct (Z.compare_spec (byte_Z a) (byte_Z b)) as [Hc|Hc|Hc].
  - rewrite Hc. destruct (Z.compare_spec (be_val l) (be_val k)) as [Hd|Hd|Hd].
    + by rewrite Hd, Z.compare_refl.
    + by rewrite (proj2 (Z.compare_lt_iff _ _)) by nia.
    + by rewrite (proj2 (Z.compare_gt_iff _ _)) by nia.
  - by rewrite (proj2 (Z.compare_lt_iff _ _)) by nia.
  - by rewrite (proj2 (Z.compare_gt_iff _ _)) by nia.
Qed.

Lemma bytes_compare_refl a : bytes_compare a a = Eq.
Proof. induction a as [|x a IH]; simpl; [done|]. by rewrite Z.compare_refl. Qed.

Lemma bytes_compare_eq a b : bytes_compare a b = Eq ↔ a = b.
Proof.
  split; [|intros ->; apply bytes_compare_refl].
  revert b. induction a as [|x a IH]; intros [|y b]; simpl; try done.
  destruct (Z.compare_spec (byte_Z x) (byte_Z y)) as [Hc|Hc|Hc]; try done.
  intros E. apply (inj byte_Z) in Hc as ->. f_equal. by apply IH.
Qed.

Lemma bytes_compare_antisym a b : bytes_compare b a = CompOpp (bytes_compare a b).
Proof.
  revert b. induction a as [|x a IH]; intros [|y b]; simpl; try done.
  rewrite Z.compare_antisym. destruct (byte_Z x ?= byte_Z y); simpl; auto.
Qed.

#[export] Instance bytes_lt_trans : Transitive bytes_lt.
Proof.
  unfold bytes_lt. intros a b c. revert b c.
  induction a as [|x a IH]; intros [|y b] [|z c]; simpl; try done.
  destruct (Z.compare_spec (byte_Z x) (byte_Z y)) as [H|H|H];
    destruct (Z.compare_spec (byte_Z y) (byte_Z z)) as [H'|H'|H']; intros; try done.
  - rewrite H, H', Z.compare_refl. by eapply IH.
  - by rewrite (proj2 (Z.compare_lt_iff _ _)) by lia.
  - by rewrite (proj2 (Z.compare_lt_iff _ _)) by lia.
  - by rewrite (proj2 (Z.compare_lt_iff _ _)) by lia.
Qed.

Lemma bytes_lt_irrefl a : ¬ bytes_lt a a.
Proof. unfold bytes_lt. by rewrite bytes_compare_refl. Qed.

Lemma bytes_le_lt_eq a b : bytes_le a b ↔ bytes_lt a b ∨ a = b.
Proof.
  unfold bytes_le, bytes_lt. rewrite <-bytes_compare_eq.
  destruct (bytes_compare a b); intuition congruence.
Qed.

Lemma bytes_not_le a b : ¬ bytes_le a b ↔ bytes_lt b a.
Proof.
  unfold bytes_le, bytes_lt. rewrite (bytes_compare_antisym a b).
  destruct (bytes_compare a b); naive_solver.
Qed.

Lemma bytes_not_lt a b : ¬ bytes_lt a b ↔ bytes_le b a.
Proof.
  unfold bytes_le, bytes_lt. rewrite (bytes_compare_antisym a b).
  destruct (bytes_compare a b); naive_solver.
Qed.

#[export] Instance bytes_le_refl : Reflexive bytes_le.
Proof. intros a. apply bytes_le_lt_eq. by right. Qed.

#[export] Instance bytes_le_trans : Transitive bytes_le.
Proof.
  intros a b c. rewrite !bytes_le_lt_eq.
  intros [H|H] [H'|H']; subst; auto. left. by trans b.
Qed.

#[export] Instance bytes_le_total : Total bytes_le.
Proof.
  intros a b. destruct (decide (bytes_le a b)) as [|H]; [by left|right].
  apply bytes_not_le in H. apply bytes_le_lt_eq. by left.
Qed.

#[export] Instance bytes_le_anti_symm : AntiSymm (=) bytes_le.
Proof.
  intros a b Ha Hb. apply bytes_le_lt_eq in Ha as [H|]; [|done].
  by apply bytes_not_le in H.
Qed.

Lemma bytes_lt_le_trans a b c : bytes_lt a b → bytes_le b c → bytes_lt a c.
Proof. intros H [H'| <-]%bytes_le_lt_eq; [by trans b|done]. Qed.

Lemma bytes_le_lt_trans a b c : bytes_le a b → bytes_lt b c → bytes_lt a c.
Proof. intros [H'| ->]%bytes_le_lt_eq H; [by trans b|done]. Qed.

#[export] Hint Resolve bytes_lt_irrefl len_nonneg : goq.

#[global] Arguments be_bytes : simpl never.
#[global] Arguments le_bytes : simpl never.
#[global] Arguments be_val : simpl never.
#[global] Arguments be_uint : simpl never.
#[global] Arguments bytes_compare : simpl never.
