(* ===== verification/Keys.v ===== *)
(** * Storage keys ([src/pkg/utils/keys.go])

    The 24-byte event key [topicHash | bucket | eventID], the scan bounds
    built from its prefixes, and the time bucket.  [xxhash] is a library the
    repository only calls; it enters as the class [XXHash]. *)
From stdpp Require Import prelude gmap strings.
From S2P Require Import Prelude Bytes.
Local Open Scope Z_scope.

(** xxhash.Sum64String: some function into 64-bit values. *)
Class XXHash := {
  Sum64String : string → Z;
  Sum64String_range : ∀ s, is_u64 (Sum64String s);
}.

Definition TopicHash `{XXHash} (topic : string) : Z := Sum64String topic.

(** Go's [time.Duration] is an [int64] count of nanoseconds. *)
Definition Millisecond : Z := 1000000.

(** [Duration.Milliseconds]: truncated division. *)
Definition Milliseconds (d : Z) : Z := Z.quot d Millisecond.

(** The division panics when the bucket size is positive and below one
    millisecond. *)
Definition CalculateBucket (unixMs bucketSize : Z) : outcome Z :=
  if decide (unixMs ≤ 0) then Ok 0
  else if decide (bucketSize ≤ 0) then Ok (u64 unixMs)
  else
    let d := u64 (Milliseconds bucketSize) in
    if decide (d = 0) then Panic else Ok (u64 unixMs / d).

Definition EventKey (bucket topicHash eventID : Z) : bytes :=
  be_bytes 8 topicHash ++ be_bytes 8 bucket ++ be_bytes 8 eventID.

Definition TopicLowerBound (topicHash : Z) : bytes := be_bytes 8 topicHash.

Definition TopicUpperBound (topicHash : Z) : bytes := be_bytes 8 (u64 (topicHash + 1)).

Definition DueUpperBound (topicHash maxBucket : Z) : bytes :=
  be_bytes 8 topicHash ++ be_bytes 8 (u64 (maxBucket + 1)).

Definition BucketUpperBound (maxBucket : Z) : bytes := be_bytes 8 (u64 (maxBucket + 1)).

Definition errInvalidKeyLength : string := "key length must be 24. got %d".

(** Returns (topicHash, bucket, eventID). *)
Definition ParseEventKey (key : bytes) : outcome (Z * Z * Z) :=
  if decide (len key ≠ 24) then Err (ErrorMsg errInvalidKeyLength [len key])
  else
    topicHash ← be_uint 8 (take 8 key);
    bucket ← be_uint 8 (take 8 (drop 8 key));
    eventID ← be_uint 8 (take 8 (drop 16 key));
    Ok (topicHash, bucket, eventID).

(** Lexicographic comparison of the three components, the order the layout
    comment promises. *)
Definition key_compare (h1 b1 i1 h2 b2 i2 : Z) : comparison :=
  match h1 ?= h2 with
  | Eq => match b1 ?= b2 with Eq => i1 ?= i2 | c => c end
  | c => c
  end.

(** The bucket width in milliseconds, and the bucket sizes a validated
    configuration can hold: none, or at least one millisecond. *)
Definition bucket_ms (bucketSize : Z) : Z :=
  if decide (bucketSize ≤ 0) then 1 else Milliseconds bucketSize.

Definition valid_bucket_size (bucketSize : Z) : Prop :=
  bucketSize ≤ 0 ∨ Millisecond ≤ bucketSize < 2 ^ 63.

#[export] Instance valid_bucket_size_dec d : Decision (valid_bucket_size d).
Proof. unfold valid_bucket_size. apply _. Defined.

(** ** Lemmas *)
Lemma length_EventKey b h i : length (EventKey b h i) = 24%nat.
Proof. unfold EventKey. by rewrite !length_app, !length_be_bytes. Qed.

Lemma len_EventKey b h i : len (EventKey b h i) = 24.
Proof. unfold len. by rewrite length_EventKey. Qed.

#[export] Hint Rewrite length_EventKey : goq_len.

Lemma be_val_u64 z : is_u64 z → be_val (be_bytes 8 z) = z.
Proof. intros Hz. rewrite be_val_be_bytes. by apply Z.mod_small. Qed.

Lemma be_val_range_u64 l : length l = 8%nat → is_u64 (be_val l).
Proof. intros E. pose proof (be_val_range l) as R. unfold len in R. by rewrite E in R. Qed.

Lemma be_uint_u64 z : is_u64 z → be_uint 8 (be_bytes 8 z) = Ok z.
Proof. intros Hz. rewrite be_uint_exact. f_equal. by apply Z.mod_small. Qed.

Lemma EventKey_split b h i :
  take 8 (EventKey b h i) = be_bytes 8 h ∧
  take 8 (drop 8 (EventKey b h i)) = be_bytes 8 b ∧
  take 8 (drop 16 (EventKey b h i)) = be_bytes 8 i.
Proof.
  unfold EventKey. split_and!.
  - by rewrite take_app_exact.
  - by rewrite drop_app_exact, take_app_exact.
  - rewrite app_assoc, (drop_app_exact (be_bytes 8 h ++ _)) by done.
    apply take_ge. by rewrite length_be_bytes.
Qed.

Lemma ParseEventKey_EventKey b h i :
  is_u64 b → is_u64 h → is_u64 i → ParseEventKey (EventKey b h i) = Ok (h, b, i).
Proof.
  intros Hb Hh Hi. unfold ParseEventKey. rewrite len_EventKey, decide_False by auto.
  destruct (EventKey_split b h i) as (-> & -> & ->).
  by rewrite !be_uint_u64.
Qed.

Lemma ParseEventKey_inv k h b i :
  ParseEventKey k = Ok (h, b, i) →
  k = EventKey b h i ∧ is_u64 h ∧ is_u64 b ∧ is_u64 i.
Proof.
  unfold ParseEventKey. case_decide as Hl; [done|].
  unfold be_uint, len in *.
  rewrite !decide_True by (autorewrite with goq_len; lia).
  simpl. rewrite !take_take. intros [= <- <- <-].
  assert (∀ l : bytes, length l = 8%nat → be_bytes 8 (be_val l) = l) as He.
  { intros l E. rewrite <-E. apply be_bytes_be_val. }
  split_and!.
  - unfold EventKey. rewrite !He by (autorewrite with goq_len; lia).
    rewrite (take_ge (drop 16 k)) by (autorewrite with goq_len; lia).
    replace (drop 16 k) with (drop 8 (drop 8 k)) by (by rewrite drop_drop).
    by rewrite take_drop, take_drop.
  - eapply be_val_range_u64; autorewrite with goq_len; lia.
  - eapply be_val_range_u64; autorewrite with goq_len; lia.
  - eapply be_val_range_u64; autorewrite with goq_len; lia.
Qed.

Lemma EventKey_inj b h i b' h' i' :
  is_u64 b → is_u64 h → is_u64 i → is_u64 b' → is_u64 h' → is_u64 i' →
  EventKey b h i = EventKey b' h' i' → (b, h, i) = (b', h', i').
Proof.
  intros ?????? E. apply (f_equal ParseEventKey) in E.
  rewrite !ParseEventKey_EventKey in E by done. congruence.
Qed.

Lemma EventKey_compare b1 h1 i1 b2 h2 i2 :
  is_u64 b1 → is_u64 h1 → is_u64 i1 → is_u64 b2 → is_u64 h2 → is_u64 i2 →
  bytes_compare (EventKey b1 h1 i1) (EventKey b2 h2 i2) =
    key_compare h1 b1 i1 h2 b2 i2.
Proof.
  intros. unfold EventKey, key_compare.
  rewrite <-(app_nil_r (be_bytes 8 i1)), <-(app_nil_r (be_bytes 8 i2)).
  rewrite !bytes_compare_app, !be_val_u64 by (done || by rewrite !length_be_bytes).
  by destruct (h1 ?= h2), (b1 ?= b2), (i1 ?= i2).
Qed.

(** The keys of the half-open scan range of a topic. *)
Lemma EventKey_ge_lower b h i h0 :
  is_u64 h → is_u64 h0 →
  bytes_le (TopicLowerBound h0) (EventKey b h i) ↔ h0 ≤ h.
Proof.
  intros. unfold bytes_le, TopicLowerBound, EventKey.
  rewrite <-(app_nil_r (be_bytes 8 h0)).
  rewrite bytes_compare_app, !be_val_u64 by (done || by rewrite !length_be_bytes).
  by destruct (Z.compare_spec h0 h); split; intros; try done; try lia.
Qed.

Lemma EventKey_lt_due b h i h0 b0 :
  is_u64 h → is_u64 h0 → is_u64 b → is_u64 (b0 + 1) →
  bytes_lt (EventKey b h i) (DueUpperBound h0 b0) ↔ h < h0 ∨ (h = h0 ∧ b ≤ b0).
Proof.
  intros Hh Hh0 Hb Hb0. unfold bytes_lt, DueUpperBound, EventKey.
  rewrite (u64_small (b0 + 1)) by done.
  rewrite <-(app_nil_r (be_bytes 8 (b0 + 1))).
  rewrite !bytes_compare_app, !be_val_u64 by (done || by rewrite !length_be_bytes).
  destruct (Z.compare_spec h h0); [|split; auto; lia|split; [done|lia]].
  destruct (Z.compare_spec b (b0 + 1)); split; intros; try done; lia.
Qed.

Lemma EventKey_in_due_range b h i h0 b0 :
  is_u64 h → is_u64 h0 → is_u64 b → is_u64 (b0 + 1) →
  (bytes_le (TopicLowerBound h0) (EventKey b h i) ∧
   bytes_lt (EventKey b h i) (DueUpperBound h0 b0)) ↔ h = h0 ∧ b ≤ b0.
Proof. intros. rewrite EventKey_ge_lower, EventKey_lt_due by done. lia. Qed.

Lemma bucket_ms_pos d : valid_bucket_size d → 1 ≤ bucket_ms d < 2 ^ 63.
Proof.
  unfold bucket_ms, Milliseconds, valid_bucket_size, Millisecond.
  intros H. case_decide; [lia|].
  rewrite Z.quot_div_nonneg by lia.
  pose proof (Z.div_le_lower_bound d 1000000 1). pose proof (Z.div_le_upper_bound d 1000000 d).
  lia.
Qed.

(** The bucket as one division, on the configurations that [validate]
    accepts. *)
Lemma CalculateBucket_valid t d :
  is_i64 t → valid_bucket_size d →
  CalculateBucket t d = Ok (Z.max 0 t / bucket_ms d).
Proof.
  intros Ht Hd. pose proof (bucket_ms_pos d Hd) as Hp.
  unfold is_i64 in Ht. unfold CalculateBucket. case_decide.
  { rewrite Z.max_l by lia. by rewrite Z.div_0_l by lia. }
  rewrite Z.max_r by lia. unfold bucket_ms in *. case_decide.
  { rewrite u64_small, Z.div_1_r by (unfold is_u64; lia). done. }
  rewrite (u64_small (Milliseconds d)) by (unfold is_u64; lia).
  rewrite decide_False by lia. by rewrite u64_small by (unfold is_u64; lia).
Qed.

Lemma CalculateBucket_range t d b :
  is_i64 t → valid_bucket_size d → CalculateBucket t d = Ok b → 0 ≤ b < 2 ^ 63.
Proof.
  intros Ht Hd. rewrite CalculateBucket_valid by done. intros [= <-].
  pose proof (bucket_ms_pos d Hd). unfold is_i64 in Ht.
  split; [apply Z.div_pos; lia|].
  pose proof (Z.div_le_upper_bound (Z.max 0 t) (bucket_ms d) (Z.max 0 t)). nia.
Qed.

Lemma CalculateBucket_mono t t' d b b' :
  is_i64 t → is_i64 t' → valid_bucket_size d → t ≤ t' →
  CalculateBucket t d = Ok b → CalculateBucket t' d = Ok b' → b ≤ b'.
Proof.
  intros Ht Ht' Hd Hle. rewrite !CalculateBucket_valid by done.
  intros [= <-] [= <-]. pose proof (bucket_ms_pos d Hd). apply Z.div_le_mono; lia.
Qed.

(** A message whose bucket is reached by [now] is late, or early by less than
    one bucket. *)
Lemma CalculateBucket_early t now d b b' :
  is_i64 t → is_i64 now → valid_bucket_size d →
  CalculateBucket t d = Ok b → CalculateBucket now d = Ok b' → b ≤ b' →
  t < Z.max 0 now + bucket_ms d.
Proof.
  intros Ht Hn Hd. rewrite !CalculateBucket_valid by done.
  intros [= <-] [= <-] Hle. pose proof (bucket_ms_pos d Hd) as Hp.
  pose proof (Z.mul_succ_div_gt (Z.max 0 t) (bucket_ms d) ltac:(lia)).
  pose proof (Z.mul_div_le (Z.max 0 now) (bucket_ms d) ltac:(lia)). nia.
Qed.

(** ** Properties *)

(** Keys decode to the components they were built from, and every key that
    parses is the key built from what it parses to; so two different
    (bucket, topic hash, id) triples never share a key. *)
Theorem event_key_roundtrip b h i :
  is_u64 b → is_u64 h → is_u64 i →
  ParseEventKey (EventKey b h i) = Ok (h, b, i) ∧
  (∀ k, ParseEventKey k = Ok (h, b, i) → k = EventKey b h i) ∧
  (∀ b' h' i', is_u64 b' → is_u64 h' → is_u64 i' →
     EventKey b h i = EventKey b' h' i' → (b, h, i) = (b', h', i')).
Proof.
  intros Hb Hh Hi. split_and!.
  - by apply ParseEventKey_EventKey.
  - intros k Hk. by apply ParseEventKey_inv in Hk as [-> _].
  - intros. by apply EventKey_inj.
Qed.

(** The byte order of keys is the order of (topic hash, bucket, id), and
    the scan bounds of a topic select exactly the keys of that topic whose
    bucket is at most the given one. *)
Theorem event_key_order b1 h1 i1 b2 h2 i2 :
  is_u64 b1 → is_u64 h1 → is_u64 i1 → is_u64 b2 → is_u64 h2 → is_u64 i2 →
  bytes_compare (EventKey b1 h1 i1) (EventKey b2 h2 i2) = key_compare h1 b1 i1 h2 b2 i2 ∧
  (is_u64 (b2 + 1) →
   (bytes_le (TopicLowerBound h2) (EventKey b1 h1 i1) ∧
    bytes_lt (EventKey b1 h1 i1) (DueUpperBound h2 b2)) ↔ h1 = h2 ∧ b1 ≤ b2).
Proof.
  intros. split; [by apply EventKey_compare|]. intros. by apply EventKey_in_due_range.
Qed.

(** Buckets are monotone in time and, for the bucket sizes a configuration
    can hold, defined for every timestamp; a positive size below one
    millisecond makes the division panic. *)
Theorem calculate_bucket_total t t' d :
  is_i64 t → is_i64 t' → t ≤ t' →
  (valid_bucket_size d →
   ∃ b b', CalculateBucket t d = Ok b ∧ CalculateBucket t' d = Ok b' ∧ 0 ≤ b ≤ b' ∧ b' < 2 ^ 63) ∧
  (0 < t → 0 < d < Millisecond → CalculateBucket t d = Panic).
Proof.
  intros Ht Ht' Hle. split.
  - intros Hd. pose proof (CalculateBucket_valid t d Ht Hd) as E.
    pose proof (CalculateBucket_valid t' d Ht' Hd) as E'.
    eexists _, _. split_and!; [exact E|exact E'|..].
    + by apply (CalculateBucket_range t d).
    + exact (CalculateBucket_mono t t' d _ _ Ht Ht' Hd Hle E E').
    + by apply (CalculateBucket_range t' d).
  - intros Hp Hd. unfold CalculateBucket, Milliseconds.
    rewrite (decide_False (P := t ≤ 0)), (decide_False (P := d ≤ 0)) by lia.
    by rewrite Z.quot_small by lia.
Qed.

Lemma event_key_roundtrip_witness : ParseEventKey (EventKey 1 2 3) = Ok (2, 1, 3).
Proof. refine (proj1 (event_key_roundtrip 1 2 3 _ _ _)); by split. Defined.

Lemma event_key_order_witness : bytes_compare (EventKey 9 1 0) (EventKey 1 2 0) = Lt.
Proof. refine (proj1 (event_key_order 9 1 0 1 2 0 _ _ _ _ _ _)); by split. Defined.

Lemma calculate_bucket_total_witness : CalculateBucket 5 500000 = Panic.
Proof. refine (proj2 (calculate_bucket_total 5 6 500000 _ _ _) _ _); by vm_compute. Defined.
