(* ===== verification/Config.v ===== *)
(** * The configuration ([src/internal/config/config.go], [default.go])

    The configuration structs, the defaults, the environment overrides, the
    post-load hook and the validation.  Reading and merging the YAML (viper,
    yaml) is the argument [decoded] of [Load]: the outcome of decoding the
    merged settings.  The environment is the argument [getenv]. *)
From stdpp Require Import prelude gmap strings.
From Stdlib Require Import Ascii.
From S2P Require Import Prelude Bytes Keys.
Local Open Scope Z_scope.

Definition Quorum : string := "Quorum".
Definition NoAck : string := "NoAck".

Record ServerCfg := mkServerCfg {
  Listen : string;
  MaxConns : Z;
  Timeout : Z;
  MaxRecvSizeKB : Z;
  MaxSendSizeKB : Z;
}.

Record ObservabilityCfg := mkObservabilityCfg {
  LoggerLevel : string;
  MetricsAddr : string;
}.

Record BoltCfg := mkBoltCfg {
  BoltDataPath : string;
  DefaultBucket : string;
}.

Record PebbleCfg := mkPebbleCfg {
  DisableWAL : bool;
  PebbleDataPath : string;
  CacheSizeMB : Z;
  InMemTableSizeMB : Z;
}.

Record StorageCfg := mkStorageCfg {
  MinAckLevel : string;
  Persist : bool;
  TimeBucketSize : Z;
  Type_ : string;
  Pebble : PebbleCfg;
  Bolt : BoltCfg;
}.

Record RaftCfg := mkRaftCfg {
  Enabled : bool;
  NodeID : Z;
  ClusterID : Z;
  ListenAddress : string;
  RaftDataPath : string;
  InitialMembers : gmap Z string;
  RTTMillisecond : Z;
  SnapshotEntries : Z;
  CompactionOverhead : Z;
}.

Record ConsumerCfg := mkConsumerCfg {
  DispatchPollIntervalMs : Z;
  DeleteBatchIntervalMs : Z;
  InFlightTimeoutMs : Z;
  TTLJanitorIntervalMs : Z;
}.

Record Config := mkConfig {
  Server : ServerCfg;
  Observability : ObservabilityCfg;
  Storage : StorageCfg;
  Raft : RaftCfg;
  Consumer : ConsumerCfg;
}.

Definition Second : Z := 1000 * Millisecond.

Definition defaultConfig : Config := {|
  Server := mkServerCfg "0.0.0.0:8443" 10 (5 * Second) 100 100;
  Observability := mkObservabilityCfg "info" "0.0.0.0:9090";
  Storage := mkStorageCfg Quorum true (1 * Millisecond) "pebble"
               (mkPebbleCfg false "./data" 16 64) (mkBoltCfg "./data" "futureq");
  Raft := mkRaftCfg false 1 1 "0.0.0.0:50005" "./raft-data" {[1 := "0.0.0.0:50005"%string]} 200 10000 5000;
  Consumer := mkConsumerCfg 50 500 5000 60000;
|}.

(** Assignments to fields. *)
Definition set_Raft (f : RaftCfg → RaftCfg) (c : Config) : Config :=
  mkConfig (Server c) (Observability c) (Storage c) (f (Raft c)) (Consumer c).
Definition set_Storage (f : StorageCfg → StorageCfg) (c : Config) : Config :=
  mkConfig (Server c) (Observability c) (f (Storage c)) (Raft c) (Consumer c).
Definition set_NodeID (v : Z) (r : RaftCfg) : RaftCfg :=
  mkRaftCfg (Enabled r) v (ClusterID r) (ListenAddress r) (RaftDataPath r) (InitialMembers r)
    (RTTMillisecond r) (SnapshotEntries r) (CompactionOverhead r).
Definition set_ListenAddress (a : string) (r : RaftCfg) : RaftCfg :=
  mkRaftCfg (Enabled r) (NodeID r) (ClusterID r) a (RaftDataPath r) (InitialMembers r)
    (RTTMillisecond r) (SnapshotEntries r) (CompactionOverhead r).
Definition set_TimeBucketSize (d : Z) (s : StorageCfg) : StorageCfg :=
  mkStorageCfg (MinAckLevel s) (Persist s) d (Type_ s) (Pebble s) (Bolt s).
Definition clear_DataPaths (s : StorageCfg) : StorageCfg :=
  mkStorageCfg (MinAckLevel s) (Persist s) (TimeBucketSize s) (Type_ s)
    (mkPebbleCfg (DisableWAL (Pebble s)) "" (CacheSizeMB (Pebble s)) (InMemTableSizeMB (Pebble s)))
    (mkBoltCfg "" (DefaultBucket (Bolt s))).

(** [strconv.ParseUint(s, 10, 64)]: decimal digits only, in range. *)
Fixpoint parse_digits (s : string) (n : Z) : option Z :=
  match s with
  | EmptyString => Some n
  | String c s' =>
      let d := Z.of_nat (nat_of_ascii c) - 48 in
      if decide (0 ≤ d ≤ 9) then
        if decide (n * 10 + d < 2 ^ 64) then parse_digits s' (n * 10 + d) else None
      else None
  end.
Definition ParseUint (s : string) : option Z :=
  if decide (s = ""%string) then None else parse_digits s 0.

Definition env_overrides (getenv : string → string) (c : Config) : Config :=
  let nodeID := getenv "FUTUREQ_RAFT_NODEID"%string in
  let c1 := if decide (nodeID = ""%string) then c
            else match ParseUint nodeID with
                 | Some v => set_Raft (set_NodeID v) c
                 | None => c
                 end in
  let raftAddr := getenv "FUTUREQ_RAFT_LISTENADDRESS"%string in
  if decide (raftAddr = ""%string) then c1 else set_Raft (set_ListenAddress raftAddr) c1.

Definition runPostLoadHooks : st Config () := λ c,
  (if Persist (Storage c) then c else set_Storage clear_DataPaths c, Ok ()).

Definition fail {A} (msg : string) : st Config A := st_lift (Err (ErrorMsg msg [])).

Definition validateRaft : st Config () := λ c,
  (if decide (SnapshotEntries (Raft c) = 0) then fail "raft's snapshot entries cannot be zero"
   else if decide (CompactionOverhead (Raft c) = 0) then fail "raft's compaction overhead cannot be zero"
   else if decide (RTTMillisecond (Raft c) = 0) then fail "raft's rtt millisecond cannot be zero"
   else mret ()) c.

Definition validateStorage : st Config () := λ c,
  if decide (Persist (Storage c) = true ∧ PebbleDataPath (Pebble (Storage c)) = ""%string)
  then fail "pebble's data path cannot be empty when persist is true" c
  else
    let c1 := if decide (TimeBucketSize (Storage c) < 1 * Millisecond)
              then set_Storage (set_TimeBucketSize 0) c else c in
    if negb (Enabled (Raft c1)) && DisableWAL (Pebble (Storage c1))
    then fail "WAL can not be disabled on single node setup without raft" c1
    else if decide (Type_ (Storage c1) ≠ "pebble"%string ∧ Type_ (Storage c1) ≠ "bolt"%string)
    then fail "storage type can only be in (pebble, bolt)" c1
    else (c1, Ok ()).

Definition validate : st Config () := validateStorage;; validateRaft.

Definition Load (decoded : outcome Config) (getenv : string → string) : outcome Config :=
  match decoded with
  | Ok c0 =>
      match runPostLoadHooks (env_overrides getenv c0) with
      | (c1, Ok ()) =>
          match validate c1 with
          | (c, Ok ()) => Ok c
          | (_, Err e) => Err (ErrorWrap "error validating config" e)
          | (_, Panic) => Panic
          | (_, OutOfFuel) => OutOfFuel
          end
      | (_, Err e) => Err (ErrorWrap "failed to run post load hooks for config" e)
      | (_, Panic) => Panic
      | (_, OutOfFuel) => OutOfFuel
      end
  | Err e => Err (ErrorWrap "error unmarshalling config" e)
  | Panic => Panic
  | OutOfFuel => OutOfFuel
  end.

(** ** What a loaded configuration guarantees *)
Record config_ok (c : Config) : Prop := {
  co_bucket : valid_bucket_size (TimeBucketSize (Storage c));
  co_type : Type_ (Storage c) = "pebble"%string ∨ Type_ (Storage c) = "bolt"%string;
  co_persist : Persist (Storage c) = true → PebbleDataPath (Pebble (Storage c)) ≠ ""%string;
  co_memory : Persist (Storage c) = false →
    PebbleDataPath (Pebble (Storage c)) = ""%string ∧ BoltDataPath (Bolt (Storage c)) = ""%string;
  co_wal : Enabled (Raft c) = false → DisableWAL (Pebble (Storage c)) = false;
  co_raft : SnapshotEntries (Raft c) ≠ 0 ∧ CompactionOverhead (Raft c) ≠ 0 ∧ RTTMillisecond (Raft c) ≠ 0;
}.

Lemma hooks_storage c c' :
  runPostLoadHooks c = (c', Ok ()) →
  Raft c' = Raft c ∧ TimeBucketSize (Storage c') = TimeBucketSize (Storage c) ∧
  (Persist (Storage c') = false →
   PebbleDataPath (Pebble (Storage c')) = ""%string ∧ BoltDataPath (Bolt (Storage c')) = ""%string).
Proof.
  unfold runPostLoadHooks. destruct (Persist (Storage c)) eqn:E; intros [= <-]; simpl;
  split_and!; try done; intros; congruence.
Qed.

Lemma validateStorage_ok c c' :
  is_i64 (TimeBucketSize (Storage c)) → validateStorage c = (c', Ok ()) →
  Raft c' = Raft c ∧ Pebble (Storage c') = Pebble (Storage c) ∧ Bolt (Storage c') = Bolt (Storage c) ∧
  Persist (Storage c') = Persist (Storage c) ∧
  valid_bucket_size (TimeBucketSize (Storage c')) ∧
  (Type_ (Storage c') = "pebble"%string ∨ Type_ (Storage c') = "bolt"%string) ∧
  (Persist (Storage c') = true → PebbleDataPath (Pebble (Storage c')) ≠ ""%string) ∧
  (Enabled (Raft c') = false → DisableWAL (Pebble (Storage c')) = false).
Proof.
  intros Hb. unfold validateStorage. case_decide as Hp; [done|].
  set (c1 := if decide _ then _ else c).
  assert (Raft c1 = Raft c ∧ Pebble (Storage c1) = Pebble (Storage c) ∧ Bolt (Storage c1) = Bolt (Storage c) ∧
          Persist (Storage c1) = Persist (Storage c) ∧ valid_bucket_size (TimeBucketSize (Storage c1)))
    as (E1 & E2 & E3 & E4 & Hv).
  { unfold c1, valid_bucket_size, is_i64 in *. case_decide; simpl; split_and!; try done; lia. }
  destruct (Enabled (Raft c1)) eqn:He, (DisableWAL (Pebble (Storage c1))) eqn:Hw; simpl; try done;
    (case_decide as Ht; [done|]); intros [= <-]; split_and!; try done; try congruence;
    try (destruct (decide (Type_ (Storage c1) = "pebble"%string)); [by left|right];
         apply dec_stable; tauto);
    rewrite E2, E4; tauto.
Qed.

(** A configuration that loads is usable: the storage type is one of the two
    engines, the data path is set exactly when the store persists, a node
    without Raft keeps its WAL, the Raft parameters are not zero; and the bucket
    size is one for which every timestamp has a bucket, so neither publishing
    nor dispatching can panic on the division. *)
Theorem loaded_config_sound decoded getenv c :
  (∀ c0, decoded = Ok c0 → is_i64 (TimeBucketSize (Storage c0))) →
  Load decoded getenv = Ok c →
  config_ok c ∧ ∀ t, is_i64 t → ∃ b, CalculateBucket t (TimeBucketSize (Storage c)) = Ok b ∧ is_u64 b.
Proof.
  intros Hdec Hl. unfold Load in Hl. destruct decoded as [c0|e| |]; try done.
  specialize (Hdec c0 eq_refl).
  destruct (runPostLoadHooks (env_overrides getenv c0)) as [c1 [[]|e| |]] eqn:Hh; try done.
  destruct (validate c1) as [c' [[]|e| |]] eqn:Hr; try done. injection Hl as ->.
  apply st_bind_ok in Hr as (c2 & [] & Hs & Hra).
  apply hooks_storage in Hh as (Er & Eb & Hmem).
  assert (is_i64 (TimeBucketSize (Storage c1))) as Hb.
  { rewrite Eb. unfold env_overrides. repeat case_split_eq; simpl; done. }
  apply validateStorage_ok in Hs as (R2 & P2 & B2 & Pe2 & Hv & Hty & Hpe & Hw); [|done].
  assert (c2 = c ∧ SnapshotEntries (Raft c) ≠ 0 ∧ CompactionOverhead (Raft c) ≠ 0 ∧ RTTMillisecond (Raft c) ≠ 0)
    as [-> Hraft].
  { unfold validateRaft in Hra. repeat (case_decide; [done|]). injection Hra as ->. done. }
  split.
  - split; try done. rewrite P2, B2, Pe2. done.
  - intros t Ht. pose proof (CalculateBucket_valid t _ Ht Hv) as E. eexists. split; [exact E|].
    apply CalculateBucket_range in E; [|done..]. unfold is_u64. lia.
Qed.

(** ** Runs *)
Definition sample_env (name : string) : string :=
  if decide (name = "FUTUREQ_RAFT_NODEID"%string) then "7" else "".

Lemma loaded_config_sound_witness :
  ∃ c, Load (Ok defaultConfig) sample_env = Ok c ∧ NodeID (Raft c) = 7 ∧ config_ok c.
Proof.
  eexists. split; [reflexivity|]. split; [reflexivity|].
  refine (proj1 (loaded_config_sound (Ok defaultConfig) sample_env _ _ _)); [|reflexivity].
  intros c0 [= <-]. by vm_compute.
Defined.
