(* ===== verification/Storage.v ===== *)
(** * The storage contract ([src/internal/storage/contract.go])

    [DB] is the interface every engine promises: a finite map from keys to
    values, batches that are applied atomically and in order, and scans in
    lexicographic key order.  The clients (repository, state machine,
    dispatcher, janitor, deleter) are proved against this class; [Bolt.v] and
    [Pebble.v] discharge it for the two engines.

    Engines can fail.  A failing read is a [get_fault] or an [iter_error], a
    failing [Batch.Set]/[Batch.Delete] a [batch_fault], a failing commit the
    error component of [Commit]: the laws say what holds then. *)
From stdpp Require Import prelude gmap strings sorting.
From S2P Require Import Prelude Bytes.

Inductive SyncMode := NoSync | Sync.

(** A nil bound is [None]. *)
Record IterOptions := mkIterOptions {
  LowerBound : option bytes;
  UpperBound : option bytes;
}.

(** The mutations a batch collects. *)
Inductive batch_op :=
  | OpSet (key value : bytes)
  | OpDelete (key : bytes).

#[export] Instance batch_op_eq_dec : EqDecision batch_op.
Proof. solve_decision. Defined.

(** A pending [Batch]: its mutations in the order they were added. *)
Abbreviation Batch := (list batch_op).

Definition op_key (op : batch_op) : bytes :=
  match op with OpSet k _ => k | OpDelete k => k end.

Definition apply_op (m : gmap bytes bytes) (op : batch_op) : gmap bytes bytes :=
  match op with
  | OpSet k v => <[k := v]> m
  | OpDelete k => delete k m
  end.

Definition apply_ops (m : gmap bytes bytes) (ops : Batch) : gmap bytes bytes :=
  foldl apply_op m ops.

(** The key range of an iterator: inclusive lower, exclusive upper bound. *)
Definition above_lower (lo : option bytes) (k : bytes) : Prop :=
  match lo with Some l => bytes_le l k | None => True end.
Definition below_upper (hi : option bytes) (k : bytes) : Prop :=
  match hi with Some u => bytes_lt k u | None => True end.

#[export] Instance above_lower_dec lo k : Decision (above_lower lo k).
Proof. destruct lo; simpl; apply _. Defined.
#[export] Instance below_upper_dec hi k : Decision (below_upper hi k).
Proof. destruct hi; simpl; apply _. Defined.

Definition lower_of (o : option IterOptions) : option bytes := o ≫= LowerBound.
Definition upper_of (o : option IterOptions) : option bytes := o ≫= UpperBound.

Definition in_range (o : option IterOptions) (k : bytes) : Prop :=
  above_lower (lower_of o) k ∧ below_upper (upper_of o) k.

#[export] Instance in_range_dec o k : Decision (in_range o k).
Proof. unfold in_range. apply _. Defined.

(** The pairs of a map in key order, and those of a range. *)
Definition pair_le (p q : bytes * bytes) : Prop := bytes_le p.1 q.1.

#[export] Instance pair_le_dec : RelDecision pair_le.
Proof. intros p q. unfold pair_le. apply _. Defined.

Definition sorted_pairs (m : gmap bytes bytes) : list (bytes * bytes) :=
  merge_sort pair_le (map_to_list m).

Definition range_pairs (o : option IterOptions) (m : gmap bytes bytes) : list (bytes * bytes) :=
  filter (λ p, in_range o p.1) (sorted_pairs m).

Definition pair_lt (p q : bytes * bytes) : Prop := bytes_lt p.1 q.1.

(** Cutting a list of pairs at the bounds of a range. *)
Fixpoint drop_below (lo : option bytes) (l : list (bytes * bytes)) : list (bytes * bytes) :=
  match l with
  | [] => []
  | p :: l' => if decide (above_lower lo p.1) then l else drop_below lo l'
  end.

Fixpoint take_below (hi : option bytes) (l : list (bytes * bytes)) : list (bytes * bytes) :=
  match l with
  | [] => []
  | p :: l' => if decide (below_upper hi p.1) then p :: take_below hi l' else []
  end.

(** What a callback passed to [Scan] looks like: it threads a state and may
    stop the scan with an error. *)
Definition yield_t (A : Type) : Type := A → bytes → bytes → A * option error.

(** Scanning a list of pairs: the first error of the callback ends the scan,
    wrapped; otherwise the engine's own error is returned. *)
Fixpoint scan_fold {A} (yield : yield_t A) (l : list (bytes * bytes)) (a : A)
    (final : option error) : A * option error :=
  match l with
  | [] => (a, final)
  | (k, v) :: l' =>
      match yield a k v with
      | (a', None) => scan_fold yield l' a' final
      | (a', Some e) => (a', Some (ErrorWrap "yield func" e))
      end
  end.

Class DB := {
  db_t : Type;
  (** The abstract state: the committed key-value pairs. *)
  contents : db_t → gmap bytes bytes;

  Get : db_t → bytes → outcome bytes;
  (** The error adding an operation to a batch returns, if any. *)
  batch_fault : Batch → batch_op → option error;
  Commit : db_t → Batch → SyncMode → db_t * option error;
  Scan : ∀ {A}, db_t → option IterOptions → yield_t A → A → A * option error;

  it_t : Type;
  NewIter : db_t → option IterOptions → outcome it_t;
  First : it_t → it_t;
  Next : it_t → it_t;
  Valid : it_t → bool;
  Key : it_t → bytes;
  Value : it_t → bytes;
  Error : it_t → option error;

  (** Specification functions: what the engine can fail with, the pairs a
      scan visits, and the pairs an iterator still has in front of it. *)
  notfound : error;
  get_fault : db_t → bytes → option error;
  iter_pairs : db_t → option IterOptions → list (bytes * bytes);
  iter_error : db_t → option IterOptions → option error;
  it_rest : it_t → list (bytes * bytes);

  Get_spec db k :
    Get db k = match get_fault db k with
               | Some e => Err e
               | None => match contents db !! k with
                         | Some v => Ok v
                         | None => Err notfound
                         end
               end;
  Commit_ok db b m db' :
    Commit db b m = (db', None) → contents db' = apply_ops (contents db) b;
  Commit_err db b m db' e :
    Commit db b m = (db', Some e) → contents db' = contents db;
  Scan_spec {A} db o (yield : yield_t A) a :
    Scan db o yield a = scan_fold yield (iter_pairs db o) a (iter_error db o);
  iter_pairs_prefix db o : iter_pairs db o `prefix_of` range_pairs o (contents db);
  iter_pairs_complete db o :
    iter_error db o = None → iter_pairs db o = range_pairs o (contents db);
  NewIter_total db o : NewIter db o ≠ Panic ∧ NewIter db o ≠ OutOfFuel;
  First_rest db o it : NewIter db o = Ok it → it_rest (First it) = iter_pairs db o;
  Next_rest it p l : it_rest it = p :: l → it_rest (Next it) = l;
  Valid_spec it : Valid it = bool_decide (it_rest it ≠ []);
  Key_spec it p l : it_rest it = p :: l → Key it = p.1 ∧ Value it = p.2;
  (** The error is settled when the iterator is exhausted; a read can still fail
      at a later [Next]. *)
  Error_spec db o it :
    NewIter db o = Ok it →
    Error (Nat.iter (length (it_rest (First it))) Next (First it)) = iter_error db o;
}.

(** [Batch.Set] and [Batch.Delete]. *)
Definition batch_add `{DB} (b : Batch) (op : batch_op) : Batch * option error :=
  match batch_fault b op with
  | Some e => (b, Some e)
  | None => (b ++ [op], None)
  end.

Definition batch_Set `{DB} (b : Batch) (key value : bytes) : Batch * option error :=
  batch_add b (OpSet key value).
Definition batch_Delete `{DB} (b : Batch) (key : bytes) : Batch * option error :=
  batch_add b (OpDelete key).

(** An engine on which no operation fails, for the theorems that promise a
    result. *)
Record healthy `{DB} : Prop := {
  h_get : ∀ db k, get_fault db k = None;
  h_batch : ∀ b op, batch_fault b op = None;
  h_commit : ∀ db b m, (Commit db b m).2 = None;
  h_iter : ∀ db o, ∃ it, NewIter db o = Ok it;
  h_iter_err : ∀ db o, iter_error db o = None;
}.

(** ** Lemmas on the ordered view of a map *)
#[export] Instance pair_le_trans : Transitive pair_le.
Proof. intros p q r. unfold pair_le. apply bytes_le_trans. Qed.
#[export] Instance pair_le_total : Total pair_le.
Proof. intros p q. unfold pair_le. apply bytes_le_total. Qed.

Lemma sorted_pairs_perm m : sorted_pairs m ≡ₚ map_to_list m.
Proof. apply merge_sort_Permutation. Qed.

Lemma sorted_pairs_sorted m : StronglySorted pair_le (sorted_pairs m).
Proof. apply (StronglySorted_merge_sort pair_le). Qed.

Lemma elem_of_sorted_pairs m k v : (k, v) ∈ sorted_pairs m ↔ m !! k = Some v.
Proof. rewrite sorted_pairs_perm. apply elem_of_map_to_list. Qed.

Lemma NoDup_sorted_pairs m : NoDup (sorted_pairs m).*1.
Proof. rewrite sorted_pairs_perm. apply NoDup_fst_map_to_list. Qed.

Lemma length_sorted_pairs m : length (sorted_pairs m) = size m.
Proof. rewrite sorted_pairs_perm. apply length_map_to_list. Qed.

Lemma elem_of_range_pairs o m k v :
  (k, v) ∈ range_pairs o m ↔ m !! k = Some v ∧ in_range o k.
Proof. unfold range_pairs. rewrite list_elem_of_filter, elem_of_sorted_pairs. simpl. tauto. Qed.

Lemma range_pairs_all m : range_pairs None m = sorted_pairs m.
Proof.
  unfold range_pairs. induction (sorted_pairs m) as [|p l IH]; [done|].
  rewrite filter_cons_True by done. by rewrite IH.
Qed.

Lemma StronglySorted_strict l :
  NoDup l.*1 → StronglySorted pair_le l → StronglySorted pair_lt l.
Proof.
  induction l as [|p l IH]; [constructor|]. rewrite fmap_cons, NoDup_cons.
  intros [Hn Hd] [Hs Hf]%StronglySorted_inv. constructor; [by apply IH|].
  rewrite Forall_forall in *. intros q Hq. specialize (Hf q Hq).
  apply bytes_le_lt_eq in Hf as [|E]; [done|].
  destruct Hn. rewrite E. apply list_elem_of_fmap. eauto.
Qed.

Lemma sorted_pairs_strict m : StronglySorted pair_lt (sorted_pairs m).
Proof. apply StronglySorted_strict; [apply NoDup_sorted_pairs|apply sorted_pairs_sorted]. Qed.

Lemma range_pairs_strict o m : StronglySorted pair_lt (range_pairs o m).
Proof. apply StronglySorted_filter, sorted_pairs_strict. Qed.

Lemma NoDup_range_pairs o m : NoDup (range_pairs o m).*1.
Proof.
  assert (range_pairs o m `sublist_of` sorted_pairs m) as Hs.
  { unfold range_pairs. induction (sorted_pairs m) as [|p l IH]; [constructor|].
    destruct (decide (in_range o p.1)).
    - rewrite filter_cons_True by done. by constructor.
    - rewrite filter_cons_False by done. by constructor. }
  eapply sublist_NoDup; [apply NoDup_sorted_pairs|]. by apply fmap_sublist.
Qed.

Lemma above_lower_mono lo k k' : bytes_lt k k' → above_lower lo k → above_lower lo k'.
Proof.
  destruct lo as [l|]; [|done]. simpl. intros Hk Hl. apply bytes_le_lt_eq. left.
  by eapply bytes_le_lt_trans.
Qed.

Lemma below_upper_mono hi k k' : bytes_lt k k' → below_upper hi k' → below_upper hi k.
Proof. destruct hi as [u|]; [|done]. simpl. intros Hk Hl. by trans k'. Qed.

Lemma take_drop_range o l :
  StronglySorted pair_lt l →
  take_below (upper_of o) (drop_below (lower_of o) l) = filter (λ p, in_range o p.1) l.
Proof.
  induction 1 as [|p l Hs IH Hf]; [done|]. simpl.
  destruct (decide (above_lower (lower_of o) p.1)) as [Ha|Ha].
  - clear IH. induction Hs as [|q l' Hs' IH' Hf'] in p, Hf, Ha |- *.
    + simpl. case_decide.
      * by rewrite filter_cons_True.
      * rewrite filter_cons_False by (unfold in_range; tauto). done.
    + apply Forall_cons in Hf as [Hpq Hf]. simpl. case_decide as Hu.
      * rewrite filter_cons_True by done. f_equal.
        apply (IH' q); [done|]. by eapply above_lower_mono.
      * symmetry. apply filter_none. intros r Hr [_ Hu'].
        apply Hu. apply elem_of_cons in Hr as [->|Hr]; [done|].
        eapply below_upper_mono; [|done].
        apply elem_of_cons in Hr as [->|Hr]; [done|].
        rewrite Forall_forall in Hf. by apply Hf.
  - rewrite filter_cons_False by (unfold in_range; tauto). done.
Qed.

(** ** Lemmas on batches *)
Lemma apply_ops_app m b b' : apply_ops m (b ++ b') = apply_ops (apply_ops m b) b'.
Proof. apply foldl_app. Qed.

Lemma apply_op_ne m op k : op_key op ≠ k → apply_op m op !! k = m !! k.
Proof. destruct op; simpl; intros; [by apply lookup_insert_ne|by apply lookup_delete_ne]. Qed.

Lemma apply_ops_ne m b k :
  Forall (λ op, op_key op ≠ k) b → apply_ops m b !! k = m !! k.
Proof.
  unfold apply_ops. intros Hf. induction Hf as [|op b Hop Hf IH] in m |- *; [done|].
  simpl. rewrite IH. by apply apply_op_ne.
Qed.

(** The value a batch leaves at a key is that of the last operation on it. *)
Lemma apply_ops_last m b1 op b2 k :
  op_key op = k → Forall (λ op, op_key op ≠ k) b2 →
  apply_ops m (b1 ++ op :: b2) !! k = match op with OpSet _ v => Some v | OpDelete _ => None end.
Proof.
  intros <- Hf. change (op :: b2) with ([op] ++ b2).
  rewrite !apply_ops_app, apply_ops_ne by done.
  destruct op; simpl; [apply lookup_insert_eq|apply lookup_delete_eq].
Qed.

(** Two stores that agree except at [k] still do after one more batch. *)
Lemma apply_ops_agree m m' b k :
  (∀ i, i ≠ k → m !! i = m' !! i) → ∀ i, i ≠ k → apply_ops m b !! i = apply_ops m' b !! i.
Proof.
  unfold apply_ops. induction b as [|op b IH] in m, m' |- *; [done|]. intros Hm. simpl.
  apply IH. intros i Hi.
  destruct op as [k' v|k']; simpl; destruct (decide (k' = i)) as [->|];
    rewrite ?lookup_insert_eq, ?lookup_delete_eq, ?lookup_insert_ne, ?lookup_delete_ne by done;
    auto.
Qed.

(** An earlier write of a key that the batch ends with is invisible. *)
Lemma apply_ops_overwrite m k v v' b :
  apply_ops (<[k := v]> m) (b ++ [OpSet k v']) = apply_ops m (b ++ [OpSet k v']).
Proof.
  rewrite !apply_ops_app. simpl. apply map_eq. intros i.
  destruct (decide (i = k)) as [->|Hi]; [by rewrite !lookup_insert_eq|].
  rewrite !lookup_insert_ne by done. apply (apply_ops_agree _ _ _ k); [|done].
  intros j Hj. by rewrite lookup_insert_ne.
Qed.

Lemma apply_ops_deletes m ks :
  apply_ops m (OpDelete <$> ks) = filter (λ p, p.1 ∉ ks) m.
Proof.
  unfold apply_ops. induction ks as [|k ks IH] in m |- *; simpl.
  - symmetry. apply map_filter_id. intros. apply not_elem_of_nil.
  - rewrite IH. apply map_eq. intros i. apply option_eq. intros v.
    rewrite !map_lookup_filter_Some, lookup_delete_Some. simpl. rewrite not_elem_of_cons. naive_solver.
Qed.

(** Writing the pairs of a map into an empty store rebuilds it. *)
Lemma apply_ops_sets (l : list (bytes * bytes)) :
  NoDup l.*1 → apply_ops ∅ ((λ p, OpSet p.1 p.2) <$> l) = list_to_map l.
Proof.
  intros Hd. rewrite <-(reverse_involutive l) in *.
  induction (reverse l) as [|[i v] k IH]; [done|].
  rewrite reverse_cons, fmap_app, apply_ops_app in *. simpl.
  rewrite fmap_app in Hd. apply NoDup_app in Hd as (Hd & Hn & _). simpl in Hn.
  rewrite IH by done. rewrite list_to_map_snoc; [done|].
  intros Hin. destruct (Hn _ Hin). set_solver.
Qed.

Lemma apply_ops_sorted_pairs m :
  apply_ops ∅ ((λ p, OpSet p.1 p.2) <$> sorted_pairs m) = m.
Proof.
  rewrite apply_ops_sets by apply NoDup_sorted_pairs.
  rewrite (list_to_map_proper _ (map_to_list m)).
  - apply list_to_map_to_list.
  - apply NoDup_sorted_pairs.
  - apply sorted_pairs_perm.
Qed.

(** ** Lemmas on scans *)
Lemma scan_fold_app {A} (yield : yield_t A) l l' a final :
  scan_fold yield (l ++ l') a final =
    match scan_fold yield l a None with
    | (a', None) => scan_fold yield l' a' final
    | r => r
    end.
Proof.
  induction l as [|[k v] l IH] in a |- *; [done|]. simpl.
  destruct (yield a k v) as [a' [e|]]; [done|]. apply IH.
Qed.

(** A callback that never fails folds over all pairs. *)
Lemma scan_fold_total {A} (f : A → bytes → bytes → A) l a final :
  scan_fold (λ a k v, (f a k v, None)) l a final = (foldl (λ a p, f a p.1 p.2) a l, final).
Proof. induction l as [|[k v] l IH] in a |- *; [done|]. simpl. apply IH. Qed.

Lemma scan_fold_ext {A} (y y' : yield_t A) l a final :
  (∀ a k v, y a k v = y' a k v) → scan_fold y l a final = scan_fold y' l a final.
Proof.
  intros Hy. induction l as [|[k v] l IH] in a |- *; [done|]. simpl. rewrite Hy.
  destruct (y' a k v) as [a' [e|]]; auto.
Qed.

(** ** Consequences of the contract *)
Section contract_lemmas.
Context `{DB}.

Lemma healthy_commit db b m : healthy → ∃ db', Commit db b m = (db', None) ∧
  contents db' = apply_ops (contents db) b.
Proof.
  intros Hh. pose proof (h_commit Hh db b m) as He.
  destruct (Commit db b m) as [db' e] eqn:E. simpl in He. subst e.
  exists db'. split; [done|by eapply Commit_ok].
Qed.

Lemma healthy_add b op : healthy → batch_add b op = (b ++ [op], None).
Proof. intros Hh. unfold batch_add. by rewrite (h_batch Hh). Qed.

Lemma batch_add_cases b op :
  (batch_add b op = (b ++ [op], None)) ∨ (∃ e, batch_add b op = (b, Some e)).
Proof. unfold batch_add. destruct (batch_fault b op); eauto. Qed.
End contract_lemmas.
