(* ===== verification/Bolt.v ===== *)
(** * The bbolt adapter ([src/internal/storage/bbolt.go])

    [go.etcd.io/bbolt] is outside the repository and enters as the class
    [BoltEngine]: transactions over one bucket, bucket [Get]/[Put]/[Delete],
    and cursors that walk a bucket in key order, with bbolt's documented
    behaviour as laws.  The adapter's own code, the operation log of a batch,
    the iterator state machine and the scan loop, is modelled as written, and
    the instance [bolt_DB] proves that it implements the storage contract. *)
From stdpp Require Import prelude gmap strings sorting.
From S2P Require Import Prelude Bytes Storage.

(** What a cursor call returns: the moved cursor and the pair it is now at
    (nil keys are [None]). *)
Abbreviation kv := (bytes * bytes)%type.

Class BoltEngine := {
  bolt_raw : Type;
  bolt_bucket : Type;
  bolt_cursor : Type;

  (** [Begin(false)] / the start of [View], and the start of [Update]. *)
  bolt_begin_err : bolt_raw → option error;
  bolt_begin_rw_err : bolt_raw → option error;
  (** [tx.Bucket(name)]; nil when there is none. *)
  tx_Bucket : bolt_raw → bytes → option bolt_bucket;
  (** The commit of a transaction in which bucket [name] has become [b]. *)
  tx_commit : bolt_raw → bytes → bolt_bucket → bolt_raw * option error;

  bkt_Get : bolt_bucket → bytes → option bytes;
  bkt_Put : bolt_bucket → bytes → bytes → bolt_bucket * option error;
  bkt_Delete : bolt_bucket → bytes → bolt_bucket * option error;

  bkt_Cursor : bolt_bucket → bolt_cursor;
  cur_First : bolt_cursor → bolt_cursor * option kv;
  cur_Seek : bolt_cursor → bytes → bolt_cursor * option kv;
  cur_Next : bolt_cursor → bolt_cursor * option kv;

  (** Specification functions: the pairs of a bucket, and the pairs a cursor
      has after its current position. *)
  bkt_map : bolt_bucket → gmap bytes bytes;
  cur_rest : bolt_cursor → list kv;
  cur_ahead (r : bolt_cursor * option kv) : list kv :=
    match r with (c, Some p) => p :: cur_rest c | (_, None) => [] end;

  bkt_Get_spec b k : bkt_Get b k = bkt_map b !! k;
  bkt_Put_spec b k v b' :
    bkt_Put b k v = (b', None) → bkt_map b' = <[k := v]> (bkt_map b);
  bkt_Delete_spec b k b' :
    bkt_Delete b k = (b', None) → bkt_map b' = delete k (bkt_map b);
  tx_commit_ok db n b db' :
    tx_commit db n b = (db', None) → bkt_map <$> tx_Bucket db' n = Some (bkt_map b);
  tx_commit_err db n b db' e : tx_commit db n b = (db', Some e) → db' = db;
  cur_First_spec b :
    cur_ahead (cur_First (bkt_Cursor b)) = sorted_pairs (bkt_map b);
  cur_Seek_spec b k :
    cur_ahead (cur_Seek (bkt_Cursor b) k) = drop_below (Some k) (sorted_pairs (bkt_map b));
  cur_Next_spec c : cur_ahead (cur_Next c) = cur_rest c;
}.

#[local] Obligation Tactic := idtac.
#[local] Unset Program Cases.

Section bolt.
Context `{BoltEngine}.

(** ** boltDB *)
Record boltDB := mkBoltDB {
  bdb_db : bolt_raw;
  bdb_bucket : bytes;
}.

Definition err_bucket : error := ErrorMsg "bbolt: bucket %q not found" [].

(** [(b *boltDB) Get] *)
Definition bolt_Get (b : boltDB) (key : bytes) : outcome bytes :=
  match bolt_begin_err (bdb_db b) with
  | Some e => Err e
  | None =>
      match tx_Bucket (bdb_db b) (bdb_bucket b) with
      | None => Err err_bucket
      | Some bkt =>
          match bkt_Get bkt key with
          | None => Err ErrNotFound
          | Some v => Ok v
          end
      end
  end.

(** The loop over [bb.ops] in [Commit]. *)
Fixpoint bolt_apply (bkt : bolt_bucket) (ops : Batch) : bolt_bucket * option error :=
  match ops with
  | [] => (bkt, None)
  | op :: ops' =>
      match match op with
            | OpDelete k => bkt_Delete bkt k
            | OpSet k v => bkt_Put bkt k v
            end with
      | (bkt', Some e) => (bkt', Some e)
      | (bkt', None) => bolt_apply bkt' ops'
      end
  end.

(** [(bb *boltBatch) Commit]: one read-write transaction, rolled back when the
    callback returns an error.  The sync mode is ignored. *)
Definition bolt_Commit (b : boltDB) (ops : Batch) (_ : SyncMode) : boltDB * option error :=
  match bolt_begin_rw_err (bdb_db b) with
  | Some e => (b, Some e)
  | None =>
      match tx_Bucket (bdb_db b) (bdb_bucket b) with
      | None => (b, Some err_bucket)
      | Some bkt =>
          match bolt_apply bkt ops with
          | (_, Some e) => (b, Some e)
          | (bkt', None) =>
              let '(db', e) := tx_commit (bdb_db b) (bdb_bucket b) bkt' in
              (mkBoltDB db' (bdb_bucket b), e)
          end
      end
  end.

(** The loop of [(b *boltDB) Scan]; the fuel is the number of pairs ahead of
    the cursor. *)
Fixpoint bolt_scan_loop {A} (fuel : nat) (upper : option bytes) (yield : yield_t A)
    (r : bolt_cursor * option kv) (a : A) : A * option error :=
  match r with
  | (_, None) => (a, None)
  | (c, Some (k, v)) =>
      if decide (¬ below_upper upper k) then (a, None)
      else
        match yield a k v with
        | (a', Some e) => (a', Some (ErrorWrap "yield func" e))
        | (a', None) =>
            match fuel with
            | O => (a', None)
            | S n => bolt_scan_loop n upper yield (cur_Next c) a'
            end
        end
  end.

(** Positioning the cursor at the lower bound. *)
Definition bolt_start (lower : option bytes) (c : bolt_cursor) : bolt_cursor * option kv :=
  match lower with
  | Some l => cur_Seek c l
  | None => cur_First c
  end.

(** [(b *boltDB) Scan] *)
Definition bolt_Scan {A} (b : boltDB) (o : option IterOptions) (yield : yield_t A) (a : A)
    : A * option error :=
  match bolt_begin_err (bdb_db b) with
  | Some e => (a, Some e)
  | None =>
      match tx_Bucket (bdb_db b) (bdb_bucket b) with
      | None => (a, None)
      | Some bkt =>
          let r := bolt_start (lower_of o) (bkt_Cursor bkt) in
          bolt_scan_loop (length (cur_ahead r)) (upper_of o) yield r a
      end
  end.

(** ** boltIterator *)
Record boltIterator := mkBoltIterator {
  bi_cursor : bolt_cursor;
  bi_lower : option bytes;
  bi_upper : option bytes;
  bi_cur : option kv;        (* curKey, curVal; None for nil *)
  bi_done : bool;
}.

(** [(b *boltDB) NewIter] *)
Definition bolt_NewIter (b : boltDB) (o : option IterOptions) : outcome boltIterator :=
  match bolt_begin_err (bdb_db b) with
  | Some e => Err (ErrorWrap "bbolt: failed to begin read tx" e)
  | None =>
      match tx_Bucket (bdb_db b) (bdb_bucket b) with
      | None => Err err_bucket
      | Some bkt =>
          Ok (mkBoltIterator (bkt_Cursor bkt) (lower_of o) (upper_of o) None false)
      end
  end.

(** [(bi *boltIterator) set]; the boolean it returns is [Valid] of the result
    and is dropped. *)
Definition bi_set (bi : boltIterator) (r : bolt_cursor * option kv) : boltIterator :=
  match r with
  | (c, Some p) =>
      if decide (¬ below_upper (bi_upper bi) p.1)
      then mkBoltIterator c (bi_lower bi) (bi_upper bi) None true
      else mkBoltIterator c (bi_lower bi) (bi_upper bi) (Some p) (bi_done bi)
  | (c, None) => mkBoltIterator c (bi_lower bi) (bi_upper bi) None true
  end.

Definition bi_First (bi : boltIterator) : boltIterator :=
  bi_set bi (bolt_start (bi_lower bi) (bi_cursor bi)).

Definition bi_Next (bi : boltIterator) : boltIterator :=
  if bi_done bi then bi else bi_set bi (cur_Next (bi_cursor bi)).

Definition bi_Valid (bi : boltIterator) : bool :=
  negb (bi_done bi) && bool_decide (is_Some (bi_cur bi)).
Definition bi_Key (bi : boltIterator) : bytes := default [] (fst <$> bi_cur bi).
Definition bi_Value (bi : boltIterator) : bytes := default [] (snd <$> bi_cur bi).
Definition bi_Error (_ : boltIterator) : option error := None.

(** ** The abstract state and the faults the contract speaks about *)
Definition bolt_contents (b : boltDB) : gmap bytes bytes :=
  from_option bkt_map ∅ (tx_Bucket (bdb_db b) (bdb_bucket b)).

Definition bolt_get_fault (b : boltDB) (_ : bytes) : option error :=
  match bolt_begin_err (bdb_db b) with
  | Some e => Some e
  | None => match tx_Bucket (bdb_db b) (bdb_bucket b) with
            | None => Some err_bucket
            | Some _ => None
            end
  end.

Definition bolt_iter_pairs (b : boltDB) (o : option IterOptions) : list kv :=
  match bolt_begin_err (bdb_db b) with
  | Some _ => []
  | None => range_pairs o (bolt_contents b)
  end.

Definition bi_rest (bi : boltIterator) : list kv :=
  if bi_done bi then []
  else match bi_cur bi with
       | None => []
       | Some p => p :: take_below (bi_upper bi) (cur_rest (bi_cursor bi))
       end.

(** ** The adapter implements the contract *)
Lemma bolt_start_ahead bkt o :
  take_below (upper_of o) (cur_ahead (bolt_start (lower_of o) (bkt_Cursor bkt))) =
    range_pairs o (bkt_map bkt).
Proof.
  unfold range_pairs. rewrite <-take_drop_range by apply sorted_pairs_strict. f_equal.
  destruct (lower_of o); simpl; [apply cur_Seek_spec|].
  rewrite cur_First_spec. by destruct (sorted_pairs _).
Qed.

Lemma bolt_scan_loop_spec {A} fuel hi (yield : yield_t A) r a :
  (length (cur_ahead r) ≤ fuel)%nat →
  bolt_scan_loop fuel hi yield r a = scan_fold yield (take_below hi (cur_ahead r)) a None.
Proof.
  induction fuel as [|n IH] in r, a |- *; destruct r as [c [[k v]|]]; simpl; intros Hf;
    try done; try lia.
  rewrite <-cur_Next_spec in *. case_decide as Hu.
  { by rewrite decide_False. }
  rewrite decide_True by done. simpl.
  destruct (yield a k v) as [a' [e|]]; [done|]. apply IH. lia.
Qed.

Lemma bolt_apply_spec bkt ops bkt' :
  bolt_apply bkt ops = (bkt', None) → bkt_map bkt' = apply_ops (bkt_map bkt) ops.
Proof.
  induction ops as [|op ops IH] in bkt |- *; simpl; [congruence|].
  destruct op as [k v|k].
  - destruct (bkt_Put bkt k v) as [b1 [e|]] eqn:E; [done|].
    intros Hr. rewrite (IH _ Hr). by rewrite (bkt_Put_spec _ _ _ _ E).
  - destruct (bkt_Delete bkt k) as [b1 [e|]] eqn:E; [done|].
    intros Hr. rewrite (IH _ Hr). by rewrite (bkt_Delete_spec _ _ _ E).
Qed.

Lemma bolt_Get_correct b k :
  bolt_Get b k = match bolt_get_fault b k with
                 | Some e => Err e
                 | None => match bolt_contents b !! k with
                           | Some v => Ok v
                           | None => Err ErrNotFound
                           end
                 end.
Proof.
  unfold bolt_Get, bolt_get_fault, bolt_contents.
  destruct (bolt_begin_err _); [done|]. destruct (tx_Bucket _ _); simpl; [|done].
  by rewrite bkt_Get_spec.
Qed.

Lemma bolt_Commit_correct b ops m b' e :
  bolt_Commit b ops m = (b', e) →
  bolt_contents b' = match e with
                     | None => apply_ops (bolt_contents b) ops
                     | Some _ => bolt_contents b
                     end.
Proof.
  unfold bolt_Commit, bolt_contents.
  destruct (bolt_begin_rw_err _); [by intros [= <- <-]|].
  destruct (tx_Bucket (bdb_db b) _) as [bkt|] eqn:Eb;
    [|intros [= <- <-]; by rewrite Eb].
  destruct (bolt_apply bkt ops) as [bkt' [e'|]] eqn:Ea;
    [intros [= <- <-]; by rewrite Eb|].
  destruct (tx_commit _ _ _) as [db' e'] eqn:Et. intros [= <- <-]. simpl.
  destruct e'.
  - rewrite (tx_commit_err _ _ _ _ _ Et). by rewrite Eb.
  - apply tx_commit_ok in Et. destruct (tx_Bucket db' _); simpl in *; [|done].
    injection Et as ->. by apply bolt_apply_spec.
Qed.

Lemma bolt_Scan_correct {A} b o (yield : yield_t A) a :
  bolt_Scan b o yield a =
    scan_fold yield (bolt_iter_pairs b o) a (bolt_begin_err (bdb_db b)).
Proof.
  unfold bolt_Scan, bolt_iter_pairs, bolt_contents.
  destruct (bolt_begin_err _); [done|]. destruct (tx_Bucket _ _) as [bkt|]; [|done].
  rewrite bolt_scan_loop_spec by done. by rewrite bolt_start_ahead.
Qed.

Lemma bi_set_rest bi r :
  bi_done bi = false → bi_rest (bi_set bi r) = take_below (bi_upper bi) (cur_ahead r).
Proof.
  intros Hd. destruct r as [c [p|]]; [|done]. unfold bi_set. simpl. case_decide as Hu.
  - by rewrite decide_False.
  - rewrite decide_True by done. unfold bi_rest. simpl. by rewrite Hd.
Qed.

Lemma bi_Next_rest bi p l : bi_rest bi = p :: l → bi_rest (bi_Next bi) = l.
Proof.
  unfold bi_rest at 1, bi_Next. destruct (bi_done bi) eqn:Hd; [done|].
  destruct (bi_cur bi); [|done]. intros [= <- <-].
  rewrite bi_set_rest by done. by rewrite cur_Next_spec.
Qed.
End bolt.

#[export] Program Instance bolt_DB `{BoltEngine} : DB := {|
  db_t := boltDB;
  contents := bolt_contents;
  Get := bolt_Get;
  batch_fault _ _ := None;
  Commit := bolt_Commit;
  Scan := @bolt_Scan _;
  it_t := boltIterator;
  NewIter := bolt_NewIter;
  First := bi_First;
  Next := bi_Next;
  Valid := bi_Valid;
  Key := bi_Key;
  Value := bi_Value;
  Error := bi_Error;
  notfound := ErrNotFound;
  get_fault := bolt_get_fault;
  iter_pairs := bolt_iter_pairs;
  iter_error b _ := bolt_begin_err (bdb_db b);
  it_rest := bi_rest;
|}.
Next Obligation. intros. apply bolt_Get_correct. Qed.
Next Obligation. intros. by apply bolt_Commit_correct in H0. Qed.
Next Obligation. intros. by apply bolt_Commit_correct in H0. Qed.
Next Obligation. intros. apply bolt_Scan_correct. Qed.
Next Obligation.
  intros. unfold bolt_iter_pairs. destruct (bolt_begin_err _); [apply prefix_nil|done].
Qed.
Next Obligation. intros. unfold bolt_iter_pairs. by rewrite H0. Qed.
Next Obligation.
  intros. unfold bolt_NewIter. destruct (bolt_begin_err _); [done|].
  by destruct (tx_Bucket _ _).
Qed.
Next Obligation.
  intros ? db o it. unfold bolt_NewIter, bolt_iter_pairs, bolt_contents.
  destruct (bolt_begin_err _); [done|]. destruct (tx_Bucket _ _); [|done].
  intros [= <-]. unfold bi_First. rewrite bi_set_rest by done. apply bolt_start_ahead.
Qed.
Next Obligation. intros. by eapply bi_Next_rest. Qed.
Next Obligation.
  intros ? it. unfold bi_Valid, bi_rest.
  destruct (bi_done it), (bi_cur it); done.
Qed.
Next Obligation.
  intros ? it p l. unfold bi_rest, bi_Key, bi_Value.
  destruct (bi_done it), (bi_cur it); try done. by intros [= <- _].
Qed.
Next Obligation.
  intros ? db o it. unfold bolt_NewIter. by destruct (bolt_begin_err _).
Qed.

(** ** A concrete engine

    A bucket that is a finite map and never fails, except that bbolt refuses
    an empty key; cursors are lists.  It shows that the laws are satisfiable
    and runs the examples. *)
#[export] Program Instance MapBolt : BoltEngine := {|
  bolt_raw := gmap bytes (gmap bytes bytes);
  bolt_bucket := gmap bytes bytes;
  bolt_cursor := list kv * list kv;     (* all pairs, pairs ahead *)
  bolt_begin_err _ := None;
  bolt_begin_rw_err _ := None;
  tx_Bucket db n := db !! n;
  tx_commit db n b := (<[n := b]> db, None);
  bkt_Get b k := b !! k;
  bkt_Put b k v :=
    if decide (k = []) then (b, Some (ErrorMsg "key required" []))
    else (<[k := v]> b, None);
  bkt_Delete b k := (delete k b, None);
  bkt_Cursor b := (sorted_pairs b, sorted_pairs b);
  cur_First c := match c.1 with [] => (c, None) | p :: l => ((c.1, l), Some p) end;
  cur_Seek c k := match drop_below (Some k) c.1 with
                  | [] => (c, None) | p :: l => ((c.1, l), Some p) end;
  cur_Next c := match c.2 with [] => (c, None) | p :: l => ((c.1, l), Some p) end;
  bkt_map b := b;
  cur_rest c := c.2;
|}.
Next Obligation. done. Qed.
Next Obligation. intros b k v b'. simpl. case_decide; congruence. Qed.
Next Obligation. simpl. congruence. Qed.
Next Obligation. simpl. intros db n b db' [= <-]. by rewrite lookup_insert_eq. Qed.
Next Obligation. done. Qed.
Next Obligation. intros b. simpl. by destruct (sorted_pairs b). Qed.
Next Obligation. intros b k. cbn [fst]. by destruct (drop_below _ _). Qed.
Next Obligation. intros [l [|p l']]; done. Qed.
