(* ===== verification/Pebble.v ===== *)
(** * The Pebble adapter ([src/internal/storage/pebble.go])

    [cockroachdb/pebble] is outside the repository and enters as the class
    [PebbleEngine]: [Get], atomic batches, snapshots and bounded iterators.
    The adapter forwards to it; [pebble_DB] proves that what it builds
    implements the storage contract.  The not-found error of [Get] is passed
    through unchanged, so the sentinel of this engine is [pebble.ErrNotFound]
    and not the [storage.ErrNotFound] the contract names. *)
From stdpp Require Import prelude gmap strings sorting.
From S2P Require Import Prelude Bytes Storage.

Class PebbleEngine := {
  pebble_raw : Type;
  pebble_snap : Type;
  pebble_it : Type;

  peb_Get : pebble_raw → bytes → outcome bytes;
  peb_batch_fault : Batch → batch_op → option error;
  peb_batch_Commit : pebble_raw → Batch → SyncMode → pebble_raw * option error;
  peb_NewSnapshot : pebble_raw → pebble_snap;
  snap_NewIter : pebble_snap → option IterOptions → outcome pebble_it;
  pit_First : pebble_it → pebble_it;
  pit_Next : pebble_it → pebble_it;
  pit_Valid : pebble_it → bool;
  pit_Key : pebble_it → bytes;
  pit_Value : pebble_it → bytes;
  pit_Error : pebble_it → option error;

  (** Specification functions. *)
  peb_map : pebble_raw → gmap bytes bytes;
  peb_get_fault : pebble_raw → bytes → option error;
  pit_rest : pebble_it → list (bytes * bytes);

  peb_Get_spec db k :
    peb_Get db k = match peb_get_fault db k with
                   | Some e => Err e
                   | None => match peb_map db !! k with
                             | Some v => Ok v
                             | None => Err PebbleErrNotFound
                             end
                   end;
  peb_Commit_ok db b m db' :
    peb_batch_Commit db b m = (db', None) → peb_map db' = apply_ops (peb_map db) b;
  peb_Commit_err db b m db' e :
    peb_batch_Commit db b m = (db', Some e) → peb_map db' = peb_map db;
  snap_NewIter_total s o : snap_NewIter s o ≠ Panic ∧ snap_NewIter s o ≠ OutOfFuel;
  (** A read failure, which can come at any [Next], cuts the iteration short and
      is reported by [Error] once the iterator is no longer valid. *)
  pit_First_prefix db o it :
    snap_NewIter (peb_NewSnapshot db) o = Ok it →
    pit_rest (pit_First it) `prefix_of` range_pairs o (peb_map db);
  pit_First_complete db o it :
    snap_NewIter (peb_NewSnapshot db) o = Ok it →
    pit_Error (Nat.iter (length (pit_rest (pit_First it))) pit_Next (pit_First it)) = None →
    pit_rest (pit_First it) = range_pairs o (peb_map db);
  pit_Next_rest it p l : pit_rest it = p :: l → pit_rest (pit_Next it) = l;
  pit_Valid_spec it : pit_Valid it = bool_decide (pit_rest it ≠ []);
  pit_Key_spec it p l : pit_rest it = p :: l → pit_Key it = p.1 ∧ pit_Value it = p.2;
}.

#[local] Obligation Tactic := idtac.
#[local] Unset Program Cases.

Section pebble.
Context `{PebbleEngine}.

(** [(p *Pebble) Get] *)
Definition Pebble_Get (p : pebble_raw) (key : bytes) : outcome bytes := peb_Get p key.

(** [(p *Pebble) NewIter]: an iterator over a snapshot taken now. *)
Definition Pebble_NewIter (p : pebble_raw) (o : option IterOptions) : outcome pebble_it :=
  let snap := peb_NewSnapshot p in
  snap_NewIter snap (po ← o; Some (mkIterOptions (LowerBound po) (UpperBound po))).

(** The [for iter.First(); iter.Valid(); iter.Next()] loop of [Scan]; the fuel
    is the number of pairs ahead of the iterator. *)
Fixpoint pebble_scan_loop {A} (fuel : nat) (yield : yield_t A) (it : pebble_it) (a : A)
    : A * option error :=
  if pit_Valid it then
    match yield a (pit_Key it) (pit_Value it) with
    | (a', Some e) => (a', Some (ErrorWrap "yield func" e))
    | (a', None) =>
        match fuel with
        | O => (a', None)
        | S n => pebble_scan_loop n yield (pit_Next it) a'
        end
    end
  else (a, pit_Error it).

(** [(p *Pebble) Scan] *)
Definition Pebble_Scan {A} (p : pebble_raw) (o : option IterOptions) (yield : yield_t A) (a : A)
    : A * option error :=
  match Pebble_NewIter p o with
  | Err e => (a, Some e)
  | Ok iter =>
      let it := pit_First iter in
      pebble_scan_loop (length (pit_rest it)) yield it a
  | _ => (a, None)
  end.

(** [(pb *pebbleBatch) Commit]: every mode but [NoSync] syncs. *)
Definition pebbleBatch_Commit (p : pebble_raw) (b : Batch) (mode : SyncMode)
    : pebble_raw * option error :=
  match mode with
  | NoSync => peb_batch_Commit p b NoSync
  | _ => peb_batch_Commit p b Sync
  end.

(** [(pi *pebbleIterator) Close]: both resources are released and the
    iterator's error wins. *)
Definition pebbleIterator_Close (iterErr snapErr : option error) : option error :=
  match iterErr with
  | Some e => Some e
  | None => snapErr
  end.

(** The iterator after its last pair. *)
Definition exhausted (it : pebble_it) : pebble_it := Nat.iter (length (pit_rest it)) pit_Next it.

(** The pairs a scan visits and the error it ends with. *)
Definition pebble_iter_pairs (p : pebble_raw) (o : option IterOptions) : list (bytes * bytes) :=
  match Pebble_NewIter p o with
  | Ok it => pit_rest (pit_First it)
  | _ => []
  end.

Definition pebble_iter_error (p : pebble_raw) (o : option IterOptions) : option error :=
  match Pebble_NewIter p o with
  | Ok it => pit_Error (exhausted (pit_First it))
  | Err e => Some e
  | _ => None
  end.

(** ** The adapter implements the contract *)
Lemma Pebble_NewIter_eq p o : Pebble_NewIter p o = snap_NewIter (peb_NewSnapshot p) o.
Proof. unfold Pebble_NewIter. by destruct o as [[lo hi]|]. Qed.

Lemma pebble_scan_loop_spec {A} fuel (yield : yield_t A) it a :
  (length (pit_rest it) ≤ fuel)%nat →
  pebble_scan_loop fuel yield it a = scan_fold yield (pit_rest it) a (pit_Error (exhausted it)).
Proof.
  induction fuel as [|n IH] in it, a |- *; intros Hf; simpl;
    rewrite pit_Valid_spec; destruct (pit_rest it) as [|[k v] l] eqn:Er; simpl in *;
    try lia; [by unfold exhausted; rewrite Er..|].
  destruct (pit_Key_spec _ _ _ Er) as [-> ->]. simpl.
  destruct (yield a k v) as [a' [e|]]; [done|].
  pose proof (pit_Next_rest _ _ _ Er) as Hr.
  rewrite IH, Hr by (rewrite Hr; lia). unfold exhausted. rewrite Er, Hr. simpl length. by rewrite Nat.iter_succ_r.
Qed.

Lemma Pebble_Scan_correct {A} p o (yield : yield_t A) a :
  Pebble_Scan p o yield a = scan_fold yield (pebble_iter_pairs p o) a (pebble_iter_error p o).
Proof.
  unfold Pebble_Scan, pebble_iter_pairs, pebble_iter_error.
  destruct (Pebble_NewIter p o) as [it| | |]; try done. by apply pebble_scan_loop_spec.
Qed.

Lemma pebbleBatch_Commit_eq p b m : pebbleBatch_Commit p b m = peb_batch_Commit p b m.
Proof. by destruct m. Qed.
End pebble.

#[export] Program Instance pebble_DB `{PebbleEngine} : DB := {|
  db_t := pebble_raw;
  contents := peb_map;
  Get := Pebble_Get;
  batch_fault := peb_batch_fault;
  Commit := pebbleBatch_Commit;
  Scan := @Pebble_Scan _;
  it_t := pebble_it;
  NewIter := Pebble_NewIter;
  First := pit_First;
  Next := pit_Next;
  Valid := pit_Valid;
  Key := pit_Key;
  Value := pit_Value;
  Error := pit_Error;
  notfound := PebbleErrNotFound;
  get_fault := peb_get_fault;
  iter_pairs := pebble_iter_pairs;
  iter_error := pebble_iter_error;
  it_rest := pit_rest;
|}.
Next Obligation. intros. apply peb_Get_spec. Qed.
Next Obligation. intros. rewrite pebbleBatch_Commit_eq in H0. by eapply peb_Commit_ok. Qed.
Next Obligation. intros. rewrite pebbleBatch_Commit_eq in H0. by eapply peb_Commit_err. Qed.
Next Obligation. intros. apply Pebble_Scan_correct. Qed.
Next Obligation.
  intros. unfold pebble_iter_pairs. rewrite Pebble_NewIter_eq.
  destruct (snap_NewIter _ _) eqn:E; try apply prefix_nil. by eapply pit_First_prefix.
Qed.
Next Obligation.
  intros ? db o. unfold pebble_iter_error, pebble_iter_pairs. rewrite Pebble_NewIter_eq.
  pose proof (snap_NewIter_total (peb_NewSnapshot db) o).
  destruct (snap_NewIter _ _) eqn:E; [|done|tauto..]. intros. by apply pit_First_complete.
Qed.
Next Obligation. intros. rewrite Pebble_NewIter_eq. apply snap_NewIter_total. Qed.
Next Obligation. intros ? db o it E. unfold pebble_iter_pairs. by rewrite E. Qed.
Next Obligation. intros. by eapply pit_Next_rest. Qed.
Next Obligation. intros. apply pit_Valid_spec. Qed.
Next Obligation. intros. by eapply pit_Key_spec. Qed.
Next Obligation.
  intros ? db o it E. unfold pebble_iter_error. by rewrite E.
Qed.

(** ** A concrete engine: a finite map that never fails. *)
#[export] Program Instance MapPebble : PebbleEngine := {|
  pebble_raw := gmap bytes bytes;
  pebble_snap := gmap bytes bytes;
  pebble_it := list (bytes * bytes);
  peb_Get db k := match db !! k with Some v => Ok v | None => Err PebbleErrNotFound end;
  peb_batch_fault _ _ := None;
  peb_batch_Commit db b _ := (apply_ops db b, None);
  peb_NewSnapshot db := db;
  snap_NewIter s o := Ok (range_pairs o s);
  pit_First it := it;
  pit_Next it := tail it;
  pit_Valid it := bool_decide (it ≠ []);
  pit_Key it := from_option fst [] (head it);
  pit_Value it := from_option snd [] (head it);
  pit_Error _ := None;
  peb_map db := db;
  peb_get_fault _ _ := None;
  pit_rest it := it;
|}.
Next Obligation. done. Qed.
Next Obligation. simpl. congruence. Qed.
Next Obligation. simpl. congruence. Qed.
Next Obligation. intros. by split. Qed.
Next Obligation. simpl. by intros db o it [= <-]. Qed.
Next Obligation. simpl. by intros db o it [= <-]. Qed.
Next Obligation. by intros it p l ->. Qed.
Next Obligation. done. Qed.
Next Obligation. by intros it p l ->. Qed.

(** The store the examples run on. *)
Definition MapDB : DB := @pebble_DB MapPebble.

Lemma MapDB_healthy : @healthy MapDB.
Proof.
  split; try done.
  - by intros d b [].
  - intros d o. by eexists.
Qed.
