(* ===== verification/Proto.v ===== *)
(** * Wire messages

    The protobuf message types live in [futureq-io/protocol], outside the
    repository.  The records below have the fields the code reads and writes;
    the index message is an abstract type; [proto.Marshal] and
    [proto.Unmarshal] are the class [Protobuf], with the documented round trip
    as its law. *)
From stdpp Require Import prelude gmap strings.
From S2P Require Import Prelude Bytes.
Local Open Scope Z_scope.

(** The index message type of a message. *)
Class ProtoIndex := Index : Type.

Section messages.
Context {PI : ProtoIndex}.

(** storagepb.StoredMessage *)
Record StoredMessage := mkStoredMessage {
  sm_Topic : string;
  sm_Payload : bytes;
  sm_EnqueuedAtUnixMs : Z;
  sm_DelayMs : Z;
  sm_TtlMs : Z;
  sm_Indexes : list Index;
}.

(** pb.PublishMessage: an element of PublishBatch.Messages. *)
Record PublishMessage := mkPublishMessage {
  pm_Topic : string;
  pm_Payload : bytes;
  pm_DelayMs : Z;
  pm_TtlMs : Z;
  pm_Indexes : list Index;
}.
End messages.
Arguments mkStoredMessage {PI}.
Arguments mkPublishMessage {PI}.

(** pb.QueueMessage, what a consumer receives. *)
Record QueueMessage := mkQueueMessage {
  qm_Topic : string;
  qm_Payload : bytes;
  qm_DeliveryTag : bytes;
  qm_EnqueuedAtUnixMs : Z;
  qm_DelayMs : Z;
}.

#[export] Instance QueueMessage_eq_dec : EqDecision QueueMessage.
Proof. solve_decision. Defined.

(** The numeric fields are int64. *)
Definition wf_msg `{ProtoIndex} (m : StoredMessage) : Prop :=
  is_i64 (sm_EnqueuedAtUnixMs m) ∧ is_i64 (sm_DelayMs m) ∧ is_i64 (sm_TtlMs m).

#[export] Instance is_i64_dec z : Decision (is_i64 z).
Proof. unfold is_i64. apply _. Defined.
#[export] Instance is_u64_dec z : Decision (is_u64 z).
Proof. unfold is_u64. apply _. Defined.
#[export] Instance wf_msg_dec `{ProtoIndex} m : Decision (wf_msg m).
Proof. unfold wf_msg. apply _. Defined.

(** ** What a message is, from its publisher to its consumer

    Stated field by field on the wire messages, without the code that copies
    them. *)
Section content.
Context {PI : ProtoIndex}.

(** [sm] is the record of the message [m] published at [nowMs]. *)
Record carries (nowMs : Z) (m : PublishMessage) (sm : StoredMessage) : Prop := {
  ca_Topic : sm_Topic sm = pm_Topic m;
  ca_Payload : sm_Payload sm = pm_Payload m;
  ca_Enqueued : sm_EnqueuedAtUnixMs sm = nowMs;
  ca_Delay : sm_DelayMs sm = pm_DelayMs m;
  ca_Ttl : sm_TtlMs sm = pm_TtlMs m;
  ca_Indexes : sm_Indexes sm = pm_Indexes m;
}.

(** [q] is what a consumer gets of the record [sm] stored under [key]. *)
Record shows (sm : StoredMessage) (key : bytes) (q : QueueMessage) : Prop := {
  sh_Topic : qm_Topic q = sm_Topic sm;
  sh_Payload : qm_Payload q = sm_Payload sm;
  sh_Tag : qm_DeliveryTag q = key;
  sh_Enqueued : qm_EnqueuedAtUnixMs q = sm_EnqueuedAtUnixMs sm;
  sh_Delay : qm_DelayMs q = sm_DelayMs sm;
}.

(** [q] is what a consumer gets of the message [m] published at [nowMs] and
    stored under [key]. *)
Record delivers (nowMs : Z) (m : PublishMessage) (key : bytes) (q : QueueMessage) : Prop := {
  dl_Topic : qm_Topic q = pm_Topic m;
  dl_Payload : qm_Payload q = pm_Payload m;
  dl_Tag : qm_DeliveryTag q = key;
  dl_Enqueued : qm_EnqueuedAtUnixMs q = nowMs;
  dl_Delay : qm_DelayMs q = pm_DelayMs m;
}.

(** The numeric fields of a message published at [nowMs] are int64. *)
Definition wf_pub (nowMs : Z) (m : PublishMessage) : Prop :=
  is_i64 nowMs ∧ is_i64 (pm_DelayMs m) ∧ is_i64 (pm_TtlMs m).

(** When the message is due, in int64 milliseconds. *)
Definition due_ms (nowMs : Z) (m : PublishMessage) : Z := i64 (nowMs + pm_DelayMs m).

(** Its ttl, when it has one, is over at [t]. *)
Definition ttl_over (nowMs : Z) (m : PublishMessage) (t : Z) : Prop :=
  0 < pm_TtlMs m ∧ i64 (nowMs + pm_TtlMs m) ≤ t.

#[export] Instance wf_pub_dec nowMs m : Decision (wf_pub nowMs m).
Proof. unfold wf_pub. apply _. Defined.
#[export] Instance ttl_over_dec nowMs m t : Decision (ttl_over nowMs m t).
Proof. unfold ttl_over. apply _. Defined.

Lemma carries_unique nowMs m sm sm' : carries nowMs m sm → carries nowMs m sm' → sm = sm'.
Proof. destruct sm, sm'. intros [] []. simpl in *. by subst. Qed.

Lemma carries_delivers nowMs m sm key q : carries nowMs m sm → shows sm key q → delivers nowMs m key q.
Proof. intros [] []. split; congruence. Qed.

Lemma carries_wf nowMs m sm : carries nowMs m sm → wf_pub nowMs m → wf_msg sm.
Proof. intros [_ _ E1 E2 E3 _] Hw. unfold wf_msg. by rewrite E1, E2, E3. Qed.
End content.

Class Protobuf `{ProtoIndex} := {
  Marshal : StoredMessage → outcome bytes;
  Unmarshal : bytes → outcome StoredMessage;
  MarshalIndex : Index → outcome bytes;
  Marshal_total m : Marshal m ≠ Panic ∧ Marshal m ≠ OutOfFuel;
  MarshalIndex_total i : MarshalIndex i ≠ Panic ∧ MarshalIndex i ≠ OutOfFuel;
  Unmarshal_Marshal m d : wf_msg m → Marshal m = Ok d → Unmarshal d = Ok m;
  Unmarshal_wf d m : Unmarshal d = Ok m → wf_msg m;
}.

(** ** A concrete encoding, to run the examples *)
Module Toy.
Fixpoint pos_bytes (p : positive) : bytes :=
  match p with
  | xH => []
  | xO p' => Byte.x00 :: pos_bytes p'
  | xI p' => Byte.x01 :: pos_bytes p'
  end.

Fixpoint bytes_pos (l : bytes) : positive :=
  match l with
  | [] => xH
  | b :: l' => if decide (b = Byte.x00) then xO (bytes_pos l') else xI (bytes_pos l')
  end.

Lemma bytes_pos_bytes p : bytes_pos (pos_bytes p) = p.
Proof. induction p; simpl; congruence. Qed.

#[export] Instance toy_index : ProtoIndex := bytes.

#[export] Instance toy_stored_eq_dec : EqDecision StoredMessage.
Proof. solve_decision. Defined.

Definition to_tuple (m : StoredMessage) : string * bytes * (Z * Z * Z) * list bytes :=
  (sm_Topic m, sm_Payload m, (sm_EnqueuedAtUnixMs m, sm_DelayMs m, sm_TtlMs m), sm_Indexes m).
Definition of_tuple (t : string * bytes * (Z * Z * Z) * list bytes) : StoredMessage :=
  let '(tp, pl, (e, d, l), ix) := t in mkStoredMessage tp pl e d l ix.

#[local] Unset Program Cases.
#[local] Obligation Tactic := idtac.
#[export] Program Instance toy_protobuf : Protobuf := {|
  Marshal m := Ok (pos_bytes (encode (to_tuple m)));
  Unmarshal d :=
    match decode (bytes_pos d) with
    | Some t => if decide (wf_msg (of_tuple t)) then Ok (of_tuple t)
                else Err (ErrorMsg "proto: cannot parse" [])
    | None => Err (ErrorMsg "proto: cannot parse" [])
    end;
  MarshalIndex i := Ok i;
|}.
Next Obligation. intros. by split. Qed.
Next Obligation. intros. by split. Qed.
Next Obligation.
  intros m d Hw. simpl. intros [= <-]. rewrite bytes_pos_bytes, decode_encode.
  destruct m. simpl. by rewrite decide_True.
Qed.
Next Obligation.
  intros d m. simpl. destruct (decode _); [|done]. case_decide; [|done]. by intros [= <-].
Qed.
End Toy.
