(* ===== verification/Repository.v ===== *)
(** * The event repository ([src/internal/repository/events.go])

    The monotonic event-id counter and the writes that go with a message: its
    own key, the persisted counter, and one key per index.  The repository is
    proved against the storage contract [DB]. *)
From stdpp Require Import prelude gmap strings.
From S2P Require Import Prelude Bytes Keys Storage Bolt Pebble Proto.
Local Open Scope Z_scope.

Definition eventsLastIDKey : bytes := of_str "metadata/event-repo/last-id".

(** The mutable part of the struct, with the bucket size; the store it points
    to is passed to the operations that read it. *)
Record EventRepository := mkEventRepository {
  lastID : Z;
  bucketSize : Z;
}.

Section repository.
Context `{DB} `{XXHash} `{Protobuf}.

(** Loads the persisted counter.  Only [pebble.ErrNotFound] counts as "no
    counter yet". *)
Definition NewEventRepository (db : db_t) (bsize : Z) : outcome EventRepository :=
  match Get db eventsLastIDKey with
  | Err e => if errors_Is e PebbleErrNotFound then Ok (mkEventRepository 0 bsize) else Err e
  | Ok val => id ← be_uint 8 val; Ok (mkEventRepository id bsize)
  | Panic => Panic
  | OutOfFuel => OutOfFuel
  end.

(** The state of the store operations: the repository and the open batch. *)
Abbreviation repo_st := (EventRepository * Batch)%type.

(** [atomic.AddUint64(&er.lastID, 1)] *)
Definition next_id : st repo_st Z := λ '(er, b),
  let id := u64 (lastID er + 1) in
  ((mkEventRepository id (bucketSize er), b), Ok id).

(** [b.Set(k, v)] with its error returned. *)
Definition put (k v : bytes) : st repo_st () := λ '(er, b),
  match batch_Set b k v with
  | (b', None) => ((er, b'), Ok ())
  | (b', Some e) => ((er, b'), Err e)
  end.

(** [fireAtMs]: an int64 addition, which can wrap. *)
Definition fireAtMs (msg : StoredMessage) : Z :=
  i64 (sm_EnqueuedAtUnixMs msg + sm_DelayMs msg).

Definition StoreWithBatch (msg : StoredMessage) : st repo_st bytes := λ s0,
  (nextID ← next_id;
   bucket ← st_lift (CalculateBucket (fireAtMs msg) (bucketSize s0.1));
   let topicHash := TopicHash (sm_Topic msg) in
   let key := EventKey bucket topicHash nextID in
   put eventsLastIDKey (be_bytes 8 nextID);;
   data ← st_lift (wrap_err "failed to marshal message for topic" (Marshal msg));
   put key data;;
   st_iter (λ idx,
     idxBytes ← st_lift (wrap_err "failed to marshal index to bytes" (MarshalIndex idx));
     put idxBytes key) (sm_Indexes msg);;
   mret key) s0.

Definition StoreRawWithBatch (bucket topicHash : Z) (indexes : list bytes) (msg : bytes)
    : st repo_st bytes :=
  nextID ← next_id;
  let key := EventKey bucket topicHash nextID in
  put eventsLastIDKey (be_bytes 8 nextID);;
  put key msg;;
  st_iter (λ idx, put idx key) indexes;;
  mret key.

Definition DeleteWithBatch (key : bytes) : st repo_st () := λ '(er, b),
  match batch_Delete b key with
  | (b', None) => ((er, b'), Ok ())
  | (b', Some e) => ((er, b'), Err e)
  end.

(** [EventBatch]: a batch together with its repository; the same operations as
    methods of the pair. *)
Definition EventBatch_New (er : EventRepository) : repo_st := (er, []).
Definition EventBatch_Store (msg : StoredMessage) : st repo_st bytes := StoreWithBatch msg.
Definition EventBatch_StoreRaw := StoreRawWithBatch.
Definition EventBatch_Delete (key : bytes) : st repo_st () := DeleteWithBatch key.
Definition EventBatch_Commit (db : db_t) (eb : repo_st) (mode : SyncMode) : db_t * option error :=
  Commit db eb.2 mode.

(** ** What a successful store writes *)
Definition store_ops (id bucket topicHash : Z) (indexes : list bytes) (msg : bytes) : Batch :=
  OpSet eventsLastIDKey (be_bytes 8 id) ::
  OpSet (EventKey bucket topicHash id) msg ::
  ((λ idx, OpSet idx (EventKey bucket topicHash id)) <$> indexes).

(** The counter as the store holds it, and the id inside an event key. *)
Definition persisted (m : gmap bytes bytes) : Z :=
  match m !! eventsLastIDKey with Some v => be_val (take 8 v) | None => 0 end.
Definition key_id (k : bytes) : Z := be_val (drop 16 k).

(** Every event key in the store carries an id up to the persisted counter,
    which the repository's counter has reached. *)
Record repo_inv (m : gmap bytes bytes) (er : EventRepository) : Prop := {
  ri_counter : ∀ v, m !! eventsLastIDKey = Some v → length v = 8%nat;
  ri_ids : ∀ k v, m !! k = Some v → length k = 24%nat → key_id k ≤ persisted m;
  ri_last : persisted m ≤ lastID er;
  ri_u64 : is_u64 (lastID er);
}.

(** An index key that does not clash with the repository's own keys. *)
Definition index_ok (k : bytes) : Prop := k ≠ eventsLastIDKey ∧ length k ≠ 24%nat.

#[export] Instance index_ok_dec k : Decision (index_ok k).
Proof. unfold index_ok. apply _. Defined.

(** The invariant of an open batch: what the store would hold if it were
    committed now. *)
Definition batch_inv (m : gmap bytes bytes) (s : repo_st) : Prop :=
  repo_inv (apply_ops m s.2) s.1.

(** ** Lemmas *)
Lemma put_ok k v s s' :
  put k v s = (s', Ok ()) → s'.1 = s.1 ∧ s'.2 = s.2 ++ [OpSet k v].
Proof.
  destruct s as [er b]. unfold put, batch_Set, batch_add.
  destruct (batch_fault _ _); [done|]. by intros [= <-].
Qed.

Lemma put_iter_ok {A} (f : A → outcome bytes) v l s s' :
  st_iter (λ x, k ← st_lift (f x); put k v) l s = (s', Ok ()) →
  ∃ ks, Forall2 (λ x k, f x = Ok k) l ks ∧ s'.1 = s.1 ∧
        s'.2 = s.2 ++ ((λ k, OpSet k v) <$> ks).
Proof.
  revert s. induction l as [|x l IH]; intros s; simpl.
  { intros [= <-]. exists []. split_and!; [constructor|done|]. by rewrite app_nil_r. }
  intros (s1 & [] & (s2 & k & [= <- Hk] & Hp)%st_bind_ok & Hr)%st_bind_ok.
  apply put_ok in Hp as [E1 E2]. apply IH in Hr as (ks & Hf & E3 & E4).
  exists (k :: ks). split_and!; [by constructor|congruence|].
  rewrite E4, E2, <-app_assoc. done.
Qed.

Lemma put_all_ok v l s s' :
  st_iter (λ k, put k v) l s = (s', Ok ()) →
  s'.1 = s.1 ∧ s'.2 = s.2 ++ ((λ k, OpSet k v) <$> l).
Proof.
  revert s. induction l as [|x l IH]; intros s; simpl.
  { intros [= <-]. by rewrite app_nil_r. }
  intros (s1 & [] & Hp & Hr)%st_bind_ok.
  apply put_ok in Hp as [E1 E2]. apply IH in Hr as [E3 E4].
  split; [congruence|]. by rewrite E4, E2, <-app_assoc.
Qed.

Lemma StoreRawWithBatch_ok bucket h indexes msg er b s' key :
  StoreRawWithBatch bucket h indexes msg (er, b) = (s', Ok key) →
  let id := u64 (lastID er + 1) in
  key = EventKey bucket h id ∧
  s' = (mkEventRepository id (bucketSize er), b ++ store_ops id bucket h indexes msg).
Proof.
  intros (s1 & id & [= <- <-] & Hr)%st_bind_ok.
  apply st_bind_ok in Hr as (s2 & [] & Hp1 & Hr).
  apply st_bind_ok in Hr as (s3 & [] & Hp2 & Hr).
  apply st_bind_ok in Hr as (s4 & [] & Hi & [= <- <-]).
  apply put_ok in Hp1 as [E1 F1]. apply put_ok in Hp2 as [E2 F2].
  apply put_all_ok in Hi as [E3 F3]. simpl. split; [done|].
  destruct s4 as [er4 b4]. simpl in *. f_equal; [congruence|].
  rewrite F3, F2, F1. unfold store_ops. simpl. by rewrite <-!app_assoc.
Qed.

Lemma StoreWithBatch_ok msg er b s' key :
  StoreWithBatch msg (er, b) = (s', Ok key) →
  ∃ bucket data ixs,
    let id := u64 (lastID er + 1) in
    let h := TopicHash (sm_Topic msg) in
    CalculateBucket (fireAtMs msg) (bucketSize er) = Ok bucket ∧
    Marshal msg = Ok data ∧
    Forall2 (λ i k, MarshalIndex i = Ok k) (sm_Indexes msg) ixs ∧
    key = EventKey bucket h id ∧
    s' = (mkEventRepository id (bucketSize er), b ++ store_ops id bucket h ixs data).
Proof.
  intros (s1 & id & [= <- <-] & Hr)%st_bind_ok.
  apply st_bind_ok in Hr as (s2 & bucket & [= <- Hb] & Hr).
  apply st_bind_ok in Hr as (s3 & [] & Hp1 & Hr).
  apply st_bind_ok in Hr as (s4 & data & [= <- Hm] & Hr).
  apply st_bind_ok in Hr as (s5 & [] & Hp2 & Hr).
  apply st_bind_ok in Hr as (s6 & [] & Hi & [= <- <-]).
  apply put_ok in Hp1 as [E1 F1]. apply put_ok in Hp2 as [E2 F2].
  apply (put_iter_ok (λ i, wrap_err _ (MarshalIndex i))) in Hi as (ixs & Hf & E3 & F3).
  exists bucket, data, ixs. simpl. split_and!; [done|..|done|].
  - destruct (Marshal msg); simpl in Hm; congruence.
  - eapply Forall2_impl; [exact Hf|]. simpl. intros i k.
    destruct (MarshalIndex i); simpl; congruence.
  - destruct s6 as [er6 b6]. simpl in *. f_equal; [congruence|].
    rewrite F3, F2, F1. unfold store_ops. simpl. by rewrite <-!app_assoc.
Qed.

Lemma length_eventsLastIDKey : length eventsLastIDKey = 27%nat.
Proof. done. Qed.

Lemma persisted_insert_counter m id :
  is_u64 id → persisted (<[eventsLastIDKey := be_bytes 8 id]> m) = id.
Proof.
  intros Hid. unfold persisted. rewrite lookup_insert_eq.
  rewrite take_ge by (by rewrite length_be_bytes). by apply be_val_u64.
Qed.

Lemma persisted_ne m k v : k ≠ eventsLastIDKey → persisted (<[k := v]> m) = persisted m.
Proof. intros Hk. unfold persisted. by rewrite lookup_insert_ne. Qed.

Lemma key_id_EventKey b h i : is_u64 i → key_id (EventKey b h i) = i.
Proof.
  intros Hi. unfold key_id, EventKey.
  rewrite app_assoc, drop_app_exact by done. by apply be_val_u64.
Qed.

Lemma key_ne_counter k : length k = 24%nat → k ≠ eventsLastIDKey.
Proof. intros Hk ->. by rewrite length_eventsLastIDKey in Hk. Qed.

(** The three kinds of write keep the invariant. *)
Lemma repo_inv_counter m er :
  repo_inv m er → repo_inv (<[eventsLastIDKey := be_bytes 8 (lastID er)]> m) er.
Proof.
  intros [Hc Hi Hl Hu]. pose proof (persisted_insert_counter m _ Hu) as Hp. split.
  - intros v. rewrite lookup_insert_eq. intros [= <-]. done.
  - intros k v Hk Hlen. rewrite lookup_insert_ne in Hk by (symmetry; by apply key_ne_counter).
    rewrite Hp. etrans; [by eapply Hi|done].
  - by rewrite Hp.
  - done.
Qed.

Lemma repo_inv_event m er b h id v :
  repo_inv m er → is_u64 id → id ≤ persisted m → repo_inv (<[EventKey b h id := v]> m) er.
Proof.
  intros [Hc Hi Hl Hu] Hid Hle.
  pose proof (key_ne_counter _ (length_EventKey b h id)) as Hne. split.
  - intros w. rewrite lookup_insert_ne by done. apply Hc.
  - intros k w Hk Hlen. rewrite persisted_ne by done.
    apply lookup_insert_Some in Hk as [[<- _]|[_ Hk]]; [by rewrite key_id_EventKey|by eapply Hi].
  - by rewrite persisted_ne.
  - done.
Qed.

Lemma repo_inv_index m er k v : repo_inv m er → index_ok k → repo_inv (<[k := v]> m) er.
Proof.
  intros [Hc Hi Hl Hu] [Hk1 Hk2]. split.
  - intros w. rewrite lookup_insert_ne by done. apply Hc.
  - intros k' w Hk Hlen. rewrite persisted_ne by done.
    apply lookup_insert_Some in Hk as [[<- _]|[_ Hk]]; [done|by eapply Hi].
  - by rewrite persisted_ne.
  - done.
Qed.

Lemma repo_inv_delete m er k : repo_inv m er → k ≠ eventsLastIDKey → repo_inv (delete k m) er.
Proof.
  intros [Hc Hi Hl Hu] Hk.
  assert (persisted (delete k m) = persisted m) as Hp.
  { unfold persisted. by rewrite lookup_delete_ne. }
  split; rewrite ?Hp; try done.
  - intros w. rewrite lookup_delete_ne by done. apply Hc.
  - intros k' w [_ Hk']%lookup_delete_Some. by eapply Hi.
Qed.

Lemma put_inv m k v s s' r :
  put k v s = (s', r) →
  (batch_inv m s → repo_inv (<[k := v]> (apply_ops m s.2)) s.1) →
  batch_inv m s → batch_inv m s' ∧ s'.1 = s.1 ∧
  (r = Ok () → apply_ops m s'.2 = <[k := v]> (apply_ops m s.2)).
Proof.
  destruct s as [er b]. unfold put, batch_Set, batch_add, batch_inv. simpl.
  destruct (batch_fault _ _); intros [= <- <-] Hw Hi; simpl.
  - done.
  - rewrite apply_ops_app. simpl. auto.
Qed.

Lemma next_id_inv m s s' r :
  next_id s = (s', r) → batch_inv m s → lastID s.1 + 1 < 2 ^ 64 →
  batch_inv m s' ∧ lastID s'.1 = lastID s.1 + 1 ∧ r = Ok (lastID s.1 + 1) ∧ s'.2 = s.2 ∧
  bucketSize s'.1 = bucketSize s.1.
Proof.
  destruct s as [er b]. unfold next_id, batch_inv. simpl. intros [= <- <-] [Hc Hi Hl Hu] Hlt.
  unfold is_u64 in Hu.
  rewrite u64_small by (unfold is_u64; lia). simpl. split_and!; try done.
  split; simpl; try done; [lia|unfold is_u64; lia].
Qed.

Lemma indexes_inv {A} m (f : A → outcome bytes) v l s s' r :
  Forall (λ x, ∀ k, f x = Ok k → index_ok k) l →
  st_iter (λ x, k ← st_lift (f x); put k v) l s = (s', r) →
  batch_inv m s → batch_inv m s' ∧ s'.1 = s.1.
Proof.
  intros Hf. revert s. induction Hf as [|x l Hx Hf IH]; intros s; simpl.
  { by intros [= <- <-]. }
  unfold mbind, st_bind at 1. unfold mbind, st_bind at 1. simpl.
  destruct (f x) as [k|e| |] eqn:Ek; simpl; try by intros [= <- <-].
  destruct (put k v s) as [s1 r1] eqn:Hp. intros Hr Hi.
  apply (put_inv m) in Hp as (Hi1 & E1 & _); [|intros; apply repo_inv_index; auto|done].
  destruct r1 as [[]|e| |]; [|by injection Hr as <- <-..].
  apply IH in Hr as [? ?]; [split; [done|congruence]|done].
Qed.

Lemma put_all_eq v l : st_iter (λ k, put k v) l = st_iter (λ x, k ← st_lift (Ok x); put k v) l.
Proof. induction l as [|x l IH]; simpl; [done|]. by rewrite IH. Qed.

(** After the counter write, the event write and the index writes keep the
    invariant whatever the outcome of each. *)
Lemma store_tail_inv {A} m b h v (f : A → outcome bytes) l s s' r :
  Forall (λ x, ∀ k, f x = Ok k → index_ok k) l → is_u64 (lastID s.1) →
  (put (EventKey b h (lastID s.1)) v;;
   st_iter (λ x, k ← st_lift (f x); put k (EventKey b h (lastID s.1))) l;;
   mret (EventKey b h (lastID s.1))) s = (s', r) →
  batch_inv m s → persisted (apply_ops m s.2) = lastID s.1 →
  batch_inv m s' ∧ s'.1 = s.1.
Proof.
  intros Hf Hu Hr Hi Hp. unfold mbind, st_bind at 1 in Hr.
  destruct (put _ _ s) as [s1 r1] eqn:Hput.
  apply (put_inv m) in Hput as (Hi1 & E1 & _);
    [|intros; apply repo_inv_event; [done..|lia]|done].
  destruct r1 as [[]|e| |]; [|by injection Hr as <- <-..].
  unfold mbind, st_bind at 1 in Hr.
  destruct (st_iter _ l s1) as [s2 r2] eqn:Hit.
  apply (indexes_inv m) in Hit as [Hi2 E2]; [|done..].
  destruct r2 as [[]|e| |]; injection Hr as <- <-; (split; [done|congruence]).
Qed.

Lemma StoreRawWithBatch_inv m bucket h ixs msg s s' r :
  batch_inv m s → lastID s.1 + 1 < 2 ^ 64 → Forall index_ok ixs →
  StoreRawWithBatch bucket h ixs msg s = (s', r) →
  batch_inv m s' ∧ lastID s'.1 = lastID s.1 + 1 ∧ bucketSize s'.1 = bucketSize s.1.
Proof.
  intros Hi Hlt Hix Hr. unfold StoreRawWithBatch, mbind, st_bind at 1 in Hr.
  destruct (next_id s) as [s1 r1] eqn:Hn.
  apply (next_id_inv m) in Hn as (Hi1 & E1 & -> & _ & B1); [|done..].
  rewrite <-E1 in Hr. unfold mbind, st_bind at 1 in Hr.
  destruct (put eventsLastIDKey _ s1) as [s2 r2] eqn:Hp.
  pose proof (ri_u64 _ _ Hi1) as Hu.
  apply (put_inv m) in Hp as (Hi2 & E2 & Ea); [|intros; by apply repo_inv_counter|done].
  destruct r2 as [[]|e| |]; [|injection Hr as <- <-; rewrite E2; auto..].
  rewrite put_all_eq, <-E2 in Hr.
  apply (store_tail_inv m) in Hr as [Hi3 E3]; [|..|done|].
  - by rewrite E3, E2.
  - eapply Forall_impl; [exact Hix|]. naive_solver.
  - by rewrite E2.
  - rewrite Ea, E2 by done. by apply persisted_insert_counter.
Qed.

Lemma StoreWithBatch_inv m msg s s' r :
  batch_inv m s → lastID s.1 + 1 < 2 ^ 64 →
  Forall (λ i, ∀ k, MarshalIndex i = Ok k → index_ok k) (sm_Indexes msg) →
  StoreWithBatch msg s = (s', r) →
  batch_inv m s' ∧ lastID s'.1 = lastID s.1 + 1 ∧ bucketSize s'.1 = bucketSize s.1.
Proof.
  intros Hi Hlt Hix Hr. unfold StoreWithBatch, mbind, st_bind at 1 in Hr.
  destruct (next_id s) as [s1 r1] eqn:Hn.
  apply (next_id_inv m) in Hn as (Hi1 & E1 & -> & _ & B1); [|done..].
  rewrite <-E1 in Hr. unfold mbind, st_bind at 1 in Hr. simpl in Hr.
  destruct (CalculateBucket _ _) as [bucket|e| |];
    simpl in Hr; [|injection Hr as <- <-; auto..].
  unfold mbind, st_bind at 1 in Hr.
  destruct (put eventsLastIDKey _ s1) as [s2 r2] eqn:Hp.
  pose proof (ri_u64 _ _ Hi1) as Hu.
  apply (put_inv m) in Hp as (Hi2 & E2 & Ea); [|intros; by apply repo_inv_counter|done].
  destruct r2 as [[]|e| |]; [|injection Hr as <- <-; rewrite E2; auto..].
  unfold mbind, st_bind at 1 in Hr. simpl in Hr.
  destruct (wrap_err _ (Marshal msg)) as [data|e| |];
    [|injection Hr as <- <-; rewrite E2; auto..].
  rewrite <-E2 in Hr.
  apply (store_tail_inv m) in Hr as [Hi3 E3]; [|..|done|].
  - by rewrite E3, E2.
  - eapply Forall_impl; [exact Hix|]. intros i Hik k Hk. apply Hik.
    destruct (MarshalIndex i); simpl in Hk; congruence.
  - by rewrite E2.
  - rewrite Ea, E2 by done. by apply persisted_insert_counter.
Qed.

(** A key with the next id is free. *)
Lemma repo_inv_fresh m er b h id :
  repo_inv m er → is_u64 id → lastID er < id → m !! EventKey b h id = None.
Proof.
  intros [Hc Hi Hl Hu] Hid Hlt. apply eq_None_not_Some. intros [v E].
  specialize (Hi _ _ E (length_EventKey _ _ _)). rewrite key_id_EventKey in Hi by done. lia.
Qed.

Lemma sets_lookup m ixs v (ix : bytes) :
  ix ∈ ixs → apply_ops m ((λ ix, OpSet ix v) <$> ixs) !! ix = Some v.
Proof.
  induction ixs as [|i ixs IH] in m |- *; [by intros ?%elem_of_nil|]. intros Hin.
  destruct (decide (ix ∈ ixs)) as [Hin'|Hn]; [by apply IH|].
  apply elem_of_cons in Hin as [->|]; [|done]. rewrite fmap_cons.
  apply (apply_ops_last m [] (OpSet i v) ((λ ix, OpSet ix v) <$> ixs)); [done|].
  rewrite Forall_fmap, Forall_forall. simpl. by intros y Hy ->.
Qed.

Lemma store_ops_lookup m id b h ixs msg :
  Forall index_ok ixs →
  let key := EventKey b h id in
  let m' := apply_ops m (store_ops id b h ixs msg) in
  m' !! key = Some msg ∧
  Forall (λ ix, m' !! ix = Some key) ixs ∧
  (∀ k, k ≠ key → k ≠ eventsLastIDKey → k ∉ ixs → m' !! k = m !! k).
Proof.
  intros Hix key m'. unfold m', store_ops.
  assert (Forall (λ op, op_key op ≠ key) ((λ ix, OpSet ix key) <$> ixs)) as Hne.
  { rewrite Forall_fmap. eapply Forall_impl; [exact Hix|]. simpl.
    intros ix [_ Hl] ->. apply Hl, length_EventKey. }
  split_and!.
  - by apply (apply_ops_last m [_] (OpSet key msg)).
  - apply Forall_forall. intros ix Hin.
    exact (sets_lookup (apply_ops m [OpSet eventsLastIDKey (be_bytes 8 id); OpSet key msg])
             _ key _ Hin).
  - intros k Hk1 Hk2 Hk3. apply apply_ops_ne.
    repeat constructor; [done..|]. rewrite Forall_fmap, Forall_forall. simpl.
    by intros y Hy ->.
Qed.

(** The persisted counter is itself a counter the invariant accepts. *)
Lemma repo_inv_reload m er bsize :
  repo_inv m er → repo_inv m (mkEventRepository (persisted m) bsize).
Proof.
  intros [Hc Hi Hl Hu]. split; [done..|].
  unfold persisted. simpl. destruct (m !! eventsLastIDKey) as [v|] eqn:E; [|done].
  apply be_val_range_u64. rewrite length_take, (Hc v) by done. done.
Qed.

(** A store never overwrites: the key it returns is not in the store the
    batch would commit to, it then holds the message, every index key leads to
    it, and every other event key keeps its value. *)
Theorem store_fresh_and_lookup m bucket h ixs msg s s' key :
  batch_inv m s → lastID s.1 + 1 < 2 ^ 64 → Forall index_ok ixs →
  StoreRawWithBatch bucket h ixs msg s = (s', Ok key) →
  let before := apply_ops m s.2 in
  let after := apply_ops m s'.2 in
  before !! key = None ∧ after !! key = Some msg ∧
  Forall (λ ix, after !! ix = Some key) ixs ∧
  (∀ k, length k = 24%nat → k ≠ key → after !! k = before !! k).
Proof.
  intros Hi Hlt Hix Hr. destruct s as [er b].
  apply StoreRawWithBatch_ok in Hr as [-> ->]. simpl in *.
  pose proof (ri_u64 _ _ Hi) as Hu. simpl in Hu. unfold is_u64 in Hu.
  rewrite u64_small by (unfold is_u64; lia). rewrite apply_ops_app.
  destruct (store_ops_lookup (apply_ops m b) (lastID er + 1) bucket h ixs msg Hix)
    as (Hk & Hx & Hf).
  split_and!; [|done..|].
  - eapply repo_inv_fresh; [exact Hi|unfold is_u64; simpl; lia|simpl; lia].
  - intros k Hl Hne. apply Hf; [done|by apply key_ne_counter|].
    intros Hin. rewrite Forall_forall in Hix. by apply Hix in Hin as [_ ?].
Qed.

(** The id invariant is kept by a store on every path, errors and panics
    included, and by every committed or failed commit of its batch. *)
Theorem store_preserves_inv db msg mode er b s' r db' e :
  batch_inv (contents db) (er, b) → repo_inv (contents db) er → lastID er + 1 < 2 ^ 64 →
  Forall (λ i, ∀ k, MarshalIndex i = Ok k → index_ok k) (sm_Indexes msg) →
  StoreWithBatch msg (er, b) = (s', r) →
  EventBatch_Commit db s' mode = (db', e) →
  repo_inv (contents db') s'.1.
Proof.
  intros Hi Hrep Hlt Hix Hr Hc.
  apply (StoreWithBatch_inv (contents db)) in Hr as (Hi' & El & Eb); [|done..].
  unfold EventBatch_Commit in Hc. destruct e as [e|].
  - rewrite (Commit_err _ _ _ _ _ Hc). destruct Hrep as [Hc1 Hc2 Hc3 Hc4].
    split; [done..| |by apply (ri_u64 _ _ Hi')]. rewrite El. simpl. lia.
  - rewrite (Commit_ok _ _ _ _ Hc). exact Hi'.
Qed.

(** Restart: opening a repository over a store that satisfies the
    invariant succeeds on an engine whose not-found sentinel is Pebble's, and
    gives a counter with which the invariant holds again, so no id in the store
    is issued twice. *)
Theorem restart_resumes_counter db er bsize :
  notfound = PebbleErrNotFound → get_fault db eventsLastIDKey = None →
  repo_inv (contents db) er →
  ∃ er', NewEventRepository db bsize = Ok er' ∧
    lastID er' = persisted (contents db) ∧ bucketSize er' = bsize ∧
    repo_inv (contents db) er'.
Proof.
  intros Hnf Hg Hinv. exists (mkEventRepository (persisted (contents db)) bsize).
  split_and!; [|done..|by apply repo_inv_reload with er].
  unfold NewEventRepository, persisted. rewrite Get_spec, Hg.
  destruct (contents db !! eventsLastIDKey) as [v|] eqn:E; [|by rewrite Hnf].
  unfold be_uint. by rewrite decide_True by (by rewrite (ri_counter _ _ Hinv v)).
Qed.
End repository.

(** ** Runs on the reference engine *)
Import Toy.

#[local] Program Instance zero_hash : XXHash := {| Sum64String _ := 0 |}.
Next Obligation. by split. Qed.

Definition fresh_repo : EventRepository := mkEventRepository 0 Millisecond.

Lemma fresh_repo_inv : repo_inv ∅ fresh_repo.
Proof.
  split; [intros v|intros k v|by vm_compute|by vm_compute]; rewrite lookup_empty; congruence.
Qed.

Definition sample_stored : StoredMessage := mkStoredMessage "t" (of_str "x") 5 5 0 [of_str "idx"].

Lemma store_fresh_and_lookup_witness :
  let s' := (@StoreRawWithBatch MapDB 3 4 [of_str "idx"] (of_str "m") (fresh_repo, [])).1 in
  apply_ops ∅ s'.2 !! EventKey 3 4 1 = Some (of_str "m").
Proof.
  destruct (@store_fresh_and_lookup MapDB ∅ 3 4 [of_str "idx"] (of_str "m") (fresh_repo, [])
              (@StoreRawWithBatch MapDB 3 4 [of_str "idx"] (of_str "m") (fresh_repo, [])).1
              (EventKey 3 4 1)) as (_ & Hk & _).
  - apply fresh_repo_inv.
  - by vm_compute.
  - apply (bool_decide_unpack _). by vm_compute.
  - reflexivity.
  - exact Hk.
Defined.

Lemma store_preserves_inv_witness :
  let s' := (@StoreWithBatch MapDB zero_hash toy_index toy_protobuf sample_stored (fresh_repo, [])).1 in
  repo_inv (@contents MapDB (@EventBatch_Commit MapDB (∅ : gmap bytes bytes) s' Sync).1) s'.1.
Proof.
  apply (@store_preserves_inv MapDB zero_hash toy_index toy_protobuf (∅ : gmap bytes bytes)
           sample_stored Sync fresh_repo [] _
           (@StoreWithBatch MapDB zero_hash toy_index toy_protobuf sample_stored (fresh_repo, [])).2
           _ (@EventBatch_Commit MapDB (∅ : gmap bytes bytes)
                (@StoreWithBatch MapDB zero_hash toy_index toy_protobuf sample_stored (fresh_repo, [])).1
                Sync).2).
  - apply fresh_repo_inv.
  - apply fresh_repo_inv.
  - by vm_compute.
  - constructor; [|constructor]. intros k [= <-]. apply (bool_decide_unpack _). by vm_compute.
  - apply surjective_pairing.
  - apply surjective_pairing.
Defined.

Lemma restart_resumes_counter_witness :
  ∃ er', @NewEventRepository MapDB (∅ : gmap bytes bytes) Millisecond = Ok er' ∧ lastID er' = 0.
Proof.
  destruct (@restart_resumes_counter MapDB (∅ : gmap bytes bytes) fresh_repo Millisecond)
    as (er' & E & Hl & _); [reflexivity|reflexivity|apply fresh_repo_inv|].
  exists er'. split; [exact E|]. exact Hl.
Defined.

(** Two handlers store in batches of their own over the one repository; the
    batch that was filled first is committed last. *)
Abbreviation toy_store := (@StoreWithBatch MapDB zero_hash toy_index toy_protobuf).

Definition plain_msg (payload : string) : StoredMessage :=
  mkStoredMessage "t" (of_str payload) 5 5 0 [].

Definition interleaved : gmap bytes bytes :=
  let '((er1, batchA), _) := toy_store (plain_msg "A") (fresh_repo, []) in
  let '((er2, batchB), _) := toy_store (plain_msg "B") (er1, []) in
  (@Commit MapDB (@Commit MapDB ∅ batchB Sync).1 batchA Sync).1.

Definition after_restart (m : gmap bytes bytes) : gmap bytes bytes * outcome bytes :=
  match @NewEventRepository MapDB m Millisecond with
  | Ok er => let '((_, batchC), r) := toy_store (plain_msg "C") (er, []) in
             ((@Commit MapDB m batchC Sync).1, r)
  | _ => (m, Panic)
  end.

(** The persisted counter can go back: two batches filled concurrently,
    where the one with the smaller id commits last, leave the smaller id as the
    persisted counter.  After a restart the larger id is issued again, and the
    message stored under it before the restart is overwritten. *)
Theorem interleaved_commits_lose_message :
  let key := EventKey 10 0 2 in
  Unmarshal <$> interleaved !! key = Some (Ok (plain_msg "B")) ∧
  persisted interleaved = 1 ∧
  (after_restart interleaved).2 = Ok key ∧
  Unmarshal <$> (after_restart interleaved).1 !! key = Some (Ok (plain_msg "C")).
Proof. split_and!; vm_compute; reflexivity. Qed.

(** An index is written as it is, without a prefix and without a check: one
    whose bytes are the key of a stored event, or the key of the counter,
    replaces that record by the key of its own event. *)
Definition indexed_by (ix : bytes) (m : gmap bytes bytes) : gmap bytes bytes :=
  let '((_, b), _) := @StoreRawWithBatch MapDB 10 0 [ix] (of_str "B") (mkEventRepository 1 Millisecond, []) in
  (@Commit MapDB m b Sync).1.

Theorem index_overwrites_record :
  let victim := EventKey 10 0 1 in
  let m : gmap bytes bytes := {[ victim := of_str "A"; eventsLastIDKey := be_bytes 8 1 ]} in
  indexed_by victim m !! victim = Some (EventKey 10 0 2) ∧
  indexed_by eventsLastIDKey m !! eventsLastIDKey = Some (EventKey 10 0 2) ∧
  persisted (indexed_by eventsLastIDKey m) = 0.
Proof. split_and!; vm_compute; reflexivity. Qed.
