(* ===== verification/Codec.v ===== *)
(** * Buffers and cursors

    The two idioms of the binary codecs: filling a preallocated slice at an
    advancing position, and reading a slice at an advancing position.  Go's
    bounds checks are kept: an access out of range is a [Panic]. *)
From stdpp Require Import prelude gmap strings.
From S2P Require Import Prelude Bytes.

(** ** Writing *)

(** [make([]byte, n)] *)
Definition make_bytes (n : nat) : bytes := replicate n Byte.x00.

(** The buffer and the position [pos]. *)
Abbreviation wbuf := (bytes * nat)%type.

(** [binary.BigEndian.PutUintN(out[pos:pos+n], v); pos += n] *)
Definition w_put (n : nat) (v : Z) : st wbuf () := λ '(out, pos),
  if decide (pos + n ≤ length out)
  then ((take pos out ++ be_bytes n v ++ drop (pos + n) out, pos + n), Ok ())
  else ((out, pos), Panic).

(** [copy(out[pos:], src); pos += len(src)]: [copy] stops at the end of the
    buffer. *)
Definition w_copy (src : bytes) : st wbuf () := λ '(out, pos),
  if decide (pos ≤ length out)
  then ((take pos out ++ take (length out - pos) src ++ drop (pos + length src) out,
         pos + length src), Ok ())
  else ((out, pos), Panic).

(** ** Reading *)

(** [data[lo:hi]] *)
Definition slice (data : bytes) (lo hi : Z) : outcome bytes :=
  if decide (0 ≤ lo ∧ lo ≤ hi ∧ hi ≤ len data)%Z
  then Ok (take (Z.to_nat (hi - lo)) (drop (Z.to_nat lo) data))
  else Panic.

(** [data[lo:]] *)
Definition slice_from (data : bytes) (lo : Z) : outcome bytes := slice data lo (len data).

(** [binary.BigEndian.UintN(data[pos:pos+n])] *)
Definition r_uint (n : nat) (data : bytes) (pos : Z) : outcome Z :=
  s ← slice data pos (pos + Z.of_nat n); be_uint n s.

(** [binary.BigEndian.UintN(data[pos:])] *)
Definition r_uint_from (n : nat) (data : bytes) (pos : Z) : outcome Z :=
  s ← slice_from data pos; be_uint n s.

(** ** Lemmas on writing *)

(** [writes w bs]: in a buffer whose tail from [pos] on is still zero and long
    enough, [w] puts [bs] at [pos] and moves behind it. *)
Definition writes (w : st wbuf ()) (bs : bytes) : Prop :=
  ∀ pre n, length bs ≤ n →
    w (pre ++ make_bytes n, length pre) =
      ((pre ++ bs ++ make_bytes (n - length bs), length pre + length bs), Ok ()).

Lemma w_put_writes n v : writes (w_put n v) (be_bytes n v).
Proof.
  intros pre k. rewrite length_be_bytes. intros Hk. unfold w_put, make_bytes.
  rewrite decide_True by (autorewrite with goq_len; lia).
  rewrite take_app_exact by done. rewrite <-drop_drop, drop_app_exact by done.
  by rewrite drop_replicate.
Qed.

Lemma w_copy_writes src : writes (w_copy src) src.
Proof.
  intros pre k Hk. unfold w_copy, make_bytes.
  rewrite decide_True by (autorewrite with goq_len; lia).
  rewrite take_app_exact by done. rewrite <-drop_drop, drop_app_exact by done.
  rewrite take_ge by (autorewrite with goq_len; lia). by rewrite drop_replicate.
Qed.

Lemma writes_seq w1 w2 b1 b2 :
  writes w1 b1 → writes w2 b2 → writes (w1;; w2) (b1 ++ b2).
Proof.
  intros Hw1 Hw2 pre n. rewrite length_app. intros Hn. unfold mbind, st_bind.
  rewrite Hw1 by lia.
  replace (length pre + length b1) with (length (pre ++ b1)) by (by rewrite length_app).
  rewrite (app_assoc pre b1), Hw2 by lia. rewrite !length_app.
  f_equal. f_equal; [|lia]. rewrite <-!app_assoc. do 4 f_equal. lia.
Qed.

Lemma writes_nil : writes (mret ()) [].
Proof. intros pre n _. simpl. by rewrite Nat.sub_0_r, Nat.add_0_r. Qed.

Lemma writes_iter {A} (f : A → st wbuf ()) (g : A → bytes) l :
  (∀ x, writes (f x) (g x)) → writes (st_iter f l) (mjoin (g <$> l)).
Proof.
  intros Hf. induction l as [|x l IH]; simpl; [apply writes_nil|]. by apply writes_seq.
Qed.

(** Filling a buffer of exactly the right size. *)
Lemma writes_full w bs n :
  writes w bs → n = length bs → (w (make_bytes n, 0)).1.1 = bs ∧ (w (make_bytes n, 0)).2 = Ok ().
Proof.
  intros Hw ->. specialize (Hw [] (length bs) (Nat.le_refl _)). simpl in Hw. rewrite Hw.
  simpl. rewrite Nat.sub_diag. by rewrite app_nil_r.
Qed.

#[export] Hint Resolve w_put_writes w_copy_writes writes_seq writes_iter writes_nil : goq.

(** ** Lemmas on reading *)
Lemma slice_app pre x post :
  slice (pre ++ x ++ post) (len pre) (len pre + len x) = Ok x.
Proof.
  unfold slice, len. rewrite decide_True by (autorewrite with goq_len; lia).
  rewrite Nat2Z.id, drop_app_exact by done.
  rewrite take_app_exact by lia. done.
Qed.

Lemma r_uint_app n pre v post :
  r_uint n (pre ++ be_bytes n v ++ post) (len pre) = Ok (v `mod` 2 ^ (8 * Z.of_nat n))%Z.
Proof.
  unfold r_uint. pose proof (slice_app pre (be_bytes n v) post) as Hs.
  unfold len in Hs at 3. rewrite length_be_bytes in Hs. rewrite Hs. simpl.
  apply be_uint_exact.
Qed.

Lemma r_uint_head n v post :
  r_uint n (be_bytes n v ++ post) 0 = Ok (v `mod` 2 ^ (8 * Z.of_nat n))%Z.
Proof. exact (r_uint_app n [] v post). Qed.

Lemma r_uint_at n pre v post p :
  p = len pre → r_uint n (pre ++ be_bytes n v ++ post) p = Ok (v `mod` 2 ^ (8 * Z.of_nat n))%Z.
Proof. intros ->. apply r_uint_app. Qed.

Lemma r_uint_from_app n pre v post :
  r_uint_from n (pre ++ be_bytes n v ++ post) (len pre) = Ok (v `mod` 2 ^ (8 * Z.of_nat n))%Z.
Proof.
  unfold r_uint_from, slice_from.
  pose proof (slice_app pre (be_bytes n v ++ post) []) as Hs.
  rewrite app_nil_r, <-len_app in Hs. rewrite Hs. apply be_uint_app.
Qed.

Lemma slice_ok data lo hi :
  (0 ≤ lo)%Z → (lo ≤ hi)%Z → (hi ≤ len data)%Z →
  ∃ s, slice data lo hi = Ok s ∧ len s = (hi - lo)%Z.
Proof.
  intros. unfold slice. rewrite decide_True by done. eexists. split; [done|].
  unfold len in *. autorewrite with goq_len. lia.
Qed.

Lemma r_uint_ok n data pos :
  (0 ≤ pos)%Z → (pos + Z.of_nat n ≤ len data)%Z →
  ∃ v, r_uint n data pos = Ok v ∧ (0 ≤ v < 2 ^ (8 * Z.of_nat n))%Z.
Proof.
  intros H0 H1. destruct (slice_ok data pos (pos + Z.of_nat n)) as (s & Hs & Hl); [lia..|].
  unfold r_uint. rewrite Hs. simpl. unfold be_uint, len in *.
  rewrite decide_True by lia. eexists. split; [done|].
  rewrite take_ge by lia. pose proof (be_val_range s) as R. unfold len in R.
  by replace (Z.of_nat n) with (Z.of_nat (length s)) by lia.
Qed.

(** ** Readers that advance a position

    The state is Go's local [pos]; [data] is fixed. *)
Section readers.
Local Open Scope Z_scope.
Context (data : bytes).

(** [v := UintN(data[pos:pos+n]); pos += n] *)
Definition rd_uint (n : nat) : st Z Z := λ pos,
  match r_uint n data pos with
  | Ok v => (pos + Z.of_nat n, Ok v)
  | r => (pos, r)
  end.

(** [s := data[pos:pos+n]; pos += n] *)
Definition rd_bytes (n : Z) : st Z bytes := λ pos,
  match slice data pos (pos + n) with
  | Ok s => (pos + n, Ok s)
  | r => (pos, r)
  end.

(** [if pos+n > len(data) { return err }] *)
Definition rd_guard (n : Z) (e : Z → error) : st Z () := λ pos,
  if decide (pos + n > len data) then (pos, Err (e pos)) else (pos, Ok ()).
End readers.

(** [reads m bs v]: wherever [bs] stands in a slice, [m] started at it returns
    [v] and stops behind it. *)
Definition reads {A} (m : bytes → st Z A) (bs : bytes) (v : A) : Prop :=
  ∀ pre post, m (pre ++ bs ++ post) (len pre) = ((len pre + len bs)%Z, Ok v).

(** [rsafe data m Q pos]: [m] started at [pos] neither panics nor runs out of
    fuel, and a normal return satisfies [Q]. *)
Definition rsafe {A} (m : st Z A) (Q : A → Z → Prop) (pos : Z) : Prop :=
  match m pos with
  | (pos', Ok a) => Q a pos'
  | (_, Err _) => True
  | _ => False
  end.

Section reader_lemmas.
Local Open Scope Z_scope.

Lemma len_be_bytes n z : len (be_bytes n z) = Z.of_nat n.
Proof. unfold len. by rewrite length_be_bytes. Qed.

Lemma reads_uint n v :
  0 ≤ v < 2 ^ (8 * Z.of_nat n) → reads (λ d, rd_uint d n) (be_bytes n v) v.
Proof.
  intros Hv pre post. unfold rd_uint.
  by rewrite r_uint_app, Z.mod_small, len_be_bytes by done.
Qed.

Lemma reads_bytes n bs : n = len bs → reads (λ d, rd_bytes d n) bs bs.
Proof. intros -> pre post. unfold rd_bytes. by rewrite slice_app. Qed.

Lemma reads_ret {A} (v : A) : reads (λ _, mret v) [] v.
Proof. intros pre post. unfold len at 2. simpl. by rewrite Z.add_0_r. Qed.

Lemma reads_bind {A B} (m : bytes → st Z A) (f : bytes → A → st Z B) b1 b2 a v :
  reads m b1 a → reads (λ d, f d a) b2 v → reads (λ d, m d ≫= f d) (b1 ++ b2) v.
Proof.
  intros Hm Hf pre post. unfold mbind, st_bind. rewrite <-app_assoc, Hm.
  specialize (Hf (pre ++ b1) post). rewrite <-app_assoc, len_app in Hf. rewrite Hf.
  rewrite len_app. f_equal. lia.
Qed.

(** A bounds check that the bytes in front satisfy. *)
Lemma reads_guard {B} (f : bytes → st Z B) n e bs v :
  n ≤ len bs → reads f bs v → reads (λ d, rd_guard d n (e d);; f d) bs v.
Proof.
  intros Hn Hf pre post. unfold rd_guard, mbind, st_bind.
  rewrite decide_False; [apply Hf|].
  rewrite !len_app. pose proof (len_nonneg post). lia.
Qed.

Lemma reads_ext {A} (m m' : bytes → st Z A) bs v :
  (∀ d, m' d = m d) → reads m bs v → reads m' bs v.
Proof. intros E Hm pre post. by rewrite E. Qed.

Lemma reads_eq {A} (m : bytes → st Z A) bs bs' v : reads m bs v → bs = bs' → reads m bs' v.
Proof. by intros ? <-. Qed.

Lemma rsafe_bind {A B} (m : st Z A) (f : A → st Z B) Q pos :
  rsafe m (λ a, rsafe (f a) Q) pos → rsafe (m ≫= f) Q pos.
Proof. unfold rsafe, mbind, st_bind. by destruct (m pos) as [p [a|e| |]]. Qed.

Lemma rsafe_guard data n e (Q : () → Z → Prop) pos :
  (pos + n ≤ len data → Q () pos) → rsafe (rd_guard data n e) Q pos.
Proof. intros HQ. unfold rsafe, rd_guard. case_decide; [done|]. apply HQ. lia. Qed.

Lemma rsafe_uint data n (Q : Z → Z → Prop) pos :
  0 ≤ pos → pos + Z.of_nat n ≤ len data →
  (∀ v, 0 ≤ v < 2 ^ (8 * Z.of_nat n) → Q v (pos + Z.of_nat n)) → rsafe (rd_uint data n) Q pos.
Proof.
  intros H0 H1 HQ. destruct (r_uint_ok n data pos H0 H1) as (v & E & Hv).
  unfold rsafe, rd_uint. rewrite E. by apply HQ.
Qed.

Lemma rsafe_bytes data n (Q : bytes → Z → Prop) pos :
  0 ≤ pos → 0 ≤ n → pos + n ≤ len data →
  (∀ s, len s = n → Q s (pos + n)) → rsafe (rd_bytes data n) Q pos.
Proof.
  intros H0 H1 H2 HQ. destruct (slice_ok data pos (pos + n)) as (s & E & Hl); [lia..|].
  unfold rsafe, rd_bytes. rewrite E. apply HQ. lia.
Qed.

Lemma rsafe_ret {A} (a : A) (Q : A → Z → Prop) pos : Q a pos → rsafe (mret a) Q pos.
Proof. done. Qed.

Lemma rsafe_err {A} (e : error) (Q : A → Z → Prop) pos : rsafe (st_lift (Err e)) Q pos.
Proof. done. Qed.

Lemma rsafe_mono {A} (m : st Z A) (Q Q' : A → Z → Prop) pos :
  rsafe m Q pos → (∀ a p, Q a p → Q' a p) → rsafe m Q' pos.
Proof. unfold rsafe. destruct (m pos) as [p [a|e| |]]; auto. Qed.

(** What safety says of the outcome. *)
Lemma rsafe_outcome {A} (m : st Z A) Q pos :
  rsafe m Q pos → (m pos).2 ≠ Panic ∧ (m pos).2 ≠ OutOfFuel.
Proof. unfold rsafe. by destruct (m pos) as [p [a|e| |]]. Qed.
End reader_lemmas.

#[export] Hint Resolve reads_uint reads_bytes reads_ret reads_bind reads_guard : goq.
