(* ===== verification/EventCommands.v ===== *)
(** * Event shard commands ([src/internal/raft/event/commands.go])

    The binary commands that go through the Raft log of the event shard.  The
    marshallers fill a preallocated buffer and are proved equal to a plain
    concatenation; the unmarshallers are total up to the allocations they make
    from an unchecked count, and invert the marshallers. *)
From stdpp Require Import prelude gmap strings.
From S2P Require Import Prelude Bytes Codec.
Local Open Scope Z_scope.

(** CommandType *)
Definition StoreBatchCmd : Z := 0.
Definition DeleteBatchCmd : Z := 1.

Record StoreBatchItem := mkStoreBatchItem {
  Bucket : Z;
  ItemTopicHash : Z;
  Indexes : list bytes;
  Msg : bytes;
}.

#[export] Instance StoreBatchItem_eq_dec : EqDecision StoreBatchItem.
Proof. solve_decision. Defined.

(** [make] panics when the memory asked for exceeds the address space the
    runtime supports ([maxAlloc], 2^48 bytes on linux/amd64) or when a signed
    size is negative; [elem] is the element size. *)
Definition maxAlloc : Z := 2 ^ 48.
Definition make_slice (n elem : Z) : outcome () :=
  if decide (0 ≤ n ∧ n * elem ≤ maxAlloc) then Ok () else Panic.

(** [unsafe.Sizeof]: two words and two slice headers; one slice header. *)
Definition sizeof_item : Z := 64.
Definition sizeof_slice : Z := 24.

(** ** StoreBatchCmd *)
Definition item_size (it : StoreBatchItem) : nat :=
  8 + 8 + 2 + sum_list ((λ idx, 2 + length idx)%nat <$> Indexes it) + (4 + length (Msg it)).

Definition marshal_item (it : StoreBatchItem) : st wbuf () :=
  w_put 8 (Bucket it);;
  w_put 8 (ItemTopicHash it);;
  w_put 2 (u16 (len (Indexes it)));;
  st_iter (λ idx, w_put 2 (u16 (len idx));; w_copy idx) (Indexes it);;
  w_put 4 (u32 (len (Msg it)));;
  w_copy (Msg it).

Definition MarshalStoreBatchCmd (items : list StoreBatchItem) : outcome bytes :=
  let size := (1 + 8 + sum_list (item_size <$> items))%nat in
  let w := (w_put 1 StoreBatchCmd;;
            w_put 8 (u64 (len items));;
            st_iter marshal_item items) (make_bytes size, 0%nat) in
  _ ← w.2; Ok w.1.1.

(** The loop over the indexes of item [i]; [n] of them are left, [j] were
    read. *)
Fixpoint read_indexes (i : Z) (n : nat) (j : Z) (data : bytes) : st Z (list bytes) :=
  match n with
  | O => mret []
  | S n' =>
      rd_guard data 2
        (λ _, ErrorMsg "raft: StoreBatchCmd truncated at item %d index %d len" [i; j]);;
      idxLen ← rd_uint data 2;
      rd_guard data idxLen
        (λ _, ErrorMsg "raft: StoreBatchCmd truncated at item %d index %d data" [i; j]);;
      idx ← rd_bytes data idxLen;
      rest ← read_indexes i n' (j + 1) data;
      mret (idx :: rest)
  end.

(** The body of the item loop. *)
Definition read_item (i : Z) (data : bytes) : st Z StoreBatchItem :=
  rd_guard data (8 + 8 + 2) (λ _, ErrorMsg "raft: StoreBatchCmd truncated at item %d header" [i]);;
  bucket ← rd_uint data 8;
  topicHash ← rd_uint data 8;
  numIdx ← rd_uint data 2;
  indexes ← read_indexes i (Z.to_nat numIdx) 0 data;
  rd_guard data 4 (λ _, ErrorMsg "raft: StoreBatchCmd truncated at item %d valLen" [i]);;
  valLen ← rd_uint data 4;
  rd_guard data valLen
    (λ pos, ErrorMsg "raft: StoreBatchCmd truncated at item %d value (need %d, have %d)"
              [i; valLen; len data - pos]);;
  value ← rd_bytes data valLen;
  mret (mkStoreBatchItem bucket topicHash indexes value).

(** [for i := uint64(0); i < count; i++]; an item takes at least one byte, so
    one unit of fuel per byte left is enough. *)
Fixpoint read_items (fuel : nat) (i count : Z) (data : bytes) : st Z (list StoreBatchItem) :=
  if decide (i < count) then
    match fuel with
    | O => st_lift OutOfFuel
    | S n =>
        it ← read_item i data;
        rest ← read_items n (i + 1) count data;
        mret (it :: rest)
    end
  else mret [].

Definition UnmarshalStoreBatchCmd (data : bytes) : outcome (list StoreBatchItem) :=
  if decide (len data < 1 + 8)
  then Err (ErrorMsg "raft: StoreBatchCmd too short: %d bytes" [len data])
  else
    c ← r_uint 1 data 0;
    if decide (c ≠ StoreBatchCmd)
    then Err (ErrorMsg "raft: expected StoreBatchCmd (0), got %d" [c])
    else
      count ← r_uint 8 data 1;
      make_slice count sizeof_item;;
      (read_items (S (length data)) 0 count data 9).2.

(** ** DeleteBatchCmd *)
Definition write_keys (keys : list bytes) : st wbuf () :=
  st_iter (λ k,
    (if decide (len k ≠ 24)
     then st_lift (Err (ErrorMsg "raft: DeleteBatchCmd: key must be 24 bytes, got %d" [len k]))
     else mret ());;
    w_copy k) keys.

Definition MarshalDeleteBatchCmd (keys : list bytes) : outcome bytes :=
  let w := (w_put 1 DeleteBatchCmd;;
            w_put 8 (u64 (len keys));;
            write_keys keys) (make_bytes (1 + 8 + length keys * 24), 0%nat) in
  _ ← w.2; Ok w.1.1.

(** [for i := 0; i < count; i++]: [n] keys are left. *)
Fixpoint read_keys (data : bytes) (i : Z) (n : nat) : outcome (list bytes) :=
  match n with
  | O => Ok []
  | S n' =>
      let start := 9 + i * 24 in
      k ← slice data start (start + 24);
      rest ← read_keys data (i + 1) n';
      Ok (k :: rest)
  end.

(** [count] is an [int] read from an unsigned field, and [9+count*24] is
    computed in [int]. *)
Definition UnmarshalDeleteBatchCmd (data : bytes) : outcome (list bytes) :=
  if decide (len data < 1 + 8)
  then Err (ErrorMsg "raft: DeleteBatchCmd too short: %d bytes" [len data])
  else
    c ← r_uint 1 data 0;
    if decide (c ≠ DeleteBatchCmd)
    then Err (ErrorMsg "raft: expected DeleteBatchCmd (1), got %d" [c])
    else
      raw ← r_uint 8 data 1;
      let count := i64 raw in
      if decide (len data < i64 (9 + i64 (count * 24)))
      then Err (ErrorMsg "raft: DeleteBatchCmd too short for %d keys" [count])
      else
        make_slice count sizeof_slice;;
        read_keys data 0 (Z.to_nat count).

(** ** Reference encodings *)
Definition encode_index (idx : bytes) : bytes := be_bytes 2 (u16 (len idx)) ++ idx.

Definition encode_item (it : StoreBatchItem) : bytes :=
  be_bytes 8 (Bucket it) ++ be_bytes 8 (ItemTopicHash it) ++
  be_bytes 2 (u16 (len (Indexes it))) ++
  mjoin (encode_index <$> Indexes it) ++
  be_bytes 4 (u32 (len (Msg it))) ++ Msg it.

Definition encode_store (items : list StoreBatchItem) : bytes :=
  be_bytes 1 StoreBatchCmd ++ be_bytes 8 (u64 (len items)) ++ mjoin (encode_item <$> items).

Definition encode_delete (keys : list bytes) : bytes :=
  be_bytes 1 DeleteBatchCmd ++ be_bytes 8 (u64 (len keys)) ++ mjoin keys.

(** The items whose lengths fit the length fields of the format. *)
Definition item_ok (it : StoreBatchItem) : Prop :=
  is_u64 (Bucket it) ∧ is_u64 (ItemTopicHash it) ∧ len (Indexes it) < 2 ^ 16 ∧
  Forall (λ idx, len idx < 2 ^ 16) (Indexes it) ∧ len (Msg it) < 2 ^ 32.

#[export] Instance item_ok_dec it : Decision (item_ok it).
Proof. unfold item_ok, is_u64. apply _. Defined.

(** ** The buffer writers produce the reference encodings *)
Lemma length_encode_item it : length (encode_item it) = item_size it.
Proof.
  unfold encode_item, item_size. autorewrite with goq_len.
  rewrite (length_mjoin_fmap _ (λ idx, (2 + length idx)%nat)); [lia|].
  intros idx. unfold encode_index. by autorewrite with goq_len.
Qed.

Lemma length_encode_store items :
  length (encode_store items) = (1 + 8 + sum_list (item_size <$> items))%nat.
Proof.
  unfold encode_store. autorewrite with goq_len.
  by rewrite (length_mjoin_fmap _ item_size) by apply length_encode_item.
Qed.

Lemma marshal_item_writes it : writes (marshal_item it) (encode_item it).
Proof.
  unfold marshal_item, encode_item, encode_index. auto 12 with goq.
Qed.

Lemma MarshalStoreBatchCmd_eq items : MarshalStoreBatchCmd items = Ok (encode_store items).
Proof.
  unfold MarshalStoreBatchCmd.
  set (w := (w_put 1 StoreBatchCmd;; _)).
  assert (writes w (encode_store items)) as Hw.
  { unfold w, encode_store. auto using marshal_item_writes with goq. }
  apply (writes_full _ _ (1 + 8 + sum_list (item_size <$> items))) in Hw as [E1 E2].
  - by rewrite E2, E1.
  - by rewrite length_encode_store.
Qed.

Lemma write_keys_writes keys :
  Forall (λ k : bytes, len k = 24) keys → writes (write_keys keys) (mjoin keys).
Proof.
  unfold write_keys. induction 1 as [|k keys Hk Hks IH]; simpl; [apply writes_nil|].
  rewrite decide_False by auto.
  apply writes_seq; [|done]. apply (writes_seq _ _ [] k); auto with goq.
Qed.

Lemma length_mjoin_keys keys :
  Forall (λ k : bytes, len k = 24) keys → length (mjoin keys) = (length keys * 24)%nat.
Proof.
  induction 1 as [|k keys Hk Hks IH]; [done|]. simpl. rewrite length_app, IH.
  unfold len in Hk. lia.
Qed.

Lemma MarshalDeleteBatchCmd_eq keys :
  Forall (λ k : bytes, len k = 24) keys → MarshalDeleteBatchCmd keys = Ok (encode_delete keys).
Proof.
  intros Hk. unfold MarshalDeleteBatchCmd. set (w := (w_put 1 DeleteBatchCmd;; _)).
  assert (writes w (encode_delete keys)) as Hw.
  { unfold w, encode_delete. auto using write_keys_writes with goq. }
  apply (writes_full _ _ (1 + 8 + length keys * 24)) in Hw as [E1 E2].
  - by rewrite E2, E1.
  - unfold encode_delete. rewrite !length_app, !length_be_bytes, length_mjoin_keys by done. lia.
Qed.

(** One key of another length makes the whole batch fail. *)
Lemma write_keys_bad keys pre n :
  ¬ Forall (λ k : bytes, len k = 24) keys → (length keys * 24 ≤ n)%nat →
  ∃ e, (write_keys keys (pre ++ make_bytes n, length pre)).2 = Err e.
Proof.
  unfold write_keys. induction keys as [|k keys IH] in pre, n |- *; [by intros []|].
  intros Hbad Hn. simpl in Hn. cbn [st_iter].
  destruct (decide (len k = 24)) as [Hk|Hk].
  - rewrite decide_False by auto.
    assert (writes (mret ();; w_copy k) ([] ++ k)) as Hw by auto with goq.
    assert (length k = 24%nat) as Hl by (unfold len in Hk; lia).
    unfold mbind at 1, st_bind at 1. rewrite Hw by (rewrite app_nil_l; lia). simpl.
    rewrite app_assoc, <-length_app. apply IH; [|lia].
    intros Hf. apply Hbad. by constructor.
  - rewrite decide_True by done. eexists. reflexivity.
Qed.

Lemma MarshalDeleteBatchCmd_bad keys :
  ¬ Forall (λ k : bytes, len k = 24) keys → ∃ e, MarshalDeleteBatchCmd keys = Err e.
Proof.
  intros Hbad. unfold MarshalDeleteBatchCmd.
  set (n := (1 + 8 + length keys * 24)%nat).
  set (r := (_ : st wbuf ()) _).
  assert (∃ e, r.2 = Err e) as [e He].
  { unfold r, mbind at 1, st_bind at 1.
    pose proof (w_put_writes 1 DeleteBatchCmd [] n) as W1. cbn [app length Nat.add] in W1.
    rewrite W1 by (rewrite length_be_bytes; unfold n; lia).
    unfold mbind at 1, st_bind at 1.
    rewrite (w_put_writes 8 (u64 (len keys)) (be_bytes 1 DeleteBatchCmd))
      by (rewrite !length_be_bytes; unfold n; lia).
    rewrite app_assoc, <-length_app. apply write_keys_bad; [done|].
    rewrite !length_be_bytes. unfold n. lia. }
  exists e. rewrite He. done.
Qed.

(** ** The readers invert the encodings *)
Lemma read_indexes_reads i j idxs :
  Forall (λ idx : bytes, len idx < 2 ^ 16) idxs →
  reads (read_indexes i (length idxs) j) (mjoin (encode_index <$> idxs)) idxs.
Proof.
  intros Hf. revert j. induction Hf as [|idx idxs Hi Hf IH]; intros j; [apply reads_ret|].
  pose proof (len_nonneg idx). rewrite fmap_cons, mjoin_cons. unfold encode_index at 1.
  rewrite (u16_small (len idx)), <-app_assoc by lia. cbn [read_indexes length].
  apply reads_guard.
  { rewrite !len_app, len_be_bytes. pose proof (len_nonneg (mjoin (encode_index <$> idxs))). lia. }
  apply reads_bind with (len idx); [apply reads_uint; simpl; lia|].
  apply reads_guard.
  { rewrite len_app. pose proof (len_nonneg (mjoin (encode_index <$> idxs))). lia. }
  apply reads_bind with idx; [by apply reads_bytes|].
  eapply reads_eq; [|apply app_nil_r]. apply reads_bind with idxs; [apply IH|apply reads_ret].
Qed.

Lemma read_item_reads i it : item_ok it → reads (read_item i) (encode_item it) it.
Proof.
  destruct it as [b h ixs msg]. intros (Hb & Hh & Hn & Hf & Hm). simpl in *.
  unfold encode_item, read_item. cbn [Bucket ItemTopicHash Indexes Msg].
  pose proof (len_nonneg ixs). pose proof (len_nonneg msg).
  rewrite (u16_small (len ixs)), (u32_small (len msg)) by lia.
  pose proof (len_nonneg (mjoin (encode_index <$> ixs))).
  apply reads_guard; [rewrite !len_app, !len_be_bytes; lia|].
  apply reads_bind with b; [by apply reads_uint|].
  apply reads_bind with h; [by apply reads_uint|].
  apply reads_bind with (len ixs); [apply reads_uint; simpl; lia|].
  replace (Z.to_nat (len ixs)) with (length ixs) by (unfold len; lia).
  apply reads_bind with ixs; [by apply read_indexes_reads|].
  apply reads_guard; [rewrite !len_app, !len_be_bytes; lia|].
  apply reads_bind with (len msg); [apply reads_uint; simpl; lia|].
  apply reads_guard; [done|].
  eapply reads_eq; [|apply app_nil_r].
  apply reads_bind with msg; [by apply reads_bytes|apply reads_ret].
Qed.

Lemma read_items_reads fuel i items :
  Forall item_ok items → (length items < fuel)%nat →
  reads (read_items fuel i (i + len items)) (mjoin (encode_item <$> items)) items.
Proof.
  intros Hf. revert fuel i. induction Hf as [|it items Hi Hf IH]; intros fuel i Hn.
  { eapply reads_ext; [|apply reads_ret]. intros d. unfold len. simpl.
    destruct fuel; cbn [read_items]; by rewrite decide_False by lia. }
  destruct fuel as [|fuel]; [simpl in Hn; lia|]. pose proof (len_nonneg items).
  rewrite fmap_cons, mjoin_cons, len_cons.
  eapply reads_ext; [intros d; cbn [read_items]; by rewrite decide_True by lia|].
  apply reads_bind with it; [by apply read_item_reads|].
  replace (i + (1 + len items)) with (i + 1 + len items) by lia.
  eapply reads_eq; [|apply app_nil_r].
  apply reads_bind with items; [apply IH; by apply Nat.succ_lt_mono|apply reads_ret].
Qed.

Lemma length_items_le items : (length items ≤ sum_list (item_size <$> items))%nat.
Proof.
  induction items as [|it items IH]; [done|]. rewrite fmap_cons. cbn [sum_list_with length].
  assert (1 ≤ item_size it)%nat by (unfold item_size; lia). unfold id at 1. lia.
Qed.

(** ** The readers are safe *)
Lemma read_indexes_safe i n j data pos :
  0 ≤ pos ≤ len data →
  rsafe (read_indexes i n j data)
    (λ ixs p, pos ≤ p ≤ len data ∧ length ixs = n ∧ Forall (λ idx, len idx < 2 ^ 16) ixs) pos.
Proof.
  revert j pos. induction n as [|n IH]; intros j pos Hp; [by apply rsafe_ret; split_and!; [lia..|done|]|].
  cbn [read_indexes]. apply rsafe_bind, rsafe_guard. intros H1.
  apply rsafe_bind, rsafe_uint; [lia..|]. intros k Hk.
  apply rsafe_bind, rsafe_guard. intros H2.
  apply rsafe_bind, rsafe_bytes; [lia..|]. intros s Hs.
  apply rsafe_bind. eapply rsafe_mono; [apply IH; lia|]. intros rest p (Hr & Hn & Hf).
  apply rsafe_ret. split_and!; [lia..|simpl; lia|]. constructor; [|done]. simpl in Hk. lia.
Qed.

Lemma read_item_safe i data pos :
  0 ≤ pos ≤ len data → rsafe (read_item i data) (λ it p, pos < p ≤ len data ∧ item_ok it) pos.
Proof.
  intros Hp. unfold read_item. apply rsafe_bind, rsafe_guard. intros H1.
  apply rsafe_bind, rsafe_uint; [lia..|]; intros b Hb. apply rsafe_bind, rsafe_uint; [lia..|]; intros h Hh.
  apply rsafe_bind, rsafe_uint; [lia..|]; intros n Hn.
  apply rsafe_bind. eapply rsafe_mono; [apply read_indexes_safe; lia|]. intros ixs p (Hi & Hl & Hf).
  apply rsafe_bind, rsafe_guard. intros H2.
  apply rsafe_bind, rsafe_uint; [lia..|]. intros k Hk.
  apply rsafe_bind, rsafe_guard. intros H3.
  apply rsafe_bind, rsafe_bytes; [lia..|]. intros s Hs. apply rsafe_ret. split; [lia|].
  simpl in Hb, Hh, Hn, Hk. unfold item_ok, is_u64. simpl. split_and!; try lia; [|done].
  unfold len. rewrite Hl. lia.
Qed.

Lemma read_items_safe fuel i count data pos :
  0 ≤ pos ≤ len data → len data - pos < Z.of_nat fuel →
  rsafe (read_items fuel i count data) (λ its _, len its = Z.max 0 (count - i) ∧ Forall item_ok its) pos.
Proof.
  revert i pos. induction fuel as [|n IH]; intros i pos Hp Hf; [lia|].
  cbn [read_items]. case_decide; [|apply rsafe_ret; unfold len; simpl; split; [lia|done]].
  apply rsafe_bind. eapply rsafe_mono; [by apply read_item_safe|]. intros it p [Hi Hok].
  apply rsafe_bind. eapply rsafe_mono; [apply IH; lia|]. intros rest p' [Hr Hrest]. simpl in Hr.
  apply rsafe_ret. rewrite len_cons. split; [lia|by constructor].
Qed.

(** Whatever decodes fits the format. *)
Lemma UnmarshalStoreBatchCmd_item_ok data items :
  UnmarshalStoreBatchCmd data = Ok items → Forall item_ok items.
Proof.
  unfold UnmarshalStoreBatchCmd. case_decide; [done|].
  intros (c & _ & Hr)%outcome_bind_ok. case_decide; [done|].
  apply outcome_bind_ok in Hr as (n & _ & ([] & _ & Hr)%outcome_bind_ok).
  pose proof (read_items_safe (S (length data)) 0 n data 9 ltac:(lia) ltac:(unfold len in *; lia)) as Hs.
  unfold rsafe in Hs. destruct (read_items _ _ _ _ _) as [p [its|e| |]]; simplify_eq/=. apply Hs.
Qed.

(** The header of a command: its type byte and its count. *)
Lemma header_reads (c n : Z) body :
  0 ≤ c < 256 →
  let cmd := be_bytes 1 c ++ be_bytes 8 (u64 n) ++ body in
  r_uint 1 cmd 0 = Ok c ∧ r_uint 8 cmd 1 = Ok (u64 n).
Proof.
  intros Hc. split.
  - rewrite r_uint_head. f_equal. by apply Z.mod_small.
  - rewrite (r_uint_at 8 (be_bytes 1 c)) by done. f_equal.
    apply Z.mod_small. apply (u64_range n).
Qed.

Lemma read_keys_app (hd : bytes) done keys :
  len hd = 9 → Forall (λ k : bytes, len k = 24) (done ++ keys) →
  read_keys (hd ++ mjoin done ++ mjoin keys) (len done) (length keys) = Ok keys.
Proof.
  intros Hh. revert done. induction keys as [|k keys IH]; intros done Hf; [by destruct hd|].
  pose proof Hf as [Hd [Hk Hks]%Forall_cons]%Forall_app.
  cbn [read_keys length]. rewrite mjoin_cons.
  pose proof (slice_app (hd ++ mjoin done) k (mjoin keys)) as Hs.
  assert (len (mjoin done) = len done * 24) as Hl
    by (unfold len; rewrite length_mjoin_keys by done; lia).
  rewrite <-app_assoc, len_app, Hh, Hk, Hl in Hs. rewrite Hs. cbn [mbind outcome_bind].
  specialize (IH (done ++ [k])).
  rewrite len_app, <-app_assoc, join_app, <-!app_assoc in IH.
  cbn [mjoin list_join app] in IH. rewrite app_nil_r in IH.
  change (len [k]) with 1 in IH. by rewrite IH.
Qed.

(** Reading stays inside a slice that is long enough for the keys. *)
Lemma read_keys_total data i n :
  0 ≤ i → 9 + (i + Z.of_nat n) * 24 ≤ len data →
  ∃ keys, read_keys data i n = Ok keys ∧ length keys = n ∧ Forall (λ k : bytes, len k = 24) keys.
Proof.
  revert i. induction n as [|n IH]; intros i Hi Hl; cbn [read_keys]; [by exists []|].
  destruct (slice_ok data (9 + i * 24) (9 + i * 24 + 24)) as (k & -> & Hk); [lia..|].
  destruct (IH (i + 1)) as (keys & -> & Hn & Hf); [lia..|]. exists (k :: keys).
  cbn [mbind outcome_bind]. split_and!; [done|simpl; lia|constructor; [unfold len in *; lia|done]].
Qed.

(** Whatever is decoded as a key is 24 bytes long. *)
Lemma read_keys_24 data i n keys :
  read_keys data i n = Ok keys → Forall (λ k : bytes, len k = 24) keys.
Proof.
  revert i keys. induction n as [|n IH]; intros i keys; cbn [read_keys].
  { intros [= <-]. constructor. }
  intros (k & Hs & (ks & Hr & [= <-])%outcome_bind_ok)%outcome_bind_ok.
  constructor; [|by eapply IH]. unfold slice in Hs. case_decide; [|done].
  injection Hs as <-. unfold len in *. rewrite length_take, length_drop. lia.
Qed.

Lemma UnmarshalDeleteBatchCmd_24 data keys :
  UnmarshalDeleteBatchCmd data = Ok keys → Forall (λ k : bytes, len k = 24) keys.
Proof.
  unfold UnmarshalDeleteBatchCmd. case_decide; [done|].
  intros (c & _ & Hr)%outcome_bind_ok. case_decide; [done|].
  apply outcome_bind_ok in Hr as (n & _ & Hr). case_decide; [done|].
  apply outcome_bind_ok in Hr as ([] & _ & Hr). by eapply read_keys_24.
Qed.

Lemma Unmarshal_encode_store items :
  Forall item_ok items → len items * sizeof_item ≤ maxAlloc →
  UnmarshalStoreBatchCmd (encode_store items) = Ok items.
Proof.
  intros Hf Ha.
  pose proof (length_encode_store items) as Hlen. pose proof (length_items_le items) as Hle.
  pose proof (len_nonneg items). unfold sizeof_item, maxAlloc in Ha.
  destruct (header_reads StoreBatchCmd (len items) (mjoin (encode_item <$> items)))
    as [H0 H1]; [done|]. fold (encode_store items) in H0, H1.
  unfold UnmarshalStoreBatchCmd. rewrite decide_False by (unfold len; lia).
  rewrite H0. cbn [mbind outcome_bind]. rewrite decide_False by (by intros []).
  rewrite H1, u64_small by (unfold is_u64; lia). cbn [mbind outcome_bind].
  unfold make_slice. rewrite decide_True by (unfold sizeof_item, maxAlloc; lia).
  cbn [mbind outcome_bind].
  pose proof (read_items_reads (S (length (encode_store items))) 0 items Hf) as Hr.
  specialize (Hr ltac:(lia) (be_bytes 1 StoreBatchCmd ++ be_bytes 8 (u64 (len items))) []).
  rewrite len_app, !len_be_bytes, app_nil_r, <-app_assoc in Hr.
  fold (encode_store items) in Hr. rewrite Z.add_0_l in Hr.
  change (Z.of_nat 1 + Z.of_nat 8) with 9 in Hr. by rewrite Hr.
Qed.

Lemma Unmarshal_encode_delete keys :
  len keys * sizeof_slice ≤ maxAlloc → Forall (λ k : bytes, len k = 24) keys →
  UnmarshalDeleteBatchCmd (encode_delete keys) = Ok keys.
Proof.
  intros Ha Hk.
  unfold sizeof_slice, maxAlloc in Ha. pose proof (len_nonneg keys).
  destruct (header_reads DeleteBatchCmd (len keys) (mjoin keys)) as [H0 H1]; [done|].
  fold (encode_delete keys) in H0, H1.
  assert (len (encode_delete keys) = 9 + len keys * 24) as Hlen.
  { unfold encode_delete, len. rewrite !length_app, !length_be_bytes, length_mjoin_keys by done. lia. }
  unfold UnmarshalDeleteBatchCmd. rewrite decide_False by lia.
  rewrite H0. cbn [mbind outcome_bind]. rewrite decide_False by (by intros []).
  rewrite H1, u64_small by (unfold is_u64; lia). cbn [mbind outcome_bind].
  rewrite (i64_small (len keys)), (i64_small (len keys * 24)), i64_small by (unfold is_i64; lia).
  rewrite decide_False by lia.
  unfold make_slice. rewrite decide_True by (unfold sizeof_slice, maxAlloc; lia).
  cbn [mbind outcome_bind].
  pose proof (read_keys_app (be_bytes 1 DeleteBatchCmd ++ be_bytes 8 (u64 (len keys))) [] keys) as Hr.
  rewrite len_app, !len_be_bytes, <-app_assoc in Hr.
  replace (Z.to_nat (len keys)) with (length keys) by (unfold len; lia). by apply Hr.
Qed.

(** ** Properties *)

(** C36. What [MarshalStoreBatchCmd] writes, [UnmarshalStoreBatchCmd] reads
    back, for every batch whose lengths fit the format's length fields and
    whose item array the runtime can allocate. *)
Theorem store_batch_roundtrip items :
  Forall item_ok items → len items * sizeof_item ≤ maxAlloc →
  ∃ cmd, MarshalStoreBatchCmd items = Ok cmd ∧ UnmarshalStoreBatchCmd cmd = Ok items.
Proof. eauto using MarshalStoreBatchCmd_eq, Unmarshal_encode_store. Qed.

(** A batch of delivery tags: when every key is 24 bytes long the command
    decodes to the same keys, and one key of any other length makes the whole
    batch fail, so nothing of it is proposed. *)
Theorem delete_batch_roundtrip keys :
  len keys * sizeof_slice ≤ maxAlloc →
  (Forall (λ k : bytes, len k = 24) keys →
   ∃ cmd, MarshalDeleteBatchCmd keys = Ok cmd ∧ UnmarshalDeleteBatchCmd cmd = Ok keys) ∧
  (¬ Forall (λ k : bytes, len k = 24) keys → ∃ e, MarshalDeleteBatchCmd keys = Err e).
Proof.
  intros Ha. split; [|apply MarshalDeleteBatchCmd_bad].
  eauto using MarshalDeleteBatchCmd_eq, Unmarshal_encode_delete.
Qed.

(** On arbitrary bytes the store decoder returns items or an error, never
    an index panic, whenever the count in the header is one whose array can be
    allocated; a larger count makes [make] panic before anything is checked. *)
Theorem UnmarshalStoreBatchCmd_total data count :
  r_uint 8 data 1 = Ok count → r_uint 1 data 0 = Ok StoreBatchCmd → 9 ≤ len data →
  (count * sizeof_item ≤ maxAlloc →
   match UnmarshalStoreBatchCmd data with
   | Ok items => len items = count
   | Err _ => True
   | _ => False
   end) ∧
  (maxAlloc < count * sizeof_item → UnmarshalStoreBatchCmd data = Panic).
Proof.
  intros Hc H0 Hl. unfold UnmarshalStoreBatchCmd.
  rewrite decide_False by lia. rewrite H0. cbn [mbind outcome_bind].
  rewrite decide_False by (by intros []). rewrite Hc. cbn [mbind outcome_bind]. unfold make_slice.
  destruct (r_uint_ok 8 data 1) as (c & Ec & Hr); [lia..|]. rewrite Hc in Ec. injection Ec as <-.
  split; intros Ha.
  - rewrite decide_True by lia. cbn [mbind outcome_bind].
    pose proof (read_items_safe (S (length data)) 0 count data 9) as Hs.
    unfold rsafe in Hs. destruct (read_items _ _ _ _ _) as [p [its|e| |]]; simpl;
      [|done|apply Hs; unfold len in *; lia..].
    cut (len its = Z.max 0 (count - 0)); [lia|]. apply Hs; unfold len in *; lia.
  - by rewrite decide_False by lia.
Qed.

(** The length check of the delete decoder is computed in 64-bit [int]: a
    header whose count is all ones passes it and panics in [make]; any other
    count up to the allocation limit gives an error or 24-byte keys. *)
Theorem UnmarshalDeleteBatchCmd_total data count :
  r_uint 8 data 1 = Ok count → r_uint 1 data 0 = Ok DeleteBatchCmd → 9 ≤ len data →
  (count * sizeof_slice ≤ maxAlloc →
   match UnmarshalDeleteBatchCmd data with
   | Ok keys => len keys = count ∧ Forall (λ k : bytes, len k = 24) keys
   | Err _ => len data < 9 + count * 24
   | _ => False
   end) ∧
  (count = 2 ^ 64 - 1 → UnmarshalDeleteBatchCmd data = Panic).
Proof.
  intros Hc H0 Hl. unfold UnmarshalDeleteBatchCmd.
  rewrite decide_False by lia. rewrite H0. cbn [mbind outcome_bind].
  rewrite decide_False by (by intros []). rewrite Hc. cbn [mbind outcome_bind]. unfold make_slice.
  destruct (r_uint_ok 8 data 1) as (c & Ec & Hr); [lia..|]. rewrite Hc in Ec. injection Ec as <-.
  split; intros Ha.
  - unfold sizeof_slice, maxAlloc in *.
    rewrite (i64_small count), (i64_small (count * 24)), i64_small by (unfold is_i64; lia).
    case_decide; [done|]. rewrite decide_True by lia. cbn [mbind outcome_bind].
    destruct (read_keys_total data 0 (Z.to_nat count)) as (ks & -> & Hn & Hf); [lia..|].
    split; [unfold len; lia|done].
  - subst count. change (i64 (2 ^ 64 - 1)) with (-1).
    rewrite decide_False; [done|]. change (i64 (9 + i64 (-1 * 24))) with (-15). lia.
Qed.

(** An item whose only index is 65536 bytes long. *)
Definition long_index_item : StoreBatchItem :=
  mkStoreBatchItem 7 9 [replicate (Z.to_nat 65536) Byte.x00] (of_str "payload").

(** The index length is written as [uint16] without a check: a 65536-byte
    index is written with length 0, and the command decodes without an error
    to an item with an empty index and an empty message. *)
Theorem long_index_lost :
  ∃ cmd, MarshalStoreBatchCmd [long_index_item] = Ok cmd ∧
         UnmarshalStoreBatchCmd cmd = Ok [mkStoreBatchItem 7 9 [[]] []].
Proof.
  exists (encode_store [long_index_item]). split; [apply MarshalStoreBatchCmd_eq|].
  vm_compute. reflexivity.
Qed.

(** Witnesses. *)
Definition sample_item : StoreBatchItem :=
  mkStoreBatchItem 5 7 [of_str "idx"; []] (of_str "hello").

Lemma store_batch_roundtrip_witness :
  ∃ cmd, MarshalStoreBatchCmd [sample_item; sample_item] = Ok cmd ∧
         UnmarshalStoreBatchCmd cmd = Ok [sample_item; sample_item].
Proof.
  apply store_batch_roundtrip; [|by vm_compute].
  apply (bool_decide_unpack _). by vm_compute.
Defined.

Lemma delete_batch_roundtrip_witness :
  let keys := [replicate 24 Byte.x01; replicate 24 Byte.x02] in
  (Forall (λ k : bytes, len k = 24) keys →
   ∃ cmd, MarshalDeleteBatchCmd keys = Ok cmd ∧ UnmarshalDeleteBatchCmd cmd = Ok keys) ∧
  (¬ Forall (λ k : bytes, len k = 24) keys → ∃ e, MarshalDeleteBatchCmd keys = Err e).
Proof. apply delete_batch_roundtrip. by vm_compute. Defined.

(** A nine-byte command with the given type and count. *)
Definition bare_cmd (c count : Z) : bytes := be_bytes 1 c ++ be_bytes 8 count.

Lemma UnmarshalStoreBatchCmd_total_witness :
  UnmarshalStoreBatchCmd (bare_cmd 0 (2 ^ 60)) = Panic.
Proof.
  refine (proj2 (UnmarshalStoreBatchCmd_total _ (2 ^ 60) _ _ _) _); by vm_compute.
Defined.

Lemma UnmarshalDeleteBatchCmd_total_witness :
  UnmarshalDeleteBatchCmd (bare_cmd 1 (2 ^ 64 - 1)) = Panic.
Proof.
  refine (proj2 (UnmarshalDeleteBatchCmd_total _ (2 ^ 64 - 1) _ _ _) _); by vm_compute.
Defined.
