(* ===== verification/EventStateMachine.v ===== *)
(** * The event shard's state machine ([src/internal/raft/event/statemachine.go])

    The on-disk state machine that applies the Raft log of the event shard to
    the store.  [Open], [applyEntry], [Update] and the snapshot operations are
    modelled over any [DB]; the reader and the writer of a snapshot and the
    stop channel are parameters of the operations that use them. *)
From stdpp Require Import prelude gmap strings.
From S2P Require Import Prelude Bytes Keys Storage Pebble Proto Repository Codec EventCommands.
Local Open Scope Z_scope.

Definition appliedIndexKey : bytes := of_str "metadata/raft/applied-index".

(** statemachine.Entry; the result is what [Update] returns for it. *)
Record Entry := mkEntry {
  Index : Z;
  Cmd : bytes;
}.

(** The destination of a snapshot: [io.Writer]. *)
Class Writer := {
  w_t : Type;
  written : w_t → bytes;
  Write : w_t → bytes → w_t * option error;
  Write_ok w p w' : Write w p = (w', None) → written w' = written w ++ p;
}.

(** The source of a snapshot: the bytes that are left and the error a read
    past them returns ([io.EOF] at the end of the stream). *)
Record Reader := mkReader {
  rd_rest : bytes;
  rd_end : error;
}.

(** [io.ReadFull] into a buffer of [n] bytes. *)
Definition ReadFull (n : Z) : st Reader bytes := λ r,
  if decide (n ≤ len (rd_rest r)) then
    (mkReader (drop (Z.to_nat n) (rd_rest r)) (rd_end r), Ok (take (Z.to_nat n) (rd_rest r)))
  else
    (mkReader [] (rd_end r),
     Err (if decide (rd_rest r ≠ [] ∧ rd_end r = ErrEOF) then ErrUnexpectedEOF else rd_end r)).

(** [binary.Read(r, binary.LittleEndian, &x)] with [x uint32]. *)
Definition read_u32 : st Reader Z := b ← ReadFull 4; mret (le_val b).

(** The stop channel: [Some n] is closed from the [n]-th poll on. *)
Abbreviation stop_t := (option nat).

Definition poll (stopc : stop_t) : bool * stop_t :=
  match stopc with
  | None => (false, None)
  | Some O => (true, Some O)
  | Some (S n) => (false, Some n)
  end.

Section state_machine.
Context `{DB}.

(** The fields that change; [repo] is the repository shared with the rest of
    the process. *)
Record EventStateMachine := mkESM {
  db : db_t;
  repo : EventRepository;
  lastApplied : Z;
}.

Definition Open (s : EventStateMachine) : EventStateMachine * outcome Z :=
  match Get (db s) appliedIndexKey with
  | Err e =>
      if errors_Is e PebbleErrNotFound
      then (mkESM (db s) (repo s) 0, Ok 0)
      else (s, Err e)
  | Ok val =>
      match be_uint 8 val with
      | Ok i => (mkESM (db s) (repo s) i, Ok i)
      | r => (s, r)
      end
  | Panic => (s, Panic)
  | OutOfFuel => (s, OutOfFuel)
  end.

(** The item loop of a StoreBatchCmd: an error returns at once. *)
Definition store_items (items : list StoreBatchItem) : st (EventRepository * Batch) () :=
  st_iter (λ it, StoreRawWithBatch (Bucket it) (ItemTopicHash it) (Indexes it) (Msg it);; mret ())
    items.

(** The key loop of a DeleteBatchCmd: a key that cannot be added is skipped.
    Returns the keys that were added. *)
Fixpoint delete_keys (keys : list bytes) : st (EventRepository * Batch) (list bytes) :=
  match keys with
  | [] => mret []
  | k :: keys' =>
      d ← st_catch [] (DeleteWithBatch k;; mret [k]);
      ds ← delete_keys keys';
      mret (d ++ ds)
  end.

(** Returns the result value of the entry and the deleted keys.  Errors are
    logged and give the value 0. *)
Definition applyEntry (cmd : bytes) : st (EventRepository * Batch) (Z * list bytes) :=
  match cmd with
  | [] => mret (0, [])
  | c :: _ =>
      if decide (byte_Z c = StoreBatchCmd) then
        st_catch (0, [])
          (items ← st_lift (UnmarshalStoreBatchCmd cmd);
           store_items items;;
           mret (u64 (len items), []))
      else if decide (byte_Z c = DeleteBatchCmd) then
        st_catch (0, [])
          (keys ← st_lift (UnmarshalDeleteBatchCmd cmd);
           deleted ← delete_keys keys;
           mret (u64 (len deleted), deleted))
      else mret (0, [])
  end.

(** One round of the entry loop; the second component is [s.lastApplied]. *)
Definition apply_one (e : Entry) : st ((EventRepository * Batch) * Z) (Z * list bytes) :=
  λ '(rb, applied),
    match applyEntry (Cmd e) rb with
    | (rb', Ok r) => ((rb', Index e), Ok r)
    | (rb', o) => ((rb', applied), o)
    end.

(** Returns the results of the entries and the keys handed to OnDeleteKeys (none when
    it is not called). *)
Definition Update (s : EventStateMachine) (entries : list Entry)
    : EventStateMachine * outcome (list Z * list bytes) :=
  match st_mapM apply_one entries ((repo s, []), lastApplied s) with
  | ((er, b, applied), Ok rs) =>
      match batch_Set b appliedIndexKey (be_bytes 8 applied) with
      | (_, Some e) => (mkESM (db s) er applied, Err e)
      | (b', None) =>
          match Commit (db s) b' NoSync with
          | (db', Some e) => (mkESM db' er applied, Err e)
          | (db', None) => (mkESM db' er applied, Ok (rs.*1, mjoin rs.*2))
          end
      end
  | ((er, _, applied), Err e) => (mkESM (db s) er applied, Err e)
  | ((er, _, applied), Panic) => (mkESM (db s) er applied, Panic)
  | ((er, _, applied), OutOfFuel) => (mkESM (db s) er applied, OutOfFuel)
  end.

Definition PrepareSnapshot (s : EventStateMachine) : Z := lastApplied s.

(** ** Snapshots *)
Section save.
Context `{Writer}.

Definition try_write (p : bytes) (w : w_t) (k : w_t → w_t * option error) : w_t * option error :=
  match Write w p with
  | (w', None) => k w'
  | r => r
  end.

(** The callback of the scan: poll the channel, then four writes. *)
Definition save_pair : yield_t (w_t * stop_t) := λ '(w, stopc) key value,
  let '(stopped, stopc') := poll stopc in
  if stopped then ((w, stopc'), Some ErrSnapshotStopped)
  else
    let '(w', e) :=
      try_write (le_bytes 4 (u32 (len key))) w (λ w,
      try_write key w (λ w,
      try_write (le_bytes 4 (u32 (len value))) w (λ w,
      try_write value w (λ w, (w, None))))) in
    ((w', stopc'), e).

Definition SaveSnapshot (s : EventStateMachine) (w : w_t) (stopc : stop_t)
    : (w_t * stop_t) * option error :=
  Scan (db s) None save_pair (w, stopc).
End save.

(** [for iter.First(); iter.Valid(); iter.Next()] of [clearDB]; one unit of
    fuel per pair of the store. *)
Fixpoint clear_loop (fuel : nat) (it : it_t) (b : Batch) (stopc : stop_t)
    : (it_t * Batch * stop_t) * outcome () :=
  match fuel with
  | O => ((it, b, stopc), OutOfFuel)
  | S n =>
      if Valid it then
        let '(stopped, stopc') := poll stopc in
        if stopped then ((it, b, stopc'), Err ErrSnapshotStopped)
        else match batch_Delete b (Key it) with
             | (b', Some e) => ((it, b', stopc'), Err e)
             | (b', None) => clear_loop n (Next it) b' stopc'
             end
      else ((it, b, stopc), Ok ())
  end.

Definition clearDB (d : db_t) (stopc : stop_t) : db_t * stop_t * outcome () :=
  match NewIter d None with
  | Ok it0 =>
      match clear_loop (S (size (contents d))) (First it0) [] stopc with
      | ((it, b, stopc'), Ok ()) =>
          match Error it with
          | Some e => (d, stopc', Err e)
          | None =>
              match Commit d b NoSync with
              | (d', Some e) => (d', stopc', Err e)
              | (d', None) => (d', stopc', Ok ())
              end
          end
      | ((_, _, stopc'), o) => (d, stopc', o)
      end
  | Err e => (d, stopc, Err e)
  | Panic => (d, stopc, Panic)
  | OutOfFuel => (d, stopc, OutOfFuel)
  end.

(** The read loop of [RecoverFromSnapshot].  A round reads at least four
    bytes, so one unit of fuel per byte and one for the end is enough. *)
Fixpoint recover_loop (fuel : nat) (b : Batch) (stopc : stop_t) (r : Reader) : outcome Batch :=
  match fuel with
  | O => OutOfFuel
  | S n =>
      let '(stopped, stopc') := poll stopc in
      if stopped then Err ErrSnapshotStopped
      else match read_u32 r with
           | (_, Err e) => if decide (e = ErrEOF) then Ok b else Err e
           | (r, Ok klen) =>
               match (k ← ReadFull klen; vlen ← read_u32; v ← ReadFull vlen; mret (k, v)) r with
               | (r, Ok (k, v)) =>
                   match batch_Set b k v with
                   | (_, Some e) => Err e
                   | (b', None) => recover_loop n b' stopc' r
                   end
               | (_, Err e) => Err e
               | (_, Panic) => Panic
               | (_, OutOfFuel) => OutOfFuel
               end
           | (_, Panic) => Panic
           | (_, OutOfFuel) => OutOfFuel
           end
  end.

Definition RecoverFromSnapshot (s : EventStateMachine) (r : Reader) (stopc : stop_t)
    : EventStateMachine * outcome () :=
  match clearDB (db s) stopc with
  | (d, stopc', Ok ()) =>
      let s1 := mkESM d (repo s) (lastApplied s) in
      match recover_loop (S (length (rd_rest r))) [] stopc' r with
      | Ok b =>
          match Commit d b Sync with
          | (d', Some e) => (mkESM d' (repo s) (lastApplied s), Err e)
          | (d', None) =>
              let s2 := mkESM d' (repo s) (lastApplied s) in
              match Get d' appliedIndexKey with
              | Ok val =>
                  match be_uint 8 val with
                  | Ok i => (mkESM d' (repo s) i, Ok ())
                  | Err e => (s2, Err e)
                  | Panic => (s2, Panic)
                  | OutOfFuel => (s2, OutOfFuel)
                  end
              | Err e => (s2, if errors_Is e PebbleErrNotFound then Ok () else Err e)
              | Panic => (s2, Panic)
              | OutOfFuel => (s2, OutOfFuel)
              end
          end
      | Err e => (s1, Err e)
      | Panic => (s1, Panic)
      | OutOfFuel => (s1, OutOfFuel)
      end
  | (d, _, o) => (mkESM d (repo s) (lastApplied s), o)
  end.

(** ** Frames

    On an engine whose batches accept every operation, what a call adds to the
    batch does not depend on what the batch holds already. *)
Definition framed {A} (m : st (EventRepository * Batch) A) : Prop :=
  ∀ er b, m (er, b) = let '((er', ops), r) := m (er, []) in ((er', b ++ ops), r).

Lemma framed_ret {A} (a : A) : framed (mret a).
Proof. intros er b. simpl. by rewrite app_nil_r. Qed.

Lemma framed_lift {A} (o : outcome A) : framed (st_lift o).
Proof. intros er b. unfold st_lift. by rewrite app_nil_r. Qed.

Lemma framed_bind {A B} (m : st _ A) (f : A → st _ B) :
  framed m → (∀ a, framed (f a)) → framed (m ≫= f).
Proof.
  intros Hm Hf er b. unfold mbind, st_bind. rewrite Hm.
  destruct (m (er, [])) as [[er' ops] [a|e| |]]; [|done..].
  rewrite Hf, (Hf a er' ops). destruct (f a (er', [])) as [[er2 ops2] r].
  by rewrite app_assoc.
Qed.

Lemma framed_iter {A} (f : A → st _ ()) l : (∀ x, framed (f x)) → framed (st_iter f l).
Proof. intros Hf. induction l; simpl; auto using framed_ret, framed_bind. Qed.

Lemma framed_catch {A} (d : A) m : framed m → framed (st_catch d m).
Proof.
  intros Hm er b. unfold st_catch. rewrite Hm.
  by destruct (m (er, [])) as [[er' ops] [a|e| |]].
Qed.

Lemma framed_next_id : framed next_id.
Proof. intros er b. simpl. by rewrite app_nil_r. Qed.

Section no_faults.
Context (Hadd : ∀ b op, batch_fault b op = None).

Lemma framed_put k v : framed (put k v).
Proof. intros er b. unfold put, batch_Set, batch_add. by rewrite !Hadd. Qed.

Lemma framed_delete k : framed (DeleteWithBatch k).
Proof. intros er b. unfold DeleteWithBatch, batch_Delete, batch_add. by rewrite !Hadd. Qed.

Hint Resolve framed_ret framed_lift framed_bind framed_iter framed_catch framed_next_id
  framed_put framed_delete : goq.

Lemma framed_StoreRaw b h ixs v : framed (StoreRawWithBatch b h ixs v).
Proof. unfold StoreRawWithBatch. auto 8 with goq. Qed.

Lemma framed_delete_keys keys : framed (delete_keys keys).
Proof. induction keys; simpl; auto 8 with goq. Qed.

Hint Resolve framed_StoreRaw framed_delete_keys : goq.

Lemma framed_applyEntry cmd : framed (applyEntry cmd).
Proof. unfold applyEntry, store_items. repeat case_split_eq; auto 9 with goq. Qed.

Lemma framed_apply_all entries er b ap :
  st_mapM apply_one entries ((er, b), ap) =
  let '(((er', ops), ap'), r) := st_mapM apply_one entries ((er, []), ap) in
  (((er', b ++ ops), ap'), r).
Proof.
  induction entries as [|e es IH] in er, b, ap |- *; simpl; [by rewrite app_nil_r|].
  unfold mbind, st_bind, apply_one. rewrite framed_applyEntry.
  destruct (applyEntry (Cmd e) (er, [])) as [[er1 ops1] [r|x| |]]; [|done..].
  rewrite IH, (IH er1 ops1). destruct (st_mapM apply_one es _) as [[[er2 ops2] ap2] [rs|x| |]];
    simpl; by rewrite app_assoc.
Qed.
End no_faults.

(** What a successful [Update] is made of. *)
Lemma Update_ok_inv s es s' rs ks :
  Update s es = (s', Ok (rs, ks)) →
  ∃ ops rs', st_mapM apply_one es ((repo s, []), lastApplied s)
             = (((repo s', ops), lastApplied s'), Ok rs') ∧
    rs = rs'.*1 ∧ ks = mjoin rs'.*2 ∧
    contents (db s') = apply_ops (contents (db s))
                         (ops ++ [OpSet appliedIndexKey (be_bytes 8 (lastApplied s'))]).
Proof.
  unfold Update. destruct (st_mapM _ _ _) as [[[er ops] ap] [rs'|e| |]]; [|done..].
  unfold batch_Set. destruct (batch_add_cases ops (OpSet appliedIndexKey (be_bytes 8 ap)))
    as [->|[e ->]]; [|done].
  destruct (Commit _ _ _) as [d' [e|]] eqn:Hc; [done|]. intros [= <- <- <-]. simpl.
  exists ops, rs'. split_and!; try done. by apply Commit_ok in Hc.
Qed.

(** ** The id invariant along the log *)

(** The number of ids a command takes, and the commands whose index keys stay
    away from the repository's own keys. *)
Definition cmd_items (cmd : bytes) : Z :=
  match UnmarshalStoreBatchCmd cmd with Ok items => len items | _ => 0 end.

Definition cmd_ok (cmd : bytes) : Prop :=
  match UnmarshalStoreBatchCmd cmd with
  | Ok items => Forall (λ it, Forall index_ok (Indexes it)) items
  | _ => True
  end.

Definition log_items (es : list Entry) : Z := foldr (λ e n, cmd_items (Cmd e) + n) 0 es.

Lemma cmd_items_nonneg cmd : 0 ≤ cmd_items cmd.
Proof. unfold cmd_items. case_split_eq; auto with goq. lia. lia. lia. Qed.

Lemma log_items_nonneg es : 0 ≤ log_items es.
Proof. induction es as [|e es IH]; simpl; [done|]. pose proof (cmd_items_nonneg (Cmd e)). lia. Qed.

Lemma repo_inv_advance m er er' :
  repo_inv m er → lastID er ≤ lastID er' → is_u64 (lastID er') → repo_inv m er'.
Proof. intros [Hc Hi Hl Hu] Hle Hu'. split; [done..|lia|done]. Qed.

(** A step of the log keeps the invariant of the open batch and moves the
    counter forward by at most [n]. *)
Definition keeps (m : gmap bytes bytes) (n : Z) (s s' : EventRepository * Batch) : Prop :=
  batch_inv m s' ∧ lastID s.1 ≤ lastID s'.1 ≤ lastID s.1 + n.

Lemma store_items_inv m items s s' r :
  batch_inv m s → lastID s.1 + len items < 2 ^ 64 →
  Forall (λ it, Forall index_ok (Indexes it)) items →
  store_items items s = (s', r) → keeps m (len items) s s'.
Proof.
  unfold store_items. intros Hi Hlt Hf. revert s s' r Hi Hlt.
  induction Hf as [|it items Hix Hf IH]; intros s s' r Hi Hlt; simpl.
  { intros [= <- <-]. unfold keeps, len. simpl. split; [done|lia]. }
  rewrite len_cons in Hlt. pose proof (len_nonneg items). unfold keeps. rewrite len_cons.
  unfold mbind, st_bind at 1. unfold mbind, st_bind at 1.
  destruct (StoreRawWithBatch _ _ _ _ s) as [s1 r1] eqn:Hs.
  apply (StoreRawWithBatch_inv m) in Hs as (Hi1 & E1 & _); [|done|lia|done].
  destruct r1; simpl; [|intros [= <- <-]; (split; [done|lia])..].
  intros Hr. apply IH in Hr as [Hi2 E2]; [split; [done|lia]|done|lia].
Qed.

Lemma delete_keys_inv m keys s s' r :
  Forall (λ k : bytes, len k = 24) keys →
  batch_inv m s → delete_keys keys s = (s', r) → batch_inv m s' ∧ s'.1 = s.1.
Proof.
  intros Hf. revert s s' r. induction Hf as [|k keys Hk Hf IH]; intros [er b] s' r Hi; simpl.
  { by intros [= <- <-]. }
  assert (k ≠ eventsLastIDKey) as Hne by (apply key_ne_counter; unfold len in Hk; lia).
  unfold mbind, st_bind, st_catch, DeleteWithBatch, batch_Delete.
  destruct (batch_add_cases b (OpDelete k)) as [->|[e ->]]; simpl; intros Hr.
  all: match type of Hr with context [delete_keys ?ks ?s0] =>
         destruct (delete_keys ks s0) as [s2 r2] eqn:Hd; eapply IH in Hd as [? ?]
       end.
  1, 3: by destruct r2; injection Hr as <- <-.
  - unfold batch_inv in *. simpl in *. rewrite apply_ops_app. by apply repo_inv_delete.
  - done.
Qed.

Lemma applyEntry_inv m cmd s s' r :
  batch_inv m s → lastID s.1 + cmd_items cmd < 2 ^ 64 → cmd_ok cmd →
  applyEntry cmd s = (s', r) → keeps m (cmd_items cmd) s s'.
Proof.
  intros Hi Hlt Hok. pose proof (cmd_items_nonneg cmd) as Hn.
  assert (keeps m (cmd_items cmd) s s) as Hrefl by (split; [done|lia]).
  unfold applyEntry, cmd_items, cmd_ok in *. destruct cmd as [|c cmd]; [by intros [= <- <-]|].
  set (full := c :: cmd) in *. case_decide; [|case_decide; [|by intros [= <- <-]]].
  - unfold st_catch, mbind, st_bind, st_lift.
    destruct (UnmarshalStoreBatchCmd full) as [items|e| |]; try by intros [= <- <-].
    destruct (store_items items s) as [s1 r1] eqn:Hs. apply (store_items_inv m) in Hs; [|done..].
    by destruct r1; intros [= <- <-].
  - unfold st_catch, mbind, st_bind, st_lift.
    destruct (UnmarshalDeleteBatchCmd full) as [keys|e| |] eqn:Hd; try by intros [= <- <-].
    destruct (delete_keys keys s) as [s1 r1] eqn:Hs.
    apply (delete_keys_inv m) in Hs as [Hi1 E1]; [|by eapply UnmarshalDeleteBatchCmd_24|done].
    assert (keeps m (match UnmarshalStoreBatchCmd full with Ok items => len items | _ => 0 end) s s1)
      by (unfold keeps; rewrite E1; split; [done|lia]).
    by destruct r1; intros [= <- <-].
Qed.

Lemma apply_all_inv m es rb ap rb' ap' r :
  batch_inv m rb → lastID rb.1 + log_items es < 2 ^ 64 → Forall (λ e, cmd_ok (Cmd e)) es →
  st_mapM apply_one es (rb, ap) = ((rb', ap'), r) → keeps m (log_items es) rb rb'.
Proof.
  intros Hi Hlt Hf. revert rb ap rb' ap' r Hi Hlt.
  induction Hf as [|e es He Hf IH]; intros rb ap rb' ap' r Hi Hlt; simpl in *.
  { intros [= <- <- <-]. split; [done|lia]. }
  pose proof (log_items_nonneg es) as Hn. pose proof (cmd_items_nonneg (Cmd e)).
  unfold mbind, st_bind. unfold apply_one at 1.
  destruct (applyEntry (Cmd e) rb) as [rb1 r1] eqn:Ha.
  apply (applyEntry_inv m) in Ha as [Hi1 E1]; [|done|lia|done].
  destruct r1; try by intros [= <- <- <-]; split; [done|lia].
  destruct (st_mapM apply_one es (rb1, Index e)) as [[rb2 ap2] r2] eqn:Hm.
  apply IH in Hm as [Hi2 E2]; [|done|lia].
  destruct r2; intros [= <- <- <-]; (split; [done|lia]).
Qed.

Lemma appliedIndexKey_ok : index_ok appliedIndexKey.
Proof. by vm_compute. Qed.

(** A failed [Update] leaves the store as it was. *)
Lemma Update_fail s es s' r :
  Update s es = (s', r) → (∀ x, r ≠ Ok x) → contents (db s') = contents (db s).
Proof.
  unfold Update. destruct (st_mapM _ _ _) as [[[er ops] ap] [rs'|e| |]];
    try by intros [= <- <-].
  destruct (batch_Set _ _ _) as [b' [e|]]; [by intros [= <- <-]|].
  destruct (Commit _ _ _) as [d' [e|]] eqn:Hc; intros [= <- <-]; [|naive_solver].
  intros _. by apply Commit_err in Hc.
Qed.

Lemma Update_repo s es s' r :
  Update s es = (s', r) →
  ∃ ops ap o, st_mapM apply_one es ((repo s, []), lastApplied s) = (((repo s', ops), ap), o).
Proof.
  unfold Update. destruct (st_mapM _ _ _) as [[[er ops] ap] [rs'|e| |]];
    try by intros [= <- <-]; eauto.
  destruct (batch_Set _ _ _) as [b' [e|]]; [intros [= <- <-]; simpl; eauto|].
  destruct (Commit _ _ _) as [d' [e|]]; intros [= <- <-]; simpl; eauto.
Qed.

(** ** What the commands do to the store *)

(** The operations of a StoreBatchCmd when the counter stands at [id]. *)
Fixpoint items_ops (id : Z) (items : list StoreBatchItem) : Batch :=
  match items with
  | [] => []
  | it :: items' =>
      let id' := u64 (id + 1) in
      store_ops id' (Bucket it) (ItemTopicHash it) (Indexes it) (Msg it) ++ items_ops id' items'
  end.

Lemma put_all_total er b v ks :
  (∀ b op, batch_fault b op = None) →
  st_iter (λ k, put k v) ks (er, b) = ((er, b ++ ((λ k, OpSet k v) <$> ks)), Ok ()).
Proof.
  intros Hadd. induction ks as [|k ks IH] in b |- *; simpl; [by rewrite app_nil_r|].
  unfold mbind, st_bind, put at 1, batch_Set, batch_add. rewrite Hadd, IH. by rewrite <-app_assoc.
Qed.

Lemma store_items_total er b items :
  (∀ b op, batch_fault b op = None) → is_u64 (lastID er) → lastID er + len items < 2 ^ 64 →
  store_items items (er, b) =
    ((mkEventRepository (lastID er + len items) (bucketSize er), b ++ items_ops (lastID er) items),
     Ok ()).
Proof.
  intros Hadd. unfold store_items, is_u64.
  induction items as [|it items IH] in er, b |- *; intros Hu Hlt; simpl.
  { unfold len. simpl. rewrite Z.add_0_r, app_nil_r. by destruct er. }
  rewrite len_cons in Hlt |- *. pose proof (len_nonneg items).
  unfold StoreRawWithBatch, mbind, st_bind, put at 1 2, batch_Set, batch_add, mret, st_ret. simpl.
  rewrite !Hadd, put_all_total by done. rewrite u64_small by (unfold is_u64; lia).
  rewrite IH; simpl; [|lia..]. rewrite <-!app_assoc. simpl. do 3 f_equal. lia.
Qed.

Lemma items_ops_lookup m id items :
  0 ≤ id → id + len items < 2 ^ 64 → Forall (λ it, Forall index_ok (Indexes it)) items →
  let m' := apply_ops m (items_ops id items) in
  (∀ n it, items !! n = Some it →
     m' !! EventKey (Bucket it) (ItemTopicHash it) (id + 1 + Z.of_nat n) = Some (Msg it)) ∧
  (∀ k, length k = 24%nat → key_id k ≤ id → m' !! k = m !! k).
Proof.
  intros Hid Hlt Hf. revert m id Hid Hlt.
  induction Hf as [|it items Hix Hf IH]; intros m id Hid Hlt; [done|].
  rewrite len_cons in Hlt. pose proof (len_nonneg items). cbn [items_ops].
  rewrite u64_small by (unfold is_u64; lia). rewrite apply_ops_app.
  set (m1 := apply_ops m _).
  destruct (store_ops_lookup m (id + 1) (Bucket it) (ItemTopicHash it) _ (Msg it) Hix)
    as (Hk & _ & Hother). fold m1 in Hk, Hother.
  destruct (IH m1 (id + 1)) as [Hin Hold]; [lia..|]. split.
  - intros [|n] it' Hn; simpl in Hn.
    + injection Hn as <-. simpl. rewrite Z.add_0_r, Hold; [done|apply length_EventKey|].
      rewrite key_id_EventKey by (unfold is_u64; lia). lia.
    + specialize (Hin n it' Hn). replace (id + 1 + Z.of_nat (S n)) with (id + 1 + 1 + Z.of_nat n) by lia.
      done.
  - intros k Hl Hle. rewrite Hold by (done || lia). apply Hother.
    + intros ->. rewrite key_id_EventKey in Hle by (unfold is_u64; lia). lia.
    + by apply key_ne_counter.
    + intros Hin'. rewrite Forall_forall in Hix. by apply Hix in Hin' as [_ ?].
Qed.

Lemma applyEntry_store er b items :
  (∀ b op, batch_fault b op = None) → is_u64 (lastID er) → lastID er + len items < 2 ^ 64 →
  UnmarshalStoreBatchCmd (encode_store items) = Ok items →
  applyEntry (encode_store items) (er, b) =
    ((mkEventRepository (lastID er + len items) (bucketSize er), b ++ items_ops (lastID er) items),
     Ok (len items, [])).
Proof.
  intros Hadd Hu Hlt Hd. unfold applyEntry. change (encode_store items) with
    (Byte.x00 :: be_bytes 8 (u64 (len items)) ++ mjoin (encode_item <$> items)) at 1.
  cbv iota. rewrite decide_True by done.
  unfold st_catch, mbind, st_bind, st_lift. rewrite Hd, store_items_total by done.
  unfold mret, st_ret. do 3 f_equal. apply u64_small. pose proof (len_nonneg items).
  unfold is_u64 in *. lia.
Qed.

Lemma delete_keys_total er b keys :
  (∀ b op, batch_fault b op = None) →
  delete_keys keys (er, b) = ((er, b ++ (OpDelete <$> keys)), Ok keys).
Proof.
  intros Hadd. induction keys as [|k keys IH] in b |- *; simpl; [by rewrite app_nil_r|].
  unfold mbind, st_bind, st_catch, DeleteWithBatch, batch_Delete, batch_add, mret, st_ret.
  rewrite Hadd. simpl. rewrite IH. by rewrite <-app_assoc.
Qed.

Lemma applyEntry_delete er b keys :
  (∀ b op, batch_fault b op = None) → len keys < 2 ^ 64 →
  UnmarshalDeleteBatchCmd (encode_delete keys) = Ok keys →
  applyEntry (encode_delete keys) (er, b) =
    ((er, b ++ (OpDelete <$> keys)), Ok (len keys, keys)).
Proof.
  intros Hadd Hlt Hd. unfold applyEntry. change (encode_delete keys) with
    (Byte.x01 :: be_bytes 8 (u64 (len keys)) ++ mjoin keys) at 1.
  cbv iota. rewrite decide_False by done. rewrite decide_True by done.
  unfold st_catch, mbind, st_bind, st_lift. rewrite Hd, delete_keys_total by done.
  unfold mret, st_ret. do 3 f_equal. apply u64_small. pose proof (len_nonneg keys).
  unfold is_u64 in *. lia.
Qed.

(** [Update] of one entry whose effect is known, on an engine that works. *)
Lemma Update_one s e er ops v ks :
  healthy → applyEntry (Cmd e) (repo s, []) = ((er, ops), Ok (v, ks)) →
  ∃ d', Update s [e] = (mkESM d' er (Index e), Ok ([v], ks)) ∧
    contents d' = <[appliedIndexKey := be_bytes 8 (Index e)]> (apply_ops (contents (db s)) ops).
Proof.
  intros Hh Ha. unfold Update. simpl. unfold mbind, st_bind, apply_one. rewrite Ha.
  unfold mret, st_ret, batch_Set. rewrite healthy_add by done.
  destruct (healthy_commit (db s) (ops ++ [OpSet appliedIndexKey (be_bytes 8 (Index e))]) NoSync Hh)
    as (d' & -> & Hd').
  exists d'. rewrite Hd', apply_ops_app. simpl. by rewrite app_nil_r.
Qed.

(** ** Snapshots *)

(** The frame of a pair in the stream, and the pairs whose lengths fit it. *)
Definition encode_pair (p : bytes * bytes) : bytes :=
  le_bytes 4 (u32 (len p.1)) ++ p.1 ++ le_bytes 4 (u32 (len p.2)) ++ p.2.

Definition pair_fits (p : bytes * bytes) : Prop := len p.1 < 2 ^ 32 ∧ len p.2 < 2 ^ 32.

Definition encode_store_contents (m : gmap bytes bytes) : bytes :=
  mjoin (encode_pair <$> sorted_pairs m).

Lemma try_write_ok `{Writer} p w k w' :
  try_write p w k = (w', None) → ∃ w1, written w1 = written w ++ p ∧ k w1 = (w', None).
Proof.
  unfold try_write. destruct (Write w p) as [w1 [e|]] eqn:E; [done|]. eauto using Write_ok.
Qed.

Lemma save_pair_ok `{Writer} w stopc k v w' stopc' :
  save_pair (w, stopc) k v = ((w', stopc'), None) → written w' = written w ++ encode_pair (k, v).
Proof.
  unfold save_pair. destruct (poll stopc) as [[] stopc1]; [done|].
  destruct (try_write _ _ _) as [w1 e] eqn:E. intros [= -> <- ->].
  apply try_write_ok in E as (w1 & E1 & (w2 & E2 & (w3 & E3 & (w4 & E4 & [= ->])%try_write_ok)
    %try_write_ok)%try_write_ok).
  unfold encode_pair. by rewrite E4, E3, E2, E1, <-!app_assoc.
Qed.

Lemma save_fold_ok `{Writer} l a w' stopc' final :
  scan_fold save_pair l a final = ((w', stopc'), None) →
  final = None ∧ written w' = written a.1 ++ mjoin (encode_pair <$> l).
Proof.
  induction l as [|[k v] l IH] in a |- *; simpl.
  { intros [= -> ->]. by rewrite app_nil_r. }
  destruct (save_pair a k v) as [[w1 st1] [e|]] eqn:E; [done|]. destruct a as [w st].
  apply save_pair_ok in E. intros [-> Hw]%IH. split; [done|].
  simpl in Hw |- *. by rewrite Hw, E, <-app_assoc.
Qed.

Lemma SaveSnapshot_ok `{Writer} s w stopc w' stopc' :
  SaveSnapshot s w stopc = ((w', stopc'), None) →
  written w' = written w ++ encode_store_contents (contents (db s)).
Proof.
  unfold SaveSnapshot. rewrite Scan_spec. intros [He Hw]%save_fold_ok.
  by rewrite Hw, iter_pairs_complete, range_pairs_all.
Qed.

Lemma ReadFull_app x rest e n :
  n = len x → ReadFull n (mkReader (x ++ rest) e) = (mkReader rest e, Ok x).
Proof.
  intros ->. unfold ReadFull. simpl. rewrite len_app. pose proof (len_nonneg rest).
  rewrite decide_True by lia. unfold len. rewrite Nat2Z.id.
  by rewrite drop_app_exact, take_app_exact.
Qed.

Lemma read_u32_app z rest e :
  0 ≤ z < 2 ^ 32 → read_u32 (mkReader (le_bytes 4 z ++ rest) e) = (mkReader rest e, Ok z).
Proof.
  intros Hz. unfold read_u32, mbind, st_bind.
  rewrite ReadFull_app by (unfold len; by rewrite length_le_bytes).
  unfold mret, st_ret. do 2 f_equal. rewrite le_val_le_bytes. by apply Z.mod_small.
Qed.

Lemma recover_loop_encode fuel b l :
  (∀ b op, batch_fault b op = None) → Forall pair_fits l →
  (length (mjoin (encode_pair <$> l)) < fuel)%nat →
  recover_loop fuel b None (mkReader (mjoin (encode_pair <$> l)) ErrEOF) =
    Ok (b ++ ((λ p, OpSet p.1 p.2) <$> l)).
Proof.
  intros Hadd Hf. revert fuel b. induction Hf as [|[k v] l [Hk Hv] Hf IH]; intros fuel b Hn.
  { destruct fuel; [simpl in Hn; lia|]. simpl. by rewrite app_nil_r. }
  destruct fuel as [|fuel]; [lia|]. rewrite fmap_cons, mjoin_cons in Hn |- *. simpl in Hk, Hv.
  unfold encode_pair at 1 in Hn. unfold encode_pair at 1. cbn [fst snd] in *.
  pose proof (len_nonneg k). pose proof (len_nonneg v).
  rewrite !u32_small in * by lia. rewrite <-!app_assoc in *.
  cbn [recover_loop poll]. rewrite read_u32_app by lia. unfold mbind, st_bind.
  rewrite ReadFull_app, read_u32_app, ReadFull_app by (done || lia).
  unfold mret, st_ret, batch_Set, batch_add. rewrite Hadd, IH.
  - by rewrite <-app_assoc.
  - rewrite !length_app, !length_le_bytes in Hn. lia.
Qed.

(** The stop channel can only cut the loop short. *)
Lemma recover_loop_stop fuel b stopc r x :
  recover_loop fuel b stopc r = Ok x → recover_loop fuel b None r = Ok x.
Proof.
  revert b stopc r. induction fuel as [|n IH]; intros b stopc r; [done|]. cbn [recover_loop].
  destruct (poll stopc) as [[] st1]; [done|]. cbn [poll].
  repeat case_split_eq; simplify_eq/=; try done. by apply IH.
Qed.

(** ** Clearing the store *)
Lemma clear_loop_ok fuel it b stopc it' b' stopc' :
  clear_loop fuel it b stopc = ((it', b', stopc'), Ok ()) →
  it' = Nat.iter (length (it_rest it)) Next it ∧ b' = b ++ (OpDelete <$> (it_rest it).*1).
Proof.
  revert it b stopc. induction fuel as [|n IH]; intros it b stopc; cbn [clear_loop]; [done|].
  rewrite Valid_spec. destruct (it_rest it) as [|p l] eqn:E.
  { rewrite bool_decide_eq_false_2 by naive_solver. intros [= <- <- <-]. simpl. by rewrite app_nil_r. }
  rewrite bool_decide_eq_true_2 by done. destruct (poll stopc) as [[] stopc1]; [done|].
  unfold batch_Delete. destruct (batch_add_cases b (OpDelete (Key it))) as [->|[e ->]]; [|done].
  intros [-> ->]%IH. rewrite (Next_rest it p l E). destruct (Key_spec it p l E) as [-> _].
  split; [|by rewrite <-app_assoc]. cbn [length]. by rewrite Nat.iter_succ_r.
Qed.

Lemma clear_loop_total fuel it b :
  healthy → (length (it_rest it) < fuel)%nat →
  ∃ it' b', clear_loop fuel it b None = ((it', b', None), Ok ()).
Proof.
  intros Hh. revert it b. induction fuel as [|n IH]; intros it b Hl; [lia|]. cbn [clear_loop].
  rewrite Valid_spec. destruct (it_rest it) as [|p l] eqn:E.
  { rewrite bool_decide_eq_false_2 by naive_solver. eauto. }
  rewrite bool_decide_eq_true_2 by done. cbn [poll]. unfold batch_Delete.
  rewrite healthy_add by done. apply IH. rewrite (Next_rest it p l E). simpl in Hl. lia.
Qed.

Lemma delete_all m : apply_ops m (OpDelete <$> (sorted_pairs m).*1) = ∅.
Proof.
  rewrite apply_ops_deletes. apply map_empty. intros k.
  rewrite map_lookup_filter_None. right. intros v Hv. simpl. intros Hn. apply Hn.
  apply list_elem_of_fmap. exists (k, v). by rewrite elem_of_sorted_pairs.
Qed.

(** [clearDB] empties the store or leaves it as it was. *)
Lemma clearDB_cases d stopc d' stopc' o :
  clearDB d stopc = (d', stopc', o) →
  (o = Ok () ∧ contents d' = ∅) ∨ (o ≠ Ok () ∧ contents d' = contents d).
Proof.
  unfold clearDB. destruct (NewIter d None) as [it0|e| |] eqn:Hn; try (intros [= <- <- <-]; by right).
  destruct (clear_loop _ _ _ _) as [[[it b] st1] [[]|e| |]] eqn:Hc;
    try (intros [= <- <- <-]; by right).
  apply clear_loop_ok in Hc as [-> ->]. rewrite (Error_spec _ _ _ Hn).
  destruct (iter_error d None) eqn:He; [intros [= <- <- <-]; by right|].
  destruct (Commit _ _ _) as [d1 [e|]] eqn:Hcm; intros [= <- <- <-].
  - right. split; [done|]. by apply Commit_err in Hcm.
  - left. split; [done|]. rewrite (Commit_ok _ _ _ _ Hcm).
    by rewrite (First_rest _ _ _ Hn), iter_pairs_complete, range_pairs_all, delete_all.
Qed.

Lemma clearDB_total d :
  healthy → ∃ d', clearDB d None = (d', None, Ok ()) ∧ contents d' = ∅.
Proof.
  intros Hh. destruct (clearDB d None) as [[d' st'] o] eqn:E.
  pose proof (clearDB_cases _ _ _ _ _ E) as Hc. unfold clearDB in E.
  destruct (h_iter Hh d None) as [it0 Hn]. rewrite Hn in E.
  destruct (clear_loop_total (S (size (contents d))) (First it0) [] Hh) as (it & b & Hl).
  { rewrite (First_rest _ _ _ Hn), iter_pairs_complete, range_pairs_all, length_sorted_pairs;
      [lia|apply (h_iter_err Hh)]. }
  rewrite Hl in E. apply clear_loop_ok in Hl as [-> ->].
  rewrite (Error_spec _ _ _ Hn), (h_iter_err Hh) in E.
  destruct (healthy_commit d ([] ++ (OpDelete <$> (it_rest (First it0)).*1)) NoSync Hh)
    as (d1 & Hcm & _).
  rewrite Hcm in E. injection E as <- <- <-. exists d1. split; [done|]. naive_solver.
Qed.

(** The loops of the snapshot code end within their fuel. *)
Lemma clear_loop_fuel fuel it b stopc :
  (length (it_rest it) < fuel)%nat →
  (clear_loop fuel it b stopc).2 ≠ OutOfFuel ∧ (clear_loop fuel it b stopc).2 ≠ Panic.
Proof.
  revert it b stopc. induction fuel as [|n IH]; intros it b stopc Hl; [lia|]. cbn [clear_loop].
  rewrite Valid_spec. destruct (it_rest it) as [|p l] eqn:E.
  { by rewrite bool_decide_eq_false_2 by naive_solver. }
  rewrite bool_decide_eq_true_2 by done. destruct (poll stopc) as [[] stopc1]; [done|].
  unfold batch_Delete. destruct (batch_add_cases b (OpDelete (Key it))) as [->|[e ->]]; [|done].
  apply IH. rewrite (Next_rest it p l E). simpl in Hl. lia.
Qed.

Lemma clearDB_fuel d stopc : (clearDB d stopc).2 ≠ OutOfFuel ∧ (clearDB d stopc).2 ≠ Panic.
Proof.
  unfold clearDB. destruct (NewIter_total d None) as [H1 H2].
  destruct (NewIter d None) as [it0|e| |] eqn:Hn; [|done..].
  pose proof (clear_loop_fuel (S (size (contents d))) (First it0) [] stopc) as Hf.
  destruct (clear_loop _ _ _ _) as [[[it b] st1] [[]|e| |]]; simpl in Hf |- *; try done.
  - destruct (Error it); [done|]. by destruct (Commit _ _ _) as [d1 [e|]].
  - apply Hf. rewrite (First_rest _ _ _ Hn).
    pose proof (prefix_length _ _ (iter_pairs_prefix d None)) as Hp.
    rewrite range_pairs_all, length_sorted_pairs in Hp. lia.
  - apply Hf. rewrite (First_rest _ _ _ Hn).
    pose proof (prefix_length _ _ (iter_pairs_prefix d None)) as Hp.
    rewrite range_pairs_all, length_sorted_pairs in Hp. lia.
Qed.

Lemma ReadFull_shrinks n r r' b :
  ReadFull n r = (r', Ok b) →
  (length (rd_rest r') ≤ length (rd_rest r) - Z.to_nat n)%nat ∧ n ≤ len (rd_rest r).
Proof.
  unfold ReadFull. case_decide; [|done]. intros [= <- <-]. simpl. rewrite length_drop. lia.
Qed.

Lemma ReadFull_returns n r : (ReadFull n r).2 ≠ OutOfFuel ∧ (ReadFull n r).2 ≠ Panic.
Proof. unfold ReadFull. by case_decide. Qed.

Lemma recover_loop_fuel fuel b stopc r :
  (length (rd_rest r) < fuel)%nat →
  recover_loop fuel b stopc r ≠ OutOfFuel ∧ recover_loop fuel b stopc r ≠ Panic.
Proof.
  revert b stopc r. induction fuel as [|n IH]; intros b stopc r Hl; [lia|]. cbn [recover_loop].
  destruct (poll stopc) as [[] stopc1]; [done|]. unfold read_u32, mbind, st_bind, mret, st_ret.
  pose proof (ReadFull_returns 4 r) as R1.
  destruct (ReadFull 4 r) as [r1 [b1|e| |]] eqn:E1; simpl in R1; [|by case_decide|tauto..].
  pose proof (ReadFull_returns (le_val b1) r1) as R2.
  destruct (ReadFull (le_val b1) r1) as [r2 [k|e| |]] eqn:E2; simpl in R2; [|done|tauto..].
  pose proof (ReadFull_returns 4 r2) as R3.
  destruct (ReadFull 4 r2) as [r3 [b3|e| |]] eqn:E3; simpl in R3; [|done|tauto..].
  pose proof (ReadFull_returns (le_val b3) r3) as R4.
  destruct (ReadFull (le_val b3) r3) as [r4 [v|e| |]] eqn:E4; simpl in R4; [|done|tauto..].
  apply ReadFull_shrinks in E1 as [? ?], E2 as [? ?], E3 as [? ?], E4 as [? ?].
  destruct (batch_Set b k v) as [b' [e|]]; [done|]. apply IH. unfold len in *. lia.
Qed.

(** ** Properties *)

(** The id invariant (every event key carries an id up to the persisted
    counter, which the live counter has reached) is kept by [Update] on every
    path: success, a failed batch or commit, and a panic. *)
Theorem Update_preserves_inv s es s' r :
  repo_inv (contents (db s)) (repo s) →
  lastID (repo s) + log_items es < 2 ^ 64 → Forall (λ e, cmd_ok (Cmd e)) es →
  Update s es = (s', r) →
  repo_inv (contents (db s')) (repo s') ∧ lastID (repo s) ≤ lastID (repo s').
Proof.
  intros Hi Hlt Hf Hu.
  destruct (Update_repo _ _ _ _ Hu) as (ops & ap & o & Hm).
  pose proof (apply_all_inv (contents (db s)) es (repo s, []) _ _ _ _ Hi Hlt Hf Hm) as [Hb Hle].
  simpl in Hle. split; [|lia].
  assert ((∀ x, r ≠ Ok x) ∨ ∃ rs ks, r = Ok (rs, ks)) as [Hno|(rs & ks & ->)]
    by (destruct r as [[]| | |]; eauto; left; congruence).
  2: { apply Update_ok_inv in Hu as (ops' & rs' & Hm' & _ & _ & ->).
    rewrite Hm in Hm'. injection Hm' as <- -> ->. rewrite apply_ops_app.
    apply repo_inv_index; [exact Hb|apply appliedIndexKey_ok]. }
  rewrite (Update_fail _ _ _ _ Hu) by done.
  eapply repo_inv_advance; [done|lia|exact (ri_u64 _ _ Hb)].
Qed.

(** The applied index travels with the data: after a successful [Update]
    of entries that end with index [i], the committed store holds [i], and
    [Open] on a new replica over that store answers [i]; after a failed one the
    store is unchanged, so the entries will be applied again from the index it
    holds. *)
Theorem Update_applied_index s es e s' r er la :
  is_u64 (Index e) → Update s (es ++ [e]) = (s', r) →
  match r with
  | Ok _ =>
      contents (db s') !! appliedIndexKey = Some (be_bytes 8 (Index e)) ∧
      (get_fault (db s') appliedIndexKey = None →
       Open (mkESM (db s') er la) = (mkESM (db s') er (Index e), Ok (Index e)))
  | _ => contents (db s') = contents (db s)
  end.
Proof.
  intros Hu Hup. destruct r as [[rs ks]|x| |]; [|by eapply Update_fail..].
  apply Update_ok_inv in Hup as (ops & rs' & Hm & _ & _ & Hc).
  assert (lastApplied s' = Index e) as Ha.
  { rewrite st_mapM_app in Hm.
    apply st_bind_ok in Hm as (s1 & r1 & _ & (s2 & r2 & Hm & [= -> _])%st_bind_ok).
    simpl in Hm. apply st_bind_ok in Hm as ([rb ap] & r3 & Hm & [= ->]).
    unfold apply_one in Hm. destruct s1 as [rb1 ap1].
    destruct (applyEntry _ _) as [rb2 [r4|x| |]]; simplify_eq. done. }
  rewrite Ha in Hc.
  assert (contents (db s') !! appliedIndexKey = Some (be_bytes 8 (Index e))) as Hk.
  { rewrite Hc, apply_ops_app. apply lookup_insert_eq. }
  split; [done|]. intros Hg. unfold Open. simpl. rewrite Get_spec, Hg, Hk.
  by rewrite be_uint_u64.
Qed.

(** Batching does not matter: applying a log in one [Update] or cut into
    two gives the same store, the same counter, the same applied index, the
    same results and the same keys reported as deleted.  Replicas that receive
    the log in different portions therefore agree. *)
Theorem Update_batching s es1 es2 s1 rs1 ks1 s2 rs2 ks2 s' rs ks :
  (∀ b op, batch_fault b op = None) →
  Update s es1 = (s1, Ok (rs1, ks1)) → Update s1 es2 = (s2, Ok (rs2, ks2)) →
  Update s (es1 ++ es2) = (s', Ok (rs, ks)) →
  contents (db s') = contents (db s2) ∧ repo s' = repo s2 ∧
  lastApplied s' = lastApplied s2 ∧ rs = rs1 ++ rs2 ∧ ks = ks1 ++ ks2.
Proof.
  intros Hadd (ops1 & r1 & Hm1 & -> & -> & Hc1)%Update_ok_inv
    (ops2 & r2 & Hm2 & -> & -> & Hc2)%Update_ok_inv (ops & r & Hm & -> & -> & Hc)%Update_ok_inv.
  rewrite st_mapM_app in Hm. unfold mbind, st_bind in Hm.
  rewrite Hm1, (framed_apply_all Hadd), Hm2 in Hm. injection Hm as Er <- Ea <-.
  rewrite !fmap_app, join_app, <-Er, <-Ea in *. split_and!; try done.
  rewrite Hc, Hc2, Hc1, (apply_ops_app _ ops1 [_]). cbn [apply_ops foldl apply_op].
  by rewrite apply_ops_overwrite, <-apply_ops_app, app_assoc.
Qed.

(** A StoreBatchCmd that reaches the state machine stores every item
    under consecutive fresh ids in the order of the batch: the entry's result
    is the number of items, item [n] is found under its bucket, its topic hash
    and the id [lastID + 1 + n], and every event that was in the store before
    is still there unchanged. *)
Theorem Update_store_batch s idx items :
  healthy → repo_inv (contents (db s)) (repo s) →
  Forall item_ok items → len items * sizeof_item ≤ maxAlloc →
  Forall (λ it, Forall index_ok (Indexes it)) items →
  lastID (repo s) + len items < 2 ^ 64 →
  ∃ s', Update s [mkEntry idx (encode_store items)] = (s', Ok ([len items], [])) ∧
    lastID (repo s') = lastID (repo s) + len items ∧
    (∀ n it, items !! n = Some it →
       contents (db s') !! EventKey (Bucket it) (ItemTopicHash it)
                             (lastID (repo s) + 1 + Z.of_nat n) = Some (Msg it)) ∧
    (∀ k v, length k = 24%nat → contents (db s) !! k = Some v → contents (db s') !! k = Some v).
Proof.
  intros Hh Hi Hf Ha Hix Hlt. pose proof (ri_u64 _ _ Hi) as Hu.
  pose proof (applyEntry_store (repo s) [] items (h_batch Hh) Hu Hlt
                (Unmarshal_encode_store items Hf Ha)) as He.
  destruct (Update_one s (mkEntry idx (encode_store items)) _ _ _ _ Hh He) as (d' & HU & Hd).
  eexists. split; [exact HU|]. simpl. split; [done|]. rewrite Hd. cbn [app].
  destruct (items_ops_lookup (contents (db s)) (lastID (repo s)) items) as [Hin Hold];
    [unfold is_u64 in Hu; lia|done..|].
  assert (∀ k, length k = 24%nat → appliedIndexKey ≠ k) as Hne
    by (intros k Hl <-; by apply appliedIndexKey_ok in Hl).
  split.
  - intros n it Hn. rewrite lookup_insert_ne by apply Hne, length_EventKey. by apply Hin.
  - intros k v Hl Hk. rewrite lookup_insert_ne by auto. rewrite Hold; [done..|].
    etrans; [by eapply (ri_ids _ _ Hi)|apply (ri_last _ _ Hi)].
Qed.

(** A DeleteBatchCmd removes exactly the keys it names, reports how many
    they are and hands exactly them to the in-flight callback. *)
Theorem Update_delete_batch s idx keys :
  healthy → Forall (λ k : bytes, len k = 24) keys → len keys * sizeof_slice ≤ maxAlloc →
  ∃ s', Update s [mkEntry idx (encode_delete keys)] = (s', Ok ([len keys], keys)) ∧
    repo s' = repo s ∧
    ∀ k, k ≠ appliedIndexKey →
      contents (db s') !! k = if decide (k ∈ keys) then None else contents (db s) !! k.
Proof.
  intros Hh Hf Ha.
  assert (len keys < 2 ^ 64) as Hlt by (unfold sizeof_slice, maxAlloc in Ha; lia).
  pose proof (applyEntry_delete (repo s) [] keys (h_batch Hh) Hlt
                (Unmarshal_encode_delete keys Ha Hf)) as He.
  destruct (Update_one s (mkEntry idx (encode_delete keys)) _ _ _ _ Hh He) as (d' & HU & Hd).
  eexists. split; [exact HU|]. simpl. split; [done|]. intros k Hk.
  rewrite Hd, lookup_insert_ne by done. cbn [app]. rewrite apply_ops_deletes.
  case_decide as Hin.
  - apply map_lookup_filter_None. right. intros v _ Hn. by apply Hn.
  - destruct (contents (db s) !! k) eqn:E.
    + by apply map_lookup_filter_Some.
    + apply map_lookup_filter_None. by left.
Qed.

(** C20. Snapshot transfer: a snapshot that was saved without an error,
    recovered on any other replica whatever its store held, gives a store with
    the same contents and the applied index of the source. *)
Theorem snapshot_transfer `{Writer} s w stopc w' stopc' t i :
  healthy → written w = [] → SaveSnapshot s w stopc = ((w', stopc'), None) →
  map_Forall (λ k v, pair_fits (k, v)) (contents (db s)) →
  contents (db s) !! appliedIndexKey = Some (be_bytes 8 i) → is_u64 i →
  ∃ t', RecoverFromSnapshot t (mkReader (written w') ErrEOF) None = (t', Ok ()) ∧
    contents (db t') = contents (db s) ∧ lastApplied t' = i.
Proof.
  intros Hh Hw Hs Hfit Hidx Hi. apply SaveSnapshot_ok in Hs. rewrite Hw, app_nil_l in Hs.
  unfold RecoverFromSnapshot. destruct (clearDB_total (db t) Hh) as (d & -> & Hd).
  rewrite Hs. unfold encode_store_contents. cbn [rd_rest].
  assert (Forall pair_fits (sorted_pairs (contents (db s)))) as Hf.
  { apply Forall_forall. intros [k v] Hin%elem_of_sorted_pairs. by apply (Hfit k v). }
  rewrite recover_loop_encode by (done || lia || apply (h_batch Hh)). rewrite app_nil_l.
  destruct (healthy_commit d ((λ p, OpSet p.1 p.2) <$> sorted_pairs (contents (db s))) Sync Hh)
    as (d' & -> & Hd').
  rewrite Hd, apply_ops_sorted_pairs in Hd'.
  rewrite Get_spec, (h_get Hh), Hd', Hidx, be_uint_u64 by done. by eexists.
Qed.

(** A recovery that fails or is stopped never leaves a mixture: the store
    then holds what it held before, or nothing, or (when only the final read of
    the index fails) the complete snapshot; and the in-memory counter of the
    repository is never touched by a recovery.  The recovery always ends. *)
Theorem recover_no_mixture t r stopc t' o :
  RecoverFromSnapshot t r stopc = (t', o) →
  repo t' = repo t ∧ o ≠ OutOfFuel ∧
  (contents (db t') = contents (db t) ∨ contents (db t') = ∅ ∨
   ∃ b stopc1, recover_loop (S (length (rd_rest r))) [] stopc1 r = Ok b ∧
               contents (db t') = apply_ops ∅ b) ∧
  (o = Ok () → ∃ b stopc1, recover_loop (S (length (rd_rest r))) [] stopc1 r = Ok b ∧
               contents (db t') = apply_ops ∅ b).
Proof.
  unfold RecoverFromSnapshot. pose proof (clearDB_fuel (db t) stopc) as [Hcf _].
  destruct (clearDB (db t) stopc) as [[d st1] oc] eqn:Hc. simpl in Hcf.
  apply clearDB_cases in Hc as [[-> Hd]|[Hno Hd]].
  2: { destruct oc as [[]|e| |]; [done|..]; intros [= <- <-]; simpl;
       (split_and!; [done|done|auto|done]). }
  pose proof (recover_loop_fuel (S (length (rd_rest r))) [] st1 r ltac:(lia)) as [Hrf _].
  destruct (recover_loop _ _ _ _) as [b|e| |] eqn:Hr;
    [|intros [= <- <-]; simpl; (split_and!; [done|done|auto|done])..].
  destruct (Commit d b Sync) as [d' [e|]] eqn:Hcm.
  { apply Commit_err in Hcm. intros [= <- <-]. simpl. split_and!; [done|done| |done].
    right; left. congruence. }
  apply Commit_ok in Hcm. rewrite Hd in Hcm.
  assert (∃ b0 st0, recover_loop (S (length (rd_rest r))) [] st0 r = Ok b0 ∧
            contents d' = apply_ops ∅ b0) as Hfull by eauto.
  rewrite Get_spec. unfold be_uint.
  repeat (case_split_eq; simplify_eq); intros [= <- <-]; cbn [db repo];
    (split_and!; [done..|auto|auto]).
Qed.

(** What recovering from a snapshot of the contents [m] leaves behind, on an
    engine that may fail in any commit or read: what was there, nothing, or
    [m]; and [m] with its applied index on success. *)
Lemma recover_contents m t stopc t' o i :
  (∀ b op, batch_fault b op = None) →
  (∀ d k e, get_fault d k = Some e → errors_Is e PebbleErrNotFound = false) →
  map_Forall (λ k v, pair_fits (k, v)) m → m !! appliedIndexKey = Some (be_bytes 8 i) → is_u64 i →
  RecoverFromSnapshot t (mkReader (encode_store_contents m) ErrEOF) stopc = (t', o) →
  repo t' = repo t ∧
  (contents (db t') = contents (db t) ∨ contents (db t') = ∅ ∨ contents (db t') = m) ∧
  (o = Ok () → contents (db t') = m ∧ lastApplied t' = i).
Proof.
  intros Hadd Hgf Hfit Hidx Hi Hr.
  assert (∀ b stopc1, recover_loop (S (length (encode_store_contents m))) [] stopc1
            (mkReader (encode_store_contents m) ErrEOF) = Ok b → apply_ops ∅ b = m) as Hm.
  { intros b st1 E%recover_loop_stop. unfold encode_store_contents in E.
    rewrite recover_loop_encode in E; [|done| |lia].
    - injection E as <-. apply apply_ops_sorted_pairs.
    - apply Forall_forall. intros [k v] Hin%elem_of_sorted_pairs. by apply (Hfit k v). }
  pose proof (recover_no_mixture _ _ _ _ _ Hr) as (E & _ & Hc & Hok). split; [done|]. split.
  - destruct Hc as [?|[?|(b & st1 & Hb & ->)]]; [auto..|]. right; right. by eapply Hm.
  - intros ->. destruct (Hok eq_refl) as (b & st1 & Hb & Ec). rewrite (Hm b st1 Hb) in Ec. split; [done|].
    unfold RecoverFromSnapshot in Hr. destruct (clearDB _ _) as [[d st2] [[]| | |]]; try done.
    destruct (recover_loop _ _ _ _) as [b'| | |]; try done. destruct (Commit d b' Sync) as [d' [e|]]; [done|].
    rewrite Get_spec in Hr. destruct (get_fault d' appliedIndexKey) as [e|] eqn:Hg.
    { rewrite (Hgf _ _ _ Hg) in Hr. by simplify_eq. }
    destruct (contents d' !! appliedIndexKey) as [v|] eqn:Hv; cbn in Hr.
    + assert (v = be_bytes 8 i) as ->; [|rewrite be_uint_u64 in Hr by done; by simplify_eq].
      destruct (be_uint 8 v); simplify_eq/=; congruence.
    + simplify_eq/=; congruence.
Qed.
End state_machine.

(** ** Runs on the reference engine *)
#[local] Obligation Tactic := idtac.
#[local] Unset Program Cases.
#[export] Program Instance buffer_writer : Writer := {|
  w_t := bytes;
  written w := w;
  Write w p := (w ++ p, None);
|}.
Next Obligation. by intros w p w' [= <-]. Qed.

Definition item_a : StoreBatchItem := mkStoreBatchItem 5 7 [] (of_str "a").
Definition item_b : StoreBatchItem := mkStoreBatchItem 5 7 [] (of_str "b").

Definition fresh_replica : @EventStateMachine MapDB :=
  @mkESM MapDB (∅ : gmap bytes bytes) (mkEventRepository 0 Millisecond) 0.

(** A leader that applied one entry, its snapshot, and a follower that
    recovered from it. *)
Definition leader1 : @EventStateMachine MapDB :=
  (@Update MapDB fresh_replica [mkEntry 1 (encode_store [item_a])]).1.
Definition leader_snapshot : bytes := (@SaveSnapshot MapDB buffer_writer leader1 [] None).1.1.
Definition follower1 : @EventStateMachine MapDB :=
  (@RecoverFromSnapshot MapDB fresh_replica (mkReader leader_snapshot ErrEOF) None).1.

(** Both apply the same second entry. *)
Definition leader2 : @EventStateMachine MapDB :=
  (@Update MapDB leader1 [mkEntry 2 (encode_store [item_b])]).1.
Definition follower2 : @EventStateMachine MapDB :=
  (@Update MapDB follower1 [mkEntry 2 (encode_store [item_b])]).1.

Definition stored (s : @EventStateMachine MapDB) (k : bytes) : option bytes :=
  @contents MapDB (@db MapDB s) !! k.

(** A replica that was brought up to date by a snapshot diverges with the
    next store: [RecoverFromSnapshot] replaces the store but not the live id
    counter, so the follower gives the next message an id that is taken and
    overwrites the message that had it, while the leader keeps both. *)
Theorem snapshot_recovery_diverges :
  @contents MapDB (@db MapDB follower1) = @contents MapDB (@db MapDB leader1) ∧
  lastApplied follower1 = lastApplied leader1 ∧
  stored leader2 (EventKey 5 7 1) = Some (of_str "a") ∧
  stored leader2 (EventKey 5 7 2) = Some (of_str "b") ∧
  stored follower2 (EventKey 5 7 1) = Some (of_str "b") ∧
  stored follower2 (EventKey 5 7 2) = None.
Proof. apply (bool_decide_unpack _). vm_compute. exact I. Qed.

(** Witnesses. *)
Lemma fresh_inv : repo_inv (@contents MapDB (@db MapDB fresh_replica)) (repo fresh_replica).
Proof.
  split; [intros v|intros k v|by vm_compute|by vm_compute]; simpl;
    rewrite lookup_empty; congruence.
Qed.

Lemma Update_preserves_inv_witness :
  let es := [mkEntry 1 (encode_store [item_a; item_b])] in
  let s' := (@Update MapDB fresh_replica es).1 in
  repo_inv (@contents MapDB (@db MapDB s')) (repo s') ∧ 0 ≤ lastID (repo s').
Proof.
  apply (@Update_preserves_inv MapDB fresh_replica
           [mkEntry 1 (encode_store [item_a; item_b])] _
           (@Update MapDB fresh_replica [mkEntry 1 (encode_store [item_a; item_b])]).2).
  - apply fresh_inv.
  - by vm_compute.
  - repeat constructor.
  - apply surjective_pairing.
Defined.

Lemma Update_applied_index_witness :
  @contents MapDB (@db MapDB leader1) !! appliedIndexKey = Some (be_bytes 8 1) ∧
  (@Open MapDB (mkESM (@db MapDB leader1) (repo leader1) 0)).2 = Ok 1.
Proof.
  pose proof (@Update_applied_index MapDB fresh_replica [] (mkEntry 1 (encode_store [item_a]))
                leader1 (Ok ([1], [])) (repo leader1) 0) as Hx.
  destruct Hx as [H1 H2]; [by vm_compute|apply pair_snd_eq; by vm_compute|].
  split; [exact H1|]. by rewrite H2.
Defined.

Lemma Update_batching_witness :
  let e1 := mkEntry 1 (encode_store [item_a]) in
  let e2 := mkEntry 2 (encode_store [item_b]) in
  @contents MapDB (@db MapDB (@Update MapDB fresh_replica ([e1] ++ [e2])).1) =
  @contents MapDB (@db MapDB leader2).
Proof.
  intros e1 e2.
  destruct (@Update_batching MapDB fresh_replica [e1] [e2] leader1 [1] [] leader2 [1] []
              (@Update MapDB fresh_replica ([e1] ++ [e2])).1 [1; 1] []) as [Hc _];
    [done|apply pair_snd_eq; by vm_compute..|exact Hc].
Defined.

Lemma Update_store_batch_witness :
  ∃ s', @Update MapDB fresh_replica [mkEntry 1 (encode_store [item_a; item_b])]
        = (s', Ok ([2], [])) ∧
    @contents MapDB (@db MapDB s') !! EventKey 5 7 2 = Some (of_str "b").
Proof.
  destruct (@Update_store_batch MapDB fresh_replica 1 [item_a; item_b])
    as (s' & HU & _ & Hin & _).
  - apply MapDB_healthy.
  - apply fresh_inv.
  - apply (bool_decide_unpack _). by vm_compute.
  - by vm_compute.
  - repeat constructor.
  - by vm_compute.
  - exists s'. split; [exact HU|]. exact (Hin 1%nat item_b eq_refl).
Defined.

Lemma Update_delete_batch_witness :
  ∃ s', @Update MapDB leader1 [mkEntry 2 (encode_delete [EventKey 5 7 1])]
        = (s', Ok ([1], [EventKey 5 7 1])) ∧
    @contents MapDB (@db MapDB s') !! EventKey 5 7 1 = None.
Proof.
  destruct (@Update_delete_batch MapDB leader1 2 [EventKey 5 7 1]) as (s' & HU & _ & Hk).
  - apply MapDB_healthy.
  - by repeat constructor.
  - by vm_compute.
  - exists s'. split; [exact HU|]. rewrite Hk by done. by rewrite decide_True by (by left).
Defined.

Lemma snapshot_transfer_witness :
  ∃ t', @RecoverFromSnapshot MapDB leader2 (mkReader leader_snapshot ErrEOF) None = (t', Ok ()) ∧
    @contents MapDB (@db MapDB t') = @contents MapDB (@db MapDB leader1) ∧ lastApplied t' = 1.
Proof.
  apply (@snapshot_transfer MapDB buffer_writer leader1 [] None leader_snapshot None leader2 1).
  - apply MapDB_healthy.
  - done.
  - apply (bool_decide_unpack _). by vm_compute.
  - apply (bool_decide_unpack _). by vm_compute.
  - by vm_compute.
  - by vm_compute.
Defined.

(** A stream that breaks off inside a pair. *)
Lemma recover_no_mixture_witness :
  repo (@RecoverFromSnapshot MapDB leader1 (mkReader (take 40 leader_snapshot) ErrEOF) None).1
  = repo leader1.
Proof.
  refine (proj1 (@recover_no_mixture MapDB leader1 (mkReader (take 40 leader_snapshot) ErrEOF)
                   None _ _ _)).
  apply surjective_pairing.
Defined.
