(* ===== verification/Engines.v ===== *)
(** * The two engines side by side

    Both adapters implement the storage contract, so a client cannot tell them
    apart as long as it reads contents; it can by the error for a missing key,
    and two start-up paths of the code compare against one of the two. *)
From stdpp Require Import prelude gmap strings sorting.
From S2P Require Import Prelude Bytes Keys Storage Bolt Pebble Proto Repository EventStateMachine.
Local Open Scope Z_scope.

Section engines.
Context {B : BoltEngine} {P : PebbleEngine}.

(** C22. The engines agree behind the contract up to one sentinel.  Take a bbolt
    store and a Pebble store with the same pairs.  A lookup that meets no read
    fault answers with the same value on both; for an absent key bbolt answers
    [storage.ErrNotFound] and Pebble [pebble.ErrNotFound], and no other answer
    differs.  A scan that meets no read fault drives its callback through the
    same pairs in the same order to the same final state.  A commit that
    succeeds leaves the common pairs with the operations of the batch applied,
    on either engine; one that fails leaves its store as it was. *)
Theorem engines_agree (b : @boltDB B) (p : @pebble_raw P) (m : gmap bytes bytes) :
  @contents bolt_DB b = m → @contents pebble_DB p = m →
  (∀ k, @get_fault bolt_DB b k = None → @get_fault pebble_DB p k = None →
     match m !! k with
     | Some v => bolt_Get b k = Ok v ∧ Pebble_Get p k = Ok v
     | None => bolt_Get b k = Err ErrNotFound ∧ Pebble_Get p k = Err PebbleErrNotFound
     end) ∧
  (∀ A o (yield : yield_t A) a,
     @iter_error bolt_DB b o = None → @iter_error pebble_DB p o = None →
     bolt_Scan b o yield a = Pebble_Scan p o yield a) ∧
  (∀ ops mode b' eb p' ep, bolt_Commit b ops mode = (b', eb) → pebbleBatch_Commit p ops mode = (p', ep) →
     @contents bolt_DB b' = (if eb is None then apply_ops m ops else m) ∧
     @contents pebble_DB p' = (if ep is None then apply_ops m ops else m)).
Proof.
  intros Hb Hp. split_and!.
  - intros k Fb Fp. pose proof (@Get_spec bolt_DB b k) as Gb. pose proof (@Get_spec pebble_DB p k) as Gp.
    rewrite Fb, Hb in Gb. rewrite Fp, Hp in Gp. simpl in Gb, Gp. rewrite Gb, Gp. by destruct (m !! k).
  - intros A o yield a Eb Ep.
    pose proof (@Scan_spec bolt_DB A b o yield a) as Sb.
    pose proof (@Scan_spec pebble_DB A p o yield a) as Sp.
    rewrite Eb, (@iter_pairs_complete bolt_DB b o Eb), Hb in Sb.
    rewrite Ep, (@iter_pairs_complete pebble_DB p o Ep), Hp in Sp. etrans; [exact Sb|by symmetry].
  - intros ops mode b' eb p' ep Cb Cp. split.
    + destruct eb; [by rewrite (@Commit_err bolt_DB _ _ _ _ _ Cb)|by rewrite (@Commit_ok bolt_DB _ _ _ _ Cb), Hb].
    + destruct ep; [by rewrite (@Commit_err pebble_DB _ _ _ _ _ Cp)|by rewrite (@Commit_ok pebble_DB _ _ _ _ Cp), Hp].
Qed.

(** A fresh bbolt store cannot be opened: a missing counter is reported as
    [storage.ErrNotFound], which [NewEventRepository] and the state machine's
    [Open] do not recognise (they compare with [pebble.ErrNotFound]), so both
    return it as a failure; on Pebble both start from 0. *)
Theorem fresh_bolt_store_fails (b : @boltDB B) (p : @pebble_raw P) er la bsize :
  @get_fault bolt_DB b eventsLastIDKey = None → @get_fault bolt_DB b appliedIndexKey = None →
  @get_fault pebble_DB p eventsLastIDKey = None → @get_fault pebble_DB p appliedIndexKey = None →
  @contents bolt_DB b = ∅ → @contents pebble_DB p = ∅ →
  @NewEventRepository bolt_DB b bsize = Err ErrNotFound ∧
  (@Open bolt_DB (@mkESM bolt_DB b er la)).2 = Err ErrNotFound ∧
  @NewEventRepository pebble_DB p bsize = Ok (mkEventRepository 0 bsize) ∧
  (@Open pebble_DB (@mkESM pebble_DB p er la)).2 = Ok 0.
Proof.
  intros F1 F2 F3 F4 Eb Ep. unfold NewEventRepository, Open. cbn [db].
  rewrite (@Get_spec bolt_DB b eventsLastIDKey), F1, (@Get_spec bolt_DB b appliedIndexKey), F2,
    (@Get_spec pebble_DB p eventsLastIDKey), F3, (@Get_spec pebble_DB p appliedIndexKey), F4.
  by rewrite Eb, Ep, !lookup_empty.
Qed.
End engines.

(** Witnesses. *)
Definition events_bucket : bytes := of_str "events".
Definition sample_bolt : @boltDB MapBolt :=
  @mkBoltDB MapBolt ({[ events_bucket := {[ of_str "k" := of_str "v" ]} ]}
                      : gmap bytes (gmap bytes bytes)) events_bucket.
Definition empty_bolt : @boltDB MapBolt :=
  @mkBoltDB MapBolt ({[ events_bucket := ∅ ]} : gmap bytes (gmap bytes bytes)) events_bucket.
Definition sample_pebble : gmap bytes bytes := {[ of_str "k" := of_str "v" ]}.

(** Collects the pairs of a scan. *)
Definition collect : yield_t (list (bytes * bytes)) := λ acc k v, (acc ++ [(k, v)], None).

Lemma engines_agree_witness :
  (@bolt_Get MapBolt sample_bolt (of_str "k") = Ok (of_str "v") ∧
   @Pebble_Get MapPebble sample_pebble (of_str "k") = Ok (of_str "v")) ∧
  (@bolt_Get MapBolt sample_bolt (of_str "x") = Err ErrNotFound ∧
   @Pebble_Get MapPebble sample_pebble (of_str "x") = Err PebbleErrNotFound) ∧
  @bolt_Scan MapBolt _ sample_bolt None collect [] =
    @Pebble_Scan MapPebble _ sample_pebble None collect [] ∧
  (@bolt_Scan MapBolt _ sample_bolt None collect []).1 = [(of_str "k", of_str "v")].
Proof.
  pose proof (@engines_agree MapBolt MapPebble sample_bolt sample_pebble sample_pebble eq_refl eq_refl)
    as (Hg & Hs & _).
  split_and!; [exact (proj1 (Hg (of_str "k") eq_refl eq_refl))|exact (proj2 (Hg (of_str "k") eq_refl eq_refl))
    |exact (proj1 (Hg (of_str "x") eq_refl eq_refl))|exact (proj2 (Hg (of_str "x") eq_refl eq_refl))
    |exact (Hs _ None collect [] eq_refl eq_refl)|by vm_compute].
Defined.

Lemma fresh_bolt_store_fails_witness :
  @NewEventRepository (@bolt_DB MapBolt) empty_bolt Millisecond = Err ErrNotFound.
Proof.
  refine (proj1 (@fresh_bolt_store_fails MapBolt MapPebble empty_bolt (∅ : gmap bytes bytes)
                   (mkEventRepository 0 0) 0 Millisecond _ _ _ _ _ _)); reflexivity.
Defined.
