(* ===== verification/Hub.v ===== *)
(** * The consumer hub ([src/internal/dispatcher/hub.go])

    Connected consumers by topic and group, the strategy that picks one
    consumer of a group, and the delivery of a message to the consumers'
    channels.

    [DispatchStrategy] is the interface of the source; the hub is proved
    against it and [RoundRobinStrategy] implements it.  Go ranges over a map in
    an unspecified order: [MapRange] supplies some order for every range
    statement ([h_tick] counts them), and nothing is assumed but that it visits
    every pair once.  A channel is a buffer with a capacity in the store
    [chans]; sends never block, as in [trySend]. *)
From stdpp Require Import prelude gmap strings sorting.
From S2P Require Import Prelude Bytes Proto.
Local Open Scope Z_scope.

Record ConsumerEntry := mkConsumerEntry {
  ID : string;
  Topic : string;
  Group : string;
  Ch : nat;
}.

#[export] Instance ConsumerEntry_eq_dec : EqDecision ConsumerEntry.
Proof. solve_decision. Defined.

Definition IsUniversal (c : ConsumerEntry) : bool := bool_decide (Group c = ""%string).

Definition GroupKey (c : ConsumerEntry) : string :=
  if decide (Group c = ""%string)
  then Topic c +:+ "|__universal__|" +:+ ID c
  else Topic c +:+ "|" +:+ Group c.

(** ** Dispatch strategies *)
Class DispatchStrategy := {
  strat_t : Type;
  Select : strat_t → list ConsumerEntry → QueueMessage → strat_t * option ConsumerEntry;
  (** A consumer of the candidates, or nil exactly when there are none. *)
  Select_spec s cs m : match (Select s cs m).2 with
                       | Some c => c ∈ cs
                       | None => cs = []
                       end;
}.

(** RoundRobinStrategy: groupKey → next index. *)
Record rr_t := mkRR { next : gmap string Z }.

Definition NewRoundRobinStrategy : rr_t := mkRR ∅.

Definition rr_Select (s : rr_t) (candidates : list ConsumerEntry) (_ : QueueMessage)
    : rr_t * option ConsumerEntry :=
  match candidates with
  | [] => (s, None)
  | c0 :: _ =>
      let groupKey := GroupKey c0 in
      let idx := default 0 (next s !! groupKey) in
      (mkRR (<[groupKey := u64 (idx + 1) `mod` len candidates]> (next s)),
       candidates !! Z.to_nat (idx `mod` len candidates))
  end.

(** ** Map iteration order *)
Class MapRange := {
  range_map : ∀ {A}, nat → gmap string A → list (string * A);
  range_map_perm {A} n (m : gmap string A) : range_map n m ≡ₚ map_to_list m;
}.

(** ** Subscriptions *)
Record TopicSubscription := mkTopicSubscription {
  groups : gmap string (list ConsumerEntry);
  universal : gmap string ConsumerEntry;
}.

Definition newTopicSubscription : TopicSubscription := mkTopicSubscription ∅ ∅.

Definition sub_add (ts : TopicSubscription) (c : ConsumerEntry) : TopicSubscription :=
  if IsUniversal c
  then mkTopicSubscription (groups ts) (<[ID c := c]> (universal ts))
  else mkTopicSubscription
         (<[Group c := default [] (groups ts !! Group c) ++ [c]]> (groups ts)) (universal ts).

Definition sub_isEmpty (ts : TopicSubscription) : bool :=
  bool_decide (size (groups ts) = 0%nat) && bool_decide (size (universal ts) = 0%nat).

(** Drop the first entry with the id. *)
Fixpoint remove_first (id : string) (l : list ConsumerEntry) : list ConsumerEntry :=
  match l with
  | [] => []
  | ce :: l' => if decide (ID ce = id) then l' else ce :: remove_first id l'
  end.

(** The loop assigns [groups] only when it finds the entry, but an assignment
    of an unchanged list to a present key changes nothing, and an absent group
    is deleted again by the emptiness test. *)
Definition sub_remove (ts : TopicSubscription) (c : ConsumerEntry) : TopicSubscription * bool :=
  let ts' :=
    if IsUniversal c
    then mkTopicSubscription (groups ts) (delete (ID c) (universal ts))
    else
      let g := remove_first (ID c) (default [] (groups ts !! Group c)) in
      if decide (length g = 0%nat)
      then mkTopicSubscription (delete (Group c) (groups ts)) (universal ts)
      else mkTopicSubscription (<[Group c := g]> (groups ts)) (universal ts)
  in (ts', sub_isEmpty ts').

(** ** The hub *)
Record chan_t := mkChan {
  ch_buf : list QueueMessage;
  ch_cap : nat;
}.

Section hub.
Context `{DispatchStrategy} `{MapRange}.

Record Hub := mkHub {
  topics : gmap string TopicSubscription;
  byID : gmap string ConsumerEntry;
  inFlightByConsumer : gmap string (list bytes);
  strategy : strat_t;
  (** wakeCh, a channel of capacity one: whether a signal is pending. *)
  wakeCh : bool;
  (** The channels the entries refer to. *)
  chans : gmap nat chan_t;
  (** The number of map iterations so far. *)
  h_tick : nat;
}.

Definition set_topics f h := mkHub (f (topics h)) (byID h) (inFlightByConsumer h) (strategy h)
  (wakeCh h) (chans h) (h_tick h).
Definition set_byID f h := mkHub (topics h) (f (byID h)) (inFlightByConsumer h) (strategy h)
  (wakeCh h) (chans h) (h_tick h).
Definition set_inFlight f h := mkHub (topics h) (byID h) (f (inFlightByConsumer h)) (strategy h)
  (wakeCh h) (chans h) (h_tick h).
Definition set_strategy s h := mkHub (topics h) (byID h) (inFlightByConsumer h) s
  (wakeCh h) (chans h) (h_tick h).
Definition set_wake w h := mkHub (topics h) (byID h) (inFlightByConsumer h) (strategy h)
  w (chans h) (h_tick h).
Definition set_chans f h := mkHub (topics h) (byID h) (inFlightByConsumer h) (strategy h)
  (wakeCh h) (f (chans h)) (h_tick h).
Definition add_ticks n h := mkHub (topics h) (byID h) (inFlightByConsumer h) (strategy h)
  (wakeCh h) (chans h) (h_tick h + n)%nat.

Definition NewHub (s : strat_t) : Hub := mkHub ∅ ∅ ∅ s false ∅ 0.

Definition Register (id topic groupID : string) (ch : nat) (h : Hub) : Hub :=
  let entry := mkConsumerEntry id topic groupID ch in
  let sub := default newTopicSubscription (topics h !! topic) in
  let h1 := set_topics (<[topic := sub_add sub entry]>) h in
  let h2 := set_byID (<[id := entry]>) h1 in
  set_wake true h2.

Definition Unregister (id : string) (h : Hub) : Hub :=
  match byID h !! id with
  | None => h
  | Some entry =>
      let h1 :=
        match topics h !! Topic entry with
        | Some sub =>
            let '(sub', empty) := sub_remove sub entry in
            if empty then set_topics (delete (Topic entry)) h
            else set_topics (<[Topic entry := sub']>) h
        | None => h
        end in
      set_inFlight (delete id) (set_byID (delete id) h1)
  end.

(** [select { case c.Ch <- msg: ...; default: ... }] *)
Definition trySend (c : ConsumerEntry) (msg : QueueMessage) (deliveryTag : bytes) (h : Hub)
    : Hub * bool :=
  match chans h !! Ch c with
  | Some ch =>
      if decide (length (ch_buf ch) < ch_cap ch)%nat
      then (set_inFlight (λ m, <[ID c := default [] (m !! ID c) ++ [deliveryTag]]> m)
              (set_chans (<[Ch c := mkChan (ch_buf ch ++ [msg]) (ch_cap ch)]>) h), true)
      else (h, false)
  | None => (h, false)
  end.

(** The group loop: the strategy picks one consumer per group. *)
Fixpoint send_groups (gs : list (string * list ConsumerEntry)) (msg : QueueMessage)
    (deliveryTag : bytes) (h : Hub) : Hub * list string :=
  match gs with
  | [] => (h, [])
  | (gid, consumers) :: gs' =>
      let '(s', selected) := Select (strategy h) consumers msg in
      let h1 := set_strategy s' h in
      match selected with
      | None => send_groups gs' msg deliveryTag h1
      | Some c =>
          let '(h2, ok) := trySend c msg deliveryTag h1 in
          let '(h3, sent) := send_groups gs' msg deliveryTag h2 in
          (h3, if ok : bool then gid :: sent else sent)
      end
  end.

(** The loop over the universal consumers. *)
Fixpoint send_universal (us : list ConsumerEntry) (msg : QueueMessage)
    (deliveryTag : bytes) (h : Hub) : Hub * list string :=
  match us with
  | [] => (h, [])
  | c :: us' =>
      let '(h1, ok) := trySend c msg deliveryTag h in
      let '(h2, sent) := send_universal us' msg deliveryTag h1 in
      (h2, if ok : bool then ""%string :: sent else sent)
  end.

(** Copies of the groups and of the universal consumers, in the order of one
    iteration over each map. *)
Definition groupSnapshot (tick : nat) (ts : TopicSubscription) : list (string * list ConsumerEntry) :=
  range_map tick (groups ts).
Definition universalSnapshot (tick : nat) (ts : TopicSubscription) : list ConsumerEntry :=
  (range_map tick (universal ts)).*2.

Definition DispatchToTopic (topic : string) (msg : QueueMessage) (deliveryTag : bytes) (h : Hub)
    : Hub * list string :=
  match topics h !! topic with
  | None => (h, [])
  | Some sub =>
      let gs := groupSnapshot (h_tick h) sub in
      let us := universalSnapshot (S (h_tick h)) sub in
      let h0 := add_ticks 2 h in
      let '(h1, sent1) := send_groups gs msg deliveryTag h0 in
      let '(h2, sent2) := send_universal us msg deliveryTag h1 in
      (h2, sent1 ++ sent2)
  end.

(** Drop the first occurrence of a key. *)
Fixpoint remove_key (key : bytes) (keys : list bytes) : option (list bytes) :=
  match keys with
  | [] => None
  | k :: keys' => if decide (k = key) then Some keys' else cons k <$> remove_key key keys'
  end.

Definition RemoveInFlightForConsumer (consumerID : string) (key : bytes) (h : Hub) : Hub :=
  match remove_key key (default [] (inFlightByConsumer h !! consumerID)) with
  | Some keys => set_inFlight (<[consumerID := keys]>) h
  | None => h
  end.

Definition ActiveTopics (h : Hub) : Hub * list string :=
  (add_ticks 1 h, (range_map (h_tick h) (topics h)).*1).

Definition HasConsumers (h : Hub) : bool := bool_decide (0 < size (byID h))%nat.

Definition GroupsForTopic (topic : string) (h : Hub) : Hub * list string :=
  match topics h !! topic with
  | None => (h, [])
  | Some sub =>
      (add_ticks 1 h,
       (filter (λ p : string * list ConsumerEntry, 0 < length p.2)%nat
          (range_map (h_tick h) (groups sub))).*1)
  end.

(** ** Deliveries

    A send that finds room appends to the channel and records the tag; a
    dispatch is such a delivery to every chosen consumer with room. *)
Definition has_room (h : Hub) (c : ConsumerEntry) : Prop :=
  match chans h !! Ch c with
  | Some ch => (length (ch_buf ch) < ch_cap ch)%nat
  | None => False
  end.

#[export] Instance has_room_dec h c : Decision (has_room h c).
Proof. unfold has_room. destruct (chans h !! Ch c); apply _. Defined.

Definition push (msg : QueueMessage) (ch : chan_t) : chan_t :=
  mkChan (ch_buf ch ++ [msg]) (ch_cap ch).

Definition deliver (msg : QueueMessage) (tag : bytes) (h : Hub) (c : ConsumerEntry) : Hub :=
  set_inFlight (λ m, <[ID c := default [] (m !! ID c) ++ [tag]]> m)
    (set_chans (alter (push msg) (Ch c)) h).

Definition deliver_all (msg : QueueMessage) (tag : bytes) (h : Hub) (cs : list ConsumerEntry) : Hub :=
  foldl (deliver msg tag) h cs.

(** The consumers the strategy picks, group after group. *)
Fixpoint pick_all (s : strat_t) (gs : list (string * list ConsumerEntry)) (msg : QueueMessage)
    : strat_t * list ConsumerEntry :=
  match gs with
  | [] => (s, [])
  | (_, cs) :: gs' =>
      let '(s1, o) := Select s cs msg in
      let '(s2, ps) := pick_all s1 gs' msg in
      (s2, option_list o ++ ps)
  end.

(** [msg := <-ch] of the consumer's sender goroutine. *)
Definition recv (ch : nat) (h : Hub) : Hub * option QueueMessage :=
  match chans h !! ch with
  | Some (mkChan (m :: buf) cap) => (set_chans (<[ch := mkChan buf cap]>) h, Some m)
  | _ => (h, None)
  end.

(** ** The invariant *)
Definition in_sub (sub : TopicSubscription) (c : ConsumerEntry) : Prop :=
  if decide (Group c = ""%string) then universal sub !! ID c = Some c
  else ∃ l, groups sub !! Group c = Some l ∧ c ∈ l.

(** The entries of a subscription are the registered consumers of the topic,
    each in its own place. *)
Record sub_wf (reg : gmap string ConsumerEntry) (t : string) (sub : TopicSubscription) : Prop := {
  sw_groups : ∀ g l, groups sub !! g = Some l →
    l ≠ [] ∧ g ≠ ""%string ∧ NoDup (ID <$> l) ∧
    Forall (λ c, Topic c = t ∧ Group c = g ∧ reg !! ID c = Some c) l;
  sw_universal : ∀ i c, universal sub !! i = Some c →
    ID c = i ∧ Topic c = t ∧ Group c = ""%string ∧ reg !! i = Some c;
}.

Record hub_inv (h : Hub) : Prop := {
  hi_reg : ∀ id c, byID h !! id = Some c →
    ID c = id ∧ ∃ sub, topics h !! Topic c = Some sub ∧ in_sub sub c;
  hi_sub : ∀ t sub, topics h !! t = Some sub →
    sub_wf (byID h) t sub ∧ sub_isEmpty sub = false;
  hi_chan : ∀ i j c c', byID h !! i = Some c → byID h !! j = Some c' → Ch c = Ch c' → c = c';
}.

Lemma sub_isEmpty_false sub c : in_sub sub c → sub_isEmpty sub = false.
Proof.
  unfold in_sub, sub_isEmpty. case_decide; intros Hc; apply andb_false_iff;
    [right|left]; apply bool_decide_eq_false_2; rewrite map_size_empty_iff.
  - intros E. by rewrite E, lookup_empty in Hc.
  - destruct Hc as (l & Hl & _). intros E. by rewrite E, lookup_empty in Hl.
Qed.

(** A subscription that is not empty has an entry. *)
Lemma sub_has_entry reg t sub :
  sub_wf reg t sub → sub_isEmpty sub = false → ∃ c, in_sub sub c ∧ reg !! ID c = Some c ∧ Topic c = t.
Proof.
  intros [Hg Hu]. unfold sub_isEmpty. intros [Hs|Hs]%andb_false_iff;
    apply bool_decide_eq_false in Hs; rewrite map_size_empty_iff in Hs;
    apply map_choose in Hs as (i & x & Hx).
  - destruct (Hg i x Hx) as (Hne & Hgi & _ & Hf). destruct x as [|c x]; [done|].
    apply Forall_cons in Hf as [(Ht & Hgc & Hr) _]. exists c. unfold in_sub.
    rewrite decide_False by congruence. rewrite Hgc. split; [|done]. eexists. split; [done|left].
  - destruct (Hu i x Hx) as (Hi & Ht & Hgx & Hr). exists x. unfold in_sub.
    rewrite decide_True by done. by rewrite Hi.
Qed.

Lemma sub_wf_insert reg t sub c :
  sub_wf reg t sub → reg !! ID c = None → sub_wf (<[ID c := c]> reg) t sub.
Proof.
  intros [Hg Hu] Hn. split.
  - intros g l Hl. destruct (Hg g l Hl) as (? & ? & ? & Hf). split_and!; try done.
    eapply Forall_impl; [exact Hf|]. intros c' (? & ? & Hr). split_and!; try done.
    rewrite lookup_insert_ne; [done|]. intros E. congruence.
  - intros i c' Hc. destruct (Hu i c' Hc) as (? & ? & ? & Hr). split_and!; try done.
    rewrite lookup_insert_ne; [done|]. intros E. congruence.
Qed.

Lemma sub_add_wf reg t sub c :
  sub_wf reg t sub → reg !! ID c = None → Topic c = t →
  sub_wf (<[ID c := c]> reg) t (sub_add sub c).
Proof.
  intros Hs Hn Ht. pose proof (sub_wf_insert _ _ _ c Hs Hn) as [Hg Hu].
  unfold sub_add, IsUniversal. case_bool_decide as Hc; split; simpl.
  - done.
  - intros i c' [[<- <-]|[_ Hx]]%lookup_insert_Some; [|by apply Hu].
    by rewrite lookup_insert_eq.
  - intros g l [[<- <-]|[_ Hx]]%lookup_insert_Some; [|by apply Hg].
    split_and!; [by destruct (default [] _)|done|..].
    + rewrite fmap_app. apply NoDup_app. split_and!; [|..|apply NoDup_singleton].
      * destruct (groups sub !! Group c) eqn:E; simpl; [by apply (Hg _ _ E)|constructor].
      * intros i Hi%list_elem_of_fmap Hj%list_elem_of_singleton. simpl in Hj. subst i.
        destruct Hi as (c' & Hid & Hc'). destruct (groups sub !! Group c) eqn:E; simpl in Hc';
          [|by apply elem_of_nil in Hc'].
        destruct Hs as [Hg0 _]. destruct (Hg0 _ _ E) as (_ & _ & _ & Hf).
        rewrite Forall_forall in Hf. destruct (Hf _ Hc') as (_ & _ & Hr). congruence.
    + apply Forall_app. split.
      * destruct (groups sub !! Group c) eqn:E; simpl; [by apply (Hg _ _ E)|constructor].
      * repeat constructor; [done..|]. by rewrite lookup_insert_eq.
  - done.
Qed.

Lemma in_sub_add_self sub c : in_sub (sub_add sub c) c.
Proof.
  unfold in_sub, sub_add, IsUniversal. case_decide; case_bool_decide; try done; simpl.
  - by rewrite lookup_insert_eq.
  - rewrite lookup_insert_eq. eexists. split; [done|]. apply elem_of_app. right. by left.
Qed.

Lemma in_sub_add_other sub c c' : in_sub sub c' → ID c ≠ ID c' → in_sub (sub_add sub c) c'.
Proof.
  unfold in_sub, sub_add, IsUniversal. case_decide; case_bool_decide; simpl; try done.
  - intros. by rewrite lookup_insert_ne.
  - intros (l & Hl & Hin) _. destruct (decide (Group c = Group c')) as [->|].
    + rewrite lookup_insert_eq, Hl. eexists. split; [done|]. apply elem_of_app. by left.
    + rewrite lookup_insert_ne by done. eauto.
Qed.

Lemma Register_inv id topic groupID ch h :
  hub_inv h → byID h !! id = None →
  (∀ i c, byID h !! i = Some c → Ch c ≠ ch) →
  hub_inv (Register id topic groupID ch h).
Proof.
  intros [Hreg Hsub Hch] Hid Hfresh. set (c := mkConsumerEntry id topic groupID ch).
  set (sub := default newTopicSubscription (topics h !! topic)).
  assert (sub_wf (byID h) topic sub) as Hwf.
  { unfold sub. destruct (topics h !! topic) eqn:E; [by apply Hsub|].
    split; simpl; intros ? ? ?; by rewrite lookup_empty in *. }
  split; simpl; fold c; fold sub.
  - intros i c' [[<- <-]|[Hne Hc']]%lookup_insert_Some.
    + split; [done|]. exists (sub_add sub c). rewrite lookup_insert_eq.
      split; [done|apply in_sub_add_self].
    + apply Hreg in Hc' as [Hi (sub' & Ht & Hin)]. split; [done|].
      destruct (decide (Topic c' = topic)) as [Et|].
      * rewrite Et. exists (sub_add sub c). rewrite lookup_insert_eq. split; [done|].
        apply in_sub_add_other; [|simpl; congruence]. unfold sub. by rewrite <-Et, Ht.
      * exists sub'. by rewrite lookup_insert_ne.
  - intros t sub' [[<- <-]|[Hne Hs]]%lookup_insert_Some.
    + split; [by apply sub_add_wf|]. eapply sub_isEmpty_false, in_sub_add_self.
    + apply Hsub in Hs as [Hs He]. split; [|done]. by apply (sub_wf_insert _ _ _ c).
  - intros i j c1 c2 [[<- <-]|[_ H1]]%lookup_insert_Some [[<- <-]|[_ H2]]%lookup_insert_Some E.
    + done.
    + symmetry in E. by destruct (Hfresh _ _ H2).
    + by destruct (Hfresh _ _ H1).
    + by eapply Hch.
Qed.

(** Removing an entry. *)
Lemma remove_first_not_in id l : NoDup (ID <$> l) → id ∉ ID <$> remove_first id l.
Proof.
  induction l as [|c l IH]; simpl; [by intros _ ?%elem_of_nil|].
  rewrite NoDup_cons. intros [Hn Hd]. case_decide as E; [by rewrite <-E|].
  rewrite fmap_cons, not_elem_of_cons. auto.
Qed.

Lemma remove_first_elem id l c :
  c ∈ remove_first id l → c ∈ l.
Proof.
  induction l as [|d l IH]; simpl; [done|]. case_decide; [by right|].
  intros [->|Hc]%elem_of_cons; [by left|right; auto].
Qed.

Lemma remove_first_keeps id l c : c ∈ l → ID c ≠ id → c ∈ remove_first id l.
Proof.
  induction l as [|d l IH]; simpl; [done|].
  intros [->|Hc]%elem_of_cons Hne.
  - rewrite decide_False by done. by left.
  - case_decide; [done|]. right. auto.
Qed.

Lemma remove_first_NoDup id l : NoDup (ID <$> l) → NoDup (ID <$> remove_first id l).
Proof.
  induction l as [|d l IH]; simpl; [done|]. rewrite NoDup_cons. intros [Hn Hd].
  case_decide; [done|]. rewrite fmap_cons, NoDup_cons. split; [|auto].
  intros (c & Hi & Hc)%list_elem_of_fmap. apply Hn. rewrite Hi.
  apply list_elem_of_fmap_2. by eapply remove_first_elem.
Qed.

Lemma sub_wf_delete reg t sub c :
  sub_wf reg t sub → reg !! ID c = Some c → Topic c ≠ t → sub_wf (delete (ID c) reg) t sub.
Proof.
  intros [Hg Hu] Hc Hne. split.
  - intros g l Hl. destruct (Hg g l Hl) as (? & ? & ? & Hf). split_and!; try done.
    eapply Forall_impl; [exact Hf|]. intros c' (? & ? & Hr). split_and!; try done.
    rewrite lookup_delete_ne; [done|]. intros E. congruence.
  - intros i c' Hc'. destruct (Hu i c' Hc') as (? & ? & ? & Hr). split_and!; try done.
    rewrite lookup_delete_ne; [done|]. intros E. congruence.
Qed.

Lemma sub_remove_wf reg t sub c :
  sub_wf reg t sub → reg !! ID c = Some c →
  sub_wf (delete (ID c) reg) t (sub_remove sub c).1.
Proof.
  intros [Hg Hu] Hc.
  assert (∀ g l, groups sub !! g = Some l → g ≠ Group c ∨ Group c = ""%string →
    Forall (λ c', Topic c' = t ∧ Group c' = g ∧ delete (ID c) reg !! ID c' = Some c') l) as Hother.
  { intros g l Hl Hor. destruct (Hg g l Hl) as (_ & Hgne & _ & Hf).
    eapply Forall_impl; [exact Hf|]. intros c' (? & Hgc & Hr). split_and!; try done.
    rewrite lookup_delete_ne; [done|]. intros E. destruct Hor; congruence. }
  unfold sub_remove, IsUniversal. simpl. case_bool_decide as Huc; [|case_decide as Hlen];
    split; simpl.
  - intros g l Hl. destruct (Hg g l Hl) as (? & ? & ? & _). split_and!; try done. apply Hother; auto.
  - intros i c' [Hne Hc']%lookup_delete_Some. destruct (Hu i c' Hc') as (? & ? & ? & ?).
    split_and!; try done. by rewrite lookup_delete_ne.
  - intros g l [Hne Hl]%lookup_delete_Some. destruct (Hg g l Hl) as (? & ? & ? & _).
    split_and!; try done. apply Hother; auto.
  - intros i c' Hc'. destruct (Hu i c' Hc') as (? & ? & ? & Hr). split_and!; try done.
    rewrite lookup_delete_ne; [done|]. intros E. congruence.
  - intros g l [[<- <-]|[Hne Hl]]%lookup_insert_Some.
    2: { destruct (Hg g l Hl) as (? & ? & ? & _). split_and!; try done. apply Hother; auto. }
    destruct (groups sub !! Group c) as [l|] eqn:El; simpl in *; [|done].
    destruct (Hg _ _ El) as (_ & Hgne & Hnd & Hf).
    split_and!; [by destruct (remove_first _ _)|done|by apply remove_first_NoDup|].
    rewrite Forall_forall in *. intros c' Hc'.
    pose proof (remove_first_not_in (ID c) _ Hnd) as Hni.
    destruct (Hf c' (remove_first_elem _ _ _ Hc')) as (? & ? & ?). split_and!; try done.
    rewrite lookup_delete_ne; [done|]. intros E. apply Hni.
    apply list_elem_of_fmap. eauto.
  - intros i c' Hc'. destruct (Hu i c' Hc') as (? & ? & ? & Hr). split_and!; try done.
    rewrite lookup_delete_ne; [done|]. intros E. congruence.
Qed.

Lemma in_sub_remove_other sub c c' :
  in_sub sub c' → ID c ≠ ID c' → in_sub (sub_remove sub c).1 c'.
Proof.
  unfold in_sub, sub_remove, IsUniversal. simpl. intros Hin Hne.
  destruct (decide (Group c' = ""%string)).
  { case_bool_decide; simpl; [by rewrite lookup_delete_ne|by case_decide]. }
  case_bool_decide; [done|]. case_decide as Hlen; simpl.
  - destruct Hin as (l & Hl & Hin). destruct (decide (Group c = Group c')) as [E|].
    + rewrite E, Hl in Hlen. simpl in Hlen.
      pose proof (remove_first_keeps (ID c) l c' Hin) as Hk.
      destruct (remove_first (ID c) l); [|done]. exfalso. by apply (not_elem_of_nil c'), Hk.
    + exists l. by rewrite lookup_delete_ne.
  - destruct Hin as (l & Hl & Hin). destruct (decide (Group c = Group c')) as [E|].
    + rewrite E, lookup_insert_eq, Hl. simpl. eexists. split; [done|].
      by apply remove_first_keeps.
    + exists l. by rewrite lookup_insert_ne.
Qed.

Lemma Unregister_inv id h : hub_inv h → hub_inv (Unregister id h).
Proof.
  intros [Hreg Hsub Hch]. unfold Unregister. destruct (byID h !! id) as [c|] eqn:Hc; [|done].
  destruct (Hreg id c Hc) as [Hid (sub & Ht & Hin)]. rewrite Ht.
  destruct (Hsub _ _ Ht) as [Hwf _].
  assert (byID h !! ID c = Some c) as Hc' by congruence.
  pose proof (sub_remove_wf _ _ _ c Hwf Hc') as Hwf'.
  assert (∀ i c', delete id (byID h) !! i = Some c' → Topic c' = Topic c →
            in_sub (sub_remove sub c).1 c') as Hkeep.
  { intros i c' [Hne Hi]%lookup_delete_Some E. apply Hreg in Hi as [Hi (sub' & Hs' & Hin')].
    rewrite E, Ht in Hs'. injection Hs' as <-. apply in_sub_remove_other; [done|congruence]. }
  destruct (sub_remove sub c) as [sub' empty] eqn:Er. simpl in *.
  assert (empty = sub_isEmpty sub') as He by (by unfold sub_remove in Er; injection Er as <- <-).
  rewrite <-Hid in *.
  split; [| |destruct empty; simpl; intros i j c1 c2 [_ H1]%lookup_delete_Some
              [_ H2]%lookup_delete_Some; by eapply Hch].
  - intros i c1 Hc1.
    assert (delete (ID c) (byID h) !! i = Some c1) as Hc1' by (by destruct empty).
    pose proof Hc1' as [Hne Hi]%lookup_delete_Some. apply Hreg in Hi as [Hi (s1 & Hs1 & Hin1)].
    split; [done|]. destruct (decide (Topic c1 = Topic c)) as [E|E].
    + pose proof (Hkeep _ _ Hc1' E) as Hk. destruct empty.
      * by rewrite (sub_isEmpty_false _ _ Hk) in He.
      * exists sub'. simpl. by rewrite E, lookup_insert_eq.
    + exists s1. destruct empty; simpl;
        [by rewrite lookup_delete_ne by done|by rewrite lookup_insert_ne by done].
  - intros t s1 Hs1. destruct empty; simpl in *.
    + apply lookup_delete_Some in Hs1 as [Hne Hs1]. destruct (Hsub _ _ Hs1).
      split; [by apply sub_wf_delete|done].
    + apply lookup_insert_Some in Hs1 as [[<- <-]|[Hne Hs1]]; [done|].
      destruct (Hsub _ _ Hs1). split; [by apply sub_wf_delete|done].
Qed.

(** ** Sends as deliveries *)
Lemma trySend_eq c msg tag h :
  trySend c msg tag h = if decide (has_room h c) then (deliver msg tag h c, true) else (h, false).
Proof.
  unfold trySend. destruct (decide (has_room h c)) as [Hr|Hr]; unfold has_room in Hr;
    destruct (chans h !! Ch c) as [ch|] eqn:E; try done.
  - rewrite decide_True by done. f_equal. unfold deliver, set_inFlight, set_chans. simpl. f_equal.
    apply map_eq. intros j. destruct (decide (Ch c = j)) as [<-|].
    + by rewrite lookup_insert_eq, lookup_alter_eq, E.
    + by rewrite lookup_insert_ne, lookup_alter_ne.
  - by rewrite decide_False.
Qed.

Lemma deliver_room msg tag h c c' :
  Ch c ≠ Ch c' → has_room (deliver msg tag h c) c' ↔ has_room h c'.
Proof. intros Hne. unfold has_room, deliver. simpl. by rewrite lookup_alter_ne. Qed.

Lemma deliver_all_room msg tag h cs c' :
  Ch c' ∉ Ch <$> cs → has_room (deliver_all msg tag h cs) c' ↔ has_room h c'.
Proof.
  unfold deliver_all. induction cs as [|c cs IH] in h |- *; simpl; [done|].
  rewrite not_elem_of_cons. intros [Hne Hn]. rewrite IH by done. by apply deliver_room.
Qed.

(** The consumers with room, whichever state the test is made in. *)
Lemma filter_room_ext h h' (cs : list ConsumerEntry) :
  (∀ c, c ∈ cs → has_room h c ↔ has_room h' c) →
  filter (has_room h) cs = filter (has_room h') cs.
Proof. apply filter_ext_elem. Qed.

Lemma deliver_filter msg tag h c (cs : list ConsumerEntry) :
  Ch c ∉ Ch <$> cs → filter (has_room (deliver msg tag h c)) cs = filter (has_room h) cs.
Proof.
  intros Hn. apply filter_room_ext. intros c' Hc'. apply deliver_room. intros E. apply Hn.
  rewrite E. by apply list_elem_of_fmap_2.
Qed.

Lemma send_universal_eq msg tag cs h :
  NoDup (Ch <$> cs) →
  send_universal cs msg tag h =
    (deliver_all msg tag h (filter (has_room h) cs), (λ _, ""%string) <$> filter (has_room h) cs).
Proof.
  induction cs as [|c cs IH] in h |- *; [done|]. rewrite fmap_cons, NoDup_cons. intros [Hn Hd].
  cbn [send_universal]. rewrite trySend_eq. rewrite filter_cons. case_decide as Hr.
  - rewrite IH by done. by rewrite deliver_filter.
  - by rewrite IH.
Qed.

(** Choosing a strategy state and delivering commute. *)
Lemma deliver_strategy msg tag s h c :
  set_strategy s (deliver msg tag h c) = deliver msg tag (set_strategy s h) c.
Proof. done. Qed.

Lemma send_groups_eq msg tag gs h :
  let '(s', ps) := pick_all (strategy h) gs msg in
  NoDup (Ch <$> ps) → Forall (λ p : string * list ConsumerEntry, Forall (λ c, Group c = p.1) p.2) gs →
  send_groups gs msg tag h =
    (deliver_all msg tag (set_strategy s' h) (filter (has_room h) ps), Group <$> filter (has_room h) ps).
Proof.
  induction gs as [|[gid cs] gs IH] in h |- *; simpl.
  { intros _ _. by destruct h. }
  pose proof (Select_spec (strategy h) cs msg) as Hsel.
  destruct (Select (strategy h) cs msg) as [s1 o]. simpl in Hsel.
  destruct (pick_all s1 gs msg) as [s2 ps] eqn:Ep.
  destruct o as [c|]; simpl.
  2: { specialize (IH (set_strategy s1 h)). simpl in IH. rewrite Ep in IH.
       intros Hd [_ Hf]%Forall_cons. by apply IH. }
  rewrite NoDup_cons. intros [Hn Hd] [Hg Hf]%Forall_cons. simpl in Hg.
  rewrite Forall_forall in Hg. specialize (Hg c Hsel).
  rewrite trySend_eq, filter_cons.
  change (decide (has_room (set_strategy s1 h) c)) with (decide (has_room h c)).
  destruct (decide (has_room h c)) as [Hr|Hr].
  - specialize (IH (deliver msg tag (set_strategy s1 h) c)). simpl in IH. rewrite Ep in IH.
    rewrite IH by done. rewrite deliver_filter by done.
    change (filter (has_room (set_strategy s1 h)) ps) with (filter (has_room h) ps).
    rewrite fmap_cons, Hg. done.
  - specialize (IH (set_strategy s1 h)). simpl in IH. rewrite Ep in IH. by rewrite IH.
Qed.

Lemma pick_all_spec s gs msg :
  Forall (λ p : string * list ConsumerEntry, p.2 ≠ [] ∧ Forall (λ c, Group c = p.1) p.2) gs →
  Group <$> (pick_all s gs msg).2 = gs.*1 ∧ Forall2 (λ c p, c ∈ p.2) (pick_all s gs msg).2 gs.
Proof.
  intros Hf. revert s. induction Hf as [|[g cs] gs [Hne Hg] Hf IH]; intros s; simpl; [done|].
  pose proof (Select_spec s cs msg) as Hsel. destruct (Select s cs msg) as [s1 [c|]]; [|done].
  simpl in *. specialize (IH s1). destruct (pick_all s1 gs msg) as [s2 ps]. simpl in *.
  destruct IH as [IH1 IH2]. rewrite Forall_forall in Hg. split; [|by constructor].
  f_equal; [by apply Hg|done].
Qed.

(** The consumers one message is offered to: every universal consumer of the
    topic and exactly one consumer of every group. *)
Record targets (h : Hub) (topic : string) (ts : list ConsumerEntry) : Prop := {
  tg_reg : Forall (λ c, byID h !! ID c = Some c ∧ Topic c = topic) ts;
  tg_nodup : NoDup ts;
  tg_universal : ∀ c, byID h !! ID c = Some c → Topic c = topic → Group c = ""%string → c ∈ ts;
  tg_group : ∀ c, byID h !! ID c = Some c → Topic c = topic → Group c ≠ ""%string →
    ∃ c', c' ∈ ts ∧ Group c' = Group c ∧
      ∀ c'', c'' ∈ ts → Group c'' = Group c → c'' = c';
}.

Lemma targets_NoDup_ID h topic ts : targets h topic ts → NoDup (ID <$> ts).
Proof.
  intros [Hr Hd _ _]. apply NoDup_fmap_2_strong; [|done]. rewrite Forall_forall in Hr.
  intros c c' Hc Hc' E. destruct (Hr _ Hc), (Hr _ Hc'). congruence.
Qed.

Lemma targets_NoDup_Ch h topic ts : hub_inv h → targets h topic ts → NoDup (Ch <$> ts).
Proof.
  intros Hi [Hr Hd _ _]. apply NoDup_fmap_2_strong; [|done]. rewrite Forall_forall in Hr.
  intros c c' Hc Hc' E. destruct (Hr _ Hc), (Hr _ Hc'). by eapply (hi_chan _ Hi).
Qed.

(** The groups and the universal consumers of a subscription, in whatever
    order they are visited, give targets. *)
Lemma targets_intro h topic sub gs us ps :
  hub_inv h → topics h !! topic = Some sub →
  gs ≡ₚ map_to_list (groups sub) → us ≡ₚ (map_to_list (universal sub)).*2 →
  Group <$> ps = gs.*1 → Forall2 (λ c (p : string * list ConsumerEntry), c ∈ p.2) ps gs →
  targets h topic (ps ++ us).
Proof.
  intros Hi Ht Hgs Hus Hg Hf. destruct (hi_sub _ Hi _ _ Ht) as [[Hsg Hsu] _].
  assert (∀ g l, (g, l) ∈ gs ↔ groups sub !! g = Some l) as Hgs'
    by (intros g l; by rewrite Hgs, elem_of_map_to_list).
  assert (∀ c, c ∈ us ↔ universal sub !! ID c = Some c) as Hus'.
  { intros c. rewrite Hus, list_elem_of_fmap. split.
    - intros ([i c'] & -> & Hc%elem_of_map_to_list). simpl.
      by destruct (Hsu _ _ Hc) as (-> & _).
    - intros Hc. exists (ID c, c). by rewrite elem_of_map_to_list. }
  assert (∀ c, c ∈ ps → ∃ l, groups sub !! Group c = Some l ∧ c ∈ l) as Hps.
  { intros c Hc. apply list_elem_of_lookup in Hc as [n Hn].
    destruct (Forall2_lookup_l _ _ _ _ _ Hf Hn) as ([g l] & Hg' & Hin).
    assert (groups sub !! g = Some l) as Hl by (apply Hgs'; by eapply list_elem_of_lookup_2).
    destruct (Hsg _ _ Hl) as (_ & _ & _ & Hall). rewrite Forall_forall in Hall.
    destruct (Hall _ Hin) as (_ & <- & _). eauto. }
  assert (NoDup (Group <$> ps)) as Hdg by (rewrite Hg, Hgs; apply NoDup_fst_map_to_list).
  assert (∀ c, c ∈ ps → Group c ≠ ""%string) as Hne.
  { intros c (l & Hl & _)%Hps. by destruct (Hsg _ _ Hl) as (_ & ? & _). }
  assert (∀ c, c ∈ us → Group c = ""%string) as Hue.
  { intros c Hc%Hus'. by destruct (Hsu _ _ Hc) as (_ & _ & ? & _). }
  split.
  - apply Forall_forall. intros c [Hc|Hc]%elem_of_app.
    + destruct (Hps _ Hc) as (l & Hl & Hin). destruct (Hsg _ _ Hl) as (_ & _ & _ & Hall).
      rewrite Forall_forall in Hall. by destruct (Hall _ Hin) as (? & _ & ?).
    + apply Hus' in Hc. by destruct (Hsu _ _ Hc) as (_ & ? & _ & ?).
  - apply NoDup_app. split_and!; [by eapply NoDup_fmap_1|..].
    + intros c Hc Hc'. by destruct (Hne _ Hc (Hue _ Hc')).
    + rewrite Hus. apply (NoDup_fmap_1 ID). rewrite <-list_fmap_compose.
      erewrite (list_fmap_ext _ fst); [apply NoDup_fst_map_to_list|].
      intros n [i c] Hn%list_elem_of_lookup_2%elem_of_map_to_list. simpl.
      by destruct (Hsu _ _ Hn) as (-> & _).
  - intros c Hc Htc Hgc. apply elem_of_app. right. apply Hus'.
    destruct (hi_reg _ Hi _ _ Hc) as [_ (sub' & Hs' & Hin)]. rewrite Htc, Ht in Hs'.
    injection Hs' as <-. unfold in_sub in Hin. by rewrite decide_True in Hin.
  - intros c Hc Htc Hgc. destruct (hi_reg _ Hi _ _ Hc) as [_ (sub' & Hs' & Hin)].
    rewrite Htc, Ht in Hs'. injection Hs' as <-. unfold in_sub in Hin.
    rewrite decide_False in Hin by done. destruct Hin as (l & Hl & _).
    assert (Group c ∈ Group <$> ps) as (c' & Hgc' & Hc')%list_elem_of_fmap.
    { rewrite Hg. apply list_elem_of_fmap. exists (Group c, l). by rewrite Hgs'. }
    exists c'. split_and!; [apply elem_of_app; by left|done|].
    intros c'' [Hc''|Hc'']%elem_of_app Hg''; [|by rewrite Hue in Hg'' by done].
    eapply (NoDup_fmap_inj_on Group); [exact Hdg|done|done|congruence].
Qed.

(** A dispatch is a delivery to the targets with room. *)
Lemma DispatchToTopic_targets topic msg tag h :
  hub_inv h →
  ∃ ts s' n, targets h topic ts ∧
    DispatchToTopic topic msg tag h =
      (deliver_all msg tag (set_strategy s' (add_ticks n h)) (filter (has_room h) ts),
       Group <$> filter (has_room h) ts).
Proof.
  intros Hi. unfold DispatchToTopic, groupSnapshot, universalSnapshot. destruct (topics h !! topic) as [sub|] eqn:Ht.
  2: { exists [], (strategy h), 0%nat. split.
       - split; [constructor|constructor|..];
           intros c Hc Htc; destruct (hi_reg _ Hi _ _ Hc) as [_ (? & ? & _)]; congruence.
       - simpl. unfold set_strategy, add_ticks. simpl. by rewrite Nat.add_0_r; destruct h. }
  set (gs := range_map (h_tick h) (groups sub)).
  set (us := (range_map (S (h_tick h)) (universal sub)).*2).
  destruct (hi_sub _ Hi _ _ Ht) as [[Hsg _] _].
  assert (gs ≡ₚ map_to_list (groups sub)) as Hgs by apply range_map_perm.
  assert (us ≡ₚ (map_to_list (universal sub)).*2) as Hus by (unfold us; by rewrite range_map_perm).
  assert (Forall (λ p : string * list ConsumerEntry, p.2 ≠ [] ∧ Forall (λ c, Group c = p.1) p.2) gs)
    as Hf.
  { apply Forall_forall. intros [g l]. rewrite Hgs, elem_of_map_to_list. intros Hl.
    destruct (Hsg _ _ Hl) as (? & _ & _ & Hall). split; [done|].
    eapply Forall_impl; [exact Hall|]. simpl. tauto. }
  pose proof (pick_all_spec (strategy h) gs msg Hf) as [Hpg Hpf].
  pose proof (send_groups_eq msg tag gs (add_ticks 2 h)) as Hsend.
  change (strategy (add_ticks 2 h)) with (strategy h) in Hsend.
  destruct (pick_all (strategy h) gs msg) as [s' ps]. simpl in Hpg, Hpf.
  pose proof (targets_intro _ _ _ _ _ _ Hi Ht Hgs Hus Hpg Hpf) as Htg.
  pose proof (targets_NoDup_Ch _ _ _ Hi Htg) as Hd. rewrite fmap_app in Hd.
  apply NoDup_app in Hd as (Hd1 & Hd2 & Hd3).
  exists (ps ++ us), s', 2%nat. split; [done|].
  rewrite Hsend; [|done|eapply Forall_impl; [exact Hf|]; by intros p [_ ?]].
  change (filter (has_room (add_ticks 2 h)) ps) with (filter (has_room h) ps).
  rewrite send_universal_eq by done.
  rewrite (filter_room_ext _ h us).
  2: { intros c Hc. rewrite deliver_all_room; [done|]. intros Hin.
       apply (Hd2 (Ch c)); [|by apply list_elem_of_fmap_2].
       apply list_elem_of_fmap in Hin as (c' & -> & [_ Hc']%list_elem_of_filter).
       by apply list_elem_of_fmap_2. }
  rewrite filter_app, fmap_app. unfold deliver_all. rewrite foldl_app. do 2 f_equal.
  apply list_fmap_ext. intros n c [_ Hc]%list_elem_of_lookup_2%list_elem_of_filter.
  symmetry. destruct (hi_sub _ Hi _ _ Ht) as [[_ Hsu] _]. rewrite Hus in Hc.
  apply list_elem_of_fmap in Hc as ([i c'] & -> & Hc%elem_of_map_to_list).
  by destruct (Hsu _ _ Hc) as (_ & _ & ? & _).
Qed.

(** What a delivery changes, channel by channel and consumer by consumer. *)
Lemma deliver_all_chans msg tag h cs ch :
  NoDup (Ch <$> cs) →
  chans (deliver_all msg tag h cs) !! ch =
    if decide (ch ∈ Ch <$> cs) then push msg <$> chans h !! ch else chans h !! ch.
Proof.
  unfold deliver_all. induction cs as [|c cs IH] in h |- *; simpl; [done|].
  rewrite NoDup_cons. intros [Hn Hd]. rewrite IH by done. simpl.
  destruct (decide (ch = Ch c)) as [->|Hne].
  - rewrite decide_False by done. rewrite decide_True by left. by rewrite lookup_alter_eq.
  - rewrite lookup_alter_ne by done. apply decide_ext. rewrite elem_of_cons. tauto.
Qed.

Lemma deliver_all_inFlight msg tag h cs i :
  NoDup (ID <$> cs) →
  default [] (inFlightByConsumer (deliver_all msg tag h cs) !! i) =
    default [] (inFlightByConsumer h !! i) ++ (if decide (i ∈ ID <$> cs) then [tag] else []).
Proof.
  unfold deliver_all. induction cs as [|c cs IH] in h |- *; simpl; [by rewrite app_nil_r|].
  rewrite NoDup_cons. intros [Hn Hd]. rewrite IH by done. simpl.
  destruct (decide (i = ID c)) as [->|Hne].
  - rewrite decide_False by done. rewrite decide_True by left.
    by rewrite lookup_insert_eq, app_nil_r.
  - rewrite lookup_insert_ne by done. f_equal. apply decide_ext. rewrite elem_of_cons. tauto.
Qed.

Lemma deliver_all_frame msg tag h cs :
  topics (deliver_all msg tag h cs) = topics h ∧ byID (deliver_all msg tag h cs) = byID h ∧
  strategy (deliver_all msg tag h cs) = strategy h.
Proof.
  unfold deliver_all. induction cs as [|c cs IH] in h |- *; simpl; [done|].
  exact (IH (deliver msg tag h c)).
Qed.

(** The invariant only speaks of the registrations. *)
Lemma hub_inv_ext h h' : topics h' = topics h → byID h' = byID h → hub_inv h → hub_inv h'.
Proof. intros Et Eb [Hr Hs Hc]. split; rewrite ?Et, ?Eb; done. Qed.

Lemma DispatchToTopic_frame topic msg tag h :
  topics (DispatchToTopic topic msg tag h).1 = topics h ∧
  byID (DispatchToTopic topic msg tag h).1 = byID h.
Proof.
  assert (∀ us h0, topics (send_universal us msg tag h0).1 = topics h0 ∧
                   byID (send_universal us msg tag h0).1 = byID h0) as Hu.
  { induction us as [|c us IH]; intros h0; simpl; [done|]. rewrite trySend_eq. case_decide;
      [specialize (IH (deliver msg tag h0 c))|specialize (IH h0)];
      by destruct (send_universal us msg tag _). }
  assert (∀ gs h0, topics (send_groups gs msg tag h0).1 = topics h0 ∧
                   byID (send_groups gs msg tag h0).1 = byID h0) as Hg.
  { induction gs as [|[g cs] gs IH]; intros h0; simpl; [done|].
    destruct (Select _ _ _) as [s1 [c|]]; [|exact (IH (set_strategy s1 h0))]. rewrite trySend_eq. case_decide;
      [specialize (IH (deliver msg tag (set_strategy s1 h0) c))|specialize (IH (set_strategy s1 h0))];
      by destruct (send_groups gs msg tag _). }
  unfold DispatchToTopic, groupSnapshot, universalSnapshot. destruct (topics h !! topic) as [sub|]; [|done].
  match goal with |- context [send_groups ?gs _ _ ?h0] => specialize (Hg gs h0);
    destruct (send_groups gs msg tag h0) as [h1 sent1] end.
  match goal with |- context [send_universal ?us _ _ ?h0] => specialize (Hu us h0);
    destruct (send_universal us msg tag h0) as [h2 sent2] end.
  simpl in *. destruct Hu as [-> ->], Hg as [-> ->]. done.
Qed.

(** ** What a client of the hub may rely on *)

(** Channels only grow, by messages that satisfy [P]. *)
Definition grows (P : QueueMessage → Prop) (h h' : Hub) : Prop :=
  ∀ ch, match chans h !! ch with
        | Some c => ∃ new, chans h' !! ch = Some (mkChan (ch_buf c ++ new) (ch_cap c)) ∧ Forall P new
        | None => chans h' !! ch = None
        end.

Lemma grows_refl P h : grows P h h.
Proof.
  intros ch. destruct (chans h !! ch) as [[buf cap]|]; [|done]. exists []. by rewrite app_nil_r.
Qed.

Lemma grows_trans P h1 h2 h3 : grows P h1 h2 → grows P h2 h3 → grows P h1 h3.
Proof.
  intros H12 H23 ch. specialize (H12 ch). specialize (H23 ch).
  destruct (chans h1 !! ch) as [c|].
  - destruct H12 as (n1 & E1 & F1). rewrite E1 in H23. destruct H23 as (n2 & E2 & F2).
    exists (n1 ++ n2). simpl in *. rewrite E2, app_assoc. split; [done|by apply Forall_app].
  - by rewrite H12 in H23.
Qed.

Lemma grows_impl (P Q : QueueMessage → Prop) h h' :
  (∀ q, P q → Q q) → grows P h h' → grows Q h h'.
Proof.
  intros HPQ Hg ch. specialize (Hg ch). destruct (chans h !! ch); [|done].
  destruct Hg as (new & E & F). exists new. split; [done|]. by eapply Forall_impl.
Qed.

Lemma trySend_grows c msg tag h : grows (.= msg) h (trySend c msg tag h).1.
Proof.
  rewrite trySend_eq. case_decide; [|apply grows_refl]. intros ch. simpl.
  destruct (chans h !! ch) as [[buf cap]|] eqn:E; destruct (decide (ch = Ch c)) as [->|].
  - rewrite lookup_alter_eq, E. exists [msg]. split; [done|by repeat constructor].
  - rewrite lookup_alter_ne, E by done. exists []. rewrite app_nil_r. split; [done|constructor].
  - by rewrite lookup_alter_eq, E.
  - by rewrite lookup_alter_ne.
Qed.

Lemma DispatchToTopic_grows topic msg tag h :
  grows (.= msg) h (DispatchToTopic topic msg tag h).1.
Proof.
  assert (∀ us h0, grows (.= msg) h0 (send_universal us msg tag h0).1) as Hu.
  { induction us as [|c us IH]; intros h0; simpl; [apply grows_refl|].
    pose proof (trySend_grows c msg tag h0) as Ht. destruct (trySend c msg tag h0) as [h1 ok].
    specialize (IH h1). destruct (send_universal us msg tag h1). by eapply grows_trans. }
  assert (∀ gs h0, grows (.= msg) h0 (send_groups gs msg tag h0).1) as Hg.
  { induction gs as [|[g cs] gs IH]; intros h0; simpl; [apply grows_refl|].
    destruct (Select _ _ _) as [s1 [c|]]; [|exact (IH (set_strategy s1 h0))].
    pose proof (trySend_grows c msg tag (set_strategy s1 h0)) as Ht.
    destruct (trySend c msg tag (set_strategy s1 h0)) as [h1 ok].
    specialize (IH h1). destruct (send_groups gs msg tag h1).
    eapply grows_trans; [exact Ht|exact IH]. }
  unfold DispatchToTopic, groupSnapshot, universalSnapshot. destruct (topics h !! topic) as [sub|]; [|apply grows_refl].
  match goal with |- context [send_groups ?gs _ _ ?h0] => specialize (Hg gs h0);
    destruct (send_groups gs msg tag h0) as [h1 sent1] end.
  match goal with |- context [send_universal ?us _ _ ?h0] => specialize (Hu us h0);
    destruct (send_universal us msg tag h0) as [h2 sent2] end.
  eapply grows_trans; [exact Hg|exact Hu].
Qed.

(** A universal consumer with room receives every message of its topic. *)
Lemma DispatchToTopic_universal topic msg tag h c buf cap :
  hub_inv h → byID h !! ID c = Some c → Topic c = topic → Group c = ""%string →
  chans h !! Ch c = Some (mkChan buf cap) → (length buf < cap)%nat →
  let r := DispatchToTopic topic msg tag h in
  hub_inv r.1 ∧ byID r.1 = byID h ∧ (0 < length r.2)%nat ∧
  chans r.1 !! Ch c = Some (mkChan (buf ++ [msg]) cap).
Proof.
  intros Hi Hc Ht Hg Hch Hroom r.
  pose proof (DispatchToTopic_frame topic msg tag h) as [Et Eb]. fold r in Et, Eb.
  destruct (DispatchToTopic_targets topic msg tag h Hi) as (ts & s' & n & Htg & E). fold r in E.
  assert (c ∈ filter (has_room h) ts) as Hin.
  { apply list_elem_of_filter. split; [|by apply (tg_universal _ _ _ Htg)].
    unfold has_room. by rewrite Hch. }
  split_and!; [by apply (hub_inv_ext h)|done|..].
  - rewrite E. simpl. rewrite length_fmap. destruct (filter _ ts); [by apply elem_of_nil in Hin|].
    simpl. lia.
  - rewrite E. simpl. rewrite deliver_all_chans.
    + rewrite decide_True by (by apply list_elem_of_fmap_2). simpl. by rewrite Hch.
    + by apply NoDup_fmap_filter, (targets_NoDup_Ch h topic).
Qed.

(** ** Reachable hubs

    What the server does with a hub.  [Subscribe] makes a new id and a new
    channel of capacity 1024 for every stream. *)
Definition open_chan (ch : nat) (cap : nat) (h : Hub) : Hub := set_chans (<[ch := mkChan [] cap]>) h.

Inductive hub_step : Hub → Hub → Prop :=
  | step_register h id topic groupID ch :
      byID h !! id = None → chans h !! ch = None → topic ≠ ""%string →
      hub_step h (Register id topic groupID ch (open_chan ch 1024 h))
  | step_unregister h id : hub_step h (Unregister id h)
  | step_dispatch h topic msg tag : hub_step h (DispatchToTopic topic msg tag h).1
  | step_ack h id key : hub_step h (RemoveInFlightForConsumer id key h)
  | step_topics h : hub_step h (ActiveTopics h).1
  | step_groups h topic : hub_step h (GroupsForTopic topic h).1
  | step_recv h ch : hub_step h (recv ch h).1.

(** Registered consumers own open channels. *)
Definition chans_open (h : Hub) : Prop :=
  ∀ i c, byID h !! i = Some c → is_Some (chans h !! Ch c).

Lemma Unregister_frame id h :
  byID (Unregister id h) = delete id (byID h) ∧ chans (Unregister id h) = chans h ∧
  inFlightByConsumer (Unregister id h) =
    if decide (is_Some (byID h !! id)) then delete id (inFlightByConsumer h)
    else inFlightByConsumer h.
Proof.
  unfold Unregister. destruct (byID h !! id) as [c|] eqn:E.
  - rewrite decide_True by eauto. destruct (topics h !! Topic c) as [sub|]; [|done].
    by destruct (sub_remove sub c) as [sub' []].
  - rewrite decide_False by (by intros [? ?]). by rewrite delete_id.
Qed.

Lemma DispatchToTopic_dom topic msg tag h ch :
  hub_inv h → is_Some (chans h !! ch) →
  is_Some (chans (DispatchToTopic topic msg tag h).1 !! ch).
Proof.
  intros Hi Hc. destruct (DispatchToTopic_targets topic msg tag h Hi) as (ts & s' & n & Htg & ->).
  simpl. rewrite deliver_all_chans.
  - case_decide; [by apply fmap_is_Some|done].
  - by apply NoDup_fmap_filter, (targets_NoDup_Ch h topic).
Qed.

Lemma hub_step_inv h h' :
  hub_step h h' → hub_inv h ∧ chans_open h → hub_inv h' ∧ chans_open h'.
Proof.
  intros Hs [Hi Ho]. destruct Hs as [h id topic g ch Hid Hch Ht|h id|h topic msg tag|h id key|h|h topic|h ch].
  - split.
    + apply Register_inv; [by apply (hub_inv_ext h)|done|]. simpl. intros i c Hc E.
      destruct (Ho i c Hc) as [x Hx]. congruence.
    + intros i c Hc. simpl in Hc |- *. apply lookup_insert_Some in Hc as [[<- <-]|[_ Hc]]; simpl;
        [by rewrite lookup_insert_eq|]. apply lookup_insert_is_Some'. right. by eapply Ho.
  - split; [by apply Unregister_inv|]. unfold chans_open.
    destruct (Unregister_frame id h) as (-> & -> & _). intros i c [_ Hc]%lookup_delete_Some.
    by eapply Ho.
  - destruct (DispatchToTopic_frame topic msg tag h) as [Et Eb]. split.
    + by apply (hub_inv_ext h).
    + unfold chans_open. rewrite Eb. intros i c Hc. apply DispatchToTopic_dom; [done|by eapply Ho].
  - unfold RemoveInFlightForConsumer. case_split_eq; (split; [by apply (hub_inv_ext h)|done]).
  - split; [by apply (hub_inv_ext h)|done].
  - unfold GroupsForTopic. case_split_eq; (split; [by apply (hub_inv_ext h)|done]).
  - unfold recv. destruct (chans h !! ch) as [[[|m buf] cap]|] eqn:E; (split; [by apply (hub_inv_ext h)|]).
    + done.
    + intros i c Hc. simpl. apply lookup_insert_is_Some'. right. by eapply Ho.
    + done.
Qed.

Lemma hub_init_inv s : hub_inv (NewHub s) ∧ chans_open (NewHub s).
Proof.
  split; [split|]; simpl; intros *; rewrite ?lookup_empty; try done.
Qed.

Lemma reachable_inv s h : rtc hub_step (NewHub s) h → hub_inv h ∧ chans_open h.
Proof.
  intros Hr. pattern h. eapply rtc_ind_r; [apply hub_init_inv| |exact Hr].
  intros x y _ Hstep Hx. by eapply hub_step_inv.
Qed.

(** ** Properties *)

(** C23. In every reachable hub the indexes agree: a consumer is registered
    under its id exactly when it stands in its topic's subscription, in the
    group it asked for; no two consumers share a channel, and every registered
    consumer's channel is open.  A topic is active exactly when it has a
    consumer, so the dispatcher visits the topics that need it and no others. *)
Theorem hub_reachable_consistent s h :
  rtc hub_step (NewHub s) h →
  (∀ c, byID h !! ID c = Some c ↔ ∃ sub, topics h !! Topic c = Some sub ∧ in_sub sub c) ∧
  (∀ c c', byID h !! ID c = Some c → byID h !! ID c' = Some c' → Ch c = Ch c' → c = c') ∧
  (∀ c, byID h !! ID c = Some c → is_Some (chans h !! Ch c)) ∧
  (∀ t, t ∈ (ActiveTopics h).2 ↔ ∃ c, byID h !! ID c = Some c ∧ Topic c = t) ∧
  (HasConsumers h = true ↔ (ActiveTopics h).2 ≠ []).
Proof.
  intros [Hi Ho]%reachable_inv.
  assert (∀ t, t ∈ (ActiveTopics h).2 ↔ ∃ c, byID h !! ID c = Some c ∧ Topic c = t) as Hact.
  { intros t. simpl. rewrite range_map_perm. split.
    - intros ([t' sub] & -> & Hs%elem_of_map_to_list)%list_elem_of_fmap. simpl.
      destruct (hi_sub _ Hi _ _ Hs) as [Hwf He].
      destruct (sub_has_entry _ _ _ Hwf He) as (c & _ & ? & ?). eauto.
    - intros (c & Hc & <-). destruct (hi_reg _ Hi _ _ Hc) as [_ (sub & Hs & _)].
      apply list_elem_of_fmap. exists (Topic c, sub). by rewrite elem_of_map_to_list. }
  split_and!; [|..|exact Hact|].
  - intros c. split; [intros Hc; by apply (hi_reg _ Hi) in Hc as [_ ?]|]. intros (sub & Hs & Hin).
    destruct (hi_sub _ Hi _ _ Hs) as [[Hg Hu] _]. unfold in_sub in Hin. case_decide.
    + by destruct (Hu _ _ Hin) as (_ & _ & _ & ?).
    + destruct Hin as (l & Hl & Hc). destruct (Hg _ _ Hl) as (_ & _ & _ & Hf).
      rewrite Forall_forall in Hf. by destruct (Hf _ Hc) as (_ & _ & ?).
  - intros. by eapply (hi_chan _ Hi).
  - intros c Hc. by eapply Ho.
  - unfold HasConsumers. rewrite bool_decide_eq_true. split.
    + intros Hsz E. assert (byID h ≠ ∅) as Hne by (intros E'; rewrite E', map_size_empty in Hsz; lia).
      apply map_choose in Hne as (i & c & Hc). destruct (hi_reg _ Hi _ _ Hc) as [Hid _].
      apply (not_elem_of_nil (Topic c)). rewrite <-E. apply Hact. exists c. by rewrite Hid.
    + intros Hne. destruct ((ActiveTopics h).2) as [|t ts]; [done|].
      destruct (proj1 (Hact t)) as (c & Hc & _); [by left|].
      assert (size (byID h) ≠ 0)%nat; [|lia]. rewrite map_size_empty_iff. intros E.
      by rewrite E, lookup_empty in Hc.
Qed.

(** C24. Delivery semantics of one dispatch: the message is offered to every
    universal consumer of the topic and to exactly one consumer of every group.
    An offered consumer whose channel has room gets it once, at the end of its
    channel, with the tag recorded as in flight; nobody else is touched.  The
    returned list names the groups of those who got it. *)
Theorem dispatch_delivery topic msg tag h h' sent :
  hub_inv h → DispatchToTopic topic msg tag h = (h', sent) →
  ∃ ts, targets h topic ts ∧ sent = Group <$> filter (has_room h) ts ∧
    byID h' = byID h ∧ topics h' = topics h ∧
    ∀ c, byID h !! ID c = Some c →
      let got := c ∈ ts ∧ has_room h c in
      chans h' !! Ch c = (if decide got then push msg <$> chans h !! Ch c else chans h !! Ch c) ∧
      default [] (inFlightByConsumer h' !! ID c) =
        default [] (inFlightByConsumer h !! ID c) ++ (if decide got then [tag] else []).
Proof.
  intros Hi Hd. destruct (DispatchToTopic_targets topic msg tag h Hi) as (ts & s' & n & Htg & E).
  rewrite Hd in E. injection E as -> ->. exists ts.
  set (rs := filter (has_room h) ts).
  pose proof (deliver_all_frame msg tag (set_strategy s' (add_ticks n h)) rs) as (Et & Eb & _).
  split_and!; [done..|]. intros c Hc got.
  pose proof (NoDup_fmap_filter _ (has_room h) _ (targets_NoDup_Ch _ _ _ Hi Htg)) as HdC.
  pose proof (NoDup_fmap_filter _ (has_room h) _ (targets_NoDup_ID _ _ _ Htg)) as HdI.
  pose proof (tg_reg _ _ _ Htg) as Hreg. rewrite Forall_forall in Hreg.
  assert (c ∈ rs ↔ got) as Hrs by (unfold rs, got; rewrite list_elem_of_filter; tauto).
  rewrite deliver_all_chans, deliver_all_inFlight by done. simpl. split.
  - apply decide_ext. rewrite <-Hrs, list_elem_of_fmap. split; [|eauto].
    intros (c' & E & Hc'). replace c with c'; [done|].
    apply list_elem_of_filter in Hc' as [_ Hc']. destruct (Hreg _ Hc') as [Hr' _].
    by eapply (hi_chan _ Hi).
  - f_equal. apply decide_ext. rewrite <-Hrs, list_elem_of_fmap. split; [|eauto].
    intros (c' & E & Hc'). replace c with c'; [done|].
    apply list_elem_of_filter in Hc' as [_ Hc']. destruct (Hreg _ Hc') as [Hr' _]. congruence.
Qed.

(** Unregistering a consumer removes every trace of it (index, topic,
    in-flight list) and nothing of the others: every other consumer stays
    registered, subscribed and keeps its in-flight list. *)
Theorem unregister_complete id h :
  hub_inv h →
  let h' := Unregister id h in
  byID h' !! id = None ∧
  (∀ t sub c, topics h' !! t = Some sub → in_sub sub c → ID c ≠ id) ∧
  (is_Some (byID h !! id) → inFlightByConsumer h' !! id = None) ∧
  (∀ c, byID h !! ID c = Some c → ID c ≠ id →
     byID h' !! ID c = Some c ∧ (∃ sub, topics h' !! Topic c = Some sub ∧ in_sub sub c) ∧
     inFlightByConsumer h' !! ID c = inFlightByConsumer h !! ID c).
Proof.
  intros Hi h'. pose proof (Unregister_inv id h Hi) as Hi'. fold h' in Hi'.
  destruct (Unregister_frame id h) as (Eb & _ & Ef). fold h' in Eb, Ef.
  split_and!.
  - rewrite Eb. apply lookup_delete_eq.
  - intros t sub c Ht Hin E.
    destruct (hi_sub _ Hi' _ _ Ht) as [[Hg Hu] _]. unfold in_sub in Hin.
    assert (byID h' !! ID c = Some c) as Hc.
    { case_decide; [by destruct (Hu _ _ Hin) as (_ & _ & _ & ?)|].
      destruct Hin as (l & Hl & Hc). destruct (Hg _ _ Hl) as (_ & _ & _ & Hf).
      rewrite Forall_forall in Hf. by destruct (Hf _ Hc) as (_ & _ & ?). }
    by rewrite Eb, E, lookup_delete_eq in Hc.
  - intros Hs. rewrite Ef, decide_True by done. apply lookup_delete_eq.
  - intros c Hc Hne.
    assert (byID h' !! ID c = Some c) as Hc' by (by rewrite Eb, lookup_delete_ne).
    split_and!; [done|by apply (hi_reg _ Hi') in Hc' as [_ ?]|].
    rewrite Ef. case_decide; [by rewrite lookup_delete_ne|done].
Qed.
End hub.

(** ** Round robin *)
#[local] Obligation Tactic := idtac.
#[local] Unset Program Cases.
#[export] Program Instance RoundRobinStrategy : DispatchStrategy := {|
  strat_t := rr_t;
  Select := rr_Select;
|}.
Next Obligation.
  intros s cs m. destruct cs as [|c0 cs]; [done|]. cbn [rr_Select snd].
  set (i := Z.to_nat _). assert (i < length (c0 :: cs))%nat as Hi.
  { unfold i, len. apply Nat2Z.inj_lt. rewrite Z2Nat.id by (apply Z.mod_pos_bound; simpl; lia).
    apply Z.mod_pos_bound. simpl. lia. }
  apply lookup_lt_is_Some in Hi as [c Hc]. rewrite Hc. by eapply list_elem_of_lookup_2.
Qed.

(** The consumers that [n] selections in a row pick from one group. *)
Fixpoint rr_run (n : nat) (s : rr_t) (cs : list ConsumerEntry) (m : QueueMessage)
    : rr_t * list ConsumerEntry :=
  match n with
  | O => (s, [])
  | S n' =>
      let '(s1, o) := rr_Select s cs m in
      let '(s2, l) := rr_run n' s1 cs m in
      (s2, option_list o ++ l)
  end.

(** The counter after a selection points at the next consumer. *)
Definition rr_next (s : rr_t) (cs : list ConsumerEntry) : Z :=
  match cs with [] => 0 | c :: _ => default 0 (next s !! GroupKey c) end.

Lemma rr_next_step s cs m :
  cs ≠ [] → 0 ≤ rr_next s cs < 2 ^ 64 - 1 →
  rr_next (rr_Select s cs m).1 cs = (rr_next s cs + 1) `mod` len cs.
Proof.
  intros Hne Hr. destruct cs as [|c cs]; simpl; [done|].
  rewrite lookup_insert_eq. simpl. simpl in Hr. by rewrite u64_small by (unfold is_u64; lia).
Qed.

Lemma rr_run_eq n s cs m :
  cs ≠ [] → 0 ≤ rr_next s cs < 2 ^ 64 - 1 → len cs < 2 ^ 63 →
  (rr_run n s cs m).2 =
    omap (λ i, cs !! Z.to_nat ((rr_next s cs + Z.of_nat i) `mod` len cs)) (seq 0 n).
Proof.
  intros Hne Hr Hl. revert s Hr. induction n as [|n IH]; intros s Hr; [done|].
  cbn [rr_run]. pose proof (rr_next_step s cs m Hne Hr) as Hn.
  destruct (rr_Select s cs m) as [s1 o] eqn:E. simpl in Hn.
  assert (o = cs !! Z.to_nat ((rr_next s cs + Z.of_nat 0) `mod` len cs)) as Ho.
  { change (Z.of_nat 0) with 0. rewrite Z.add_0_r. destruct cs; [done|by injection E as _ <-]. }
  assert (0 ≤ rr_next s1 cs < 2 ^ 64 - 1) as Hr1.
  { rewrite Hn. destruct cs as [|c cs]; [done|].
    pose proof (Z.mod_pos_bound (rr_next s (c :: cs) + 1) (len (c :: cs))
                  ltac:(unfold len; simpl; lia)). lia. }
  specialize (IH s1 Hr1). destruct (rr_run n s1 cs m) as [s2 l]. simpl in IH. subst l.
  rewrite omap_seq_S, <-Ho. cbn [snd]. f_equal. apply omap_ext. intros i.
  rewrite Hn, Zplus_mod_idemp_l. do 3 f_equal. lia.
Qed.

(** Round robin is fair: in a group of [n] consumers, [n] selections in a
    row pick every consumer exactly once, in a rotation of the group that
    starts where the previous selections stopped, whatever the counter was
    left at by a group of another size. *)
Theorem round_robin_fair s cs m :
  cs ≠ [] → 0 ≤ rr_next s cs < 2 ^ 64 - 1 → len cs < 2 ^ 63 →
  let k := Z.to_nat (rr_next s cs `mod` len cs) in
  (rr_run (length cs) s cs m).2 = drop k cs ++ take k cs ∧
  (rr_run (length cs) s cs m).2 ≡ₚ cs.
Proof.
  intros Hne Hr Hl k.
  assert (0 < len cs) as Hpos by (destruct cs; [done|unfold len; simpl; lia]).
  pose proof (Z.mod_pos_bound (rr_next s cs) (len cs) Hpos) as Hk.
  assert ((rr_run (length cs) s cs m).2 = drop k cs ++ take k cs) as E.
  { rewrite rr_run_eq by done. unfold len in *.
    replace (seq 0 (length cs)) with (seq 0 (length cs - k + k)) by (f_equal; unfold k; lia).
    rewrite seq_app, omap_app. f_equal.
    - rewrite (omap_lookup_seq cs _ k);
        [rewrite take_ge; [done|rewrite length_drop; lia]|unfold k; lia|].
      intros i Hi. f_equal. rewrite <-Zplus_mod_idemp_l, Z.mod_small; unfold k in *; lia.
    - rewrite (omap_lookup_seq cs _ 0); [by rewrite drop_0|unfold k; lia|].
      intros i Hi. f_equal. rewrite <-Zplus_mod_idemp_l.
      replace (rr_next s cs `mod` Z.of_nat (length cs) + Z.of_nat (0 + (length cs - k) + i))
        with (Z.of_nat i + 1 * Z.of_nat (length cs)) by (unfold k in *; lia).
      rewrite Z_mod_plus_full, Z.mod_small; unfold k in *; lia. }
  split; [done|]. rewrite E, (Permutation_app_comm (drop k cs)). by rewrite take_drop.
Qed.

(** ** Group keys that collide

    Two groups of two consumers on different topics, with one group key. *)
Definition col_a (id : string) (ch : nat) : ConsumerEntry := mkConsumerEntry id "a|b" "c" ch.
Definition col_b (id : string) (ch : nat) : ConsumerEntry := mkConsumerEntry id "a" "b|c" ch.

(** [n] rounds of a message for either topic; the consumers of the first group
    that were picked. *)
Fixpoint alternate (n : nat) (s : rr_t) (m : QueueMessage) : list ConsumerEntry :=
  match n with
  | O => []
  | S n' =>
      let '(s1, o) := rr_Select s [col_a "a1" 0; col_a "a2" 1] m in
      let '(s2, _) := rr_Select s1 [col_b "b1" 2; col_b "b2" 3] m in
      option_list o ++ alternate n' s2 m
  end.

(** The group key is not injective (topic "a|b" with group "c" and topic
    "a" with group "b|c" share one), so two groups can share a round-robin
    counter: when their topics alternate, one consumer of the group gets every
    message and the other one none. *)
Theorem group_key_collision_starves n m :
  GroupKey (col_a "a1" 0) = GroupKey (col_b "b1" 2) ∧
  alternate n NewRoundRobinStrategy m = replicate n (col_a "a1" 0).
Proof.
  split; [done|].
  assert (∀ s, default 0 (next s !! "a|b|c"%string) = 0 →
            alternate n s m = replicate n (col_a "a1" 0)) as H; [|by apply H].
  induction n as [|n IH]; intros s Hs; [done|]. cbn [alternate].
  change (rr_Select s [col_a "a1" 0; col_a "a2" 1] m) with
    (mkRR (<["a|b|c"%string := u64 (default 0 (next s !! "a|b|c"%string) + 1) `mod` 2]> (next s)),
     [col_a "a1" 0; col_a "a2" 1] !! Z.to_nat (default 0 (next s !! "a|b|c"%string) `mod` 2)).
  rewrite Hs. change (u64 (0 + 1) `mod` 2) with 1.
  change (rr_Select ?s1 [col_b "b1" 2; col_b "b2" 3] m) with
    (mkRR (<["a|b|c"%string := u64 (default 0 (next s1 !! "a|b|c"%string) + 1) `mod` 2]> (next s1)),
     [col_b "b1" 2; col_b "b2" 3] !! Z.to_nat (default 0 (next s1 !! "a|b|c"%string) `mod` 2)).
  cbn [next]. rewrite lookup_insert_eq. cbn [replicate]. f_equal. apply IH.
  cbn [next]. by rewrite lookup_insert_eq.
Qed.

(** ** A hub to run the theorems on *)
#[export] Program Instance key_order : MapRange := {| range_map A n m := map_to_list m |}.
Next Obligation. done. Qed.

Definition sample_msg : QueueMessage := mkQueueMessage "t" [] (of_str "k") 0 0.

Definition sample_hub : Hub :=
  Register "u" "t" "" 2 (open_chan 2 1024
    (Register "g2" "t" "g" 1 (open_chan 1 1024
      (Register "g1" "t" "g" 0 (open_chan 0 1024 (NewHub NewRoundRobinStrategy)))))).

Lemma sample_reachable : rtc hub_step (NewHub NewRoundRobinStrategy) sample_hub.
Proof.
  eapply rtc_l; [by apply (step_register _ "g1" "t" "g" 0)|].
  eapply rtc_l; [by apply (step_register _ "g2" "t" "g" 1)|].
  eapply rtc_l; [by apply (step_register _ "u" "t" "" 2)|]. apply rtc_refl.
Qed.

Lemma hub_reachable_consistent_witness : HasConsumers sample_hub = true.
Proof.
  destruct (@hub_reachable_consistent RoundRobinStrategy key_order NewRoundRobinStrategy sample_hub) as (_ & _ & _ & _ & H);
    [apply sample_reachable|]. apply H. vm_compute. congruence.
Defined.

Lemma dispatch_delivery_witness :
  let h' := (DispatchToTopic "t" sample_msg (of_str "k") sample_hub).1 in
  ∃ ts, targets sample_hub "t" ts ∧ byID h' = byID sample_hub.
Proof.
  destruct (dispatch_delivery "t" sample_msg (of_str "k") sample_hub _ _
              (proj1 (reachable_inv _ _ sample_reachable)) (surjective_pairing _))
    as (ts & Ht & _ & Hb & _). eauto.
Defined.

Lemma unregister_complete_witness : byID (Unregister "g1" sample_hub) !! "g1"%string = None.
Proof.
  exact (proj1 (unregister_complete "g1" sample_hub (proj1 (reachable_inv _ _ sample_reachable)))).
Defined.

Lemma round_robin_fair_witness :
  let cs := [col_a "a1" 0; col_a "a2" 1; col_a "a3" 2] in
  (rr_run 3 (mkRR {["a|b|c"%string := 7]}) cs sample_msg).2 ≡ₚ cs.
Proof.
  refine (proj2 (round_robin_fair (mkRR {["a|b|c"%string := 7]})
                   [col_a "a1" 0; col_a "a2" 1; col_a "a3" 2] sample_msg _ _ _)); by vm_compute.
Defined.
