(* ===== verification/Deleter.v ===== *)
(** * The batched deleter ([src/internal/dispatcher/deleter.go])

    Acknowledged and expired keys wait in [pending] and are flushed as one
    batch through a [DeleteBackend].  The deleter is proved against the
    interface; the direct backend (standalone) and the Raft backend implement
    it. *)
From stdpp Require Import prelude gmap strings.
From S2P Require Import Prelude Bytes Storage Pebble Repository EventCommands EventStateMachine.
Local Open Scope Z_scope.

(** The contents without the keys. *)
Definition without (m : gmap bytes bytes) (keys : list bytes) : gmap bytes bytes :=
  filter (λ p, p.1 ∉ keys) m.

(** A slice of keys that exists: its headers fit the address space. *)
Definition fits (keys : list bytes) : Prop := len keys * sizeof_slice ≤ maxAlloc.

(** What the interface promises: on success exactly the keys are gone.  On an
    error nothing may be lost: the store is unchanged or, when the outcome of a
    proposal is unknown, the keys are gone. *)
Class DeleteBackend := {
  be_t : Type;
  be_contents : be_t → gmap bytes bytes;
  DeleteKeys : be_t → list bytes → be_t * option error;
  (** Keys of the bookkeeping of the backend itself. *)
  be_private : bytes → Prop;
  DeleteKeys_ok be keys be' :
    fits keys → DeleteKeys be keys = (be', None) →
    ∀ k, ¬ be_private k → be_contents be' !! k = without (be_contents be) keys !! k;
  DeleteKeys_err be keys be' e :
    fits keys → DeleteKeys be keys = (be', Some e) →
    be_contents be' = be_contents be ∨
    ∀ k, ¬ be_private k → be_contents be' !! k = without (be_contents be) keys !! k;
}.

Section deleter.
Context `{DeleteBackend}.

Record Deleter := mkDeleter {
  backend : be_t;
  pending : list bytes;
}.

Definition NewDeleter (be : be_t) : Deleter := mkDeleter be [].

Definition MarkDeleted (key : bytes) (d : Deleter) : Deleter :=
  mkDeleter (backend d) (pending d ++ [key]).

(** Returns the keys handed to the OnDelete callback. *)
Definition flush (d : Deleter) : Deleter * list bytes :=
  if decide (length (pending d) = 0%nat) then (d, [])
  else
    let keysToFlush := pending d in
    let d1 := mkDeleter (backend d) [] in
    match DeleteKeys (backend d1) keysToFlush with
    | (be', Some _) => (mkDeleter be' (keysToFlush ++ pending d1), [])
    | (be', None) => (mkDeleter be' (pending d1), keysToFlush)
    end.

(** ** The life of a deleter: keys are marked and flushes run in any order. *)
Inductive del_event := Mark (key : bytes) | Flush.

Definition del_step (d : Deleter) (ev : del_event) : Deleter :=
  match ev with Mark k => MarkDeleted k d | Flush => (flush d).1 end.

Definition marked (evs : list del_event) : list bytes :=
  omap (λ ev, match ev with Mark k => Some k | Flush => None end) evs.

Lemma lookup_without m keys k :
  without m keys !! k = if decide (k ∈ keys) then None else m !! k.
Proof.
  unfold without. case_decide as Hk.
  - apply map_lookup_filter_None. right. intros v _ Hn. by apply Hn.
  - destruct (m !! k) eqn:E; [by apply map_lookup_filter_Some|].
    apply map_lookup_filter_None. by left.
Qed.

Lemma pending_mark_all (d : Deleter) ks :
  pending (foldl (λ x k, MarkDeleted k x) d ks) = pending d ++ ks.
Proof.
  induction ks as [|k ks IH] in d |- *; simpl; [by rewrite app_nil_r|]. rewrite IH. simpl.
  by rewrite <-app_assoc.
Qed.

(** One flush: the keys are gone and reported, or they are still pending. *)
Lemma flush_cases d d' out :
  fits (pending d) → flush d = (d', out) →
  (pending d' = [] ∧ out = pending d ∧
   ∀ k, ¬ be_private k → be_contents (backend d') !! k =
          without (be_contents (backend d)) (pending d) !! k) ∨
  (pending d' = pending d ∧ out = [] ∧
   (be_contents (backend d') = be_contents (backend d) ∨
    ∀ k, ¬ be_private k → be_contents (backend d') !! k =
           without (be_contents (backend d)) (pending d) !! k)).
Proof.
  intros Hfit. unfold flush. case_decide as Hl.
  { intros [= <- <-]. right. auto. }
  simpl. destruct (DeleteKeys (backend d) (pending d)) as [be' [e|]] eqn:E; intros [= <- <-]; simpl.
  - right. split_and!; [apply app_nil_r|done|by eapply DeleteKeys_err].
  - left. split_and!; [done..|by eapply DeleteKeys_ok].
Qed.

(** ** Properties *)

(** A flush reports exactly the keys that are gone: on success every
    pending key is removed, the queue is empty and the callback gets all of
    them in the order they were marked; on failure the queue keeps them all, in
    order and in front of later ones, and the callback gets nothing. *)
Theorem flush_exact d d' out e be' :
  pending d ≠ [] → fits (pending d) → DeleteKeys (backend d) (pending d) = (be', e) → flush d = (d', out) →
  match e with
  | None => pending d' = [] ∧ out = pending d ∧
            ∀ k, k ∈ pending d → ¬ be_private k → be_contents (backend d') !! k = None
  | Some _ => pending d' = pending d ∧ out = []
  end.
Proof.
  intros Hne Hfit Hd Hf. unfold flush in Hf. rewrite decide_False in Hf by (by destruct (pending d)).
  simpl in Hf. rewrite Hd in Hf. destruct e; injection Hf as <- <-; simpl.
  - split; [apply app_nil_r|done].
  - split_and!; [done..|]. intros k Hin Hpr. rewrite (DeleteKeys_ok _ _ _ Hfit Hd k Hpr), lookup_without.
    by rewrite decide_True.
Qed.
End deleter.

(** ** The direct backend *)
Section direct.
Context `{DB}.

(** A key that cannot be added to the batch is logged and skipped. *)
Definition direct_batch (keys : list bytes) : Batch :=
  foldl (λ b k, (batch_Delete b k).1) [] keys.

Definition direct_DeleteKeys (d : db_t) (keys : list bytes) : db_t * option error :=
  Commit d (direct_batch keys) Sync.

Lemma direct_batch_all keys :
  (∀ b k, batch_fault b (OpDelete k) = None) → direct_batch keys = OpDelete <$> keys.
Proof.
  intros Hnf. unfold direct_batch.
  assert (∀ b, foldl (λ b k, (batch_Delete b k).1) b keys = b ++ (OpDelete <$> keys)) as E; [|apply E].
  induction keys as [|k keys IH]; intros b; simpl; [by rewrite app_nil_r|].
  rewrite IH. unfold batch_Delete, batch_add. rewrite Hnf. simpl. by rewrite <-app_assoc.
Qed.

#[local] Obligation Tactic := idtac.
#[local] Unset Program Cases.

(** On an engine whose batches accept deletes, the direct backend keeps the
    promise of the interface. *)
#[program] Definition direct_backend (Hnf : ∀ b k, batch_fault b (OpDelete k) = None)
    : DeleteBackend := {|
  be_t := db_t;
  be_contents := contents;
  DeleteKeys := direct_DeleteKeys;
  be_private k := False;
|}.
Next Obligation.
  intros Hnf d keys d' _ Hc k _. unfold direct_DeleteKeys in Hc. apply Commit_ok in Hc.
  by rewrite Hc, direct_batch_all, apply_ops_deletes.
Qed.
Next Obligation.
  intros Hnf d keys d' e _ Hc. left. unfold direct_DeleteKeys in Hc. by apply Commit_err in Hc.
Qed.

(** The engine may refuse to put the deletion of a key into a batch. *)
Definition refused (k : bytes) : Prop := ∃ b e, batch_fault b (OpDelete k) = Some e.

Lemma direct_batch_lookup m keys k :
  ¬ refused k → apply_ops m (direct_batch keys) !! k = without m keys !! k.
Proof.
  intros Hr. rewrite lookup_without. unfold direct_batch.
  assert (∀ b, apply_ops m (foldl (λ b k, (batch_Delete b k).1) b keys) !! k =
    if decide (k ∈ keys) then None else apply_ops m b !! k) as E; [|by rewrite E].
  induction keys as [|x keys IH]; intros b; [done|]. simpl. rewrite IH.
  assert (apply_ops m (batch_Delete b x).1 !! k = if decide (k = x) then None else apply_ops m b !! k) as ->.
  { unfold batch_Delete, batch_add. destruct (decide (k = x)) as [<-|Hx].
    - destruct (batch_fault b (OpDelete k)) as [e|] eqn:E; [destruct Hr; by exists b, e|].
      cbn [fst]. rewrite apply_ops_app. apply lookup_delete_eq.
    - destruct (batch_fault b (OpDelete x)); [done|]. cbn [fst].
      rewrite apply_ops_app. by apply lookup_delete_ne. }
  repeat case_decide; set_solver.
Qed.

Lemma direct_DeleteKeys_frame k d keys :
  k ∉ keys → contents (direct_DeleteKeys d keys).1 !! k = contents d !! k.
Proof.
  intros Hk. unfold direct_DeleteKeys. destruct (Commit d (direct_batch keys) Sync) as [d' [e|]] eqn:E; simpl.
  { by rewrite (Commit_err _ _ _ _ _ E). }
  rewrite (Commit_ok _ _ _ _ E). unfold direct_batch. clear E. change (contents d) with (apply_ops (contents d) []) at 2.
  generalize ([] : Batch) as b. induction keys as [|x keys IH]; intros b; [done|].
  apply not_elem_of_cons in Hk as [Hx Hk]. simpl. rewrite (IH Hk). unfold batch_Delete, batch_add.
  destruct (batch_fault b (OpDelete x)); [done|]. cbn [fst]. rewrite apply_ops_app. by apply lookup_delete_ne.
Qed.

(** Without an assumption on the engine: the keys it refuses are outside the
    promise. *)
#[program] Definition any_direct_backend : DeleteBackend := {|
  be_t := db_t;
  be_contents := contents;
  DeleteKeys := direct_DeleteKeys;
  be_private := refused;
|}.
Next Obligation.
  intros d keys d' _ Hc k Hk. unfold direct_DeleteKeys in Hc. apply Commit_ok in Hc.
  rewrite Hc. by apply direct_batch_lookup.
Qed.
Next Obligation.
  intros d keys d' e _ Hc. left. unfold direct_DeleteKeys in Hc. by apply Commit_err in Hc.
Qed.

(** The direct backend swallows a batch fault: when [batch.Delete] of a
    key fails and the commit of the rest succeeds, [DeleteKeys] reports success
    although the key is still stored (the interface says that nil means the
    keys are removed), so the deleter drops it from the queue. *)
Theorem direct_delete_swallows_fault d k e :
  batch_fault [] (OpDelete k) = Some e → (Commit d [] Sync).2 = None →
  (direct_DeleteKeys d [k]).2 = None ∧
  contents (direct_DeleteKeys d [k]).1 !! k = contents d !! k.
Proof.
  intros Hb Hc. unfold direct_DeleteKeys, direct_batch, batch_Delete, batch_add. simpl.
  rewrite Hb. simpl. split; [done|]. destruct (Commit d [] Sync) as [d' e'] eqn:E.
  simpl in *. subst e'. by rewrite (Commit_ok _ _ _ _ E).
Qed.
End direct.

(** ** The Raft backend *)

(** The state machine applies portions of the log. *)
Inductive advances `{DB} : EventStateMachine → list Entry → EventStateMachine → Prop :=
  | advances_nil s : advances s [] s
  | advances_portion s es s1 r es' s2 :
      Update s es = (s1, Ok r) → advances s1 es' s2 → advances s (es ++ es') s2.

(** [propose] is [NodeHost.SyncPropose] with the session of the node.  Entries of
    other proposers may be applied before and after.  nil means that the command
    was committed and applied to the local state machine; an error leaves open
    whether it was. *)
Class Proposer `{DB} := {
  pr_t : Type;
  machine : pr_t → EventStateMachine;
  propose : pr_t → bytes → pr_t * option error;
  propose_ok p cmd p' :
    propose p cmd = (p', None) →
    ∃ before i after, advances (machine p) (before ++ mkEntry i cmd :: after) (machine p');
  propose_err p cmd p' e :
    propose p cmd = (p', Some e) → ∃ es, advances (machine p) es (machine p');
}.

(** Nobody else proposes while the call runs: the machine applies this command
    and nothing else, or, after an error, perhaps nothing. *)
Definition undisturbed `{Proposer} : Prop := ∀ p cmd p' e,
  propose p cmd = (p', e) →
  (e ≠ None ∧ machine p' = machine p) ∨ ∃ i r, Update (machine p) [mkEntry i cmd] = (machine p', Ok r).

Section raft.
Context `{Proposer}.

Definition raft_DeleteKeys (p : pr_t) (keys : list bytes) : pr_t * option error :=
  match MarshalDeleteBatchCmd keys with
  | Ok cmd => propose p cmd
  | Err e => (p, Some e)
  | _ => (p, None)
  end.

Lemma raft_marshal keys :
  (MarshalDeleteBatchCmd keys = Ok (encode_delete keys) ∧ Forall (λ k : bytes, len k = 24) keys) ∨
  (∃ e, MarshalDeleteBatchCmd keys = Err e).
Proof.
  destruct (decide (Forall (λ k : bytes, len k = 24) keys)) as [Hf|Hf].
  - left. split; [by apply MarshalDeleteBatchCmd_eq|done].
  - right. by apply MarshalDeleteBatchCmd_bad.
Qed.

Lemma raft_applied p keys i r p' :
  (∀ b op, batch_fault b op = None) → Forall (λ k : bytes, len k = 24) keys → fits keys →
  Update (machine p) [mkEntry i (encode_delete keys)] = (machine p', Ok r) →
  ∀ k, k ≠ appliedIndexKey →
    contents (db (machine p')) !! k = without (contents (db (machine p))) keys !! k.
Proof.
  intros Hadd Hf Hfit Hu k Hk. destruct r as [rs ks].
  apply Update_ok_inv in Hu as (ops & rs' & Hm & _ & _ & Hc).
  cbn [st_mapM] in Hm. unfold mbind, st_bind, apply_one in Hm. cbn [Cmd] in Hm.
  rewrite applyEntry_delete in Hm; [|done|unfold fits, sizeof_slice, maxAlloc in Hfit; lia|
    by apply Unmarshal_encode_delete].
  injection Hm as _ <- _ _. rewrite Hc, apply_ops_app, apply_ops_ne.
  - by rewrite apply_ops_deletes.
  - by repeat constructor.
Qed.

#[local] Obligation Tactic := idtac.
#[local] Unset Program Cases.

(** When nobody else proposes, the Raft backend keeps the promise of the
    interface as well; the applied index is its own. *)
#[program] Definition raft_backend (Hadd : ∀ b op, batch_fault b op = None) (Hun : undisturbed)
    : DeleteBackend := {|
  be_t := pr_t;
  be_contents p := contents (db (machine p));
  DeleteKeys := raft_DeleteKeys;
  be_private k := k = appliedIndexKey;
|}.
Next Obligation.
  intros Hadd Hun p keys p' Hfit. unfold raft_DeleteKeys.
  destruct (raft_marshal keys) as [[-> Hf]|[e ->]]; [|done].
  intros [[? _]|(i & r & Hu)]%Hun; [done|]. by eapply raft_applied.
Qed.
Next Obligation.
  intros Hadd Hun p keys p' e Hfit. unfold raft_DeleteKeys.
  destruct (raft_marshal keys) as [[-> Hf]|[e' ->]]; [|intros [= <- _]; by left].
  intros [[_ E]|(i & r & Hu)]%Hun; [left; by rewrite E|right]. by eapply raft_applied.
Qed.

(** One acknowledgement with a tag that is not 24 bytes long stops all
    deletions of a Raft node: every later flush fails while the batch is
    encoded, nothing is proposed, and the queue grows by every key marked
    afterwards. *)
Theorem bad_key_blocks_deletes (Hadd : ∀ b op, batch_fault b op = None) (Hun : undisturbed) d0 k0 evs :
  len k0 ≠ 24 →
  let be := raft_backend Hadd Hun in
  let d := foldl (@del_step be) (@MarkDeleted be k0 d0) evs in
  backend d = backend d0 ∧ pending d = pending d0 ++ [k0] ++ marked evs.
Proof.
  intros Hk be d.
  assert (∀ d1 : @Deleter be, k0 ∈ pending d1 → backend (foldl (@del_step be) d1 evs) = backend d1 ∧
            pending (foldl (@del_step be) d1 evs) = pending d1 ++ marked evs) as Hgen.
  { induction evs as [|[k|] evs IH]; intros d1 Hin; simpl; [by rewrite app_nil_r|..].
    - destruct (IH (MarkDeleted k d1)) as [-> ->]; [simpl; set_solver|]. simpl.
      by rewrite <-app_assoc.
    - assert (@flush be d1 = (d1, [])) as Hf; [|rewrite Hf; by apply IH].
      unfold flush. case_decide; [done|]. simpl. unfold raft_DeleteKeys.
      destruct (raft_marshal (pending d1)) as [[_ Hall]|[e ->]].
      + rewrite Forall_forall in Hall. by destruct (Hk (Hall _ Hin)).
      + rewrite app_nil_r. by destruct d1. }
  destruct (Hgen (MarkDeleted k0 d0)) as [E1 E2]; [simpl; set_solver|].
  split; [exact E1|]. etrans; [exact E2|]. simpl. by rewrite <-app_assoc.
Qed.
End raft.

(** ** Concrete backends *)
#[local] Obligation Tactic := idtac.
#[local] Unset Program Cases.

(** A one-node log: a proposal is applied at once, or refused when it does not
    apply. *)
#[program] Definition local_raft : @Proposer MapDB := {|
  pr_t := @EventStateMachine MapDB;
  machine p := p;
  propose p cmd :=
    match @Update MapDB p [mkEntry (lastApplied p + 1) cmd] with
    | (p', Ok _) => (p', None)
    | _ => (p, Some (ErrorMsg "timeout" []))
    end;
|}.
Next Obligation.
  cbv beta. intros p cmd p'. repeat case_split_eq; intros [=]; subst.
  exists [], (lastApplied p + 1), []. rewrite <-(app_nil_r (_ ++ _)).
  eapply advances_portion, advances_nil. done.
Qed.
Next Obligation.
  cbv beta. intros p cmd p' e. repeat case_split_eq; intros [=]; subst; exists []; constructor.
Qed.

Lemma local_raft_undisturbed : @undisturbed MapDB local_raft.
Proof.
  intros p cmd p' e. simpl. repeat case_split_eq; intros [=]; subst; [right; eauto|left; by split..].
Qed.

(** The reference engine with batches that refuse every operation. *)
Definition FaultyDB : DB := {|
  db_t := @db_t MapDB; contents := @contents MapDB; Get := @Get MapDB;
  batch_fault _ _ := Some (ErrorMsg "batch" []); Commit := @Commit MapDB; Scan := @Scan MapDB;
  it_t := @it_t MapDB; NewIter := @NewIter MapDB; First := @First MapDB; Next := @Next MapDB;
  Valid := @Valid MapDB; Key := @Key MapDB; Value := @Value MapDB; Error := @Error MapDB;
  notfound := @notfound MapDB; get_fault := @get_fault MapDB; iter_pairs := @iter_pairs MapDB;
  iter_error := @iter_error MapDB; it_rest := @it_rest MapDB; Get_spec := @Get_spec MapDB;
  Commit_ok := @Commit_ok MapDB; Commit_err := @Commit_err MapDB;
  Scan_spec := @Scan_spec MapDB; iter_pairs_prefix := @iter_pairs_prefix MapDB;
  iter_pairs_complete := @iter_pairs_complete MapDB; NewIter_total := @NewIter_total MapDB;
  First_rest := @First_rest MapDB; Next_rest := @Next_rest MapDB;
  Valid_spec := @Valid_spec MapDB; Key_spec := @Key_spec MapDB; Error_spec := @Error_spec MapDB;
|}.

Definition map_direct : DeleteBackend := @direct_backend MapDB (λ _ _, eq_refl).
Definition map_raft : DeleteBackend :=
  @raft_backend MapDB local_raft (λ _ _, eq_refl) local_raft_undisturbed.

Definition one_key : gmap bytes bytes := {[ of_str "k" := of_str "v" ]}.

Lemma flush_exact_witness :
  (@flush map_direct (@mkDeleter map_direct one_key [of_str "k"])).2 = [of_str "k"].
Proof.
  pose proof (@flush_exact map_direct (@mkDeleter map_direct one_key [of_str "k"])
    (@flush map_direct (@mkDeleter map_direct one_key [of_str "k"])).1
    (@flush map_direct (@mkDeleter map_direct one_key [of_str "k"])).2 None
    (@DeleteKeys map_direct one_key [of_str "k"]).1) as Hx.
  simpl in Hx. apply Hx; [done|by vm_compute|done|done].
Defined.

Lemma direct_delete_swallows_fault_witness :
  (@direct_DeleteKeys FaultyDB one_key [of_str "k"]).2 = None ∧
  @contents FaultyDB (@direct_DeleteKeys FaultyDB one_key [of_str "k"]).1 !! of_str "k"
    = Some (of_str "v").
Proof.
  exact (@direct_delete_swallows_fault FaultyDB one_key (of_str "k") (ErrorMsg "batch" [])
           eq_refl eq_refl).
Defined.

Lemma bad_key_blocks_deletes_witness :
  let d0 := @mkDeleter map_raft fresh_replica [] in
  @pending map_raft (foldl (@del_step map_raft) (@MarkDeleted map_raft [] d0) [Flush; Flush]) = [[]].
Proof.
  exact (proj2 (@bad_key_blocks_deletes MapDB local_raft (λ _ _, eq_refl) local_raft_undisturbed
                  (@mkDeleter map_raft fresh_replica []) [] [Flush; Flush] ltac:(done))).
Defined.
