(* ===== verification/Dispatcher.v ===== *)
(** * The dispatcher ([src/internal/dispatcher/dispatcher.go])

    One dispatch pass: a range scan per active topic over the due buckets,
    every record that is neither in flight nor expired offered to the hub, the
    delivered keys tracked for redelivery after a timeout, the expired ones
    handed to the deleter.

    Clock readings are a parameter: [now_ns n] is the [n]-th call of
    [time.Now] in nanoseconds, and [d_tick] counts the calls. *)
From stdpp Require Import prelude gmap strings sorting.
From S2P Require Import Prelude Bytes Keys Storage Pebble Proto Repository Hub Deleter.
Local Open Scope Z_scope.

Class Clock := now_ns : nat → Z.

Record inFlightEntry := mkInFlight {
  dispatchedAt : Z;
  if_topic : string;
}.

(** What the pass reads of the configuration, and of the Raft node: [None] when
    there is no NodeHost, else the answer of GetLeaderID. *)
Record dispatch_config := mkDispatchConfig {
  inFlightTimeout : Z;
  cfg_bucketSize : Z;
  cfg_NodeID : Z;
}.

Abbreviation leader_info := (option (outcome (Z * bool))).

Definition isLeader (cfg : dispatch_config) (nh : leader_info) : bool :=
  match nh with
  | None => true
  | Some (Ok (leaderID, valid)) => valid && bool_decide (leaderID = cfg_NodeID cfg)
  | Some _ => false
  end.

Section dispatcher.
Context `{XXHash} `{Protobuf} `{DB} `{DispatchStrategy} `{MapRange} `{DeleteBackend} `{Clock}.
Context (cfg : dispatch_config).

Record Dispatcher := mkDispatcher {
  d_hub : Hub;
  d_deleter : Deleter;
  inFlight : gmap bytes inFlightEntry;
  d_tick : nat;
}.

(** Nothing is in flight in a new dispatcher. *)
Definition NewDispatcher (hub : Hub) (deleter : Deleter) : Dispatcher := mkDispatcher hub deleter ∅ 0.

(** The storage engine the dispatcher reads; one snapshot per scan. *)
Context (store : db_t).

Definition RemoveInFlight (key : bytes) (d : Dispatcher) : Dispatcher :=
  mkDispatcher (d_hub d) (d_deleter d) (delete key (inFlight d)) (d_tick d).

Definition RemoveInFlightBatch (keys : list bytes) (d : Dispatcher) : Dispatcher :=
  foldl (λ d k, RemoveInFlight k d) d keys.

Definition isInFlight (key : bytes) (d : Dispatcher) : Dispatcher * bool :=
  match inFlight d !! key with
  | None => (d, false)
  | Some e =>
      let now := now_ns (d_tick d) in
      let d1 := mkDispatcher (d_hub d) (d_deleter d) (inFlight d) (S (d_tick d)) in
      if decide (now - dispatchedAt e < inFlightTimeout cfg) then (d1, true)
      else (mkDispatcher (d_hub d1) (d_deleter d1) (delete key (inFlight d1)) (d_tick d1), false)
  end.

(** The deadline is an int64 addition. *)
Definition isExpired (msg : StoredMessage) (nowMs : Z) : bool :=
  if decide (sm_TtlMs msg ≤ 0) then false
  else bool_decide (i64 (sm_EnqueuedAtUnixMs msg + sm_TtlMs msg) ≤ nowMs).

Definition queue_message (msg : StoredMessage) (key : bytes) : QueueMessage :=
  mkQueueMessage (sm_Topic msg) (sm_Payload msg) key (sm_EnqueuedAtUnixMs msg) (sm_DelayMs msg).

(** A record expires when the ttl of the message it carries is over. *)
Lemma carries_expired t0 m sm t : carries t0 m sm → ¬ ttl_over t0 m t → isExpired sm t = false.
Proof.
  intros [_ _ E1 _ E2 _] Hx. unfold isExpired. rewrite E1, E2. unfold ttl_over in Hx.
  case_decide; [done|]. apply bool_decide_eq_false. lia.
Qed.

Lemma queue_message_shows msg key : shows msg key (queue_message msg key).
Proof. by split. Qed.

(** The state of the scan callback: the dispatcher, [dispatched] and
    [expiredKeys]. *)
Abbreviation scan_st := (Dispatcher * Z * list bytes)%type.

Definition dispatch_one (topic : string) (nowMs : Z) (s : scan_st) (key val : bytes) : scan_st :=
  let '(d, dispatched, expiredKeys) := s in
  let '(d1, flying) := isInFlight key d in
  if flying : bool then (d1, dispatched, expiredKeys)
  else match Unmarshal val with
  | Ok msg =>
      if isExpired msg nowMs then (d1, dispatched, expiredKeys ++ [key])
      else
        let '(hub', sentTo) := DispatchToTopic topic (queue_message msg key) key (d_hub d1) in
        if decide (0 < length sentTo)%nat then
          (mkDispatcher hub' (d_deleter d1)
             (<[key := mkInFlight (now_ns (d_tick d1)) topic]> (inFlight d1)) (S (d_tick d1)),
           dispatched + 1, expiredKeys)
        else (mkDispatcher hub' (d_deleter d1) (inFlight d1) (d_tick d1), dispatched, expiredKeys)
  | _ => (d1, dispatched, expiredKeys)
  end.

Definition due_range (topicHash nowBucket : Z) : IterOptions :=
  mkIterOptions (Some (TopicLowerBound topicHash)) (Some (DueUpperBound topicHash nowBucket)).

Definition mark_all (keys : list bytes) (d : Dispatcher) : Dispatcher :=
  mkDispatcher (d_hub d) (foldl (λ x k, MarkDeleted k x) (d_deleter d) keys) (inFlight d) (d_tick d).

(** A scan error is logged and the pass goes on with what was seen. *)
Definition dispatchTopic (topic : string) (nowMs : Z) : st Dispatcher Z := λ d,
  let topicHash := TopicHash topic in
  match CalculateBucket nowMs (cfg_bucketSize cfg) with
  | Ok nowBucket =>
      let '(d1, dispatched, expiredKeys, _) :=
        Scan store (Some (due_range topicHash nowBucket))
          (λ s key val, (dispatch_one topic nowMs s key val, None)) (d, 0, []) in
      let d2 := if decide (0 < length expiredKeys)%nat then mark_all expiredKeys d1 else d1 in
      (d2, Ok dispatched)
  | Err e => (d, Err e)
  | Panic => (d, Panic)
  | OutOfFuel => (d, OutOfFuel)
  end.

Fixpoint dispatch_topics (topics : list string) (nowMs total : Z) : st Dispatcher Z :=
  match topics with
  | [] => mret total
  | topic :: topics' =>
      dispatched ← dispatchTopic topic nowMs;
      dispatch_topics topics' nowMs (total + dispatched)
  end.

(** [UnixMilli] of a clock reading. *)
Definition UnixMilli (ns : Z) : Z := ns `div` Millisecond.

Definition dispatchAll (nh : leader_info) : st Dispatcher Z := λ d,
  if negb (HasConsumers (d_hub d)) then (d, Ok 0)
  else if negb (isLeader cfg nh) then (d, Ok 0)
  else
    let '(hub', activeTopics) := ActiveTopics (d_hub d) in
    let d1 := mkDispatcher hub' (d_deleter d) (inFlight d) (d_tick d) in
    if decide (length activeTopics = 0%nat) then (d1, Ok 0)
    else
      let nowMs := UnixMilli (now_ns (d_tick d1)) in
      dispatch_topics activeTopics nowMs 0
        (mkDispatcher (d_hub d1) (d_deleter d1) (inFlight d1) (S (d_tick d1))).

(** The parts of the shared state other components change. *)
Definition on_hub (f : Hub → Hub) (d : Dispatcher) : Dispatcher :=
  mkDispatcher (f (d_hub d)) (d_deleter d) (inFlight d) (d_tick d).
Definition on_deleter (f : Deleter → Deleter) (d : Dispatcher) : Dispatcher :=
  mkDispatcher (d_hub d) (f (d_deleter d)) (inFlight d) (d_tick d).

Lemma RemoveInFlightBatch_deleter keys d : d_deleter (RemoveInFlightBatch keys d) = d_deleter d.
Proof. unfold RemoveInFlightBatch. induction keys as [|k ks IH] in d |- *; simpl; [done|by rewrite IH]. Qed.

(** ** A pass as a fold over the scanned pairs *)
Definition run_pairs (topic : string) (nowMs : Z) (s : scan_st) (l : list (bytes * bytes)) : scan_st :=
  foldl (λ s p, dispatch_one topic nowMs s p.1 p.2) s l.

Lemma dispatchTopic_eq topic nowMs d nb :
  CalculateBucket nowMs (cfg_bucketSize cfg) = Ok nb →
  dispatchTopic topic nowMs d =
    let '(d1, n, ex) := run_pairs topic nowMs (d, 0, [])
                          (iter_pairs store (Some (due_range (TopicHash topic) nb))) in
    (mark_all ex d1, Ok n).
Proof.
  intros Hb. unfold dispatchTopic, run_pairs. rewrite Hb, Scan_spec.
  rewrite (scan_fold_total (dispatch_one topic nowMs)).
  destruct (foldl _ _ _) as [[d1 n] ex]. f_equal. case_decide; [done|].
  destruct ex as [|k ex]; [|simpl in *; lia]. by destruct d1.
Qed.

(** ** Safety: only due, live, unexpired records are delivered *)
Definition deliverable (nowMs : Z) (k v : bytes) (q : QueueMessage) : Prop :=
  ∃ msg, Unmarshal v = Ok msg ∧ isExpired msg nowMs = false ∧ q = queue_message msg k.

Lemma isInFlight_hub key d : d_hub (isInFlight key d).1 = d_hub d.
Proof. unfold isInFlight. by repeat case_split_eq. Qed.

Lemma dispatch_one_grows topic nowMs s k v :
  grows (deliverable nowMs k v) (d_hub s.1.1) (d_hub (dispatch_one topic nowMs s k v).1.1).
Proof.
  destruct s as [[d n] ex]. unfold dispatch_one. pose proof (isInFlight_hub k d) as Eh.
  destruct (isInFlight k d) as [d1 []]; simpl in Eh |- *; rewrite <-Eh; [apply grows_refl|].
  destruct (Unmarshal v) as [msg|e| |] eqn:Hu; try apply grows_refl.
  destruct (isExpired msg nowMs) eqn:Hx; [apply grows_refl|].
  pose proof (DispatchToTopic_grows topic (queue_message msg k) k (d_hub d1)) as Hg.
  apply (grows_impl _ (deliverable nowMs k v)) in Hg; [|intros q ->; by exists msg].
  destruct (DispatchToTopic _ _ _ _) as [h' sent]. by case_decide.
Qed.

Lemma run_pairs_grows topic nowMs s l :
  grows (λ q, ∃ k v, (k, v) ∈ l ∧ deliverable nowMs k v q)
    (d_hub s.1.1) (d_hub (run_pairs topic nowMs s l).1.1).
Proof.
  unfold run_pairs. induction l as [|[k v] l IH] in s |- *; simpl; [apply grows_refl|].
  eapply grows_trans.
  - eapply grows_impl, (dispatch_one_grows topic nowMs s k v). intros q Hq. exists k, v.
    split; [left|done].
  - eapply grows_impl, IH. intros q (k' & v' & Hin & Hq). exists k', v'. split; [by right|done].
Qed.

Lemma iter_pairs_elem o k v :
  (k, v) ∈ iter_pairs store o → contents store !! k = Some v ∧ in_range o k.
Proof.
  intros Hin. apply elem_of_range_pairs. destruct (iter_pairs_prefix store o) as [l ->].
  apply elem_of_app. by left.
Qed.

(** A record of the store that topic [topic] may deliver at [nowMs]. *)
Definition due_record (topic : string) (nowMs : Z) (q : QueueMessage) : Prop :=
  ∃ nb v, CalculateBucket nowMs (cfg_bucketSize cfg) = Ok nb ∧
    contents store !! qm_DeliveryTag q = Some v ∧
    in_range (Some (due_range (TopicHash topic) nb)) (qm_DeliveryTag q) ∧
    deliverable nowMs (qm_DeliveryTag q) v q.

Lemma dispatchTopic_grows topic nowMs d d' r :
  dispatchTopic topic nowMs d = (d', r) → grows (due_record topic nowMs) (d_hub d) (d_hub d').
Proof.
  destruct (CalculateBucket nowMs (cfg_bucketSize cfg)) as [nb|e| |] eqn:Hb.
  2-4: unfold dispatchTopic; rewrite Hb; intros [= <- <-]; apply grows_refl.
  rewrite (dispatchTopic_eq _ _ _ _ Hb).
  pose proof (run_pairs_grows topic nowMs (d, 0, [])
                (iter_pairs store (Some (due_range (TopicHash topic) nb)))) as Hg.
  destruct (run_pairs _ _ _ _) as [[d1 n] ex]. intros [= <- <-]. simpl in *.
  eapply grows_impl, Hg. intros q (k & v & [Hc Hr]%iter_pairs_elem & Hq).
  assert (qm_DeliveryTag q = k) as Ek by (by destruct Hq as (msg & _ & _ & ->)).
  rewrite <-Ek in *. by exists nb, v.
Qed.

Lemma dispatch_topics_grows topics nowMs total d d' r :
  dispatch_topics topics nowMs total d = (d', r) →
  grows (λ q, ∃ t, t ∈ topics ∧ due_record t nowMs q) (d_hub d) (d_hub d').
Proof.
  revert total d. induction topics as [|t ts IH]; intros total d; simpl.
  { intros [= <- <-]. apply grows_refl. }
  unfold mbind, st_bind. destruct (dispatchTopic t nowMs d) as [d1 r1] eqn:Ht.
  apply dispatchTopic_grows in Ht.
  assert (grows (λ q, ∃ t', t' ∈ t :: ts ∧ due_record t' nowMs q) (d_hub d) (d_hub d1)) as Hhere.
  { eapply grows_impl, Ht. intros q Hq. exists t. split; [left|done]. }
  destruct r1; [|intros [= <- <-]; done..]. intros Hr. apply IH in Hr.
  eapply grows_trans; [exact Hhere|]. eapply grows_impl, Hr.
  intros q (t' & Hin & Hq). exists t'. split; [by right|done].
Qed.

(** ** Completeness *)

(** Whether a key is held back by the in-flight map. *)
Definition held (d : Dispatcher) (k : bytes) : Prop :=
  match inFlight d !! k with
  | Some e => now_ns (d_tick d) - dispatchedAt e < inFlightTimeout cfg
  | None => False
  end.

#[export] Instance held_dec d k : Decision (held d k).
Proof. unfold held. destruct (inFlight d !! k); apply _. Defined.

(** No entry of the in-flight map times out while the pass runs. *)
Definition clock_stable (d : Dispatcher) : Prop :=
  ∀ k e n, inFlight d !! k = Some e → (d_tick d ≤ n)%nat →
    now_ns n - dispatchedAt e < inFlightTimeout cfg ↔
    now_ns (d_tick d) - dispatchedAt e < inFlightTimeout cfg.

(** What the pass makes of a scanned pair: a message to deliver, or an expired
    key. *)
Definition outgoing (d : Dispatcher) (nowMs : Z) (p : bytes * bytes) : option QueueMessage :=
  if decide (held d p.1) then None
  else match Unmarshal p.2 with
       | Ok msg => if isExpired msg nowMs then None else Some (queue_message msg p.1)
       | _ => None
       end.

Definition expired_key (d : Dispatcher) (nowMs : Z) (p : bytes * bytes) : option bytes :=
  if decide (held d p.1) then None
  else match Unmarshal p.2 with
       | Ok msg => if isExpired msg nowMs then Some p.1 else None
       | _ => None
       end.

(** A universal consumer of the topic that listens on a channel. *)
Definition listening (h : Hub) (topic : string) (c : ConsumerEntry) (buf : list QueueMessage)
    (cap : nat) : Prop :=
  hub_inv h ∧ byID h !! ID c = Some c ∧ Topic c = topic ∧ Group c = ""%string ∧
  chans h !! Ch c = Some (mkChan buf cap).

(** The state of the pass after the pairs [l]. *)
Record pass_inv (topic : string) (c : ConsumerEntry) (cap : nat) (buf : list QueueMessage)
    (nowMs : Z) (d0 : Dispatcher) (l : list (bytes * bytes)) (s : scan_st) : Prop := {
  pi_listen : listening (d_hub s.1.1) topic c (buf ++ omap (outgoing d0 nowMs) l) cap;
  pi_count : s.1.2 = len (omap (outgoing d0 nowMs) l);
  pi_expired : s.2 = omap (expired_key d0 nowMs) l;
  pi_deleter : d_deleter s.1.1 = d_deleter d0;
  pi_tick : (d_tick d0 ≤ d_tick s.1.1)%nat;
  pi_inFlight : ∀ k, inFlight s.1.1 !! k = inFlight d0 !! k ∨ k ∈ l.*1;
  pi_flying : ∀ p, p ∈ l → is_Some (outgoing d0 nowMs p) →
    ∃ n, inFlight s.1.1 !! p.1 = Some (mkInFlight (now_ns n) topic);
}.

Lemma isInFlight_spec d0 k d :
  clock_stable d0 → (d_tick d0 ≤ d_tick d)%nat → inFlight d !! k = inFlight d0 !! k →
  ((isInFlight k d).2 = true ↔ held d0 k) ∧
  (d_tick d ≤ d_tick (isInFlight k d).1)%nat ∧
  d_hub (isInFlight k d).1 = d_hub d ∧ d_deleter (isInFlight k d).1 = d_deleter d ∧
  (∀ k', k' ≠ k → inFlight (isInFlight k d).1 !! k' = inFlight d !! k').
Proof.
  intros Hst Ht E. unfold isInFlight, held. rewrite E.
  destruct (inFlight d0 !! k) as [e|] eqn:He; [|done].
  pose proof (Hst k e (d_tick d) He Ht) as Hiff. case_decide as Hd; simpl.
  - split_and!; [tauto|lia|done..].
  - split_and!; [split; [done|tauto]|lia|done|done|].
    intros k' Hk. by rewrite lookup_delete_ne.
Qed.

(** A pair that is not delivered. *)
Lemma pass_skip topic c cap buf nowMs d0 l d n ex d1 k v :
  k ∉ l.*1 → pass_inv topic c cap buf nowMs d0 l (d, n, ex) →
  outgoing d0 nowMs (k, v) = None →
  d_hub d1 = d_hub d → d_deleter d1 = d_deleter d → (d_tick d ≤ d_tick d1)%nat →
  (∀ k', k' ≠ k → inFlight d1 !! k' = inFlight d !! k') →
  pass_inv topic c cap buf nowMs d0 (l ++ [(k, v)])
    (d1, n, ex ++ option_list (expired_key d0 nowMs (k, v))).
Proof.
  intros Hk [Hl Hn Hx Hd Htk Hi Hfl] Ho Eh Ed Et Ef. simpl in *.
  split; simpl; rewrite ?omap_snoc, ?Ho, ?app_nil_r, ?Eh, ?Ed, ?Hx; try done.
  - lia.
  - intros k'. rewrite fmap_app, elem_of_app. destruct (decide (k' = k)) as [->|Hne].
    + right. right. by left.
    + rewrite Ef by done. destruct (Hi k') as [|]; auto.
  - intros p [Hp| ->%list_elem_of_singleton]%elem_of_app Hs; [|rewrite Ho in Hs; by destruct Hs].
    rewrite Ef; [by apply Hfl|]. intros <-. apply Hk. by apply list_elem_of_fmap_2.
Qed.

Lemma pass_step topic c cap buf nowMs d0 l s k v :
  clock_stable d0 → k ∉ l.*1 → (length buf + length (l ++ [(k, v)]) ≤ cap)%nat →
  pass_inv topic c cap buf nowMs d0 l s →
  pass_inv topic c cap buf nowMs d0 (l ++ [(k, v)]) (dispatch_one topic nowMs s k v).
Proof.
  intros Hst Hk Hcap Hp. destruct s as [[d n] ex].
  destruct (pi_inFlight _ _ _ _ _ _ _ _ Hp k) as [E|?]; [|done]. simpl in E.
  destruct (isInFlight_spec d0 k d Hst (pi_tick _ _ _ _ _ _ _ _ Hp) E) as (Eb & Et & Eh & Ed & Ef).
  unfold dispatch_one. destruct (isInFlight k d) as [d1 b]. simpl in *.
  pose proof (pass_skip _ _ _ _ _ _ _ _ _ _ d1 k v Hk Hp) as Hskip.
  destruct (decide (held d0 k)) as [Hh|Hh].
  { destruct b; [|by apply Eb in Hh]. unfold outgoing, expired_key in Hskip. simpl in Hskip.
    rewrite !decide_True in Hskip by done. simpl in Hskip. rewrite app_nil_r in Hskip. auto. }
  destruct b; [by destruct Hh; apply Eb|].
  unfold outgoing, expired_key in Hskip. simpl in Hskip. rewrite !decide_False in Hskip by done.
  destruct (Unmarshal v) as [msg|e| |] eqn:Hu; try (simpl in Hskip; rewrite app_nil_r in Hskip; by auto).
  destruct (isExpired msg nowMs) eqn:Hx; [by auto|]. clear Hskip.
  destruct Hp as [Hl Hn Hex Hd Htk Hi Hfl]. simpl in *.
  assert (outgoing d0 nowMs (k, v) = Some (queue_message msg k)) as Ho.
  { unfold outgoing. simpl. by rewrite decide_False, Hu, Hx. }
  destruct Hl as (Hinv & Hreg & Htop & Hgrp & Hch). rewrite <-Eh in Hinv, Hreg, Hch.
  assert (length (buf ++ omap (outgoing d0 nowMs) l) < cap)%nat as Hroom.
  { rewrite length_app in *. simpl in Hcap. pose proof (length_omap (outgoing d0 nowMs) l). lia. }
  pose proof (DispatchToTopic_universal topic (queue_message msg k) k _ _ _ _
                Hinv Hreg Htop Hgrp Hch Hroom) as Hsend. simpl in Hsend.
  destruct (DispatchToTopic _ _ _ _) as [h' sent]. simpl in Hsend.
  destruct Hsend as (Hinv' & Hreg' & Hsent & Hch'). rewrite decide_True by done.
  split; simpl; rewrite ?omap_snoc, ?Ho; simpl.
  - rewrite app_assoc. split_and!; try done. by rewrite Hreg'.
  - rewrite len_app, Hn. done.
  - unfold expired_key. simpl. rewrite decide_False, Hu, Hx by done. simpl. by rewrite app_nil_r.
  - congruence.
  - lia.
  - intros k'. rewrite fmap_app, elem_of_app. destruct (decide (k' = k)) as [->|Hne].
    + right. right. by left.
    + rewrite lookup_insert_ne, Ef by done. destruct (Hi k') as [|]; auto.
  - intros p [Hpl| ->%list_elem_of_singleton]%elem_of_app Hs.
    + assert (p.1 ≠ k) by (intros <-; apply Hk; by apply list_elem_of_fmap_2).
      rewrite lookup_insert_ne, Ef by done. by apply Hfl.
    + simpl. rewrite lookup_insert_eq. eauto.
Qed.

Lemma pass_all topic c cap buf nowMs d0 l l' s :
  clock_stable d0 → NoDup (l ++ l').*1 → (length buf + length (l ++ l') ≤ cap)%nat →
  pass_inv topic c cap buf nowMs d0 l s →
  pass_inv topic c cap buf nowMs d0 (l ++ l') (run_pairs topic nowMs s l').
Proof.
  intros Hst. revert l s. induction l' as [|[k v] l' IH]; intros l s Hnd Hcap Hp; simpl.
  { by rewrite app_nil_r. }
  change (l ++ (k, v) :: l') with (l ++ [(k, v)] ++ l') in *. rewrite app_assoc in *.
  apply IH; [done..|]. apply pass_step; [done|..|done].
  - rewrite !fmap_app in Hnd. apply NoDup_app in Hnd as ((_ & Hnd & _)%NoDup_app & _ & _).
    intros Hin. apply (Hnd k Hin). by left.
  - rewrite length_app in Hcap. lia.
Qed.

(** ** Keys in flight are left alone *)
Lemma dispatch_one_frame topic nowMs s k v :
  (d_tick s.1.1 ≤ d_tick (dispatch_one topic nowMs s k v).1.1)%nat ∧
  ∀ k', k' ≠ k → inFlight (dispatch_one topic nowMs s k v).1.1 !! k' = inFlight s.1.1 !! k'.
Proof.
  destruct s as [[d n] ex]. unfold dispatch_one.
  assert (d_tick d ≤ d_tick (isInFlight k d).1 ∧
          ∀ k', k' ≠ k → inFlight (isInFlight k d).1 !! k' = inFlight d !! k')%nat as [Ht Hf].
  { unfold isInFlight. repeat case_split_eq; simpl; (split; [lia|]); try done.
    intros. by rewrite lookup_delete_ne. }
  destruct (isInFlight k d) as [d1 []]; simpl in *; [done|].
  repeat case_split_eq; simpl; try done. split; [lia|].
  intros k' Hk. rewrite lookup_insert_ne by done. by apply Hf.
Qed.

Lemma run_pairs_unheld topic nowMs d0 s l :
  clock_stable d0 → NoDup l.*1 → (d_tick d0 ≤ d_tick s.1.1)%nat →
  (∀ k, k ∈ l.*1 → inFlight s.1.1 !! k = inFlight d0 !! k) →
  grows (λ q, ¬ held d0 (qm_DeliveryTag q)) (d_hub s.1.1) (d_hub (run_pairs topic nowMs s l).1.1).
Proof.
  intros Hst. revert s. induction l as [|[k v] l IH]; intros s Hnd Ht Hf; simpl; [apply grows_refl|].
  rewrite fmap_cons, NoDup_cons in Hnd. simpl in Hnd. destruct Hnd as [Hk Hnd].
  pose proof (dispatch_one_frame topic nowMs s k v) as [Ht1 Hf1].
  eapply grows_trans, IH; [|done|lia|].
  2: { intros k' Hk'. rewrite Hf1 by (by intros ->). apply Hf. by right. }
  destruct (decide (held d0 k)) as [Hh|Hh].
  - destruct s as [[d n] ex]. simpl in *.
    destruct (isInFlight_spec d0 k d Hst Ht (Hf k ltac:(left))) as (Eb & _ & Eh & _).
    unfold dispatch_one. destruct (isInFlight k d) as [d1 b]. simpl in *.
    rewrite (proj2 Eb Hh). simpl. rewrite Eh. apply grows_refl.
  - eapply grows_impl, (dispatch_one_grows topic nowMs s k v). by intros q (msg & _ & _ & ->).
Qed.

(** ** What a pass queues for deletion *)
Definition has_expired (c : gmap bytes bytes) (nowMs : Z) (k : bytes) : Prop :=
  ∃ v msg, c !! k = Some v ∧ Unmarshal v = Ok msg ∧ isExpired msg nowMs = true.

Lemma isInFlight_deleter k d : d_deleter (isInFlight k d).1 = d_deleter d.
Proof. unfold isInFlight. by repeat case_split_eq. Qed.

Lemma dispatch_one_expired topic nowMs s k v :
  let s' := dispatch_one topic nowMs s k v in
  d_deleter s'.1.1 = d_deleter s.1.1 ∧
  (s'.2 = s.2 ∨ (s'.2 = s.2 ++ [k] ∧ ∃ msg, Unmarshal v = Ok msg ∧ isExpired msg nowMs = true)).
Proof.
  destruct s as [[d n] ex]. unfold dispatch_one. pose proof (isInFlight_deleter k d) as Ed.
  destruct (isInFlight k d) as [d1 []]; simpl in *; [auto|].
  destruct (Unmarshal v) as [msg|e| |]; simpl; auto.
  destruct (isExpired msg nowMs) eqn:Hx; simpl; [split; [done|]; right; by eauto|].
  destruct (DispatchToTopic _ _ _ _) as [h' sent]. case_decide; simpl; auto.
Qed.

Lemma run_pairs_expired topic nowMs s l :
  let s' := run_pairs topic nowMs s l in
  d_deleter s'.1.1 = d_deleter s.1.1 ∧
  ∀ k, k ∈ s'.2 → k ∈ s.2 ∨
    ∃ v msg, (k, v) ∈ l ∧ Unmarshal v = Ok msg ∧ isExpired msg nowMs = true.
Proof.
  unfold run_pairs. induction l as [|[k v] l IH] in s |- *; simpl; [auto|].
  destruct (IH (dispatch_one topic nowMs s k v)) as [Ed Hex].
  destruct (dispatch_one_expired topic nowMs s k v) as [Ed1 Hx]. split; [congruence|].
  intros k' [Hk'|(v' & msg & Hin & Hm)]%Hex.
  - destruct Hx as [Ex|(Ex & msg & Hm)]; rewrite Ex in Hk'; [auto|].
    apply elem_of_app in Hk' as [?| ->%list_elem_of_singleton]; [auto|].
    right. exists v, msg. split; [left|done].
  - right. exists v', msg. split; [by right|done].
Qed.

Lemma dispatchTopic_pending topic nowMs d :
  let d' := (dispatchTopic topic nowMs d).1 in
  backend (d_deleter d') = backend (d_deleter d) ∧
  ∀ k, k ∈ pending (d_deleter d') → k ∈ pending (d_deleter d) ∨ has_expired (contents store) nowMs k.
Proof.
  destruct (CalculateBucket nowMs (cfg_bucketSize cfg)) as [nb|e| |] eqn:Hb.
  2-4: unfold dispatchTopic; rewrite Hb; simpl; auto.
  rewrite (dispatchTopic_eq _ _ _ _ Hb).
  destruct (run_pairs_expired topic nowMs (d, 0, [])
              (iter_pairs store (Some (due_range (TopicHash topic) nb)))) as [Ed Hex].
  destruct (run_pairs _ _ _ _) as [[d1 n] ex]. simpl in *.
  rewrite pending_mark_all, Ed. split.
  - rewrite <-Ed. generalize (d_deleter d1). induction ex as [|k ex IH]; intros dl; [done|].
    simpl. rewrite IH; [done|]. intros k' Hk'. apply Hex. by right.
  - intros k [Hk|Hk]%elem_of_app; [auto|]. destruct (Hex k Hk) as [[]%elem_of_nil|(v & msg & Hin & Hm)].
    right. exists v, msg. split; [|done]. by apply iter_pairs_elem in Hin as [? _].
Qed.

(** ** Properties *)

(** Whatever a dispatch pass delivers, to any consumer, is a stored record
    of an active topic: its tag is a key of the store in that topic's range of
    due buckets, its fields are those of the stored message, and the message's
    TTL has not run out.  Nothing is taken from a channel and no channel
    appears. *)
Theorem dispatchAll_safe nh d d' r :
  dispatchAll nh d = (d', r) →
  grows (λ q, ∃ t, t ∈ (ActiveTopics (d_hub d)).2 ∧ due_record t (UnixMilli (now_ns (d_tick d))) q)
    (d_hub d) (d_hub d').
Proof.
  unfold dispatchAll.
  destruct (negb (HasConsumers (d_hub d))); [intros [= <- <-]; apply grows_refl|].
  destruct (negb (isLeader cfg nh)); [intros [= <- <-]; apply grows_refl|].
  simpl. case_decide; [intros [= <- <-]; exact (grows_refl _ (d_hub d))|].
  intros Hr. apply dispatch_topics_grows in Hr. exact Hr.
Qed.


(** Completeness: a universal consumer of the topic with room for the due
    records receives, in one pass, every due record that is decodable, not
    expired and not held in flight, in key order (bucket, then id) and nothing
    else; the count returned is their number, the expired ones are queued for
    deletion in the same order, and each delivered key is in flight
    afterwards.  A record whose in-flight entry has timed out counts as not
    held, so it is delivered again. *)
Theorem dispatch_topic_complete topic nowMs d c buf cap nb :
  CalculateBucket nowMs (cfg_bucketSize cfg) = Ok nb →
  clock_stable d → listening (d_hub d) topic c buf cap →
  let range := Some (due_range (TopicHash topic) nb) in
  let due := range_pairs range (contents store) in
  let out := omap (outgoing d nowMs) due in
  iter_error store range = None → (length buf + length due ≤ cap)%nat →
  ∃ d', dispatchTopic topic nowMs d = (d', Ok (len out)) ∧
    chans (d_hub d') !! Ch c = Some (mkChan (buf ++ out) cap) ∧
    pending (d_deleter d') = pending (d_deleter d) ++ omap (expired_key d nowMs) due ∧
    StronglySorted pair_lt due ∧
    ∀ p, p ∈ due → is_Some (outgoing d nowMs p) →
      ∃ n, inFlight d' !! p.1 = Some (mkInFlight (now_ns n) topic).
Proof.
  intros Hb Hst Hl range due out Herr Hcap.
  rewrite (dispatchTopic_eq _ _ _ _ Hb). fold range. rewrite (iter_pairs_complete _ _ Herr). fold due.
  assert (pass_inv topic c cap buf nowMs d [] (d, 0, [])) as Hp.
  { split; simpl; rewrite ?app_nil_r; auto. by intros p ?%elem_of_nil. }
  apply (pass_all _ _ _ _ _ _ [] due) in Hp; [|done|apply NoDup_range_pairs|done].
  rewrite app_nil_l in Hp. destruct (run_pairs _ _ _ _) as [[d1 n] ex].
  destruct Hp as [(_ & _ & _ & _ & Hch) Hn Hx Hd _ _ Hfl]. simpl in *. subst n ex.
  eexists. split; [done|]. split_and!; [done| |apply range_pairs_strict|done].
  rewrite <-Hd. apply pending_mark_all.
Qed.

(** No duplicate within the timeout: while no in-flight entry times out
    during the pass, a key that is in flight and not timed out is not delivered
    to anybody. *)
Theorem no_redelivery_in_flight topic nowMs d d' r :
  clock_stable d → dispatchTopic topic nowMs d = (d', r) →
  grows (λ q, ¬ held d (qm_DeliveryTag q)) (d_hub d) (d_hub d').
Proof.
  intros Hst. destruct (CalculateBucket nowMs (cfg_bucketSize cfg)) as [nb|e| |] eqn:Hb.
  2-4: unfold dispatchTopic; rewrite Hb; intros [= <- <-]; apply grows_refl.
  rewrite (dispatchTopic_eq _ _ _ _ Hb).
  set (l := iter_pairs _ _). pose proof (run_pairs_unheld topic nowMs d (d, 0, []) l Hst) as Hg.
  destruct (run_pairs _ _ _ _) as [[d1 n] ex]. intros [= <- <-]. apply Hg; [|done|done].
  destruct (iter_pairs_prefix store (Some (due_range (TopicHash topic) nb))) as [l' E].
  pose proof (NoDup_range_pairs (Some (due_range (TopicHash topic) nb)) (contents store)) as Hnd.
  rewrite E, fmap_app in Hnd. by apply NoDup_app in Hnd as (? & _ & _).
Qed.
End dispatcher.

(** The fire time is computed in int64: a delay that takes the sum past the
    range puts the message into bucket 0, which is due at once, instead of into
    the far future. *)
Theorem delay_overflow_due_now `{ProtoIndex} (msg : StoredMessage) bucketSize nowMs nb :
  0 ≤ sm_EnqueuedAtUnixMs msg < 2 ^ 63 → 0 ≤ sm_DelayMs msg < 2 ^ 63 →
  2 ^ 63 ≤ sm_EnqueuedAtUnixMs msg + sm_DelayMs msg →
  is_i64 nowMs → valid_bucket_size bucketSize → CalculateBucket nowMs bucketSize = Ok nb →
  CalculateBucket (fireAtMs msg) bucketSize = Ok 0 ∧ 0 ≤ nb.
Proof.
  intros He Hd Hs Hn Hv Hb. split.
  - unfold CalculateBucket, fireAtMs. rewrite decide_True; [done|].
    pose proof (i64_overflow (sm_EnqueuedAtUnixMs msg) (sm_DelayMs msg) He Hd Hs). lia.
  - pose proof (CalculateBucket_range _ _ _ Hn Hv Hb). lia.
Qed.

(** ** A broker to run the theorems on *)
Import Toy.

#[export] Program Instance const_hash : XXHash := {| Sum64String _ := 7 |}.
Next Obligation. by split. Qed.

#[export] Instance stopped_clock : Clock := λ _, 1000000000.

Definition toy_msg (ttl : Z) : StoredMessage := mkStoredMessage "t" (of_str "hi") 900 50 ttl [].

Definition toy_bytes (msg : StoredMessage) : bytes :=
  match Marshal msg with Ok b => b | _ => [] end.

(** A due message, an expired one and one that is not due, in buckets of one
    millisecond. *)
Definition sample_store : gmap bytes bytes :=
  <[EventKey 950 7 1 := toy_bytes (toy_msg 0)]>
  (<[EventKey 960 7 2 := toy_bytes (toy_msg 10)]>
  {[EventKey 2000 7 3 := of_str "later"]}).

Definition sample_cfg : dispatch_config := mkDispatchConfig 30000000000 Millisecond 1.

Definition sample_dispatcher : @Dispatcher RoundRobinStrategy map_direct :=
  mkDispatcher sample_hub (@NewDeleter map_direct sample_store) ∅ 0.

Abbreviation sample_dispatchTopic := (@dispatchTopic const_hash toy_index toy_protobuf MapDB
  RoundRobinStrategy key_order map_direct stopped_clock sample_cfg sample_store).
Abbreviation sample_dispatchAll := (@dispatchAll const_hash toy_index toy_protobuf MapDB
  RoundRobinStrategy key_order map_direct stopped_clock sample_cfg sample_store).

Lemma sample_clock : @clock_stable RoundRobinStrategy map_direct stopped_clock sample_cfg sample_dispatcher.
Proof. intros k e n. simpl. by rewrite lookup_empty. Qed.

Lemma sample_listening :
  @listening RoundRobinStrategy sample_hub "t" (mkConsumerEntry "u" "t" "" 2) [] 1024.
Proof. split; [exact (proj1 (reachable_inv _ _ sample_reachable))|]. by vm_compute. Qed.

Lemma dispatchAll_safe_witness :
  @grows RoundRobinStrategy (λ q, ∃ t, t ∈ ["t"%string] ∧
      @due_record const_hash toy_index toy_protobuf MapDB sample_cfg sample_store t 1000 q)
    sample_hub (d_hub (sample_dispatchAll None sample_dispatcher).1).
Proof.
  exact (@dispatchAll_safe const_hash toy_index toy_protobuf MapDB
    RoundRobinStrategy key_order map_direct stopped_clock sample_cfg sample_store None
    sample_dispatcher _ _ (surjective_pairing _)).
Defined.

Lemma dispatch_topic_complete_witness :
  ∃ d', sample_dispatchTopic "t" 1000 sample_dispatcher = (d', Ok 1) ∧
    pending (d_deleter d') = [EventKey 960 7 2].
Proof.
  destruct (@dispatch_topic_complete const_hash toy_index toy_protobuf MapDB
    RoundRobinStrategy key_order map_direct stopped_clock sample_cfg sample_store "t" 1000
    sample_dispatcher (mkConsumerEntry "u" "t" "" 2) [] 1024 1000) as (d' & Hd & _ & Hp & _).
  - by vm_compute.
  - apply sample_clock.
  - apply sample_listening.
  - done.
  - vm_compute. lia.
  - exists d'. rewrite Hd, Hp. split; [do 2 f_equal; vm_compute; reflexivity|].
    vm_compute. reflexivity.
Defined.

Lemma no_redelivery_in_flight_witness :
  @grows RoundRobinStrategy
    (λ q, ¬ @held RoundRobinStrategy map_direct stopped_clock sample_cfg sample_dispatcher
              (qm_DeliveryTag q))
    sample_hub (d_hub (sample_dispatchTopic "t" 1000 sample_dispatcher).1).
Proof.
  exact (@no_redelivery_in_flight const_hash toy_index toy_protobuf MapDB
    RoundRobinStrategy key_order map_direct stopped_clock sample_cfg sample_store "t" 1000
    sample_dispatcher _ _ sample_clock (surjective_pairing _)).
Defined.

(** Whether every event is kept under the bucket of its fire time. *)
Definition in_bucket (k v : bytes) : bool :=
  negb (bool_decide (length k = 24%nat)) ||
  match Unmarshal v with
  | Ok msg =>
      match CalculateBucket (fireAtMs msg) Millisecond with
      | Ok b => bool_decide (k = EventKey b 7 (key_id k))
      | _ => false
      end
  | _ => false
  end.

Lemma in_bucket_spec m k v :
  forallb (λ p, in_bucket p.1 p.2) (map_to_list m) = true → m !! k = Some v → length k = 24%nat →
  ∃ msg b id, Unmarshal v = Ok msg ∧ CalculateBucket (fireAtMs msg) Millisecond = Ok b ∧
    k = EventKey b (TopicHash (sm_Topic msg)) id.
Proof.
  intros Hall Hk Hl. rewrite forallb_forall in Hall. specialize (Hall (k, v)). unfold in_bucket in Hall.
  cbn [fst snd] in Hall. rewrite bool_decide_eq_true_2 in Hall by done. cbn [negb orb] in Hall.
  assert (In (k, v) (map_to_list m)) as Hin by (by apply list_elem_of_In, elem_of_map_to_list).
  specialize (Hall Hin). destruct (Unmarshal v) as [msg| | |]; [|done..].
  destruct (CalculateBucket _ _) as [b| | |] eqn:Hb; [|done..]. apply bool_decide_eq_true in Hall.
  exists msg, b, (key_id k). by split_and!.
Qed.

Definition one_due : gmap bytes bytes := {[EventKey 950 7 1 := toy_bytes (toy_msg 0)]}.


Lemma delay_overflow_due_now_witness :
  CalculateBucket (fireAtMs (mkStoredMessage "t" [] 1 (2 ^ 63 - 1) 0 []))
    Millisecond = Ok 0 ∧ 0 ≤ 5.
Proof.
  apply (delay_overflow_due_now (mkStoredMessage "t" [] 1 (2 ^ 63 - 1) 0 []) Millisecond 5 5);
    try by vm_compute. right. by vm_compute.
Defined.
