(* ===== verification/Janitor.v ===== *)
(** * The TTL janitor ([src/internal/dispatcher/janitor.go])

    A full scan that queues the expired event records for deletion, whether or
    not their topic has a consumer. *)
From stdpp Require Import prelude gmap strings sorting.
From S2P Require Import Prelude Bytes Keys Storage Pebble Proto Hub Deleter Dispatcher.
Local Open Scope Z_scope.

Section janitor.
Context `{Protobuf} `{DB} `{DeleteBackend}.

(** The scan callback; the state is [expiredKeys]. *)
Definition sweep_one (nowMs : Z) (expiredKeys : list bytes) (key val : bytes) : list bytes :=
  match ParseEventKey key with
  | Ok _ =>
      match Unmarshal val with
      | Ok msg =>
          if decide (sm_TtlMs msg ≤ 0) then expiredKeys
          else if decide (i64 (sm_EnqueuedAtUnixMs msg + sm_TtlMs msg) ≤ nowMs)
               then expiredKeys ++ [key]
               else expiredKeys
      | _ => expiredKeys
      end
  | _ => expiredKeys
  end.

Definition sweep (store : db_t) (nowMs : Z) (d : Deleter) : Deleter :=
  match Scan store None (λ ex key val, (sweep_one nowMs ex key val, None)) [] with
  | (_, Some _) => d
  | (expiredKeys, None) =>
      if decide (length expiredKeys = 0%nat) then d
      else foldl (λ x k, MarkDeleted k x) d expiredKeys
  end.

(** A record the sweep removes. *)
Definition expired_event (nowMs : Z) (p : bytes * bytes) : Prop :=
  len p.1 = 24 ∧
  match Unmarshal p.2 with
  | Ok msg => isExpired msg nowMs = true
  | _ => False
  end.

#[export] Instance expired_event_dec nowMs p : Decision (expired_event nowMs p).
Proof. unfold expired_event. destruct (Unmarshal p.2); apply _. Defined.

(** Only the length decides whether a key parses. *)
Lemma ParseEventKey_cases key :
  (len key = 24 ∧ ∃ r, ParseEventKey key = Ok r) ∨ (len key ≠ 24 ∧ ∃ e, ParseEventKey key = Err e).
Proof.
  unfold ParseEventKey. case_decide as Hl; [eauto|]. left. split; [lia|].
  unfold be_uint, len in *. rewrite !decide_True by (rewrite length_take, ?length_drop; lia).
  simpl. eauto.
Qed.

Lemma sweep_one_eq nowMs ex k v :
  sweep_one nowMs ex k v = ex ++ (if decide (expired_event nowMs (k, v)) then [k] else []).
Proof.
  unfold sweep_one. destruct (decide (expired_event nowMs (k, v))) as [He|He];
    unfold expired_event, isExpired in He; simpl in He;
    destruct (ParseEventKey_cases k) as [[Hl [r ->]]|[Hl [e ->]]]; try tauto;
    rewrite ?app_nil_r; destruct (Unmarshal v) as [msg|e'| |]; try tauto;
    repeat case_decide; try done; rewrite ?bool_decide_eq_true in He; try tauto;
    by destruct He.
Qed.

Lemma sweep_fold nowMs ex l :
  foldl (λ ex p, sweep_one nowMs ex p.1 p.2) ex l = ex ++ (filter (expired_event nowMs) l).*1.
Proof.
  induction l as [|[k v] l IH] in ex |- *; simpl; [by rewrite app_nil_r|].
  rewrite IH, sweep_one_eq, filter_cons. case_decide; rewrite <-app_assoc; done.
Qed.

Lemma sweep_pending store nowMs d :
  backend (sweep store nowMs d) = backend d ∧
  ∀ k, k ∈ pending (sweep store nowMs d) → k ∈ pending d ∨ has_expired (contents store) nowMs k.
Proof.
  unfold sweep. rewrite Scan_spec, (scan_fold_total (sweep_one nowMs)), sweep_fold, app_nil_l.
  destruct (iter_error store None); [auto|]. case_decide; [auto|]. rewrite pending_mark_all. split.
  - set (l := (filter _ _).*1). clearbody l. revert d. induction l as [|k l IH]; intros d; [done|].
    simpl. by rewrite IH.
  - intros k [Hk|Hk]%elem_of_app; [auto|]. right.
    apply list_elem_of_fmap in Hk as ([k' v] & -> & [[_ He] Hin]%list_elem_of_filter). simpl in *.
    destruct (Unmarshal v) as [msg|e| |] eqn:Hu; try done. exists v, msg.
    split; [|done]. by apply (iter_pairs_elem store) in Hin as [? _].
Qed.

(** ** Properties *)

(** A sweep queues exactly the expired event records of the store, each
    once and in key order, and nothing when the scan fails: no key of another
    length (counters, indexes), no record without a TTL and no record whose
    deadline is ahead is ever queued by it. *)
Theorem sweep_exact store nowMs d :
  pending (sweep store nowMs d) =
    pending d ++
    match iter_error store None with
    | Some _ => []
    | None => (filter (expired_event nowMs) (sorted_pairs (contents store))).*1
    end.
Proof.
  unfold sweep. rewrite Scan_spec, (scan_fold_total (sweep_one nowMs)), sweep_fold, app_nil_l.
  destruct (iter_error store None) eqn:He; [by rewrite app_nil_r|].
  rewrite iter_pairs_complete, range_pairs_all by done.
  case_decide as Hn; [|apply pending_mark_all].
  destruct (filter _ _).*1; [by rewrite app_nil_r|done].
Qed.
End janitor.

(** The deadline is computed in int64: a positive TTL that takes the sum
    past the range makes the message expired at every time after 1970, so it
    is dropped at its first scan. *)
Theorem ttl_overflow_expires `{ProtoIndex} (msg : StoredMessage) nowMs :
  0 ≤ sm_EnqueuedAtUnixMs msg < 2 ^ 63 → 0 < sm_TtlMs msg < 2 ^ 63 →
  2 ^ 63 ≤ sm_EnqueuedAtUnixMs msg + sm_TtlMs msg → 0 ≤ nowMs →
  isExpired msg nowMs = true.
Proof.
  intros He Ht Hs Hn. unfold isExpired. rewrite decide_False by lia.
  apply bool_decide_eq_true_2. pose proof (i64_overflow (sm_EnqueuedAtUnixMs msg) (sm_TtlMs msg) He ltac:(lia) Hs). lia.
Qed.

Import Toy.
Lemma ttl_overflow_expires_witness :
  isExpired (mkStoredMessage "t" [] 1 0 (2 ^ 63 - 1) []) 5 = true.
Proof. apply ttl_overflow_expires; by vm_compute. Defined.
