(* ===== verification/Producer.v ===== *)
(** * The producer handler ([src/internal/api/grpc/handlers/producer.go])

    [processBatch] with its two write paths: directly into the store, or as a
    StoreBatchCmd through the Raft log.  The Raft node is the class
    [RaftNode]. *)
From stdpp Require Import prelude gmap strings.
From S2P Require Import Prelude Bytes Keys Storage Pebble Proto Repository Codec.
From S2P Require Import EventCommands EventStateMachine Deleter.
Local Open Scope Z_scope.

(** pb.AckLevel; the handler only tells NO_ACK from the others. *)
Inductive AckLevel := ACK_LEVEL_QUORUM | ACK_LEVEL_LEADER | ACK_LEVEL_NO_ACK.

#[export] Instance AckLevel_eq_dec : EqDecision AckLevel.
Proof. solve_decision. Defined.

(** What the handler reads of the configuration. *)
Record producer_config := mkProducerConfig {
  MinAckLevel : string;
  TimeBucketSize : Z;
  NodeID : Z;
}.

Definition errBatchSave : error := ErrorMsg "failed to save batch" [].
Definition errNotLeader : error := ErrorMsg "node is not the cluster leader" [].
Definition errNoAckRefused : error :=
  ErrorMsg "NO_ACK level is not allowed when MinAckLevel is Quorum" [].

Section producer.
Context {DBi : DB} `{XXHash} `{Protobuf}.

Record PublishBatch := mkPublishBatch {
  Messages : list PublishMessage;
  pb_AckLevel : AckLevel;
}.

(** The label of the metrics: the topics in order of first appearance, with a
    separator after each but the one of the last message. *)
Fixpoint topic_label (seen : list string) (msgs : list PublishMessage) : string :=
  match msgs with
  | [] => ""
  | m :: msgs' =>
      if decide (pm_Topic m ∈ seen) then topic_label seen msgs'
      else pm_Topic m +:+
           (if decide (msgs' = []) then "" else "|") +:+
           topic_label (pm_Topic m :: seen) msgs'
  end.

Definition batchTopicLabel (batch : PublishBatch) : string := topic_label [] (Messages batch).

Definition to_stored (nowMs : Z) (msg : PublishMessage) : StoredMessage :=
  mkStoredMessage (pm_Topic msg) (pm_Payload msg) nowMs (pm_DelayMs msg) (pm_TtlMs msg)
    (pm_Indexes msg).

Lemma to_stored_carries nowMs m : carries nowMs m (to_stored nowMs m).
Proof. by split. Qed.

(** The shared loop: [fn] is called on every message until it or a check
    fails; [i] is the index of the message. *)
Fixpoint marshalMessages {S} (msgs : list PublishMessage) (i nowMs : Z)
    (fn : StoredMessage → st S ()) : st S () :=
  match msgs with
  | [] => mret ()
  | msg :: msgs' =>
      if decide (pm_DelayMs msg < 0) then
        st_lift (Err (ErrorMsg ("negative delays are not allowed! delay: %d, topic: " +:+ pm_Topic msg
                                  +:+ " message_idx: %d") [pm_DelayMs msg; i]))
      else if decide (pm_TtlMs msg < 0) then
        st_lift (Err (ErrorMsg ("negative ttls are not allowed! ttl: %d, topic: " +:+ pm_Topic msg
                                  +:+ " message_idx: %d") [pm_TtlMs msg; i]))
      else
        fn (to_stored nowMs msg);;
        marshalMessages msgs' (i + 1) nowMs fn
  end.

(** The state of the standalone path: the shared repository and the store. *)
Definition processStandaloneBatch (batch : PublishBatch) (nowMs : Z)
    : st (EventRepository * db_t) () := λ '(er, d),
  match marshalMessages (Messages batch) 0 nowMs
          (λ data, StoreWithBatch data;; mret ()) (er, []) with
  | ((er', b), Ok ()) =>
      match Commit d b Sync with
      | (d', Some _) => ((er', d'), Err errBatchSave)
      | (d', None) => ((er', d'), Ok ())
      end
  | ((er', _), o) => ((er', d), o)
  end.

(** The callback of the Raft path: one more item. *)
Definition raft_item (cfg : producer_config) (data : StoredMessage)
    : st (list StoreBatchItem) () := λ items,
  match (dataBytes ← wrap_err "failed to marshal message" (Marshal data);
         bucket ← CalculateBucket (fireAtMs data) (TimeBucketSize cfg);
         indexes ← mapM (λ idx, wrap_err "failed to marshal index" (MarshalIndex idx)) (sm_Indexes data);
         Ok (mkStoreBatchItem bucket (TopicHash (sm_Topic data)) indexes dataBytes)) with
  | Ok it => (items ++ [it], Ok ())
  | Err e => (items, Err e)
  | Panic => (items, Panic)
  | OutOfFuel => (items, OutOfFuel)
  end.

Definition build_items (cfg : producer_config) (batch : PublishBatch) (nowMs : Z)
    : outcome (list StoreBatchItem) :=
  match marshalMessages (Messages batch) 0 nowMs (raft_item cfg) [] with
  | (items, Ok ()) => Ok items
  | (_, Err e) => Err (ErrorWrap "failed to build store batch" e)
  | (_, Panic) => Panic
  | (_, OutOfFuel) => OutOfFuel
  end.

(** [GetLeaderID], [SyncPropose] and [Propose] of the NodeHost.  [Propose]
    returns before the command is committed, so nothing is known of its effect
    when it returns. *)
Class RaftNode (PR : @Proposer DBi) := {
  GetLeaderID : pr_t → outcome (Z * bool);
  ProposeAsync : pr_t → bytes → pr_t * option error;
}.

Context {PR : @Proposer DBi} {RN : RaftNode PR}.

Definition isClusterLeader (cfg : producer_config) (p : pr_t) : bool :=
  match GetLeaderID p with
  | Ok (leaderID, valid) => valid && bool_decide (leaderID = NodeID cfg)
  | _ => false
  end.

Definition processRaftBatch (cfg : producer_config) (batch : PublishBatch) (nowMs : Z)
    (ackLevel : AckLevel) : st pr_t () := λ p,
  if negb (isClusterLeader cfg p) then (p, Err errNotLeader)
  else
    match build_items cfg batch nowMs with
    | Ok items =>
        match MarshalStoreBatchCmd items with
        | Ok cmdBytes =>
            let '(p', e) := match ackLevel with
                            | ACK_LEVEL_NO_ACK => ProposeAsync p cmdBytes
                            | _ => propose p cmdBytes
                            end in
            match e with
            | Some e => (p', Err (ErrorWrap "failed to do raft proposal" e))
            | None => (p', Ok ())
            end
        | Err e => (p, Err (ErrorWrap "failed to marshal StoreBatchCmd" e))
        | Panic => (p, Panic)
        | OutOfFuel => (p, OutOfFuel)
        end
    | Err e => (p, Err e)
    | Panic => (p, Panic)
    | OutOfFuel => (p, OutOfFuel)
    end.

(** [app.A] as the handler sees it: without a NodeHost it owns the repository
    and the store, with one it only talks to the node. *)
Inductive app_st :=
  | Standalone (er : EventRepository) (d : db_t)
  | Clustered (p : pr_t).

(** [processBatch]; the value is [Success] of the ack. *)
Definition processBatch (cfg : producer_config) (batch : PublishBatch) (nowMs : Z)
    : st app_st bool := λ a,
  match Messages batch with
  | [] => (a, Ok false)
  | _ =>
      let ackLevel := pb_AckLevel batch in
      if decide (MinAckLevel cfg = "Quorum"%string ∧ ackLevel = ACK_LEVEL_NO_ACK)
      then (a, Err errNoAckRefused)
      else
        let '(a', processErr) :=
          match a with
          | Clustered p =>
              let '(p', o) := processRaftBatch cfg batch nowMs ackLevel p in (Clustered p', o)
          | Standalone er d =>
              let '((er', d'), o) := processStandaloneBatch batch nowMs (er, d) in
              (Standalone er' d', o)
          end in
        (a', (processErr;; Ok true))
  end.

(** What [stream.Recv] returns, with the clock read for the batch and the
    result of the [stream.Send] that answers it. *)
Inductive recv_event :=
  | RecvEOF
  | RecvErr (e : error)
  | RecvBatch (batch : PublishBatch) (nowMs : Z) (sendErr : option error).

(** [PublishStream] over the frames received so far; the second component
    collects the acks sent.  When the frames run out the handler is waiting in
    [Recv], which is [OutOfFuel]. *)
Fixpoint PublishStream (cfg : producer_config) (evs : list recv_event)
    : st (app_st * list bool) () := λ '(a, acks),
  match evs with
  | [] => ((a, acks), OutOfFuel)
  | RecvEOF :: _ => ((a, acks), Ok ())
  | RecvErr e :: _ => ((a, acks), Err (ErrorWrap "stream read error" e))
  | RecvBatch batch nowMs sendErr :: evs' =>
      match processBatch cfg batch nowMs a with
      | (a', Ok ack) =>
          match sendErr with
          | Some e => ((a', acks), Err (ErrorWrap "failed to send ack" e))
          | None => PublishStream cfg evs' (a', acks ++ [ack])
          end
      | (a', Err e) => ((a', acks), Err e)
      | (a', Panic) => ((a', acks), Panic)
      | (a', OutOfFuel) => ((a', acks), OutOfFuel)
      end
  end.

(** ** What a batch stores *)

(** The record a message becomes, whichever path it takes. *)
Definition stored_item (bsize nowMs : Z) (msg : PublishMessage) (it : StoreBatchItem) : Prop :=
  let data := to_stored nowMs msg in
  CalculateBucket (fireAtMs data) bsize = Ok (Bucket it) ∧
  ItemTopicHash it = TopicHash (pm_Topic msg) ∧
  Marshal data = Ok (Msg it) ∧
  Forall2 (λ idx k, MarshalIndex idx = Ok k) (pm_Indexes msg) (Indexes it).

Definition accepted (msg : PublishMessage) : Prop := 0 ≤ pm_DelayMs msg ∧ 0 ≤ pm_TtlMs msg.

Lemma marshalMessages_accepted {S} msgs i nowMs (fn : StoredMessage → st S ()) s s' :
  marshalMessages msgs i nowMs fn s = (s', Ok ()) → Forall accepted msgs.
Proof.
  revert i s. induction msgs as [|m msgs IH]; intros i s; simpl; [constructor|].
  case_decide; [done|]. case_decide; [done|]. intros (s1 & [] & _ & Hr)%st_bind_ok.
  constructor; [unfold accepted; lia|by eapply IH].
Qed.

Lemma marshalMessages_cons {S} m msgs i nowMs (fn : StoredMessage → st S ()) :
  accepted m →
  marshalMessages (m :: msgs) i nowMs fn =
    (fn (to_stored nowMs m);; marshalMessages msgs (i + 1) nowMs fn).
Proof. intros [Hd Ht]. simpl. by rewrite !decide_False by lia. Qed.

Lemma standalone_items nowMs msgs i er b s' :
  marshalMessages msgs i nowMs (λ data, StoreWithBatch data;; mret ()) (er, b) = (s', Ok ()) →
  is_u64 (lastID er) → lastID er + len msgs < 2 ^ 64 →
  ∃ items, Forall2 (stored_item (bucketSize er) nowMs) msgs items ∧
    s' = (mkEventRepository (lastID er + len msgs) (bucketSize er), b ++ items_ops (lastID er) items).
Proof.
  intros Hr. pose proof (marshalMessages_accepted _ _ _ _ _ _ Hr) as Hacc.
  revert i er b Hr. induction Hacc as [|m msgs Ha Hacc IH]; intros i er b Hr Hu Hlt.
  { injection Hr as <-. exists []. split; [constructor|]. unfold len. simpl.
    rewrite Z.add_0_r, app_nil_r. by destruct er. }
  rewrite len_cons in Hlt |- *. pose proof (len_nonneg msgs). unfold is_u64 in Hu.
  rewrite marshalMessages_cons in Hr by done.
  apply st_bind_ok in Hr as (s1 & [] & (s2 & key & Hs & [= <-])%st_bind_ok & Hr).
  apply StoreWithBatch_ok in Hs as (bucket & data & ixs & Hb & Hm & Hix & -> & ->).
  rewrite u64_small in Hr by (unfold is_u64; lia).
  apply IH in Hr as (items & Hf & ->); simpl in *; [|unfold is_u64; lia|lia].
  exists (mkStoreBatchItem bucket (TopicHash (pm_Topic m)) ixs data :: items). split.
  - constructor; [|done]. by split_and!.
  - cbn [items_ops]. rewrite u64_small by (unfold is_u64; lia).
    cbn [Bucket ItemTopicHash Indexes Msg]. rewrite <-app_assoc. do 2 f_equal. lia.
Qed.

Lemma mapM_outcome {A B} (f : A → outcome B) l k :
  mapM f l = Ok k ↔ Forall2 (λ x y, f x = Ok y) l k.
Proof.
  revert k. induction l as [|x l IH]; intros k; simpl.
  - split; [by intros [= <-]; constructor|by inv 1].
  - split.
    + intros (y & Hy & (ys & Hys & [= <-])%outcome_bind_ok)%outcome_bind_ok.
      constructor; [done|by apply IH].
    + inv 1 as [|? y ? ys Hy Hys]. rewrite Hy. cbn [mbind outcome_bind].
      apply IH in Hys. by rewrite Hys.
Qed.

Lemma raft_item_eq cfg nowMs m it items :
  stored_item (TimeBucketSize cfg) nowMs m it →
  raft_item cfg (to_stored nowMs m) items = (items ++ [it], Ok ()).
Proof.
  intros (Hb & Hh & Hm & Hix). unfold raft_item. rewrite Hm. cbn [wrap_err mbind outcome_bind].
  rewrite Hb. cbn [mbind outcome_bind].
  assert (mapM (λ idx, wrap_err "failed to marshal index" (MarshalIndex idx))
            (sm_Indexes (to_stored nowMs m)) = Ok (Indexes it)) as ->.
  { apply mapM_outcome. eapply Forall2_impl; [exact Hix|]. by intros idx k ->. }
  cbn [mbind outcome_bind]. destruct it as [b h ix d]. simpl in *. by rewrite Hh.
Qed.

Lemma build_items_eq cfg batch nowMs items :
  Forall accepted (Messages batch) →
  Forall2 (stored_item (TimeBucketSize cfg) nowMs) (Messages batch) items →
  build_items cfg batch nowMs = Ok items.
Proof.
  intros Hacc Hf. unfold build_items.
  assert (∀ i its, marshalMessages (Messages batch) i nowMs (raft_item cfg) its
                   = (its ++ items, Ok ())) as E.
  { revert Hacc. induction Hf as [|m it msgs items Hi Hf IH]; intros Hacc i its.
    - simpl. by rewrite app_nil_r.
    - apply Forall_cons in Hacc as [Ha Hacc]. rewrite marshalMessages_cons by done.
      unfold mbind, st_bind. rewrite (raft_item_eq _ _ _ it) by done.
      rewrite IH by done. by rewrite <-app_assoc. }
  by rewrite E.
Qed.

Lemma raft_item_ok cfg nowMs m its its' :
  raft_item cfg (to_stored nowMs m) its = (its', Ok ()) →
  ∃ it, stored_item (TimeBucketSize cfg) nowMs m it ∧ its' = its ++ [it].
Proof.
  unfold raft_item. intros Hr. destruct (mbind _ _) as [it|e| |] eqn:E; [|done..].
  injection Hr as <-. exists it. split; [|done].
  apply outcome_bind_ok in E as (d & Hd & (b & Hb & (ixs & Hix & [= <-])%outcome_bind_ok)%outcome_bind_ok).
  split_and!; [done|done| |].
  - simpl. destruct (Marshal _); simpl in Hd; congruence.
  - apply mapM_outcome in Hix. eapply Forall2_impl; [exact Hix|]. intros i k Hk.
    simpl in *. destruct (MarshalIndex i); simpl in Hk; congruence.
Qed.

Lemma build_items_inv cfg batch nowMs items :
  build_items cfg batch nowMs = Ok items →
  Forall2 (stored_item (TimeBucketSize cfg) nowMs) (Messages batch) items.
Proof.
  unfold build_items. intros Hr. destruct (marshalMessages _ _ _ _ _) as [its [[]|e| |]] eqn:Hm; [|done..].
  injection Hr as ->. change items with ([] ++ items). revert Hm. generalize 0. intros i Hm.
  assert (∀ its0, marshalMessages (Messages batch) i nowMs (raft_item cfg) its0 = (items, Ok ()) →
    ∃ k, items = its0 ++ k ∧ Forall2 (stored_item (TimeBucketSize cfg) nowMs) (Messages batch) k)
    as Hg; [|by destruct (Hg [] Hm) as (k & -> & ?)].
  clear Hm. induction (Messages batch) as [|m msgs IH] in i |- *; intros its0 Hm.
  { injection Hm as ->. exists []. by rewrite app_nil_r. }
  simpl in Hm. case_decide; [done|]. case_decide; [done|].
  apply st_bind_ok in Hm as (its1 & [] & (it & Hit & ->)%raft_item_ok & Hm).
  apply IH in Hm as (k & -> & Hk). exists (it :: k). rewrite <-app_assoc. split; [done|].
  by constructor.
Qed.

Lemma build_items_accepted cfg batch nowMs items :
  build_items cfg batch nowMs = Ok items → Forall accepted (Messages batch).
Proof.
  unfold build_items. intros Hr. destruct (marshalMessages _ _ _ _ _) as [its [[]|e| |]] eqn:Hm; [|done..].
  by eapply marshalMessages_accepted.
Qed.

Lemma processStandaloneBatch_accepted batch nowMs s s' :
  processStandaloneBatch batch nowMs s = (s', Ok ()) → Forall accepted (Messages batch).
Proof.
  destruct s as [er d]. unfold processStandaloneBatch. intros Hr.
  destruct (marshalMessages _ _ _ _ _) as [[er' b] [[]|e| |]] eqn:Hm; [|done..].
  by eapply marshalMessages_accepted.
Qed.

(** What a successful standalone batch is made of. *)
Lemma standalone_ok batch nowMs er d s' :
  processStandaloneBatch batch nowMs (er, d) = (s', Ok ()) →
  is_u64 (lastID er) → lastID er + len (Messages batch) < 2 ^ 64 →
  ∃ items, Forall accepted (Messages batch) ∧
    Forall2 (stored_item (bucketSize er) nowMs) (Messages batch) items ∧
    s'.1 = mkEventRepository (lastID er + len items) (bucketSize er) ∧
    contents s'.2 = apply_ops (contents d) (items_ops (lastID er) items).
Proof.
  intros Hr Hu Hlt. unfold processStandaloneBatch in Hr.
  destruct (marshalMessages _ _ _ _ _) as [[er' b] [[]|e| |]] eqn:Hm; [|done..].
  pose proof (marshalMessages_accepted _ _ _ _ _ _ Hm) as Hacc.
  apply standalone_items in Hm as (items & Hf & [= -> ->]); [|done..].
  destruct (Commit _ _ _) as [d' [e|]] eqn:Hc; [done|]. injection Hr as <-.
  exists items. split_and!; [done..| |by apply Commit_ok in Hc].
  simpl. unfold len. by rewrite (Forall2_length _ _ _ Hf).
Qed.

Lemma standalone_fail batch nowMs er d s' o :
  processStandaloneBatch batch nowMs (er, d) = (s', o) → o ≠ Ok () → contents s'.2 = contents d.
Proof.
  unfold processStandaloneBatch.
  destruct (marshalMessages _ _ _ _ _) as [[er' b] [[]|e| |]]; try by intros [= <- <-].
  destruct (Commit _ _ _) as [d' [e|]] eqn:Hc; intros [= <- <-] Hno; [|done].
  simpl. by apply Commit_err in Hc.
Qed.

(** The indexes of a message do not clash with the repository's keys. *)
Definition indexes_ok (m : PublishMessage) : Prop :=
  Forall (λ idx, ∀ k, MarshalIndex idx = Ok k → index_ok k) (pm_Indexes m).

Lemma repo_inv_grow m er er' :
  repo_inv m er → lastID er ≤ lastID er' → is_u64 (lastID er') → repo_inv m er'.
Proof. intros [Hc Hi Hl Hu] ? ?. split; [done..|lia|done]. Qed.

Lemma marshalMessages_inv m nowMs msgs i s s' o :
  marshalMessages msgs i nowMs (λ data, StoreWithBatch data;; mret ()) s = (s', o) →
  batch_inv m s → lastID s.1 + len msgs < 2 ^ 64 → Forall indexes_ok msgs →
  batch_inv m s' ∧ lastID s.1 ≤ lastID s'.1 ≤ lastID s.1 + len msgs ∧
  bucketSize s'.1 = bucketSize s.1.
Proof.
  induction msgs as [|msg msgs IH] in i, s |- *; simpl.
  { intros [= <- <-] Hi _ _. unfold len. simpl. split_and!; [done|lia..|done]. }
  rewrite len_cons. pose proof (len_nonneg msgs).
  case_decide; [intros [= <- <-] ? _ _; split_and!; [done|lia..|done]|].
  case_decide; [intros [= <- <-] ? _ _; split_and!; [done|lia..|done]|].
  unfold mbind, st_bind at 1, mbind, st_bind at 1.
  destruct (StoreWithBatch _ s) as [s1 r] eqn:Hs. intros Hr Hi Hlt [Hix Hf]%Forall_cons.
  apply (StoreWithBatch_inv m) in Hs as (Hi1 & E1 & B1); [|done|lia|done].
  destruct r; simpl in Hr; [|injection Hr as <- <-; split_and!; [done|lia..|done]..].
  apply IH in Hr as (? & ? & ?); [|done|lia|done].
  split_and!; [done|lia..|congruence].
Qed.

(** Whatever happens to a standalone batch, the id invariant holds after it. *)
Lemma standalone_inv batch nowMs er d er' d' o :
  processStandaloneBatch batch nowMs (er, d) = ((er', d'), o) →
  repo_inv (contents d) er → lastID er + len (Messages batch) < 2 ^ 64 →
  Forall indexes_ok (Messages batch) →
  repo_inv (contents d') er' ∧ lastID er ≤ lastID er' ≤ lastID er + len (Messages batch) ∧
  bucketSize er' = bucketSize er.
Proof.
  intros Hr Hi Hlt Hix. unfold processStandaloneBatch in Hr.
  destruct (marshalMessages _ _ _ _ _) as [[er1 b] r] eqn:Hm.
  apply (marshalMessages_inv (contents d)) in Hm as (Hb & Hle & Hbs); [|done..].
  unfold batch_inv in Hb. simpl in *.
  pose proof (repo_inv_grow _ _ er1 Hi ltac:(lia) (ri_u64 _ _ Hb)) as Hg.
  destruct r as [[]|e| |]; [|by simplify_eq..].
  destruct (Commit _ _ _) as [d1 [e|]] eqn:Hc; simplify_eq; split_and!; try (done || lia).
  - by rewrite (Commit_err _ _ _ _ _ Hc).
  - by rewrite (Commit_ok _ _ _ _ Hc).
Qed.

Lemma stored_index_ok bsize nowMs msgs items :
  Forall2 (stored_item bsize nowMs) msgs items → Forall indexes_ok msgs →
  Forall (λ it, Forall index_ok (Indexes it)) items.
Proof.
  intros Hf Hok. apply Forall_forall. intros it [n Hn]%list_elem_of_lookup.
  destruct (Forall2_lookup_r _ _ _ _ _ Hf Hn) as (m & Hm & _ & _ & _ & Hixs).
  eapply Forall_lookup_1 in Hok; [|exact Hm].
  apply Forall_forall. intros k [j Hj]%list_elem_of_lookup.
  destruct (Forall2_lookup_r _ _ _ _ _ Hixs Hj) as (idx & Hidx & Hk).
  eapply Forall_lookup_1 in Hok; [|exact Hidx]. by apply Hok.
Qed.

(** The message [m] published at [nowMs] is stored under the id [id], in the
    bucket of the time it is due, and its record carries it. *)
Definition stored_at (c : gmap bytes bytes) (bsize nowMs : Z) (m : PublishMessage) (id : Z) : Prop :=
  ∃ b v sm, CalculateBucket (due_ms nowMs m) bsize = Ok b ∧
    c !! EventKey b (TopicHash (pm_Topic m)) id = Some v ∧
    Unmarshal v = Ok sm ∧ carries nowMs m sm.

Definition keeps_events (c c' : gmap bytes bytes) : Prop :=
  ∀ k v, length k = 24%nat → c !! k = Some v → c' !! k = Some v.

#[export] Instance keeps_events_preorder : PreOrder keeps_events.
Proof.
  split; [by intros c k v|]. intros c1 c2 c3 H12 H23 k v Hl Hk. by apply H23, H12.
Qed.

Lemma stored_at_keeps c c' bsize nowMs m id :
  keeps_events c c' → stored_at c bsize nowMs m id → stored_at c' bsize nowMs m id.
Proof.
  intros Hk (b & v & sm & Hb & Hc & Hu). exists b, v, sm. split_and!; [done|apply Hk|apply Hu..]; [|done].
  apply length_EventKey.
Qed.

(** The items of a batch, written from the counter on, hold its messages. *)
Lemma items_stored c bsize nowMs er msgs items :
  repo_inv c er → lastID er + len msgs < 2 ^ 64 →
  Forall indexes_ok msgs → Forall (wf_pub nowMs) msgs →
  Forall2 (stored_item bsize nowMs) msgs items →
  let c' := apply_ops c (items_ops (lastID er) items) in
  (∀ n m, msgs !! n = Some m → stored_at c' bsize nowMs m (lastID er + 1 + Z.of_nat n)) ∧
  keeps_events c c'.
Proof.
  intros Hi Hlt Hix Hwf Hf c'. pose proof (ri_u64 _ _ Hi) as Hu.
  assert (len items = len msgs) as Hlen by (unfold len; by rewrite (Forall2_length _ _ _ Hf)).
  destruct (items_ops_lookup c (lastID er) items) as [Hin Hold];
    [unfold is_u64 in Hu; lia|lia|by eapply stored_index_ok|]. split.
  - intros n m Hm. destruct (Forall2_lookup_l _ _ _ _ _ Hf Hm) as (it & Hit & Hb & Hh & Hmar & _).
    exists (Bucket it), (Msg it), (to_stored nowMs m).
    split_and!; [exact Hb| | |apply to_stored_carries].
    + rewrite <-Hh. by apply Hin.
    + eapply Forall_lookup_1 in Hwf; [|exact Hm].
      eapply Unmarshal_Marshal; [|done]. by eapply carries_wf, Hwf; apply to_stored_carries.
  - intros k v Hl Hk. unfold c'. rewrite Hold; [done..|].
    etrans; [by eapply (ri_ids _ _ Hi)|apply (ri_last _ _ Hi)].
Qed.

(** The ids of a batch stored from the counter [id] on. *)
Definition batch_ids {A} (id : Z) (msgs : list A) : list Z :=
  (λ n, id + 1 + Z.of_nat n) <$> seq 0 (length msgs).

Lemma batch_ids_stored {A} (P : A → Z → Prop) id (msgs : list A) :
  (∀ n m, msgs !! n = Some m → P m (id + 1 + Z.of_nat n)) →
  NoDup (batch_ids id msgs) ∧ Forall2 P msgs (batch_ids id msgs) ∧
  Forall (λ i, id < i ≤ id + len msgs) (batch_ids id msgs).
Proof.
  intros Hp. unfold batch_ids. split_and!.
  - apply NoDup_fmap; [|apply NoDup_seq]. intros x y ?. lia.
  - apply Forall2_fmap_r, Forall2_same_length_lookup_2; [by rewrite length_seq|].
    intros n m k Hm [-> _]%lookup_seq. by apply Hp.
  - apply Forall_fmap, Forall_forall. intros n [_ Hn]%elem_of_seq. unfold len. simpl. lia.
Qed.

Definition batch_ok (batch : PublishBatch) (nowMs : Z) : Prop :=
  Forall (λ m, indexes_ok m ∧ wf_pub nowMs m) (Messages batch).

Lemma processBatch_standalone cfg batch nowMs er d a' r :
  processBatch cfg batch nowMs (Standalone er d) = (a', r) →
  repo_inv (contents d) er → lastID er + len (Messages batch) < 2 ^ 64 → batch_ok batch nowMs →
  ∃ er' d', a' = Standalone er' d' ∧ repo_inv (contents d') er' ∧
    lastID er ≤ lastID er' ≤ lastID er + len (Messages batch) ∧ bucketSize er' = bucketSize er ∧
    keeps_events (contents d) (contents d') ∧
    (∀ ack, r = Ok ack → lastID er' = lastID er + len (Messages batch) ∧
       ∀ n m, Messages batch !! n = Some m →
         stored_at (contents d') (bucketSize er) nowMs m (lastID er + 1 + Z.of_nat n)).
Proof.
  intros Hr Hi Hlt [Hix Hwf]%Forall_and. unfold processBatch in Hr.
  destruct (Messages batch) as [|m0 ms] eqn:Hms.
  { simplify_eq. exists er, d. unfold len. simpl.
    split_and!; try (reflexivity || done || lia). intros. split; [lia|done]. }
  rewrite <-Hms in *. clear Hms. case_decide.
  { pose proof (len_nonneg (Messages batch)). simplify_eq. exists er, d.
    split_and!; try (reflexivity || done || lia). }
  destruct (processStandaloneBatch batch nowMs (er, d)) as [[er' d'] o] eqn:Hp.
  injection Hr as <- <-. exists er', d'.
  destruct (standalone_inv _ _ _ _ _ _ _ Hp Hi Hlt Hix) as (Hi' & Hle & Hbs).
  destruct o as [[]|e| |];
    [|split_and!; try (done || lia);
      by rewrite <-(standalone_fail _ _ _ _ _ _ Hp)..].
  apply standalone_ok in Hp as (items & _ & Hf & Er & Hc); [|by apply Hi|done]. simpl in *.
  destruct (items_stored _ _ _ _ _ _ Hi Hlt Hix Hwf Hf) as [Hin Hk]. rewrite Hc.
  split_and!; [done|by rewrite <-Hc|lia..|done|done|]. intros ack _. split; [|done].
  rewrite Er. simpl. unfold len. by rewrite (Forall2_length _ _ _ Hf).
Qed.

(** The messages of the first [n] batches of a stream, with their times. *)
Fixpoint acked_msgs (evs : list recv_event) (n : nat) : list (Z * PublishMessage) :=
  match evs, n with
  | RecvBatch batch nowMs _ :: evs', S n' =>
      ((λ m, (nowMs, m)) <$> Messages batch) ++ acked_msgs evs' n'
  | _, _ => []
  end.

Definition ev_len (ev : recv_event) : Z :=
  match ev with RecvBatch batch _ _ => len (Messages batch) | _ => 0 end.
Definition stream_len (evs : list recv_event) : Z := foldr (λ ev n, ev_len ev + n) 0 evs.
Definition ev_ok (ev : recv_event) : Prop :=
  match ev with RecvBatch batch nowMs _ => batch_ok batch nowMs | _ => True end.

Lemma stream_len_nonneg evs : 0 ≤ stream_len evs.
Proof.
  induction evs as [|[|e|b n s] evs IH]; simpl; [lia..|]. pose proof (len_nonneg (Messages b)). lia.
Qed.

Lemma keeps_applied c v : keeps_events c (<[appliedIndexKey := v]> c).
Proof.
  intros k w Hl Hk. rewrite lookup_insert_ne; [done|]. intros <-. by apply appliedIndexKey_ok in Hl.
Qed.

Lemma acked_durable cfg evs er d acks0 s' acks o :
  repo_inv (contents d) er → lastID er + stream_len evs < 2 ^ 64 → Forall ev_ok evs →
  PublishStream cfg evs (Standalone er d, acks0) = ((s', acks), o) →
  ∃ er' d' ids n, s' = Standalone er' d' ∧ repo_inv (contents d') er' ∧
    length acks = (length acks0 + n)%nat ∧
    NoDup ids ∧ Forall (λ i, lastID er < i) ids ∧
    Forall2 (λ nm id, stored_at (contents d') (bucketSize er) nm.1 nm.2 id) (acked_msgs evs n) ids ∧
    keeps_events (contents d) (contents d').
Proof.
  revert er d acks0. induction evs as [|ev evs IH]; intros er d acks0 Hi Hlt Hok Hr.
  { simpl in Hr. simplify_eq. exists er, d, [], 0%nat. split_and!; try (reflexivity || lia || done || constructor). }
  destruct ev as [|e|batch nowMs sendErr]; simpl in Hr.
  1,2: simplify_eq; exists er, d, [], 0%nat; split_and!; try (reflexivity || lia || done || constructor).
  apply Forall_cons in Hok as [Hb Hok]. simpl in Hlt. pose proof (stream_len_nonneg evs).
  destruct (processBatch _ _ _ _) as [a' r] eqn:Hp.
  apply processBatch_standalone in Hp as (er1 & d1 & -> & Hi1 & Hle & Hbs & Hk1 & Hst); [|done|lia|done].
  assert (∃ er' d' ids n, Standalone er1 d1 = Standalone er' d' ∧ repo_inv (contents d') er' ∧
    length acks0 = (length acks0 + n)%nat ∧
    NoDup ids ∧ Forall (λ i, lastID er < i) ids ∧
    Forall2 (λ nm id, stored_at (contents d') (bucketSize er) nm.1 nm.2 id)
      (acked_msgs (RecvBatch batch nowMs sendErr :: evs) n) ids ∧
    keeps_events (contents d) (contents d')) as Hstop.
  { exists er1, d1, [], 0%nat. split_and!; try (reflexivity || lia || done || constructor). }
  destruct r as [ack|e| |]; [|by simplify_eq..]. destruct sendErr as [e|]; [by simplify_eq|].
  destruct (Hst ack eq_refl) as [El Hin].
  apply IH in Hr as (er' & d' & ids & n & -> & Hi' & Hlen & Hnd & Hgt & Hf & Hk2); [|done|lia|done].
  destruct (batch_ids_stored (λ m id, stored_at (contents d1) (bucketSize er) nowMs m id)
              (lastID er) _ Hin) as (Hnd1 & Hf1 & Hr1).
  exists er', d', (batch_ids (lastID er) (Messages batch) ++ ids), (S n).
  split_and!; [done..| | | | |by etrans].
  - rewrite length_app in Hlen. simpl in Hlen. lia.
  - apply NoDup_app. split_and!; [done| |done]. intros i Hi1' Hi2'.
    rewrite Forall_forall in Hr1, Hgt. specialize (Hr1 _ Hi1'). specialize (Hgt _ Hi2'). lia.
  - apply Forall_app. split; (eapply Forall_impl; [done|]); simpl; lia.
  - simpl. apply Forall2_app; [|by rewrite Hbs in Hf]. apply Forall2_fmap_l.
    eapply Forall2_impl; [exact Hf1|]. simpl. intros m i. by apply stored_at_keeps.
Qed.

(** ** Properties *)

(** A standalone publish is all or nothing.  On success every message of
    the batch is in the store, in batch order under consecutive fresh ids, in
    the bucket of its fire time, and its record decodes to the message; every
    event stored before is still there.  On any failure the store is
    unchanged. *)
Theorem publish_all_or_nothing batch nowMs er d s' o :
  repo_inv (contents d) er → lastID er + len (Messages batch) < 2 ^ 64 →
  batch_ok batch nowMs →
  processStandaloneBatch batch nowMs (er, d) = (s', o) →
  match o with
  | Ok _ =>
      (∀ n m, Messages batch !! n = Some m →
         stored_at (contents s'.2) (bucketSize er) nowMs m (lastID er + 1 + Z.of_nat n)) ∧
      keeps_events (contents d) (contents s'.2)
  | _ => contents s'.2 = contents d
  end.
Proof.
  intros Hi Hlt [Hix Hwf]%Forall_and Hr. destruct o as [[]|e| |]; [|by eapply standalone_fail..].
  apply standalone_ok in Hr as (items & _ & Hf & _ & ->); [|by apply Hi|done].
  by apply items_stored.
Qed.

(** C3. Acknowledged means stored.  Over any sequence of frames on a standalone
    publish stream, with rejected batches, failed commits and failed sends
    among them, every message of every batch the client got an ack for is in
    the store at the end, under an id of its own, in the bucket of the time it
    is due, in a record that decodes to the published topic, payload, delay, ttl
    and indexes and the time of the publication; events stored before are kept
    and the id invariant holds.  The stream has the repository to itself, and no
    index encodes to an event key or the key of the counter. *)
Theorem acked_messages_stored cfg evs er d s' acks o :
  repo_inv (contents d) er → lastID er + stream_len evs < 2 ^ 64 → Forall ev_ok evs →
  PublishStream cfg evs (Standalone er d, []) = ((s', acks), o) →
  ∃ er' d' ids, s' = Standalone er' d' ∧ repo_inv (contents d') er' ∧ NoDup ids ∧
    Forall2 (λ nm id, stored_at (contents d') (bucketSize er) nm.1 nm.2 id)
      (acked_msgs evs (length acks)) ids ∧
    keeps_events (contents d) (contents d').
Proof.
  intros Hi Hlt Hok Hr.
  apply acked_durable in Hr as (er' & d' & ids & n & -> & Hi' & Hlen & Hnd & _ & Hf & Hk); [|done..].
  exists er', d', ids. simpl in Hlen. by rewrite Hlen.
Qed.

(** C37. What is rejected has no effect: a batch with a negative delay or ttl,
    a NO_ACK batch when the minimum ack level is Quorum, and any batch sent to
    a node that is not the leader get an error, and the store, the state
    machine and the log are as before. *)
Theorem rejected_has_no_effect cfg batch nowMs a a' r :
  Messages batch ≠ [] →
  processBatch cfg batch nowMs a = (a', r) →
  Exists (λ m, ¬ accepted m) (Messages batch) ∨
  (MinAckLevel cfg = "Quorum"%string ∧ pb_AckLevel batch = ACK_LEVEL_NO_ACK) ∨
  (∃ p, a = Clustered p ∧ isClusterLeader cfg p = false) →
  (∀ ack, r ≠ Ok ack) ∧
  match a, a' with
  | Standalone _ d, Standalone _ d' => contents d' = contents d
  | Clustered p, Clustered p' => p' = p
  | _, _ => False
  end.
Proof.
  intros Hne Hr Hrej. unfold processBatch in Hr.
  destruct (Messages batch) as [|m0 ms] eqn:Hms; [done|]. rewrite <-Hms in *. clear Hms Hne.
  case_decide as Hq; [simplify_eq; by destruct a'|].
  assert (∀ (P : Prop), Forall accepted (Messages batch) →
    Exists (λ m, ¬ accepted m) (Messages batch) → P) as Habs.
  { intros P Hf (m & Hm & Hn)%Exists_exists. rewrite Forall_forall in Hf. by destruct (Hn (Hf _ Hm)). }
  destruct a as [er d|p].
  - destruct (processStandaloneBatch batch nowMs (er, d)) as [[er' d'] o] eqn:Hp. simplify_eq.
    destruct Hrej as [Hrej|[?|(? & [=] & _)]]; [|done].
    destruct o as [[]|e| |]; simpl;
      [|split; [done|by eapply (standalone_fail _ _ _ _ (er', d'))]..].
    apply processStandaloneBatch_accepted in Hp. by eapply Habs.
  - destruct (processRaftBatch cfg batch nowMs (pb_AckLevel batch) p) as [p' o] eqn:Hp. simplify_eq.
    unfold processRaftBatch in Hp. destruct (isClusterLeader cfg p) eqn:Hl; simpl in Hp; [|by simplify_eq].
    destruct Hrej as [Hrej|[?|(? & [= <-] & ?)]]; [|done|congruence].
    destruct (build_items cfg batch nowMs) as [items|e| |] eqn:Hb; [|by simplify_eq..].
    apply build_items_accepted in Hb. by eapply Habs.
Qed.
End producer.

(** ** Runs *)
Import Toy.

Definition leader_node : @RaftNode MapDB local_raft := {|
  GetLeaderID _ := Ok (1, true);
  ProposeAsync p cmd := (p, None);
|}.

Definition sample_producer_cfg : producer_config := mkProducerConfig "Quorum" Millisecond 1.

Definition pub (topic : string) (delay : Z) : PublishMessage :=
  mkPublishMessage topic (of_str "x") delay 0 [of_str "idx"].
Definition sample_batch : PublishBatch := mkPublishBatch [pub "a" 5; pub "b" 0] ACK_LEVEL_QUORUM.
Definition bad_batch : PublishBatch := mkPublishBatch [pub "a" 5; pub "b" (-1)] ACK_LEVEL_QUORUM.

Lemma idx_ok d t : @indexes_ok toy_index toy_protobuf (pub t d).
Proof.
  constructor; [|constructor]. intros k [= <-]. apply (bool_decide_unpack _). by vm_compute.
Qed.

Lemma sample_batch_ok : @batch_ok toy_index toy_protobuf sample_batch 100.
Proof.
  repeat apply Forall_cons_2; [..|apply Forall_nil_2]; (split; [apply idx_ok|]);
    apply (bool_decide_unpack _); by vm_compute.
Qed.

Abbreviation sample_standalone := (@processStandaloneBatch MapDB zero_hash toy_index toy_protobuf).

Lemma publish_all_or_nothing_witness :
  @stored_at zero_hash toy_index toy_protobuf
    (@contents MapDB (sample_standalone sample_batch 100 (fresh_repo, ∅)).1.2)
    Millisecond 100 (pub "b" 0) 2.
Proof.
  pose proof (@publish_all_or_nothing MapDB zero_hash toy_index toy_protobuf sample_batch 100
    fresh_repo (∅ : gmap bytes bytes) _ (Ok ()) fresh_repo_inv ltac:(by vm_compute) sample_batch_ok
    (pair_snd_eq (sample_standalone sample_batch 100 (fresh_repo, ∅)) (Ok ()) eq_refl)) as [Hin _].
  exact (Hin 1%nat (pub "b" 0) eq_refl).
Defined.

Definition sample_stream : list (@recv_event toy_index) :=
  [RecvBatch sample_batch 100 None; RecvBatch sample_batch 100 (Some ErrEOF)].

Lemma sample_stream_ok : Forall (@ev_ok toy_index toy_protobuf) sample_stream.
Proof. do 2 (apply Forall_cons_2; [exact sample_batch_ok|]). by apply Forall_nil_2. Qed.

Abbreviation sample_publish := (@PublishStream MapDB zero_hash toy_index toy_protobuf local_raft
  leader_node sample_producer_cfg).
Abbreviation sample_app := (@Standalone MapDB local_raft fresh_repo (∅ : gmap bytes bytes)).

Lemma acked_messages_stored_witness :
  (sample_publish sample_stream (sample_app, [])).1.2 = [true] ∧
  ∃ er' d' ids, (sample_publish sample_stream (sample_app, [])).1.1 = Standalone er' d' ∧
    Forall2 (λ nm id, @stored_at zero_hash toy_index toy_protobuf (@contents MapDB d') Millisecond
                        nm.1 nm.2 id) [(100, pub "a" 5); (100, pub "b" 0)] ids.
Proof.
  destruct (@acked_messages_stored MapDB zero_hash toy_index toy_protobuf local_raft leader_node
    sample_producer_cfg sample_stream fresh_repo (∅ : gmap bytes bytes)
    (sample_publish sample_stream (sample_app, [])).1.1
    (sample_publish sample_stream (sample_app, [])).1.2
    (sample_publish sample_stream (sample_app, [])).2
    fresh_repo_inv ltac:(by vm_compute)
    sample_stream_ok) as (er' & d' & ids & E & _ & _ & Hf & _).
  - by destruct (sample_publish sample_stream (sample_app, [])) as [[??]?].
  - split; [by vm_compute|]. exists er', d', ids. split; [exact E|exact Hf].
Defined.

Lemma rejected_has_no_effect_witness :
  let r := @processBatch MapDB zero_hash toy_index toy_protobuf local_raft leader_node
             sample_producer_cfg bad_batch 100 sample_app in
  match r.1 with Standalone _ d => @contents MapDB d = ∅ | Clustered _ => False end.
Proof.
  refine (proj2 (@rejected_has_no_effect MapDB zero_hash toy_index toy_protobuf local_raft leader_node
    sample_producer_cfg bad_batch 100 sample_app _ _ _ (surjective_pairing _) _)); [done|].
  left. right. left. by intros [? _].
Defined.
