(* ===== verification/Consumer.v ===== *)
(** * The consumer handler ([src/internal/api/grpc/handlers/consumer.go])

    [Subscribe]: the handshake, the registration, the sender and the receiver
    goroutine and the clean-up.  The hub and the deleter are shared with the
    rest of the process: a session runs over a sequence of events, in which the
    steps of the two goroutines and the steps of others ([EvOther], any new
    shared state) come in any order. *)
From stdpp Require Import prelude gmap strings sorting.
From S2P Require Import Prelude Bytes Keys Storage Pebble Proto Hub Deleter Dispatcher.
Local Open Scope Z_scope.

(** pb.ConsumerFrame: the two cases of its body, or none. *)
Inductive ConsumerFrame :=
  | FrameInit (topic groupID : string)
  | FrameAck (deliveryTag : bytes) (success : bool)
  | FrameEmpty.

(** What [stream.Recv] returns. *)
Inductive frame_recv := FrameOk (f : ConsumerFrame) | FrameErr (e : error).

Abbreviation SubscribeInit := (string * string)%type.

Definition GetInit (f : ConsumerFrame) : option SubscribeInit :=
  match f with FrameInit t g => Some (t, g) | _ => None end.
Definition GetAck (f : ConsumerFrame) : option (bytes * bool) :=
  match f with FrameAck tag ok => Some (tag, ok) | _ => None end.

Definition errCanceled : error := ErrorMsg "context canceled" [].
Definition errDeadlineExceeded : error := ErrorMsg "context deadline exceeded" [].

(** [None] is the nil that is returned, with a nil error, when the client
    closes the stream before the first frame. *)
Definition readInit (r : frame_recv) : outcome (option SubscribeInit) :=
  match r with
  | FrameErr e =>
      if decide (e = ErrEOF) then Ok None else Err (ErrorWrap "failed to read init frame" e)
  | FrameOk f =>
      match GetInit f with
      | None => Err (ErrorMsg "first frame must be a SubscribeInit; got %T" [])
      | Some (topic, groupID) =>
          if decide (topic = ""%string)
          then Err (ErrorMsg "SubscribeInit.topic must not be empty" [])
          else Ok (Some (topic, groupID))
      end
  end.

(** The log line of the refusal reads the fields of [init]. *)
Definition checkLeadership (cfg : dispatch_config) (nh : leader_info) (init : option SubscribeInit)
    : outcome () :=
  if isLeader cfg nh then Ok ()
  else match init with
       | Some _ => Err (ErrorMsg "node is not the cluster leader" [])
       | None => Panic
       end.

Section consumer.
Context `{DispatchStrategy} `{MapRange} `{DeleteBackend}.

(** The shared state, what went out on the stream, and the error channel (a
    nil error is [None]). *)
Record session := mkSession {
  s_hub : Hub;
  s_deleter : Deleter;
  s_out : list QueueMessage;
  s_errCh : list (option error);
}.

(** One round of the sender's [select]. *)
Inductive sender_event := SenderDone (e : error) | SenderMsg (sendErr : option error).

Definition sender_step (ch : nat) (ev : sender_event) (s : session) : session :=
  match ev with
  | SenderDone e => mkSession (s_hub s) (s_deleter s) (s_out s) (s_errCh s ++ [Some e])
  | SenderMsg sendErr =>
      match recv ch (s_hub s) with
      | (h', Some msg) =>
          match sendErr with
          | Some e => mkSession h' (s_deleter s) (s_out s) (s_errCh s ++ [Some e])
          | None => mkSession h' (s_deleter s) (s_out s ++ [msg]) (s_errCh s)
          end
      | (_, None) => s
      end
  end.

(** One round of the receiver. *)
Definition receiver_step (consumerID : string) (r : frame_recv) (s : session) : session :=
  match r with
  | FrameErr e =>
      mkSession (s_hub s) (s_deleter s) (s_out s)
        (s_errCh s ++ [if decide (e = ErrEOF) then None else Some e])
  | FrameOk f =>
      match GetAck f with
      | None => s
      | Some (tag, success) =>
          mkSession (RemoveInFlightForConsumer consumerID tag (s_hub s))
            (if success : bool then MarkDeleted tag (s_deleter s) else s_deleter s)
            (s_out s) (s_errCh s)
      end
  end.

Inductive session_event :=
  | EvSender (ev : sender_event)
  | EvReceiver (r : frame_recv)
  | EvOther (h : Hub) (d : Deleter).

(** [err = <-errCh]: the session runs until a goroutine reports. *)
Fixpoint session_run (consumerID : string) (ch : nat) (evs : list session_event) (s : session)
    : session * outcome (option error) :=
  match s_errCh s with
  | err :: _ => (s, Ok err)
  | [] =>
      match evs with
      | [] => (s, OutOfFuel)
      | EvSender ev :: evs' => session_run consumerID ch evs' (sender_step ch ev s)
      | EvReceiver r :: evs' => session_run consumerID ch evs' (receiver_step consumerID r s)
      | EvOther h d :: evs' =>
          session_run consumerID ch evs' (mkSession h d (s_out s) (s_errCh s))
      end
  end.

Definition stream_result (err : option error) : outcome () :=
  match err with
  | None => Ok ()
  | Some e =>
      if errors_Is e errCanceled || errors_Is e errDeadlineExceeded || bool_decide (e = ErrEOF)
      then Ok () else Err (ErrorWrap "stream error" e)
  end.

(** [Subscribe]; [consumerID] is the fresh uuid, [ch] the new channel.  The
    deferred [Unregister] runs on every return after the registration. *)
Definition Subscribe (cfg : dispatch_config) (nh : leader_info) (consumerID : string) (ch : nat)
    (first : frame_recv) (evs : list session_event) (h : Hub) (d : Deleter) : session * outcome () :=
  let s0 := mkSession h d [] [] in
  match (init ← readInit first; checkLeadership cfg nh init;;
         match init with Some i => Ok i | None => Panic end) with
  | Ok (topic, groupID) =>
      let h1 := Register consumerID topic groupID ch (open_chan ch 1024 h) in
      match session_run consumerID ch evs (mkSession h1 d [] []) with
      | (s, OutOfFuel) => (s, OutOfFuel)
      | (s, o) =>
          (mkSession (Unregister consumerID (s_hub s)) (s_deleter s) (s_out s) (s_errCh s),
           err ← o; stream_result err)
      end
  | Err e => (s0, Err e)
  | Panic => (s0, Panic)
  | OutOfFuel => (s0, OutOfFuel)
  end.

(** ** What a session can do *)

(** The tags acknowledged, and the keys others had pending, in the events. *)
Definition acked (evs : list session_event) : list bytes :=
  omap (λ ev, match ev with EvReceiver (FrameOk (FrameAck tag true)) => Some tag | _ => None end) evs.
Definition others_pending (evs : list session_event) : list bytes :=
  mjoin ((λ ev, match ev with EvOther _ d => pending d | _ => [] end) <$> evs).

Lemma sender_step_deleter ch ev s : s_deleter (sender_step ch ev s) = s_deleter s.
Proof. destruct ev as [e|[e|]]; simpl; [done|..]; by destruct (recv ch (s_hub s)) as [h' [m|]]. Qed.

Lemma session_run_pending id ch evs s s' o :
  session_run id ch evs s = (s', o) →
  pending (s_deleter s') ⊆ pending (s_deleter s) ++ acked evs ++ others_pending evs.
Proof.
  revert s. induction evs as [|ev evs IH]; intros s; simpl.
  { destruct (s_errCh s); intros [= <- <-]; set_solver. }
  destruct (s_errCh s) as [|err errs]; [|intros [= <- <-]; set_solver].
  unfold acked, others_pending in *.
  destruct ev as [ev|r|h d]; intros Hr%IH; simpl.
  - rewrite sender_step_deleter in Hr. set_solver.
  - destruct r as [[t g|tag []|]|e]; simpl in *; set_solver.
  - simpl in Hr. set_solver.
Qed.

(** C38. A subscription cleans up and deletes nothing on its own.  When the
    handshake is refused (no init frame, an empty topic, not the leader, a
    broken stream) hub and deleter are untouched.  When the stream ends, on
    every path, the consumer is no longer registered.  And the only keys the
    session adds to those pending deletion are delivery tags the client
    acknowledged with success; a NACK adds none. *)
Theorem subscribe_sound cfg nh id ch first evs h d s o :
  Subscribe cfg nh id ch first evs h d = (s, o) →
  (o ≠ OutOfFuel →
   (s_hub s = h ∧ s_deleter s = d) ∨ byID (s_hub s) !! id = None) ∧
  (∀ t g, first = FrameOk (FrameInit t g) → t ≠ ""%string → isLeader cfg nh = true → o ≠ Panic) ∧
  ((∀ t g, first ≠ FrameOk (FrameInit t g) ∨ t = ""%string) ∨ isLeader cfg nh = false →
   s_hub s = h ∧ s_deleter s = d ∧ o ≠ Ok ()) ∧
  pending (s_deleter s) ⊆ pending d ++ acked evs ++ others_pending evs.
Proof.
  unfold Subscribe.
  destruct (mbind _ (readInit first)) as [[topic g]|e| |] eqn:Hi; cbn [fst snd].
  2-4: intros [= <- <-]; split_and!; [by left| |done|set_solver].
  2-4: intros t g -> Ht HL; simpl in Hi; rewrite decide_False in Hi by done; simpl in Hi;
       unfold checkLeadership in Hi; rewrite HL in Hi; by simpl in Hi.
  assert (first = FrameOk (FrameInit topic g) ∧ topic ≠ ""%string ∧ isLeader cfg nh = true) as (-> & Ht & HL).
  { apply outcome_bind_ok in Hi as (init & Hr & ([] & Hl & Hm)%outcome_bind_ok).
    destruct init as [i|]; [|done]. injection Hm as ->. unfold checkLeadership in Hl.
    destruct (isLeader cfg nh); [|done]. unfold readInit in Hr.
    destruct first as [[]|e]; simpl in Hr; try (by case_decide); try done.
    case_decide; [done|]. by simplify_eq. }
  destruct (session_run _ _ _ _) as [s1 o1] eqn:Hs.
  pose proof (session_run_pending _ _ _ _ _ _ Hs) as Hp. simpl in Hp.
  assert (o1 = OutOfFuel ∨ ∃ err, o1 = Ok err) as Ho.
  { clear -Hs. revert Hs. generalize (mkSession (Register id topic g ch (open_chan ch 1024 h)) d [] []).
    induction evs as [|ev evs IH]; intros s; simpl; destruct (s_errCh s); try (intros [= <- <-]; eauto).
    by destruct ev; apply IH. }
  intros E. split_and!.
  - intros Hne. right. destruct Ho as [->|[err ->]]; injection E as <- <-; [done|].
    simpl. rewrite (proj1 (Unregister_frame id (s_hub s1))). apply lookup_delete_eq.
  - intros _ _ _ _ _. destruct Ho as [->|[err ->]]; injection E as <- <-; [done|].
    simpl. unfold stream_result. destruct err as [e|]; [|done]. by case_match.
  - intros [Hbad|?]; [|congruence]. by destruct (Hbad topic g).
  - destruct Ho as [->|[err ->]]; by injection E as <- <-.
Qed.

(** A client that closes the stream before its first frame makes the handler
    dereference a nil init: [readInit] answers (nil, nil), whether the node is
    the leader or not. *)
Theorem eof_handshake_panics cfg nh id ch evs h d :
  (Subscribe cfg nh id ch (FrameErr ErrEOF) evs h d).2 = Panic.
Proof. unfold Subscribe, checkLeadership. simpl. by destruct (isLeader cfg nh). Qed.
End consumer.

(** ** Runs *)
Definition sample_events : list (@session_event RoundRobinStrategy map_direct) :=
  [EvReceiver (FrameOk (FrameAck (of_str "k1") true)); EvReceiver (FrameOk (FrameAck (of_str "k2") false));
   EvReceiver (FrameErr ErrEOF)].

Abbreviation sample_subscribe := (@Subscribe RoundRobinStrategy map_direct sample_cfg None "me" 9
  (FrameOk (FrameInit "t" "")) sample_events sample_hub (@NewDeleter map_direct sample_store)).

Lemma subscribe_sound_witness :
  pending (s_deleter sample_subscribe.1) ⊆ [of_str "k1"] ∧
  byID (s_hub sample_subscribe.1) !! "me"%string = None.
Proof.
  destruct (@subscribe_sound RoundRobinStrategy map_direct sample_cfg None "me" 9
    (FrameOk (FrameInit "t" "")) sample_events sample_hub (@NewDeleter map_direct sample_store)
    sample_subscribe.1 sample_subscribe.2 (surjective_pairing _)) as (Hu & _ & _ & Hp).
  split; [exact Hp|]. destruct Hu as [[Hh _]|Hu]; [by vm_compute| |exact Hu].
  rewrite Hh. by vm_compute.
Defined.
