(* ===== verification/Broker.v ===== *)
(** * The standalone broker

    All components of a node without Raft over one store, as
    [src/cmd/futureq/start.go] wires them: the producer handler writes through
    the repository, the dispatcher and the janitor read the store and queue
    expired keys, the consumer handler queues acknowledged keys, the deleter
    flushes them and tells the dispatcher.  A run is a sequence of the steps
    these components take, in any order; a dispatch pass is cut into its scans
    of single topics, so everything may happen between two of them. *)
From stdpp Require Import prelude gmap strings sorting.
From S2P Require Import Prelude Bytes Keys Storage Pebble Proto Repository Codec.
From S2P Require Import EventCommands EventStateMachine Hub Deleter Dispatcher Janitor Producer.
Local Open Scope Z_scope.

Section broker.
Context {DBi : DB} `{XXHash} `{Protobuf} `{DispatchStrategy} `{MapRange} `{Clock}.
Context (Hnf : ∀ b k, batch_fault b (OpDelete k) = None).
Context (cfg : dispatch_config).

#[local] Instance standalone_backend : DeleteBackend := direct_backend Hnf.

(** The store is the one the deleter's backend writes to. *)
Record Broker := mkBroker {
  b_repo : EventRepository;
  b_disp : Dispatcher;
}.

Definition b_store (b : Broker) : db_t := backend (d_deleter (b_disp b)).
Definition b_pending (b : Broker) : list bytes := pending (d_deleter (b_disp b)).

Inductive broker_event :=
  | BPublish (batch : PublishBatch) (nowMs : Z)
  | BDispatch (topic : string) (nowMs : Z)
  | BSweep (nowMs : Z)
  | BAck (consumerID : string) (tag : bytes) (success : bool)
  | BFlush
  | BConnect (consumerID topic groupID : string) (ch : nat)
  | BSend (ch : nat)
  | BDisconnect (consumerID : string).

(** The flush of the deleter with its OnDelete callback. *)
Definition flush_step (d : Dispatcher) : Dispatcher :=
  let '(dl, keys) := flush (d_deleter d) in
  RemoveInFlightBatch keys (on_deleter (λ _, dl) d).

Definition broker_step (b : Broker) (ev : broker_event) : Broker :=
  match ev with
  | BPublish batch nowMs =>
      let '((er, db'), _) := processStandaloneBatch batch nowMs (b_repo b, b_store b) in
      mkBroker er (on_deleter (λ dl, mkDeleter (db' : be_t) (pending dl)) (b_disp b))
  | BDispatch topic nowMs =>
      mkBroker (b_repo b) (dispatchTopic cfg (b_store b) topic nowMs (b_disp b)).1
  | BSweep nowMs => mkBroker (b_repo b) (on_deleter (sweep (b_store b) nowMs) (b_disp b))
  | BAck id tag success =>
      mkBroker (b_repo b)
        (on_deleter (λ dl, if success : bool then MarkDeleted tag dl else dl)
           (on_hub (RemoveInFlightForConsumer id tag) (b_disp b)))
  | BFlush => mkBroker (b_repo b) (flush_step (b_disp b))
  | BConnect id topic groupID ch =>
      mkBroker (b_repo b) (on_hub (λ h, Register id topic groupID ch (open_chan ch 1024 h)) (b_disp b))
  | BSend ch => mkBroker (b_repo b) (on_hub (λ h, (recv ch h).1) (b_disp b))
  | BDisconnect id => mkBroker (b_repo b) (on_hub (Unregister id) (b_disp b))
  end.

Definition broker_run (b : Broker) (evs : list broker_event) : Broker := foldl broker_step b evs.

(** ** Readings of a run *)

(** The tags acknowledged with success, the times of the expiry checks, the
    number of messages published. *)
Definition acked_tags (evs : list broker_event) : list bytes :=
  omap (λ ev, match ev with BAck _ tag true => Some tag | _ => None end) evs.
Definition check_times (evs : list broker_event) : list Z :=
  omap (λ ev, match ev with BDispatch _ t | BSweep t => Some t | _ => None end) evs.
Definition published (ev : broker_event) : Z :=
  match ev with BPublish batch _ => len (Messages batch) | _ => 0 end.
Definition publish_ok (ev : broker_event) : Prop :=
  match ev with BPublish batch _ => Forall indexes_ok (Messages batch) | _ => True end.

(** The part of the id invariant that survives the deletion of any key. *)
Definition live_ids (c : gmap bytes bytes) (er : EventRepository) : Prop :=
  is_u64 (lastID er) ∧ ∀ k v, c !! k = Some v → length k = 24%nat → key_id k ≤ lastID er.

(** ** What the steps do to the store and to the pending keys *)
Lemma flush_step_keeps d k :
  k ∉ pending (d_deleter d) →
  contents (backend (d_deleter (flush_step d)) : db_t) !! k = contents (backend (d_deleter d) : db_t) !! k ∧
  pending (d_deleter (flush_step d)) ⊆ pending (d_deleter d).
Proof.
  intros Hk. unfold flush_step, flush. case_decide; simpl; [by rewrite ?RemoveInFlightBatch_deleter|].
  unfold direct_DeleteKeys.
  destruct (Commit _ _ _) as [db' [e|]] eqn:Hc; rewrite RemoveInFlightBatch_deleter; simpl.
  - rewrite (Commit_err _ _ _ _ _ Hc), app_nil_r. done.
  - rewrite (Commit_ok _ _ _ _ Hc), direct_batch_all by done. split; [|set_solver].
    apply apply_ops_ne. apply Forall_fmap, Forall_forall. simpl. by intros k' Hk' ->.
Qed.

(** ** Publishing keeps the events *)
Lemma apply_ops_from m ops k v :
  apply_ops m ops !! k = Some v → m !! k = Some v ∨ ∃ op, op ∈ ops ∧ op_key op = k.
Proof.
  intros Hk. destruct (decide (Forall (λ op, op_key op ≠ k) ops)) as [Hf|Hf].
  - rewrite apply_ops_ne in Hk by done. by left.
  - right. apply not_Forall_Exists in Hf; [|apply _].
    apply Exists_exists in Hf as (op & Hin & Hn). exists op. split; [done|]. by apply dec_stable.
Qed.

Lemma items_ops_keys id items op :
  0 ≤ id → id + len items < 2 ^ 64 → Forall (λ it, Forall index_ok (Indexes it)) items →
  op ∈ items_ops id items → length (op_key op) = 24%nat → key_id (op_key op) ≤ id + len items.
Proof.
  intros Hid Hlt Hf. revert id Hid Hlt.
  induction Hf as [|it items Hix Hf IH]; intros id Hid Hlt; [by intros ?%elem_of_nil|].
  rewrite len_cons in Hlt |- *. pose proof (len_nonneg items). cbn [items_ops].
  rewrite u64_small by (unfold is_u64; lia). intros [Hin|Hin]%elem_of_app Hl.
  - unfold store_ops in Hin.
    apply elem_of_cons in Hin as [->|[->|Hin]%elem_of_cons]; [done| |].
    + simpl. rewrite key_id_EventKey by (unfold is_u64; lia). lia.
    + apply list_elem_of_fmap in Hin as (ix & -> & Hin). rewrite Forall_forall in Hix.
      by apply Hix in Hin as [_ ?].
  - apply IH in Hin; [lia..|done].
Qed.

Lemma put_fst k v s : (put k v s).1.1 = s.1.
Proof. destruct s as [er b]. unfold put. by destruct (batch_Set b k v) as [b' [e|]]. Qed.

Lemma put_iter_fst {A} (f : A → outcome bytes) v l s :
  (st_iter (λ x, k ← st_lift (f x); put k v) l s).1.1 = s.1.
Proof.
  induction l as [|x l IH] in s |- *; [done|]. simpl. unfold mbind, st_bind, st_lift.
  destruct (f x) as [k|e| |]; try done. pose proof (put_fst k v s) as Hp.
  destruct (put k v s) as [s1 []]; simpl in *; [|done..]. by rewrite IH, Hp.
Qed.

Lemma StoreWithBatch_fst msg s :
  (StoreWithBatch msg s).1.1 = mkEventRepository (u64 (lastID s.1 + 1)) (bucketSize s.1).
Proof.
  destruct s as [er b]. unfold StoreWithBatch. unfold mbind at 1, st_bind at 1, next_id at 1. simpl.
  set (s1 := (mkEventRepository _ _, b)). unfold mbind, st_bind, st_lift, mret, st_ret.
  destruct (CalculateBucket _ _) as [bk|e| |]; try done.
  pose proof (put_fst eventsLastIDKey (be_bytes 8 (u64 (lastID er + 1))) s1) as E1.
  destruct (put eventsLastIDKey _ s1) as [s2 []]; simpl in *; try done.
  destruct (wrap_err _ (Marshal msg)) as [d|e| |]; try done.
  pose proof (put_fst (EventKey bk (TopicHash (sm_Topic msg)) (u64 (lastID er + 1))) d s2) as E2.
  destruct (put (EventKey _ _ _) d s2) as [s3 []]; simpl in *; try congruence.
  set (f := λ idx, wrap_err "failed to marshal index to bytes" (MarshalIndex idx)).
  pose proof (put_iter_fst f (EventKey bk (TopicHash (sm_Topic msg)) (u64 (lastID er + 1)))
                (sm_Indexes msg) s3) as E3. unfold mbind, st_bind, st_lift, f in E3.
  destruct (st_iter _ _ s3) as [s4 []]; simpl in *; congruence.
Qed.

Lemma marshalMessages_id nowMs msgs i s s' o :
  marshalMessages msgs i nowMs (λ data, StoreWithBatch data;; mret ()) s = (s', o) →
  is_u64 (lastID s.1) → lastID s.1 + len msgs < 2 ^ 64 →
  lastID s.1 ≤ lastID s'.1 ≤ lastID s.1 + len msgs.
Proof.
  induction msgs as [|msg msgs IH] in i, s |- *; simpl.
  { intros [= <- <-]. unfold len. simpl. lia. }
  rewrite len_cons. pose proof (len_nonneg msgs).
  case_decide; [intros [= <- <-]; lia|]. case_decide; [intros [= <- <-]; lia|].
  unfold mbind, st_bind at 1, mbind, st_bind at 1.
  pose proof (StoreWithBatch_fst (to_stored nowMs msg) s) as E.
  destruct (StoreWithBatch _ s) as [s1 r]. simpl in E. intros Hr Hu Hlt. unfold is_u64 in Hu.
  rewrite u64_small in E by (unfold is_u64; lia).
  assert (lastID s1.1 = lastID s.1 + 1) as E1 by (by rewrite E).
  destruct r; simpl in Hr; [|injection Hr as <- <-; lia..].
  apply IH in Hr; [lia|unfold is_u64; lia|lia].
Qed.

Lemma publish_keeps batch nowMs er d er' d' o :
  processStandaloneBatch batch nowMs (er, d) = ((er', d'), o) →
  live_ids (contents d) er → lastID er + len (Messages batch) < 2 ^ 64 →
  Forall indexes_ok (Messages batch) →
  live_ids (contents d') er' ∧ keeps_events (contents d) (contents d') ∧
  lastID er' ≤ lastID er + len (Messages batch).
Proof.
  intros Hp [Hu Hids] Hlt Hix. pose proof (len_nonneg (Messages batch)).
  assert (lastID er ≤ lastID er' ≤ lastID er + len (Messages batch)) as Hle.
  { unfold processStandaloneBatch in Hp. destruct (marshalMessages _ _ _ _ _) as [[er1 b] r] eqn:Hm.
    apply marshalMessages_id in Hm; [|done..]. simpl in Hm.
    destruct r as [[]|e| |]; [|by simplify_eq..]. by destruct (Commit d b Sync) as [d1 [e|]]; simplify_eq. }
  assert (is_u64 (lastID er')) as Hu' by (unfold is_u64 in *; lia).
  assert ((∃ u, o = Ok u) ∨ o ≠ Ok ()) as [[[] ->]|Ho] by (destruct o as [[]| | |]; eauto).
  - apply standalone_ok in Hp as (items & _ & Hf & Er & Hc); [|done..]. simpl in Er, Hc.
    apply stored_index_ok in Hf as Hxo; [|done].
    assert (len items = len (Messages batch)) as Hlen by (unfold len; by rewrite (Forall2_length _ _ _ Hf)).
    unfold is_u64 in Hu. rewrite Hc. split_and!; [split; [done|]| |lia].
    + intros k v [Hk|(op & Hin & <-)]%apply_ops_from Hl; [specialize (Hids k v Hk Hl); lia|].
      rewrite Er. simpl. eapply items_ops_keys in Hin; [exact Hin|lia..|done|done].
    + intros k v Hl Hk. destruct (items_ops_lookup (contents d) (lastID er) items) as [_ Hold]; [lia..|done|].
      rewrite Hold; [done..|by eapply Hids].
  - pose proof (standalone_fail _ _ _ _ _ _ Hp Ho) as Hc. simpl in Hc. rewrite Hc.
    split_and!; [split; [done|]|reflexivity|lia]. intros k v Hk Hl. specialize (Hids k v Hk Hl). lia.
Qed.

(** ** The run *)
Record holds (k v : bytes) (b : Broker) : Prop := {
  ho_ids : live_ids (contents (b_store b)) (b_repo b);
  ho_stored : contents (b_store b) !! k = Some v;
  ho_pending : k ∉ b_pending b;
}.

Lemma not_expired_here c nowMs k v msg :
  c !! k = Some v → Unmarshal v = Ok msg → isExpired msg nowMs = false → ¬ has_expired c nowMs k.
Proof. intros Hk Hu Hx (v' & msg' & Hk' & Hu' & Hx'). simplify_eq. congruence. Qed.

(** Queueing expired keys only. *)
Lemma holds_queue k v msg b d' t :
  holds k v b → Unmarshal v = Ok msg → isExpired msg t = false →
  backend (d_deleter d') = backend (d_deleter (b_disp b)) →
  (∀ k', k' ∈ pending (d_deleter d') → k' ∈ b_pending b ∨ has_expired (contents (b_store b)) t k') →
  holds k v (mkBroker (b_repo b) d').
Proof.
  intros [Hi Hs Hp] Hu Hx Eb Hpd.
  assert (b_store (mkBroker (b_repo b) d') = b_store b) as Es by exact Eb.
  split; rewrite ?Es; [done..|]. intros [?|?]%Hpd; [done|]. by eapply not_expired_here.
Qed.

Lemma live_ids_sub c c' er :
  live_ids c er → (∀ k v, c' !! k = Some v → c !! k = Some v) → live_ids c' er.
Proof. intros [Hu Hi] Hs. split; [done|]. eauto. Qed.

Lemma flush_step_sub d k v :
  contents (backend (d_deleter (flush_step d)) : db_t) !! k = Some v →
  contents (backend (d_deleter d) : db_t) !! k = Some v.
Proof.
  unfold flush_step, flush. case_decide; simpl; [by rewrite ?RemoveInFlightBatch_deleter|].
  unfold direct_DeleteKeys.
  destruct (Commit _ _ _) as [db' [e|]] eqn:Hc; rewrite RemoveInFlightBatch_deleter; simpl.
  - by rewrite (Commit_err _ _ _ _ _ Hc).
  - rewrite (Commit_ok _ _ _ _ Hc), direct_batch_all, apply_ops_deletes by done.
    by intros [? _]%map_lookup_filter_Some.
Qed.

Lemma broker_step_holds k v msg b ev :
  length k = 24%nat → Unmarshal v = Ok msg → publish_ok ev →
  lastID (b_repo b) + published ev < 2 ^ 64 →
  k ∉ acked_tags [ev] → Forall (λ t, isExpired msg t = false) (check_times [ev]) →
  holds k v b →
  holds k v (broker_step b ev) ∧ lastID (b_repo (broker_step b ev)) ≤ lastID (b_repo b) + published ev.
Proof.
  intros Hl Hu Hok Hlt Hack Hx Hb. pose proof Hb as [Hi Hs Hp]. destruct ev as [batch t|topic t|t|id tag success| |id topic g ch|ch|id];
    simpl in Hok, Hlt, Hack, Hx; cbn [broker_step published]; try (split; [by split|simpl; lia]).
  - destruct (processStandaloneBatch batch t (b_repo b, b_store b)) as [[er d'] o] eqn:Hpub.
    apply publish_keeps in Hpub as (Hi' & Hk & Hle); [|done..].
    split; [split; [exact Hi'|exact (Hk k v Hl Hs)|exact Hp]|exact Hle].
  - apply Forall_cons in Hx as [Hx _]. destruct (dispatchTopic_pending cfg (b_store b) topic t (b_disp b)) as [Eb Hpd].
    split; [exact (holds_queue _ _ _ _ _ _ Hb Hu Hx Eb Hpd)|simpl; lia].
  - apply Forall_cons in Hx as [Hx _]. destruct (sweep_pending (b_store b) t (d_deleter (b_disp b))) as [Eb Hpd].
    split; [exact (holds_queue _ _ _ _ (on_deleter _ _) _ Hb Hu Hx Eb Hpd)|simpl; lia].
  - split; [|simpl; lia]. destruct success; [|by split]. split; [done..|].
    unfold b_pending. simpl. rewrite elem_of_app, list_elem_of_singleton. intros [?| ->]; [done|].
    apply Hack. left.
  - split; [|simpl; lia]. destruct (flush_step_keeps (b_disp b) k Hp) as [Ek Hsub].
    split; unfold b_store, b_pending; cbn [b_disp b_repo].
    + eapply live_ids_sub; [exact Hi|]. apply flush_step_sub.
    + by rewrite Ek.
    + set_solver.
Qed.

Lemma broker_run_holds k v msg b evs :
  length k = 24%nat → Unmarshal v = Ok msg → Forall publish_ok evs →
  lastID (b_repo b) + foldr (λ ev n, published ev + n) 0 evs < 2 ^ 64 →
  k ∉ acked_tags evs → Forall (λ t, isExpired msg t = false) (check_times evs) →
  holds k v b → holds k v (broker_run b evs).
Proof.
  intros Hl Hu. revert b. induction evs as [|ev evs IH]; intros b Hok Hlt Hack Hx Hb; [done|].
  change (ev :: evs) with ([ev] ++ evs) in Hack, Hx. unfold acked_tags, check_times in Hack, Hx.
  rewrite omap_app in Hack. rewrite omap_app in Hx. apply not_elem_of_app in Hack as [Ha1 Ha2].
  apply Forall_app in Hx as [Hx1 Hx2]. apply Forall_cons in Hok as [Ho1 Ho2]. simpl in Hlt.
  assert (0 ≤ foldr (λ ev n, published ev + n) 0 evs) as Hpos.
  { clear. induction evs as [|ev evs IH]; simpl; [lia|].
    assert (0 ≤ published ev) by (destruct ev; simpl; try lia; apply len_nonneg). lia. }
  destruct (broker_step_holds k v msg b ev) as [Hb1 Hle]; [done..|lia|done|done|done|].
  simpl. apply IH; [done|lia|done|done|done].
Qed.

(** No message is lost.  A stored event that is not yet pending deletion stays
    in the store, with its value, through any run of the broker (publications,
    failed ones included, dispatches, sweeps, acknowledgements of other
    messages, NACKs, flushes, failed ones included, consumers coming and going)
    until its own delivery tag is acknowledged or its time to live is over at
    one of the expiry checks. *)
Theorem no_message_lost k v msg b evs :
  live_ids (contents (b_store b)) (b_repo b) → contents (b_store b) !! k = Some v →
  k ∉ b_pending b → length k = 24%nat → Unmarshal v = Ok msg →
  Forall publish_ok evs →
  lastID (b_repo b) + foldr (λ ev n, published ev + n) 0 evs < 2 ^ 64 →
  k ∉ acked_tags evs → Forall (λ t, isExpired msg t = false) (check_times evs) →
  contents (b_store (broker_run b evs)) !! k = Some v.
Proof.
  intros Hi Hs Hp Hl Hu Hok Hlt Hack Hx.
  by eapply ho_stored, broker_run_holds; [..|split].
Qed.
End broker.

(** ** Runs *)
Import Toy.

Abbreviation toy_broker := (@Broker MapDB RoundRobinStrategy (λ _ _, eq_refl)).
Abbreviation toy_run := (@broker_run MapDB const_hash toy_index toy_protobuf RoundRobinStrategy key_order
  stopped_clock (λ _ _, eq_refl) sample_cfg).

Definition sample_broker : toy_broker :=
  @mkBroker MapDB RoundRobinStrategy (λ _ _, eq_refl) (mkEventRepository 3 Millisecond) sample_dispatcher.

Definition sample_run : list (@broker_event toy_index) :=
  [BPublish sample_batch 100; BDispatch "t" 1000; BSweep 1000; BAck "u" (EventKey 960 7 2) true;
   BAck "u" (EventKey 950 7 1) false; BFlush; BDisconnect "u"].

Lemma no_message_lost_witness :
  @contents MapDB (b_store (λ _ _, eq_refl) (toy_run sample_broker sample_run)) !! EventKey 950 7 1
  = Some (toy_bytes (toy_msg 0)).
Proof.
  refine (@no_message_lost MapDB const_hash toy_index toy_protobuf RoundRobinStrategy key_order
    stopped_clock (λ _ _, eq_refl) sample_cfg (EventKey 950 7 1) (toy_bytes (toy_msg 0)) (toy_msg 0)
    sample_broker sample_run _ _ _ _ _ _ _ _ _).
  - split; [by vm_compute|]. intros k v Hk _.
    assert (map_Forall (λ k _, key_id k ≤ 3) sample_store) as Hall
      by (apply (bool_decide_unpack _); by vm_compute).
    by apply (Hall k v).
  - by vm_compute.
  - by intros ?%elem_of_nil.
  - done.
  - by vm_compute.
  - apply Forall_cons_2; [|by repeat (apply Forall_cons_2; [done|]); apply Forall_nil_2].
    apply Forall_cons_2; [apply idx_ok|]. apply Forall_cons_2; [apply idx_ok|by apply Forall_nil_2].
  - by vm_compute.
  - apply (bool_decide_unpack _). by vm_compute.
  - apply (bool_decide_unpack _). by vm_compute.
Defined.

Definition counter_acked : toy_broker :=
  toy_run sample_broker [BPublish sample_batch 100; BAck "u" eventsLastIDKey true; BFlush].

(** A delivery tag is not checked before it is deleted: an acknowledgement
    that names the id counter removes it from the store, and a restart then
    numbers from 1 again over the ids in use. *)
Theorem ack_deletes_counter :
  @contents MapDB (b_store (λ _ _, eq_refl) counter_acked) !! eventsLastIDKey = None ∧
  lastID (b_repo (λ _ _, eq_refl) counter_acked) = 5 ∧
  @NewEventRepository MapDB (b_store (λ _ _, eq_refl) counter_acked) Millisecond
    = Ok (mkEventRepository 0 Millisecond).
Proof. split_and!; by vm_compute. Qed.
