(* ===== verification/MetaCommands.v ===== *)
(** * Metadata commands ([src/pkg/raft/metadata/commands.go])

    The topology of a shard, the two commands of the metadata group and their
    binary encodings.  A Go string is its bytes here.  Ranging over a map has
    no fixed order: the class [NodeRange] supplies one for every range
    statement, numbered by the first argument, with the only law that every
    pair is visited once. *)
From stdpp Require Import prelude gmap strings.
From S2P Require Import Prelude Bytes Codec.
Local Open Scope Z_scope.

Definition MetadataShardID : Z := 0.

(** CommandType *)
Definition UpdateTopologyCmd : Z := 0.
Definition RegisterNodeAddrCmd : Z := 1.

Abbreviation node_map := (gmap Z bytes).

Record ShardTopology := mkShardTopology {
  ShardID : Z;
  LeaderID : Z;
  LeaderAddr : bytes;
  Term : Z;
  st_Epoch : Z;
  Nodes : node_map;
  NonVotings : node_map;
  Witnesses : node_map;
  GrpcAddrs : node_map;
  ConfigChangeID : Z;
}.

#[export] Instance ShardTopology_eq_dec : EqDecision ShardTopology.
Proof. solve_decision. Defined.

Record TopologySnapshot := mkTopologySnapshot {
  Shards : gmap Z ShardTopology;
  ts_Epoch : Z;
}.

Class NodeRange := {
  range_nodes : ∀ {A}, nat → gmap Z A → list (Z * A);
  range_nodes_perm {A} n (m : gmap Z A) : range_nodes n m ≡ₚ map_to_list m;
}.

Definition bytes_len (b : bytes) : nat := length b.

Section commands.
Context `{NodeRange}.

(** The size of one map in the encoding, by its own range statement. *)
Definition nodeMap_size (tick : nat) (m : node_map) : nat :=
  (2 + sum_list ((λ p : Z * bytes, 8 + 2 + bytes_len p.2)%nat <$> range_nodes tick m))%nat.

Definition marshalNodeMap (tick : nat) (m : node_map) : st wbuf () :=
  w_put 2 (u16 (Z.of_nat (size m)));;
  st_iter (λ p : Z * bytes,
    w_put 8 p.1;;
    w_put 2 (u16 (len p.2));;
    w_copy p.2) (range_nodes tick m).

Definition MarshalUpdateTopologyCmd (tick : nat) (t : ShardTopology) : outcome bytes :=
  let size := (1 + 8 * 5 + 2 + bytes_len (LeaderAddr t) +
               nodeMap_size tick (Nodes t) + nodeMap_size (tick + 1) (NonVotings t) +
               nodeMap_size (tick + 2) (Witnesses t) + nodeMap_size (tick + 3) (GrpcAddrs t))%nat in
  let w := (w_put 1 UpdateTopologyCmd;;
            w_put 8 (ShardID t);;
            w_put 8 (LeaderID t);;
            w_put 8 (Term t);;
            w_put 8 (st_Epoch t);;
            w_put 8 (ConfigChangeID t);;
            w_put 2 (u16 (len (LeaderAddr t)));;
            w_copy (LeaderAddr t);;
            marshalNodeMap (tick + 4) (Nodes t);;
            marshalNodeMap (tick + 5) (NonVotings t);;
            marshalNodeMap (tick + 6) (Witnesses t);;
            marshalNodeMap (tick + 7) (GrpcAddrs t)) (make_bytes size, 0%nat) in
  _ ← w.2; Ok w.1.1.

(** The loop of [unmarshalNodeMap]: [n] entries are left, [i] were read. *)
Fixpoint read_nodes (n : nat) (i : Z) (data : bytes) (m : node_map) : st Z node_map :=
  match n with
  | O => mret m
  | S n' =>
      rd_guard data (8 + 2) (λ _, ErrorMsg "truncated at entry %d" [i]);;
      id ← rd_uint data 8;
      addrLen ← rd_uint data 2;
      rd_guard data addrLen (λ _, ErrorMsg "truncated at entry %d addr" [i]);;
      addr ← rd_bytes data addrLen;
      read_nodes n' (i + 1) data (<[id := addr]> m)
  end.

Definition unmarshalNodeMap (data : bytes) : st Z node_map :=
  rd_guard data 2 (λ _, ErrorMsg "truncated at count" []);;
  count ← rd_uint data 2;
  read_nodes (Z.to_nat count) 0 data ∅.

(** [fmt.Errorf("ctx: %w", err)] around a reader. *)
Definition st_wrap {S A} (ctx : string) (m : st S A) : st S A := λ s,
  let '(s', o) := m s in (s', wrap_err ctx o).

Definition read_topology (data : bytes) : st Z ShardTopology :=
  shardID ← rd_uint data 8;
  leaderID ← rd_uint data 8;
  term ← rd_uint data 8;
  epoch ← rd_uint data 8;
  configChangeID ← rd_uint data 8;
  addrLen ← rd_uint data 2;
  rd_guard data addrLen (λ _, ErrorMsg "metadata: UpdateTopologyCmd truncated at LeaderAddr" []);;
  leaderAddr ← rd_bytes data addrLen;
  nodes ← st_wrap "metadata: nodes" (unmarshalNodeMap data);
  nonVotings ← st_wrap "metadata: nonVotings" (unmarshalNodeMap data);
  witnesses ← st_wrap "metadata: witnesses" (unmarshalNodeMap data);
  grpcAddrs ← st_wrap "metadata: grpcAddrs" (unmarshalNodeMap data);
  mret (mkShardTopology shardID leaderID leaderAddr term epoch nodes nonVotings witnesses
          grpcAddrs configChangeID).

Definition UnmarshalUpdateTopologyCmd (data : bytes) : outcome ShardTopology :=
  if decide (len data < 1 + 8 * 5 + 2) then
    Err (ErrorMsg "metadata: UpdateTopologyCmd too short: %d bytes" [len data])
  else
    ct ← r_uint 1 data 0;
    if decide (ct ≠ UpdateTopologyCmd) then
      Err (ErrorMsg "metadata: expected UpdateTopologyCmd (0), got %d" [ct])
    else (read_topology data 1).2.

Definition MarshalRegisterNodeAddrCmd (nodeID : Z) (grpcAddr : bytes) : outcome bytes :=
  let w := (w_put 1 RegisterNodeAddrCmd;;
            w_put 8 nodeID;;
            w_put 2 (u16 (len grpcAddr));;
            w_copy grpcAddr) (make_bytes (1 + 8 + 2 + bytes_len grpcAddr), 0%nat) in
  _ ← w.2; Ok w.1.1.

Definition UnmarshalRegisterNodeAddrCmd (data : bytes) : outcome (Z * bytes) :=
  if decide (len data < 1 + 8 + 2) then
    Err (ErrorMsg "metadata: RegisterNodeAddrCmd too short: %d bytes" [len data])
  else
    ct ← r_uint 1 data 0;
    if decide (ct ≠ RegisterNodeAddrCmd) then
      Err (ErrorMsg "metadata: expected RegisterNodeAddrCmd (1), got %d" [ct])
    else
      nodeID ← r_uint 8 data 1;
      addrLen ← r_uint 2 data 9;
      if decide (11 + addrLen > len data) then
        Err (ErrorMsg "metadata: RegisterNodeAddrCmd truncated at addr" [])
      else
        addr ← slice data 11 (11 + addrLen);
        Ok (nodeID, addr).

(** ** Reference encodings *)
Definition encode_node (p : Z * bytes) : bytes :=
  be_bytes 8 p.1 ++ be_bytes 2 (u16 (len p.2)) ++ p.2.

Definition encode_nodes (size : nat) (l : list (Z * bytes)) : bytes :=
  be_bytes 2 (u16 (Z.of_nat size)) ++ mjoin (encode_node <$> l).

Definition encode_map (tick : nat) (m : node_map) : bytes :=
  encode_nodes (size m) (range_nodes tick m).

Definition encode_topology (tick : nat) (t : ShardTopology) : bytes :=
  be_bytes 1 UpdateTopologyCmd ++ be_bytes 8 (ShardID t) ++ be_bytes 8 (LeaderID t) ++
  be_bytes 8 (Term t) ++ be_bytes 8 (st_Epoch t) ++ be_bytes 8 (ConfigChangeID t) ++
  be_bytes 2 (u16 (len (LeaderAddr t))) ++ LeaderAddr t ++
  encode_map (tick + 4) (Nodes t) ++ encode_map (tick + 5) (NonVotings t) ++
  encode_map (tick + 6) (Witnesses t) ++ encode_map (tick + 7) (GrpcAddrs t).

Definition encode_register (nodeID : Z) (addr : bytes) : bytes :=
  be_bytes 1 RegisterNodeAddrCmd ++ be_bytes 8 nodeID ++ be_bytes 2 (u16 (len addr)) ++ addr.

(** The maps whose sizes and addresses fit the length fields. *)
Definition addr_ok (a : bytes) : Prop := len a < 2 ^ 16.
Definition nodes_ok (m : node_map) : Prop :=
  Z.of_nat (size m) < 2 ^ 16 ∧ map_Forall (λ id a, is_u64 id ∧ addr_ok a) m.
Definition topology_ok (t : ShardTopology) : Prop :=
  Forall is_u64 [ShardID t; LeaderID t; Term t; st_Epoch t; ConfigChangeID t] ∧
  addr_ok (LeaderAddr t) ∧ Forall nodes_ok [Nodes t; NonVotings t; Witnesses t; GrpcAddrs t].

(** ** Encoding *)
Lemma length_encode_node p : length (encode_node p) = (8 + 2 + bytes_len p.2)%nat.
Proof. unfold encode_node, bytes_len. by autorewrite with goq_len. Qed.

Lemma length_encode_map tick tick' m : length (encode_map tick m) = nodeMap_size tick' m.
Proof.
  unfold encode_map, encode_nodes, nodeMap_size. rewrite length_app, length_be_bytes.
  rewrite (length_mjoin_fmap _ _ _ length_encode_node).
  assert (range_nodes tick m ≡ₚ range_nodes tick' m) as Hp by (by rewrite !range_nodes_perm).
  by rewrite Hp.
Qed.

Lemma marshalNodeMap_writes tick m : writes (marshalNodeMap tick m) (encode_map tick m).
Proof.
  apply writes_seq; [apply w_put_writes|]. apply writes_iter. intros p.
  by repeat apply writes_seq; auto with goq.
Qed.

Lemma MarshalUpdateTopologyCmd_eq tick t :
  MarshalUpdateTopologyCmd tick t = Ok (encode_topology tick t).
Proof.
  unfold MarshalUpdateTopologyCmd.
  set (w := (w_put 1 UpdateTopologyCmd;; _)). set (n := (_ + _)%nat).
  destruct (writes_full w (encode_topology tick t) n) as [-> ->]; [| |done].
  - unfold w, encode_topology.
    do 7 (apply writes_seq; [apply w_put_writes|]). apply writes_seq; [apply w_copy_writes|].
    do 3 (apply writes_seq; [apply marshalNodeMap_writes|]). apply marshalNodeMap_writes.
  - unfold n, encode_topology. autorewrite with goq_len.
    rewrite (length_encode_map _ tick), (length_encode_map _ (tick + 1)),
      (length_encode_map _ (tick + 2)), (length_encode_map _ (tick + 3)).
    unfold bytes_len. lia.
Qed.

Lemma MarshalRegisterNodeAddrCmd_eq id addr :
  MarshalRegisterNodeAddrCmd id addr = Ok (encode_register id addr).
Proof.
  unfold MarshalRegisterNodeAddrCmd.
  set (w := (w_put 1 RegisterNodeAddrCmd;; _)).
  destruct (writes_full w (encode_register id addr) (1 + 8 + 2 + bytes_len addr)) as [-> ->]; [| |done].
  - unfold w, encode_register. 
    do 3 (apply writes_seq; [apply w_put_writes|]). apply w_copy_writes.
  - unfold encode_register, bytes_len. by autorewrite with goq_len.
Qed.

(** ** Decoding *)
Definition ins_node (m : node_map) (p : Z * bytes) : node_map := <[p.1 := p.2]> m.

(** Inserting what a range visits rebuilds the map. *)
Lemma foldl_insert_range {A} tick (m : gmap Z A) :
  foldl (λ m' p, <[p.1 := p.2]> m') ∅ (range_nodes tick m) = m.
Proof.
  assert (∀ l : list (Z * A),
    foldl (λ m' p, <[p.1 := p.2]> m') (∅ : gmap Z A) l = list_to_map (reverse l)) as E.
  { induction l as [|p l IH] using rev_ind; [done|].
    rewrite foldl_app, reverse_app. simpl. by rewrite IH. }
  rewrite E. etrans; [|apply list_to_map_to_list]. apply list_to_map_proper.
  - rewrite fmap_reverse, reverse_Permutation, range_nodes_perm. apply NoDup_fst_map_to_list.
  - by rewrite reverse_Permutation, range_nodes_perm.
Qed.

Lemma foldl_ins_range tick m : foldl ins_node ∅ (range_nodes tick m) = m.
Proof. exact (foldl_insert_range tick m). Qed.

Definition node_ok (p : Z * bytes) : Prop := is_u64 p.1 ∧ addr_ok p.2.

Lemma read_nodes_reads l i m :
  Forall node_ok l →
  reads (λ d, read_nodes (length l) i d m) (mjoin (encode_node <$> l)) (foldl ins_node m l).
Proof.
  intros Hf. revert i m. induction Hf as [|[id a] l [Hid Ha] Hf IH]; intros i m; [apply reads_ret|].
  unfold addr_ok, is_u64 in *. simpl in Hid, Ha. pose proof (len_nonneg a).
  rewrite fmap_cons, mjoin_cons. unfold encode_node at 1. cbn [fst snd].
  rewrite u16_small, <-!app_assoc by lia. cbn [read_nodes length].
  apply reads_guard; [rewrite !len_app, !len_be_bytes; pose proof (len_nonneg (mjoin (encode_node <$> l))); lia|].
  apply reads_bind with id; [by apply reads_uint|].
  apply reads_bind with (len a); [apply reads_uint; simpl; lia|].
  apply reads_guard; [rewrite len_app; pose proof (len_nonneg (mjoin (encode_node <$> l))); lia|].
  apply reads_bind with a; [by apply reads_bytes|]. apply IH.
Qed.

Lemma unmarshalNodeMap_reads tick m : nodes_ok m → reads unmarshalNodeMap (encode_map tick m) m.
Proof.
  intros [Hs Hf]. unfold encode_map, encode_nodes, unmarshalNodeMap.
  pose proof (len_nonneg (mjoin (encode_node <$> range_nodes tick m))).
  apply reads_guard; [rewrite len_app, len_be_bytes; lia|].
  rewrite u16_small by lia.
  apply reads_bind with (Z.of_nat (size m)); [apply reads_uint; simpl; lia|].
  assert (Forall node_ok (range_nodes tick m)) as Hok
    by (rewrite range_nodes_perm; apply map_Forall_to_list in Hf;
        eapply Forall_impl; [exact Hf|]; by intros []).
  pose proof (read_nodes_reads _ 0 ∅ Hok) as Hr. rewrite foldl_ins_range in Hr.
  assert (length (range_nodes tick m) = size m) as Hl
    by (by rewrite range_nodes_perm, length_map_to_list).
  rewrite Hl in Hr. by rewrite Nat2Z.id.
Qed.

Lemma reads_wrap {A} (m : bytes → st Z A) ctx bs v :
  reads m bs v → reads (λ d, st_wrap ctx (m d)) bs v.
Proof. intros Hm pre post. unfold st_wrap. by rewrite Hm. Qed.

Lemma Unmarshal_encode_topology tick t :
  topology_ok t → UnmarshalUpdateTopologyCmd (encode_topology tick t) = Ok t.
Proof.
  intros (Hu & Ha & Hm). unfold UnmarshalUpdateTopologyCmd, encode_topology.
  repeat (apply Forall_cons in Hu as [? Hu]). repeat (apply Forall_cons in Hm as [? Hm]).
  unfold addr_ok in Ha. pose proof (len_nonneg (LeaderAddr t)).
  set (body := be_bytes 8 (ShardID t) ++ _). rewrite decide_False.
  2: { unfold body. rewrite !len_app, !len_be_bytes. unfold len. lia. }
  rewrite r_uint_head. cbn [mbind outcome_bind]. rewrite decide_False by (intros Hn; by apply Hn).
  assert (reads read_topology body t) as Hr.
  { unfold read_topology, body. rewrite u16_small by lia.
    do 5 (eapply reads_bind; [by apply reads_uint|]).
    eapply reads_bind; [apply reads_uint; simpl; lia|].
    apply reads_guard; [rewrite len_app; unfold len; lia|].
    eapply reads_bind; [by apply reads_bytes|].
    do 3 (eapply reads_bind; [by apply reads_wrap, unmarshalNodeMap_reads|]).
    eapply reads_eq; [eapply reads_bind; [by apply reads_wrap, unmarshalNodeMap_reads|]|].
    - destruct t. apply reads_ret.
    - by rewrite app_nil_r. }
  specialize (Hr (be_bytes 1 UpdateTopologyCmd) []). rewrite app_nil_r in Hr.
  change (len (be_bytes 1 UpdateTopologyCmd)) with 1 in Hr. by rewrite Hr.
Qed.

Lemma Unmarshal_encode_register id addr :
  is_u64 id → addr_ok addr → UnmarshalRegisterNodeAddrCmd (encode_register id addr) = Ok (id, addr).
Proof.
  intros Hid Ha. unfold UnmarshalRegisterNodeAddrCmd, encode_register, addr_ok in *.
  pose proof (len_nonneg addr).
  rewrite decide_False by (rewrite !len_app, !len_be_bytes; lia).
  rewrite r_uint_head. cbn [mbind outcome_bind]. rewrite decide_False by (intros Hn; by apply Hn).
  rewrite (r_uint_at 8 (be_bytes 1 RegisterNodeAddrCmd)) by done. cbn [mbind outcome_bind].
  rewrite (app_assoc (be_bytes 1 _)), (r_uint_at 2) by done. cbn [mbind outcome_bind].
  rewrite u16_small, Z.mod_small, Z.mod_small by (unfold is_u64 in *; lia).
  rewrite decide_False by (rewrite !len_app, !len_be_bytes; lia).
  pose proof (slice_app ((be_bytes 1 RegisterNodeAddrCmd ++ be_bytes 8 id) ++ be_bytes 2 (len addr))
                addr []) as Hs.
  rewrite app_nil_r, <-app_assoc, !len_app, !len_be_bytes in Hs.
  change (Z.of_nat 1 + Z.of_nat 8 + Z.of_nat 2) with 11 in Hs. by rewrite Hs.
Qed.

(** ** Decoding arbitrary bytes *)
Definition entries_ok (m : node_map) : Prop := map_Forall (λ id a, is_u64 id ∧ addr_ok a) m.

Lemma read_nodes_safe data n i m pos :
  0 ≤ pos → entries_ok m →
  rsafe (read_nodes n i data m) (λ m' p, 0 ≤ p ∧ (size m' ≤ size m + n)%nat ∧ entries_ok m') pos.
Proof.
  revert i m pos. induction n as [|n IH]; intros i m pos Hp Hm.
  { apply rsafe_ret. split_and!; [done|lia|done]. }
  cbn [read_nodes]. apply rsafe_bind, rsafe_guard. intros Hg.
  apply rsafe_bind, rsafe_uint; [lia..|]. intros id Hid.
  apply rsafe_bind, rsafe_uint; [lia..|]. intros al Hal.
  apply rsafe_bind, rsafe_guard. intros Hg'.
  apply rsafe_bind, rsafe_bytes; [lia..|]. intros a Ha.
  eapply rsafe_mono; [apply IH; [lia|]|].
  - apply map_Forall_insert_2; [|done]. unfold addr_ok, is_u64. rewrite Ha. simpl in *. lia.
  - intros m' p (H0 & Hs & Hf). split_and!; [done| |done].
    rewrite map_size_insert in Hs. destruct (m !! id); simpl in Hs; lia.
Qed.

Lemma unmarshalNodeMap_safe data ctx pos :
  0 ≤ pos → rsafe (st_wrap ctx (unmarshalNodeMap data)) (λ m p, 0 ≤ p ∧ nodes_ok m) pos.
Proof.
  intros Hp. assert (rsafe (unmarshalNodeMap data) (λ m p, 0 ≤ p ∧ nodes_ok m) pos) as Hs.
  { apply rsafe_bind, rsafe_guard. intros Hg. apply rsafe_bind, rsafe_uint; [lia..|].
    intros c Hc. eapply rsafe_mono; [apply read_nodes_safe; [lia|]|].
    - apply map_Forall_empty.
    - intros m p (H0 & Hsz & Hf). rewrite map_size_empty in Hsz.
      split; [done|]. split; [simpl in Hc; lia|done]. }
  revert Hs. unfold rsafe, st_wrap. by destruct (unmarshalNodeMap data pos) as [p [v|e| |]].
Qed.

Lemma read_topology_safe data :
  1 + 8 * 5 + 2 ≤ len data → rsafe (read_topology data) (λ t _, topology_ok t) 1.
Proof.
  intros Hl. unfold read_topology. do 5 (apply rsafe_bind, rsafe_uint; [lia..|]; intros ? ?).
  apply rsafe_bind, rsafe_uint; [lia..|]. intros al Hal.
  apply rsafe_bind, rsafe_guard. intros Hg. apply rsafe_bind, rsafe_bytes; [lia..|]. intros a Ha.
  do 4 (apply rsafe_bind; (eapply rsafe_mono; [apply unmarshalNodeMap_safe; lia|]);
        intros ? ? [? ?]).
  apply rsafe_ret. split; [|split]; cbn.
  1,3: repeat (apply Forall_cons_2; [done|]); by apply Forall_nil_2.
  unfold addr_ok. rewrite Ha. simpl in Hal. lia.
Qed.

(** What the metadata group replicates, every replica decodes: both commands
    read back what was written, whatever order the maps were ranged over in,
    as long as the sizes fit the 16-bit length fields. *)
Theorem metadata_roundtrip tick t id addr :
  topology_ok t → is_u64 id → addr_ok addr →
  (∃ cmd, MarshalUpdateTopologyCmd tick t = Ok cmd ∧ UnmarshalUpdateTopologyCmd cmd = Ok t) ∧
  (∃ cmd, MarshalRegisterNodeAddrCmd id addr = Ok cmd ∧
          UnmarshalRegisterNodeAddrCmd cmd = Ok (id, addr)).
Proof.
  intros Ht Hid Ha. split; eexists.
  - split; [apply MarshalUpdateTopologyCmd_eq|by apply Unmarshal_encode_topology].
  - split; [apply MarshalRegisterNodeAddrCmd_eq|by apply Unmarshal_encode_register].
Qed.

Lemma UnmarshalUpdateTopologyCmd_cases data :
  (∃ t, UnmarshalUpdateTopologyCmd data = Ok t ∧ topology_ok t) ∨
  (∃ e, UnmarshalUpdateTopologyCmd data = Err e).
Proof.
  unfold UnmarshalUpdateTopologyCmd. case_decide; [eauto|].
  destruct (r_uint_ok 1 data 0) as (ct & -> & _); [lia..|]. cbn [mbind outcome_bind].
  case_decide; [eauto|]. pose proof (read_topology_safe data ltac:(lia)) as Hs. revert Hs.
  unfold rsafe. destruct (read_topology data 1) as [p [t|e| |]]; simpl; by eauto.
Qed.

Lemma UnmarshalRegisterNodeAddrCmd_cases data :
  (∃ id a, UnmarshalRegisterNodeAddrCmd data = Ok (id, a) ∧ is_u64 id ∧ addr_ok a) ∨
  (∃ e, UnmarshalRegisterNodeAddrCmd data = Err e).
Proof.
  unfold UnmarshalRegisterNodeAddrCmd. case_decide; [eauto|].
  destruct (r_uint_ok 1 data 0) as (ct & -> & _); [lia..|]. cbn [mbind outcome_bind].
  case_decide; [eauto|].
  destruct (r_uint_ok 8 data 1) as (id & -> & Hid); [lia..|].
  destruct (r_uint_ok 2 data 9) as (al & -> & Hal); [lia..|]. cbn [mbind outcome_bind].
  case_decide; [eauto|]. destruct (slice_ok data 11 (11 + al)) as (s & -> & Hs); [lia..|].
  left. exists id, s. split_and!; [done|done|]. unfold addr_ok. simpl in Hal. lia.
Qed.

(** The metadata decoders never panic: on arbitrary bytes each returns a
    well-formed value, whose fields fit their widths, or an error. *)
Theorem metadata_decode_total data :
  match UnmarshalUpdateTopologyCmd data with
  | Ok t => topology_ok t | Err _ => True | _ => False
  end ∧
  match UnmarshalRegisterNodeAddrCmd data with
  | Ok (id, a) => is_u64 id ∧ addr_ok a | Err _ => True | _ => False
  end.
Proof.
  split.
  - by destruct (UnmarshalUpdateTopologyCmd_cases data) as [(t & -> & ?)|(e & ->)].
  - by destruct (UnmarshalRegisterNodeAddrCmd_cases data) as [(id & a & -> & ?)|(e & ->)].
Qed.
End commands.

(** ** Runs *)
#[export] Program Instance id_order : NodeRange := {| range_nodes A n m := map_to_list m |}.
Next Obligation. done. Qed.

#[export] Instance nodes_ok_dec m : Decision (nodes_ok m).
Proof. unfold nodes_ok, is_u64, addr_ok. apply _. Defined.
#[export] Instance topology_ok_dec t : Decision (topology_ok t).
Proof. unfold topology_ok, is_u64, addr_ok. apply _. Defined.

Definition sample_topology : ShardTopology :=
  mkShardTopology 1 2 (of_str "n2:9090") 7 3
    {[1 := of_str "n1:5000"; 2 := of_str "n2:5000"]} ∅ {[3 := of_str "n3:5000"]}
    {[2 := of_str "n2:9090"]} 11.

Lemma sample_topology_ok : topology_ok sample_topology.
Proof. apply (bool_decide_unpack _). by vm_compute. Qed.

Lemma metadata_roundtrip_witness :
  ∃ cmd, MarshalUpdateTopologyCmd 0 sample_topology = Ok cmd ∧
         UnmarshalUpdateTopologyCmd cmd = Ok sample_topology.
Proof.
  exact (proj1 (metadata_roundtrip 0 sample_topology 1 (of_str "n1:9090") sample_topology_ok
                  ltac:(by vm_compute) ltac:(by vm_compute))).
Defined.
