(* ===== verification/MetaStateMachine.v ===== *)
(** * The metadata state machine ([src/pkg/raft/metadata/statemachine.go])

    The in-memory state of the metadata group: the topology of every shard, the
    epoch and the registry of client-facing addresses.  Topologies are stored
    as values: the code stores a fresh one per command and hands out deep
    copies, so no two holders share a map. *)
From stdpp Require Import prelude gmap strings.
From S2P Require Import Prelude Bytes Codec EventStateMachine MetaCommands.
Local Open Scope Z_scope.

Record MetadataStateMachine := mkMSM {
  topology : TopologySnapshot;
  grpcAddrs : node_map;
}.

Definition NewMetadataStateMachine : MetadataStateMachine :=
  mkMSM (mkTopologySnapshot ∅ 0) ∅.

(** The two assignments of [Update] and [RecoverFromSnapshot]. *)
Definition put_shard (topo : ShardTopology) (s : MetadataStateMachine) : MetadataStateMachine :=
  mkMSM (mkTopologySnapshot (<[ShardID topo := topo]> (Shards (topology s)))
           (if decide (st_Epoch topo > ts_Epoch (topology s)) then st_Epoch topo
            else ts_Epoch (topology s)))
        (grpcAddrs s).

Definition put_addr (nodeID : Z) (addr : bytes) (s : MetadataStateMachine) : MetadataStateMachine :=
  mkMSM (topology s) (<[nodeID := addr]> (grpcAddrs s)).

(** [Update]; the value is [Result.Value], the error is always nil. *)
Definition meta_Update (cmd : bytes) : st MetadataStateMachine Z := λ s,
  match cmd with
  | [] => (s, Ok 0)
  | c :: _ =>
      if decide (byte_Z c = UpdateTopologyCmd) then
        match UnmarshalUpdateTopologyCmd cmd with
        | Ok topo => (put_shard topo s, Ok 1)
        | Err _ => (s, Ok 0)
        | Panic => (s, Panic)
        | OutOfFuel => (s, OutOfFuel)
        end
      else if decide (byte_Z c = RegisterNodeAddrCmd) then
        match UnmarshalRegisterNodeAddrCmd cmd with
        | Ok (nodeID, grpcAddr) => (put_addr nodeID grpcAddr s, Ok 1)
        | Err _ => (s, Ok 0)
        | Panic => (s, Panic)
        | OutOfFuel => (s, OutOfFuel)
        end
      else (s, Ok 0)
  end.

Inductive lookup_query := QNil | QString (q : string) | QUint64 (q : Z) | QOther.
Inductive lookup_result :=
  | RNil
  | RTopology (t : TopologySnapshot)
  | RShard (t : ShardTopology).

Section machine.
Context `{NodeRange}.

(** [cp := make(map...); for k, v := range m { cp[k] = v }] *)
Definition copy_nodes (tick : nat) (m : node_map) : node_map :=
  foldl ins_node ∅ (range_nodes tick m).

Definition copyShardTopology (tick : nat) (t : ShardTopology) : ShardTopology :=
  mkShardTopology (ShardID t) (LeaderID t) (LeaderAddr t) (Term t) (st_Epoch t)
    (copy_nodes tick (Nodes t)) (copy_nodes (tick + 1) (NonVotings t))
    (copy_nodes (tick + 2) (Witnesses t)) (copy_nodes (tick + 3) (GrpcAddrs t))
    (ConfigChangeID t).

Definition copyTopology (tick : nat) (s : MetadataStateMachine) : TopologySnapshot :=
  mkTopologySnapshot
    (foldl (λ m p, <[p.1 := copyShardTopology tick p.2]> m) ∅
       (range_nodes tick (Shards (topology s))))
    (ts_Epoch (topology s)).

Definition Lookup (tick : nat) (query : lookup_query) (s : MetadataStateMachine) : lookup_result :=
  match query with
  | QNil => RTopology (copyTopology tick s)
  | QString q => if decide (q = "topology"%string) then RTopology (copyTopology tick s) else RNil
  | QUint64 q =>
      match Shards (topology s) !! q with
      | Some shard => RShard (copyShardTopology tick shard)
      | None => RNil
      end
  | QOther => RNil
  end.

Definition GetTopology := copyTopology.

Definition GetShardTopology (tick : nat) (shardID : Z) (s : MetadataStateMachine)
    : option ShardTopology :=
  copyShardTopology tick <$> Shards (topology s) !! shardID.

Definition GetGrpcAddrs (tick : nat) (s : MetadataStateMachine) : node_map :=
  copy_nodes tick (grpcAddrs s).

(** ** Snapshots *)
Section save.
Context `{Writer}.

Definition wr (p : bytes) : st w_t () := λ w,
  match Write w p with
  | (w', None) => (w', Ok ())
  | (w', Some e) => (w', Err e)
  end.

Definition writeUint32 (v : Z) : st w_t () :=
  wr [Z_byte (Z.shiftr v 24); Z_byte (Z.shiftr v 16); Z_byte (Z.shiftr v 8); Z_byte v].

(** One command with its length in front. *)
Definition write_frame (cmd : outcome bytes) : st w_t () :=
  cmd ← st_lift cmd;
  writeUint32 (u32 (len cmd));;
  wr cmd.

Definition meta_SaveSnapshot (tick : nat) (s : MetadataStateMachine) : st w_t () :=
  writeUint32 (u32 (Z.of_nat (size (grpcAddrs s))));;
  st_iter (λ p : Z * bytes, write_frame (MarshalRegisterNodeAddrCmd p.1 p.2))
    (range_nodes tick (grpcAddrs s));;
  writeUint32 (u32 (Z.of_nat (size (Shards (topology s)))));;
  st_iter (λ p : Z * ShardTopology, write_frame (MarshalUpdateTopologyCmd tick p.2))
    (range_nodes (tick + 1) (Shards (topology s))).
End save.

(** [uint32(b[0])<<24 | uint32(b[1])<<16 | uint32(b[2])<<8 | uint32(b[3])] *)
Definition uint32_of (b : bytes) : Z :=
  match byte_Z <$> b with
  | [b0; b1; b2; b3] =>
      Z.lor (Z.lor (Z.lor (Z.shiftl b0 24) (Z.shiftl b1 16)) (Z.shiftl b2 8)) b3
  | _ => 0
  end.

Definition readUint32 : st Reader Z := b ← ReadFull 4; mret (uint32_of b).

Definition read_frame : st Reader bytes := cmdLen ← readUint32; ReadFull cmdLen.

(** The state of a recovery: the machine and the reader. *)
Abbreviation rec_st := (MetadataStateMachine * Reader)%type.

Definition on_reader {A} (m : st Reader A) : st rec_st A := λ '(s, r),
  let '(r', o) := m r in ((s, r'), o).
Definition on_machine (f : MetadataStateMachine → MetadataStateMachine) : st rec_st () := λ '(s, r),
  ((f s, r), Ok ()).

Fixpoint recover_addrs (n : nat) : st rec_st () :=
  match n with
  | O => mret ()
  | S n' =>
      cmd ← on_reader read_frame;
      p ← st_lift (UnmarshalRegisterNodeAddrCmd cmd);
      on_machine (put_addr p.1 p.2);;
      recover_addrs n'
  end.

Fixpoint recover_shards (n : nat) : st rec_st () :=
  match n with
  | O => mret ()
  | S n' =>
      cmd ← on_reader read_frame;
      topo ← st_lift (UnmarshalUpdateTopologyCmd cmd);
      on_machine (put_shard topo);;
      recover_shards n'
  end.

Definition meta_RecoverFromSnapshot : st rec_st () :=
  on_machine (λ _, NewMetadataStateMachine);;
  grpcCount ← on_reader readUint32;
  recover_addrs (Z.to_nat grpcCount);;
  count ← on_reader readUint32;
  recover_shards (Z.to_nat count).

(** ** Invariant *)

(** Every shard is filed under its own id, fits the encoding, and the epoch is
    at least every shard's. *)
Record meta_inv (s : MetadataStateMachine) : Prop := {
  mi_shards : map_Forall (λ id t, ShardID t = id ∧ topology_ok t) (Shards (topology s));
  mi_epoch : map_Forall (λ _ t, st_Epoch t ≤ ts_Epoch (topology s)) (Shards (topology s));
  mi_addrs : map_Forall (λ id a, is_u64 id ∧ addr_ok a) (grpcAddrs s);
}.

(** What happens to a replica: a committed log entry, or a recovery from a
    snapshot, which may break off anywhere in a stream of any bytes. *)
Inductive meta_step (s : MetadataStateMachine) : MetadataStateMachine → Prop :=
  | step_entry cmd s' v : meta_Update cmd s = (s', Ok v) → meta_step s s'
  | step_recover r s' r' o : meta_RecoverFromSnapshot (s, r) = ((s', r'), o) → meta_step s s'.

Lemma put_shard_inv topo s : meta_inv s → topology_ok topo → meta_inv (put_shard topo s).
Proof.
  intros [Hs He Ha] Ht. split; [| |done]; cbn.
  - by apply map_Forall_insert_2.
  - apply map_Forall_insert_2; [case_decide; lia|].
    eapply map_Forall_impl; [exact He|]. simpl. intros. case_decide; lia.
Qed.

Lemma put_addr_inv id a s : meta_inv s → is_u64 id → addr_ok a → meta_inv (put_addr id a s).
Proof. intros [Hs He Ha] ? ?. split; [done..|]. by apply map_Forall_insert_2. Qed.

Lemma new_meta_inv : meta_inv NewMetadataStateMachine.
Proof. split; apply map_Forall_empty. Qed.

Lemma put_shard_epoch topo s : ts_Epoch (topology s) ≤ ts_Epoch (topology (put_shard topo s)).
Proof. simpl. case_decide; lia. Qed.

(** A decoder accepts only commands of its own type. *)
Lemma cmd_first_byte c data : r_uint 1 (c :: data) 0 = Ok (byte_Z c).
Proof.
  unfold r_uint, slice, len. rewrite decide_True by (simpl; lia). simpl. rewrite take_0.
  unfold be_uint, be_val, len. simpl. by rewrite Z.mul_1_r, Z.add_0_r.
Qed.

Lemma topology_cmd_type cmd t :
  UnmarshalUpdateTopologyCmd cmd = Ok t → ∃ c data, cmd = c :: data ∧ byte_Z c = UpdateTopologyCmd.
Proof.
  destruct cmd as [|c data]; [done|]. unfold UnmarshalUpdateTopologyCmd. case_decide; [done|].
  rewrite cmd_first_byte. cbn [mbind outcome_bind]. case_decide as Hc; [done|]. intros _.
  by exists c, data.
Qed.

Lemma register_cmd_type cmd p :
  UnmarshalRegisterNodeAddrCmd cmd = Ok p → ∃ c data, cmd = c :: data ∧ byte_Z c = RegisterNodeAddrCmd.
Proof.
  destruct cmd as [|c data]; [done|]. unfold UnmarshalRegisterNodeAddrCmd. case_decide; [done|].
  rewrite cmd_first_byte. cbn [mbind outcome_bind]. case_decide as Hc; [done|]. intros _.
  by exists c, data.
Qed.

Lemma meta_Update_shard cmd t s :
  UnmarshalUpdateTopologyCmd cmd = Ok t → meta_Update cmd s = (put_shard t s, Ok 1).
Proof.
  intros E. destruct (topology_cmd_type _ _ E) as (c & data & -> & Hc). unfold meta_Update.
  by rewrite decide_True, E by done.
Qed.

Lemma meta_Update_addr cmd id a s :
  UnmarshalRegisterNodeAddrCmd cmd = Ok (id, a) → meta_Update cmd s = (put_addr id a s, Ok 1).
Proof.
  intros E. destruct (register_cmd_type _ _ E) as (c & data & -> & Hc). unfold meta_Update.
  rewrite decide_False by (by rewrite Hc). by rewrite decide_True, E by done.
Qed.

(** Everything an entry can do. *)
Lemma meta_Update_cases cmd s :
  (∃ t, UnmarshalUpdateTopologyCmd cmd = Ok t ∧ topology_ok t ∧
        meta_Update cmd s = (put_shard t s, Ok 1)) ∨
  (∃ id a, UnmarshalRegisterNodeAddrCmd cmd = Ok (id, a) ∧ is_u64 id ∧ addr_ok a ∧
        meta_Update cmd s = (put_addr id a s, Ok 1)) ∨
  meta_Update cmd s = (s, Ok 0).
Proof.
  unfold meta_Update. destruct cmd as [|c cmd]; [eauto|].
  case_decide.
  { destruct (UnmarshalUpdateTopologyCmd_cases (c :: cmd)) as [(t & E & Ht)|(e & E)]; rewrite E; eauto 6. }
  case_decide; [|eauto].
  destruct (UnmarshalRegisterNodeAddrCmd_cases (c :: cmd)) as [(id & a & E & Hi & Ha)|(e & E)];
    rewrite E; eauto 10.
Qed.

Lemma meta_Update_inv cmd s s' v :
  meta_Update cmd s = (s', Ok v) → meta_inv s → meta_inv s' ∧ ts_Epoch (topology s) ≤ ts_Epoch (topology s').
Proof.
  intros Hu Hi.
  destruct (meta_Update_cases cmd s) as [(t & _ & Ht & E)|[(id & a & _ & Hid & Ha & E)|E]];
    rewrite E in Hu; injection Hu as <- <-.
  - split; [by apply put_shard_inv|apply put_shard_epoch].
  - split; [by apply put_addr_inv|done].
  - done.
Qed.

(** Whatever the stream holds, a recovery leaves a well-formed machine. *)
Lemma recover_addrs_inv n s r s' r' o :
  recover_addrs n (s, r) = ((s', r'), o) → meta_inv s → meta_inv s'.
Proof.
  revert s r. induction n as [|n IH]; intros s r; cbn [recover_addrs]; [by intros [= <- _ _]|].
  unfold mbind, st_bind, on_reader, st_lift. destruct (read_frame r) as [r1 [cmd|e| |]]; try by intros [= <- _ _].
  destruct (UnmarshalRegisterNodeAddrCmd_cases cmd) as [(id & a & E & Hid & Ha)|(e & E)]; rewrite E;
    [|by intros [= <- _ _]].
  intros Hr Hi. eapply IH; [exact Hr|]. by apply put_addr_inv.
Qed.

Lemma recover_shards_inv n s r s' r' o :
  recover_shards n (s, r) = ((s', r'), o) → meta_inv s → meta_inv s'.
Proof.
  revert s r. induction n as [|n IH]; intros s r; cbn [recover_shards]; [by intros [= <- _ _]|].
  unfold mbind, st_bind, on_reader, st_lift. destruct (read_frame r) as [r1 [cmd|e| |]]; try by intros [= <- _ _].
  destruct (UnmarshalUpdateTopologyCmd_cases cmd) as [(t & E & Ht)|(e & E)]; rewrite E;
    [|by intros [= <- _ _]].
  intros Hr Hi. eapply IH; [exact Hr|]. by apply put_shard_inv.
Qed.

Lemma meta_Recover_inv s r s' r' o :
  meta_RecoverFromSnapshot (s, r) = ((s', r'), o) → meta_inv s'.
Proof.
  unfold meta_RecoverFromSnapshot, mbind, st_bind, on_machine, on_reader.
  destruct (readUint32 r) as [r1 [n|e| |]]; try (intros [= <- _ _]; apply new_meta_inv).
  destruct (recover_addrs _ _) as [[s2 r2] o2] eqn:E2. apply recover_addrs_inv in E2; [|apply new_meta_inv].
  destruct o2 as [[]|e| |]; try by intros [= <- _ _].
  destruct (readUint32 r2) as [r3 [m|e| |]]; try by intros [= <- _ _].
  intros Hr. by eapply recover_shards_inv.
Qed.

Lemma meta_step_inv s s' : meta_step s s' → meta_inv s → meta_inv s'.
Proof.
  intros [cmd s1 v Hu|r s1 r' o Hr] Hi; [by eapply meta_Update_inv|by eapply meta_Recover_inv].
Qed.

Lemma meta_reachable_inv s : rtc meta_step NewMetadataStateMachine s → meta_inv s.
Proof.
  generalize NewMetadataStateMachine, new_meta_inv. intros s0 Hi Hr. revert Hi.
  induction Hr as [|s0 s1 s2 Hst _ IH]; [done|]. intros Hi. apply IH. by eapply meta_step_inv.
Qed.

Lemma copy_nodes_eq tick m : copy_nodes tick m = m.
Proof. apply foldl_ins_range. Qed.

Lemma copyShardTopology_eq tick t : copyShardTopology tick t = t.
Proof. unfold copyShardTopology. rewrite !copy_nodes_eq. by destruct t. Qed.

Lemma copyTopology_eq tick s : copyTopology tick s = topology s.
Proof.
  unfold copyTopology. destruct s as [[sh e] g]. simpl. f_equal.
  rewrite <-(foldl_insert_range tick sh) at 2. generalize (∅ : gmap Z ShardTopology).
  induction (range_nodes tick sh) as [|p l IH]; intros m; [done|]. simpl.
  by rewrite copyShardTopology_eq, IH.
Qed.

(** ** Writing a snapshot *)
Lemma Z_byte_shiftr0 v : Z_byte (Z.shiftr v (8 * Z.of_nat 0)) = Z_byte v.
Proof. by rewrite Z.shiftr_0_r. Qed.

Lemma wr_ok `{Writer} p w w' : wr p w = (w', Ok ()) → written w' = written w ++ p.
Proof. unfold wr. destruct (Write w p) as [w1 [e|]] eqn:E; intros [= <-]. by apply Write_ok. Qed.

Lemma writeUint32_ok `{Writer} v w w' :
  writeUint32 v w = (w', Ok ()) → written w' = written w ++ be_bytes 4 v.
Proof. intros ->%wr_ok. by rewrite <-Z_byte_shiftr0. Qed.

Definition encode_frame (cmd : bytes) : bytes := be_bytes 4 (u32 (len cmd)) ++ cmd.

Lemma write_frame_ok `{Writer} cmd w w' :
  write_frame (Ok cmd) w = (w', Ok ()) → written w' = written w ++ encode_frame cmd.
Proof.
  unfold write_frame, encode_frame.
  intros (w1 & c & [= <- <-] & (w2 & [] & H1%writeUint32_ok & H2%wr_ok)%st_bind_ok)%st_bind_ok.
  by rewrite H2, H1, <-app_assoc.
Qed.

Lemma write_frames_ok `{Writer} {A} (f : A → outcome bytes) (g : A → bytes) l w w' :
  (∀ x, f x = Ok (g x)) →
  st_iter (λ x, write_frame (f x)) l w = (w', Ok ()) →
  written w' = written w ++ mjoin (encode_frame ∘ g <$> l).
Proof.
  intros Hfg. induction l as [|x l IH] in w |- *; simpl; [intros [= <-]; by rewrite app_nil_r|].
  rewrite Hfg. intros (w1 & [] & H1%write_frame_ok & H2%IH)%st_bind_ok.
  by rewrite H2, H1, <-app_assoc.
Qed.

Definition encode_meta (tick : nat) (s : MetadataStateMachine) : bytes :=
  be_bytes 4 (u32 (Z.of_nat (size (grpcAddrs s)))) ++
  mjoin (encode_frame ∘ (λ p, encode_register p.1 p.2) <$> range_nodes tick (grpcAddrs s)) ++
  be_bytes 4 (u32 (Z.of_nat (size (Shards (topology s))))) ++
  mjoin (encode_frame ∘ (λ p, encode_topology tick p.2) <$> range_nodes (tick + 1) (Shards (topology s))).

Lemma meta_SaveSnapshot_ok `{Writer} tick s w w' :
  meta_SaveSnapshot tick s w = (w', Ok ()) → written w' = written w ++ encode_meta tick s.
Proof.
  unfold meta_SaveSnapshot, encode_meta.
  intros (w1 & [] & H1%writeUint32_ok & (w2 & [] & H2 & (w3 & [] & H3%writeUint32_ok & H4)
    %st_bind_ok)%st_bind_ok)%st_bind_ok.
  apply (write_frames_ok _ (λ p, encode_register p.1 p.2)) in H2;
    [|intros; apply MarshalRegisterNodeAddrCmd_eq].
  apply (write_frames_ok _ (λ p, encode_topology tick p.2)) in H4;
    [|intros; apply MarshalUpdateTopologyCmd_eq].
  by rewrite H4, H3, H2, H1, <-!app_assoc.
Qed.

(** ** Reading it back *)
Lemma lor_shiftl a n b : 0 ≤ n → 0 ≤ b < 2 ^ n → Z.lor (Z.shiftl a n) b = a * 2 ^ n + b.
Proof.
  intros Hn Hb. rewrite <-Z.add_nocarry_lor; [by rewrite Z.shiftl_mul_pow2|].
  apply Z.bits_inj'. intros i Hi. rewrite Z.land_spec, Z.bits_0.
  destruct (decide (i < n)) as [Hlt|Hge].
  - by rewrite Z.shiftl_spec_low by lia.
  - rewrite <-(Z.mod_small b (2 ^ n)), Z.mod_pow2_bits_high, andb_false_r by lia. done.
Qed.

Lemma uint32_of_be z : 0 ≤ z < 2 ^ 32 → uint32_of (be_bytes 4 z) = z.
Proof.
  intros Hz. rewrite <-(Z.mod_small z (2 ^ (8 * Z.of_nat 4))) at 2 by (simpl; lia).
  rewrite <-be_val_be_bytes.
  generalize (length_be_bytes 4 z). destruct (be_bytes 4 z) as [|b0 [|b1 [|b2 [|b3 []]]]]; try done.
  intros _. unfold uint32_of. cbn [fmap list_fmap].
  pose proof (byte_Z_range b1). pose proof (byte_Z_range b2). pose proof (byte_Z_range b3).
  rewrite <-!Z.lor_assoc.
  rewrite (lor_shiftl (byte_Z b2)) by lia. rewrite (lor_shiftl (byte_Z b1)) by lia.
  rewrite lor_shiftl by lia. unfold be_val, len. simpl length. lia.
Qed.

Lemma readUint32_app z rest e :
  0 ≤ z < 2 ^ 32 → readUint32 (mkReader (be_bytes 4 z ++ rest) e) = (mkReader rest e, Ok z).
Proof.
  intros Hz. unfold readUint32, mbind, st_bind.
  rewrite ReadFull_app by (by rewrite len_be_bytes).
  unfold mret, st_ret. by rewrite uint32_of_be.
Qed.

Lemma read_frame_app cmd rest e :
  len cmd < 2 ^ 32 → read_frame (mkReader (encode_frame cmd ++ rest) e) = (mkReader rest e, Ok cmd).
Proof.
  intros Hl. pose proof (len_nonneg cmd). unfold read_frame, encode_frame, mbind, st_bind.
  rewrite u32_small, <-app_assoc, readUint32_app by lia. by rewrite ReadFull_app.
Qed.

Lemma recover_addrs_eq l s rest e :
  Forall node_ok l →
  recover_addrs (length l)
    (s, mkReader (mjoin (encode_frame ∘ (λ p, encode_register p.1 p.2) <$> l) ++ rest) e) =
  ((mkMSM (topology s) (foldl ins_node (grpcAddrs s) l), mkReader rest e), Ok ()).
Proof.
  intros Hf. revert s. induction Hf as [|[id a] l [Hid Ha] Hf IH]; intros s; [by destruct s|].
  rewrite fmap_cons, mjoin_cons, <-app_assoc. cbn [recover_addrs length compose fst snd].
  unfold mbind, st_bind, on_reader at 1. rewrite read_frame_app.
  - rewrite Unmarshal_encode_register by done. simpl. by rewrite IH.
  - unfold encode_register, addr_ok in *. simpl in Ha. rewrite !len_app, !len_be_bytes. lia.
Qed.

Lemma recover_shards_eq tick l s rest e :
  Forall (λ p : Z * ShardTopology, (ShardID p.2 = p.1 ∧ topology_ok p.2) ∧
                                   len (encode_topology tick p.2) < 2 ^ 32) l →
  recover_shards (length l)
    (s, mkReader (mjoin (encode_frame ∘ (λ p, encode_topology tick p.2) <$> l) ++ rest) e) =
  ((mkMSM (mkTopologySnapshot
             (foldl (λ m p, <[p.1 := p.2]> m) (Shards (topology s)) l)
             (foldl (λ m p, m `max` st_Epoch p.2) (ts_Epoch (topology s)) l))
          (grpcAddrs s), mkReader rest e), Ok ()).
Proof.
  intros Hf. revert s. induction Hf as [|[id t] l [[Hid Ht] Hl] Hf IH]; intros s.
  { by destruct s as [[]]. }
  rewrite fmap_cons, mjoin_cons, <-app_assoc. cbn [recover_shards length compose fst snd].
  unfold mbind, st_bind, on_reader at 1. rewrite read_frame_app by done.
  rewrite Unmarshal_encode_topology by done. simpl in *. rewrite IH. simpl. rewrite Hid.
  replace (ts_Epoch (topology s) `max` st_Epoch t)
    with (if decide (st_Epoch t > ts_Epoch (topology s)) then st_Epoch t else ts_Epoch (topology s));
    [done|]. case_decide; lia.
Qed.

Lemma fold_max_le {A} (f : A → Z) l a :
  a ≤ foldl (λ m p, m `max` f p) a l ∧ Forall (λ p, f p ≤ foldl (λ m p, m `max` f p) a l) l.
Proof.
  induction l as [|x l IH] in a |- *; simpl; [done|].
  destruct (IH (a `max` f x)) as [Hle Hf]. split; [lia|]. constructor; [lia|done].
Qed.

Lemma fold_max_reached {A} (f : A → Z) l a :
  foldl (λ m p, m `max` f p) a l = a ∨ Exists (λ p, f p = foldl (λ m p, m `max` f p) a l) l.
Proof.
  induction l as [|x l IH] in a |- *; simpl; [by left|].
  destruct (IH (a `max` f x)) as [E|Hex]; [|by right; right].
  rewrite E. destruct (Z.max_spec a (f x)) as [[? ->]|[? ->]]; [right; by left|by left].
Qed.

(** C39. The metadata state machine is total and does what its commands say.  In
    every state a replica reaches through log entries and through recoveries
    from snapshots, broken ones included, the invariant holds: shards filed
    under their own ids, all fields within their widths, the epoch at least
    every shard's.  Every log entry is answered without an error or a panic.  A
    topology the encoder made, of fields that fit their widths, replaces that
    shard's entry and nothing else and raises the epoch to its own if that is
    newer; a registration replaces that node's address and nothing else; bytes
    that decode as neither change nothing and are answered 0.  No log entry
    lowers the epoch. *)
Theorem meta_machine_sound s cmd :
  rtc meta_step NewMetadataStateMachine s →
  meta_inv s ∧
  ∃ s' v, meta_Update cmd s = (s', Ok v) ∧
    ts_Epoch (topology s) ≤ ts_Epoch (topology s') ∧
    (∀ tick t, topology_ok t → MarshalUpdateTopologyCmd tick t = Ok cmd →
       v = 1 ∧ Shards (topology s') = <[ShardID t := t]> (Shards (topology s)) ∧
       ts_Epoch (topology s') = ts_Epoch (topology s) `max` st_Epoch t ∧ grpcAddrs s' = grpcAddrs s) ∧
    (∀ id a, is_u64 id → addr_ok a → MarshalRegisterNodeAddrCmd id a = Ok cmd →
       v = 1 ∧ topology s' = topology s ∧ grpcAddrs s' = <[id := a]> (grpcAddrs s)) ∧
    ((∀ t, UnmarshalUpdateTopologyCmd cmd ≠ Ok t) → (∀ p, UnmarshalRegisterNodeAddrCmd cmd ≠ Ok p) →
       v = 0 ∧ s' = s).
Proof.
  intros Hr. split; [by apply meta_reachable_inv|].
  destruct (meta_Update cmd s) as [s' o] eqn:Hu. assert (∃ v, o = Ok v) as [v ->].
  { destruct (meta_Update_cases cmd s) as [(? & _ & _ & E)|[(? & ? & _ & _ & _ & E)|E]];
      rewrite E in Hu; injection Hu as <- <-; eauto. }
  exists s', v. split_and!; [done| |..].
  - eapply meta_Update_inv; [exact Hu|by apply meta_reachable_inv].
  - intros tick t Ht Hm. rewrite MarshalUpdateTopologyCmd_eq in Hm. injection Hm as <-.
    rewrite (meta_Update_shard _ _ _ (Unmarshal_encode_topology tick t Ht)) in Hu. injection Hu as <- <-.
    split_and!; [done..| |done]. simpl. case_decide; lia.
  - intros id a Hid Ha Hm. rewrite MarshalRegisterNodeAddrCmd_eq in Hm. injection Hm as <-.
    rewrite (meta_Update_addr _ _ _ _ (Unmarshal_encode_register id a Hid Ha)) in Hu. by injection Hu as <- <-.
  - intros Ht Ha. destruct (meta_Update_cases cmd s) as [(t & E & _)|[(id & a & E & _)|E]];
      [by apply Ht in E|by apply Ha in E|]. rewrite E in Hu. by injection Hu as <- <-.
Qed.

(** A snapshot of the metadata machine, recovered on any replica, gives the
    same shards and the same registry, in whatever order the maps were ranged
    over; its epoch is the newest among the shards, which is at most the
    source's. *)
Theorem meta_snapshot_transfer `{Writer} tick s w w' s0 e :
  meta_inv s → 0 ≤ ts_Epoch (topology s) →
  Z.of_nat (size (grpcAddrs s)) < 2 ^ 32 → Z.of_nat (size (Shards (topology s))) < 2 ^ 32 →
  map_Forall (λ _ t, len (encode_topology tick t) < 2 ^ 32) (Shards (topology s)) →
  written w = [] → meta_SaveSnapshot tick s w = (w', Ok ()) →
  ∃ s', meta_RecoverFromSnapshot (s0, mkReader (written w') e) = ((s', mkReader [] e), Ok ()) ∧
    grpcAddrs s' = grpcAddrs s ∧ Shards (topology s') = Shards (topology s) ∧
    0 ≤ ts_Epoch (topology s') ≤ ts_Epoch (topology s) ∧
    map_Forall (λ _ t, st_Epoch t ≤ ts_Epoch (topology s')) (Shards (topology s)).
Proof.
  intros [Hs He Ha] Hpos Hn1 Hn2 Hfit Hw Hsave. apply meta_SaveSnapshot_ok in Hsave.
  rewrite Hw in Hsave. simpl in Hsave. rewrite Hsave. unfold encode_meta.
  rewrite !u32_small by lia. unfold meta_RecoverFromSnapshot.
  assert (∀ A n (m : gmap Z A), length (range_nodes n m) = size m) as Hlen
    by (intros; by rewrite range_nodes_perm, length_map_to_list).
  set (l1 := range_nodes tick (grpcAddrs s)). set (l2 := range_nodes (tick + 1) (Shards (topology s))).
  assert (Forall node_ok l1) as Hl1.
  { unfold l1. rewrite range_nodes_perm. apply map_Forall_to_list in Ha.
    eapply Forall_impl; [exact Ha|]. by intros []. }
  assert (Forall (λ p : Z * ShardTopology, (ShardID p.2 = p.1 ∧ topology_ok p.2) ∧
                    len (encode_topology tick p.2) < 2 ^ 32) l2) as Hl2.
  { unfold l2. rewrite range_nodes_perm. apply Forall_and.
    split; [apply map_Forall_to_list in Hs|apply map_Forall_to_list in Hfit];
      (eapply Forall_impl; [done|]); by intros []. }
  unfold mbind, st_bind, on_reader, on_machine. rewrite readUint32_app by lia.
  rewrite Nat2Z.id, <-(Hlen _ tick). fold l1. rewrite (recover_addrs_eq _ _ _ _ Hl1).
  rewrite readUint32_app by lia. rewrite Nat2Z.id, <-(Hlen _ (tick + 1)%nat). fold l2.
  pose proof (recover_shards_eq tick l2 (mkMSM (mkTopologySnapshot ∅ 0) (foldl ins_node ∅ l1)) [] e Hl2) as Hrec.
  rewrite app_nil_r in Hrec. simpl in *. rewrite Hrec.
  eexists. split; [done|]. simpl. unfold l1, l2. rewrite foldl_ins_range, foldl_insert_range.
  split_and!; [done|done|apply (fold_max_le (λ p : Z * ShardTopology, st_Epoch p.2))| |].
  - destruct (fold_max_reached (λ p : Z * ShardTopology, st_Epoch p.2) l2 0) as [E|Hex]; unfold l2 in *.
    + by rewrite E.
    + apply Exists_exists in Hex as ([id t] & Hin & <-). rewrite range_nodes_perm in Hin.
      apply elem_of_map_to_list in Hin. by eapply He.
  - intros id t Ht. destruct (fold_max_le (λ p : Z * ShardTopology, st_Epoch p.2) l2 0) as [_ Hf].
    rewrite Forall_forall in Hf. apply (Hf (id, t)). unfold l2.
    by rewrite range_nodes_perm, elem_of_map_to_list.
Qed.
End machine.

(** ** Runs *)
Definition run_log (cmds : list bytes) (s : MetadataStateMachine) : MetadataStateMachine :=
  foldl (λ s cmd, (meta_Update cmd s).1) s cmds.

Definition topology_cmd (t : ShardTopology) : bytes := encode_topology 0 t.

Definition with_epoch (e : Z) (t : ShardTopology) : ShardTopology :=
  mkShardTopology (ShardID t) (LeaderID t) (LeaderAddr t) (Term t) e (Nodes t) (NonVotings t)
    (Witnesses t) (GrpcAddrs t) (ConfigChangeID t).

Definition sample_msm : MetadataStateMachine :=
  run_log [encode_register 1 (of_str "n1:9090"); topology_cmd sample_topology; []]
    NewMetadataStateMachine.

Lemma sample_msm_reachable : rtc meta_step NewMetadataStateMachine sample_msm.
Proof.
  unfold sample_msm, run_log. cbn [foldl].
  do 3 (eapply rtc_r; [|eapply step_entry; apply pair_snd_eq; by vm_compute]). apply rtc_refl.
Qed.

Lemma meta_machine_sound_witness :
  (meta_Update (of_str "?") sample_msm).2 = Ok 0 ∧
  ∃ s' v, meta_Update (topology_cmd (with_epoch 9 sample_topology)) sample_msm = (s', Ok v) ∧
    v = 1 ∧ ts_Epoch (topology s') = ts_Epoch (topology sample_msm) `max` 9.
Proof.
  split; [by vm_compute|].
  destruct (@meta_machine_sound id_order sample_msm (topology_cmd (with_epoch 9 sample_topology)) sample_msm_reachable)
    as (_ & s' & v & Hu & _ & Ht & _).
  exists s', v. split; [exact Hu|].
  destruct (Ht 0%nat (with_epoch 9 sample_topology)) as (Hv & _ & He & _);
    [apply (bool_decide_unpack _); by vm_compute|apply MarshalUpdateTopologyCmd_eq|]. split; [exact Hv|exact He].
Defined.

Definition saved (s : MetadataStateMachine) : bytes := (@meta_SaveSnapshot id_order buffer_writer 0 s []).1.

Lemma meta_snapshot_transfer_witness :
  ∃ s', meta_RecoverFromSnapshot (NewMetadataStateMachine, mkReader (saved sample_msm) ErrEOF)
        = ((s', mkReader [] ErrEOF), Ok ()) ∧
    Shards (topology s') = Shards (topology sample_msm).
Proof.
  destruct (@meta_snapshot_transfer id_order buffer_writer 0 sample_msm [] (saved sample_msm)
              NewMetadataStateMachine ErrEOF) as (s' & E & _ & Hs & _).
  - exact (meta_reachable_inv _ sample_msm_reachable).
  - by vm_compute.
  - by vm_compute.
  - by vm_compute.
  - apply (bool_decide_unpack _). by vm_compute.
  - reflexivity.
  - apply pair_snd_eq. by vm_compute.
  - exists s'. split; [exact E|exact Hs].
Defined.

(** The same shard published with epoch 5 by one node and then with epoch 1 by
    another. *)
Definition stale_msm : MetadataStateMachine :=
  run_log [topology_cmd (with_epoch 5 sample_topology); topology_cmd (with_epoch 1 sample_topology)]
    NewMetadataStateMachine.

Definition recovered_msm : MetadataStateMachine :=
  (meta_RecoverFromSnapshot (NewMetadataStateMachine, mkReader (saved stale_msm) ErrEOF)).1.1.

(** The epoch is not in the snapshot: it is recomputed from the shards, so a
    replica that recovers can have a smaller epoch than one that applied the
    log. *)
Theorem meta_epoch_diverges :
  ts_Epoch (topology stale_msm) = 5 ∧ ts_Epoch (topology recovered_msm) = 1.
Proof. split; by vm_compute. Qed.
