(* ===== verification/MetaService.v ===== *)
(** * The metadata service and cluster discovery
    ([src/pkg/raft/metadata/service.go], [GetClusterInfo] of
    [src/internal/api/grpc/handlers/cluster.go])

    The listener that turns leader and membership changes into topology
    commands, and the handler that answers clients from the replicated
    topology.  What the NodeHost answers when it is asked is an argument of the
    operation that asks; the metadata Raft group is the class [MetaGroup]. *)
From stdpp Require Import prelude gmap strings.
From S2P Require Import Prelude Bytes Codec MetaCommands MetaStateMachine.
Local Open Scope Z_scope.

(** dragonboat.Membership, as far as it is read. *)
Record Membership := mkMembership {
  m_ConfigChangeID : Z;
  m_Nodes : node_map;
  m_NonVotings : node_map;
  m_Witnesses : node_map;
}.

(** The NodeHost at the moment of a call: [SyncGetShardMembership] and
    [GetLeaderID] (leader, term, valid). *)
Record NodeHost := mkNodeHost {
  SyncGetShardMembership : Z → outcome Membership;
  GetLeaderID : Z → outcome (Z * Z * bool);
}.

(** The metadata group as one node sees it.  [propose] is [SyncPropose]: nil
    means that the command was committed and applied to the local machine.  The
    group is taken to have no other command in flight at that moment. *)
Class MetaGroup := {
  mg_t : Type;
  mg_machine : mg_t → MetadataStateMachine;
  mg_propose : mg_t → bytes → mg_t * option error;
  mg_propose_ok g cmd g' :
    mg_propose g cmd = (g', None) →
    ∃ v, meta_Update cmd (mg_machine g) = (mg_machine g', Ok v);
  mg_propose_err g cmd g' e :
    mg_propose g cmd = (g', Some e) →
    mg_machine g' = mg_machine g ∨
    ∃ v, meta_Update cmd (mg_machine g) = (mg_machine g', Ok v);
}.

Section service.
Context `{NodeRange} {MG : MetaGroup}.

Record Service := mkService {
  getGrpcAddrs : option (mg_t → node_map);
  epoch : Z;
  shards : gset Z;
}.

Definition NewService : Service := mkService None 0 ∅.

Definition SetGrpcAddrsSource (fn : mg_t → node_map) (s : Service) : Service :=
  mkService (Some fn) (epoch s) (shards s).

(** The source the application sets: the registry of the local machine. *)
Definition local_addrs (tick : nat) (g : mg_t) : node_map := GetGrpcAddrs tick (mg_machine g).

Definition RegisterNodeAddr (nodeID : Z) (grpcAddr : bytes) : st mg_t () := λ g,
  match MarshalRegisterNodeAddrCmd nodeID grpcAddr with
  | Ok cmd => match mg_propose g cmd with
              | (g', Some e) => (g', Err e)
              | (g', None) => (g', Ok ())
              end
  | Err e => (g, Err e)
  | Panic => (g, Panic)
  | OutOfFuel => (g, OutOfFuel)
  end.

(** The topology [publishTopology] builds. *)
Definition build_topology (tick : nat) (nh : NodeHost) (shardID : Z) (membership : Membership)
    (s : Service) (g : mg_t) : ShardTopology :=
  let '(leaderID, term) :=
    match GetLeaderID nh shardID with Ok (l, t, true) => (l, t) | _ => (0, 0) end in
  let grpcAddrs := match getGrpcAddrs s with
                   | Some getAddrs => copy_nodes tick (getAddrs g)
                   | None => ∅
                   end in
  let leaderAddr := if decide (leaderID > 0) then default [] (grpcAddrs !! leaderID) else [] in
  mkShardTopology shardID leaderID leaderAddr term (u64 (epoch s + 1))
    (m_Nodes membership) (m_NonVotings membership) (m_Witnesses membership) grpcAddrs
    (m_ConfigChangeID membership).

(** [publishTopology]: failures are logged and dropped.  The result is the
    error of the proposal, for the statements below. *)
Definition publishTopology (tick : nat) (nh : NodeHost) (shardID : Z) (s : Service) (g : mg_t)
    : (Service * mg_t) * option error :=
  match SyncGetShardMembership nh shardID with
  | Ok membership =>
      let topo := build_topology tick nh shardID membership s g in
      let s' := mkService (getGrpcAddrs s) (u64 (epoch s + 1)) (shards s) in
      match MarshalUpdateTopologyCmd (tick + 1) topo with
      | Ok cmd => let '(g', e) := mg_propose g cmd in ((s', g'), e)
      | Err e => ((s', g), Some e)
      | _ => ((s', g), None)
      end
  | Err e => ((s, g), Some e)
  | _ => ((s, g), None)
  end.

Definition track (shardID : Z) (s : Service) : Service :=
  mkService (getGrpcAddrs s) (epoch s) ({[shardID]} ∪ shards s).

(** The listener's callbacks. *)
Inductive raft_event :=
  | EvLeaderUpdated (shardID : Z)
  | EvMembershipChanged (shardID : Z)
  | EvNodeReady (shardID : Z)
  | EvNodeDeleted (shardID : Z)
  | EvRegisterShard (shardID : Z).

Definition handle_event (tick : nat) (nh : NodeHost) (ev : raft_event) (s : Service) (g : mg_t)
    : Service * mg_t :=
  match ev with
  | EvLeaderUpdated id | EvMembershipChanged id | EvNodeReady id =>
      if decide (id = MetadataShardID) then (s, g)
      else (publishTopology tick nh id (track id s) g).1
  | EvNodeDeleted id =>
      if decide (id = MetadataShardID) then (s, g) else (publishTopology tick nh id s g).1
  | EvRegisterShard id => (publishTopology tick nh id (track id s) g).1
  end.

(** [RefreshAll]: the ids are collected first, then published one by one; the
    NodeHost is asked anew each time. *)
Fixpoint refresh (tick : nat) (nh : nat → NodeHost) (ids : list Z) (s : Service) (g : mg_t)
    : Service * mg_t :=
  match ids with
  | [] => (s, g)
  | id :: ids' =>
      let '((s', g'), _) := publishTopology tick (nh tick) id s g in
      refresh (S tick) nh ids' s' g'
  end.

Definition RefreshAll (tick : nat) (nh : nat → NodeHost) (s : Service) (g : mg_t) : Service * mg_t :=
  refresh tick nh ((range_nodes tick (gset_to_gmap () (shards s))).*1) s g.

(** ** GetClusterInfo *)
Record NodeInfo := mkNodeInfo {
  ni_NodeId : Z;
  ni_Address : bytes;
  ni_IsLeader : bool;
  ni_IsAlive : bool;
}.

Record ClusterInfoResponse := mkClusterInfoResponse {
  LeaderNodeId : Z;
  LeaderAddress : bytes;
  ci_Nodes : list NodeInfo;
}.

Definition node_info (topo : ShardTopology) (nodeID : Z) : NodeInfo :=
  let addr := default [] (GrpcAddrs topo !! nodeID) in
  mkNodeInfo nodeID
    (if decide (addr = []) then default [] (Nodes topo !! nodeID) else addr)
    (bool_decide (nodeID = LeaderID topo)) true.

(** [clusterID] is the event shard; [None] is a node that is not in Raft
    mode. *)
Definition GetClusterInfo (tick : nat) (clusterID : Z) (sm : option MetadataStateMachine)
    : outcome ClusterInfoResponse :=
  match sm with
  | None => Err (ErrorMsg "attempt to get cluster info on single mode node" [])
  | Some sm =>
      match GetShardTopology tick clusterID sm with
      | None => Err (ErrorMsg "topology not yet available" [])
      | Some topo =>
          Ok (mkClusterInfoResponse (LeaderID topo) (LeaderAddr topo)
                (node_info topo <$> (range_nodes tick (Nodes topo)).*1))
      end
  end.

(** ** Lemmas *)
Lemma meta_Update_register id a s :
  is_u64 id → addr_ok a → meta_Update (encode_register id a) s = (put_addr id a s, Ok 1).
Proof.
  intros Hid Ha. by apply meta_Update_addr, Unmarshal_encode_register.
Qed.

Lemma meta_Update_topology tick t s :
  topology_ok t → meta_Update (encode_topology tick t) s = (put_shard t s, Ok 1).
Proof.
  intros Ht. by apply meta_Update_shard, Unmarshal_encode_topology.
Qed.

Lemma RegisterNodeAddr_ok id a g g' :
  is_u64 id → addr_ok a → RegisterNodeAddr id a g = (g', Ok ()) →
  mg_machine g' = put_addr id a (mg_machine g).
Proof.
  intros Hid Ha. unfold RegisterNodeAddr. rewrite MarshalRegisterNodeAddrCmd_eq.
  destruct (mg_propose g _) as [g1 [e|]] eqn:E; [done|]. intros [= <-].
  apply mg_propose_ok in E as (v & E). rewrite meta_Update_register in E by done.
  by injection E as <- _.
Qed.

Lemma publishTopology_ok tick nh shardID s g s' g' m :
  SyncGetShardMembership nh shardID = Ok m →
  topology_ok (build_topology tick nh shardID m s g) →
  publishTopology tick nh shardID s g = ((s', g'), None) →
  mg_machine g' = put_shard (build_topology tick nh shardID m s g) (mg_machine g) ∧
  epoch s' = u64 (epoch s + 1).
Proof.
  intros Hm Ht. unfold publishTopology. rewrite Hm, MarshalUpdateTopologyCmd_eq.
  destruct (mg_propose g _) as [g1 e] eqn:E. intros [= <- <- ->].
  apply mg_propose_ok in E as (v & E). rewrite meta_Update_topology in E by done.
  by injection E as <- _.
Qed.

Lemma build_topology_leader tick nh shardID m s g L term :
  GetLeaderID nh shardID = Ok (L, term, true) → 0 < L →
  let t := build_topology tick nh shardID m s g in
  ShardID t = shardID ∧ LeaderID t = L ∧ Nodes t = m_Nodes m ∧
  LeaderAddr t = default [] (GrpcAddrs t !! L) ∧
  ∀ k, getGrpcAddrs s = Some (local_addrs k) → GrpcAddrs t = grpcAddrs (mg_machine g).
Proof.
  intros HL Hpos t. unfold t, build_topology. rewrite HL. cbn.
  rewrite decide_True by lia. split_and!; [done..|].
  intros k ->. unfold local_addrs, GetGrpcAddrs. by rewrite !copy_nodes_eq.
Qed.

Lemma GetClusterInfo_ok tick clusterID sm t :
  Shards (topology sm) !! clusterID = Some t →
  GetClusterInfo tick clusterID (Some sm) =
    Ok (mkClusterInfoResponse (LeaderID t) (LeaderAddr t)
          (node_info t <$> (range_nodes tick (Nodes t)).*1)).
Proof.
  intros E. unfold GetClusterInfo, GetShardTopology. rewrite E. simpl.
  by rewrite copyShardTopology_eq, copy_nodes_eq.
Qed.

(** C40. Clients find the leader: once a node has registered its address and a
    topology that names it as the leader has been published, [GetClusterInfo]
    answers with that node as the leader under that address; the list has
    exactly the voting members, each once, the leader flag is set for the
    leader only, and a member without a registered address is listed under its
    Raft address. *)
Theorem cluster_discovery tick tick' k nh shardID L term addr m s g g1 s' g2 :
  getGrpcAddrs s = Some (local_addrs k) →
  is_u64 L → 0 < L → addr_ok addr → addr ≠ [] →
  RegisterNodeAddr L addr g = (g1, Ok ()) →
  SyncGetShardMembership nh shardID = Ok m →
  GetLeaderID nh shardID = Ok (L, term, true) →
  topology_ok (build_topology tick nh shardID m s g1) →
  publishTopology tick nh shardID s g1 = ((s', g2), None) →
  ∃ resp, GetClusterInfo tick' shardID (Some (mg_machine g2)) = Ok resp ∧
    LeaderNodeId resp = L ∧ LeaderAddress resp = addr ∧
    ni_NodeId <$> ci_Nodes resp ≡ₚ (map_to_list (m_Nodes m)).*1 ∧
    Forall (λ ni, ni_IsLeader ni = bool_decide (ni_NodeId ni = L) ∧
                  (ni_NodeId ni = L → ni_Address ni = addr) ∧
                  (grpcAddrs (mg_machine g1) !! ni_NodeId ni = None →
                   m_Nodes m !! ni_NodeId ni = Some (ni_Address ni))) (ci_Nodes resp).
Proof.
  intros Hsrc HL Hpos Ha Hne Hreg Hm HgL Ht Hpub.
  apply RegisterNodeAddr_ok in Hreg; [|done..].
  destruct (publishTopology_ok _ _ _ _ _ _ _ _ Hm Ht Hpub) as [Hg2 _].
  destruct (build_topology_leader tick nh shardID m s g1 L term HgL Hpos)
    as (Hs & Hl & Hn & Hla & Hgr).
  specialize (Hgr k Hsrc). set (t := build_topology tick nh shardID m s g1) in *.
  assert (GrpcAddrs t !! L = Some addr) as HaL
    by (rewrite Hgr, Hreg; simpl; by rewrite lookup_insert_eq).
  eexists. split; [apply (GetClusterInfo_ok _ _ _ t)|].
  { rewrite Hg2, <-Hs. simpl. by rewrite lookup_insert_eq. }
  cbn [LeaderNodeId LeaderAddress ci_Nodes]. split_and!; [done|by rewrite Hla, HaL| |].
  - rewrite <-list_fmap_compose. rewrite (list_fmap_ext _ id); [|done].
    by rewrite list_fmap_id, Hn, range_nodes_perm.
  - apply Forall_fmap, Forall_forall. intros id Hid. simpl. rewrite Hl. split_and!; [done| |].
    + intros ->. rewrite HaL. simpl. by rewrite decide_False.
    + intros Hnone. rewrite Hgr, Hnone. simpl. rewrite Hn.
      rewrite range_nodes_perm, Hn in Hid. apply list_elem_of_fmap in Hid as ([id' a] & -> & Hin).
      apply elem_of_map_to_list in Hin. simpl. by rewrite Hin.
Qed.
End service.

(** ** Runs *)

#[local] Unset Program Cases.
#[local] Obligation Tactic := idtac.

(** A one-node metadata group. *)
#[export] Program Instance local_group : MetaGroup := {|
  mg_t := MetadataStateMachine;
  mg_machine g := g;
  mg_propose g cmd :=
    match meta_Update cmd g with
    | (g', Ok _) => (g', None)
    | _ => (g, Some (ErrorMsg "timeout" []))
    end;
|}.
Next Obligation.
  cbv beta. intros g cmd g'. destruct (meta_Update cmd g) as [g1 [v|e| |]]; intros [=]; subst; eauto.
Qed.
Next Obligation.
  cbv beta. intros g cmd g' e. destruct (meta_Update cmd g) as [g1 [v|e1| |]]; intros [=]; subst; eauto.
Qed.

Definition sample_members : Membership :=
  mkMembership 4 {[1 := of_str "n1:5000"; 2 := of_str "n2:5000"]} ∅ ∅.

Definition sample_host : NodeHost :=
  mkNodeHost (λ _, Ok sample_members) (λ _, Ok (2, 7, true)).

Definition sample_service : Service := SetGrpcAddrsSource (local_addrs 0) NewService.

Definition registered : MetadataStateMachine :=
  (RegisterNodeAddr 2 (of_str "n2:9090") NewMetadataStateMachine).1.

Lemma cluster_discovery_witness :
  ∃ resp, GetClusterInfo 0 1 (Some (publishTopology 0 sample_host 1 sample_service registered).1.2)
          = Ok resp ∧ LeaderAddress resp = of_str "n2:9090".
Proof.
  destruct (cluster_discovery 0 0 0 sample_host 1 2 7 (of_str "n2:9090") sample_members
    sample_service NewMetadataStateMachine registered
    (publishTopology 0 sample_host 1 sample_service registered).1.1
    (publishTopology 0 sample_host 1 sample_service registered).1.2)
    as (resp & E & _ & Ha & _).
  - reflexivity.
  - by vm_compute.
  - done.
  - by vm_compute.
  - done.
  - apply pair_snd_eq. by vm_compute.
  - reflexivity.
  - reflexivity.
  - apply (bool_decide_unpack _). by vm_compute.
  - etrans; [apply (pair_snd_eq _ None); by vm_compute|]. done.
  - exists resp. split; [exact E|exact Ha].
Defined.
