(* ===== verification/Cluster.v ===== *)
(** * Cluster membership ([src/internal/api/grpc/handlers/cluster.go])

    [JoinCluster], [LeaveCluster], [JoinMetadata], [LeaveMetadata] and the
    catch-up loop.  The membership requests of the NodeHost are the class
    [ClusterHost]: a request that returns nil has been applied, one that
    returns an error may or may not have been. *)
From stdpp Require Import prelude gmap strings.
From S2P Require Import Prelude Bytes MetaCommands MetaStateMachine MetaService.
Local Open Scope Z_scope.

(** What a membership change does to the voting and non-voting members. *)
Record members := mkMembers {
  voters : node_map;
  observers : node_map;
}.

Definition add_observer (id : Z) (addr : bytes) (m : members) : members :=
  mkMembers (voters m) (<[id := addr]> (observers m)).
Definition add_voter (id : Z) (addr : bytes) (m : members) : members :=
  mkMembers (<[id := addr]> (voters m)) (delete id (observers m)).
Definition remove_member (id : Z) (m : members) : members :=
  mkMembers (delete id (voters m)) (delete id (observers m)).

(** [changed f shard ms ms' e]: a request for [shard] whose change is [f]
    turned the memberships [ms] into [ms'] and answered [e]. *)
Definition changed (f : members → members) (shard : Z) (ms ms' : Z → members) (e : option error) : Prop :=
  (∀ sh, sh ≠ shard → ms' sh = ms sh) ∧
  (ms' shard = f (ms shard) ∨ (e ≠ None ∧ ms' shard = ms shard)).

Class ClusterHost := {
  h_t : Type;
  shard_members : h_t → Z → members;
  SyncRequestAddNonVoting : h_t → Z → Z → bytes → h_t * option error;
  SyncRequestAddReplica : h_t → Z → Z → bytes → h_t * option error;
  SyncRequestDeleteReplica : h_t → Z → Z → h_t * option error;
  AddNonVoting_spec h sh id a :
    let '(h', e) := SyncRequestAddNonVoting h sh id a in
    changed (add_observer id a) sh (shard_members h) (shard_members h') e;
  AddReplica_spec h sh id a :
    let '(h', e) := SyncRequestAddReplica h sh id a in
    changed (add_voter id a) sh (shard_members h) (shard_members h') e;
  DeleteReplica_spec h sh id :
    let '(h', e) := SyncRequestDeleteReplica h sh id in
    changed (remove_member id) sh (shard_members h) (shard_members h') e;
}.

(** What the [select] of the catch-up loop picks; a tick carries the error of
    the membership query, if it fails. *)
Inductive wait_event := EvDeadline | EvCtxDone (e : error) | EvTick (fault : option error).

(** A response of a membership handler: [Success] and [ErrorMessage]. *)
Record Response := mkResponse {
  Success : bool;
  ErrorMessage : option error;
}.

Section cluster.
Context {CH : ClusterHost}.

Definition failed (e : error) : Response := mkResponse false (Some e).

(** [waitForCatchUp] over the events selected so far; it waits when they run
    out. *)
Fixpoint waitForCatchUp (h : h_t) (shardID nodeID : Z) (evs : list wait_event) : outcome () :=
  match evs with
  | [] => OutOfFuel
  | EvDeadline :: _ => Err (ErrorMsg "timeout waiting for node %d to catch up" [nodeID])
  | EvCtxDone e :: _ => Err e
  | EvTick (Some _) :: evs' => waitForCatchUp h shardID nodeID evs'
  | EvTick None :: evs' =>
      match observers (shard_members h shardID) !! nodeID with
      | Some _ => Ok ()
      | None => waitForCatchUp h shardID nodeID evs'
      end
  end.

(** A request whose failure is reported in the response: [k] goes on after
    success. *)
Definition request (r : h_t * option error) (k : h_t → h_t * outcome Response)
    : h_t * outcome Response :=
  match r with
  | (h, Some e) => (h, Ok (failed e))
  | (h, None) => k h
  end.

Definition await (h : h_t) (o : outcome ()) (k : h_t * outcome Response) : h_t * outcome Response :=
  match o with
  | Ok _ => k
  | Err e => (h, Ok (failed (ErrorWrap "node did not catch up" e)))
  | Panic => (h, Panic)
  | OutOfFuel => (h, OutOfFuel)
  end.

(** [raftMode] is [app.A.NodeHost != nil]; [evs1] and [evs2] are the events of
    the two waits. *)
Definition JoinCluster (raftMode : bool) (eventShard nodeId : Z) (raftAddress : bytes)
    (evs1 evs2 : list wait_event) (h : h_t) : h_t * outcome Response :=
  if negb raftMode then (h, Err (ErrorMsg "node is not running in raft mode" []))
  else
    request (SyncRequestAddNonVoting h MetadataShardID nodeId raftAddress) (λ h,
    request (SyncRequestAddNonVoting h eventShard nodeId raftAddress) (λ h,
    await h (waitForCatchUp h eventShard nodeId evs1) (
    await h (waitForCatchUp h MetadataShardID nodeId evs2) (
    request (SyncRequestAddReplica h MetadataShardID nodeId raftAddress) (λ h,
    request (SyncRequestAddReplica h eventShard nodeId raftAddress) (λ h,
    (h, Ok (mkResponse true None)))))))).

Definition LeaveCluster (raftMode : bool) (eventShard nodeId : Z) (h : h_t)
    : h_t * outcome Response :=
  if negb raftMode then (h, Err (ErrorMsg "node is not running in raft mode" []))
  else
    request (SyncRequestDeleteReplica h eventShard nodeId) (λ h,
    request (SyncRequestDeleteReplica h MetadataShardID nodeId) (λ h,
    (h, Ok (mkResponse true None)))).

Definition JoinMetadata (raftMode : bool) (nodeId : Z) (raftAddress : bytes) (h : h_t)
    : h_t * outcome Response :=
  if negb raftMode then (h, Err (ErrorMsg "node is not running in raft mode" []))
  else
    request (SyncRequestAddNonVoting h MetadataShardID nodeId raftAddress) (λ h,
    (h, Ok (mkResponse true None))).

Definition LeaveMetadata (raftMode : bool) (nodeId : Z) (h : h_t) : h_t * outcome Response :=
  if negb raftMode then (h, Err (ErrorMsg "node is not running in raft mode" []))
  else
    request (SyncRequestDeleteReplica h MetadataShardID nodeId) (λ h,
    (h, Ok (mkResponse true None))).

(** ** Specification *)

(** Only the node [id] is affected, and only in the shards of [shs]. *)
Definition only_node (id : Z) (shs : list Z) (ms ms' : Z → members) : Prop :=
  ∀ sh, (sh ∉ shs → ms' sh = ms sh) ∧
    ∀ id', id' ≠ id → voters (ms' sh) !! id' = voters (ms sh) !! id' ∧
                      observers (ms' sh) !! id' = observers (ms sh) !! id'.

#[export] Instance only_node_preorder id shs : PreOrder (only_node id shs).
Proof.
  split; [done|]. intros m1 m2 m3 H12 H23 sh.
  destruct (H12 sh) as [A1 B1], (H23 sh) as [A2 B2]. split.
  - intros Hs. by rewrite A2, A1.
  - intros id' Hne. destruct (B1 id' Hne), (B2 id' Hne). split; congruence.
Qed.

Lemma changed_only f id shs sh ms ms' e :
  sh ∈ shs → (∀ m id', id' ≠ id → voters (f m) !! id' = voters m !! id' ∧
                                  observers (f m) !! id' = observers m !! id') →
  changed f sh ms ms' e → only_node id shs ms ms'.
Proof.
  intros Hin Hf [Ho Hs] sh'. destruct (decide (sh' = sh)) as [->|Hne].
  - split; [done|]. intros id' Hid. by destruct Hs as [->|[_ ->]]; [apply Hf|].
  - rewrite Ho by done. done.
Qed.

Lemma changed_ok f sh ms ms' : changed f sh ms ms' None → ms' sh = f (ms sh).
Proof. by intros [_ [?|[? _]]]. Qed.

Ltac member_lookup :=
  intros; split; simpl;
  first [done | by rewrite lookup_insert_ne | by rewrite lookup_delete_ne].

(** The effect of one request followed by the rest of a handler. *)
Lemma request_inv r k h' o :
  request r k = (h', o) →
  (∃ e, r = (h', Some e) ∧ o = Ok (failed e)) ∨ (∃ h1, r = (h1, None) ∧ k h1 = (h', o)).
Proof. destruct r as [h1 [e|]]; simpl; [intros [= <- <-]|]; eauto. Qed.

Lemma await_inv h w k h' o :
  await h w k = (h', o) → (h' = h ∧ ∀ r, o = Ok r → Success r = false) ∨ (w = Ok () ∧ k = (h', o)).
Proof.
  destruct w as [[]|e| |]; simpl; [by right|..]; intros [= <- <-]; left; split; try done.
  by intros r [= <-].
Qed.

Lemma add_observer_step h sh id a shs h1 e :
  sh ∈ shs → SyncRequestAddNonVoting h sh id a = (h1, e) →
  only_node id shs (shard_members h) (shard_members h1) ∧
  (∀ sh', voters (shard_members h1 sh') = voters (shard_members h sh')).
Proof.
  intros Hin E. pose proof (AddNonVoting_spec h sh id a) as Hs. rewrite E in Hs. split.
  - eapply changed_only; [done| |exact Hs]. member_lookup.
  - intros sh'. destruct Hs as [Ho Hs]. destruct (decide (sh' = sh)) as [->|]; [|by rewrite Ho].
    by destruct Hs as [->|[_ ->]].
Qed.

Lemma add_voter_step h sh id a shs h1 e :
  sh ∈ shs → SyncRequestAddReplica h sh id a = (h1, e) →
  only_node id shs (shard_members h) (shard_members h1) ∧
  (∀ sh', sh' ≠ sh → shard_members h1 sh' = shard_members h sh') ∧
  (e = None → shard_members h1 sh = add_voter id a (shard_members h sh)).
Proof.
  intros Hin E. pose proof (AddReplica_spec h sh id a) as Hs. rewrite E in Hs. split_and!.
  - eapply changed_only; [done| |exact Hs]. member_lookup.
  - apply Hs.
  - intros ->. by apply changed_ok.
Qed.

Lemma remove_step h sh id shs h1 e :
  sh ∈ shs → SyncRequestDeleteReplica h sh id = (h1, e) →
  only_node id shs (shard_members h) (shard_members h1) ∧
  (∀ sh', sh' ≠ sh → shard_members h1 sh' = shard_members h sh') ∧
  (e = None → shard_members h1 sh = remove_member id (shard_members h sh)).
Proof.
  intros Hin E. pose proof (DeleteReplica_spec h sh id) as Hs. rewrite E in Hs. split_and!.
  - eapply changed_only; [done| |exact Hs]. member_lookup.
  - apply Hs.
  - intros ->. by apply changed_ok.
Qed.

(** Joining touches nobody else: whatever happens, only the joining node's
    membership changes, and only in the two groups.  A successful answer means
    that the node votes in both groups under its address; and on every failure
    path a node that became a voter of the event shard is a voter of the
    metadata group, so the groups are never promoted in the wrong order. *)
Theorem join_cluster_sound raftMode eventShard id a evs1 evs2 h h' o :
  eventShard ≠ MetadataShardID →
  JoinCluster raftMode eventShard id a evs1 evs2 h = (h', o) →
  only_node id [MetadataShardID; eventShard] (shard_members h) (shard_members h') ∧
  (∀ r, o = Ok r → Success r = true → ∀ sh, sh ∈ [MetadataShardID; eventShard] →
     voters (shard_members h' sh) !! id = Some a ∧ observers (shard_members h' sh) !! id = None) ∧
  (is_Some (voters (shard_members h' eventShard) !! id) →
   is_Some (voters (shard_members h eventShard) !! id) ∨
   voters (shard_members h' MetadataShardID) !! id = Some a).
Proof.
  intros Hne Hr. set (shs := [MetadataShardID; eventShard]).
  assert (MetadataShardID ∈ shs ∧ eventShard ∈ shs) as [Hm Hv] by (unfold shs; set_solver).
  unfold JoinCluster in Hr. destruct raftMode; simpl in Hr; [|simplify_eq; split_and!; [reflexivity|done|by left]].
  apply request_inv in Hr as [(e & E1 & ->)|(h1 & E1 & Hr)];
    destruct (add_observer_step _ _ _ _ shs _ _ Hm E1) as [O1 V1];
    [rewrite V1; split_and!; [done|by intros r [= <-]|by left]|].
  apply request_inv in Hr as [(e & E2 & ->)|(h2 & E2 & Hr)];
    destruct (add_observer_step _ _ _ _ shs _ _ Hv E2) as [O2 V2];
    [rewrite V2, V1; split_and!; [by etrans|by intros r [= <-]|by left]|].
  assert (only_node id shs (shard_members h) (shard_members h2)) as O12 by (by etrans).
  assert (∀ sh, voters (shard_members h2 sh) = voters (shard_members h sh)) as V12
    by (intros; by rewrite V2, V1).
  apply await_inv in Hr as [(-> & Hf)|(_ & Hr)];
    [rewrite V12; split_and!; [done|intros r Er; by rewrite (Hf r Er)|by left]|].
  apply await_inv in Hr as [(-> & Hf)|(_ & Hr)];
    [rewrite V12; split_and!; [done|intros r Er; by rewrite (Hf r Er)|by left]|].
  apply request_inv in Hr as [(e & E3 & ->)|(h3 & E3 & Hr)];
    destruct (add_voter_step _ _ _ _ shs _ _ Hm E3) as (O3 & S3 & A3);
    [rewrite S3, V12 by done; split_and!; [by etrans|by intros r [= <-]|by left]|].
  specialize (A3 eq_refl).
  apply request_inv in Hr as [(e & E4 & ->)|(h4 & E4 & Hr)];
    destruct (add_voter_step _ _ _ _ shs _ _ Hv E4) as (O4 & S4 & A4).
  all: assert (voters (shard_members h' MetadataShardID) !! id = Some a ∧
               observers (shard_members h' MetadataShardID) !! id = None) as Hmeta
    by (try (injection Hr as <- <-); rewrite S4, A3 by done; simpl;
        by rewrite lookup_insert_eq, lookup_delete_eq).
  - split_and!; [by do 2 (etrans; [done|])|by intros r [= <-]|right; apply Hmeta].
  - injection Hr as <- <-. split_and!; [by do 2 (etrans; [done|])| |right; apply Hmeta].
    intros r _ _ sh [->|[->|[]%elem_of_nil]%elem_of_cons]%elem_of_cons; [done|].
    rewrite A4 by done. simpl. by rewrite lookup_insert_eq, lookup_delete_eq.
Qed.

(** Leaving: a successful answer means that the node is a member of neither
    group; nobody else is touched, and a node that is gone from the metadata
    group is gone from the event shard. *)
Theorem leave_cluster_sound raftMode eventShard id h h' o :
  eventShard ≠ MetadataShardID →
  LeaveCluster raftMode eventShard id h = (h', o) →
  only_node id [MetadataShardID; eventShard] (shard_members h) (shard_members h') ∧
  (∀ r, o = Ok r → Success r = true → ∀ sh, sh ∈ [MetadataShardID; eventShard] →
     voters (shard_members h' sh) !! id = None ∧ observers (shard_members h' sh) !! id = None).
Proof.
  intros Hne Hr. set (shs := [MetadataShardID; eventShard]).
  assert (MetadataShardID ∈ shs ∧ eventShard ∈ shs) as [Hm Hv] by (unfold shs; set_solver).
  unfold LeaveCluster in Hr. destruct raftMode; simpl in Hr; [|simplify_eq; by split].
  apply request_inv in Hr as [(e & E1 & ->)|(h1 & E1 & Hr)];
    destruct (remove_step _ _ _ shs _ _ Hv E1) as (O1 & S1 & A1);
    [split; [done|by intros r [= <-]]|].
  apply request_inv in Hr as [(e & E2 & ->)|(h2 & E2 & Hr)];
    destruct (remove_step _ _ _ shs _ _ Hm E2) as (O2 & S2 & A2);
    [split; [by etrans|by intros r [= <-]]|].
  injection Hr as <- <-. split; [by etrans|].
  intros r _ _ sh [->|[->|[]%elem_of_nil]%elem_of_cons]%elem_of_cons.
  - rewrite A2 by done. simpl. by rewrite !lookup_delete_eq.
  - rewrite S2, A1 by done. simpl. by rewrite !lookup_delete_eq.
Qed.
End cluster.

(** ** Runs *)
#[local] Unset Program Cases.
#[local] Obligation Tactic := idtac.

Definition set_members (sh : Z) (f : members → members) (h : gmap Z members) : gmap Z members :=
  <[sh := f (default (mkMembers ∅ ∅) (h !! sh))]> h.

Lemma set_members_changed sh f h :
  changed f sh (λ s, default (mkMembers ∅ ∅) (h !! s))
    (λ s, default (mkMembers ∅ ∅) (set_members sh f h !! s)) None.
Proof.
  unfold set_members. split.
  - intros s Hs. by rewrite lookup_insert_ne.
  - left. by rewrite lookup_insert_eq.
Qed.

(** A host whose requests always succeed. *)
Program Definition map_host : ClusterHost := {|
  h_t := gmap Z members;
  shard_members h sh := default (mkMembers ∅ ∅) (h !! sh);
  SyncRequestAddNonVoting h sh id a := (set_members sh (add_observer id a) h, None);
  SyncRequestAddReplica h sh id a := (set_members sh (add_voter id a) h, None);
  SyncRequestDeleteReplica h sh id := (set_members sh (remove_member id) h, None);
|}.
Next Obligation. intros. apply set_members_changed. Qed.
Next Obligation. intros. apply set_members_changed. Qed.
Next Obligation. intros. apply set_members_changed. Qed.

Abbreviation sample_join := (@JoinCluster map_host true 1 3 (of_str "n3:5000")
  [EvTick (Some ErrEOF); EvTick None] [EvTick None] (∅ : gmap Z members)).

Lemma join_cluster_sound_witness :
  voters (@shard_members map_host sample_join.1 1) !! 3 = Some (of_str "n3:5000").
Proof.
  refine (proj1 (proj1 (proj2 (@join_cluster_sound map_host true 1 3 (of_str "n3:5000")
    [EvTick (Some ErrEOF); EvTick None] [EvTick None] (∅ : gmap Z members) sample_join.1
    (Ok (mkResponse true None)) _ (pair_snd_eq sample_join _ _))) _ eq_refl eq_refl 1 _)).
  - done.
  - by vm_compute.
  - right. left.
Defined.
