(* ===== verification/EventShard.v ===== *)
(** * The replicated event log, abstractly

    What a log of the event shard means, without engines, batches and byte
    buffers: a command is decoded once, a store command numbers its items from
    a counter, a delete command removes keys, everything else does nothing.
    [Update_meets_spec] shows that the state machine of
    [src/internal/raft/event/statemachine.go] implements it; the facts about
    the log below then hold of every replica. *)
From stdpp Require Import prelude gmap strings.
From S2P Require Import Prelude Bytes Keys Storage Pebble Proto Repository Codec EventCommands.
From S2P Require Import EventStateMachine.
Local Open Scope Z_scope.

(** What [applyEntry] makes of the bytes of an entry: a command that cannot be
    decoded is logged and ignored; [CmdCrash] is a command whose decoding
    panics. *)
Inductive command :=
  | CmdStore (items : list StoreBatchItem)
  | CmdDelete (keys : list bytes)
  | CmdNone
  | CmdCrash.

#[export] Instance crash_dec c : Decision (c = CmdCrash).
Proof. destruct c; try (right; discriminate). by left. Defined.

Definition decode (cmd : bytes) : command :=
  match cmd with
  | [] => CmdNone
  | c :: _ =>
      if decide (byte_Z c = StoreBatchCmd) then
        match UnmarshalStoreBatchCmd cmd with
        | Ok items => CmdStore items
        | Err _ => CmdNone
        | _ => CmdCrash
        end
      else if decide (byte_Z c = DeleteBatchCmd) then
        match UnmarshalDeleteBatchCmd cmd with
        | Ok keys => CmdDelete keys
        | Err _ => CmdNone
        | _ => CmdCrash
        end
      else CmdNone
  end.

(** The abstract state of the shard: the id counter and the key-value pairs. *)
Record shard := mkShard {
  sh_id : Z;
  sh_events : gmap bytes bytes;
}.

Definition empty_shard : shard := mkShard 0 ∅.

Definition cmd_count (id : Z) (c : command) : Z :=
  match c with CmdStore items => u64 (id + len items) | _ => id end.

Definition cmd_writes (id : Z) (c : command) : Batch :=
  match c with
  | CmdStore items => items_ops id items
  | CmdDelete keys => OpDelete <$> keys
  | _ => []
  end.

Definition cmd_deletes (c : command) : list bytes :=
  match c with CmdDelete keys => keys | _ => [] end.

Definition shard_step (σ : shard) (cmd : bytes) : shard :=
  let c := decode cmd in
  mkShard (cmd_count (sh_id σ) c) (apply_ops (sh_events σ) (cmd_writes (sh_id σ) c)).

Definition shard_run (σ : shard) (log : list bytes) : shard := foldl shard_step σ log.

(** A store that represents an abstract state after [i] entries: the same pairs
    but for the applied index, which is the state machine's own. *)
Record represents (c : gmap bytes bytes) (i : Z) (σ : shard) : Prop := {
  rp_pairs : ∀ k, k ≠ appliedIndexKey → c !! k = sh_events σ !! k;
  rp_index : c !! appliedIndexKey = Some (be_bytes 8 i) ∨ (i = 0 ∧ c !! appliedIndexKey = None);
}.

(** The keys the log deletes from entry [i] on. *)
Definition log_deletes (log : list bytes) : list bytes := mjoin ((cmd_deletes ∘ decode) <$> log).

(** ** The state machine implements the log *)
Section machine.
Context `{DB}.
Context (Hadd : ∀ b op, batch_fault b op = None).

Lemma store_items_wrap er b items :
  is_u64 (lastID er) →
  store_items items (er, b) =
    ((mkEventRepository (u64 (lastID er + len items)) (bucketSize er),
      b ++ items_ops (lastID er) items), Ok ()).
Proof.
  unfold store_items. induction items as [|it items IH] in er, b |- *; intros Hu; simpl.
  { unfold len. simpl. rewrite Z.add_0_r, app_nil_r, u64_small by done. by destruct er. }
  rewrite len_cons.
  unfold StoreRawWithBatch, mbind, st_bind, put at 1 2, batch_Set, batch_add, mret, st_ret. simpl.
  rewrite !Hadd, put_all_total by done. rewrite IH; simpl; [|apply u64_range].
  assert (u64 (u64 (lastID er + 1) + len items) = u64 (lastID er + (1 + len items))) as ->.
  { unfold u64. rewrite Zplus_mod_idemp_l. f_equal. lia. }
  by rewrite <-!app_assoc.
Qed.

Lemma applyEntry_decode er b cmd :
  is_u64 (lastID er) →
  match decode cmd with
  | CmdCrash => (applyEntry cmd (er, b)).2 = Panic ∨ (applyEntry cmd (er, b)).2 = OutOfFuel
  | c => ∃ v, applyEntry cmd (er, b) =
      ((mkEventRepository (cmd_count (lastID er) c) (bucketSize er), b ++ cmd_writes (lastID er) c),
       Ok (v, cmd_deletes c))
  end.
Proof.
  intros Hu. unfold applyEntry, decode. destruct cmd as [|c cmd].
  { simpl. rewrite app_nil_r. destruct er. by eexists. }
  set (full := c :: cmd).
  repeat case_decide; unfold st_catch, mbind, st_bind, st_lift, mret, st_ret; simpl.
  - destruct (UnmarshalStoreBatchCmd full) as [items|e| |]; simpl; auto.
    + rewrite store_items_wrap by done. by eexists.
    + destruct er. rewrite app_nil_r. by eexists.
  - destruct (UnmarshalDeleteBatchCmd full) as [keys|e| |]; simpl; auto.
    + rewrite delete_keys_total by done. destruct er. by eexists.
    + destruct er. rewrite app_nil_r. by eexists.
  - destruct er. rewrite app_nil_r. by eexists.
Qed.

Lemma applyEntry_ok er b cmd :
  is_u64 (lastID er) → decode cmd ≠ CmdCrash →
  ∃ v, applyEntry cmd (er, b) =
    ((mkEventRepository (cmd_count (lastID er) (decode cmd)) (bucketSize er),
      b ++ cmd_writes (lastID er) (decode cmd)), Ok (v, cmd_deletes (decode cmd))).
Proof. intros Hu Hd. pose proof (applyEntry_decode er b cmd Hu). by destruct (decode cmd). Qed.

Lemma shard_step_u64 σ cmd : is_u64 (sh_id σ) → is_u64 (sh_id (shard_step σ cmd)).
Proof. intros Hu. unfold shard_step. simpl. destruct (decode cmd); simpl; auto using u64_range. Qed.

(** The entry loop of [Update]: it ends exactly when no command crashes. *)
Lemma apply_all_spec es er ap m :
  is_u64 (lastID er) →
  match st_mapM apply_one es ((er, []), ap) with
  | (((er', ops), ap'), Ok rs) =>
      shard_run (mkShard (lastID er) m) (Cmd <$> es) = mkShard (lastID er') (apply_ops m ops) ∧
      is_u64 (lastID er') ∧ bucketSize er' = bucketSize er ∧
      ap' = default ap (last (Index <$> es)) ∧ mjoin rs.*2 = log_deletes (Cmd <$> es) ∧
      Forall (λ e, decode (Cmd e) ≠ CmdCrash) es
  | (_, Err _) => False
  | _ => ¬ Forall (λ e, decode (Cmd e) ≠ CmdCrash) es
  end.
Proof.
  induction es as [|e es IH] in er, ap, m |- *; intros Hu; cbn [st_mapM].
  { simpl. split_and!; try done. }
  destruct (decide (decode (Cmd e) = CmdCrash)) as [Hd|Hd].
  { pose proof (applyEntry_decode er [] (Cmd e) Hu) as Ha. rewrite Hd in Ha.
    unfold mbind, st_bind, apply_one at 1. destruct (applyEntry _ _) as [rb r]. simpl in Ha.
    destruct rb as [er1 ops1], Ha as [-> | ->]; cbn; by intros [? _]%Forall_cons. }
  destruct (applyEntry_ok er [] (Cmd e) Hu Hd) as [v Ha].
  unfold mbind, st_bind, apply_one at 1. rewrite Ha, app_nil_l, (framed_apply_all Hadd).
  set (er1 := mkEventRepository _ _). set (ops1 := cmd_writes _ _).
  assert (is_u64 (lastID er1)) as Hu1 by (apply (shard_step_u64 (mkShard (lastID er) m)); done).
  specialize (IH er1 (Index e) (apply_ops m ops1) Hu1).
  destruct (st_mapM apply_one es _) as [[[er2 ops2] ap2] [rs|x| |]]; cbn; [|done|..].
  2,3: intros [_ ?]%Forall_cons; by apply IH.
  destruct IH as (Er & Hu2 & Hb & Hap & Hks & Hf). split_and!; [|done|done| | |by constructor].
  - etrans; [exact Er|]. by rewrite apply_ops_app.
  - rewrite Hap. simpl. rewrite last_cons. by destruct (last (Index <$> es)).
  - unfold log_deletes in *. cbn -[fmap]. by f_equal.
Qed.

Lemma represents_apply c i σ ops j v :
  represents c i σ →
  represents (apply_ops c (ops ++ [OpSet appliedIndexKey (be_bytes 8 j)])) j
    (mkShard v (apply_ops (sh_events σ) ops)).
Proof.
  intros [Hp _]. rewrite apply_ops_app. cbn [apply_ops foldl apply_op]. split; cbn [sh_events].
  - intros k Hk. rewrite lookup_insert_ne by done. by apply (apply_ops_agree _ _ _ appliedIndexKey).
  - left. by rewrite lookup_insert_eq.
Qed.

(** A successful [Update] moves the store along the log. *)
Lemma Update_represents s es s' rs ks i σ :
  represents (contents (db s)) i σ → lastID (repo s) = sh_id σ → is_u64 (sh_id σ) →
  Update s es = (s', Ok (rs, ks)) →
  represents (contents (db s')) (lastApplied s') (shard_run σ (Cmd <$> es)) ∧
  lastID (repo s') = sh_id (shard_run σ (Cmd <$> es)) ∧
  bucketSize (repo s') = bucketSize (repo s) ∧
  lastApplied s' = default (lastApplied s) (last (Index <$> es)) ∧
  ks = log_deletes (Cmd <$> es).
Proof.
  intros Hr Hid Hu (ops & rs' & Hm & -> & -> & Hc)%Update_ok_inv.
  pose proof (apply_all_spec es (repo s) (lastApplied s) (sh_events σ)) as Ha.
  rewrite Hm, Hid in Ha. destruct (Ha Hu) as (Er & _ & Hb & Hap & Hks & _).
  replace (mkShard (sh_id σ) (sh_events σ)) with σ in Er by (by destruct σ).
  rewrite Er. cbn [sh_id]. split_and!; try done. rewrite Hc. by apply (represents_apply _ i).
Qed.
End machine.

(** ** Facts about the log *)

(** The shard invariant: the id invariant of the repository, with the counter
    persisted at its current value. *)
Record shard_inv (σ : shard) : Prop := {
  si_repo : repo_inv (sh_events σ) (mkEventRepository (sh_id σ) 0);
  si_persisted : persisted (sh_events σ) = sh_id σ;
}.

Lemma empty_shard_inv : shard_inv empty_shard.
Proof. split; [|done]. split; simpl; try done. Qed.

(** [repo_inv] does not read the bucket size. *)
Lemma repo_inv_bucket m er bs : repo_inv m er → repo_inv m (mkEventRepository (lastID er) bs).
Proof. by intros [? ? ? ?]. Qed.

Lemma shard_inv_index σ k v :
  shard_inv σ → index_ok k → shard_inv (mkShard (sh_id σ) (<[k := v]> (sh_events σ))).
Proof.
  intros [Hr Hp] Hk. split; simpl; [by apply repo_inv_index|]. rewrite persisted_ne; [done|apply Hk].
Qed.

Lemma shard_inv_store σ b h ixs msg :
  shard_inv σ → sh_id σ + 1 < 2 ^ 64 → Forall index_ok ixs →
  shard_inv (mkShard (sh_id σ + 1) (apply_ops (sh_events σ) (store_ops (sh_id σ + 1) b h ixs msg))).
Proof.
  intros [Hr Hp] Hlt Hix. pose proof (ri_u64 _ _ Hr) as Hu. unfold is_u64 in Hu. simpl in Hu.
  assert (is_u64 (sh_id σ + 1)) as Hu' by (unfold is_u64; lia).
  set (m1 := <[eventsLastIDKey := be_bytes 8 (sh_id σ + 1)]> (sh_events σ)).
  assert (shard_inv (mkShard (sh_id σ + 1) m1)) as H1.
  { split; simpl; [|by apply persisted_insert_counter].
    apply (repo_inv_counter _ (mkEventRepository (sh_id σ + 1) 0)).
    eapply repo_inv_advance; [exact Hr|simpl; lia|done]. }
  set (m2 := <[EventKey b h (sh_id σ + 1) := msg]> m1).
  assert (shard_inv (mkShard (sh_id σ + 1) m2)) as H2.
  { destruct H1 as [Hr1 Hp1]. simpl in *. split; simpl.
    - apply repo_inv_event; [done..|]. simpl. lia.
    - unfold m2. rewrite persisted_ne; [done|]. apply key_ne_counter, length_EventKey. }
  change (apply_ops (sh_events σ) (store_ops (sh_id σ + 1) b h ixs msg)) with
    (apply_ops m2 ((λ idx, OpSet idx (EventKey b h (sh_id σ + 1))) <$> ixs)).
  clearbody m2. revert m2 H2. induction Hix as [|ix ixs Hi Hix IH]; intros m2 H2; [done|].
  simpl. apply IH. by apply (shard_inv_index (mkShard (sh_id σ + 1) m2)).
Qed.

(** The conditions under which ids do not run out and no index key clobbers the
    repository's own keys. *)
Definition log_total (log : list bytes) : Z := foldr (λ cmd n, cmd_items cmd + n) 0 log.

Definition log_ok (log : list bytes) : Prop := Forall cmd_ok log ∧ log_total log < 2 ^ 64.

Lemma log_total_nonneg log : 0 ≤ log_total log.
Proof. induction log as [|c l IH]; simpl; [lia|]. pose proof (cmd_items_nonneg c). lia. Qed.

Lemma log_total_app l k : log_total (l ++ k) = log_total l + log_total k.
Proof. induction l as [|c l IH]; simpl; lia. Qed.

Lemma log_ok_prefix l k : log_ok (l ++ k) → log_ok l.
Proof.
  intros [[Hf _]%Forall_app Ht]. rewrite log_total_app in Ht. pose proof (log_total_nonneg k).
  split; [done|lia].
Qed.

Lemma decode_encode_store items :
  Forall item_ok items → len items * sizeof_item ≤ maxAlloc →
  decode (encode_store items) = CmdStore items.
Proof.
  intros Hf Ha. unfold decode. destruct (encode_store items) as [|c l] eqn:E; [done|].
  rewrite <-E, Unmarshal_encode_store by done. injection E as <- _. by rewrite decide_True.
Qed.

Lemma decode_store_items cmd items : decode cmd = CmdStore items → UnmarshalStoreBatchCmd cmd = Ok items.
Proof.
  unfold decode. destruct cmd as [|c l]; [done|]. repeat case_decide; repeat case_split_eq; congruence.
Qed.

Lemma decode_delete_24 cmd keys :
  decode cmd = CmdDelete keys → Forall (λ k : bytes, length k = 24%nat) keys.
Proof.
  intros Hd. assert (Forall (λ k : bytes, len k = 24) keys) as Hf.
  { apply (UnmarshalDeleteBatchCmd_24 cmd). revert Hd. unfold decode.
    destruct cmd as [|c l]; [done|]. repeat case_decide; repeat case_split_eq; congruence. }
  eapply Forall_impl; [exact Hf|]. unfold len. simpl. intros k Hk. lia.
Qed.

Lemma store_items_shard items σ :
  shard_inv σ → sh_id σ + len items < 2 ^ 64 → Forall (λ it, Forall index_ok (Indexes it)) items →
  shard_inv (mkShard (sh_id σ + len items) (apply_ops (sh_events σ) (items_ops (sh_id σ) items))).
Proof.
  intros Hi Hlt Hf. revert σ Hi Hlt. induction Hf as [|it items Hix Hf IH]; intros σ Hi Hlt.
  { unfold len. simpl. rewrite Z.add_0_r. by destruct σ. }
  rewrite len_cons in *. pose proof (len_nonneg items).
  pose proof (ri_u64 _ _ (si_repo _ Hi)) as Hu. unfold is_u64 in Hu. simpl in Hu.
  cbn [items_ops]. rewrite u64_small by (unfold is_u64; lia). rewrite apply_ops_app, Z.add_assoc.
  apply (IH (mkShard (sh_id σ + 1) _)); [|simpl; lia]. apply shard_inv_store; [done|lia|done].
Qed.

Lemma persisted_delete m k : k ≠ eventsLastIDKey → persisted (delete k m) = persisted m.
Proof. intros Hk. unfold persisted. by rewrite lookup_delete_ne. Qed.

Lemma shard_inv_delete keys σ :
  Forall (λ k : bytes, length k = 24%nat) keys → shard_inv σ →
  shard_inv (mkShard (sh_id σ) (apply_ops (sh_events σ) (OpDelete <$> keys))).
Proof.
  intros Hf. revert σ. induction Hf as [|k keys Hk Hf IH]; intros σ Hi; [by destruct σ|].
  refine (IH (mkShard (sh_id σ) (delete k (sh_events σ))) _). destruct Hi as [Hr Hp]. pose proof (key_ne_counter k Hk).
  split; [by apply repo_inv_delete|]. etrans; [by apply persisted_delete|done].
Qed.

Lemma shard_step_inv σ cmd :
  shard_inv σ → cmd_ok cmd → sh_id σ + cmd_items cmd < 2 ^ 64 →
  shard_inv (shard_step σ cmd) ∧ sh_id σ ≤ sh_id (shard_step σ cmd) ≤ sh_id σ + cmd_items cmd.
Proof.
  intros Hi Hok Hlt. pose proof (cmd_items_nonneg cmd). unfold shard_step.
  pose proof (ri_u64 _ _ (si_repo _ Hi)) as Hu. unfold is_u64 in Hu. simpl in Hu.
  destruct (decode cmd) as [items|keys| |] eqn:Hd; simpl; try (split; [by destruct σ|lia]).
  - apply decode_store_items in Hd. unfold cmd_items, cmd_ok in *. rewrite Hd in *.
    rewrite u64_small by (unfold is_u64; lia). split; [by apply store_items_shard|lia].
  - apply decode_delete_24 in Hd. split; [by apply shard_inv_delete|lia].
Qed.

(** An id that has been given out is settled: its record keeps its value until
    a delete command names its key, and never comes back. *)
Lemma shard_step_settled σ cmd k :
  shard_inv σ → cmd_ok cmd → sh_id σ + cmd_items cmd < 2 ^ 64 →
  length k = 24%nat → key_id k ≤ sh_id σ →
  sh_events (shard_step σ cmd) !! k =
    if decide (k ∈ cmd_deletes (decode cmd)) then None else sh_events σ !! k.
Proof.
  intros Hi Hok Hlt Hk Hid. pose proof (ri_u64 _ _ (si_repo _ Hi)) as Hu. unfold is_u64 in Hu. simpl in Hu.
  unfold shard_step. simpl. destruct (decode cmd) as [items|keys| |] eqn:Hd; simpl; try done.
  - apply decode_store_items in Hd.
    unfold cmd_items, cmd_ok in *. rewrite Hd in *.
    apply (items_ops_lookup (sh_events σ) (sh_id σ) items); [lia|lia|done..].
  - rewrite apply_ops_deletes. case_decide as Hin.
    + apply map_lookup_filter_None. right. intros v _. simpl. tauto.
    + destruct (sh_events σ !! k) as [v|] eqn:E; [by apply map_lookup_filter_Some|].
      apply map_lookup_filter_None. by left.
Qed.

Lemma shard_run_inv σ log :
  shard_inv σ → Forall cmd_ok log → sh_id σ + log_total log < 2 ^ 64 →
  shard_inv (shard_run σ log) ∧ sh_id σ ≤ sh_id (shard_run σ log) ≤ sh_id σ + log_total log.
Proof.
  revert σ. induction log as [|cmd log IH]; intros σ Hi Hf Hlt; simpl in *; [split; [done|lia]|].
  apply Forall_cons in Hf as [Hok Hf]. pose proof (log_total_nonneg log).
  destruct (shard_step_inv σ cmd) as [Hi1 Hle]; [done..|lia|].
  destruct (IH (shard_step σ cmd)) as [Hi2 Hle2]; [done..|lia|]. split; [done|lia].
Qed.

Lemma shard_run_settled σ log k :
  shard_inv σ → Forall cmd_ok log → sh_id σ + log_total log < 2 ^ 64 →
  length k = 24%nat → key_id k ≤ sh_id σ →
  sh_events (shard_run σ log) !! k =
    if decide (k ∈ log_deletes log) then None else sh_events σ !! k.
Proof.
  revert σ. induction log as [|cmd log IH]; intros σ Hi Hf Hlt Hk Hid; simpl in *.
  { done. }
  apply Forall_cons in Hf as [Hok Hf]. pose proof (log_total_nonneg log).
  destruct (shard_step_inv σ cmd) as [Hi1 Hle]; [done..|lia|].
  rewrite IH by (done || lia). rewrite shard_step_settled by (done || lia).
  unfold log_deletes. rewrite fmap_cons, mjoin_cons. simpl.
  pose proof (elem_of_app (cmd_deletes (decode cmd)) (log_deletes log) k) as He.
  unfold log_deletes in *. repeat case_decide; tauto || done.
Qed.

(** The pairs of the shard fit the frames of a snapshot: whatever decodes has
    16-bit index lengths and 32-bit message lengths. *)
Definition pairs_fit (m : gmap bytes bytes) : Prop := map_Forall (λ k v, pair_fits (k, v)) m.

Lemma apply_ops_fit m ops :
  pairs_fit m → Forall (λ op, match op with OpSet k v => pair_fits (k, v) | OpDelete _ => True end) ops →
  pairs_fit (apply_ops m ops).
Proof.
  intros Hm Hf. revert m Hm. induction Hf as [|[k v|k] ops Ho Hf IH]; intros m Hm; [done|..]; simpl; apply IH.
  - by apply map_Forall_insert_2.
  - by apply map_Forall_delete.
Qed.

Lemma items_ops_fit id items :
  Forall item_ok items →
  Forall (λ op, match op with OpSet k v => pair_fits (k, v) | OpDelete _ => True end) (items_ops id items).
Proof.
  intros Hf. revert id. induction Hf as [|it items (_ & _ & _ & Hix & Hm) Hf IH]; intros id; [done|].
  cbn [items_ops]. apply Forall_app. split; [|apply IH]. unfold store_ops.
  assert (∀ b h n, len (EventKey b h n) = 24) as Hk by (intros; unfold len; by rewrite length_EventKey).
  repeat apply Forall_cons_2; [..|apply Forall_fmap; eapply Forall_impl; [exact Hix|]];
    unfold pair_fits; cbn [fst snd]; rewrite ?Hk, ?len_be_bytes; try done.
  intros k Hlt. unfold compose, pair_fits. cbn [fst snd]. rewrite Hk. lia.
Qed.

Lemma shard_run_fit σ log : pairs_fit (sh_events σ) → pairs_fit (sh_events (shard_run σ log)).
Proof.
  revert σ. induction log as [|cmd log IH]; intros σ Hp; [done|]. simpl. apply IH.
  unfold shard_step. simpl. apply apply_ops_fit; [done|].
  destruct (decode cmd) as [items|keys| |] eqn:Hd; simpl; [|by apply Forall_fmap, Forall_true|done..].
  apply items_ops_fit. eapply UnmarshalStoreBatchCmd_item_ok. by apply decode_store_items.
Qed.

Lemma shard_run_app σ l k : shard_run σ (l ++ k) = shard_run (shard_run σ l) k.
Proof. apply foldl_app. Qed.

(** ** Properties *)

(** C10. The state machine refines the abstract log.  On an engine that works, a
    store that represents an abstract state is taken by [Update], for every
    list of entries whose commands do not crash the decoder, to a store that
    represents the abstract state after those commands: same pairs, same
    counter, the index of the last entry as the applied index; and the keys
    handed to the in-flight callback are exactly those the log deletes. *)
Theorem Update_meets_spec `{DB} s es σ :
  healthy → represents (contents (db s)) (lastApplied s) σ →
  lastID (repo s) = sh_id σ → is_u64 (sh_id σ) →
  Forall (λ e, decode (Cmd e) ≠ CmdCrash) es →
  ∃ s' rs, Update s es = (s', Ok (rs, log_deletes (Cmd <$> es))) ∧
    represents (contents (db s')) (lastApplied s') (shard_run σ (Cmd <$> es)) ∧
    lastID (repo s') = sh_id (shard_run σ (Cmd <$> es)) ∧
    lastApplied s' = default (lastApplied s) (last (Index <$> es)).
Proof.
  intros Hh Hr Hid Hu Hf. pose proof (h_batch Hh) as Hadd.
  assert (∃ s' rs ks, Update s es = (s', Ok (rs, ks))) as (s' & rs & ks & Hup).
  { unfold Update. pose proof (apply_all_spec Hadd es (repo s) (lastApplied s) (sh_events σ)) as Ha.
    rewrite Hid in Ha. specialize (Ha Hu).
    destruct (st_mapM _ _ _) as [[[er ops] ap] [rs|x| |]]; try tauto.
    unfold batch_Set, batch_add. rewrite Hadd. pose proof (h_commit Hh (db s)) as Hc.
    specialize (Hc (ops ++ [OpSet appliedIndexKey (be_bytes 8 ap)]) NoSync).
    destruct (Commit _ _ _) as [d' e]. simpl in Hc. subst e. eauto. }
  destruct (Update_represents Hadd _ _ _ _ _ _ _ Hr Hid Hu Hup) as (H1 & H2 & _ & H3 & ->).
  exists s', rs. done.
Qed.

(** ** Runs *)
Definition sample_log : list Entry :=
  [mkEntry 1 (encode_store [item_a; item_b]); mkEntry 2 (of_str "junk");
   mkEntry 3 (encode_delete [EventKey 5 7 1])].

Lemma Update_meets_spec_witness :
  ∃ s' rs, @Update MapDB fresh_replica sample_log = (s', Ok (rs, [EventKey 5 7 1])) ∧
    lastApplied s' = 3 ∧ lastID (repo s') = 2.
Proof.
  destruct (@Update_meets_spec MapDB fresh_replica sample_log empty_shard MapDB_healthy)
    as (s' & rs & Hup & _ & Hid & Hap).
  - split; [done|]. by right.
  - done.
  - done.
  - repeat constructor; by vm_compute.
  - assert (log_deletes (Cmd <$> sample_log) = [EventKey 5 7 1]) as E by (vm_compute; reflexivity).
    assert (sh_id (shard_run empty_shard (Cmd <$> sample_log)) = 2) as E2 by (vm_compute; reflexivity).
    rewrite E in Hup. rewrite E2 in Hid. exists s', rs. split; [exact Hup|]. split; [exact Hap|exact Hid].
Defined.
