(* ===== verification/RaftPath.v ===== *)
(** * The Raft write path, end to end

    [processRaftBatch] of [src/internal/api/grpc/handlers/producer.go] through
    the command encoding and [SyncPropose] to the state machine of the node
    ([src/internal/raft/event]): what an acknowledged batch has left in the
    store when other nodes and other streams propose at the same time, and how
    the path compares with the standalone one when they do not. *)
From stdpp Require Import prelude gmap strings.
From S2P Require Import Prelude Bytes Keys Storage Pebble Proto Repository Codec.
From S2P Require Import EventCommands EventStateMachine Deleter Producer EventShard.
Local Open Scope Z_scope.

Section raft_path.
Context {DBi : DB} `{XXHash} `{Protobuf} {PR : @Proposer DBi} {RN : RaftNode PR}.

(** The items of the batch fit the command encoding and the memory. *)
Definition batch_fits (cfg : producer_config) (batch : PublishBatch) (nowMs : Z) : Prop :=
  ∀ items, build_items cfg batch nowMs = Ok items →
    Forall item_ok items ∧ len items * sizeof_item ≤ maxAlloc.

(** ** The machine while entries are applied *)
Record follows (s : EventStateMachine) (σ : shard) : Prop := {
  fo_store : ∃ i, represents (contents (db s)) i σ;
  fo_count : lastID (repo s) = sh_id σ;
}.

Lemma shard_run_u64 σ log : is_u64 (sh_id σ) → is_u64 (sh_id (shard_run σ log)).
Proof. revert σ. induction log as [|cmd log IH]; intros σ Hu; [done|]. simpl. by apply IH, shard_step_u64. Qed.

Lemma advances_follows s es s' σ :
  (∀ b op, batch_fault b op = None) → advances s es s' → follows s σ → is_u64 (sh_id σ) →
  follows s' (shard_run σ (Cmd <$> es)).
Proof.
  intros Hadd Ha. revert σ. induction Ha as [|s es s1 [rs ks] es' s2 Hup Ha IH]; intros σ Hf Hu; [done|].
  destruct Hf as [[i Hr] Hc].
  destruct (Update_represents Hadd _ _ _ _ _ _ _ Hr Hc Hu Hup) as (Hr1 & Hc1 & _).
  rewrite fmap_app, shard_run_app. apply IH; [by split; [eexists|]|by apply shard_run_u64].
Qed.

(** The command of a batch that was built. *)
Lemma raft_batch_inv cfg batch nowMs ackLevel p p' o :
  processRaftBatch cfg batch nowMs ackLevel p = (p', o) → isClusterLeader cfg p = true →
  ackLevel ≠ ACK_LEVEL_NO_ACK →
  (∃ items e, build_items cfg batch nowMs = Ok items ∧ propose p (encode_store items) = (p', e) ∧
     o = match e with Some e => Err (ErrorWrap "failed to do raft proposal" e) | None => Ok () end) ∨
  ((∀ items, build_items cfg batch nowMs ≠ Ok items) ∧ (∀ u, o ≠ Ok u) ∧ p' = p).
Proof.
  intros Hr Hl Hack. unfold processRaftBatch in Hr. rewrite Hl in Hr. simpl in Hr.
  destruct (build_items cfg batch nowMs) as [items|e| |]; [|right; by simplify_eq..]. left.
  rewrite MarshalStoreBatchCmd_eq in Hr. exists items.
  destruct ackLevel; [| |done]; destruct (propose p (encode_store items)) as [p1 [e|]]; simplify_eq; eauto.
Qed.

(** C25. Acknowledged means applied.  When the Raft path answers a batch whose ack
    level is not NO_ACK, the node was the leader, and its state machine has
    applied the batch as one entry of the log, with entries of other proposers
    before and after it: every message is stored, under consecutive ids that
    follow the ids of the log before the entry, in the bucket of the time it is
    due and with everything that was published, unless an entry applied after
    it deletes its key.  The machine follows the log, the batches of the engine
    accept operations, the items of the batch fit the command encoding, the
    commands of the other proposers carry no index that is an event key or a key
    of the repository, and the ids do not run out. *)
Theorem raft_ack_stored cfg batch nowMs ackLevel p p' σ :
  (∀ b op, batch_fault b op = None) → follows (machine p) σ → shard_inv σ →
  batch_ok batch nowMs → batch_fits cfg batch nowMs → ackLevel ≠ ACK_LEVEL_NO_ACK →
  processRaftBatch cfg batch nowMs ackLevel p = (p', Ok ()) →
  isClusterLeader cfg p = true ∧
  ∃ before e after, advances (machine p) (before ++ e :: after) (machine p') ∧
    (Forall cmd_ok (Cmd <$> before) → Forall cmd_ok (Cmd <$> after) →
     sh_id σ + log_total (Cmd <$> before) + len (Messages batch) + log_total (Cmd <$> after) < 2 ^ 64 →
     let last := sh_id (shard_run σ (Cmd <$> before)) in
     ∀ n m, Messages batch !! n = Some m →
       ∃ b, CalculateBucket (due_ms nowMs m) (TimeBucketSize cfg) = Ok b ∧
         let id := last + 1 + Z.of_nat n in
         (EventKey b (TopicHash (pm_Topic m)) id ∉ log_deletes (Cmd <$> after) →
          stored_at (contents (db (machine p'))) (TimeBucketSize cfg) nowMs m id)).
Proof.
  intros Hadd Hfo Hinv [Hix Hwf]%Forall_and Hfits Hack Hr.
  assert (isClusterLeader cfg p = true) as Hl
    by (unfold processRaftBatch in Hr; by destruct (isClusterLeader cfg p)).
  split; [done|]. apply raft_batch_inv in Hr as [(items & e & Hb & Hp & Ho)|(_ & Ho & _)]; [|by destruct (Ho ())|done..].
  destruct e; [done|]. destruct (Hfits _ Hb) as [Hio Ha]. apply build_items_inv in Hb.
  apply propose_ok in Hp as (before & i & after & Hadv). exists before, (mkEntry i (encode_store items)), after.
  split; [done|]. intros Hcb Hca Hlt last n m Hm.
  assert (len items = len (Messages batch)) as Hlen by (unfold len; by rewrite (Forall2_length _ _ _ Hb)).
  pose proof (log_total_nonneg (Cmd <$> after)). pose proof (len_nonneg (Messages batch)).
  destruct (shard_run_inv σ (Cmd <$> before) Hinv Hcb) as [Hinv1 Hle1]; [lia|]. fold last in Hle1.
  set (σ1 := shard_run σ (Cmd <$> before)) in *.
  assert (shard_step σ1 (encode_store items) =
    mkShard (last + len items) (apply_ops (sh_events σ1) (items_ops last items))) as Es.
  { unfold shard_step. rewrite decode_encode_store by done. simpl. fold last.
    rewrite u64_small; [done|]. pose proof (ri_u64 _ _ (si_repo _ Hinv1)) as Hu. unfold is_u64 in *. simpl in Hu.
    fold last in Hu. lia. }
  destruct (items_stored (sh_events σ1) (TimeBucketSize cfg) nowMs (mkEventRepository last 0) (Messages batch) items)
    as [Hst _]; [apply Hinv1|simpl; lia|done..|].
  destruct (Hst n m Hm) as (b & v & sm & Hbk & Hv & Hu & Hc). simpl in Hv.
  exists b. split; [done|]. intros id Hnd.
  assert (follows (machine p') (shard_run (shard_step σ1 (encode_store items)) (Cmd <$> after))) as [[j Hrep] _].
  { pose proof (advances_follows _ _ _ σ Hadd Hadv Hfo (ri_u64 _ _ (si_repo _ Hinv))) as Hf.
    by rewrite fmap_app, fmap_cons, shard_run_app in Hf. }
  assert (shard_inv (shard_step σ1 (encode_store items))) as Hinv2.
  { rewrite Es. unfold last. eapply (store_items_shard items σ1); [done|fold last; lia|]. by eapply stored_index_ok. }
  exists b, v, sm. split_and!; [done| |done..].
  assert (0 ≤ Z.of_nat n < len (Messages batch)) as Hn by (apply lookup_lt_Some in Hm; unfold len; lia).
  rewrite (rp_pairs _ _ _ Hrep).
  - rewrite shard_run_settled; [| |done| |apply length_EventKey|].
    + rewrite decide_False by done. by rewrite Es.
    + done.
    + rewrite Es. simpl. lia.
    + rewrite Es. simpl. pose proof (ri_u64 _ _ (si_repo _ Hinv1)) as Hul. unfold is_u64 in Hul. simpl in Hul.
      fold last in Hul. unfold id. rewrite key_id_EventKey by (unfold is_u64; lia). lia.
  - intros E. pose proof (length_EventKey b (TopicHash (pm_Topic m)) id) as Hl24. rewrite E in Hl24. done.
Qed.

(** ** The two write paths *)

(** On an engine whose batches accept operations the standalone path stores what
    the Raft path can build. *)
Lemma StoreWithBatch_total er b nowMs m it :
  (∀ b op, batch_fault b op = None) → stored_item (bucketSize er) nowMs m it →
  ∃ s' key, StoreWithBatch (to_stored nowMs m) (er, b) = (s', Ok key) ∧ bucketSize s'.1 = bucketSize er.
Proof.
  intros Hadd (Hb & _ & Hd & Hix). unfold StoreWithBatch, mbind, st_bind, next_id. simpl. rewrite Hb. simpl.
  unfold put at 1, batch_Set, batch_add. rewrite Hadd. simpl. rewrite Hd. simpl.
  unfold put at 1, batch_Set, batch_add. rewrite Hadd.
  set (key := EventKey _ _ _). match goal with |- context [st_iter ?g _ _] => set (f := g) end.
  assert (∀ l ks er1 b1, Forall2 (λ idx k, MarshalIndex idx = Ok k) l ks →
    ∃ b2, st_iter f l (er1, b1) = ((er1, b2), Ok ())) as Hall.
  { intros l ks er1 b1 Hf. revert b1. induction Hf as [|i k l ks Hk Hf IH]; intros b1; [by eexists|].
    assert (f i (er1, b1) = ((er1, b1 ++ [OpSet k key]), Ok ())) as Ef
      by (unfold f; rewrite Hk; simpl; by rewrite Hadd).
    simpl. unfold mbind, st_bind. rewrite Ef. apply IH. }
  edestruct (Hall (pm_Indexes m) (Indexes it)) as [b2 E]; [done|]. rewrite E. by eexists _, _.
Qed.

Lemma standalone_total nowMs msgs items i er b :
  (∀ b op, batch_fault b op = None) → Forall accepted msgs →
  Forall2 (stored_item (bucketSize er) nowMs) msgs items →
  ∃ s', marshalMessages msgs i nowMs (λ data, StoreWithBatch data;; mret ()) (er, b) = (s', Ok ()).
Proof.
  intros Hadd Hacc Hf. revert i er b Hf. revert items.
  induction Hacc as [|m msgs Ha Hacc IH]; intros items i er b Hf; [by eexists|].
  inversion Hf as [|? it ? items' Hi Hf']; subst. rewrite marshalMessages_cons by done.
  destruct (StoreWithBatch_total er b nowMs m it Hadd Hi) as ([er1 b1] & key & E & Eb). simpl in Eb.
  unfold mbind, st_bind. rewrite E. apply (IH items'). by rewrite Eb.
Qed.

(** C26. The two write paths agree.  A batch is given to the standalone path, and to
    the Raft path of a leader whose state machine is over the same store and
    counter and has the proposals to itself.  When the standalone path stores
    the batch, the Raft path reports success and leaves the same contents (but
    for the applied index, which only the state machine keeps) and the same
    counter, or fails in the proposal, whose command has then had this effect or
    none; when the standalone path refuses the batch, so does the Raft path, and
    proposes nothing.  The engine works, and the items fit the command
    encoding. *)
Theorem raft_path_equivalent cfg batch nowMs ackLevel p p' o er' d' r :
  healthy → undisturbed → is_u64 (lastID (repo (machine p))) →
  lastID (repo (machine p)) + len (Messages batch) < 2 ^ 64 →
  bucketSize (repo (machine p)) = TimeBucketSize cfg →
  batch_fits cfg batch nowMs → ackLevel ≠ ACK_LEVEL_NO_ACK → isClusterLeader cfg p = true →
  processStandaloneBatch batch nowMs (repo (machine p), db (machine p)) = ((er', d'), r) →
  processRaftBatch cfg batch nowMs ackLevel p = (p', o) →
  let applied := repo (machine p') = er' ∧
    ∀ k, k ≠ appliedIndexKey → contents (db (machine p')) !! k = contents d' !! k in
  match r with
  | Ok _ =>
      (o = Ok () ∧ applied) ∨
      ((∃ e, o = Err (ErrorWrap "failed to do raft proposal" e)) ∧ (machine p' = machine p ∨ applied))
  | _ => (∀ u, o ≠ Ok u) ∧ p' = p
  end.
Proof.
  intros Hh Hun Hu Hlt Hbs Hfits Hack Hl Hs Hr applied.
  apply raft_batch_inv in Hr as Hc; [|done..].
  destruct Hc as [(items & e & Hb & Hp & Ho)|(Hb & Ho & ->)].
  - pose proof (build_items_accepted _ _ _ _ Hb) as Hacc.
    destruct (Hfits _ Hb) as [Hio Ha]. apply build_items_inv in Hb as Hf. rewrite <-Hbs in Hf.
    assert (r = Ok ()) as ->.
    { unfold processStandaloneBatch in Hs.
      destruct (standalone_total nowMs (Messages batch) items 0 (repo (machine p)) [] (h_batch Hh) Hacc Hf)
        as ([er1 b1] & Em). rewrite Em in Hs.
      destruct (healthy_commit (db (machine p)) b1 Sync Hh) as (d1 & Ec & _). rewrite Ec in Hs. by simplify_eq. }
    assert (∀ i x, Update (machine p) [mkEntry i (encode_store items)] = (machine p', Ok x) → applied) as Happ.
    { intros i x HU. apply standalone_ok in Hs as (items' & _ & Hf' & Er & Hc); [|done..].
      assert (items' = items) as ->.
      { rewrite Hbs in Hf'. apply (build_items_eq cfg) in Hf'; [|done]. congruence. }
      assert (len items = len (Messages batch)) as Hlen by (unfold len; by rewrite (Forall2_length _ _ _ Hf)).
      pose proof (applyEntry_store (repo (machine p)) [] items (h_batch Hh) Hu ltac:(lia)
                    (Unmarshal_encode_store items Hio Ha)) as He.
      destruct (Update_one (machine p) (mkEntry i (encode_store items)) _ _ _ _ Hh He) as (d1 & HU' & Hd).
      rewrite HU in HU'. injection HU' as Em _. unfold applied. rewrite Em. simpl in *. split; [done|].
      intros k Hk. by rewrite Hd, lookup_insert_ne, Hc by done. }
    apply Hun in Hp as [[He Em]|(i & x & HU)].
    + right. destruct e as [e|]; [|done]. split; [by exists e|by left].
    + destruct e as [e|]; [right; split; [by exists e|right]|left; split; [done|]]; by eapply Happ.
  - destruct r as [[]|e| |]; [|done..]. exfalso.
    apply standalone_ok in Hs as (items & Hacc & Hf & _); [|done..].
    rewrite Hbs in Hf. by apply (Hb items), build_items_eq.
Qed.
End raft_path.

(** ** Runs *)
Import Toy.

Abbreviation sample_raft_batch := (@processRaftBatch MapDB zero_hash toy_index toy_protobuf
  local_raft leader_node sample_producer_cfg sample_batch 100 ACK_LEVEL_LEADER fresh_replica).

Lemma sample_batch_fits : @batch_fits zero_hash toy_index toy_protobuf sample_producer_cfg sample_batch 100.
Proof.
  intros items Hb.
  assert (items = default [] (match @build_items zero_hash toy_index toy_protobuf
            sample_producer_cfg sample_batch 100 with Ok l => Some l | _ => None end)) as ->
    by (by rewrite Hb).
  split; [apply (bool_decide_unpack _)|]; by vm_compute.
Qed.

Lemma fresh_follows : @follows MapDB fresh_replica empty_shard.
Proof. split; [|done]. exists 0. split; [done|by right]. Qed.

Lemma raft_ack_stored_witness :
  ∃ before e after,
    advances fresh_replica (before ++ e :: after) (@machine MapDB local_raft sample_raft_batch.1) ∧
    @isClusterLeader MapDB local_raft leader_node sample_producer_cfg fresh_replica = true.
Proof.
  destruct (@raft_ack_stored MapDB zero_hash toy_index toy_protobuf local_raft leader_node
    sample_producer_cfg sample_batch 100 ACK_LEVEL_LEADER fresh_replica _ empty_shard (λ _ _, eq_refl)
    fresh_follows empty_shard_inv sample_batch_ok sample_batch_fits ltac:(done)
    (pair_snd_eq sample_raft_batch (Ok ()) eq_refl)) as (Hl & before & e & after & Ha & _).
  exists before, e, after. split; [exact Ha|exact Hl].
Defined.

Lemma raft_path_equivalent_witness :
  let s := (@processStandaloneBatch MapDB zero_hash toy_index toy_protobuf sample_batch 100
              (repo fresh_replica, db fresh_replica)).1 in
  repo (@machine MapDB local_raft sample_raft_batch.1) = s.1 ∧
  ∀ k, k ≠ appliedIndexKey →
    @contents MapDB (db (@machine MapDB local_raft sample_raft_batch.1)) !! k = @contents MapDB s.2 !! k.
Proof.
  intros s.
  destruct (@raft_path_equivalent MapDB zero_hash toy_index toy_protobuf local_raft leader_node
    sample_producer_cfg sample_batch 100 ACK_LEVEL_LEADER fresh_replica sample_raft_batch.1 (Ok ()) s.1 s.2 (Ok ())
    MapDB_healthy local_raft_undisturbed ltac:(by vm_compute) ltac:(by vm_compute) eq_refl sample_batch_fits
    ltac:(done) eq_refl) as [[_ Happ]|[[e He] _]]; [reflexivity|reflexivity|exact Happ|done].
Defined.
