(* ===== verification/ClusterBroker.v ===== *)
(** * The clustered broker

    The nodes of a cluster around one replicated log, as
    [src/cmd/futureq/start.go] and [src/internal/app/app.go] wire them in Raft
    mode: every node has its replica of the event shard, its hub, dispatcher,
    janitor and deleter; publications and deletions reach the stores only
    through the log.  Raft is the log itself: a proposal that is committed is
    appended, and every replica applies the entries in order, in portions of
    any size.  A crash may take a store back to an earlier committed state,
    because the state machine commits without a sync; the process then starts
    again over what is left.  A node that lags behind may get a snapshot of
    another node instead of the entries it has missed.  The steps of the nodes
    come in any order, so a change of leader at any point is covered. *)
From stdpp Require Import prelude gmap strings sorting.
From S2P Require Import Prelude Bytes Keys Storage Pebble Proto Repository Codec.
From S2P Require Import EventCommands EventStateMachine EventShard Hub Deleter Dispatcher Janitor.
From S2P Require Import Producer.
Local Open Scope Z_scope.

#[local] Obligation Tactic := idtac.
#[local] Unset Program Cases.

(** In Raft mode the deleter owns no store: its queue is all that matters here,
    and the proposal that empties it is a step of the cluster. *)
#[program] Definition queue_backend : DeleteBackend := {|
  be_t := ();
  be_contents _ := ∅;
  DeleteKeys u _ := (u, None);
  be_private _ := False;
|}.
Next Obligation. intros be keys be' _ _ k _. by rewrite lookup_without, lookup_empty; case_decide. Qed.
Next Obligation. intros be keys be' e _ [=]. Qed.

Section cluster.
Context {DBi : DB} `{XXHash} `{Protobuf} `{DispatchStrategy} `{MapRange} `{Clock}.
Context (pcfg : producer_config) (dcfg : dispatch_config) (strat0 : strat_t).

#[local] Existing Instance queue_backend.

(** [n_past] are the store states a crash may fall back to. *)
Record node := mkNode {
  n_sm : EventStateMachine;
  n_past : list db_t;
  n_disp : Dispatcher;
}.

Record cluster := mkCluster {
  c_log : list bytes;
  c_nodes : gmap Z node;
}.

Definition n_queue (nd : node) : list bytes := pending (d_deleter (n_disp nd)).

Definition on_disp (f : Dispatcher → Dispatcher) (nd : node) : node :=
  mkNode (n_sm nd) (n_past nd) (f (n_disp nd)).

(** The process starts over a store: [WithRepositories] loads the counter, the
    factory passed to [StartOnDiskReplica] builds the state machine around it,
    and [Open] finds the applied index. *)
Definition boot (d : db_t) (bsize : Z) : outcome EventStateMachine :=
  er ← NewEventRepository d bsize;
  match Open (mkESM d er 0) with
  | (s, Ok _) => Ok s
  | (_, Err e) => Err e
  | (_, Panic) => Panic
  | (_, OutOfFuel) => OutOfFuel
  end.

(** A new process: hub, dispatcher and deleter are empty. *)
Definition fresh_disp : Dispatcher := NewDispatcher (NewHub strat0) (NewDeleter ()).

(** The command [processRaftBatch] proposes for a batch. *)
Definition store_command (batch : PublishBatch) (nowMs : Z) : outcome bytes :=
  items ← build_items pcfg batch nowMs; MarshalStoreBatchCmd items.

(** [k] entries of the log after the first [i]. *)
Definition entries_from (log : list bytes) (i k : nat) : list Entry :=
  imap (λ j cmd, mkEntry (Z.of_nat i + 1 + Z.of_nat j) cmd) (take k (drop i log)).

Inductive cluster_event :=
  | CPublish (n : Z) (nh : leader_info) (batch : PublishBatch) (nowMs : Z)
  | CApply (n : Z) (k : nat)
  | CDispatch (n : Z) (nh : leader_info) (topic : string) (nowMs : Z)
  | CSweep (n : Z) (nowMs : Z)
  | CAck (n : Z) (consumerID : string) (tag : bytes) (success : bool)
  | CFlush (n : Z) (answered : bool)
  | CConnect (n : Z) (consumerID topic groupID : string) (ch : nat)
  | CSend (n : Z) (ch : nat)
  | CDisconnect (n : Z) (consumerID : string)
  | CSync (n : Z)
  | CRestart (n : Z) (back : nat)
  | CStart (n : Z) (d : db_t)
  | CInstall (n src : Z) (stopc : stop_t).

Definition node_cfg (n : Z) : dispatch_config :=
  mkDispatchConfig (inFlightTimeout dcfg) (cfg_bucketSize dcfg) n.

Definition at_node (n : Z) (f : node → option node) (c : cluster) : option cluster :=
  nd ← c_nodes c !! n; nd' ← f nd; Some (mkCluster (c_log c) (<[n := nd']> (c_nodes c))).

Definition append (cmd : bytes) (c : cluster) : cluster := mkCluster (c_log c ++ [cmd]) (c_nodes c).

(** Applying a portion of the log, with the OnDeleteKeys callback.  An [Update]
    that fails stops the process: the next step of that node is a restart. *)
Definition apply_step (log : list bytes) (k : nat) (nd : node) : option node :=
  let es := entries_from log (Z.to_nat (lastApplied (n_sm nd))) k in
  if decide (es = []) then None
  else match Update (n_sm nd) es with
       | (s', Ok (_, keys)) =>
           Some (mkNode s' (db (n_sm nd) :: n_past nd) (RemoveInFlightBatch keys (n_disp nd)))
       | _ => None
       end.

(** A snapshot of the node [src] installed at a node that lags behind it, with
    the two halves of the state machine: [SaveSnapshot] there and
    [RecoverFromSnapshot] here, which replaces the store and the applied index
    but not the id counter of the live repository.  A recovery that fails or is
    stopped ends the process; it starts again over what the recovery left. *)
Definition install_step (src : node) (stopc : stop_t) (nd : node) : option node :=
  if decide (lastApplied (n_sm nd) < lastApplied (n_sm src)) then
    match SaveSnapshot (n_sm src) ([] : @w_t buffer_writer) None with
    | ((w, _), None) =>
        match RecoverFromSnapshot (n_sm nd) (mkReader (written w) ErrEOF) stopc with
        | (s', Ok _) => Some (mkNode s' [] (n_disp nd))
        | (s', _) =>
            match boot (db s') (bucketSize (repo s')) with
            | Ok s => Some (mkNode s (db (n_sm nd) :: n_past nd) fresh_disp)
            | _ => None
            end
        end
    | _ => None
    end
  else None.

(** The flush of a deleter whose proposal reached the log: when the answer came
    back the queue is empty and OnDelete has run, otherwise the keys are queued
    again.  (A slice of keys that exists fits the address space.) *)
Definition flush_queue (answered : bool) (nd : node) : node :=
  if answered : bool
  then on_disp (λ d, RemoveInFlightBatch (pending (d_deleter d)) (on_deleter (λ dl, mkDeleter (backend dl) []) d)) nd
  else nd.

Definition cluster_step (c : cluster) (ev : cluster_event) : option cluster :=
  match ev with
  | CPublish n nh batch nowMs =>
      if isLeader (node_cfg n) nh then
        match store_command batch nowMs with Ok cmd => Some (append cmd c) | _ => None end
      else None
  | CApply n k => at_node n (apply_step (c_log c) k) c
  | CDispatch n nh topic nowMs =>
      if isLeader (node_cfg n) nh then
        at_node n (λ nd, Some (on_disp (λ d, (dispatchTopic (node_cfg n) (db (n_sm nd)) topic nowMs d).1) nd)) c
      else None
  | CSweep n nowMs =>
      at_node n (λ nd, Some (on_disp (on_deleter (sweep (db (n_sm nd)) nowMs)) nd)) c
  | CAck n id tag success =>
      at_node n (λ nd, Some (on_disp (λ d,
        on_deleter (λ dl, if success : bool then MarkDeleted tag dl else dl)
          (on_hub (RemoveInFlightForConsumer id tag) d)) nd)) c
  | CFlush n answered =>
      nd ← c_nodes c !! n;
      if decide (n_queue nd = [] ∨ ¬ fits (n_queue nd)) then None
      else match MarshalDeleteBatchCmd (n_queue nd) with
           | Ok cmd => at_node n (λ nd, Some (flush_queue answered nd)) (append cmd c)
           | _ => None
           end
  | CConnect n id topic groupID ch =>
      at_node n (λ nd, Some (on_disp (on_hub (λ h, Register id topic groupID ch (open_chan ch 1024 h))) nd)) c
  | CSend n ch => at_node n (λ nd, Some (on_disp (on_hub (λ h, (recv ch h).1)) nd)) c
  | CDisconnect n id => at_node n (λ nd, Some (on_disp (on_hub (Unregister id)) nd)) c
  | CSync n => at_node n (λ nd, Some (mkNode (n_sm nd) [] (n_disp nd))) c
  | CRestart n back =>
      at_node n (λ nd,
        d ← (db (n_sm nd) :: n_past nd) !! back;
        match boot d (bucketSize (repo (n_sm nd))) with
        | Ok s => Some (mkNode s [] fresh_disp)
        | _ => None
        end) c
  | CStart n d =>
      if decide (c_nodes c !! n = None ∧ contents d = ∅) then
        match boot d (TimeBucketSize pcfg) with
        | Ok s => Some (mkCluster (c_log c) (<[n := mkNode s [] fresh_disp]> (c_nodes c)))
        | _ => None
        end
      else None
  | CInstall n m stopc => src ← c_nodes c !! m; at_node n (install_step src stopc) c
  end.

Fixpoint cluster_run (c : cluster) (evs : list cluster_event) : option cluster :=
  match evs with
  | [] => Some c
  | ev :: evs' => c' ← cluster_step c ev; cluster_run c' evs'
  end.

Definition new_cluster : cluster := mkCluster [] ∅.

(** The abstract state after the first [i] entries. *)
Definition shard_at (log : list bytes) (i : nat) : shard := shard_run empty_shard (take i log).

(** ** Readings of a run *)
Definition cluster_acked (evs : list cluster_event) : list bytes :=
  omap (λ ev, match ev with CAck _ _ tag true => Some tag | _ => None end) evs.
Definition cluster_checks (evs : list cluster_event) : list Z :=
  omap (λ ev, match ev with CDispatch _ _ _ t | CSweep _ t => Some t | _ => None end) evs.

(** The nodes that have installed a snapshot and not been restarted since: their
    id counter is behind their store. *)
Definition stale_after (stale : gset Z) (ev : cluster_event) : gset Z :=
  match ev with
  | CInstall n _ _ => {[n]} ∪ stale
  | CRestart n _ | CStart n _ => stale ∖ {[n]}
  | _ => stale
  end.

Definition stale_nodes (evs : list cluster_event) : gset Z := foldl stale_after ∅ evs.

(** No node applies entries between installing a snapshot and its next start. *)
Fixpoint no_stale_apply (stale : gset Z) (evs : list cluster_event) : bool :=
  match evs with
  | [] => true
  | ev :: evs' =>
      match ev with CApply n _ => bool_decide (n ∉ stale) | _ => true end &&
      no_stale_apply (stale_after stale ev) evs'
  end.

(** The log and its length stay within the counters that number them. *)
Definition cluster_fits (c : cluster) : Prop := log_ok (c_log c) ∧ len (c_log c) < 2 ^ 64.

(** ** The replicas follow the log *)
Record node_ok (log : list bytes) (nd : node) (i : nat) : Prop := {
  no_le : (i ≤ length log)%nat;
  no_applied : lastApplied (n_sm nd) = Z.of_nat i;
  no_store : represents (contents (db (n_sm nd))) (Z.of_nat i) (shard_at log i);
  no_past : Forall (λ d, ∃ j, (j ≤ length log)%nat ∧ represents (contents d) (Z.of_nat j) (shard_at log j))
              (n_past nd);
}.

(** The counter of a node is that of the log, unless it is stale. *)
Definition counts (log : list bytes) (nd : node) (i : nat) : Prop :=
  lastID (repo (n_sm nd)) = sh_id (shard_at log i).

Definition cluster_ok (stale : gset Z) (c : cluster) : Prop :=
  ∀ n nd, c_nodes c !! n = Some nd →
    ∃ i, node_ok (c_log c) nd i ∧ (n ∉ stale → counts (c_log c) nd i).

Lemma shard_at_inv log i : log_ok log → shard_inv (shard_at log i) ∧ is_u64 (sh_id (shard_at log i)).
Proof.
  intros Hl. rewrite <-(take_drop i log) in Hl. apply log_ok_prefix in Hl as [Hf Ht].
  destruct (shard_run_inv empty_shard (take i log) empty_shard_inv Hf) as [Hi _]; [simpl; lia|].
  split; [done|]. apply (ri_u64 _ _ (si_repo _ Hi)).
Qed.

Lemma shard_at_app log k i : (i ≤ length log)%nat → shard_at (log ++ k) i = shard_at log i.
Proof. intros Hi. unfold shard_at. by rewrite take_app_le. Qed.

Lemma shard_at_run log i k :
  shard_run (shard_at log i) (take k (drop i log)) = shard_at log (i + k).
Proof. unfold shard_at. rewrite <-shard_run_app. by rewrite take_take_drop. Qed.

Lemma shard_at_span log i k : shard_at log (i + k) = shard_at log (i + length (take k (drop i log))).
Proof.
  assert (take (i + k) log = take (i + length (take k (drop i log))) log) as E; [|unfold shard_at; by rewrite E].
  rewrite length_take, length_drop.
  destruct (decide (k ≤ length log - i)%nat); [f_equal; lia|]. rewrite !take_ge by lia. done.
Qed.

Lemma entries_from_cmds log i k : Cmd <$> entries_from log i k = take k (drop i log).
Proof.
  unfold entries_from. apply list_eq. intros j. rewrite list_lookup_fmap, list_lookup_imap.
  by destruct (take k (drop i log) !! j).
Qed.

Lemma entries_from_last log i k :
  entries_from log i k ≠ [] →
  last (Index <$> entries_from log i k) = Some (Z.of_nat (i + length (take k (drop i log)))).
Proof.
  intros Hne. set (l := take k (drop i log)). rewrite last_lookup, list_lookup_fmap.
  unfold entries_from in *. fold l in Hne |- *. rewrite length_fmap, length_imap, list_lookup_imap.
  destruct (l !! pred (length l)) as [x|] eqn:E.
  - destruct l as [|y l']; [done|]. simpl in *. f_equal. lia.
  - apply lookup_ge_None in E. destruct l; [done|]. simpl in E. lia.
Qed.

Lemma node_ok_app log k nd i : node_ok log nd i → node_ok (log ++ k) nd i.
Proof.
  intros [Hle Ha Hs Hp]. split.
  - rewrite length_app. lia.
  - done.
  - by rewrite shard_at_app.
  - eapply Forall_impl; [exact Hp|]. intros d (j & Hj & Hr). exists j.
    rewrite shard_at_app, length_app by lia. split; [lia|done].
Qed.

Lemma counts_app log k nd i : (i ≤ length log)%nat → counts log nd i → counts (log ++ k) nd i.
Proof. intros Hi Hc. unfold counts. by rewrite shard_at_app. Qed.

Section engine.
Context (Hadd : ∀ b op, batch_fault b op = None).
Context (Hnf : notfound = PebbleErrNotFound).
(** An engine fault is not reported as a missing key. *)
Context (Hgf : ∀ d k e, get_fault d k = Some e → errors_Is e PebbleErrNotFound = false).

Lemma boot_ok d bs s j σ :
  represents (contents d) j σ → shard_inv σ → is_u64 j → boot d bs = Ok s →
  db s = d ∧ lastApplied s = j ∧ lastID (repo s) = sh_id σ.
Proof.
  intros [Hp Hx] [Hr Hper] Hu. unfold boot. intros (er & Her & Hb)%outcome_bind_ok.
  assert (lastID er = sh_id σ) as Hid.
  { unfold NewEventRepository in Her. rewrite Get_spec in Her.
    destruct (get_fault d eventsLastIDKey) as [e|] eqn:Hg; [by rewrite (Hgf _ _ _ Hg) in Her|].
    rewrite Hp in Her by done. rewrite <-Hper. unfold persisted.
    destruct (sh_events σ !! eventsLastIDKey) as [v|] eqn:Ev.
    - apply outcome_bind_ok in Her as (id & Hid & [= <-]). simpl. unfold be_uint in Hid.
      by case_decide; simplify_eq.
    - rewrite Hnf in Her. simpl in Her. by simplify_eq. }
  unfold Open in Hb. simpl in Hb. rewrite Get_spec in Hb.
  destruct (get_fault d appliedIndexKey) as [e|] eqn:Hg; [by rewrite (Hgf _ _ _ Hg) in Hb|].
  destruct Hx as [Hx|[-> Hx]]; rewrite Hx in Hb.
  - rewrite be_uint_u64 in Hb by done. by simplify_eq.
  - rewrite Hnf in Hb. simpl in Hb. by simplify_eq.
Qed.

Lemma apply_step_ok log k nd nd' i :
  cluster_fits (mkCluster log ∅) → node_ok log nd i → counts log nd i → apply_step log k nd = Some nd' →
  ∃ j, node_ok log nd' j ∧ counts log nd' j.
Proof.
  intros [Hl _] [Hle Ha Hs Hp] Hc. unfold apply_step. simpl in Hl.
  rewrite Ha, Nat2Z.id. case_decide as Hne; [done|].
  destruct (Update _ _) as [s' [[rs ks]|e| |]] eqn:Hup; try done. intros [= <-].
  destruct (shard_at_inv log i Hl) as [_ Hu].
  destruct (Update_represents Hadd _ _ _ _ _ _ _ Hs Hc Hu Hup) as (Hr & Hid & _ & Hap & _).
  rewrite entries_from_cmds, shard_at_run in Hr, Hid.
  rewrite entries_from_last in Hap by done. simpl in Hap.
  set (l := take k (drop i log)) in *.
  rewrite shard_at_span in Hr, Hid. exists (i + length l)%nat. split; [split|]; simpl.
  - unfold l. rewrite length_take, length_drop. lia.
  - done.
  - by rewrite <-Hap.
  - constructor; [by exists i|exact Hp].
  - done.
Qed.

Lemma at_node_inv n f c c' :
  at_node n f c = Some c' →
  ∃ nd nd', c_nodes c !! n = Some nd ∧ f nd = Some nd' ∧
    c' = mkCluster (c_log c) (<[n := nd']> (c_nodes c)).
Proof.
  unfold at_node. destruct (c_nodes c !! n) as [nd|]; [|done]. simpl.
  destruct (f nd) as [nd'|] eqn:E; [|done]. simpl. intros [= <-]. eauto.
Qed.

Lemma install_step_ok log src nd nd' stopc i j :
  cluster_fits (mkCluster log ∅) → node_ok log src i → node_ok log nd j →
  install_step src stopc nd = Some nd' → ∃ l, node_ok log nd' l.
Proof.
  intros [Hl Hn] [Hle Ha Hs _] Hj. simpl in Hl, Hn. unfold install_step. case_decide as Hlt; [|done].
  destruct (SaveSnapshot _ _ _) as [[w st'] [e|]] eqn:Hsave; [done|].
  apply SaveSnapshot_ok in Hsave. cbn [written buffer_writer app] in Hsave |- *. rewrite Hsave.
  destruct (RecoverFromSnapshot _ _ _) as [s' o] eqn:Hrec. rewrite (no_applied _ _ _ Hj), Ha in Hlt.
  pose proof Hs as [Hp Hx]. destruct Hx as [Hx|[E _]]; [|lia].
  assert (pairs_fit (contents (db (n_sm src)))) as Hfit.
  { intros k v Hk. destruct (decide (k = appliedIndexKey)) as [->|Hne].
    - rewrite Hx in Hk. injection Hk as <-. by split.
    - rewrite Hp in Hk by done. by eapply (shard_run_fit empty_shard). }
  apply (recover_contents _ _ _ _ _ (Z.of_nat i)) in Hrec as (_ & Hc & Hok);
    [|done..|unfold is_u64, len in *; lia].
  assert (∃ x, (x ≤ length log)%nat ∧ represents (contents (db s')) (Z.of_nat x) (shard_at log x)) as (x & Hx' & Hr).
  { destruct Hc as [-> |[-> | ->]].
    - exists j. split; [apply Hj|apply Hj].
    - exists 0%nat. split; [lia|]. split; [done|]. by right.
    - by exists i. }
  destruct o as [u|e| |]; [intros [= <-]; exists i; destruct (Hok ltac:(by destruct u)) as [E1 E2];
    split; simpl; [done|done|by rewrite E1|done]|..].
  all: destruct (boot _ _) as [s| | |] eqn:Hb; try done; intros [= <-]; exists x;
    destruct (shard_at_inv log x Hl) as [Hinv _];
    apply (boot_ok _ _ _ _ _ Hr Hinv) in Hb as (Ed & Ha' & _); [|unfold is_u64, len in *; lia];
    (split; simpl; [done|done|by rewrite Ed|]);
    constructor; [by exists j; split; apply Hj|apply Hj].
Qed.

(** A property of all nodes is kept when the changed node has it. *)
Lemma all_nodes_insert (P : node → Prop) c n nd' :
  (∀ m nd, c_nodes c !! m = Some nd → P nd) → P nd' →
  ∀ m nd, <[n := nd']> (c_nodes c) !! m = Some nd → P nd.
Proof.
  intros Hall Hn m nd. destruct (decide (n = m)) as [<-|Hne].
  - rewrite lookup_insert_eq. by intros [= <-].
  - rewrite lookup_insert_ne by done. apply Hall.
Qed.

Lemma node_ok_disp log f nd i : node_ok log nd i → node_ok log (on_disp f nd) i.
Proof. by intros []. Qed.

Lemma boot_node_ok log j d bs s disp :
  cluster_fits (mkCluster log ∅) → (j ≤ length log)%nat →
  represents (contents d) (Z.of_nat j) (shard_at log j) → boot d bs = Ok s →
  node_ok log (mkNode s [] disp) j ∧ counts log (mkNode s [] disp) j.
Proof.
  intros [Hl Hn] Hj Hr Hb. simpl in *. destruct (shard_at_inv log j Hl) as [Hinv _].
  apply (boot_ok _ _ _ _ _ Hr Hinv) in Hb as (<- & Ha & Hid);
    [|unfold is_u64, len in *; lia].
  split; [split|]; simpl; done.
Qed.

(** What one step does to the log: nothing, or one more command. *)
Lemma step_log c ev c' :
  cluster_step c ev = Some c' → c_log c' = c_log c ∨ ∃ cmd, c_log c' = c_log c ++ [cmd].
Proof.
  assert (∀ n f c0, at_node n f c0 = Some c' → c_log c' = c_log c0) as Hat
    by (by intros n f c0 (? & ? & _ & _ & ->)%at_node_inv).
  destruct ev; cbn [cluster_step]; try (intros Hs; left; by eapply Hat).
  - destruct (isLeader _ _); [|done]. destruct (store_command _ _); try done. intros [= <-]. right. by eexists.
  - destruct (isLeader _ _); [|done]. intros Hs. left. by eapply Hat.
  - destruct (c_nodes c !! n); [|done]. simpl. case_decide; [done|].
    destruct (MarshalDeleteBatchCmd _) as [cmd|e| |]; try done. intros Hs%Hat. right. by exists cmd.
  - case_decide; [|done]. destruct (boot _ _); try done. intros [= <-]. by left.
  - destruct (c_nodes c !! src); [|done]. simpl. intros Hs. left. by eapply Hat.
Qed.

Lemma cluster_ok_insert stale stale' c n nd i :
  cluster_ok stale c → stale' ∖ {[n]} = stale ∖ {[n]} → node_ok (c_log c) nd i →
  (n ∉ stale' → counts (c_log c) nd i) →
  cluster_ok stale' (mkCluster (c_log c) (<[n := nd]> (c_nodes c))).
Proof.
  intros Hok Hst Hi Hc m nd'. cbn [c_log c_nodes]. destruct (decide (n = m)) as [<-|Hne].
  - rewrite lookup_insert_eq. intros [= <-]. eauto.
  - rewrite lookup_insert_ne by done. intros (j & Hj & Hcj)%Hok. exists j. split; [done|].
    intros Hm. apply Hcj. set_solver.
Qed.

Lemma cluster_step_ok stale c ev c' :
  cluster_fits c' → cluster_ok stale c → no_stale_apply stale [ev] = true →
  cluster_step c ev = Some c' → cluster_ok (stale_after stale ev) c'.
Proof.
  intros Hfit Hok Hst Hstep.
  assert (∀ cmd, cluster_ok stale (append cmd c)) as Happ.
  { intros cmd n nd Hn. destruct (Hok n nd Hn) as (i & Hi & Hc). exists i. split; [by apply node_ok_app|].
    intros Hns. apply counts_app; [apply Hi|by apply Hc]. }
  assert (∀ n f, at_node n (λ nd, Some (on_disp (f nd) nd)) c = Some c' → cluster_ok stale c') as Hdisp.
  { intros n f (nd & nd' & Hn & [= <-] & ->)%at_node_inv. destruct (Hok n nd Hn) as (i & Hi & Hc).
    by eapply cluster_ok_insert, Hc; [..|apply node_ok_disp]. }
  destruct ev as [n nh batch t|n k|n nh topic t|n t|n id tag b|n answered|n id topic g ch|n ch|n id|n|n back|n d|n m st];
    cbn [cluster_step stale_after] in *;
    try (match type of Hstep with
         | at_node _ _ _ = _ =>
             apply at_node_inv in Hstep as Hat; destruct Hat as (nd & nd' & Hn & Hf & ->);
             destruct (Hok n nd Hn) as (i & Hi & Hc)
         end).
  - destruct (isLeader _ _); [|done]. destruct (store_command batch t); simplify_eq. apply Happ.
  - simpl in Hst. rewrite andb_true_r in Hst. apply bool_decide_eq_true in Hst.
    destruct (apply_step_ok _ _ _ _ _ Hfit Hi (Hc Hst) Hf) as (j & Hj & Hcj). by eapply cluster_ok_insert.
  - destruct (isLeader _ _); [|done]. refine (Hdisp n _ Hstep).
  - refine (Hdisp n _ Hstep).
  - refine (Hdisp n _ Hstep).
  - destruct (c_nodes c !! n) as [nd|] eqn:Hn; [|done]. simpl in Hstep. case_decide; [done|].
    destruct (MarshalDeleteBatchCmd _) as [cmd|e| |]; try done.
    apply at_node_inv in Hstep as (nd1 & nd' & Hn1 & [= <-] & ->).
    destruct (Happ cmd n nd1 Hn1) as (i & Hi & Hc).
    apply (cluster_ok_insert stale stale (append cmd c) n _ i); [done..| |];
      unfold flush_queue; destruct answered; try done. by apply node_ok_disp.
  - refine (Hdisp n _ Hstep).
  - refine (Hdisp n _ Hstep).
  - refine (Hdisp n _ Hstep).
  - injection Hf as <-. eapply cluster_ok_insert; [done..| |done]. destruct Hi. by split.
  - destruct (_ !! back) as [d|] eqn:Hd; [|done]. simpl in Hf.
    destruct (boot d _) as [s|e| |] eqn:Hb; try done. injection Hf as <-.
    assert (∃ j, (j ≤ length (c_log c))%nat ∧ represents (contents d) (Z.of_nat j) (shard_at (c_log c) j))
      as (j & Hj & Hr).
    { apply list_elem_of_lookup_2, elem_of_cons in Hd as [->|Hin].
      - exists i. split; [apply Hi|]. by apply no_store.
      - pose proof (no_past _ _ _ Hi) as Hp. rewrite Forall_forall in Hp. by apply Hp. }
    destruct (boot_node_ok (c_log c) j d _ s fresh_disp Hfit Hj Hr Hb) as [Hnj Hcj].
    eapply cluster_ok_insert; [exact Hok|set_solver|exact Hnj|done].
  - case_decide as Hc; [|done]. destruct (boot d _) as [s|e| |] eqn:Hb; try done. injection Hstep as <-.
    assert (represents (contents d) (Z.of_nat 0) (shard_at (c_log c) 0)) as Hr
      by (destruct Hc as [_ ->]; split; [done|by right]).
    destruct (boot_node_ok (c_log c) 0 d _ s fresh_disp Hfit ltac:(lia) Hr Hb) as [Hnj Hcj].
    eapply cluster_ok_insert; [exact Hok|set_solver|exact Hnj|done].
  - destruct (c_nodes c !! m) as [src|] eqn:Hsrc; [|done]. simpl in Hstep.
    apply at_node_inv in Hstep as (nd & nd' & Hn & Hf & ->).
    destruct (Hok m src Hsrc) as (i & Hi & _), (Hok n nd Hn) as (j & Hj & _).
    destruct (install_step_ok _ _ _ _ _ _ _ Hfit Hi Hj Hf) as (l & Hnl).
    eapply cluster_ok_insert; [exact Hok|set_solver|exact Hnl|set_solver].
Qed.

Lemma cluster_fits_step c ev c' : cluster_step c ev = Some c' → cluster_fits c' → cluster_fits c.
Proof.
  intros Hs [Hl Hn]. apply step_log in Hs as [E|[cmd E]]; rewrite E in Hl, Hn; [done|].
  split; [by eapply log_ok_prefix|]. rewrite len_app in Hn. unfold len in *. simpl in *. lia.
Qed.

Lemma cluster_run_app c l k : cluster_run c (l ++ k) = c' ← cluster_run c l; cluster_run c' k.
Proof.
  induction l as [|ev l IH] in c |- *; [done|]. simpl.
  destruct (cluster_step c ev); [apply IH|done].
Qed.

Lemma cluster_run_fits c evs c' : cluster_run c evs = Some c' → cluster_fits c' → cluster_fits c.
Proof.
  intros Hr Hfit. revert c Hr. induction evs as [|e evs IH]; intros c Hr; simpl in Hr; [by simplify_eq|].
  destruct (cluster_step c e) as [c1|] eqn:Hs; [|done]. by eapply cluster_fits_step, IH.
Qed.

Lemma no_stale_apply_cons stale ev evs :
  no_stale_apply stale (ev :: evs) = true →
  no_stale_apply stale [ev] = true ∧ no_stale_apply (stale_after stale ev) evs = true.
Proof. simpl. intros [? ?]%andb_true_iff. by rewrite andb_true_r. Qed.

Lemma no_stale_apply_app stale l k :
  no_stale_apply stale (l ++ k) = true →
  no_stale_apply stale l = true ∧ no_stale_apply (foldl stale_after stale l) k = true.
Proof.
  induction l as [|ev l IH] in stale |- *; [done|]. intros [Ha Hb]%no_stale_apply_cons.
  apply IH in Hb as [Hb Hc]. simpl in *. rewrite andb_true_r in Ha. by rewrite Ha.
Qed.

Lemma cluster_run_ok stale c evs c' :
  cluster_fits c' → cluster_ok stale c → no_stale_apply stale evs = true →
  cluster_run c evs = Some c' → cluster_ok (foldl stale_after stale evs) c'.
Proof.
  intros Hfit. revert stale c. induction evs as [|ev evs IH]; intros stale c Hok Hst Hr; simpl in Hr; [by simplify_eq|].
  apply no_stale_apply_cons in Hst as [Hst1 Hst2].
  destruct (cluster_step c ev) as [c1|] eqn:Hs; [|done]. simpl in Hr.
  apply (IH _ c1); [|done..]. eapply cluster_step_ok; [|done..]. by eapply cluster_run_fits.
Qed.

(** Without snapshots no node is ever stale. *)
Lemma no_install_fresh evs :
  Forall (λ ev, match ev with CInstall _ _ _ => False | _ => True end) evs →
  no_stale_apply ∅ evs = true ∧ stale_nodes evs = ∅.
Proof.
  intros Hf. assert (∀ stale : gset Z, stale = ∅ →
    no_stale_apply stale evs = true ∧ foldl stale_after stale evs = ∅) as Hall; [|by apply Hall].
  induction Hf as [|ev evs Hev Hf IH]; intros stale ->; [done|]. simpl.
  destruct (IH (stale_after ∅ ev)) as [-> ->]; [destruct ev; simpl; done || set_solver|].
  split; [|done]. destruct ev; simpl; try done.
Qed.

(** ** No message is lost *)
Lemma shard_at_settled log i j k :
  log_ok log → (i ≤ j)%nat → length k = 24%nat → key_id k ≤ sh_id (shard_at log i) →
  sh_events (shard_at log j) !! k =
    if decide (k ∈ log_deletes (take (j - i) (drop i log))) then None
    else sh_events (shard_at log i) !! k.
Proof.
  intros Hl Hij Hk Hid. replace j with (i + (j - i))%nat at 1 by lia. rewrite <-shard_at_run.
  destruct (shard_at_inv log i Hl) as [Hi _].
  assert (log_ok (take i log ++ take (j - i) (drop i log))) as [[Hf1 Hf2]%Forall_app Ht].
  { rewrite take_take_drop. apply (log_ok_prefix _ (drop (i + (j - i)) log)). by rewrite take_drop. }
  rewrite log_total_app in Ht. pose proof (log_total_nonneg (take (j - i) (drop i log))).
  apply shard_run_settled; try done.
  destruct (shard_run_inv empty_shard (take i log) empty_shard_inv Hf1) as [_ Hle]; [simpl; lia|].
  unfold shard_at. simpl in Hle. lia.
Qed.

Lemma stored_id log i k v :
  log_ok log → length k = 24%nat → sh_events (shard_at log i) !! k = Some v →
  key_id k ≤ sh_id (shard_at log i).
Proof.
  intros Hl Hk Hv. destruct (shard_at_inv log i Hl) as [[Hr Hp] _].
  pose proof (ri_ids _ _ Hr k v Hv Hk). lia.
Qed.

(** A key names one value for ever: every prefix of the log has it or does not
    have the key. *)
Lemma one_value log i j k v v' :
  log_ok log → length k = 24%nat →
  sh_events (shard_at log i) !! k = Some v → sh_events (shard_at log j) !! k = Some v' → v = v'.
Proof.
  intros Hl Hk Hv Hv'.
  pose proof (stored_id _ _ _ _ Hl Hk Hv). pose proof (stored_id _ _ _ _ Hl Hk Hv').
  destruct (decide (i ≤ j)%nat).
  - rewrite (shard_at_settled log i j) in Hv' by done. case_decide; congruence.
  - rewrite (shard_at_settled log j i) in Hv by (done || lia). case_decide; congruence.
Qed.

(** The record is in the log at [i], nothing after [i] deletes it, and no node
    has it queued for deletion. *)
Record kept (k v : bytes) (i : nat) (c : cluster) : Prop := {
  kp_le : (i ≤ length (c_log c))%nat;
  kp_stored : sh_events (shard_at (c_log c) i) !! k = Some v;
  kp_log : k ∉ log_deletes (drop i (c_log c));
  kp_queue : ∀ n nd, c_nodes c !! n = Some nd → k ∉ n_queue nd;
}.

Lemma node_value log nd i j k v v' :
  log_ok log → length k = 24%nat → node_ok log nd j →
  sh_events (shard_at log i) !! k = Some v → contents (db (n_sm nd)) !! k = Some v' → v' = v.
Proof.
  intros Hl Hk Hj Hv Hv'. rewrite (rp_pairs _ _ _ (no_store _ _ _ Hj)) in Hv'; [by eapply one_value|].
  by intros ->.
Qed.

Lemma log_deletes_app l k : log_deletes (l ++ k) = log_deletes l ++ log_deletes k.
Proof. unfold log_deletes. by rewrite fmap_app, join_app. Qed.

Lemma kept_append k v i c cmd :
  kept k v i c → k ∉ cmd_deletes (decode cmd) → kept k v i (append cmd c).
Proof.
  intros [Hle Hs Hd Hq] Hc. split; simpl.
  - rewrite length_app. lia.
  - by rewrite shard_at_app.
  - rewrite drop_app_le, log_deletes_app by done. unfold log_deletes at 2. simpl.
    rewrite app_nil_r, elem_of_app. tauto.
  - done.
Qed.

Lemma kept_insert k v i c n nd :
  kept k v i c → k ∉ n_queue nd → kept k v i (mkCluster (c_log c) (<[n := nd]> (c_nodes c))).
Proof.
  intros [Hle Hs Hd Hq] Hn. split; try done. cbn [c_nodes].
  by apply (all_nodes_insert (λ nd, k ∉ n_queue nd)).
Qed.

Lemma store_command_deletes batch t cmd : store_command batch t = Ok cmd → cmd_deletes (decode cmd) = [].
Proof.
  unfold store_command. intros (items & _ & Hm)%outcome_bind_ok.
  rewrite MarshalStoreBatchCmd_eq in Hm. injection Hm as <-. unfold decode.
  destruct (encode_store items) as [|c l] eqn:E; [done|]. injection E as <- _.
  rewrite decide_True by done. by destruct (UnmarshalStoreBatchCmd _).
Qed.

Lemma flush_command_deletes keys cmd :
  fits keys → MarshalDeleteBatchCmd keys = Ok cmd → cmd_deletes (decode cmd) = keys.
Proof.
  intros Hfit Hm. destruct (raft_marshal keys) as [[E0 Hk]|[e E0]]; rewrite E0 in Hm; [|done].
  injection Hm as <-. unfold decode. destruct (encode_delete keys) as [|c l] eqn:E; [done|].
  rewrite <-E, Unmarshal_encode_delete by done. injection E as <- _.
  by rewrite decide_False, decide_True.
Qed.

Lemma cluster_step_keeps stale k v msg i c ev c' :
  length k = 24%nat → Unmarshal v = Ok msg → cluster_fits c → cluster_ok stale c →
  k ∉ cluster_acked [ev] → Forall (λ t, isExpired msg t = false) (cluster_checks [ev]) →
  kept k v i c → cluster_step c ev = Some c' → kept k v i c'.
Proof.
  intros Hk Hu [Hl _] Hok Hack Hx Hkept Hstep. pose proof (kp_queue _ _ _ _ Hkept) as Hq.
  pose proof (kp_stored _ _ _ _ Hkept) as Hv.
  assert (∀ n nd t, c_nodes c !! n = Some nd → isExpired msg t = false →
            ¬ has_expired (contents (db (n_sm nd))) t k) as Hlive.
  { intros n nd t Hn Ht (v' & msg' & Hv' & Hu' & Hx'). destruct (Hok n nd Hn) as (j & Hj & _).
    rewrite (node_value _ _ _ _ _ _ _ Hl Hk Hj Hv Hv') in Hu'. congruence. }
  destruct ev as [n nh batch t|n m|n nh topic t|n t|n id tag b|n answered|n id topic g ch|n ch|n id|n|n back|n d|n m st];
    cbn [cluster_step cluster_acked cluster_checks omap list_omap] in *;
    try (match type of Hstep with
         | (if isLeader ?a ?b then _ else _) = _ => destruct (isLeader a b); [|done]
         end);
    try (match type of Hstep with
         | at_node _ _ _ = _ =>
             apply at_node_inv in Hstep as (nd & nd' & Hn & Hf & ->);
             apply kept_insert; [done|]; specialize (Hq n nd Hn)
         end).
  - destruct (store_command batch t) as [cmd|e| |] eqn:Hc; simplify_eq.
    apply kept_append; [done|]. rewrite (store_command_deletes _ _ _ Hc). apply not_elem_of_nil.
  - unfold apply_step in Hf. case_decide; [done|]. destruct (Update _ _) as [s' [[rs ks]|e| |]]; simplify_eq.
    unfold n_queue. simpl. by rewrite RemoveInFlightBatch_deleter.
  - apply Forall_cons in Hx as [Hx _]. injection Hf as <-. unfold n_queue. simpl.
    destruct (dispatchTopic_pending (node_cfg n) (db (n_sm nd)) topic t (n_disp nd)) as [_ Hp].
    intros [?|?]%Hp; [done|]. by eapply Hlive.
  - apply Forall_cons in Hx as [Hx _]. injection Hf as <-. unfold n_queue. simpl.
    destruct (sweep_pending (db (n_sm nd)) t (d_deleter (n_disp nd))) as [_ Hp].
    intros [?|?]%Hp; [done|]. by eapply Hlive.
  - injection Hf as <-. unfold n_queue. simpl. destruct b; [|done]. simpl.
    rewrite elem_of_app, list_elem_of_singleton. intros [?| ->]; [done|]. apply Hack. left.
  - destruct (c_nodes c !! n) as [nd|] eqn:Hn; [|done]. simpl in Hstep. case_decide as Hc; [done|].
    destruct (MarshalDeleteBatchCmd _) as [cmd|e| |] eqn:Hm; try done.
    apply at_node_inv in Hstep as (nd1 & nd' & Hn1 & [= <-] & ->).
    apply (kept_insert k v i (append cmd c)).
    + apply kept_append; [done|]. rewrite (flush_command_deletes (n_queue nd)); [by eapply Hq| |done].
      by apply dec_stable; intros ?; apply Hc; right.
    + unfold flush_queue. destruct answered; [|by apply (Hq n)].
      unfold n_queue. simpl. rewrite RemoveInFlightBatch_deleter. apply not_elem_of_nil.
  - by injection Hf as <-.
  - by injection Hf as <-.
  - by injection Hf as <-.
  - by injection Hf as <-.
  - destruct (_ !! back); [|done]. simpl in Hf. destruct (boot _ _); simplify_eq. apply not_elem_of_nil.
  - case_decide; [|done]. destruct (boot d _); simplify_eq. apply kept_insert; [done|]. apply not_elem_of_nil.
  - destruct (c_nodes c !! m) as [src|]; [|done]. simpl in Hstep.
    apply at_node_inv in Hstep as (nd & nd' & Hn & Hf & ->). apply kept_insert; [done|].
    unfold install_step in Hf. case_decide; [|done]. destruct (SaveSnapshot _ _ _) as [[w ?] [?|]]; [done|].
    destruct (RecoverFromSnapshot _ _ _) as [s' [?| | |]]; [injection Hf as <-; exact (Hq n nd Hn)|..];
      destruct (boot _ _); simplify_eq; apply not_elem_of_nil.
Qed.

Lemma cluster_run_keeps stale k v msg i c evs c' :
  length k = 24%nat → Unmarshal v = Ok msg → cluster_fits c' → cluster_ok stale c →
  no_stale_apply stale evs = true →
  k ∉ cluster_acked evs → Forall (λ t, isExpired msg t = false) (cluster_checks evs) →
  kept k v i c → cluster_run c evs = Some c' → kept k v i c'.
Proof.
  intros Hk Hu Hfit. revert stale c. induction evs as [|ev evs IH]; intros stale c Hok Hst Hack Hx Hkept Hr;
    simpl in Hr; [by simplify_eq|]. apply no_stale_apply_cons in Hst as [Hs1 Hs2].
  destruct (cluster_step c ev) as [c1|] eqn:Hs; [|done]. simpl in Hr.
  change (ev :: evs) with ([ev] ++ evs) in Hack, Hx. unfold cluster_acked, cluster_checks in Hack, Hx.
  rewrite omap_app in Hack. rewrite omap_app in Hx.
  apply not_elem_of_app in Hack as [Ha1 Ha2]. apply Forall_app in Hx as [Hx1 Hx2].
  assert (cluster_fits c1) as Hf1 by (by eapply cluster_run_fits).
  eapply (IH _ c1); try done; [by eapply cluster_step_ok|].
  eapply (cluster_step_keeps stale k v msg i c ev); try done. by eapply cluster_fits_step.
Qed.

Lemma new_cluster_ok : cluster_ok ∅ new_cluster.
Proof. intros n nd. simpl. by rewrite lookup_empty. Qed.

(** What is kept is in the store of every node that has applied the entry. *)
Lemma kept_at_node stale k v i c n nd :
  length k = 24%nat → cluster_fits c → cluster_ok stale c → kept k v i c →
  c_nodes c !! n = Some nd → Z.of_nat i ≤ lastApplied (n_sm nd) →
  contents (db (n_sm nd)) !! k = Some v.
Proof.
  intros Hk [Hl _] Hok [Hle Hs Hd _] Hn Hap. destruct (Hok n nd Hn) as (j & Hj & _).
  rewrite (no_applied _ _ _ Hj) in Hap.
  rewrite (rp_pairs _ _ _ (no_store _ _ _ Hj)) by (by intros ->).
  rewrite (shard_at_settled _ i j); [|done|lia|done|by eapply stored_id].
  rewrite decide_False; [done|]. intros Hin. apply Hd.
  rewrite <-(take_drop (j - i) (drop i (c_log c))), log_deletes_app. apply elem_of_app. by left.
Qed.

(** ** Properties *)

(** C6. The replicas are copies of the log.  In every state a cluster can reach,
    through publications, deletions, portions of the log of any size, crashes
    that lose unsynced commits, restarts and snapshots installed at nodes that
    lag behind, the store of every node is that of the abstract log after the
    entries it has applied, and so is its id counter; two nodes that have
    applied equally many entries hold the same pairs and give out the same next
    id.  The runs are those in which a node that has installed a snapshot is
    restarted before it applies further entries: until then its counter is
    stale, and nothing is said of it.  No published index encodes to an event
    key or a key of the repository ([cluster_fits]). *)
Theorem replicas_follow_log evs c n nd :
  cluster_run new_cluster evs = Some c → cluster_fits c → no_stale_apply ∅ evs = true →
  c_nodes c !! n = Some nd →
  ∃ i, (i ≤ length (c_log c))%nat ∧ lastApplied (n_sm nd) = Z.of_nat i ∧
    represents (contents (db (n_sm nd))) (Z.of_nat i) (shard_at (c_log c) i) ∧
    (n ∉ stale_nodes evs → lastID (repo (n_sm nd)) = sh_id (shard_at (c_log c) i)) ∧
    ∀ n' nd', c_nodes c !! n' = Some nd' → lastApplied (n_sm nd') = lastApplied (n_sm nd) →
      (n ∉ stale_nodes evs → n' ∉ stale_nodes evs →
         lastID (repo (n_sm nd')) = lastID (repo (n_sm nd))) ∧
      ∀ k, k ≠ appliedIndexKey → contents (db (n_sm nd')) !! k = contents (db (n_sm nd)) !! k.
Proof.
  intros Hr Hfit Hst Hn. pose proof (cluster_run_ok _ _ _ _ Hfit new_cluster_ok Hst Hr) as Hok.
  fold (stale_nodes evs) in Hok.
  destruct (Hok n nd Hn) as (i & [Hle Ha Hs _] & Hc). exists i. split_and!; [done..|].
  intros n' nd' Hn' Ea. destruct (Hok n' nd' Hn') as (i' & [_ Ha' Hs' _] & Hc').
  assert (i' = i) as -> by lia. split; [intros Hf Hf'; by rewrite (Hc Hf), (Hc' Hf')|]. intros k Hk.
  by rewrite (rp_pairs _ _ _ Hs k Hk), (rp_pairs _ _ _ Hs' k Hk).
Qed.

(** C5. No message is lost in a cluster.  A record that the log holds and no node
    has queued for deletion is, after any run, in the store of every node that
    has caught up with the log at the start of the run, with its value, unless
    its tag was acknowledged at some node or it was expired at some expiry
    check: whoever leads, however often the leader changes, whichever nodes
    crash, join, lag behind or catch up with a snapshot (after which a node is
    restarted before it applies entries again, see [no_stale_apply]; without
    snapshots that is no condition, see [no_install_fresh]).  No published
    index encodes to an event key or a key of the repository. *)
Theorem cluster_no_message_lost evs0 evs c0 c k v msg :
  cluster_run new_cluster evs0 = Some c0 → cluster_run c0 evs = Some c → cluster_fits c →
  no_stale_apply ∅ (evs0 ++ evs) = true →
  length k = 24%nat → sh_events (shard_run empty_shard (c_log c0)) !! k = Some v →
  Unmarshal v = Ok msg → (∀ n nd, c_nodes c0 !! n = Some nd → k ∉ n_queue nd) →
  k ∉ cluster_acked evs → Forall (λ t, isExpired msg t = false) (cluster_checks evs) →
  ∀ n nd, c_nodes c !! n = Some nd → len (c_log c0) ≤ lastApplied (n_sm nd) →
    contents (db (n_sm nd)) !! k = Some v.
Proof.
  intros Hr0 Hr Hfit [Hst0 Hst]%no_stale_apply_app Hk Hv Hu Hq Hack Hx n nd Hn Hap.
  assert (cluster_ok (stale_nodes evs0) c0) as Hok0.
  { eapply cluster_run_ok; [|apply new_cluster_ok|done|done]. by eapply cluster_run_fits. }
  assert (kept k v (length (c_log c0)) c0) as Hkept.
  { split; [done| | |done]; unfold shard_at; [by rewrite firstn_all|].
    rewrite drop_all. apply not_elem_of_nil. }
  eapply kept_at_node; [done|done| |by eapply cluster_run_keeps|done|done].
  by eapply cluster_run_ok.
Qed.

(** What a committed publication appends to the log. *)
Lemma published_in_log c n nh batch nowMs c1 j m :
  cluster_step c (CPublish n nh batch nowMs) = Some c1 → cluster_fits c1 → batch_ok batch nowMs →
  (∀ items, build_items pcfg batch nowMs = Ok items →
     Forall item_ok items ∧ len items * sizeof_item ≤ maxAlloc) →
  Messages batch !! j = Some m →
  stored_at (sh_events (shard_at (c_log c1) (length (c_log c1)))) (TimeBucketSize pcfg) nowMs m
    (sh_id (shard_run empty_shard (c_log c)) + 1 + Z.of_nat j).
Proof.
  intros Hstep Hf1 Hbok Hitems Hm. simpl in Hstep. destruct (isLeader _ _); [|done].
  destruct (store_command batch nowMs) as [cmd|e| |] eqn:Hc; try done. injection Hstep as <-.
  unfold store_command in Hc. apply outcome_bind_ok in Hc as (items & Hbi & Hc).
  rewrite MarshalStoreBatchCmd_eq in Hc. injection Hc as <-.
  destruct (Hitems items Hbi) as [Hio Hal]. apply build_items_inv in Hbi as Hf2.
  assert (len items = len (Messages batch)) as Hlen by (unfold len; by rewrite (Forall2_length _ _ _ Hf2)).
  set (σ := shard_run empty_shard (c_log c)) in *.
  destruct Hf1 as [[Hfo Ht] _]. simpl in Hfo, Ht. apply Forall_app in Hfo as [Hfo _].
  rewrite log_total_app in Ht. simpl in Ht.
  unfold cmd_items in Ht. rewrite Unmarshal_encode_store in Ht by done.
  destruct (shard_run_inv empty_shard (c_log c) empty_shard_inv Hfo) as [Hinv Hle];
    [pose proof (len_nonneg items); simpl; lia|]. fold σ in Hinv, Hle. simpl in Hle.
  apply Forall_and in Hbok as [Hix Hwf].
  destruct (items_stored (sh_events σ) (TimeBucketSize pcfg) nowMs (mkEventRepository (sh_id σ) 0)
              (Messages batch) items (si_repo _ Hinv) ltac:(simpl; lia) Hix Hwf Hf2) as [Hst _].
  unfold shard_at. cbn [append c_log]. rewrite firstn_all, shard_run_app. fold σ.
  change (shard_run σ [encode_store items]) with (shard_step σ (encode_store items)). unfold shard_step.
  rewrite (decode_encode_store items) by done. by apply Hst.
Qed.

(** C4. From the producer to every replica.  When a batch published at a leader has
    been committed, then after any further run every node that has applied that
    entry holds every message of the batch, under consecutive ids that follow
    the ids given out before, in the bucket of the time it is due, in a record
    that decodes to the published topic, payload, delay, ttl and indexes and
    the time of the publication, as long as its tag is not acknowledged and its
    ttl is not over at an expiry check.  The run may restart nodes, crash them
    and install snapshots, under the condition of [no_stale_apply]; the items
    fit the command encoding and no published index encodes to an event key or
    a key of the repository. *)
Theorem published_on_every_replica evs0 evs c0 c1 c n nh batch nowMs j m b :
  cluster_run new_cluster evs0 = Some c0 →
  cluster_step c0 (CPublish n nh batch nowMs) = Some c1 → cluster_run c1 evs = Some c →
  cluster_fits c → no_stale_apply ∅ (evs0 ++ CPublish n nh batch nowMs :: evs) = true →
  batch_ok batch nowMs →
  (∀ items, build_items pcfg batch nowMs = Ok items →
     Forall item_ok items ∧ len items * sizeof_item ≤ maxAlloc) →
  Messages batch !! j = Some m →
  CalculateBucket (due_ms nowMs m) (TimeBucketSize pcfg) = Ok b →
  let id := sh_id (shard_run empty_shard (c_log c0)) + 1 + Z.of_nat j in
  let k := EventKey b (TopicHash (pm_Topic m)) id in
  (∀ n nd, c_nodes c1 !! n = Some nd → k ∉ n_queue nd) → k ∉ cluster_acked evs →
  Forall (λ t, ¬ ttl_over nowMs m t) (cluster_checks evs) →
  ∀ n' nd, c_nodes c !! n' = Some nd → len (c_log c1) ≤ lastApplied (n_sm nd) →
    stored_at (contents (db (n_sm nd))) (TimeBucketSize pcfg) nowMs m id.
Proof.
  intros Hr0 Hstep Hr Hfit [Hst0 [Hs1 Hst]%no_stale_apply_cons]%no_stale_apply_app Hbok Hitems Hm Hb id k Hq Hack Hx
    n' nd Hn Hap.
  assert (cluster_fits c1) as Hf1 by (by eapply cluster_run_fits).
  assert (cluster_fits c0) as Hf0 by (by eapply cluster_fits_step).
  assert (cluster_ok (stale_nodes evs0) c0) as Hok0 by (by eapply cluster_run_ok; [..|apply new_cluster_ok| |]).
  assert (cluster_ok (stale_nodes evs0) c1) as Hok1 by (by eapply (cluster_step_ok _ c0 (CPublish n nh batch nowMs))).
  destruct (published_in_log _ _ _ _ _ _ _ _ Hstep Hf1 Hbok Hitems Hm) as (b' & v & sm & Hb' & Hv & Huv & Hca).
  assert (b' = b) as -> by congruence. fold id k in Hv.
  exists b, v, sm. split_and!; [done| |done..].
  eapply (kept_at_node _ k v (length (c_log c1)) c n');
    [apply length_EventKey|done|by eapply cluster_run_ok| |done|done].
  eapply cluster_run_keeps; [apply length_EventKey|exact Huv|done|exact Hok1|done|done| | |exact Hr].
  - eapply Forall_impl; [exact Hx|]. intros t. by apply carries_expired.
  - split; [done|exact Hv| |exact Hq]. rewrite drop_all. apply not_elem_of_nil.
Qed.
End engine.
End cluster.

(** ** Runs *)
Import Toy.

#[export] Instance cmd_ok_dec cmd : Decision (cmd_ok cmd).
Proof. unfold cmd_ok. destruct (UnmarshalStoreBatchCmd cmd); apply _. Defined.

Abbreviation toy_cluster := (@cluster MapDB RoundRobinStrategy).
Abbreviation toy_cluster_run := (@cluster_run MapDB const_hash toy_index toy_protobuf RoundRobinStrategy
  key_order stopped_clock sample_producer_cfg sample_cfg NewRoundRobinStrategy).
Abbreviation toy_event := (@cluster_event MapDB toy_index).

Definition leads (n : Z) : leader_info := Some (Ok (n, true)).

(** Two nodes; node 1 leads, publishes and crashes back behind its last commit,
    node 2 takes over; node 3 joins with a snapshot of node 2, is restarted and
    applies the next entry. *)
Definition cluster_start : list toy_event :=
  [CStart 1 (∅ : gmap bytes bytes); CStart 2 (∅ : gmap bytes bytes);
   CPublish 1 (leads 1) sample_batch 100; CApply 1 5].
Definition cluster_rest : list toy_event :=
  [CRestart 1 1; CApply 2 1; CPublish 2 (leads 2) sample_batch 200; CSweep 2 300;
   CAck 2 "u" (EventKey 205 7 3) true; CFlush 2 true; CApply 2 2; CApply 1 1;
   CStart 3 (∅ : gmap bytes bytes); CInstall 3 2 None; CRestart 3 0;
   CPublish 2 (leads 2) sample_batch 400; CApply 3 1].

Definition cluster_a : toy_cluster := default new_cluster (toy_cluster_run new_cluster cluster_start).
Definition cluster_b : toy_cluster := default new_cluster (toy_cluster_run cluster_a cluster_rest).

(** That a run is possible is a boolean; the states themselves are large terms. *)
Lemma some_default {A} (o : option A) (d : A) :
  match o with Some _ => true | None => false end = true → o = Some (default d o).
Proof. by destruct o. Qed.

Lemma cluster_a_run : toy_cluster_run new_cluster cluster_start = Some cluster_a.
Proof. apply some_default. vm_compute. reflexivity. Qed.
Lemma cluster_b_run : toy_cluster_run cluster_a cluster_rest = Some cluster_b.
Proof. apply some_default. vm_compute. reflexivity. Qed.

Lemma log_ok_check log :
  bool_decide (Forall cmd_ok log) && bool_decide (log_total log < 2 ^ 64) = true → log_ok log.
Proof. by intros [?%bool_decide_eq_true ?%bool_decide_eq_true]%andb_true_iff. Qed.

Lemma cluster_b_fits : cluster_fits cluster_b.
Proof. split; [apply log_ok_check|]; vm_compute; reflexivity. Qed.

Definition node_of (c : toy_cluster) (n : Z) : option (@node MapDB RoundRobinStrategy) := c_nodes c !! n.

Lemma node_there (c : toy_cluster) n :
  match node_of c n with Some _ => true | None => false end = true → ∃ nd, c_nodes c !! n = Some nd.
Proof. unfold node_of. destruct (c_nodes c !! n); [eauto|done]. Qed.

Definition applied_of (c : toy_cluster) (n : Z) : Z :=
  from_option (λ nd : @node MapDB RoundRobinStrategy, lastApplied (n_sm nd)) 0 (node_of c n).

Lemma applied_eq (c : toy_cluster) n nd : c_nodes c !! n = Some nd → lastApplied (n_sm nd) = applied_of c n.
Proof. unfold applied_of, node_of. by intros ->. Qed.

Lemma queue_check (c : toy_cluster) k :
  bool_decide (map_Forall (λ (_ : Z) nd, k ∉ @n_queue MapDB RoundRobinStrategy nd) (c_nodes c)) = true →
  ∀ n nd, c_nodes c !! n = Some nd → k ∉ n_queue nd.
Proof. intros Hall%bool_decide_eq_true n nd Hn. by apply (Hall n nd). Qed.

Lemma map_no_get_fault d k e : @get_fault MapDB d k = Some e → errors_Is e PebbleErrNotFound = false.
Proof. done. Qed.

Lemma cluster_ab_run : toy_cluster_run new_cluster (cluster_start ++ cluster_rest) = Some cluster_b.
Proof. rewrite cluster_run_app, cluster_a_run. exact cluster_b_run. Qed.

Lemma cluster_ab_fresh : no_stale_apply ∅ (cluster_start ++ cluster_rest) = true.
Proof. by vm_compute. Qed.

(** The node that caught up with a snapshot has the counter of the log. *)
Lemma replicas_follow_log_witness :
  ∃ nd, c_nodes cluster_b !! 3 = Some nd ∧ lastID (repo (n_sm nd)) = 6.
Proof.
  destruct (node_there cluster_b 3 ltac:(vm_compute; reflexivity)) as [nd Hn]. exists nd. split; [done|].
  destruct (@replicas_follow_log MapDB const_hash toy_index toy_protobuf RoundRobinStrategy key_order
    stopped_clock sample_producer_cfg sample_cfg NewRoundRobinStrategy (λ _ _, eq_refl) eq_refl
    map_no_get_fault (cluster_start ++ cluster_rest) cluster_b 3 nd cluster_ab_run cluster_b_fits
    cluster_ab_fresh Hn) as (i & _ & Ha & _ & Hid & _).
  rewrite (applied_eq _ _ _ Hn) in Ha.
  assert (applied_of cluster_b 3 = 4) as E by (vm_compute; reflexivity). rewrite E in Ha.
  assert (i = 4%nat) as -> by lia. rewrite Hid; [vm_compute; reflexivity|].
  apply (bool_decide_unpack _). by vm_compute.
Defined.

Definition first_value : bytes := toy_bytes (to_stored 100 (pub "a" 5)).

Lemma cluster_no_message_lost_witness :
  ∃ nd, c_nodes cluster_b !! 3 = Some nd ∧
    @contents MapDB (db (n_sm nd)) !! EventKey 105 7 1 = Some first_value.
Proof.
  destruct (node_there cluster_b 3 ltac:(vm_compute; reflexivity)) as [nd Hn]. exists nd. split; [done|].
  apply (@cluster_no_message_lost MapDB const_hash toy_index toy_protobuf RoundRobinStrategy key_order
    stopped_clock sample_producer_cfg sample_cfg NewRoundRobinStrategy (λ _ _, eq_refl) eq_refl
    map_no_get_fault cluster_start cluster_rest cluster_a cluster_b (EventKey 105 7 1) first_value
    (to_stored 100 (pub "a" 5)) cluster_a_run cluster_b_run cluster_b_fits cluster_ab_fresh) with (n := 3).
  - done.
  - vm_compute. reflexivity.
  - vm_compute. reflexivity.
  - apply queue_check. vm_compute. reflexivity.
  - apply (bool_decide_unpack _). by vm_compute.
  - apply (bool_decide_unpack _). by vm_compute.
  - done.
  - rewrite (applied_eq _ _ _ Hn). by vm_compute.
Defined.

(** The same run, cut at the publication. *)
Definition cluster_0 : toy_cluster := default new_cluster (toy_cluster_run new_cluster (take 2 cluster_start)).
Definition cluster_1 : toy_cluster := default new_cluster (toy_cluster_run new_cluster (take 3 cluster_start)).

Lemma published_on_every_replica_witness :
  ∃ nd, c_nodes cluster_b !! 3 = Some nd ∧
    @stored_at const_hash toy_index toy_protobuf (@contents MapDB (db (n_sm nd))) Millisecond 100 (pub "b" 0) 2.
Proof.
  destruct (node_there cluster_b 3 ltac:(vm_compute; reflexivity)) as [nd Hn]. exists nd. split; [done|].
  apply (@published_on_every_replica MapDB const_hash toy_index toy_protobuf RoundRobinStrategy key_order
    stopped_clock sample_producer_cfg sample_cfg NewRoundRobinStrategy (λ _ _, eq_refl) eq_refl
    map_no_get_fault (take 2 cluster_start) (CApply 1 5 :: cluster_rest) cluster_0 cluster_1 cluster_b
    1 (leads 1) sample_batch 100 1 (pub "b" 0) 100) with (n' := 3).
  - apply some_default. vm_compute. reflexivity.
  - unfold cluster_1, cluster_0, cluster_start. cbn [take cluster_run].
    apply some_default. vm_compute. reflexivity.
  - change (CApply 1 5 :: cluster_rest) with ([CApply 1 5 : toy_event] ++ cluster_rest).
    rewrite cluster_run_app. pose proof cluster_a_run as Ha. rewrite <-(take_drop 3 cluster_start) in Ha.
    rewrite cluster_run_app, (some_default (toy_cluster_run _ _) new_cluster) in Ha by (vm_compute; reflexivity).
    change (toy_cluster_run cluster_1 [CApply 1 5] = Some cluster_a) in Ha. rewrite Ha. exact cluster_b_run.
  - exact cluster_b_fits.
  - exact cluster_ab_fresh.
  - apply sample_batch_ok.
  - intros items Hb.
    assert (items = default [] (match @build_items const_hash toy_index toy_protobuf
              sample_producer_cfg sample_batch 100 with Ok l => Some l | _ => None end)) as ->
      by (by rewrite Hb).
    split; [apply (bool_decide_unpack _)|]; by vm_compute.
  - done.
  - vm_compute. reflexivity.
  - apply queue_check. vm_compute. reflexivity.
  - apply (bool_decide_unpack _). by vm_compute.
  - apply (bool_decide_unpack _). by vm_compute.
  - done.
  - rewrite (applied_eq _ _ _ Hn). by vm_compute.
Defined.
