(* ===== verification/Runners.v ===== *)
(** * The background loops

    [Run] of the deleter, the dispatcher and the janitor
    ([src/internal/dispatcher/{deleter,dispatcher,janitor}.go]): a loop around a
    [select] of the cancelled context, a timer and, for the dispatcher, the
    wake-up channel.  A run is driven by the sequence of cases the [select]
    picks; what other goroutines do in between is part of the sequence.  When
    the sequence ends the loop is waiting, which is [OutOfFuel].
    [time.NewTicker] panics on an interval that is not positive. *)
From stdpp Require Import prelude gmap strings sorting.
From S2P Require Import Prelude Bytes Keys Storage Pebble Proto Repository EventCommands.
From S2P Require Import Hub Deleter Dispatcher Janitor.
Local Open Scope Z_scope.

(** ** The deleter *)
Section deleter_loop.
Context `{DeleteBackend}.

(** [flush] with the lock released around the backend call: [marks] are the keys
    other goroutines enqueue while the call runs. *)
Definition flush_during (marks : list bytes) (d : Deleter) : Deleter * list bytes :=
  if decide (length (pending d) = 0%nat) then (mkDeleter (backend d) (pending d ++ marks), [])
  else
    let keysToFlush := pending d in
    let d1 := mkDeleter (backend d) marks in
    match DeleteKeys (backend d) keysToFlush with
    | (be', Some _) => (mkDeleter be' (keysToFlush ++ pending d1), [])
    | (be', None) => (mkDeleter be' (pending d1), keysToFlush)
    end.

Lemma flush_during_nil d : flush_during [] d = flush d.
Proof. unfold flush_during, flush. case_decide; [rewrite app_nil_r; by destruct d|done]. Qed.

(** A round of the loop: other goroutines enqueue a key, the ticker fires, or the
    context is cancelled. *)
Inductive deleter_event :=
  | DelMark (key : bytes)
  | DelTick (marks : list bytes)
  | DelDone (marks : list bytes).

(** The second component collects the keys handed to OnDelete. *)
Fixpoint deleter_loop (evs : list deleter_event) (d : Deleter) (deleted : list bytes)
    : (Deleter * list bytes) * outcome () :=
  match evs with
  | [] => ((d, deleted), OutOfFuel)
  | DelMark key :: evs' => deleter_loop evs' (MarkDeleted key d) deleted
  | DelTick marks :: evs' =>
      let '(d', keys) := flush_during marks d in deleter_loop evs' d' (deleted ++ keys)
  | DelDone marks :: _ =>
      let '(d', keys) := flush_during marks d in ((d', deleted ++ keys), Ok ())
  end.

Definition Deleter_Run (interval : Z) (evs : list deleter_event) (d : Deleter)
    : (Deleter * list bytes) * outcome () :=
  if decide (0 < interval) then deleter_loop evs d [] else ((d, []), Panic).

(** The keys enqueued in the events the loop has consumed. *)
Fixpoint del_marks (evs : list deleter_event) : list bytes :=
  match evs with
  | [] => []
  | DelMark key :: evs' => key :: del_marks evs'
  | DelTick marks :: evs' => marks ++ del_marks evs'
  | DelDone marks :: _ => marks
  end.

(** What holds at any time, for the keys [ks] enqueued so far and the keys
    [out] reported. *)
Record loop_inv (m0 : gmap bytes bytes) (ks out : list bytes) (d : Deleter) : Prop := {
  lv_len : (length (pending d) ≤ length ks)%nat;
  lv_pending : pending d ⊆ ks;
  lv_out : out ⊆ ks;
  lv_gone : ∀ k, k ∈ out → ¬ be_private k → be_contents (backend d) !! k = None;
  lv_done : ∀ k, k ∈ ks → k ∈ pending d ∨ k ∈ out;
  lv_keep : ∀ k, k ∉ ks → ¬ be_private k → be_contents (backend d) !! k = m0 !! k;
}.

Lemma loop_inv_mark m0 ks out d marks :
  loop_inv m0 ks out d → loop_inv m0 (ks ++ marks) out (mkDeleter (backend d) (pending d ++ marks)).
Proof.
  intros [Hl Hp Ho Hg Hd Hk]. split; simpl; [rewrite !length_app; lia|set_solver..].
Qed.

(** Deleting keys leaves what is gone gone. *)
Lemma without_none m keys k : m !! k = None → without m keys !! k = None.
Proof. intros Hk. rewrite lookup_without. by case_decide. Qed.

Lemma loop_inv_flush m0 ks out d marks d' keys :
  fits ks → loop_inv m0 ks out d → flush_during marks d = (d', keys) →
  loop_inv m0 (ks ++ marks) (out ++ keys) d'.
Proof.
  intros Hfit Hi. unfold flush_during. case_decide as Hl0.
  { intros [= <- <-]. rewrite app_nil_r. by apply loop_inv_mark. }
  destruct Hi as [Hl Hp Ho Hg Hd Hk].
  assert (fits (pending d)) as Hf by (unfold fits, sizeof_slice, len in *; lia).
  assert (∀ k, k ∉ (ks ++ marks) → (k ∉ ks) ∧ k ∉ pending d) as Hnp.
  { intros k Hk'. rewrite elem_of_app in Hk'. split; [tauto|]. intros ?%Hp. tauto. }
  destruct (DeleteKeys (backend d) (pending d)) as [be' [e|]] eqn:E; intros [= <- <-].
  - pose proof (DeleteKeys_err _ _ _ _ Hf E) as Hc. rewrite app_nil_r.
    split; cbn; [rewrite !length_app; lia|set_solver +Hp|set_solver +Ho| | |].
    + intros k Hin Hpr. destruct Hc as [-> | Hc]; [by apply Hg|]. rewrite Hc by done. by apply without_none, Hg.
    + intros k Hin. rewrite elem_of_app in Hin |- *. specialize (Hd k). tauto.
    + intros k [Hin Hin']%Hnp Hpr. destruct Hc as [-> | Hc]; [by apply Hk|].
      rewrite Hc, lookup_without, decide_False by done. by apply Hk.
  - pose proof (DeleteKeys_ok _ _ _ Hf E) as Hc.
    split; cbn; [rewrite !length_app; lia|set_solver +|set_solver +Ho Hp| | |].
    + intros k [Hin|Hin]%elem_of_app Hpr; rewrite Hc by done; [by apply without_none, Hg|].
      rewrite lookup_without. by rewrite decide_True.
    + intros k Hin. rewrite elem_of_app in Hin |- *. specialize (Hd k). tauto.
    + intros k [Hin Hin']%Hnp Hpr. rewrite Hc, lookup_without, decide_False by done. by apply Hk.
Qed.

Lemma fits_app_l ks k : fits (ks ++ k) → fits ks.
Proof. unfold fits, sizeof_slice. rewrite len_app. pose proof (len_nonneg k). lia. Qed.

Lemma deleter_loop_inv m0 evs ks out d d' out' o :
  fits (ks ++ del_marks evs) → loop_inv m0 ks out d →
  deleter_loop evs d out = ((d', out'), o) → loop_inv m0 (ks ++ del_marks evs) out' d'.
Proof.
  revert ks out d. induction evs as [|[key|marks|marks] evs IH]; intros ks out d Hfit Hi; simpl in *.
  - intros [= <- <- <-]. by rewrite app_nil_r.
  - intros Hr. change (key :: del_marks evs) with ([key] ++ del_marks evs) in *.
    rewrite app_assoc in *. eapply IH; [done| |exact Hr]. by apply loop_inv_mark.
  - destruct (flush_during marks d) as [d1 keys] eqn:Hf. intros Hr.
    rewrite app_assoc in *. eapply IH; [done| |exact Hr].
    eapply loop_inv_flush; [|done|done]. by eapply fits_app_l, fits_app_l.
  - destruct (flush_during marks d) as [d1 keys] eqn:Hf. intros [= <- <- <-].
    eapply loop_inv_flush; [|done|done]. by eapply fits_app_l.
Qed.

(** With a positive interval, the loop keeps the promises of the backend: every
    enqueued key is pending or reported, and a reported key is gone unless it is
    one of the backend's own. *)
Lemma deleter_run_inv interval be evs d out o :
  0 < interval → fits (del_marks evs) → Deleter_Run interval evs (NewDeleter be) = ((d, out), o) →
  loop_inv (be_contents be) (del_marks evs) out d ∧ (o = Ok () ↔ ∃ marks, DelDone marks ∈ evs).
Proof.
  intros Hint Hfit Hr. unfold Deleter_Run in Hr. rewrite decide_True in Hr by done.
  assert (loop_inv (be_contents be) [] [] (NewDeleter be)) as Hi by (split; set_solver).
  apply (deleter_loop_inv (be_contents be) _ [] []) in Hr as Hinv; [|done..]. split; [done|].
  clear -Hr. revert Hr. generalize (NewDeleter be) ([] : list bytes).
  induction evs as [|[key|marks|marks] evs IH]; intros d0 out0; simpl.
  - intros [= <- <- <-]. split; [done|]. by intros [? ?%elem_of_nil].
  - intros Hr. rewrite (IH _ _ Hr). setoid_rewrite elem_of_cons. naive_solver.
  - destruct (flush_during marks d0) as [d1 keys]. intros Hr. rewrite (IH _ _ Hr).
    setoid_rewrite elem_of_cons. naive_solver.
  - destruct (flush_during marks d0) as [d1 keys]. intros [= <- <- <-]. split; [|done].
    intros _. exists marks. left.
Qed.

(** A key that nobody enqueues is as safe as one call of the backend leaves it. *)
Lemma deleter_loop_frame k evs d out :
  (∀ b keys, k ∉ keys → be_contents (DeleteKeys b keys).1 !! k = be_contents b !! k) →
  k ∉ pending d → k ∉ del_marks evs →
  be_contents (backend (deleter_loop evs d out).1.1) !! k = be_contents (backend d) !! k.
Proof.
  intros Hframe. assert (∀ marks d0, k ∉ pending d0 → k ∉ marks →
    (k ∉ pending (flush_during marks d0).1) ∧
    be_contents (backend (flush_during marks d0).1) !! k = be_contents (backend d0) !! k) as Hflush.
  { intros marks d0 Hp Hm. unfold flush_during. case_decide; [simpl; set_solver|].
    pose proof (Hframe (backend d0) (pending d0) Hp) as E.
    destruct (DeleteKeys (backend d0) (pending d0)) as [be' [e|]]; simpl in *; set_solver. }
  revert d out. induction evs as [|[key|marks|marks] evs IH]; intros d out Hp Hm; cbn [del_marks deleter_loop] in *.
  - done.
  - apply not_elem_of_cons in Hm as [Hk Hm]. rewrite IH; [done|simpl; set_solver|done].
  - apply not_elem_of_app in Hm as [Hk Hm]. destruct (Hflush marks d Hp Hk) as [Hp' E].
    destruct (flush_during marks d) as [d1 keys]. simpl in *. by rewrite IH.
  - destruct (Hflush marks d Hp Hm) as [_ E]. by destruct (flush_during marks d) as [d1 keys].
Qed.
End deleter_loop.

(** C27. The loop of a standalone node's deleter loses no key.  With a positive
    interval, whatever is enqueued, before, between or during flushes, and
    whichever batches are refused and commits fail: every enqueued key is still
    pending or has been reported as deleted; a reported key is gone from the
    store, if it is a key whose deletion the engine puts into a batch (a refusal
    is only logged by [DeleteKeys]); only enqueued keys are pending or reported,
    and every other key keeps its value.  The loop returns exactly when the
    context is cancelled. *)
Theorem deleter_loop_safe {DBi : DB} interval (store : db_t) evs (d : @Deleter any_direct_backend) out o :
  0 < interval → fits (del_marks evs) →
  @Deleter_Run any_direct_backend interval evs (@NewDeleter any_direct_backend store) = ((d, out), o) →
  let store' : db_t := backend d in
  pending d ⊆ del_marks evs ∧ out ⊆ del_marks evs ∧
  (∀ k, k ∈ del_marks evs → k ∈ pending d ∨ k ∈ out) ∧
  (∀ k, k ∈ out → (∀ b, batch_fault b (OpDelete k) = None) → contents store' !! k = None) ∧
  (∀ k, k ∉ del_marks evs → contents store' !! k = contents store !! k) ∧
  (o = Ok () ↔ ∃ marks, DelDone marks ∈ evs).
Proof.
  intros Hint Hfit Hr store'.
  destruct (deleter_run_inv _ _ _ _ _ _ Hint Hfit Hr) as [[_ Hp Ho Hg Hd Hk] Hdone].
  assert (∀ k, (∀ b, batch_fault b (OpDelete k) = None) → ¬ refused k) as Hr'
    by (intros k Hb (b & e & E); by rewrite Hb in E).
  split_and!; try done; [intros k Hin Hb; by apply (Hg k), Hr'|].
  intros k Hk'. unfold Deleter_Run in Hr. rewrite decide_True in Hr by done.
  pose proof (@deleter_loop_frame any_direct_backend k evs (@NewDeleter any_direct_backend store) []
    (direct_DeleteKeys_frame k) (not_elem_of_nil k) Hk') as E. by rewrite Hr in E.
Qed.

Definition sample_deletes : (@Deleter (@any_direct_backend MapDB) * list bytes) * outcome () :=
  Deleter_Run 500 [DelMark (of_str "k"); DelTick [of_str "j"]; DelDone []]
    (@NewDeleter (@any_direct_backend MapDB) one_key).

Lemma deleter_loop_safe_witness :
  sample_deletes.1.2 = [of_str "k"; of_str "j"] ∧ pending sample_deletes.1.1 = [] ∧ sample_deletes.2 = Ok () ∧
  @contents MapDB (backend sample_deletes.1.1) !! of_str "k" = None.
Proof.
  split; [by vm_compute|].
  edestruct (@deleter_loop_safe MapDB 500 one_key
    [DelMark (of_str "k"); DelTick [of_str "j"]; DelDone []]) as (_ & _ & _ & Hgone & _ & Hdone);
    [done|by vm_compute|exact (eq_trans (surjective_pairing _) (f_equal (λ p, (p, _)) (surjective_pairing _)))|].
  split_and!; [by vm_compute| |].
  - apply Hdone. exists []. by right; right; left.
  - apply (Hgone (of_str "k")); [left|done].
Defined.

(** ** The dispatcher *)
Section dispatch_loop.
Context `{XXHash} `{Protobuf} `{DB} `{DispatchStrategy} `{MapRange} `{DeleteBackend} `{Clock}.
Context (cfg : dispatch_config) (interval : Z).

(** What happens around the loop: the context is cancelled, a case of the
    [select] is ready ([nh] and [store] are what the pass finds), another
    goroutine changes the hub or the deleter, or a key leaves the in-flight
    map. *)
Inductive run_event :=
  | RunDone
  | RunWake (nh : leader_info) (store : db_t)
  | RunTimer (nh : leader_info) (store : db_t)
  | RunHub (f : Hub → Hub)
  | RunDeleter (f : Deleter → Deleter)
  | RunRemove (key : bytes).

(** The dispatcher, the duration the timer is set to, and the results of the
    passes so far. *)
Record runner := mkRunner {
  rn_disp : Dispatcher;
  rn_timer : Z;
  rn_counts : list Z;
}.

Definition on_disp (f : Dispatcher → Dispatcher) (r : runner) : runner :=
  mkRunner (f (rn_disp r)) (rn_timer r) (rn_counts r).

(** A pass, and the timer set from its result. *)
Definition run_pass (nh : leader_info) (store : db_t) (reset : Z → Z) (r : runner)
    : runner * outcome bool :=
  match dispatchAll cfg store nh (rn_disp r) with
  | (d', Ok dispatched) => (mkRunner d' (reset dispatched) (rn_counts r ++ [dispatched]), Ok true)
  | (d', Err e) => (on_disp (λ _, d') r, Err e)
  | (d', Panic) => (on_disp (λ _, d') r, Panic)
  | (d', OutOfFuel) => (on_disp (λ _, d') r, OutOfFuel)
  end.

(** One round of the loop; the result says whether it goes on.  The wake case
    is ready only when a signal is pending, and takes it. *)
Definition run_case (ev : run_event) (r : runner) : runner * outcome bool :=
  match ev with
  | RunDone => (r, Ok false)
  | RunWake nh store =>
      if wakeCh (d_hub (rn_disp r))
      then run_pass nh store (λ _, interval) (on_disp (on_hub (set_wake false)) r)
      else (r, Ok true)
  | RunTimer nh store =>
      run_pass nh store (λ dispatched, if decide (0 < dispatched) then 0 else interval) r
  | RunHub f => (on_disp (on_hub f) r, Ok true)
  | RunDeleter f => (on_disp (on_deleter f) r, Ok true)
  | RunRemove key => (on_disp (RemoveInFlight key) r, Ok true)
  end.

(** [Run] *)
Fixpoint Dispatcher_Run (evs : list run_event) (r : runner) : runner * outcome () :=
  match evs with
  | [] => (r, OutOfFuel)
  | ev :: evs' =>
      match run_case ev r with
      | (r', Ok true) => Dispatcher_Run evs' r'
      | (r', Ok false) => (r', Ok ())
      | (r', Err e) => (r', Err e)
      | (r', Panic) => (r', Panic)
      | (r', OutOfFuel) => (r', OutOfFuel)
      end
  end.

(** The loop as it starts. *)
Definition NewRunner (d : Dispatcher) : runner := mkRunner d interval [].

(** *** A pass does not fail *)
Lemma dispatchTopic_ok store topic nowMs d :
  valid_bucket_size (cfg_bucketSize cfg) → is_i64 nowMs →
  ∃ d' n, dispatchTopic cfg store topic nowMs d = (d', Ok n).
Proof.
  intros Hv Hn. rewrite (dispatchTopic_eq _ _ _ _ _ _ (CalculateBucket_valid _ _ Hn Hv)).
  destruct (run_pairs _ _ _ _) as [[d1 n] ex]. eauto.
Qed.

(** What holds of the state and the count of every topic's scan holds of the
    pass. *)
Lemma dispatch_topics_ind (R : Dispatcher → Dispatcher → Z → Prop) store topics nowMs total d d' n :
  (∀ d, R d d 0) →
  (∀ d1 d2 d3 n1 n2, R d1 d2 n1 → R d2 d3 n2 → R d1 d3 (n1 + n2)) →
  (∀ t d d' n, t ∈ topics → dispatchTopic cfg store t nowMs d = (d', Ok n) → R d d' n) →
  dispatch_topics cfg store topics nowMs total d = (d', Ok n) → R d d' (n - total).
Proof.
  intros Hr Ht. revert total d. induction topics as [|t ts IH]; intros total d Hs; simpl.
  { intros [= <- <-]. rewrite Z.sub_diag. apply Hr. }
  unfold mbind, st_bind. destruct (dispatchTopic cfg store t nowMs d) as [d1 [n1|e| |]] eqn:E; try done.
  intros Hd. apply IH in Hd; [|intros; eapply Hs; [by right|done]].
  replace (n - total) with (n1 + (n - (total + n1))) by lia.
  eapply Ht, Hd. eapply Hs; [left|done].
Qed.

Lemma dispatch_topics_ok store topics nowMs total d :
  valid_bucket_size (cfg_bucketSize cfg) → is_i64 nowMs →
  ∃ d' n, dispatch_topics cfg store topics nowMs total d = (d', Ok n).
Proof.
  intros Hv Hn. revert total d. induction topics as [|t ts IH]; intros total d; simpl; [by eexists _, _|].
  unfold mbind, st_bind. destruct (dispatchTopic_ok store t nowMs d Hv Hn) as (d1 & n1 & ->). apply IH.
Qed.

(** The readings of the clock are int64 milliseconds. *)
Definition clock_ok : Prop := ∀ n, is_i64 (UnixMilli (now_ns n)).

Lemma dispatchAll_ok store nh d :
  valid_bucket_size (cfg_bucketSize cfg) → clock_ok →
  ∃ d' n, dispatchAll cfg store nh d = (d', Ok n).
Proof.
  intros Hv Hc. unfold dispatchAll. repeat case_match; try by eexists _, _.
  apply dispatch_topics_ok; [done|apply Hc].
Qed.

(** What holds of every topic's scan holds of the pass. *)
Lemma dispatchAll_ind (R : Dispatcher → Dispatcher → Z → Prop) store nh d d' n :
  (∀ d, R d d 0) →
  (∀ d1 d2 d3 n1 n2, R d1 d2 n1 → R d2 d3 n2 → R d1 d3 (n1 + n2)) →
  (∀ j, R d (mkDispatcher (add_ticks 1 (d_hub d)) (d_deleter d) (inFlight d) (j + d_tick d)) 0) →
  (∀ t d1 d2 n, dispatchTopic cfg store t (UnixMilli (now_ns (d_tick d))) d1 = (d2, Ok n) → R d1 d2 n) →
  dispatchAll cfg store nh d = (d', Ok n) → R d d' n.
Proof.
  intros Hr Ht Hs Htopic. unfold dispatchAll.
  destruct (negb _); [intros [= <- <-]; apply Hr|]. destruct (negb _); [intros [= <- <-]; apply Hr|].
  simpl. case_decide; [intros [= <- <-]; apply (Hs 0%nat)|]. intros Hd.
  apply (dispatch_topics_ind R) in Hd; [|done|done|by intros; eapply Htopic].
  replace n with (0 + (n - 0)) by lia. eapply Ht; [apply (Hs 1%nat)|exact Hd].
Qed.

(** *** A key goes out once per timeout

    [fresh t0 T F d]: the keys [F] are in flight since a reading of the clock
    between [t0] and [T]; [calm t0 T]: the readings in that window are less
    than the timeout apart. *)
Definition fresh (t0 T : nat) (F : gset bytes) (d : Dispatcher) : Prop :=
  ∀ k, k ∈ F → ∃ n tp, (t0 ≤ n < T)%nat ∧ inFlight d !! k = Some (mkInFlight (now_ns n) tp).

Definition calm (t0 T : nat) : Prop :=
  ∀ m n, (t0 ≤ m < T)%nat → (t0 ≤ n < T)%nat → now_ns n - now_ns m < inFlightTimeout cfg.

(** [n] keys of [K] went out between [d] and [d'] that were not fresh. *)
Definition charged (t0 T : nat) (K : gset bytes) (d d' : Dispatcher) (n : Z) : Prop :=
  (d_tick d ≤ d_tick d')%nat ∧
  ((t0 ≤ d_tick d)%nat → (d_tick d' ≤ T)%nat → ∀ F, F ⊆ K → fresh t0 T F d →
   ∃ F', F' ⊆ K ∧ fresh t0 T F' d' ∧ Z.of_nat (size F) + n ≤ Z.of_nat (size F')).

Lemma charged_same t0 T K d d' :
  inFlight d' = inFlight d → (d_tick d ≤ d_tick d')%nat → charged t0 T K d d' 0.
Proof.
  intros E Hle. split; [done|]. intros _ _ F HF Hf. exists F. split_and!; [done| |lia].
  intros k Hk. rewrite E. by apply Hf.
Qed.

Lemma charged_trans t0 T K d1 d2 d3 n1 n2 :
  charged t0 T K d1 d2 n1 → charged t0 T K d2 d3 n2 → charged t0 T K d1 d3 (n1 + n2).
Proof.
  intros [Hl1 Hc1] [Hl2 Hc2]. split; [lia|]. intros Ht HT F HF Hf.
  destruct (Hc1 ltac:(lia) ltac:(lia) F HF Hf) as (F1 & HF1 & Hf1 & Hs1).
  destruct (Hc2 ltac:(lia) ltac:(lia) F1 HF1 Hf1) as (F2 & HF2 & Hf2 & Hs2).
  exists F2. split_and!; [done..|lia].
Qed.

(** A key the tracker lets through is not fresh, and the others stay fresh. *)
Lemma isInFlight_fresh t0 T F k d d1 b :
  calm t0 T → (t0 ≤ d_tick d)%nat → (d_tick d1 ≤ T)%nat → fresh t0 T F d →
  isInFlight cfg k d = (d1, b) → (d_tick d ≤ d_tick d1)%nat ∧ fresh t0 T F d1 ∧ (b = false → k ∉ F).
Proof.
  intros Hcalm Ht HT Hf. unfold isInFlight. destruct (inFlight d !! k) as [e|] eqn:He.
  - case_decide as Hd; intros [= <- <-]; simpl in *; [by split_and!; [lia|..]|].
    assert (k ∉ F) as Hk.
    { intros (n & tp & Hn & E)%Hf. rewrite He in E. injection E as ->. apply Hd. simpl. apply Hcalm; lia. }
    split_and!; [lia| |done]. intros k' Hk'. simpl. rewrite lookup_delete_ne by congruence. by apply Hf.
  - intros [= <- <-]. split_and!; [done..|]. intros _ (n & tp & _ & E)%Hf. congruence.
Qed.

Lemma isInFlight_tick k d : (d_tick d ≤ d_tick (isInFlight cfg k d).1)%nat.
Proof. unfold isInFlight. repeat case_split_eq; simpl; lia. Qed.

Lemma dispatch_one_charged t0 T K topic nowMs s k v :
  calm t0 T → k ∈ K →
  charged t0 T K s.1.1 (dispatch_one cfg topic nowMs s k v).1.1
    ((dispatch_one cfg topic nowMs s k v).1.2 - s.1.2).
Proof.
  intros Hcalm Hk. split; [apply dispatch_one_frame|]. intros Ht HT F HF Hf.
  destruct s as [[d n] ex]. unfold dispatch_one in *. simpl in Ht, Hf.
  destruct (isInFlight cfg k d) as [d1 b] eqn:Eb.
  assert (∀ x, (d_tick d1 ≤ x)%nat → (x ≤ T)%nat → fresh t0 T F d1 ∧ (b = false → k ∉ F)) as Hin.
  { intros x Hx HxT. by destruct (isInFlight_fresh t0 T F k d d1 b Hcalm Ht ltac:(lia) Hf Eb). }
  assert (fresh t0 T F d1 → ∃ F', F' ⊆ K ∧ fresh t0 T F' d1 ∧ Z.of_nat (size F) + (n - n) ≤ Z.of_nat (size F'))
    as Hsame by (exists F; split_and!; [done..|lia]).
  destruct b; [by apply Hsame, (Hin (d_tick d1))|].
  destruct (Unmarshal v) as [msg|e| |]; try (by apply Hsame, (Hin (d_tick d1))).
  destruct (isExpired msg nowMs); [by apply Hsame, (Hin (d_tick d1))|].
  destruct (DispatchToTopic _ _ _ _) as [h' sent]. case_decide as Hs; simpl in *.
  - destruct (Hin (S (d_tick d1))) as [Hf1 Hnk]; [lia|done|].
    exists ({[k]} ∪ F). split_and!; [set_solver| |rewrite size_union, size_singleton by (specialize (Hnk eq_refl); set_solver); lia].
    intros k' Hk'. simpl. destruct (decide (k' = k)) as [->|Hne].
    + rewrite lookup_insert_eq. exists (d_tick d1), topic. split; [|done].
      pose proof (isInFlight_tick k d) as Hle. rewrite Eb in Hle. simpl in Hle. lia.
    + rewrite lookup_insert_ne by done. apply Hf1. set_solver.
  - exists F. destruct (Hin (d_tick d1)) as [Hf1 _]; [lia|done|]. split_and!; [done..|lia].
Qed.

Lemma run_pairs_charged t0 T K topic nowMs s l :
  calm t0 T → (∀ p, p ∈ l → p.1 ∈ K) →
  charged t0 T K s.1.1 (run_pairs cfg topic nowMs s l).1.1 ((run_pairs cfg topic nowMs s l).1.2 - s.1.2).
Proof.
  intros Hcalm. unfold run_pairs. induction l as [|[k v] l IH] in s |- *; intros Hl; simpl.
  { rewrite Z.sub_diag. by apply charged_same. }
  specialize (IH (dispatch_one cfg topic nowMs s k v) ltac:(set_solver)).
  pose proof (dispatch_one_charged t0 T K topic nowMs s k v Hcalm (Hl (k, v) ltac:(left))) as Hone.
  pose proof (charged_trans _ _ _ _ _ _ _ _ Hone IH) as Hc. by eapply eq_rect; [exact Hc|lia].
Qed.

Lemma dispatchTopic_charged t0 T K store topic nowMs d d' n :
  calm t0 T → dom (contents store) ⊆ K →
  dispatchTopic cfg store topic nowMs d = (d', Ok n) → charged t0 T K d d' n.
Proof.
  intros Hcalm HK. destruct (CalculateBucket nowMs (cfg_bucketSize cfg)) as [nb|e| |] eqn:Hb.
  2-4: unfold dispatchTopic; rewrite Hb; done.
  rewrite (dispatchTopic_eq _ _ _ _ _ _ Hb). set (l := iter_pairs _ _).
  assert (∀ p, p ∈ l → p.1 ∈ K) as Hl.
  { intros [k v] [Hkv _]%iter_pairs_elem. apply HK, elem_of_dom. by exists v. }
  pose proof (run_pairs_charged t0 T K topic nowMs (d, 0, []) l Hcalm Hl) as Hc.
  destruct (run_pairs _ _ _ _ _) as [[d1 m] ex]. intros [= <- <-]. simpl in Hc.
  rewrite Z.sub_0_r in Hc. exact Hc.
Qed.

Lemma dispatchAll_charged t0 T K store nh d d' n :
  calm t0 T → dom (contents store) ⊆ K →
  dispatchAll cfg store nh d = (d', Ok n) → charged t0 T K d d' n.
Proof.
  intros Hcalm HK. apply (dispatchAll_ind (charged t0 T K)).
  - intros. by apply charged_same.
  - apply charged_trans.
  - intros j. apply charged_same; simpl; [done|lia].
  - intros t d1 d2 m. by apply dispatchTopic_charged.
Qed.
(** The counts are counts. *)
Lemma dispatch_one_count topic nowMs s k v : s.1.2 ≤ (dispatch_one cfg topic nowMs s k v).1.2.
Proof.
  destruct s as [[d n] ex]. unfold dispatch_one. repeat case_split_eq; simpl; lia.
Qed.

Lemma run_pairs_count topic nowMs s l : s.1.2 ≤ (run_pairs cfg topic nowMs s l).1.2.
Proof.
  unfold run_pairs. induction l as [|[k v] l IH] in s |- *; simpl; [done|].
  etrans; [apply dispatch_one_count|apply IH].
Qed.

Lemma dispatchTopic_count store topic nowMs d d' n :
  dispatchTopic cfg store topic nowMs d = (d', Ok n) → 0 ≤ n.
Proof.
  destruct (CalculateBucket nowMs (cfg_bucketSize cfg)) as [nb|e| |] eqn:Hb.
  2-4: unfold dispatchTopic; rewrite Hb; done.
  rewrite (dispatchTopic_eq _ _ _ _ _ _ Hb). set (l := iter_pairs _ _).
  pose proof (run_pairs_count topic nowMs (d, 0, []) l) as Hc.
  destruct (run_pairs _ _ _ _ _) as [[d1 m] ex]. by intros [= <- <-].
Qed.

Lemma dispatchAll_count store nh d d' n : dispatchAll cfg store nh d = (d', Ok n) → 0 ≤ n.
Proof.
  apply (dispatchAll_ind (λ _ _ n, 0 ≤ n)); intros; try lia. by eapply dispatchTopic_count.
Qed.

(** *** The loop *)
Definition ev_keys (ev : run_event) : gset bytes :=
  match ev with RunWake _ store | RunTimer _ store => dom (contents store) | _ => ∅ end.

Definition removes (evs : list run_event) : nat :=
  length (omap (λ ev, match ev with RunRemove k => Some k | _ => None end) evs).

Lemma removes_cons ev evs : removes (ev :: evs) = (removes [ev] + removes evs)%nat.
Proof. by destruct ev. Qed.

Definition total (l : list Z) : Z := foldr Z.add 0 l.

Lemma total_app l l' : total (l ++ l') = total l + total l'.
Proof. unfold total. induction l as [|x l IH]; simpl; [done|]. rewrite IH. lia. Qed.

Lemma total_positive l :
  Forall (Z.le 0) l → Z.of_nat (length (filter (λ n, 0 < n) l)) ≤ total l.
Proof.
  induction 1 as [|x l Hx Hl IH]; [done|]. rewrite filter_cons. simpl.
  case_decide; simpl; lia.
Qed.

Lemma RemoveInFlight_charged t0 T K key d : charged t0 T K d (RemoveInFlight key d) (-1).
Proof.
  split; [done|]. intros _ _ F HF Hf. exists (F ∖ {[key]}). split_and!; [set_solver| |].
  - intros k Hk. simpl. rewrite lookup_delete_ne by set_solver. apply Hf. set_solver.
  - assert (size F ≤ size (F ∖ {[key]}) + 1)%nat; [|lia].
    rewrite <-(size_singleton (C := gset bytes) key). rewrite <-size_union by set_solver.
    apply subseteq_size. intros k. destruct (decide (k = key)); set_solver.
Qed.

Lemma charged_le t0 T K d d' n n' : n' ≤ n → charged t0 T K d d' n → charged t0 T K d d' n'.
Proof.
  intros Hn [Hl Hc]. split; [done|]. intros Ht HT F HF Hf.
  destruct (Hc Ht HT F HF Hf) as (F' & HF' & Hf' & Hs). exists F'. split_and!; [done..|lia].
Qed.

Lemma run_pass_ok nh store reset r :
  valid_bucket_size (cfg_bucketSize cfg) → clock_ok →
  ∃ d' n, run_pass nh store reset r = (mkRunner d' (reset n) (rn_counts r ++ [n]), Ok true) ∧
    dispatchAll cfg store nh (rn_disp r) = (d', Ok n).
Proof.
  intros Hv Hc. unfold run_pass. destruct (dispatchAll_ok store nh (rn_disp r) Hv Hc) as (d' & n & ->).
  eauto.
Qed.

Definition is_done (ev : run_event) : bool := match ev with RunDone => true | _ => false end.

(** What the rounds between [r] and [r'] did: the counts they added, and the keys
    they account for. *)
Definition rounds_charged (t0 T : nat) (K : gset bytes) (evs : list run_event) (r r' : runner) : Prop :=
  ∃ new, rn_counts r' = rn_counts r ++ new ∧ Forall (Z.le 0) new ∧
    charged t0 T K (rn_disp r) (rn_disp r') (total new - Z.of_nat (removes evs)).

Lemma rounds_charged_nil t0 T K evs r : rounds_charged t0 T K evs r r.
Proof.
  exists []. rewrite app_nil_r. split_and!; [done..|]. eapply charged_le; [|by apply charged_same].
  unfold total. cbn [foldr]. lia.
Qed.

Lemma rounds_charged_trans t0 T K ev evs r1 r2 r3 :
  rounds_charged t0 T K [ev] r1 r2 → rounds_charged t0 T K evs r2 r3 →
  rounds_charged t0 T K (ev :: evs) r1 r3.
Proof.
  intros (n1 & E1 & Hn1 & Hc1) (n2 & E2 & Hn2 & Hc2). exists (n1 ++ n2).
  rewrite E2, E1, app_assoc. split_and!; [done|by apply Forall_app|].
  eapply charged_le, (charged_trans _ _ _ _ _ _ _ _ Hc1 Hc2).
  rewrite total_app, (removes_cons ev evs). lia.
Qed.

Lemma rounds_charged_quiet t0 T K ev f r :
  (∀ d, charged t0 T K d (f d) (- Z.of_nat (removes [ev]))) → rounds_charged t0 T K [ev] r (on_disp f r).
Proof.
  intros Hf. exists []. rewrite app_nil_r. split_and!; [done..|]. apply Hf.
Qed.

Lemma run_pass_charged t0 T K ev nh store reset r r' :
  calm t0 T → dom (contents store) ⊆ K → run_pass nh store reset r = (r', Ok true) →
  rounds_charged t0 T K [ev] r r'.
Proof.
  intros Hcalm HK. unfold run_pass.
  destruct (dispatchAll _ _ _ _) as [d1 [n|e| |]] eqn:Hd; intros [= <-].
  exists [n]. split_and!; [done| |].
  - constructor; [by eapply dispatchAll_count|done].
  - eapply charged_le; [|by eapply dispatchAll_charged]. unfold total. cbn [foldr]. lia.
Qed.

Lemma run_case_charged t0 T K ev r :
  valid_bucket_size (cfg_bucketSize cfg) → clock_ok → calm t0 T → ev_keys ev ⊆ K →
  ∃ r', run_case ev r = (r', Ok (negb (is_done ev))) ∧ rounds_charged t0 T K [ev] r r'.
Proof.
  intros Hv Hck Hcalm HK. destruct ev as [|nh store|nh store|f|f|key]; simpl.
  - eexists. split; [done|]. apply rounds_charged_nil.
  - destruct (wakeCh _); [|eexists; split; [done|]; apply rounds_charged_nil].
    destruct (run_pass_ok nh store (λ _, interval) (on_disp (on_hub (set_wake false)) r) Hv Hck)
      as (d' & n & Hp & _). rewrite Hp. eexists. split; [done|].
    by apply (run_pass_charged t0 T K (RunWake nh store)) in Hp.
  - edestruct (run_pass_ok nh store) as (d' & n & Hp & _); [done..|]. rewrite Hp.
    eexists. split; [done|]. by eapply run_pass_charged.
  - eexists. split; [done|]. apply rounds_charged_quiet. intros d. by apply charged_same.
  - eexists. split; [done|]. apply rounds_charged_quiet. intros d. by apply charged_same.
  - eexists. split; [done|]. apply rounds_charged_quiet. intros d. apply RemoveInFlight_charged.
Qed.

Lemma Dispatcher_Run_charged t0 T K evs r :
  valid_bucket_size (cfg_bucketSize cfg) → clock_ok → calm t0 T →
  (∀ ev, ev ∈ evs → ev_keys ev ⊆ K) →
  ∃ r', Dispatcher_Run evs r = (r', if existsb is_done evs then Ok () else OutOfFuel) ∧
    rounds_charged t0 T K evs r r'.
Proof.
  intros Hv Hck Hcalm. revert r. induction evs as [|ev evs IH]; intros r HK; simpl.
  { eexists. split; [done|]. apply rounds_charged_nil. }
  destruct (run_case_charged t0 T K ev r Hv Hck Hcalm (HK ev ltac:(left))) as (r1 & -> & Hc).
  destruct (is_done ev); simpl.
  - eexists. split; [done|]. eapply rounds_charged_trans; [done|apply rounds_charged_nil].
  - destruct (IH r1 ltac:(set_solver)) as (r' & -> & Hc'). eexists. split; [done|].
    by eapply rounds_charged_trans.
Qed.

(** What the timer is set to after each round that makes a pass. *)
Fixpoint pass_timers (evs : list run_event) (r : runner) : list Z :=
  match evs with
  | [] => []
  | ev :: evs' =>
      match run_case ev r with
      | (r', Ok go) =>
          (if decide (length (rn_counts r) < length (rn_counts r'))%nat then [rn_timer r'] else []) ++
          (if go : bool then pass_timers evs' r' else [])
      | _ => []
      end
  end.

(** A round keeps the timer, or it makes a pass that hands out [n] messages and
    sets the timer to the interval, or to zero when [n] is positive. *)
Lemma run_case_timer ev r r' go :
  run_case ev r = (r', Ok go) →
  (rn_counts r' = rn_counts r ∧ rn_timer r' = rn_timer r) ∨
  ∃ n, rn_counts r' = rn_counts r ++ [n] ∧ (rn_timer r' = interval ∨ (rn_timer r' = 0 ∧ 0 < n)).
Proof.
  assert (∀ nh store reset r0, run_pass nh store reset r0 = (r', Ok go) → rn_counts r0 = rn_counts r →
    (∀ n, reset n = interval ∨ (reset n = 0 ∧ 0 < n)) →
    ∃ n, rn_counts r' = rn_counts r ++ [n] ∧ (rn_timer r' = interval ∨ (rn_timer r' = 0 ∧ 0 < n))) as Hpass.
  { intros nh store reset r0 Hp <- Hres. unfold run_pass in Hp.
    destruct (dispatchAll _ _ _ _) as [d' [n|e| |]]; simplify_eq/=. exists n. split; [done|apply Hres]. }
  destruct ev as [|nh store|nh store|f|f|key]; simpl; try (intros [= <- _]; by left).
  - destruct (wakeCh _); [|intros [= <- _]; by left]. intros Hp. right. by eapply Hpass; [exact Hp|..|by left].
  - intros Hp. right. eapply Hpass; [exact Hp|done|]. intros n. cbv beta. case_decide; auto.
Qed.

Lemma run_counts evs r r' o :
  Dispatcher_Run evs r = (r', o) →
  (∀ ev r1, ev ∈ evs → ∃ r2, run_case ev r1 = (r2, Ok (negb (is_done ev)))) →
  ∃ new, rn_counts r' = rn_counts r ++ new.
Proof.
  revert r. induction evs as [|ev evs IH]; intros r Hr Hok; simpl in Hr.
  { injection Hr as <- _. exists []. by rewrite app_nil_r. }
  destruct (Hok ev r ltac:(left)) as [r1 Hc]. rewrite Hc in Hr.
  assert (∃ n1, rn_counts r1 = rn_counts r ++ n1) as [n1 E1].
  { apply run_case_timer in Hc as [[-> _]|(n & -> & _)]; [exists []; by rewrite app_nil_r|by eexists]. }
  destruct (negb (is_done ev)); [|injection Hr as <- _; by exists n1].
  destruct (IH r1 Hr) as [n2 ->]; [intros; apply Hok; by right|]. exists (n1 ++ n2). by rewrite E1, app_assoc.
Qed.

Lemma run_timers evs r r' o new :
  Dispatcher_Run evs r = (r', o) → o = Ok () ∨ o = OutOfFuel → rn_counts r' = rn_counts r ++ new →
  (∀ ev r1, ev ∈ evs → ∃ r2, run_case ev r1 = (r2, Ok (negb (is_done ev)))) →
  Forall2 (λ n t, t = interval ∨ (t = 0 ∧ 0 < n)) new (pass_timers evs r) ∧
  rn_timer r' = default (rn_timer r) (last (pass_timers evs r)).
Proof.
  intros Hr Ho Hnew Hok. revert r new Hr Hnew. induction evs as [|ev evs IH]; intros r new Hr Hnew; simpl in *.
  { injection Hr as <- _. rewrite <-(app_nil_r (rn_counts r)) in Hnew at 1. apply app_inv_head in Hnew as <-. by split. }
  destruct (Hok ev r ltac:(left)) as [r1 Hc]. rewrite Hc in Hr |- *.
  assert (∃ new2, rn_counts r' = rn_counts r1 ++ new2 ∧
    Forall2 (λ n t, t = interval ∨ (t = 0 ∧ 0 < n)) new2
      (if negb (is_done ev) then pass_timers evs r1 else []) ∧
    rn_timer r' = default (rn_timer r1) (last (if negb (is_done ev) then pass_timers evs r1 else [])))
    as (new2 & E2 & Hf & Ht).
  { destruct (negb (is_done ev)).
    - destruct (run_counts evs r1 r' o Hr) as [new2 E2]; [intros; apply Hok; by right|].
      exists new2. split; [done|]. apply IH; [intros; apply Hok; by right|done|done].
    - simplify_eq. exists []. rewrite app_nil_r. by split. }
  apply run_case_timer in Hc as [[Ec Et]|(n & Ec & Et)]; rewrite Ec in *.
  - rewrite decide_False by lia. simpl. rewrite Hnew in E2. apply app_inv_head in E2 as ->.
    split; [done|]. by rewrite Ht, Et.
  - rewrite length_app, decide_True by (simpl; lia). rewrite Hnew, <-app_assoc in E2.
    apply app_inv_head in E2 as ->. simpl. split; [by constructor|]. rewrite Ht, last_cons.
    by destruct (last _).
Qed.

Lemma zero_resets new timers :
  0 < interval → Forall2 (λ n t, t = interval ∨ (t = 0 ∧ 0 < n)) new timers →
  Forall (λ t, t = 0 ∨ t = interval) timers ∧
  (length (filter (λ t : Z, t = 0%Z) timers) ≤ length (filter (λ n : Z, (0 < n)%Z) new))%nat.
Proof.
  intros Hint. induction 1 as [|n t new timers Ht _ [IH1 IH2]]; [done|].
  split; [constructor; [lia|done]|]. rewrite !filter_cons.
  destruct Ht as [->|[-> Hn]]; repeat case_decide; simpl; lia.
Qed.

(** C16. The loop of the dispatcher returns exactly when the context is cancelled and
    never fails.  Every pass sets the timer to the interval or to zero, and as
    long as the readings of the clock are less than the in-flight timeout apart,
    the passes hand out at most as many messages as there are keys in the
    stores, plus the removals from the in-flight map in between; at most that
    many passes set the timer to zero.  So the immediate re-scans come to an
    end: all other passes wait for the interval. *)
Theorem dispatcher_rescans_bounded K evs r r' o :
  0 < interval → valid_bucket_size (cfg_bucketSize cfg) → clock_ok →
  (∀ ev, ev ∈ evs → ev_keys ev ⊆ K) →
  Dispatcher_Run evs r = (r', o) →
  calm (d_tick (rn_disp r)) (d_tick (rn_disp r')) →
  o = (if existsb is_done evs then Ok () else OutOfFuel) ∧
  rn_timer r' = default (rn_timer r) (last (pass_timers evs r)) ∧
  Forall (λ t, t = 0 ∨ t = interval) (pass_timers evs r) ∧
  (length (filter (λ t : Z, t = 0%Z) (pass_timers evs r)) ≤ size K + removes evs)%nat ∧
  ∃ new, rn_counts r' = rn_counts r ++ new ∧ length new = length (pass_timers evs r) ∧
    total new ≤ Z.of_nat (size K + removes evs).
Proof.
  intros Hint Hv Hck HK Hr Hcalm.
  destruct (Dispatcher_Run_charged _ _ K evs r Hv Hck Hcalm HK) as (r1 & Hr1 & new & En & Hn & Hle & Hch).
  rewrite Hr in Hr1. injection Hr1 as <- Eo. split; [done|].
  destruct (Hch ltac:(done) ltac:(done) ∅) as (F & HF & _ & Hs); [set_solver..|].
  apply subseteq_size in HF. rewrite size_empty in Hs. pose proof (total_positive new Hn) as Hpos.
  destruct (run_timers evs r r' o new Hr) as [Hf Ht]; [rewrite Eo; destruct (existsb _ _); auto|done| |].
  { intros ev r1 Hev. edestruct (run_case_charged 0 0 K ev r1) as (r2 & E & _); [done..|by intros ? ? ?; lia|auto|].
    by exists r2. }
  destruct (zero_resets new _ Hint Hf) as [Hz Hlen].
  split_and!; [done|done|lia|]. exists new. split_and!; [done|by eapply Forall2_length|lia].
Qed.
End dispatch_loop.

(** ** The janitor *)
Section janitor_loop.
Context `{Protobuf} `{DB} `{DeleteBackend}.

Inductive janitor_event :=
  | JanDone
  | JanTick (store : db_t) (nowMs : Z)
  | JanDeleter (f : Deleter → Deleter).

Fixpoint janitor_loop (evs : list janitor_event) (d : Deleter) : Deleter * outcome () :=
  match evs with
  | [] => (d, OutOfFuel)
  | JanDone :: _ => (d, Ok ())
  | JanTick store nowMs :: evs' => janitor_loop evs' (sweep store nowMs d)
  | JanDeleter f :: evs' => janitor_loop evs' (f d)
  end.

Definition Janitor_Run (interval : Z) (evs : list janitor_event) (d : Deleter) : Deleter * outcome () :=
  if decide (0 < interval) then janitor_loop evs d else (d, Panic).

Lemma sweep_marks store nowMs d k v :
  iter_error store None = None → contents store !! k = Some v → expired_event nowMs (k, v) →
  k ∈ pending (sweep store nowMs d).
Proof.
  intros He Hk Hx. unfold sweep. rewrite Scan_spec, (scan_fold_total (sweep_one nowMs)), sweep_fold, He.
  rewrite iter_pairs_complete, range_pairs_all by done. rewrite app_nil_l.
  assert (k ∈ (filter (expired_event nowMs) (sorted_pairs (contents store))).*1) as Hin.
  { apply list_elem_of_fmap. exists (k, v). split; [done|]. apply list_elem_of_filter. split; [done|].
    by apply elem_of_sorted_pairs. }
  case_decide as Hl; [by destruct (filter _ _).*1; [apply elem_of_nil in Hin|]|].
  rewrite pending_mark_all. apply elem_of_app. by right.
Qed.

Lemma sweep_keeps store nowMs d : pending d ⊆ pending (sweep store nowMs d).
Proof.
  unfold sweep. destruct (Scan _ _ _ _) as [ex [e|]]; [done|]. case_decide; [done|].
  rewrite pending_mark_all. set_solver.
Qed.

(** Other goroutines only add keys to the queue. *)
Definition only_marks (ev : janitor_event) : Prop :=
  match ev with JanDeleter f => ∀ d, pending d ⊆ pending (f d) | _ => True end.

Definition jan_done (ev : janitor_event) : bool := match ev with JanDone => true | _ => false end.

Lemma janitor_loop_keeps evs d d' o :
  Forall only_marks evs → janitor_loop evs d = (d', o) → pending d ⊆ pending d'.
Proof.
  intros Hm. revert d. induction Hm as [|ev evs Hev Hm IH]; intros d; simpl.
  { by intros [= <- _]. }
  destruct ev as [|store nowMs|f].
  - by intros [= <- _].
  - intros Hr%IH. etrans; [apply (sweep_keeps store nowMs)|done].
  - intros Hr%IH. etrans; [apply Hev|done].
Qed.

Lemma janitor_loop_app evs evs' d :
  existsb jan_done evs = false → janitor_loop (evs ++ evs') d = janitor_loop evs' (janitor_loop evs d).1.
Proof. revert d. induction evs as [|[] evs IH]; intros d; simpl; [done|done|apply IH..]. Qed.

(** With a positive interval, the loop of the janitor returns exactly when the context is cancelled, and
    what it sweeps is collected: an event record that has expired when a sweep
    sees it is still queued at the end of the run, whatever other goroutines
    add to the queue, and the next flush whose backend call succeeds removes it
    from the store. *)
Theorem janitor_collects interval evs1 evs2 store nowMs d d' o k v marks d2 keys be' :
  0 < interval → existsb jan_done evs1 = false → Forall only_marks evs2 →
  Janitor_Run interval (evs1 ++ JanTick store nowMs :: evs2) d = (d', o) →
  iter_error store None = None → contents store !! k = Some v → expired_event nowMs (k, v) →
  fits (pending d') → DeleteKeys (backend d') (pending d') = (be', None) →
  flush_during marks d' = (d2, keys) → ¬ be_private k →
  o = (if existsb jan_done evs2 then Ok () else OutOfFuel) ∧
  k ∈ pending d' ∧ k ∈ keys ∧ be_contents (backend d2) !! k = None.
Proof.
  intros Hint Hd1 Hm Hr He Hk Hx Hfit Hdel Hf Hpr. unfold Janitor_Run in Hr.
  rewrite decide_True, janitor_loop_app in Hr by done. simpl in Hr.
  assert (k ∈ pending d') as Hin.
  { eapply janitor_loop_keeps; [done|exact Hr|]. by eapply sweep_marks. }
  split; [|split; [done|]].
  - clear -Hr. revert Hr. generalize (sweep store nowMs (janitor_loop evs1 d).1).
    induction evs2 as [|[] evs2 IH]; intros d0; simpl; [by intros [= _ <-]|by intros [= _ <-]|apply IH..].
  - revert Hf. unfold flush_during. rewrite decide_False by (by destruct (pending d'); [apply elem_of_nil in Hin|]).
    rewrite Hdel. intros [= <- <-]. split; [done|]. simpl.
    rewrite (DeleteKeys_ok _ _ _ Hfit Hdel k Hpr), lookup_without. by rewrite decide_True.
Qed.
End janitor_loop.

(** ** Runs *)
Import Toy.

Abbreviation sample_Run := (@Dispatcher_Run const_hash toy_index toy_protobuf MapDB
  RoundRobinStrategy key_order map_direct stopped_clock sample_cfg 100).

(** Two timer rounds, with a consumer that takes a message in between: the
    first dispatches the due message, the second finds nothing. *)
Definition sample_rounds : list (@run_event MapDB RoundRobinStrategy map_direct) :=
  [RunTimer None sample_store; RunHub (λ h, (recv 2 h).1); RunTimer None sample_store; RunDone].

Definition sample_runner : @runner RoundRobinStrategy map_direct := NewRunner 100 sample_dispatcher.

Lemma sample_rounds_counts :
  rn_counts (sample_Run sample_rounds sample_runner).1 = [1; 0] ∧
  rn_timer (sample_Run sample_rounds sample_runner).1 = 100.
Proof. split; vm_compute; reflexivity. Qed.

Lemma dispatcher_rescans_bounded_witness :
  (sample_Run sample_rounds sample_runner).2 = Ok () ∧
  total (rn_counts (sample_Run sample_rounds sample_runner).1) ≤ 3.
Proof.
  destruct (@dispatcher_rescans_bounded const_hash toy_index toy_protobuf MapDB RoundRobinStrategy
    key_order map_direct stopped_clock sample_cfg 100 (dom sample_store) sample_rounds sample_runner
    (sample_Run sample_rounds sample_runner).1 (sample_Run sample_rounds sample_runner).2) as (Ho & _ & _ & _ & new & En & _ & Ht).
  - done.
  - right. by vm_compute.
  - intros n. by vm_compute.
  - intros ev Hev. unfold sample_rounds in Hev.
    repeat (apply elem_of_cons in Hev as [-> |Hev]; [set_solver|]). by apply elem_of_nil in Hev.
  - apply surjective_pairing.
  - intros m n _ _. by vm_compute.
  - split; [done|]. rewrite En. exact Ht.
Defined.

Lemma janitor_collects_witness :
  let d' := (Janitor_Run 60000 [JanTick sample_store 1000; JanDone] (@NewDeleter map_direct sample_store)).1 in
  @be_contents map_direct (backend (flush_during [] d').1) !! EventKey 960 7 2 = None.
Proof.
  intros d'.
  refine (proj2 (proj2 (proj2 (@janitor_collects toy_index toy_protobuf MapDB map_direct 60000 [] [JanDone]
    sample_store 1000 (@NewDeleter map_direct sample_store) d' (Ok ()) (EventKey 960 7 2)
    (toy_bytes (toy_msg 10)) [] (flush_during [] d').1 (flush_during [] d').2
    (DeleteKeys (backend d') (pending d')).1 _ _ _ _ _ _ _ _ _ _ _)))).
  - done.
  - done.
  - by repeat constructor.
  - reflexivity.
  - done.
  - vm_compute. reflexivity.
  - vm_compute. done.
  - by vm_compute.
  - reflexivity.
  - apply surjective_pairing.
  - by intros [].
Defined.
