(* ===== verification/Threads.v ===== *)
(** * The goroutines of a standalone node, interleaved

    [Broker] takes a whole call as one step.  Here the calls are cut where the
    code lets go of what it shares: a step is one critical section of a mutex,
    one operation of the [sync.Map] of keys in flight, one channel operation,
    one atomic addition, one snapshot or commit of the store.  The dispatcher,
    the deleter, the janitor, any number of publish streams and the two
    goroutines of every subscription interleave in any order
    ([src/internal/dispatcher/*.go], [src/internal/api/grpc/handlers/*.go], as
    [src/cmd/futureq/start.go] starts them without Raft).

    What a goroutine has in its local variables is its program counter; what
    they share is [mem].  A range scan reads a snapshot of the store, so the
    pairs of a scan are fixed when it begins. *)
From stdpp Require Import prelude gmap strings sorting.
From S2P Require Import Prelude Bytes Keys Storage Pebble Proto Repository Codec.
From S2P Require Import EventCommands EventStateMachine Hub Deleter Dispatcher Janitor Producer Broker.
From S2P Require Import Runners.
Local Open Scope Z_scope.

Section threads.
Context {DBi : DB} `{XXHash} `{Protobuf} `{DispatchStrategy} `{MapRange} `{Clock}.
Context (cfg : dispatch_config).

(** ** Shared memory *)
Record mem := mkMem {
  m_hub : Hub;
  m_inFlight : gmap bytes inFlightEntry;
  m_pending : list bytes;
  m_store : db_t;
  m_repo : EventRepository;
  (** Readings of the clock so far. *)
  m_tick : nat;
}.

Definition on_m_hub (f : Hub → Hub) (m : mem) : mem :=
  mkMem (f (m_hub m)) (m_inFlight m) (m_pending m) (m_store m) (m_repo m) (m_tick m).
Definition on_m_inFlight (f : gmap bytes inFlightEntry → gmap bytes inFlightEntry) (m : mem) : mem :=
  mkMem (m_hub m) (f (m_inFlight m)) (m_pending m) (m_store m) (m_repo m) (m_tick m).
Definition on_m_pending (f : list bytes → list bytes) (m : mem) : mem :=
  mkMem (m_hub m) (m_inFlight m) (f (m_pending m)) (m_store m) (m_repo m) (m_tick m).
Definition set_m_store (d : db_t) (m : mem) : mem :=
  mkMem (m_hub m) (m_inFlight m) (m_pending m) d (m_repo m) (m_tick m).
Definition set_m_repo (er : EventRepository) (m : mem) : mem :=
  mkMem (m_hub m) (m_inFlight m) (m_pending m) (m_store m) er (m_tick m).
Definition tick (m : mem) : mem :=
  mkMem (m_hub m) (m_inFlight m) (m_pending m) (m_store m) (m_repo m) (S (m_tick m)).

(** [time.Now] in milliseconds. *)
Definition now_ms (m : mem) : Z := UnixMilli (now_ns (m_tick m)).

(** ** The dispatcher goroutine

    The variables of [dispatchAll] and [dispatchTopic] while a topic is
    scanned: the pairs of the snapshot that are still to be visited, the
    expired keys and the counters. *)
Record scan := mkScan {
  sc_topic : string;
  sc_nowMs : Z;
  sc_todo : list string;
  sc_total : Z;
  sc_pairs : list (bytes * bytes);
  sc_expired : list bytes;
  sc_dispatched : Z;
}.

Definition with_pairs (l : list (bytes * bytes)) (s : scan) : scan :=
  mkScan (sc_topic s) (sc_nowMs s) (sc_todo s) (sc_total s) l (sc_expired s) (sc_dispatched s).
Definition add_expired (k : bytes) (s : scan) : scan :=
  mkScan (sc_topic s) (sc_nowMs s) (sc_todo s) (sc_total s) (sc_pairs s) (sc_expired s ++ [k])
    (sc_dispatched s).
Definition count_dispatched (s : scan) : scan :=
  mkScan (sc_topic s) (sc_nowMs s) (sc_todo s) (sc_total s) (sc_pairs s) (sc_expired s)
    (sc_dispatched s + 1).

(** An offer of one message: the key, the message, the groups and the universal
    consumers of the snapshot that are still to be tried, the groups it was
    sent to. *)
Record offer := mkOffer {
  of_key : bytes;
  of_msg : QueueMessage;
  of_groups : list (string * list ConsumerEntry);
  of_universal : list ConsumerEntry;
  of_sentTo : list string;
}.

Inductive disp_pc :=
  | DIdle
  | DPass                                        (* HasConsumers and isLeader are true *)
  | DTopics (nowMs : Z) (todo : list string) (total : Z)
  | DScan (s : scan)                             (* before a callback of Scan, or its end *)
  | DEvict (s : scan) (key val : bytes)          (* the entry in flight has timed out *)
  | DOffer (s : scan) (key : bytes) (msg : StoredMessage)
  | DSend (s : scan) (o : offer)                 (* in DispatchToTopic *)
  | DRecord (s : scan) (o : offer) (c : ConsumerEntry) (gid : string)
                                                 (* in trySend, after the send *)
  | DTrack (s : scan) (key : bytes)              (* before inFlight.Store *)
  | DMark (s : scan) (keys : list bytes)         (* before the next MarkDeleted *)
  | DReturn (total : Z)
  | DPanic.

(** The rest of the callback after the in-flight check. *)
Definition after_check (s : scan) (key val : bytes) : disp_pc :=
  match Unmarshal val with
  | Ok msg => if isExpired msg (sc_nowMs s) then DScan (add_expired key s) else DOffer s key msg
  | _ => DScan s
  end.

(** The send of a non-blocking [select]; [None] when the channel is full. *)
Definition chan_send (c : ConsumerEntry) (q : QueueMessage) (h : Hub) : option Hub :=
  match chans h !! Ch c with
  | Some ch =>
      if decide (length (ch_buf ch) < ch_cap ch)%nat
      then Some (set_chans (<[Ch c := mkChan (ch_buf ch ++ [q]) (ch_cap ch)]>) h)
      else None
  | None => None
  end.

(** [append] to the in-flight list of the consumer, under inFlightMu. *)
Definition record_tag (c : ConsumerEntry) (tag : bytes) (h : Hub) : Hub :=
  set_inFlight (λ f, <[ID c := default [] (f !! ID c) ++ [tag]]> f) h.

Definition try_send (s : scan) (o : offer) (c : ConsumerEntry) (gid : string) (m : mem) : mem * disp_pc :=
  match chan_send c (of_msg o) (m_hub m) with
  | Some h' => (on_m_hub (λ _, h') m, DRecord s o c gid)
  | None => (m, DSend s o)
  end.

Definition disp_step (m : mem) (p : disp_pc) : mem * disp_pc :=
  match p with
  | DIdle => (m, if HasConsumers (m_hub m) && isLeader cfg None then DPass else DReturn 0)
  | DPass =>
      let '(h', activeTopics) := ActiveTopics (m_hub m) in
      let m1 := on_m_hub (λ _, h') m in
      if decide (length activeTopics = 0%nat) then (m1, DReturn 0)
      else (tick m1, DTopics (now_ms m1) activeTopics 0)
  | DTopics _ [] total => (m, DReturn total)
  | DTopics nowMs (topic :: todo) total =>
      match CalculateBucket nowMs (cfg_bucketSize cfg) with
      | Ok nowBucket =>
          (m, DScan (mkScan topic nowMs todo total
                       (iter_pairs (m_store m) (Some (due_range (TopicHash topic) nowBucket))) [] 0))
      | _ => (m, DPanic)
      end
  | DScan s =>
      match sc_pairs s with
      | (key, val) :: l =>
          let s' := with_pairs l s in
          match m_inFlight m !! key with
          | None => (m, after_check s' key val)
          | Some e =>
              (tick m, if decide (now_ns (m_tick m) - dispatchedAt e < inFlightTimeout cfg)
                       then DScan s' else DEvict s' key val)
          end
      | [] => (m, DMark s (sc_expired s))
      end
  | DEvict s key val => (on_m_inFlight (delete key) m, after_check s key val)
  | DOffer s key msg =>
      match topics (m_hub m) !! sc_topic s with
      | None => (m, DScan s)
      | Some sub =>
          let h := m_hub m in
          (on_m_hub (add_ticks 2) m,
           DSend s (mkOffer key (queue_message msg key) (groupSnapshot (h_tick h) sub)
                      (universalSnapshot (S (h_tick h)) sub) []))
      end
  | DSend s o =>
      match of_groups o with
      | (gid, consumers) :: gs =>
          let '(st', selected) := Select (strategy (m_hub m)) consumers (of_msg o) in
          let m1 := on_m_hub (set_strategy st') m in
          let o' := mkOffer (of_key o) (of_msg o) gs (of_universal o) (of_sentTo o) in
          match selected with
          | None => (m1, DSend s o')
          | Some c => try_send s o' c gid m1
          end
      | [] =>
          match of_universal o with
          | c :: us =>
              try_send s (mkOffer (of_key o) (of_msg o) [] us (of_sentTo o)) c ""%string m
          | [] => (m, if decide (0 < length (of_sentTo o))%nat then DTrack s (of_key o) else DScan s)
          end
      end
  | DRecord s o c gid =>
      (on_m_hub (record_tag c (of_key o)) m,
       DSend s (mkOffer (of_key o) (of_msg o) (of_groups o) (of_universal o) (of_sentTo o ++ [gid])))
  | DTrack s key =>
      (tick (on_m_inFlight (<[key := mkInFlight (now_ns (m_tick m)) (sc_topic s)]>) m),
       DScan (count_dispatched s))
  | DMark s (k :: keys) => (on_m_pending (λ l, l ++ [k]) m, DMark s keys)
  | DMark s [] => (m, DTopics (sc_nowMs s) (sc_todo s) (sc_total s + sc_dispatched s))
  | DReturn _ => (m, DIdle)
  | DPanic => (m, DPanic)
  end.

(** ** The deleter goroutine: one flush *)
Inductive del_pc :=
  | FIdle
  | FTaken (keys : list bytes)      (* the queue was swapped out *)
  | FFailed (keys : list bytes)     (* before the keys are queued again *)
  | FNotify (keys : list bytes).    (* before the next OnDelete *)

Definition del_thread_step (m : mem) (p : del_pc) : mem * del_pc :=
  match p with
  | FIdle =>
      if decide (length (m_pending m) = 0%nat) then (m, FIdle)
      else (on_m_pending (λ _, []) m, FTaken (m_pending m))
  | FTaken keys =>
      match direct_DeleteKeys (m_store m) keys with
      | (d', Some _) => (set_m_store d' m, FFailed keys)
      | (d', None) => (set_m_store d' m, FNotify keys)
      end
  | FFailed keys => (on_m_pending (λ l, keys ++ l) m, FIdle)
  | FNotify (k :: keys) => (on_m_inFlight (delete k) m, FNotify keys)
  | FNotify [] => (m, FIdle)
  end.

(** ** The janitor goroutine: one sweep *)
Inductive jan_pc :=
  | JIdle
  | JScan (nowMs : Z)
  | JMark (keys : list bytes).

Definition jan_step (m : mem) (p : jan_pc) : mem * jan_pc :=
  match p with
  | JIdle => (tick m, JScan (now_ms m))
  | JScan nowMs =>
      (m, match Scan (m_store m) None (λ ex key val, (sweep_one nowMs ex key val, None)) [] with
          | (_, Some _) => JIdle
          | (expiredKeys, None) => JMark expiredKeys
          end)
  | JMark (k :: keys) => (on_m_pending (λ l, l ++ [k]) m, JMark keys)
  | JMark [] => (m, JIdle)
  end.

(** ** A publish stream: one batch

    The loop of [marshalMessages] with its batch, which nobody else sees; the
    shared counter is one atomic addition per message. *)
Record prod_pc := mkProd {
  pr_nowMs : Z;
  pr_index : Z;
  pr_todo : list PublishMessage;
  pr_batch : Batch;
}.

(** [None]: the handler has returned. *)
Definition prod_step (m : mem) (p : prod_pc) : mem * option prod_pc :=
  match pr_todo p with
  | [] => (set_m_store (Commit (m_store m) (pr_batch p) Sync).1 m, None)
  | msg :: todo =>
      match marshalMessages [msg] (pr_index p) (pr_nowMs p)
              (λ data, StoreWithBatch data;; mret ()) (m_repo m, pr_batch p) with
      | ((er', b), Ok ()) =>
          (set_m_repo er' m, Some (mkProd (pr_nowMs p) (pr_index p + 1) todo b))
      | ((er', _), _) => (set_m_repo er' m, None)
      end
  end.

(** ** A subscription

    The receiver goroutine between the two calls of an acknowledgement, and the
    handler between the two critical sections of [Unregister].  Both go on
    independently: the handler may return while an acknowledgement is being
    processed. *)
Definition unregister_index (id : string) (h : Hub) : Hub :=
  match byID h !! id with
  | None => h
  | Some entry =>
      let h1 :=
        match topics h !! Topic entry with
        | Some sub =>
            let '(sub', empty) := sub_remove sub entry in
            if empty then set_topics (delete (Topic entry)) h
            else set_topics (<[Topic entry := sub']>) h
        | None => h
        end in
      set_byID (delete id) h1
  end.

Definition forget_inFlight (id : string) (h : Hub) : Hub := set_inFlight (delete id) h.

(** ** The system *)
Record sys := mkSys {
  s_mem : mem;
  s_disp : disp_pc;
  s_del : del_pc;
  s_jan : jan_pc;
  s_prod : gmap nat prod_pc;
  (** Receivers: [Some tag] before MarkDeleted. *)
  s_recv : gmap string (option bytes);
  (** Handlers in the middle of [Unregister]. *)
  s_leaving : gset string;
}.

Definition set_mem (m : mem) (s : sys) : sys :=
  mkSys m (s_disp s) (s_del s) (s_jan s) (s_prod s) (s_recv s) (s_leaving s).

Inductive sys_event :=
  | EDisp
  | EDel
  | EJan
  | EPublish (n : nat) (batch : PublishBatch)     (* stream [n] has received a batch *)
  | EProd (n : nat)
  | EConnect (consumerID topic groupID : string) (ch : nat)
  | ERecv (ch : nat)                              (* the sender takes a message *)
  | EAck (consumerID : string) (tag : bytes) (success : bool)
  | EMark (consumerID : string)
  | ELeave (consumerID : string)
  | EForget (consumerID : string).

(** [None]: the goroutine is not there, or not at this point. *)
Definition sys_step (s : sys) (ev : sys_event) : option sys :=
  let m := s_mem s in
  match ev with
  | EDisp =>
      let '(m', p) := disp_step m (s_disp s) in
      Some (mkSys m' p (s_del s) (s_jan s) (s_prod s) (s_recv s) (s_leaving s))
  | EDel =>
      let '(m', p) := del_thread_step m (s_del s) in
      Some (mkSys m' (s_disp s) p (s_jan s) (s_prod s) (s_recv s) (s_leaving s))
  | EJan =>
      let '(m', p) := jan_step m (s_jan s) in
      Some (mkSys m' (s_disp s) (s_del s) p (s_prod s) (s_recv s) (s_leaving s))
  | EPublish n batch =>
      match s_prod s !! n, Messages batch with
      | Some _, _ | _, [] => None
      | None, _ =>
          Some (mkSys (tick m) (s_disp s) (s_del s) (s_jan s)
                  (<[n := mkProd (now_ms m) 0 (Messages batch) []]> (s_prod s))
                  (s_recv s) (s_leaving s))
      end
  | EProd n =>
      p ← s_prod s !! n;
      let '(m', o) := prod_step m p in
      Some (mkSys m' (s_disp s) (s_del s) (s_jan s) (partial_alter (λ _, o) n (s_prod s))
              (s_recv s) (s_leaving s))
  | EConnect id topic groupID ch =>
      match s_recv s !! id with
      | Some _ => None
      | None =>
          Some (mkSys (on_m_hub (λ h, Register id topic groupID ch (open_chan ch 1024 h)) m)
                  (s_disp s) (s_del s) (s_jan s) (s_prod s)
                  (<[id := None]> (s_recv s)) (s_leaving s))
      end
  | ERecv ch => Some (set_mem (on_m_hub (λ h, (recv ch h).1) m) s)
  | EAck id tag success =>
      match s_recv s !! id with
      | Some None =>
          Some (mkSys (on_m_hub (RemoveInFlightForConsumer id tag) m)
                  (s_disp s) (s_del s) (s_jan s) (s_prod s)
                  (<[id := if success : bool then Some tag else None]> (s_recv s)) (s_leaving s))
      | _ => None
      end
  | EMark id =>
      match s_recv s !! id with
      | Some (Some tag) =>
          Some (mkSys (on_m_pending (λ l, l ++ [tag]) m)
                  (s_disp s) (s_del s) (s_jan s) (s_prod s) (<[id := None]> (s_recv s)) (s_leaving s))
      | _ => None
      end
  | ELeave id =>
      match byID (m_hub m) !! id with
      | None => None
      | Some _ =>
          Some (mkSys (on_m_hub (unregister_index id) m) (s_disp s) (s_del s) (s_jan s) (s_prod s)
                  (s_recv s) ({[id]} ∪ s_leaving s))
      end
  | EForget id =>
      if decide (id ∈ s_leaving s)
      then Some (mkSys (on_m_hub (forget_inFlight id) m) (s_disp s) (s_del s) (s_jan s) (s_prod s)
                   (s_recv s) (s_leaving s ∖ {[id]}))
      else None
  end.

Fixpoint sys_run (s : sys) (evs : list sys_event) : option sys :=
  match evs with
  | [] => Some s
  | ev :: evs' => s' ← sys_step s ev; sys_run s' evs'
  end.

(** No goroutine is in the middle of anything; the receivers of the consumers
    [ids] wait for a frame. *)
Definition at_rest (ids : gset string) (m : mem) : sys :=
  mkSys m DIdle FIdle JIdle ∅ (gset_to_gmap None ids) ∅.

Lemma sys_run_app s evs evs' : sys_run s (evs ++ evs') = s1 ← sys_run s evs; sys_run s1 evs'.
Proof.
  induction evs as [|ev evs IH] in s |- *; [done|]. simpl. destruct (sys_step s ev); [apply IH|done].
Qed.

(** The clock only advances. *)
Lemma sys_step_tick s ev s' : sys_step s ev = Some s' → (m_tick (s_mem s) ≤ m_tick (s_mem s'))%nat.
Proof.
  destruct ev; simpl; intros Hst.
  - destruct (s_disp s) as [| |nowMs [|t todo] total|sc|sc key val|sc key ms|sc o|sc o c gid|sc key|sc [|x keys]|n|];
      simpl in Hst; unfold try_send in Hst; repeat case_match; simplify_eq/=; lia.
  - destruct (s_del s) as [|keys|keys|[|x keys]]; simpl in Hst; repeat case_match; simplify_eq/=; lia.
  - destruct (s_jan s) as [|nowMs|[|x keys]]; simpl in Hst; repeat case_match; simplify_eq/=; lia.
  - repeat case_match; simplify_eq/=; lia.
  - destruct (s_prod s !! n) as [p|]; simplify_eq/=. unfold prod_step in Hst.
    repeat case_match; simplify_eq/=; lia.
  - repeat case_match; simplify_eq/=; lia.
  - simplify_eq/=; lia.
  - repeat case_match; simplify_eq/=; lia.
  - repeat case_match; simplify_eq/=; lia.
  - repeat case_match; simplify_eq/=; lia.
  - repeat case_match; simplify_eq/=; lia.
Qed.

Lemma sys_run_tick s evs s' : sys_run s evs = Some s' → (m_tick (s_mem s) ≤ m_tick (s_mem s'))%nat.
Proof.
  induction evs as [|ev evs IH] in s |- *; simpl; [intros [= <-]; lia|].
  destruct (sys_step s ev) as [s1|] eqn:Hst; [|done]. simpl. intros Hr%IH. apply sys_step_tick in Hst. lia.
Qed.

(** The dispatcher writes neither the store nor the counter. *)
Lemma disp_step_frame m p :
  let m' := (disp_step m p).1 in
  m_store m' = m_store m ∧ m_repo m' = m_repo m ∧ (m_tick m ≤ m_tick m' ≤ S (m_tick m))%nat ∧
  (m_pending m' = m_pending m ∨
   ∃ s x keys, p = DMark s (x :: keys) ∧ m_pending m' = m_pending m ++ [x]).
Proof.
  destruct p as [| |nowMs [|t todo] total|s|s key val|s key ms|s o|s o c gid|s key|s [|x keys]|n|];
    simpl; try (unfold try_send; repeat case_match; simpl; simplify_eq/=; split_and!; auto; lia).
  split_and!; [done..|lia|lia|right; eauto].
Qed.

(** The batch of the direct backend deletes some of the keys. *)
Lemma direct_batch_ops keys op : op ∈ direct_batch keys → ∃ x, x ∈ keys ∧ op = OpDelete x.
Proof.
  unfold direct_batch.
  assert (∀ b, op ∈ foldl (λ b k, (batch_Delete b k).1) b keys → op ∈ b ∨ ∃ x, x ∈ keys ∧ op = OpDelete x) as Hb.
  { induction keys as [|x keys IH]; intros b; simpl; [by left|].
    intros [Hin|(y & Hy & ->)]%IH; [|right; exists y; split; [by right|done]].
    unfold batch_Delete in Hin. destruct (batch_add_cases b (OpDelete x)) as [E|[e E]];
      rewrite E in Hin; simpl in Hin; [|by left].
    apply elem_of_app in Hin as [?| ->%list_elem_of_singleton]; [by left|right]. exists x. split; [left|done]. }
  intros [?%elem_of_nil|?]%Hb; done.
Qed.

(** ** No message is lost, whatever the interleaving *)
Section kept.
Context (k v : bytes) (msg : StoredMessage).
Hypothesis Hk : length k = 24%nat.
Hypothesis Hv : Unmarshal v = Ok msg.

Definition fresh_at (nowMs : Z) : Prop := isExpired msg nowMs = false.

Record scan_ok (s : scan) : Prop := {
  so_now : fresh_at (sc_nowMs s);
  so_expired : k ∉ sc_expired s;
  so_pairs : ∀ v', (k, v') ∈ sc_pairs s → v' = v;
}.

Definition disp_ok (p : disp_pc) : Prop :=
  match p with
  | DTopics nowMs _ _ => fresh_at nowMs
  | DScan s | DOffer s _ _ | DSend s _ | DRecord s _ _ _ | DTrack s _ => scan_ok s
  | DEvict s key val => scan_ok s ∧ (key = k → val = v)
  | DMark s keys => fresh_at (sc_nowMs s) ∧ k ∉ keys
  | _ => True
  end.

Definition del_keys (p : del_pc) : list bytes :=
  match p with FTaken keys | FFailed keys | FNotify keys => keys | FIdle => [] end.

Definition jan_ok (p : jan_pc) : Prop :=
  match p with JScan nowMs => fresh_at nowMs | JMark keys => k ∉ keys | JIdle => True end.

Definition prod_ok (p : prod_pc) : Prop :=
  Forall (λ op, op_key op ≠ k) (pr_batch p) ∧ Forall indexes_ok (pr_todo p).

Record secure (s : sys) : Prop := {
  se_stored : contents (m_store (s_mem s)) !! k = Some v;
  se_pending : k ∉ m_pending (s_mem s);
  se_id : key_id k ≤ lastID (m_repo (s_mem s));
  se_u64 : is_u64 (lastID (m_repo (s_mem s)));
  se_disp : disp_ok (s_disp s);
  se_del : k ∉ del_keys (s_del s);
  se_jan : jan_ok (s_jan s);
  se_prod : map_Forall (λ _, prod_ok) (s_prod s);
  se_recv : ∀ id, s_recv s !! id ≠ Some (Some k);
}.

(** *** The dispatcher *)
Lemma after_check_ok s key val :
  scan_ok s → (key = k → val = v) → disp_ok (after_check s key val).
Proof.
  intros [Hn He Hp] Hkv. unfold after_check. destruct (Unmarshal val) as [m|e| |] eqn:Hu; [|by split..].
  destruct (isExpired m (sc_nowMs s)) eqn:Hx; [|by split]. split; [done| |done].
  simpl. intros [?|Hin]%elem_of_app; [done|]. apply list_elem_of_singleton in Hin as <-.
  rewrite Hkv, Hv in Hu by done. injection Hu as <-. unfold fresh_at in Hn. congruence.
Qed.

Lemma try_send_ok s o c gid m : scan_ok s → disp_ok (try_send s o c gid m).2.
Proof. intros Hs. unfold try_send. by destruct (chan_send _ _ _). Qed.

Lemma disp_step_ok m p :
  contents (m_store m) !! k = Some v →
  ((m_tick m < m_tick (disp_step m p).1)%nat → fresh_at (now_ms m)) →
  disp_ok p → disp_ok (disp_step m p).2.
Proof.
  intros Hs Hnow Hp.
  destruct p as [| |nowMs [|t todo] total|s|s key val|s key ms|s o|s o c gid|s key|s [|x keys]|n|]; simpl in *.
  - by case_match.
  - case_decide; [done|]. simpl in *. apply Hnow. lia.
  - done.
  - destruct (CalculateBucket _ _) as [nb|e| |]; [|done..]. split; simpl; [done|apply not_elem_of_nil|].
    intros v' Hin%iter_pairs_elem. destruct Hin as [Hc _]. congruence.
  - destruct Hp as [Hn He Hps]. destruct (sc_pairs s) as [|[key val] l] eqn:E; [by split|].
    assert (scan_ok (with_pairs l s)) as Hl.
    { split; simpl; [done..|]. intros v' Hin. apply Hps. by right. }
    assert (key = k → val = v) as Hkv by (intros ->; apply Hps; left).
    destruct (m_inFlight m !! key); [|by apply after_check_ok]. simpl. case_decide; [done|by split].
  - destruct Hp as [Hsc Hkv]. by apply after_check_ok.
  - by case_match.
  - destruct (of_groups o) as [|[gid cs] gs].
    + destruct (of_universal o); [|by apply try_send_ok]. simpl. by case_decide.
    + destruct (Select _ _ _) as [st' [c|]]; [by apply try_send_ok|done].
  - done.
  - destruct Hp as [Hn He Hps]. by split.
  - by destruct Hp.
  - destruct Hp as [Hn Hx]. split; [done|]. by apply not_elem_of_cons in Hx as [_ Hx].
  - done.
  - done.
Qed.

(** *** The deleter, the janitor, the publish streams *)
Lemma commit_keeps d b mode :
  Forall (λ op, op_key op ≠ k) b → contents (Commit d b mode).1 !! k = contents d !! k.
Proof.
  intros Hb. destruct (Commit d b mode) as [d' [e|]] eqn:E; simpl.
  - by rewrite (Commit_err _ _ _ _ _ E).
  - by rewrite (Commit_ok _ _ _ _ E), apply_ops_ne.
Qed.

Lemma del_step_ok m p :
  k ∉ m_pending m → k ∉ del_keys p →
  let '(m', p') := del_thread_step m p in
  contents (m_store m') !! k = contents (m_store m) !! k ∧ (k ∉ m_pending m') ∧ (k ∉ del_keys p') ∧
  m_repo m' = m_repo m ∧ m_tick m' = m_tick m.
Proof.
  intros Hpend Hp. destruct p as [|keys|keys|[|x keys]]; simpl in *.
  - case_decide; simpl; by split_and!; try apply not_elem_of_nil.
  - assert (Forall (λ op, op_key op ≠ k) (direct_batch keys)) as Hf.
    { apply Forall_forall. intros op (x & Hx & ->)%direct_batch_ops. simpl. by intros ->. }
    pose proof (commit_keeps (m_store m) _ Sync Hf) as Hc. unfold direct_DeleteKeys.
    destruct (Commit _ _ _) as [d' [e|]]; simpl in *; by split_and!.
  - split_and!; try done; [|apply not_elem_of_nil]. set_solver.
  - by split_and!.
  - split_and!; try done. set_solver.
Qed.

Lemma jan_step_ok m p :
  contents (m_store m) !! k = Some v →
  ((m_tick m < m_tick (jan_step m p).1)%nat → fresh_at (now_ms m)) → k ∉ m_pending m → jan_ok p →
  let '(m', p') := jan_step m p in
  m_store m' = m_store m ∧ (k ∉ m_pending m') ∧ jan_ok p' ∧ m_repo m' = m_repo m ∧
  (m_tick m ≤ m_tick m' ≤ S (m_tick m))%nat.
Proof.
  intros Hs Hnow Hpend Hp. destruct p as [|nowMs|[|x keys]]; simpl in *.
  - split_and!; [done..|apply Hnow|done|lia|lia]. lia.
  - rewrite Scan_spec, scan_fold_total, sweep_fold. simpl.
    destruct (iter_error _ _); split_and!; try done; try lia. simpl.
    intros ([k' v'] & -> & [[_ Hx] Hin]%list_elem_of_filter)%list_elem_of_fmap.
    apply iter_pairs_elem in Hin as [Hc _]. simpl in *. rewrite Hs in Hc. injection Hc as <-.
    rewrite Hv in Hx. unfold fresh_at in Hp. congruence.
  - split_and!; try done; lia.
  - split_and!; try done; try lia; set_solver.
Qed.

Lemma store_ops_avoid id b h ixs data :
  is_u64 id → key_id k < id → Forall index_ok ixs →
  Forall (λ op, op_key op ≠ k) (store_ops id b h ixs data).
Proof.
  intros Hid Hlt Hix. unfold store_ops. repeat apply Forall_cons_2; simpl.
  - intros E. by apply (key_ne_counter k).
  - intros E. rewrite <-E, key_id_EventKey in Hlt by done. lia.
  - apply Forall_fmap. eapply Forall_impl; [exact Hix|]. intros ix [_ Hl] E. simpl in E. by rewrite E in Hl.
Qed.

Lemma prod_step_ok m p :
  key_id k ≤ lastID (m_repo m) → is_u64 (lastID (m_repo m)) →
  lastID (m_repo m) + 1 < 2 ^ 64 → prod_ok p →
  let '(m', o) := prod_step m p in
  contents (m_store m') !! k = contents (m_store m) !! k ∧
  m_pending m' = m_pending m ∧ m_tick m' = m_tick m ∧
  lastID (m_repo m) ≤ lastID (m_repo m') ≤ lastID (m_repo m) + 1 ∧ (∀ p', o = Some p' → prod_ok p').
Proof.
  intros Hid Hu Hlt [Hb Hix]. unfold prod_step. destruct (pr_todo p) as [|pm todo] eqn:Etd.
  - simpl. rewrite commit_keeps by done. by split_and!; try lia.
  - apply Forall_cons in Hix as [Hix Hixs]. destruct (marshalMessages _ _ _ _ _) as [[er' b] o] eqn:Hm.
    assert (lastID (m_repo m) ≤ lastID er' ≤ lastID (m_repo m) + 1) as Hle.
    { apply marshalMessages_id in Hm; unfold len in *; simpl in *; [lia|done|lia]. }
    destruct o as [[]| | |]; simpl; split_and!; try done; try lia; intros p' [= <-]; split; simpl; [|done].
    simpl in Hm. case_decide; [done|]. case_decide; [done|]. unfold mbind, st_bind in Hm.
    destruct (StoreWithBatch _ _) as [s1 [key| | |]] eqn:Hsw; simplify_eq/=. injection Hm as ->.
    apply StoreWithBatch_ok in Hsw as (bk & data & ixs & _ & _ & Hf & _ & [= -> ->]). apply Forall_app. split; [done|].
    unfold is_u64 in Hu. rewrite u64_small by (unfold is_u64; lia).
    apply store_ops_avoid; [unfold is_u64; lia|lia|].
    unfold indexes_ok in Hix. simpl in Hf. clear -Hf Hix. induction Hf as [|i x l l' Hi Hf IH]; [done|].
    apply Forall_cons in Hix as [Hi' Hix]. constructor; [by apply Hi'|by apply IH].
Qed.

(** *** The steps of the system *)
Definition ev_publish_ok (ev : sys_event) : Prop :=
  match ev with EPublish _ batch => Forall indexes_ok (Messages batch) | _ => True end.
Definition ev_acks (ev : sys_event) : Prop :=
  match ev with EAck _ tag true => tag = k | _ => False end.

Lemma sys_step_secure s ev s' :
  sys_step s ev = Some s' → secure s → ev_publish_ok ev → ¬ ev_acks ev →
  lastID (m_repo (s_mem s)) + 1 < 2 ^ 64 →
  ((m_tick (s_mem s) < m_tick (s_mem s'))%nat → fresh_at (now_ms (s_mem s))) →
  secure s' ∧ (m_tick (s_mem s) ≤ m_tick (s_mem s'))%nat ∧
  lastID (m_repo (s_mem s')) ≤ lastID (m_repo (s_mem s)) + 1.
Proof.
  intros Hst [Hs Hp Hid Hu Hd Hf Hj Hpr Hr] Hix Hack Hlt Hnow.
  destruct ev as [| | |n batch|n|id t g ch|ch|id tag success|id|id|id]; simpl in Hst.
  - pose proof (disp_step_frame (s_mem s) (s_disp s)) as (Es & Er & Ht & Hpd).
    pose proof (disp_step_ok (s_mem s) (s_disp s) Hs) as Hok.
    destruct (disp_step _ _) as [m' p'] eqn:E. injection Hst as <-. simpl in *.
    split_and!; [|lia|rewrite Er; lia]. split; simpl; rewrite ?Es, ?Er; auto.
    destruct Hpd as [-> |(sc & x & keys & Ed & ->)]; [done|]. rewrite Ed in Hd. destruct Hd as [_ Hx].
    set_solver.
  - pose proof (del_step_ok (s_mem s) (s_del s) Hp Hf) as Hok.
    destruct (del_thread_step _ _) as [m' p']. injection Hst as <-.
    destruct Hok as (Es & Hp' & Hf' & Er & Et). simpl in *. rewrite Et.
    split_and!; [|done|rewrite Er; lia]. split; simpl; rewrite ?Es, ?Er; auto.
  - pose proof (jan_step_ok (s_mem s) (s_jan s) Hs) as Hok.
    destruct (jan_step _ _) as [m' p']. injection Hst as <-.
    destruct (Hok Hnow Hp Hj) as (Es & Hp' & Hj' & Er & Et). simpl in *.
    split_and!; [|lia|rewrite Er; lia]. split; simpl; rewrite ?Es, ?Er; auto.
  - destruct (s_prod s !! n) eqn:En; [done|].
    destruct (Messages batch) as [|pm msgs] eqn:Em; [done|]. injection Hst as <-. simpl in *. rewrite Em in Hix.
    split_and!; [|lia|lia]. split; simpl; auto.
    apply map_Forall_insert_2; [|done]. by split.
  - destruct (s_prod s !! n) as [p|] eqn:En; [|done]. simpl in Hst.
    pose proof (prod_step_ok (s_mem s) p Hid Hu Hlt (Hpr n p En)) as Hok.
    destruct (prod_step _ _) as [m' o]. injection Hst as <-.
    destruct Hok as (Es & Ep & Et & Hle & Hpo). simpl in *. rewrite Et.
    split_and!; [|done|lia]. unfold is_u64 in Hu. split; simpl; rewrite ?Ep, ?Es; auto.
    + lia.
    + unfold is_u64. lia.
    + intros n' p'. destruct (decide (n' = n)) as [-> |Hn].
      * rewrite lookup_partial_alter_eq. apply Hpo.
      * rewrite lookup_partial_alter_ne by done. apply Hpr.
  - destruct (s_recv s !! id) eqn:Eid; [done|]. injection Hst as <-. simpl.
    split_and!; [|lia|lia]. split; simpl; auto. intros id'. destruct (decide (id' = id)) as [-> |?];
      [by rewrite lookup_insert_eq|by rewrite lookup_insert_ne].
  - injection Hst as <-. split_and!; [|simpl; lia..]. by split.
  - destruct (s_recv s !! id) as [[?|]|] eqn:Eid; [done| |done]. injection Hst as <-. simpl.
    split_and!; [|lia|lia]. split; simpl; auto. intros id'. destruct (decide (id' = id)) as [-> |?];
      [|by rewrite lookup_insert_ne]. rewrite lookup_insert_eq. destruct success; [|done].
    intros [= ->]. by apply Hack.
  - destruct (s_recv s !! id) as [[tag|]|] eqn:Eid; [|done..]. injection Hst as <-. simpl.
    split_and!; [|lia|lia]. split; simpl; auto.
    + intros [?|E%list_elem_of_singleton]%elem_of_app; [done|]. subst tag. by apply (Hr id).
    + intros id'. destruct (decide (id' = id)) as [-> |?];
        [by rewrite lookup_insert_eq|by rewrite lookup_insert_ne].
  - destruct (byID _ !! id) eqn:Eid; [|done]. injection Hst as <-. split_and!; [|simpl; lia..]. by split.
  - case_decide; [|done]. injection Hst as <-. split_and!; [|simpl; lia..]. by split.
Qed.

Lemma sys_run_secure s evs s' :
  sys_run s evs = Some s' → secure s → Forall ev_publish_ok evs → Forall (λ ev, ¬ ev_acks ev) evs →
  lastID (m_repo (s_mem s)) + len evs < 2 ^ 64 →
  (∀ n, (m_tick (s_mem s) ≤ n < m_tick (s_mem s'))%nat → fresh_at (UnixMilli (now_ns n))) →
  secure s'.
Proof.
  induction evs as [|ev evs IH] in s |- *; simpl; [by intros [= <-]|].
  destruct (sys_step s ev) as [s1|] eqn:Hst; [|done]. simpl. intros Hrun Hsec Hix Hack Hlt Hnow.
  apply Forall_cons in Hix as [Hix1 Hix]. apply Forall_cons in Hack as [Ha1 Hack].
  rewrite len_cons in Hlt. pose proof (len_nonneg evs). apply sys_run_tick in Hrun as Ht.
  apply sys_step_secure in Hst as (Hsec1 & Ht1 & Hle); [|done..|lia|].
  - apply (IH s1); [done..|lia|]. intros n Hn. apply Hnow. lia.
  - intros Hlt1. apply Hnow. lia.
Qed.

Lemma at_rest_secure ids m :
  contents (m_store m) !! k = Some v → k ∉ m_pending m →
  key_id k ≤ lastID (m_repo m) → is_u64 (lastID (m_repo m)) → secure (at_rest ids m).
Proof.
  intros Hs Hp Hid Hu. split; simpl; try done; try apply not_elem_of_nil.
  intros id. rewrite lookup_gset_to_gmap_Some. by intros [_ [=]].
Qed.

(** *** A key in flight is left alone *)
Context (e : inFlightEntry).

(** The key the dispatcher is about to offer, or is offering. *)
Definition offering (p : disp_pc) : option bytes :=
  match p with
  | DEvict _ key _ | DOffer _ key _ | DTrack _ key => Some key
  | DSend _ o | DRecord _ o _ _ => Some (of_key o)
  | _ => None
  end.

Record flying (s : sys) : Prop := {
  fl_entry : m_inFlight (s_mem s) !! k = Some e;
  fl_offer : offering (s_disp s) ≠ Some k;
}.

Definition in_time (n : nat) : Prop := now_ns n - dispatchedAt e < inFlightTimeout cfg.

Lemma after_check_offering s key val : key ≠ k → offering (after_check s key val) ≠ Some k.
Proof. intros Hne. unfold after_check. repeat case_match; simpl; congruence. Qed.

Lemma try_send_offering s o c gid m : offering (try_send s o c gid m).2 = Some (of_key o).
Proof. unfold try_send. by destruct (chan_send _ _ _). Qed.

Lemma disp_step_flying m p :
  m_inFlight m !! k = Some e → offering p ≠ Some k →
  ((m_tick m < m_tick (disp_step m p).1)%nat → in_time (m_tick m)) →
  m_inFlight (disp_step m p).1 !! k = Some e ∧ offering (disp_step m p).2 ≠ Some k.
Proof.
  intros He Ho Hn.
  destruct p as [| |nowMs [|t todo] total|s|s key val|s key ms|s o|s o c gid|s key|s [|x keys]|n|];
    simpl in *; try done.
  - by case_match.
  - by case_decide.
  - by case_match.
  - destruct (sc_pairs s) as [|[key val] l]; [done|]. destruct (decide (key = k)) as [-> |Hne].
    + rewrite He in *. simpl in *. split; [done|]. rewrite decide_True; [done|]. apply Hn. lia.
    + destruct (m_inFlight m !! key); simpl; (split; [done|]); [|by apply after_check_offering].
      case_decide; [done|]. simpl. congruence.
  - rewrite lookup_delete_ne by congruence. split; [done|]. apply after_check_offering. congruence.
  - by case_match.
  - destruct (of_groups o) as [|[gid cs] gs].
    + destruct (of_universal o) as [|c us]; simpl; [split; [done|by case_decide]|].
      rewrite try_send_offering. unfold try_send. by case_match.
    + destruct (Select _ _ _) as [st' [c|]]; [|done].
      rewrite try_send_offering. unfold try_send. by case_match.
  - rewrite lookup_insert_ne by congruence. done.
Qed.

Lemma sys_step_flying s ev s' :
  sys_step s ev = Some s' → secure s → flying s →
  ((m_tick (s_mem s) < m_tick (s_mem s'))%nat → in_time (m_tick (s_mem s))) → flying s'.
Proof.
  intros Hst Hsec [He Ho] Hn. pose proof (se_del _ Hsec) as Hd.
  destruct ev; simpl in Hst.
  - pose proof (disp_step_flying (s_mem s) (s_disp s) He Ho) as Hf.
    destruct (disp_step _ _) as [m' p']. injection Hst as <-. destruct (Hf Hn). by split.
  - destruct (del_thread_step _ _) as [m' p'] eqn:E. injection Hst as <-. split; [|done]. simpl.
    destruct (s_del s) as [|keys|keys|[|x keys]]; simpl in *; repeat case_match; simplify_eq/=; try done.
    rewrite lookup_delete_ne; [done|]. set_solver.
  - destruct (jan_step _ _) as [m' p'] eqn:E. injection Hst as <-. split; [|done]. simpl.
    destruct (s_jan s) as [|nowMs|[|x keys]]; simpl in *; by simplify_eq/=.
  - repeat case_match; simplify_eq/=; by split.
  - destruct (s_prod s !! n) as [p|]; simplify_eq/=. destruct (prod_step _ _) as [m' o] eqn:E.
    injection Hst as <-. split; [|done]. simpl. unfold prod_step in E. repeat case_match; by simplify_eq/=.
  - repeat case_match; simplify_eq/=; by split.
  - simplify_eq/=. by split.
  - repeat case_match; simplify_eq/=; by split.
  - repeat case_match; simplify_eq/=; by split.
  - repeat case_match; simplify_eq/=; by split.
  - repeat case_match; simplify_eq/=; by split.
Qed.

Lemma sys_run_flying s evs s' :
  sys_run s evs = Some s' → secure s → flying s →
  Forall ev_publish_ok evs → Forall (λ ev, ¬ ev_acks ev) evs →
  lastID (m_repo (s_mem s)) + len evs < 2 ^ 64 →
  (∀ n, (m_tick (s_mem s) ≤ n < m_tick (s_mem s'))%nat →
     fresh_at (UnixMilli (now_ns n)) ∧ in_time n) →
  flying s'.
Proof.
  induction evs as [|ev evs IH] in s |- *; simpl; [by intros [= <-]|].
  destruct (sys_step s ev) as [s1|] eqn:Hst; [|done]. simpl. intros Hrun Hsec Hfl Hix Hack Hlt Hnow.
  apply Forall_cons in Hix as [Hix1 Hix]. apply Forall_cons in Hack as [Ha1 Hack].
  rewrite len_cons in Hlt. pose proof (len_nonneg evs). apply sys_run_tick in Hrun as Ht.
  pose proof (sys_step_flying s ev s1 Hst Hsec Hfl) as Hf1.
  apply sys_step_secure in Hst as (Hsec1 & Ht1 & Hle); [|done..|lia|].
  - apply (IH s1); [done|done| |done|done|lia|].
    + apply Hf1. intros Hlt1. apply Hnow. lia.
    + intros n Hn. apply Hnow. lia.
  - intros Hlt1. apply Hnow. lia.
Qed.
End kept.

(** C2. No message is lost, whatever the interleaving.  However the dispatcher,
    the deleter, the janitor, the publish streams and the subscriptions
    interleave, down to single critical sections, an event that is stored and
    not queued for deletion when the run begins is stored with the same value,
    and not queued, at its end, if its tag was not acknowledged and its time to
    live was not over at any reading of the clock during the run. *)
Theorem interleaved_no_message_lost ids m evs s' k v msg :
  sys_run (at_rest ids m) evs = Some s' →
  length k = 24%nat → Unmarshal v = Ok msg →
  contents (m_store m) !! k = Some v → k ∉ m_pending m →
  key_id k ≤ lastID (m_repo m) → 0 ≤ lastID (m_repo m) → lastID (m_repo m) + len evs < 2 ^ 64 →
  Forall ev_publish_ok evs → Forall (λ ev, ¬ ev_acks k ev) evs →
  (∀ n, (m_tick m ≤ n < m_tick (s_mem s'))%nat → isExpired msg (UnixMilli (now_ns n)) = false) →
  contents (m_store (s_mem s')) !! k = Some v ∧ k ∉ m_pending (s_mem s').
Proof.
  intros Hrun Hk Hv Hs Hp Hid Hu Hlt Hix Hack Hnow.
  assert (secure k v msg s') as [? ? _ _ _ _ _ _ _]; [|done].
  eapply sys_run_secure; [done..| |done|done|done|done]. pose proof (len_nonneg evs).
  apply at_rest_secure; [done..|unfold is_u64; lia].
Qed.

(** What a step puts into the channel of a consumer. *)
Definition sent (s : sys) (ev : sys_event) : option (ConsumerEntry * QueueMessage) :=
  match ev, (disp_step (s_mem s) (s_disp s)).2 with
  | EDisp, DRecord _ o c _ => Some (c, of_msg o)
  | _, _ => None
  end.

(** ** Uninterrupted calls

    When nobody interferes, the steps of a goroutine make up the call that the
    other files take as one step. *)
Section calls.
Context (Hnf : ∀ b k, batch_fault b (OpDelete k) = None).
#[local] Instance shared_backend : DeleteBackend := standalone_backend Hnf.

Definition as_disp (m : mem) : Dispatcher :=
  mkDispatcher (m_hub m) (mkDeleter (m_store m : be_t) (m_pending m)) (m_inFlight m) (m_tick m).
Definition of_disp (er : EventRepository) (d : Dispatcher) : mem :=
  mkMem (d_hub d) (inFlight d) (pending (d_deleter d)) (backend (d_deleter d) : db_t) er (d_tick d).

Lemma of_as_disp m : of_disp (m_repo m) (as_disp m) = m.
Proof. by destruct m. Qed.

Definition dstep (x y : mem * disp_pc) : Prop := disp_step x.1 x.2 = y.

Lemma trySend_steps s o c gid m :
  let '(h', ok) := trySend c (of_msg o) (of_key o) (m_hub m) in
  rtc dstep (try_send s o c gid m)
    (on_m_hub (λ _, h') m,
     DSend s (mkOffer (of_key o) (of_msg o) (of_groups o) (of_universal o)
                (of_sentTo o ++ if ok : bool then [gid] else []))).
Proof.
  unfold trySend, try_send, chan_send. destruct (chans (m_hub m) !! Ch c) as [ch|];
    [case_decide|]; simpl; rewrite ?app_nil_r.
  - apply rtc_once. reflexivity.
  - destruct m, o; apply rtc_refl.
  - destruct m, o; apply rtc_refl.
Qed.

Lemma groups_steps s key q gs us sent m :
  let '(h', sent1) := send_groups gs q key (m_hub m) in
  rtc dstep (m, DSend s (mkOffer key q gs us sent))
    (on_m_hub (λ _, h') m, DSend s (mkOffer key q [] us (sent ++ sent1))).
Proof.
  induction gs as [|[gid cs] gs IH] in m, sent |- *; simpl.
  { rewrite app_nil_r. destruct m. apply rtc_refl. }
  destruct (Select (strategy (m_hub m)) cs q) as [st' [c|]] eqn:Hsel.
  - pose proof (trySend_steps s (mkOffer key q gs us sent) c gid (on_m_hub (set_strategy st') m)) as Ht.
    simpl in Ht. destruct (trySend c q key (set_strategy st' (m_hub m))) as [h2 ok].
    specialize (IH (sent ++ if ok then [gid] else []) (on_m_hub (λ _, h2) m)). simpl in IH.
    destruct (send_groups gs q key h2) as [h3 sent1].
    eapply rtc_l; [unfold dstep; simpl; rewrite Hsel; reflexivity|]. etrans; [exact Ht|].
    rewrite <-app_assoc in IH. destruct ok; exact IH.
  - specialize (IH sent (on_m_hub (set_strategy st') m)). simpl in IH.
    destruct (send_groups gs q key (set_strategy st' (m_hub m))) as [h3 sent1].
    eapply rtc_l; [unfold dstep; simpl; rewrite Hsel; reflexivity|]. exact IH.
Qed.

Lemma universal_steps s key q us sent m :
  let '(h', sent1) := send_universal us q key (m_hub m) in
  rtc dstep (m, DSend s (mkOffer key q [] us sent))
    (on_m_hub (λ _, h') m, DSend s (mkOffer key q [] [] (sent ++ sent1))).
Proof.
  induction us as [|c us IH] in m, sent |- *; simpl.
  { rewrite app_nil_r. destruct m. apply rtc_refl. }
  pose proof (trySend_steps s (mkOffer key q [] us sent) c "" m) as Ht. simpl in Ht.
  destruct (trySend c q key (m_hub m)) as [h2 ok].
  specialize (IH (sent ++ if ok then [""%string] else []) (on_m_hub (λ _, h2) m)). simpl in IH.
  destruct (send_universal us q key h2) as [h3 sent1].
  eapply rtc_l; [reflexivity|]. etrans; [exact Ht|].
  rewrite <-app_assoc in IH. destruct ok; exact IH.
Qed.

(** [DispatchToTopic], up to the in-flight entry of the dispatcher. *)
Lemma offer_steps s key ms m :
  let '(h', sentTo) := DispatchToTopic (sc_topic s) (queue_message ms key) key (m_hub m) in
  rtc dstep (m, DOffer s key ms)
    (on_m_hub (λ _, h') m, if decide (0 < length sentTo)%nat then DTrack s key else DScan s).
Proof.
  unfold DispatchToTopic, groupSnapshot, universalSnapshot. destruct (topics (m_hub m) !! sc_topic s) as [sub|] eqn:Ht.
  - set (gs := range_map _ _). set (us := (range_map _ (universal sub)).*2).
    pose proof (groups_steps s key (queue_message ms key) gs us [] (on_m_hub (add_ticks 2) m)) as Hg.
    simpl in Hg. destruct (send_groups gs _ key (add_ticks 2 (m_hub m))) as [h1 sent1].
    pose proof (universal_steps s key (queue_message ms key) us sent1 (on_m_hub (λ _, h1) m)) as Hu.
    simpl in Hu. destruct (send_universal us _ key h1) as [h2 sent2].
    eapply rtc_l; [unfold dstep; simpl; rewrite Ht; reflexivity|].
    etrans; [exact Hg|]. etrans; [exact Hu|]. apply rtc_once. reflexivity.
  - apply rtc_once. unfold dstep. simpl. rewrite Ht. by destruct m.
Qed.

Lemma one_steps topic nowMs todo total k v l ex n er d :
  let '(d', n', ex') := dispatch_one cfg topic nowMs (d, n, ex) k v in
  rtc dstep (of_disp er d, DScan (mkScan topic nowMs todo total ((k, v) :: l) ex n))
    (of_disp er d', DScan (mkScan topic nowMs todo total l ex' n')).
Proof.
  set (s := mkScan topic nowMs todo total l ex n).
  assert (∀ d1, let '(d', n', ex') :=
      match Unmarshal v with
      | Ok msg =>
          if isExpired msg nowMs then (d1, n, ex ++ [k])
          else
            let '(hub', sentTo) := DispatchToTopic topic (queue_message msg k) k (d_hub d1) in
            if decide (0 < length sentTo)%nat then
              (mkDispatcher hub' (d_deleter d1)
                 (<[k := mkInFlight (now_ns (d_tick d1)) topic]> (inFlight d1)) (S (d_tick d1)), n + 1, ex)
            else (mkDispatcher hub' (d_deleter d1) (inFlight d1) (d_tick d1), n, ex)
      | _ => (d1, n, ex)
      end in
    rtc dstep (of_disp er d1, after_check s k v)
      (of_disp er d', DScan (mkScan topic nowMs todo total l ex' n'))) as Hafter.
  { intros d1. unfold after_check. destruct (Unmarshal v) as [ms|e| |]; [|apply rtc_refl..].
    simpl. destruct (isExpired ms nowMs); [apply rtc_refl|].
    pose proof (offer_steps s k ms (of_disp er d1)) as Ho. simpl in Ho.
    destruct (DispatchToTopic _ _ _ _) as [h' sentTo]. case_decide; [|exact Ho].
    etrans; [exact Ho|]. apply rtc_once. reflexivity. }
  unfold dispatch_one, isInFlight. destruct (inFlight d !! k) as [e|] eqn:Ef.
  - case_decide as Hto.
    + apply rtc_once. unfold dstep. simpl. rewrite Ef, decide_True by done. reflexivity.
    + specialize (Hafter (mkDispatcher (d_hub d) (d_deleter d) (delete k (inFlight d)) (S (d_tick d)))).
      simpl in *. destruct (match Unmarshal v with Ok _ => _ | _ => _ end) as [[d' n'] ex'].
      eapply rtc_l; [unfold dstep; simpl; rewrite Ef, decide_False by done; reflexivity|].
      eapply rtc_l; [reflexivity|]. exact Hafter.
  - specialize (Hafter d). destruct (match Unmarshal v with Ok _ => _ | _ => _ end) as [[d' n'] ex'].
    eapply rtc_l; [unfold dstep; simpl; rewrite Ef; reflexivity|]. exact Hafter.
Qed.

Lemma pairs_steps topic nowMs todo total l ex n er d :
  let '(d', n', ex') := run_pairs cfg topic nowMs (d, n, ex) l in
  rtc dstep (of_disp er d, DScan (mkScan topic nowMs todo total l ex n))
    (of_disp er d', DScan (mkScan topic nowMs todo total [] ex' n')).
Proof.
  induction l as [|[k v] l IH] in d, n, ex |- *; [apply rtc_refl|].
  change (run_pairs cfg topic nowMs (d, n, ex) ((k, v) :: l))
    with (run_pairs cfg topic nowMs (dispatch_one cfg topic nowMs (d, n, ex) k v) l).
  pose proof (one_steps topic nowMs todo total k v l ex n er d) as Hone.
  destruct (dispatch_one _ _ _ _ _ _) as [[d1 n1] ex1]. specialize (IH ex1 n1 d1).
  destruct (run_pairs _ _ _ _ _) as [[d2 n2] ex2]. etrans; [exact Hone|exact IH].
Qed.

Lemma mark_steps s keys er d :
  rtc dstep (of_disp er d, DMark s keys)
    (of_disp er (mark_all keys d), DTopics (sc_nowMs s) (sc_todo s) (sc_total s + sc_dispatched s)).
Proof.
  induction keys as [|x keys IH] in d |- *.
  - destruct d. apply rtc_once. reflexivity.
  - eapply rtc_l; [reflexivity|]. apply (IH (on_deleter (MarkDeleted x) d)).
Qed.

Lemma topic_steps topic nowMs todo total er d d' n :
  dispatchTopic cfg (backend (d_deleter d) : db_t) topic nowMs d = (d', Ok n) →
  rtc dstep (of_disp er d, DTopics nowMs (topic :: todo) total)
    (of_disp er d', DTopics nowMs todo (total + n)).
Proof.
  destruct (CalculateBucket nowMs (cfg_bucketSize cfg)) as [nb|e| |] eqn:Hb;
    [|unfold dispatchTopic; by rewrite Hb..].
  rewrite (dispatchTopic_eq cfg _ _ _ _ nb) by done.
  pose proof (pairs_steps topic nowMs todo total
    (iter_pairs (backend (d_deleter d) : db_t) (Some (due_range (TopicHash topic) nb))) [] 0 er d) as Hp.
  destruct (run_pairs _ _ _ _ _) as [[d1 n1] ex]. intros [= <- <-].
  eapply rtc_l; [unfold dstep; simpl; rewrite Hb; reflexivity|]. etrans; [exact Hp|].
  eapply rtc_l; [reflexivity|]. simpl. apply (mark_steps (mkScan topic nowMs todo total [] ex n1)).
Qed.

Lemma topics_steps tps nowMs total er d0 d d' n :
  backend (d_deleter d) = backend (d_deleter d0) →
  dispatch_topics cfg (backend (d_deleter d0) : db_t) tps nowMs total d = (d', Ok n) →
  rtc dstep (of_disp er d, DTopics nowMs tps total) (of_disp er d', DReturn n).
Proof.
  induction tps as [|topic tps IH] in d, total |- *; simpl; intros Hb.
  { intros [= <- <-]. apply rtc_once. reflexivity. }
  rewrite <-Hb. intros (d1 & n1 & Ht & Hr)%st_bind_ok.
  pose proof (dispatchTopic_pending cfg (backend (d_deleter d) : db_t) topic nowMs d) as [Eb _].
  rewrite Ht in Eb. simpl in Eb. etrans; [by apply topic_steps|]. apply IH; congruence.
Qed.

Lemma dispatchAll_steps er d d' n :
  dispatchAll cfg (backend (d_deleter d) : db_t) None d = (d', Ok n) →
  rtc dstep (of_disp er d, DIdle) (of_disp er d', DIdle).
Proof.
  intros Hd. apply (rtc_r _ (of_disp er d', DReturn n) _); [|reflexivity].
  eapply rtc_l; [reflexivity|]. simpl. unfold dispatchAll in Hd.
  destruct (HasConsumers (d_hub d)); simpl in *; [|injection Hd as <- <-; apply rtc_refl].
  eapply rtc_l; [reflexivity|]. simpl. case_decide; [injection Hd as <- <-; apply rtc_refl|].
  apply (topics_steps _ _ _ er d) in Hd; [exact Hd|done].
Qed.

(** *** The other goroutines *)
Definition with_disp (s : sys) (x : mem * disp_pc) : sys :=
  mkSys x.1 x.2 (s_del s) (s_jan s) (s_prod s) (s_recv s) (s_leaving s).
Definition with_del (s : sys) (x : mem * del_pc) : sys :=
  mkSys x.1 (s_disp s) x.2 (s_jan s) (s_prod s) (s_recv s) (s_leaving s).
Definition with_jan (s : sys) (x : mem * jan_pc) : sys :=
  mkSys x.1 (s_disp s) (s_del s) x.2 (s_prod s) (s_recv s) (s_leaving s).
Definition with_prod (s : sys) (m : mem) (o : option prod_pc) : sys :=
  mkSys m (s_disp s) (s_del s) (s_jan s) (partial_alter (λ _, o) 0%nat (s_prod s)) (s_recv s) (s_leaving s).

Definition reaches (s s' : sys) : Prop := ∃ evs, sys_run s evs = Some s'.

#[local] Instance reaches_preorder : PreOrder reaches.
Proof.
  split; [by exists []|]. intros s1 s2 s3 [evs1 H12] [evs2 H23]. exists (evs1 ++ evs2).
  by rewrite sys_run_app, H12.
Qed.

Lemma reaches_one s ev s' : sys_step s ev = Some s' → reaches s s'.
Proof. intros Hs. exists [ev]. simpl. by rewrite Hs. Qed.

Lemma reaches_disp s x y : rtc dstep x y → reaches (with_disp s x) (with_disp s y).
Proof.
  induction 1 as [|x y z Hs _ IH]; [reflexivity|]. etrans; [|exact IH]. apply (reaches_one _ EDisp).
  simpl. unfold dstep in Hs. by rewrite Hs; destruct y.
Qed.

Lemma flush_reaches s m :
  reaches (with_del s (m, FIdle)) (with_del s (of_disp (m_repo m) (flush_step Hnf (as_disp m)), FIdle)).
Proof.
  assert (∀ keys m1, reaches (with_del s (m1, FNotify keys))
    (with_del s (of_disp (m_repo m1) (RemoveInFlightBatch keys (as_disp m1)), FIdle))) as Hnotify.
  { induction keys as [|x keys IH]; intros m1.
    - rewrite of_as_disp. by apply (reaches_one _ EDel).
    - etrans; [by apply (reaches_one _ EDel)|]. exact (IH (on_m_inFlight (delete x) m1)). }
  unfold flush_step, flush. simpl. case_decide as Hl.
  - rewrite <-(of_as_disp m) at 1. reflexivity.
  - etrans; [apply (reaches_one _ EDel); simpl; rewrite decide_False by done; reflexivity|].
    destruct (direct_DeleteKeys (m_store m) (m_pending m)) as [d' [e|]] eqn:Hd.
    + etrans; [apply (reaches_one _ EDel); simpl; rewrite Hd; reflexivity|].
      by apply (reaches_one _ EDel).
    + etrans; [apply (reaches_one _ EDel); simpl; rewrite Hd; reflexivity|].
      exact (Hnotify (m_pending m) (set_m_store d' (on_m_pending (λ _, []) m))).
Qed.

Lemma sweep_reaches s m :
  reaches (with_jan s (m, JIdle))
    (with_jan s (of_disp (m_repo m) (on_deleter (sweep (m_store m) (now_ms m)) (as_disp (tick m))), JIdle)).
Proof.
  assert (∀ keys m1, reaches (with_jan s (m1, JMark keys))
    (with_jan s (of_disp (m_repo m1) (on_deleter (λ d, foldl (λ x k, MarkDeleted k x) d keys) (as_disp m1)), JIdle)))
    as Hmark.
  { induction keys as [|x keys IH]; intros m1.
    - destruct m1. by apply (reaches_one _ EJan).
    - etrans; [by apply (reaches_one _ EJan)|]. apply (IH (on_m_pending (λ l, l ++ [x]) m1)). }
  etrans; [by apply (reaches_one _ EJan)|]. etrans; [by apply (reaches_one _ EJan)|].
  unfold sweep. cbn -[Scan sweep_one].
  destruct (Scan _ _ _ _) as [keys [e|]]; [by destruct m|].
  etrans; [apply Hmark|]. case_decide as Hl; [|by destruct m].
  destruct keys; [by destruct m|done].
Qed.

Lemma publish_reaches s m nowMs i msgs b :
  s_prod s = ∅ →
  let r := match marshalMessages msgs i nowMs (λ data, StoreWithBatch data;; mret ()) (m_repo m, b) with
           | ((er', b'), Ok ()) => set_m_store (Commit (m_store m) b' Sync).1 (set_m_repo er' m)
           | ((er', _), _) => set_m_repo er' m
           end in
  reaches (with_prod s m (Some (mkProd nowMs i msgs b))) (with_prod s r None).
Proof.
  intros Es. induction msgs as [|pm msgs IH] in m, i, b |- *; intros r.
  - apply (reaches_one _ (EProd 0)). simpl. rewrite lookup_partial_alter_eq. simpl.
    unfold with_prod. simpl. rewrite partial_alter_partial_alter_eq. by destruct m.
  - specialize (IH). cbv zeta in IH.
    set (f := λ data, StoreWithBatch data;; mret ()) in *.
    assert (marshalMessages (pm :: msgs) i nowMs f (m_repo m, b) =
      match marshalMessages [pm] i nowMs f (m_repo m, b) with
      | (x, Ok _) => marshalMessages msgs (i + 1) nowMs f x
      | (x, Err e) => (x, Err e)
      | (x, Panic) => (x, Panic)
      | (x, OutOfFuel) => (x, OutOfFuel)
      end) as E.
    { simpl. case_decide; [done|]. case_decide; [done|]. unfold mbind, st_bind.
      by destruct (f (to_stored nowMs pm) (m_repo m, b)) as [x [[]| | |]]. }
    subst r. rewrite E. clear E.
    destruct (marshalMessages [pm] i nowMs f (m_repo m, b)) as [[er1 b1] [[]|e| |]] eqn:Hm.
    1: etrans; [|apply (IH (set_m_repo er1 m) (i + 1) b1)].
    all: apply (reaches_one _ (EProd 0)); cbn -[marshalMessages]; rewrite lookup_partial_alter_eq;
      cbn -[marshalMessages]; fold f; rewrite Hm; unfold with_prod; simpl;
      by rewrite partial_alter_partial_alter_eq.
Qed.

Lemma Unregister_split id h :
  is_Some (byID h !! id) → Unregister id h = forget_inFlight id (unregister_index id h).
Proof. intros [c Hc]. unfold Unregister, unregister_index. by rewrite Hc. Qed.

(** *** Calls in a row *)
Inductive call :=
  | CallDispatch
  | CallFlush
  | CallSweep
  | CallPublish (batch : PublishBatch)
  | CallSubscribe (consumerID topic groupID : string) (ch : nat)
  | CallRecv (ch : nat)
  | CallAck (consumerID : string) (tag : bytes) (success : bool)
  | CallUnregister (consumerID : string).

(** The call as one function of the shared memory. *)
Definition do_call (c : call) (m : mem) : mem :=
  match c with
  | CallDispatch => of_disp (m_repo m) (dispatchAll cfg (m_store m) None (as_disp m)).1
  | CallFlush => of_disp (m_repo m) (flush_step Hnf (as_disp m))
  | CallSweep => of_disp (m_repo m) (on_deleter (sweep (m_store m) (now_ms m)) (as_disp (tick m)))
  | CallPublish batch =>
      let '((er, d), _) := processStandaloneBatch batch (now_ms m) (m_repo m, m_store m) in
      set_m_store d (set_m_repo er (tick m))
  | CallSubscribe id topic groupID ch =>
      on_m_hub (λ h, Register id topic groupID ch (open_chan ch 1024 h)) m
  | CallRecv ch => on_m_hub (λ h, (recv ch h).1) m
  | CallAck id tag success =>
      on_m_pending (λ l, if success : bool then l ++ [tag] else l)
        (on_m_hub (RemoveInFlightForConsumer id tag) m)
  | CallUnregister id => on_m_hub (Unregister id) m
  end.

Definition call_ids (c : call) (ids : gset string) : gset string :=
  match c with CallSubscribe id _ _ _ => {[id]} ∪ ids | _ => ids end.

Definition call_ok (c : call) (ids : gset string) : Prop :=
  match c with
  | CallPublish batch => Messages batch ≠ []
  | CallSubscribe id _ _ _ => id ∉ ids
  | CallAck id _ _ => id ∈ ids
  | _ => True
  end.

Fixpoint calls_ok (cs : list call) (ids : gset string) : Prop :=
  match cs with [] => True | c :: cs' => call_ok c ids ∧ calls_ok cs' (call_ids c ids) end.

Lemma call_reaches c ids m :
  valid_bucket_size (cfg_bucketSize cfg) → clock_ok → call_ok c ids →
  reaches (at_rest ids m) (at_rest (call_ids c ids) (do_call c m)).
Proof.
  intros Hv Hck Hok. destruct c as [| | |batch|id topic g ch|ch|id tag success|id]; simpl in *.
  - destruct (dispatchAll_ok cfg (m_store m) None (as_disp m) Hv Hck) as (d' & n & Hd).
    change (m_store m) with (backend (d_deleter (as_disp m)) : db_t) in Hd.
    apply (dispatchAll_steps (m_repo m)) in Hd as Hs. rewrite of_as_disp in Hs.
    apply (reaches_disp (at_rest ids m)) in Hs. simpl in Hd. rewrite Hd. exact Hs.
  - apply (flush_reaches (at_rest ids m)).
  - apply (sweep_reaches (at_rest ids m)).
  - destruct (Messages batch) as [|pm msgs] eqn:Em; [done|].
    pose proof (publish_reaches (at_rest ids m) (tick m) (now_ms m) 0 (Messages batch) [] eq_refl) as Hp.
    cbv zeta in Hp. unfold processStandaloneBatch. simpl in Hp.
    etrans; [apply (reaches_one _ (EPublish 0 batch)); simpl; rewrite Em; reflexivity|]. rewrite <-Em.
    etrans; [exact Hp|]. clear Hp.
    destruct (marshalMessages _ _ _ _ _) as [[er b] [[]|e| |]]; [|by destruct m..].
    destruct (Commit _ _ _) as [d [e|]]; by destruct m.
  - apply (reaches_one _ (EConnect id topic g ch)). simpl. rewrite lookup_gset_to_gmap.
    rewrite option_guard_False by done. simpl. unfold at_rest. by rewrite gset_to_gmap_union_singleton.
  - by apply (reaches_one _ (ERecv ch)).
  - assert (gset_to_gmap (None : option bytes) ids !! id = Some None) as Eid
      by (apply lookup_gset_to_gmap_Some; by split).
    destruct success.
    + etrans; [apply (reaches_one _ (EAck id tag true)); simpl; rewrite Eid; reflexivity|].
      apply (reaches_one _ (EMark id)). simpl. rewrite lookup_insert_eq. simpl.
      unfold at_rest. by rewrite insert_insert_eq, insert_id.
    + apply (reaches_one _ (EAck id tag false)). simpl. rewrite Eid, insert_id by done. by destruct m.
  - destruct (byID (m_hub m) !! id) as [c|] eqn:Hc.
    + etrans; [apply (reaches_one _ (ELeave id)); simpl; rewrite Hc; reflexivity|].
      apply (reaches_one _ (EForget id)). simpl. rewrite decide_True by set_solver.
      unfold at_rest. f_equal. f_equal; [|set_solver]. unfold on_m_hub. simpl.
      by rewrite Unregister_split by eauto.
    + unfold Unregister. unfold on_m_hub. rewrite Hc. by destruct m.
Qed.

(** C11. The calls are schedules of the steps.  Any sequence of whole calls of the
    components (a dispatch pass, a flush, a sweep, a publication with its
    failures, a registration, an acknowledgement, an unregistration), each taken
    as one function, is a run of the interleaved system that ends at rest with
    the same shared memory; so what holds for every interleaving holds for the
    calls. *)
Theorem calls_are_schedules cs ids m :
  valid_bucket_size (cfg_bucketSize cfg) → clock_ok → calls_ok cs ids →
  ∃ evs, sys_run (at_rest ids m) evs =
    Some (at_rest (foldl (λ i c, call_ids c i) ids cs) (foldl (λ m c, do_call c m) m cs)).
Proof.
  intros Hv Hck Hok. fold (reaches (at_rest ids m)
    (at_rest (foldl (λ i c, call_ids c i) ids cs) (foldl (λ m c, do_call c m) m cs))).
  induction cs as [|c cs IH] in ids, m, Hok |- *; simpl; [reflexivity|].
  destruct Hok as [Hc Hok]. etrans; [by apply call_reaches|by apply IH].
Qed.
End calls.

(** ** Every send is justified *)
Section justified.
Context (ids : gset string) (m0 : mem).

(** The state after the first [i] of the events. *)
Definition was (evs : list sys_event) (i : nat) (s : sys) : Prop :=
  (i ≤ length evs)%nat ∧ sys_run (at_rest ids m0) (take i evs) = Some s.

Lemma was_snoc evs ev i s : was evs i s → was (evs ++ [ev]) i s.
Proof.
  intros [Hi Hr]. split; [rewrite length_app; lia|]. by rewrite take_app_le.
Qed.

Lemma was_now evs s : sys_run (at_rest ids m0) evs = Some s → was evs (length evs) s.
Proof. intros Hr. split; [done|]. by rewrite firstn_all. Qed.

Definition due_pairs (d : db_t) (topic : string) (nb : Z) : list (bytes * bytes) :=
  iter_pairs d (Some (due_range (TopicHash topic) nb)).

(** [nowMs] is what the clock shows at point [h] of the run, where a pass of the
    dispatcher begins. *)
Definition pass_began (evs : list sys_event) (h : nat) (nowMs : Z) : Prop :=
  ∃ sh, was evs h sh ∧ s_disp sh = DPass ∧ nowMs = UnixMilli (now_ns (m_tick (s_mem sh))).

(** The pairs [l] are from one snapshot of the store, taken during the run after
    the pass began. *)
Definition scan_from (evs : list sys_event) (s : scan) (l : list (bytes * bytes)) : Prop :=
  ∃ i s0 nb h, (h ≤ i)%nat ∧ was evs i s0 ∧ pass_began evs h (sc_nowMs s) ∧
    CalculateBucket (sc_nowMs s) (cfg_bucketSize cfg) = Ok nb ∧
    l ⊆ due_pairs (m_store (s_mem s0)) (sc_topic s) nb.

Definition record_from (evs : list sys_event) (i : nat) (s : scan) (key : bytes) (msg : StoredMessage) : Prop :=
  ∃ s0 nb h v, (h ≤ i)%nat ∧ was evs i s0 ∧ pass_began evs h (sc_nowMs s) ∧
    CalculateBucket (sc_nowMs s) (cfg_bucketSize cfg) = Ok nb ∧
    (key, v) ∈ due_pairs (m_store (s_mem s0)) (sc_topic s) nb ∧
    Unmarshal v = Ok msg ∧ isExpired msg (sc_nowMs s) = false.

(** The consumer is in a list of the subscription. *)
Definition listed (h : Hub) (topic : string) (c : ConsumerEntry) : Prop :=
  ∃ sub, topics h !! topic = Some sub ∧
    ((∃ g l, groups sub !! g = Some l ∧ c ∈ l) ∨ ∃ id, universal sub !! id = Some c).

Definition offer_from (evs : list sys_event) (s : scan) (o : offer) (cs : list ConsumerEntry) : Prop :=
  ∃ i j s1 msg, (i ≤ j)%nat ∧ record_from evs i s (of_key o) msg ∧ was evs j s1 ∧
    of_msg o = queue_message msg (of_key o) ∧
    Forall (listed (m_hub (s_mem s1)) (sc_topic s)) cs.

Definition offered (o : offer) : list ConsumerEntry := mjoin (of_groups o).*2 ++ of_universal o.

Definition disp_from (evs : list sys_event) (p : disp_pc) : Prop :=
  match p with
  | DTopics nowMs _ _ => ∃ h, pass_began evs h nowMs
  | DScan s | DTrack s _ => scan_from evs s (sc_pairs s)
  | DEvict s key val => scan_from evs s ((key, val) :: sc_pairs s)
  | DOffer s key msg => scan_from evs s (sc_pairs s) ∧ ∃ i, record_from evs i s key msg
  | DSend s o => scan_from evs s (sc_pairs s) ∧ offer_from evs s o (offered o)
  | DRecord s o c _ => scan_from evs s (sc_pairs s) ∧ offer_from evs s o (c :: offered o)
  | DMark s _ => ∃ h, pass_began evs h (sc_nowMs s)
  | _ => True
  end.

Lemma pass_began_snoc evs ev h t : pass_began evs h t → pass_began (evs ++ [ev]) h t.
Proof. intros (sh & Hw & Hsh). exists sh. split; [by apply was_snoc|done]. Qed.

Lemma scan_from_sub evs s l l' : scan_from evs s l → l' ⊆ l → scan_from evs s l'.
Proof.
  intros (i & s0 & nb & h & Hh & Hw & Hn & Hb & Hl) Hs. exists i, s0, nb, h.
  split_and!; [done..|set_solver].
Qed.

Lemma after_check_from evs s key val :
  scan_from evs s ((key, val) :: sc_pairs s) → disp_from evs (after_check s key val).
Proof.
  intros Hs. assert (scan_from evs s (sc_pairs s)) as Hs' by (eapply scan_from_sub; [done|set_solver]).
  unfold after_check. destruct (Unmarshal val) as [msg|e| |] eqn:Hu; [|exact Hs'..].
  destruct (isExpired msg (sc_nowMs s)) eqn:Hx; [exact Hs'|]. split; [done|].
  destruct Hs as (i & s0 & nb & h & Hh & Hw & Hn & Hb & Hl). exists i, s0, nb, h, val.
  split_and!; try done. set_solver.
Qed.

Lemma try_send_from evs s o c gid m :
  scan_from evs s (sc_pairs s) → offer_from evs s o (c :: offered o) → disp_from evs (try_send s o c gid m).2.
Proof.
  intros Hs Ho. unfold try_send. destruct (chan_send _ _ _); simpl; [done|]. split; [done|].
  destruct Ho as (i & j & s1 & msg & Hij & Hr & Hw & Hm & Hf). apply Forall_cons in Hf as [_ Hf].
  by exists i, j, s1, msg.
Qed.

Lemma offer_from_sub evs s o o' cs cs' :
  offer_from evs s o cs → of_key o' = of_key o → of_msg o' = of_msg o → cs' ⊆ cs → offer_from evs s o' cs'.
Proof.
  intros (i & j & s1 & msg & Hij & Hr & Hw & Hm & Hf) Ek Em Hs. exists i, j, s1, msg.
  rewrite Ek, Em. split_and!; try done. rewrite Forall_forall in *. auto.
Qed.

Lemma disp_step_from evs s :
  sys_run (at_rest ids m0) evs = Some s → disp_from evs (s_disp s) →
  disp_from evs (disp_step (s_mem s) (s_disp s)).2.
Proof.
  intros Hrun Hp. apply was_now in Hrun as Hw.
  destruct (s_disp s) as [| |nowMs [|t todo] total|sc|sc key val|sc key ms|sc o|sc o c gid|sc key|sc [|x keys]|n|] eqn:Ed;
    simpl in *; try done.
  - by case_match.
  - case_decide; [done|]. exists (length evs). by exists s.
  - destruct (CalculateBucket _ _) as [nb|e| |] eqn:Hb; [|done..]. destruct Hp as [h Hp].
    exists (length evs), s, nb, h. split_and!; try done. by destruct Hp as (sh & [Hh _] & _).
  - destruct (sc_pairs sc) as [|[key val] l] eqn:E.
    { destruct Hp as (_ & _ & _ & h & _ & _ & Hn & _). by exists h. }
    destruct (m_inFlight _ !! key); [|by apply after_check_from]. simpl. case_decide; [|done].
    simpl. eapply scan_from_sub; [exact Hp|]. simpl. set_solver.
  - by apply after_check_from.
  - destruct Hp as [Hs [i Hr]]. destruct (topics _ !! sc_topic sc) as [sub|] eqn:Ht; [|done]. simpl.
    split; [done|]. exists i, (length evs), s, ms. split_and!; try done.
    { by destruct Hr as (s0 & nb & h & v & _ & [Hi _] & _). }
    unfold offered, groupSnapshot, universalSnapshot. simpl. apply Forall_app. split; apply Forall_forall; intros c Hin; exists sub; (split; [done|]).
    + left. apply list_elem_of_join in Hin as (l & Hc & Hl). apply list_elem_of_fmap in Hl as ([g l'] & -> & Hl).
      rewrite range_map_perm in Hl. apply elem_of_map_to_list in Hl. by exists g, l'.
    + right. apply list_elem_of_fmap in Hin as ([id c'] & -> & Hl).
      rewrite range_map_perm in Hl. apply elem_of_map_to_list in Hl. by exists id.
  - destruct Hp as [Hs Ho]. destruct (of_groups o) as [|[gid cs] gs] eqn:Eg.
    + destruct (of_universal o) as [|c us] eqn:Eu; [simpl; by case_decide|]. apply try_send_from; [done|].
      eapply offer_from_sub; [done..|]. unfold offered. rewrite Eg, Eu. simpl. done.
    + pose proof (Select_spec (strategy (m_hub (s_mem s))) cs (of_msg o)) as Hsel.
      destruct (Select _ _ _) as [st' [c|]]; simpl in Hsel; [apply try_send_from; [done|]|split; [done|]];
        eapply offer_from_sub; try done; unfold offered; rewrite Eg; simpl; set_solver.
  - destruct Hp as [Hs Ho]. split; [done|]. eapply offer_from_sub; [done..|]. unfold offered. simpl. set_solver.
Qed.

Lemma disp_from_snoc evs ev p : disp_from evs p → disp_from (evs ++ [ev]) p.
Proof.
  assert (∀ s l, scan_from evs s l → scan_from (evs ++ [ev]) s l) as Hs.
  { intros s l (i & s0 & nb & h & Hh & Hw & Hb & Hr). exists i, s0, nb, h.
    split_and!; [done|by apply was_snoc|by apply pass_began_snoc|apply Hr..]. }
  assert (∀ i s key msg, record_from evs i s key msg → record_from (evs ++ [ev]) i s key msg) as Hr.
  { intros i s key msg (s0 & nb & h & v & Hh & Hw & Hb & Hr). exists s0, nb, h, v.
    split_and!; [done|by apply was_snoc|by apply pass_began_snoc|apply Hr..]. }
  assert (∀ s o cs, offer_from evs s o cs → offer_from (evs ++ [ev]) s o cs) as Ho.
  { intros s o cs (i & j & s1 & msg & Hij & Hre & Hw & Hm). exists i, j, s1, msg.
    split_and!; [done|by apply Hr|by apply was_snoc|apply Hm..]. }
  destruct p; simpl; try done; try (by apply Hs).
  - intros [h Hh]. exists h. by apply pass_began_snoc.
  - intros [Hsc [i Hre]]. split; [by apply Hs|]. exists i. by apply Hr.
  - intros [Hsc Hof]. split; [by apply Hs|by apply Ho].
  - intros [Hsc Hof]. split; [by apply Hs|by apply Ho].
  - intros [h Hh]. exists h. by apply pass_began_snoc.
Qed.

Lemma sys_step_disp s ev s' :
  sys_step s ev = Some s' →
  s_disp s' = s_disp s ∨ (ev = EDisp ∧ s_disp s' = (disp_step (s_mem s) (s_disp s)).2).
Proof.
  destruct ev; simpl; intros Hst;
    [right; destruct (disp_step _ _); by simplify_eq/=|left..];
    try (by simplify_eq/=); try (by repeat (case_match; simplify_eq/=)).
  destruct (s_prod s !! n); simplify_eq/=. by case_match; simplify_eq/=.
Qed.

Lemma run_from evs s : sys_run (at_rest ids m0) evs = Some s → disp_from evs (s_disp s).
Proof.
  revert s. induction evs as [|ev evs IH] using rev_ind; intros s Hr; [by injection Hr as <-|].
  rewrite sys_run_app in Hr. apply bind_Some in Hr as (s1 & Hr1 & Hr). simpl in Hr.
  destruct (sys_step s1 ev) as [s2|] eqn:Hst; [|done]. injection Hr as <-.
  apply disp_from_snoc. apply sys_step_disp in Hst as [-> |[_ ->]]; [by apply IH|].
  apply disp_step_from; [done|by apply IH].
Qed.

(** C13. Every send is justified.  Whatever the interleaving, a message that the
    dispatcher puts into the channel of a consumer is the record that a scan
    found in the store at some earlier point of the run: with the topic, the
    payload, the times of the decoded record and its key as delivery tag.  The
    pass of the scan began before that with a reading of the clock: the record
    is not expired at that reading, and an event key belongs to the hash of the
    scanned topic and to a bucket that is not after the bucket of the reading.
    The consumer was subscribed to the topic at a later or equal point, when the
    hub was asked. *)
Theorem send_justified evs s ev c q :
  valid_bucket_size (cfg_bucketSize cfg) → (∀ n, is_i64 (UnixMilli (now_ns n))) →
  sys_run (at_rest ids m0) evs = Some s → sent s ev = Some (c, q) →
  let key := qm_DeliveryTag q in
  ∃ h i j sh s0 s1 topic nowMs nb v msg,
    (h ≤ i ≤ j)%nat ∧ was evs h sh ∧ was evs i s0 ∧ was evs j s1 ∧
    s_disp sh = DPass ∧ nowMs = UnixMilli (now_ns (m_tick (s_mem sh))) ∧
    contents (m_store (s_mem s0)) !! key = Some v ∧
    CalculateBucket nowMs (cfg_bucketSize cfg) = Ok nb ∧
    in_range (Some (due_range (TopicHash topic) nb)) key ∧
    (∀ b hash id, is_u64 b → is_u64 hash → key = EventKey b hash id → hash = TopicHash topic ∧ b ≤ nb) ∧
    Unmarshal v = Ok msg ∧ shows msg key q ∧ isExpired msg nowMs = false ∧
    listed (m_hub (s_mem s1)) topic c.
Proof.
  intros Hbs Hck Hrun Hsent. pose proof (disp_step_from evs s Hrun (run_from evs s Hrun)) as Hf.
  unfold sent in Hsent. destruct ev; try done.
  destruct (disp_step _ _).2 as [| | | | | | |sc o c' gid| | | |]; try done. injection Hsent as <- <-.
  destruct Hf as [_ (i & j & s1 & msg & Hij & (s0 & nb & h & v & Hhi & Hw & (sh & Hwh & Ep & Hn) & Hb & Hin & Hu & Hx)
    & Hw1 & Hm & Hc)].
  apply Forall_cons in Hc as [Hc _]. apply iter_pairs_elem in Hin as [Hst Hrg].
  rewrite Hm. cbn [qm_DeliveryTag queue_message].
  exists h, i, j, sh, s0, s1, (sc_topic sc), (sc_nowMs sc), nb, v, msg. split_and!; try done.
  intros b hash id Hub Hus E. rewrite E in Hrg.
  assert (0 ≤ nb < 2 ^ 63) by (eapply CalculateBucket_range; [|done|exact Hb]; rewrite Hn; apply Hck).
  apply EventKey_in_due_range in Hrg as [? ?]; try done; [apply Sum64String_range|unfold is_u64; lia..].
Qed.

Lemma sent_offering s ev c q :
  sent s ev = Some (c, q) → ∃ sc o gid, offering (s_disp s) = Some (of_key o) ∧
    (disp_step (s_mem s) (s_disp s)).2 = DRecord sc o c gid ∧ q = of_msg o.
Proof.
  unfold sent. destruct ev; try done.
  destruct (s_disp s) as [| |nowMs [|t todo] total|sc|sc key val|sc key ms|sc o|sc o c' gid|sc key|sc [|x keys]|n|] eqn:Ed;
    simpl; unfold after_check; try (by repeat case_match).
  destruct (of_groups o) as [|[gid cs] gs].
  - destruct (of_universal o) as [|c' us]; [by repeat case_match|]. unfold try_send.
    destruct (chan_send _ _ _); simpl; [intros [= -> <-]|done].
    eexists _, _, _. split; [|by split]. done.
  - destruct (Select _ _ _) as [st' [c'|]]; [|done]. unfold try_send.
    destruct (chan_send _ _ _); simpl; [intros [= -> <-]|done].
    eexists _, _, _. split; [|by split]. done.
Qed.

Lemma sent_tag evs s ev c q :
  sys_run (at_rest ids m0) evs = Some s → sent s ev = Some (c, q) →
  offering (s_disp s) = Some (qm_DeliveryTag q).
Proof.
  intros Hrun Hsent. pose proof (disp_step_from evs s Hrun (run_from evs s Hrun)) as Hf.
  apply sent_offering in Hsent as (sc & o & gid & Eo & Ed & ->). rewrite Ed in Hf.
  destruct Hf as [_ (i & j & s1 & ms & _ & _ & _ & Hm & _)]. rewrite Hm. exact Eo.
Qed.

(** The step answers the tag [k], with an ACK or a NACK, or disconnects a
    consumer. *)
Definition ev_releases (k : bytes) (ev : sys_event) : Prop :=
  match ev with
  | EAck _ tag _ => tag = k
  | ELeave _ => True
  | _ => False
  end.

(** C14. No early redelivery.  A message that is in flight is sent to nobody, in
    any interleaving of passes, flushes, sweeps, publications and
    subscriptions in which its tag is neither acknowledged nor rejected, no
    consumer disconnects, it is not expired at any reading of the clock, and
    every reading is within the in-flight timeout of its dispatch. *)
Theorem no_early_redelivery evs s ev c q k v msg e :
  sys_run (at_rest ids m0) evs = Some s → sent s ev = Some (c, q) →
  length k = 24%nat → Unmarshal v = Ok msg →
  contents (m_store m0) !! k = Some v → k ∉ m_pending m0 → m_inFlight m0 !! k = Some e →
  key_id k ≤ lastID (m_repo m0) → 0 ≤ lastID (m_repo m0) → lastID (m_repo m0) + len evs < 2 ^ 64 →
  Forall ev_publish_ok evs → Forall (λ ev, ¬ ev_releases k ev) evs →
  (∀ n, (m_tick m0 ≤ n < m_tick (s_mem s))%nat →
     isExpired msg (UnixMilli (now_ns n)) = false ∧ now_ns n - dispatchedAt e < inFlightTimeout cfg) →
  qm_DeliveryTag q ≠ k.
Proof.
  intros Hrun Hsent Hk Hv Hs Hp He Hid Hu Hlt Hix Hrel Hnow. pose proof (len_nonneg evs).
  assert (Forall (λ ev, ¬ ev_acks k ev) evs) as Hack.
  { eapply Forall_impl; [exact Hrel|]. intros [] Hr; simpl in *; try tauto. destruct success; tauto. }
  assert (flying k e s) as [_ Ho].
  { eapply (sys_run_flying k v msg); [done|done|exact Hrun| |by split|done..].
    apply at_rest_secure; [done..|unfold is_u64; lia]. }
  intros E. apply Ho. rewrite <-E. by eapply sent_tag.
Qed.
End justified.
End threads.

(** ** Runs *)
Import Toy.

Abbreviation toy_mem := (@mem MapDB RoundRobinStrategy).
Abbreviation toy_sys := (@sys MapDB toy_index RoundRobinStrategy).
Abbreviation toy_sys_event := (@sys_event toy_index).
Abbreviation toy_sys_run := (@sys_run MapDB const_hash toy_index toy_protobuf RoundRobinStrategy
  key_order stopped_clock sample_cfg).
Abbreviation toy_sent := (@sent MapDB const_hash toy_index toy_protobuf RoundRobinStrategy
  key_order stopped_clock sample_cfg).

Definition key1 : bytes := EventKey 950 7 1.
Definition key2 : bytes := EventKey 960 7 2.

Definition two_messages : gmap bytes bytes :=
  <[key1 := toy_bytes (toy_msg 0)]> {[key2 := toy_bytes (toy_msg 0)]}.

Definition one_consumer : @Hub RoundRobinStrategy :=
  Register "u" "t" "" 2 (open_chan 2 1024 (NewHub NewRoundRobinStrategy)).

Definition busy_mem (fl : gmap bytes inFlightEntry) : toy_mem :=
  @mkMem MapDB RoundRobinStrategy one_consumer fl [] two_messages (mkEventRepository 2 Millisecond) 0.

Definition busy : toy_sys := at_rest {["u"%string]} (busy_mem ∅).

(** A pass over both messages, cut by an acknowledgement of the second, a flush,
    a publication and a sweep. *)
Definition busy_run : list toy_sys_event :=
  replicate 15 EDisp ++ [EPublish 0 sample_batch; ERecv 2; EAck "u" key2 true; EJan; EMark "u"; EProd 0;
    EDel; EJan; EDisp; EProd 0; EDel; EJan; EProd 0; EDel; EDisp; EDel; EDisp].

(** A run that goes through. *)
Lemma some_run {A} (o : option A) : (if o is Some _ then true else false) = true → ∃ a, o = Some a.
Proof. destruct o; [by eexists|done]. Qed.

Lemma busy_key1 : length key1 = 24%nat ∧ Unmarshal (toy_bytes (toy_msg 0)) = Ok (toy_msg 0) ∧
  two_messages !! key1 = Some (toy_bytes (toy_msg 0)) ∧ key_id key1 = 1.
Proof. split_and!; by vm_compute. Qed.

Lemma busy_run_ok :
  Forall (@ev_publish_ok toy_index toy_protobuf) busy_run ∧ Forall (λ ev : toy_sys_event, ¬ ev_acks key1 ev) busy_run.
Proof.
  assert (Forall (@indexes_ok toy_index toy_protobuf) (Messages sample_batch)) as Hix.
  { apply Forall_cons_2; [apply idx_ok|]. apply Forall_cons_2; [apply idx_ok|by apply Forall_nil_2]. }
  assert (key2 ≠ key1) as Hne by (intros E; by apply (f_equal key_id) in E).
  split; (repeat (apply Forall_cons_2; [first [exact I|exact Hix|exact Hne|by intros []]|])); by apply Forall_nil_2.
Qed.

Lemma interleaved_no_message_lost_witness :
  ∃ s', toy_sys_run busy busy_run = Some s' ∧
    @contents MapDB (m_store (s_mem s')) !! key1 = Some (toy_bytes (toy_msg 0)) ∧ key1 ∉ m_pending (s_mem s').
Proof.
  destruct (some_run (toy_sys_run busy busy_run)) as [s' Hr]; [by vm_compute|].
  destruct busy_key1 as (Hl & Hu & Hs & Hid). destruct busy_run_ok as [Hp Ha]. exists s'. split; [exact Hr|].
  refine (@interleaved_no_message_lost MapDB const_hash toy_index toy_protobuf RoundRobinStrategy
    key_order stopped_clock sample_cfg {["u"%string]} (busy_mem ∅) busy_run s' key1 _ (toy_msg 0)
    Hr Hl Hu Hs _ _ _ _ Hp Ha _); [by intros ?%elem_of_nil|by rewrite Hid|done|by vm_compute|done].
Defined.

Lemma sample_bucket_valid : valid_bucket_size (cfg_bucketSize sample_cfg).
Proof. right. simpl. unfold Millisecond. lia. Qed.
Lemma stopped_clock_i64 : ∀ n, is_i64 (UnixMilli (stopped_clock n)).
Proof. intros n. by vm_compute. Qed.

Lemma send_justified_witness :
  ∃ s c q topic i j s0 s1 v, toy_sys_run busy (replicate 5 EDisp) = Some s ∧ toy_sent s EDisp = Some (c, q) ∧
    was sample_cfg {["u"%string]} (busy_mem ∅) (replicate 5 EDisp) i s0 ∧
    was sample_cfg {["u"%string]} (busy_mem ∅) (replicate 5 EDisp) j s1 ∧
    @contents MapDB (m_store (s_mem s0)) !! qm_DeliveryTag q = Some v ∧ listed (m_hub (s_mem s1)) topic c.
Proof.
  destruct (some_run (toy_sys_run busy (replicate 5 EDisp))) as [s Hr]; [by vm_compute|].
  destruct (some_run (toy_sys_run busy (replicate 5 EDisp) ≫= λ s, toy_sent s EDisp)) as [[c q] Hs]; [by vm_compute|].
  rewrite Hr in Hs. simpl in Hs.
  destruct (@send_justified MapDB const_hash toy_index toy_protobuf RoundRobinStrategy key_order stopped_clock
    sample_cfg {["u"%string]} (busy_mem ∅) (replicate 5 EDisp) s EDisp c q
    sample_bucket_valid stopped_clock_i64 Hr Hs)
    as (h & i & j & sh & s0 & s1 & topic & nowMs & nb & v & msg & _ & _ & Hi & Hj & _ & _ & Hc & Hx).
  destruct Hx as (_ & _ & _ & _ & _ & _ & Hl).
  exists s, c, q, topic, i, j, s0, s1, v.
  exact (conj Hr (conj Hs (conj Hi (conj Hj (conj Hc Hl))))).
Defined.

Lemma calls_are_schedules_witness :
  let cs := [CallSubscribe "v" "t" "g" 3; CallPublish sample_batch; CallDispatch; CallRecv 2;
             CallAck "u" key2 true; CallFlush; CallSweep; CallUnregister "u"] in
  ∃ evs, toy_sys_run busy evs =
    Some (at_rest (foldl (λ i c, call_ids c i) {["u"%string]} cs)
            (foldl (λ m c, @do_call MapDB const_hash toy_index toy_protobuf RoundRobinStrategy key_order
               stopped_clock sample_cfg (λ _ _, eq_refl) c m) (busy_mem ∅) cs)).
Proof.
  intros cs. apply (@calls_are_schedules MapDB const_hash toy_index toy_protobuf RoundRobinStrategy key_order
    stopped_clock sample_cfg (λ _ _, eq_refl) cs {["u"%string]} (busy_mem ∅)).
  - right. simpl. unfold Millisecond. lia.
  - intros n. by vm_compute.
  - simpl. split_and!; try done; set_solver.
Defined.

(** Sends of the second message while the first is in flight. *)
Lemma no_early_redelivery_witness :
  ∃ s c q, toy_sys_run (at_rest {["u"%string]} (busy_mem {[key1 := mkInFlight 0 "t"]})) (replicate 6 EDisp) = Some s ∧
    toy_sent s EDisp = Some (c, q) ∧ qm_DeliveryTag q ≠ key1.
Proof.
  set (m := busy_mem _). set (evs := replicate 6 (@EDisp toy_index)).
  destruct (some_run (toy_sys_run (at_rest {["u"%string]} m) evs)) as [s Hr]; [by vm_compute|].
  destruct (some_run (toy_sys_run (at_rest {["u"%string]} m) evs ≫= λ s, toy_sent s EDisp)) as [[c q] Hs]; [by vm_compute|].
  rewrite Hr in Hs. simpl in Hs. exists s, c, q. split; [exact Hr|]. split; [exact Hs|].
  destruct busy_key1 as (Hl & Hu & Hst & Hid).
  refine (@no_early_redelivery MapDB const_hash toy_index toy_protobuf RoundRobinStrategy key_order stopped_clock
    sample_cfg {["u"%string]} m evs s EDisp c q key1 _ (toy_msg 0) (mkInFlight 0 "t")
    Hr Hs Hl Hu Hst _ _ _ _ _ _ _ _).
  - by intros ?%elem_of_nil.
  - apply lookup_singleton_eq.
  - by rewrite Hid.
  - done.
  - by vm_compute.
  - by repeat apply Forall_cons_2; try apply Forall_nil_2.
  - repeat apply Forall_cons_2; try apply Forall_nil_2; by intros [].
  - intros n _. split; [done|]. by vm_compute.
Defined.

(** *** Races *)

(** The second message is acknowledged, deleted and taken out of the in-flight
    map between the snapshot of a scan and the callback for its key. *)
Definition stale_scan : list toy_sys_event :=
  replicate 19 EDisp ++ replicate 3 EDisp ++ [ERecv 2; ERecv 2; EAck "u" key2 true; EMark "u"]
  ++ replicate 4 EDel ++ replicate 3 EDisp.

(** A message that was acknowledged and deleted is delivered again: the scan
    still has its pair, and the in-flight check finds nothing. *)
Theorem acked_message_redelivered :
  (λ s, (@contents MapDB (m_store (s_mem s)) !! key2,
         (λ x, (ID x.1, qm_DeliveryTag x.2)) <$> toy_sent s EDisp)) <$> toy_sys_run busy stale_scan
  = Some (None, Some ("u"%string, key2)).
Proof. by vm_compute. Qed.

(** The consumer takes the first message, acknowledges it and leaves, and the
    key is deleted, before the dispatcher has recorded the send. *)
Definition late_record : list toy_sys_event :=
  replicate 6 EDisp ++ [ERecv 2; EAck "u" key1 true; EMark "u"] ++ replicate 4 EDel
  ++ [ELeave "u"; EForget "u"] ++ replicate 3 EDisp.

(** The two in-flight entries are made after they were cleaned up: the hub keeps
    a list for a consumer that is gone, the dispatcher an entry for a key that
    is gone, and no later scan visits it. *)
Theorem in_flight_entries_leak :
  (λ s, (byID (m_hub (s_mem s)) !! "u"%string, inFlightByConsumer (m_hub (s_mem s)) !! "u"%string,
         @contents MapDB (m_store (s_mem s)) !! key1, m_inFlight (s_mem s) !! key1)) <$> toy_sys_run busy late_record
  = Some (None, Some [key1], None, Some (mkInFlight (stopped_clock 1%nat) "t")).
Proof. by vm_compute. Qed.
