(* ===== verification/StoreTyping.v ===== *)
(** * What the store holds

    The keys of the store ([src/pkg/utils/keys.go],
    [src/internal/repository/events.go],
    [src/internal/raft/event/statemachine.go]) tell the kind of the value: the
    two counters, the events, and the index entries.  [store_typed] says that
    every value is of the kind of its key.  Every write of a standalone node, in
    any interleaving, and every command of a cluster keeps it; the readers
    (start-up, scans, the expiry checks) then never meet a value they cannot
    read. *)
From stdpp Require Import prelude gmap strings sorting.
From S2P Require Import Prelude Bytes Keys Storage Pebble Proto Repository Codec.
From S2P Require Import EventCommands EventStateMachine EventShard Hub Deleter Dispatcher Janitor.
From S2P Require Import Producer Broker ClusterBroker Runners Threads.
Local Open Scope Z_scope.

Section typing.
Context `{XXHash} `{Protobuf}.
Context (bs : Z).

(** An event: the value is a message, and the key is made of the hash of its
    topic, the bucket of its fire time and an id. *)
Definition event_typed (k v : bytes) : Prop :=
  ∃ msg b id, Unmarshal v = Ok msg ∧ CalculateBucket (fireAtMs msg) bs = Ok b ∧ is_u64 id ∧
    k = EventKey b (TopicHash (sm_Topic msg)) id.

(** A key under which some message is an event. *)
Definition event_key (k : bytes) : Prop := ∃ v, event_typed k v.

(** The counters are eight bytes, an index entry is the key of an event (which
    may be gone: the deletion of an event leaves its index entries behind). *)
Definition typed (k v : bytes) : Prop :=
  if decide (k = eventsLastIDKey ∨ k = appliedIndexKey) then length v = 8%nat
  else if decide (length k = 24%nat) then event_typed k v
  else event_key v.

Definition store_typed (m : gmap bytes bytes) : Prop := map_Forall typed m.

Definition op_typed (op : batch_op) : Prop :=
  match op with OpSet k v => typed k v | OpDelete _ => True end.

(** An index that is none of the keys of the store's own. *)
Definition index_typed (k : bytes) : Prop := index_ok k ∧ k ≠ appliedIndexKey.

Lemma apply_ops_typed m ops : store_typed m → Forall op_typed ops → store_typed (apply_ops m ops).
Proof.
  intros Hm Hf. revert m Hm. induction Hf as [|op ops Hop Hf IH]; intros m Hm; simpl; [done|].
  apply IH. destruct op as [k v|k]; simpl in *; [by apply map_Forall_insert_2|by apply map_Forall_delete].
Qed.

Lemma typed_counter k v : k = eventsLastIDKey ∨ k = appliedIndexKey → length v = 8%nat → typed k v.
Proof. intros Hk Hv. unfold typed. by rewrite decide_True. Qed.

Lemma counter_length k : k = eventsLastIDKey ∨ k = appliedIndexKey → length k ≠ 24%nat.
Proof. by intros [-> | ->]. Qed.

Lemma typed_event k v : length k = 24%nat → typed k v ↔ event_typed k v.
Proof.
  intros Hk. unfold typed. rewrite decide_False by (intros Hc; by apply (counter_length k)).
  by rewrite decide_True.
Qed.

Lemma typed_index k v : index_typed k → event_key v → typed k v.
Proof.
  intros [[Hne Hl] Hna] Hv. unfold typed. rewrite decide_False by (by intros [?|?]).
  by rewrite decide_False.
Qed.

Lemma store_ops_typed id b h ixs data :
  event_typed (EventKey b h id) data → Forall index_typed ixs →
  Forall op_typed (store_ops id b h ixs data).
Proof.
  intros He Hix. unfold store_ops. apply Forall_cons_2; [|apply Forall_cons_2].
  - apply typed_counter; [by left|apply length_be_bytes].
  - apply typed_event; [apply length_EventKey|done].
  - apply Forall_fmap. eapply Forall_impl; [exact Hix|]. intros ix Hi. apply typed_index; [done|].
    by exists data.
Qed.

(** ** What producers send *)
Definition message_typed (nowMs : Z) (pm : PublishMessage) : Prop :=
  wf_pub nowMs pm ∧
  Forall (λ i, ∀ k, MarshalIndex i = Ok k → index_typed k) (pm_Indexes pm).

Lemma stored_event_typed nowMs pm b data id :
  message_typed nowMs pm → Marshal (to_stored nowMs pm) = Ok data →
  CalculateBucket (fireAtMs (to_stored nowMs pm)) bs = Ok b → is_u64 id →
  event_typed (EventKey b (TopicHash (pm_Topic pm)) id) data.
Proof.
  intros [Hw _] Hm Hb Hid. exists (to_stored nowMs pm), b, id. split_and!; [|done..].
  eapply Unmarshal_Marshal; [|done]. by eapply carries_wf, Hw; apply to_stored_carries.
Qed.

Lemma indexes_typed l ixs :
  Forall2 (λ i k, MarshalIndex i = Ok k) l ixs →
  Forall (λ i, ∀ k, MarshalIndex i = Ok k → index_typed k) l → Forall index_typed ixs.
Proof.
  induction 1 as [|i k l ixs Hi _ IH]; [done|]. intros [Hk Hl]%Forall_cons.
  constructor; [by apply Hk|by apply IH].
Qed.
End typing.

(** ** Standalone: every interleaving *)
Section standalone.
Context {DBi : DB} `{XXHash} `{Protobuf} `{DispatchStrategy} `{MapRange} `{Clock}.
Context (cfg : dispatch_config) (bs : Z).

Definition prod_typed (p : prod_pc) : Prop :=
  Forall (op_typed bs) (pr_batch p) ∧ Forall (message_typed (pr_nowMs p)) (pr_todo p).

Record sys_typed (s : sys) : Prop := {
  st_store : store_typed bs (contents (m_store (s_mem s)));
  st_size : bucketSize (m_repo (s_mem s)) = bs;
  st_prod : map_Forall (λ _, prod_typed) (s_prod s);
}.

(** The messages of a batch are typed at any reading of the clock. *)
Definition ev_typed (ev : sys_event) : Prop :=
  match ev with
  | EPublish _ batch => ∀ n, Forall (message_typed (UnixMilli (now_ns n))) (Messages batch)
  | _ => True
  end.

Lemma commit_typed d b mode :
  store_typed bs (contents d) → Forall (op_typed bs) b → store_typed bs (contents (Commit d b mode).1).
Proof.
  intros Hd Hb. destruct (Commit d b mode) as [d' [e|]] eqn:E; simpl.
  - by rewrite (Commit_err _ _ _ _ _ E).
  - rewrite (Commit_ok _ _ _ _ E). by apply apply_ops_typed.
Qed.

Lemma prod_step_typed m p :
  store_typed bs (contents (m_store m)) → bucketSize (m_repo m) = bs → prod_typed p →
  let '(m', o) := prod_step m p in
  store_typed bs (contents (m_store m')) ∧ bucketSize (m_repo m') = bs ∧ (∀ p', o = Some p' → prod_typed p').
Proof.
  intros Hs Hb [Hop Htd]. unfold prod_step. destruct (pr_todo p) as [|pm todo] eqn:E.
  { simpl. split_and!; [by apply commit_typed|done|done]. }
  apply Forall_cons in Htd as [Hpm Htd]. simpl marshalMessages.
  case_decide; [by simpl; split_and!|]. case_decide; [by simpl; split_and!|].
  unfold mbind, st_bind, mret, st_ret.
  pose proof (StoreWithBatch_fst (to_stored (pr_nowMs p) pm) (m_repo m, pr_batch p)) as Ef.
  destruct (StoreWithBatch _ _) as [[er b] [key|e| |]] eqn:Hsw; simpl in Ef; subst er; simpl;
    split_and!; try done.
  intros p' [= <-]. apply StoreWithBatch_ok in Hsw as (bk & data & ixs & Hbk & Hmd & Hf & _ & [= ->]).
  split; simpl; [|done]. apply Forall_app. split; [done|]. rewrite Hb in Hbk. apply store_ops_typed.
  - eapply stored_event_typed; [done..|apply u64_range].
  - destruct Hpm as [_ Hix]. by eapply indexes_typed.
Qed.

Lemma direct_batch_typed keys : Forall (op_typed bs) (direct_batch keys).
Proof.
  unfold direct_batch. assert (∀ b, Forall (op_typed bs) b →
    Forall (op_typed bs) (foldl (λ b k, (batch_Delete b k).1) b keys)) as Hg; [|by apply Hg].
  induction keys as [|k keys IH]; intros b Hb; simpl; [done|]. apply IH.
  unfold batch_Delete. destruct (batch_add_cases b (OpDelete k)) as [-> |[e ->]]; simpl; [|done].
  apply Forall_app. split; [done|]. by apply Forall_singleton.
Qed.

Lemma sys_step_typed s ev s' : sys_step cfg s ev = Some s' → ev_typed ev → sys_typed s → sys_typed s'.
Proof.
  intros Hst Hev [Hs Hb Hp]. destruct ev; simpl in Hst.
  - pose proof (disp_step_frame cfg (s_mem s) (s_disp s)) as (Es & Er & _).
    destruct (disp_step _ _ _) as [m' p']. injection Hst as <-. simpl in *. by split; simpl; rewrite ?Es, ?Er.
  - destruct (s_del s) as [|keys|keys|[|x keys]]; simpl in Hst; try (by repeat case_match; simplify_eq/=; split).
    pose proof (commit_typed (m_store (s_mem s)) _ Sync Hs (direct_batch_typed keys)) as Hc.
    unfold direct_DeleteKeys in Hst. destruct (Commit _ _ _) as [d' [e|]]; injection Hst as <-; by split.
  - destruct (s_jan s) as [|nowMs|[|x keys]]; simpl in Hst; by repeat case_match; simplify_eq/=; split.
  - destruct (s_prod s !! n); [done|]. destruct (Messages batch) as [|pm msgs] eqn:Em; [done|].
    injection Hst as <-. split; simpl; [done..|]. apply map_Forall_insert_2; [|done].
    split; simpl; [done|]. rewrite <-Em. apply Hev.
  - destruct (s_prod s !! n) as [p|] eqn:En; simplify_eq/=.
    pose proof (prod_step_typed (s_mem s) p Hs Hb (Hp n p En)) as Hok.
    destruct (prod_step _ _) as [m' o]. injection Hst as <-. destruct Hok as (Hs' & Hb' & Hp').
    split; simpl; [done..|]. intros n' p'. destruct (decide (n' = n)) as [-> |Hn].
    + rewrite lookup_partial_alter_eq. apply Hp'.
    + rewrite lookup_partial_alter_ne by done. apply Hp.
  - by repeat case_match; simplify_eq/=; split.
  - simplify_eq/=. by split.
  - by repeat case_match; simplify_eq/=; split.
  - by repeat case_match; simplify_eq/=; split.
  - by repeat case_match; simplify_eq/=; split.
  - by repeat case_match; simplify_eq/=; split.
Qed.

Lemma sys_run_typed s evs s' :
  sys_run cfg s evs = Some s' → Forall ev_typed evs → sys_typed s → sys_typed s'.
Proof.
  induction evs as [|ev evs IH] in s |- *; simpl; [by intros [= <-]|].
  destruct (sys_step cfg s ev) as [s1|] eqn:Hst; [|done]. simpl. intros Hr [Hev Hevs]%Forall_cons Hs.
  by eapply IH, sys_step_typed.
Qed.

(** C17. The store of a standalone node is well typed.  Through any interleaving of
    its goroutines, commits and deletions that fail included, every pair of the
    store stays of the kind its key says: the counters are eight bytes, an event
    value is a message whose topic and fire time are those of its key, and an
    index entry is the key of an event.  The published messages have int64
    fields, and no index of theirs encodes to 24 bytes or to the key of a
    counter: such an index would be written over the record of another kind. *)
Theorem interleaved_store_typed ids m evs s' :
  sys_run cfg (at_rest ids m) evs = Some s' → Forall ev_typed evs →
  store_typed bs (contents (m_store m)) → bucketSize (m_repo m) = bs →
  store_typed bs (contents (m_store (s_mem s'))) ∧ bucketSize (m_repo (s_mem s')) = bs.
Proof.
  intros Hr Hev Hs Hb.
  assert (sys_typed s') as [? ? _]; [|done]. eapply sys_run_typed; [done..|]. by split.
Qed.
End standalone.

(** ** The replicated log *)
Section log.
Context `{XXHash} `{Protobuf}.
Context (bs : Z).

Definition item_typed (it : StoreBatchItem) : Prop :=
  (∀ id, is_u64 id → event_typed bs (EventKey (Bucket it) (ItemTopicHash it) id) (Msg it)) ∧
  Forall index_typed (Indexes it).

Definition cmd_typed (cmd : bytes) : Prop :=
  match decode cmd with CmdStore items => Forall item_typed items | _ => True end.

Lemma items_ops_typed id items : Forall item_typed items → Forall (op_typed bs) (items_ops id items).
Proof.
  intros Hf. revert id. induction Hf as [|it items [He Hix] Hf IH]; intros id; [done|]. cbn [items_ops].
  apply Forall_app. split; [|apply IH]. apply store_ops_typed; [apply He, u64_range|done].
Qed.

Lemma shard_run_typed log σ :
  Forall cmd_typed log → store_typed bs (sh_events σ) → store_typed bs (sh_events (shard_run σ log)).
Proof.
  intros Hf. revert σ. induction Hf as [|cmd log Hc Hf IH]; intros σ Hs; simpl; [done|]. apply IH.
  unfold shard_step. simpl. apply apply_ops_typed; [done|]. unfold cmd_typed in Hc.
  destruct (decode cmd); simpl; [by apply items_ops_typed| |done..].
  apply Forall_fmap, Forall_forall. done.
Qed.

Lemma represents_typed c i σ : represents c i σ → store_typed bs (sh_events σ) → store_typed bs c.
Proof.
  intros [Hp Hi] Hs k v Hk. destruct (decide (k = appliedIndexKey)) as [-> |Hne].
  - apply typed_counter; [by right|]. destruct Hi as [Hi|[_ Hi]]; rewrite Hi in Hk; [|done].
    injection Hk as <-. apply length_be_bytes.
  - rewrite Hp in Hk by done. by apply Hs.
Qed.

(** What the producer proposes. *)
Lemma stored_item_typed nowMs pm it :
  message_typed nowMs pm → stored_item bs nowMs pm it → item_typed it.
Proof.
  intros Hm (Hb & Hh & Hd & Hix). split.
  - intros id Hid. rewrite Hh. by eapply stored_event_typed.
  - destruct Hm as [_ Hi]. by eapply indexes_typed.
Qed.
End log.

(** ** The cluster *)
Section cluster.
Context {DBi : DB} `{XXHash} `{Protobuf} `{DispatchStrategy} `{MapRange} `{Clock}.
Context (pcfg : producer_config) (dcfg : dispatch_config) (strat0 : strat_t).

(** A published batch: typed messages, and items that fit their length fields. *)
Definition publish_typed (ev : cluster_event) : Prop :=
  match ev with
  | CPublish _ _ batch nowMs =>
      Forall (message_typed nowMs) (Messages batch) ∧
      ∀ items, build_items pcfg batch nowMs = Ok items →
        Forall item_ok items ∧ len items * sizeof_item ≤ maxAlloc
  | _ => True
  end.

Lemma store_command_typed batch nowMs cmd :
  store_command pcfg batch nowMs = Ok cmd → publish_typed (CPublish 0 None batch nowMs) →
  cmd_typed (TimeBucketSize pcfg) cmd.
Proof.
  unfold store_command. intros (items & Hb & Hm)%outcome_bind_ok [Hty Hfit].
  destruct (Hfit items Hb) as [Hok Ha]. rewrite MarshalStoreBatchCmd_eq in Hm. injection Hm as <-.
  unfold cmd_typed. rewrite decode_encode_store by done. apply build_items_inv in Hb.
  clear -Hb Hty. induction Hb as [|pm it msgs its Hi Hb IH]; [done|].
  apply Forall_cons in Hty as [Hpm Hty]. constructor; [by eapply stored_item_typed|by apply IH].
Qed.

Lemma delete_command_typed bs keys cmd : MarshalDeleteBatchCmd keys = Ok cmd → cmd_typed bs cmd.
Proof.
  intros Hm. destruct (raft_marshal keys) as [[E0 _]|[e E0]]; rewrite E0 in Hm; [|done].
  injection Hm as <-. unfold cmd_typed, decode.
  destruct (encode_delete keys) as [|c l] eqn:E; [done|]. injection E as <- _.
  rewrite decide_False, decide_True by done. by destruct (UnmarshalDeleteBatchCmd _).
Qed.

Lemma cluster_step_log_typed c ev c' :
  cluster_step pcfg dcfg strat0 c ev = Some c' → publish_typed ev →
  Forall (cmd_typed (TimeBucketSize pcfg)) (c_log c) → Forall (cmd_typed (TimeBucketSize pcfg)) (c_log c').
Proof.
  assert (∀ n f c0, at_node n f c0 = Some c' → c_log c' = c_log c0) as Hat
    by (by intros n f c0 (? & ? & _ & _ & ->)%at_node_inv).
  intros Hst Hp Hc.
  destruct ev; cbn [cluster_step] in Hst; try (apply Hat in Hst; by rewrite Hst).
  - destruct (isLeader _ _); [|done]. destruct (store_command _ _ _) as [cmd|e| |] eqn:Es; try done.
    injection Hst as <-. simpl. apply Forall_app. split; [done|]. apply Forall_singleton.
    by eapply store_command_typed.
  - destruct (isLeader _ _); [|done]. apply Hat in Hst. by rewrite Hst.
  - destruct (c_nodes c !! n); [|done]. simpl in Hst. case_decide; [done|].
    destruct (MarshalDeleteBatchCmd _) as [cmd|e| |] eqn:Em; try done. apply Hat in Hst. rewrite Hst. simpl.
    apply Forall_app. split; [done|]. apply Forall_singleton. by eapply delete_command_typed.
  - case_decide; [|done]. destruct (boot _ _); try done. by injection Hst as <-.
  - destruct (c_nodes c !! src); [|done]. simpl in Hst. apply Hat in Hst. by rewrite Hst.
Qed.

Section replicas.
Context (Hadd : ∀ b op, batch_fault b op = None).
Context (Hnf : notfound = PebbleErrNotFound).
Context (Hgf : ∀ d k e, get_fault d k = Some e → errors_Is e PebbleErrNotFound = false).

(** C18. The stores of a cluster are well typed.  In every state a cluster can
    reach through publications, deletions, applications in portions of any
    size, crashes, restarts and snapshots installed at nodes that lag behind,
    the store of every node is well typed.  The published messages have int64
    fields, indexes that encode neither to 24 bytes nor to the key of a counter,
    and items that fit the command encoding; and a node that has installed a
    snapshot is restarted before it applies further entries. *)
Theorem cluster_store_typed evs c n nd :
  cluster_run pcfg dcfg strat0 (new_cluster) evs = Some c → Forall publish_typed evs →
  cluster_fits c → no_stale_apply ∅ evs = true → c_nodes c !! n = Some nd →
  store_typed (TimeBucketSize pcfg) (contents (db (n_sm nd))).
Proof.
  intros Hr Hp Hfit Hst Hn.
  destruct (cluster_run_ok pcfg dcfg strat0 Hadd Hnf Hgf _ _ _ _ Hfit new_cluster_ok Hst Hr n nd Hn) as (i & Hi & _).
  eapply represents_typed; [apply Hi|]. apply shard_run_typed; [|apply map_Forall_empty].
  apply Forall_take. clear -Hr Hp. assert (Forall (cmd_typed (TimeBucketSize pcfg)) (c_log new_cluster)) as Hl by done.
  revert Hr Hl. generalize new_cluster. induction evs as [|ev evs IH]; intros c0; simpl; [by intros [= <-]|].
  destruct (cluster_step _ _ _ c0 ev) as [c1|] eqn:Hst; [|done]. simpl. intros Hr Hl.
  apply Forall_cons in Hp as [Hp1 Hp]. eapply IH; [done..|]. by eapply cluster_step_log_typed.
Qed.
End replicas.
End cluster.

(** ** The readers *)
Section readers.
Context {DBi : DB} `{XXHash} `{Protobuf}.
Context (bs : Z).

Lemma be_uint_8 v : length v = 8%nat → ∃ i, be_uint 8 v = Ok i.
Proof. intros Hl. unfold be_uint. rewrite decide_True by lia. by eexists. Qed.

Lemma typed_counter_value m k v :
  store_typed bs m → k = eventsLastIDKey ∨ k = appliedIndexKey → m !! k = Some v → ∃ i, be_uint 8 v = Ok i.
Proof.
  intros Hm Hk Hv. apply Hm in Hv. unfold typed in Hv. rewrite decide_True in Hv by done. by apply be_uint_8.
Qed.

(** The value of an event key decodes, to a message of the key's topic and
    bucket. *)
Lemma typed_event_value m k v :
  store_typed bs m → valid_bucket_size bs → m !! k = Some v → length k = 24%nat →
  ∃ msg b id, Unmarshal v = Ok msg ∧ CalculateBucket (fireAtMs msg) bs = Ok b ∧ 0 ≤ b < 2 ^ 63 ∧ is_u64 id ∧
    k = EventKey b (TopicHash (sm_Topic msg)) id.
Proof.
  intros Hm Hbs Hv Hk. apply Hm, typed_event in Hv as (msg & b & id & Hu & Hb & Hid & ->); [|done].
  assert (0 ≤ b < 2 ^ 63) as Hr by (eapply CalculateBucket_range; [apply i64_range|done|exact Hb]).
  by exists msg, b, id.
Qed.

End readers.

(** ** Keys of other kinds in a topic's range

    A dispatch scan selects by the first eight bytes of the key, and the callback
    does not look at its length or at the topic of the message. *)

(** An index entry that begins with the topic hash is in the due range. *)
Theorem index_in_due_range h nb :
  is_u64 h → is_u64 nb → is_u64 (nb + 1) →
  in_range (Some (due_range h nb)) (be_bytes 8 h) ∧ length (be_bytes 8 h) ≠ 24%nat.
Proof.
  intros Hh Hn Hn1. split; [|by rewrite length_be_bytes]. split; simpl.
  - unfold bytes_le, TopicLowerBound. by rewrite bytes_compare_refl.
  - unfold bytes_lt, DueUpperBound. rewrite <-(app_nil_r (be_bytes 8 h)) at 1.
    rewrite bytes_compare_app by done. by rewrite Z.compare_refl, u64_small.
Qed.

(** ** Runs *)
Import Toy.

Lemma pub_typed nowMs d t : is_i64 nowMs → is_i64 d → @message_typed toy_index toy_protobuf nowMs (pub t d).
Proof.
  intros Hn Hd. split; [by split_and!|]. constructor; [|constructor].
  intros k [= <-]. split; apply (bool_decide_unpack _); by vm_compute.
Qed.

Lemma sample_batch_typed nowMs :
  is_i64 nowMs → Forall (@message_typed toy_index toy_protobuf nowMs) (Messages sample_batch).
Proof. intros Hn. repeat apply Forall_cons_2; [by apply pub_typed..|apply Forall_nil_2]. Qed.

Lemma busy_run_typed : Forall (@ev_typed toy_index toy_protobuf stopped_clock) busy_run.
Proof.
  assert (@ev_typed toy_index toy_protobuf stopped_clock (EPublish 0 sample_batch)) as Hp.
  { intros n. apply sample_batch_typed. by vm_compute. }
  repeat (apply Forall_cons_2; [first [exact I|exact Hp]|]). by apply Forall_nil_2.
Qed.

Definition one_message : gmap bytes bytes := {[key1 := toy_bytes (toy_msg 0)]}.

Lemma one_message_typed : @store_typed const_hash toy_index toy_protobuf Millisecond one_message.
Proof.
  apply map_Forall_singleton. apply typed_event; [done|]. exists (toy_msg 0), 950, 1.
  split_and!; by vm_compute.
Qed.

Definition typed_mem : toy_mem :=
  @mkMem MapDB RoundRobinStrategy one_consumer ∅ [] one_message (mkEventRepository 1 Millisecond) 0.

Lemma interleaved_store_typed_witness :
  ∃ s', toy_sys_run (at_rest {["u"%string]} typed_mem) busy_run = Some s' ∧
    @store_typed const_hash toy_index toy_protobuf Millisecond (@contents MapDB (m_store (s_mem s'))) ∧
    bucketSize (m_repo (s_mem s')) = Millisecond.
Proof.
  destruct (some_run (toy_sys_run (at_rest {["u"%string]} typed_mem) busy_run)) as [s' Hr]; [by vm_compute|].
  exists s'. split; [exact Hr|].
  refine (@interleaved_store_typed MapDB const_hash toy_index toy_protobuf RoundRobinStrategy key_order
    stopped_clock sample_cfg Millisecond {["u"%string]} typed_mem busy_run s' Hr _ one_message_typed eq_refl).
  exact busy_run_typed.
Defined.

Lemma sample_publish_typed n nh t :
  t ∈ [100; 200; 400] →
  @publish_typed MapDB const_hash toy_index toy_protobuf sample_producer_cfg (CPublish n nh sample_batch t).
Proof.
  intros Ht. assert (is_i64 t ∧ ∀ items, @build_items const_hash toy_index toy_protobuf
    sample_producer_cfg sample_batch t = Ok items → Forall item_ok items ∧ len items * sizeof_item ≤ maxAlloc) as [Hi Hok].
  { set_unfold in Ht. destruct_or?; subst t; (split; [by vm_compute|]); intros items Hb;
      (match type of Hb with ?o = _ =>
         assert (items = default [] (match o with Ok l => Some l | _ => None end)) as -> by (by rewrite Hb)
       end); (split; [apply (bool_decide_unpack _)|]); by vm_compute. }
  split; [by apply sample_batch_typed|exact Hok].
Qed.

Lemma cluster_ab_typed :
  Forall (@publish_typed MapDB const_hash toy_index toy_protobuf sample_producer_cfg) (cluster_start ++ cluster_rest).
Proof.
  repeat (apply Forall_cons_2; [first [exact I|apply sample_publish_typed; set_solver]|]). by apply Forall_nil_2.
Qed.

(** The node that joined with a snapshot. *)
Lemma cluster_store_typed_witness :
  ∃ nd, c_nodes cluster_b !! 3 = Some nd ∧
    @store_typed const_hash toy_index toy_protobuf Millisecond (@contents MapDB (db (n_sm nd))).
Proof.
  destruct (node_there cluster_b 3 ltac:(vm_compute; reflexivity)) as [nd Hn]. exists nd. split; [done|].
  refine (@cluster_store_typed MapDB const_hash toy_index toy_protobuf RoundRobinStrategy key_order
    stopped_clock sample_producer_cfg sample_cfg NewRoundRobinStrategy (λ _ _, eq_refl) eq_refl
    map_no_get_fault (cluster_start ++ cluster_rest) cluster_b 3 nd cluster_ab_run cluster_ab_typed
    cluster_b_fits cluster_ab_fresh Hn).
Defined.


(** A consumer of a topic that has the hash of another one: it gets the messages
    of the other topic. *)
Definition colliding_hub : @Hub RoundRobinStrategy :=
  Register "u" "other" "" 2 (open_chan 2 1024 (NewHub NewRoundRobinStrategy)).

Theorem collision_crosses_topics :
  let d := (@dispatchTopic const_hash toy_index toy_protobuf MapDB RoundRobinStrategy key_order map_direct
    stopped_clock sample_cfg sample_store "other" 1000
    (mkDispatcher colliding_hub (@NewDeleter map_direct sample_store) ∅ 0)).1 in
  @TopicHash const_hash "other" = @TopicHash const_hash "t" ∧
  (λ c, qm_Topic <$> ch_buf c) <$> chans (d_hub d) !! 2%nat = Some ["t"%string].
Proof. split; by vm_compute. Qed.
