(* ===== verification/Lifecycle.v ===== *)
(** * The life of a message

    From the publication of a message to its end on a standalone node: stored by
    the producer handler, kept through whatever the goroutines do, found by a
    dispatch scan when it is due, put into the channel of a consumer, and after
    its acknowledgement removed from the store, for good.  The parts are those
    of [Producer], [Threads], [Dispatcher] and [Deleter]; between two of them
    the goroutines run in any interleaving. *)
From stdpp Require Import prelude gmap strings sorting.
From S2P Require Import Prelude Bytes Keys Storage Pebble Proto Repository Codec.
From S2P Require Import EventCommands EventStateMachine Hub Deleter Dispatcher Janitor Producer Broker.
From S2P Require Import Runners Threads.
Local Open Scope Z_scope.

Section lifecycle.
Context {DBi : DB} `{XXHash} `{Protobuf} `{DispatchStrategy} `{MapRange} `{Clock}.
Context (cfg : dispatch_config).

(** ** A deleted key does not come back *)
Section gone.
Context (k : bytes).
Hypothesis Hk : length k = 24%nat.

(** The scan of the dispatcher does not have the key in front of it. *)
Definition unvisited (p : disp_pc) : Prop :=
  match p with
  | DScan s | DEvict s _ _ | DOffer s _ _ | DSend s _ | DRecord s _ _ _ | DTrack s _ => k ∉ (sc_pairs s).*1
  | _ => True
  end ∧ offering p ≠ Some k.

Record gone (s : sys) : Prop := {
  go_store : contents (m_store (s_mem s)) !! k = None;
  go_id : key_id k ≤ lastID (m_repo (s_mem s));
  go_u64 : is_u64 (lastID (m_repo (s_mem s)));
  go_disp : unvisited (s_disp s);
  go_prod : map_Forall (λ _, prod_ok k) (s_prod s);
}.

Lemma after_check_unvisited s key val :
  k ∉ (sc_pairs s).*1 → key ≠ k → unvisited (after_check s key val).
Proof.
  intros Hs Hne. split; [|by apply after_check_offering]. unfold after_check.
  destruct (Unmarshal val) as [msg| | |]; [destruct (isExpired _ _)|..]; done.
Qed.

Lemma try_send_unvisited s o c gid m :
  k ∉ (sc_pairs s).*1 → of_key o ≠ k → unvisited (try_send s o c gid m).2.
Proof.
  intros Hs Hne. split; [|rewrite try_send_offering; congruence].
  unfold try_send. by destruct (chan_send _ _ _).
Qed.

Lemma disp_step_unvisited m p :
  contents (m_store m) !! k = None → unvisited p → unvisited (disp_step cfg m p).2.
Proof.
  intros Hs [Hp Ho].
  destruct p as [| |nowMs [|t todo] total|s|s key val|s key ms|s o|s o c gid|s key|s [|x keys]|n|];
    simpl in *; try done.
  - by case_match.
  - by case_decide.
  - destruct (CalculateBucket _ _) as [nb|e| |]; [|done..]. split; [|done]. simpl.
    intros ([k' v] & E & Hin)%list_elem_of_fmap. simpl in E. subst k'.
    apply iter_pairs_elem in Hin as [Hc _]. congruence.
  - destruct (sc_pairs s) as [|[key val] l] eqn:E; [done|]. simpl in Hp.
    apply not_elem_of_cons in Hp as [Hne Hl].
    destruct (m_inFlight m !! key); [|by apply after_check_unvisited]. simpl.
    case_decide; (split; [done|]); simpl; congruence.
  - apply after_check_unvisited; [done|congruence].
  - by case_match.
  - destruct (of_groups o) as [|[gid cs] gs].
    + destruct (of_universal o); [simpl; by case_decide|]. apply try_send_unvisited; simpl; [done|congruence].
    + destruct (Select _ _ _) as [st' [c|]]; [|done]. apply try_send_unvisited; simpl; [done|congruence].
Qed.

Lemma del_step_gone m p :
  contents (m_store m) !! k = None →
  contents (m_store (del_thread_step m p).1) !! k = None ∧ m_repo (del_thread_step m p).1 = m_repo m.
Proof.
  intros Hs. destruct p as [|keys|keys|[|x keys]]; simpl; try done; [by case_decide|].
  unfold direct_DeleteKeys.
  destruct (Commit (m_store m) (direct_batch keys) Sync) as [d' [e|]] eqn:E; simpl; split; try done.
  - by rewrite (Commit_err _ _ _ _ _ E).
  - rewrite (Commit_ok _ _ _ _ E). apply eq_None_not_Some. intros [v Hv].
    revert Hv. generalize (direct_batch_ops keys). generalize (direct_batch keys) as ops.
    clear E. generalize (contents (m_store m)) Hs. intros c Hc ops. revert c Hc.
    induction ops as [|op ops IH]; intros c Hc Hops; simpl; [congruence|].
    destruct (Hops op ltac:(left)) as (x & _ & ->). apply IH.
    + simpl. by apply lookup_delete_None; right.
    + intros op' Hin. apply Hops. by right.
Qed.

Lemma sys_step_gone s ev s' :
  sys_step cfg s ev = Some s' → gone s → ev_publish_ok ev →
  lastID (m_repo (s_mem s)) + 1 < 2 ^ 64 →
  gone s' ∧ lastID (m_repo (s_mem s')) ≤ lastID (m_repo (s_mem s)) + 1.
Proof.
  intros Hst [Hs Hid Hu Hd Hp] Hix Hlt. destruct ev; simpl in Hst.
  - pose proof (disp_step_frame cfg (s_mem s) (s_disp s)) as (Es & Er & _).
    pose proof (disp_step_unvisited (s_mem s) (s_disp s) Hs Hd) as Hd'.
    destruct (disp_step _ _ _) as [m' p']. injection Hst as <-. simpl in *.
    split; [|rewrite Er; lia]. split; simpl; rewrite ?Es, ?Er; done.
  - pose proof (del_step_gone (s_mem s) (s_del s) Hs) as [Es Er].
    destruct (del_thread_step _ _) as [m' p']. injection Hst as <-. simpl in *.
    split; [|rewrite Er; lia]. split; simpl; rewrite ?Er; done.
  - assert (m_store (jan_step (s_mem s) (s_jan s)).1 = m_store (s_mem s) ∧
            m_repo (jan_step (s_mem s) (s_jan s)).1 = m_repo (s_mem s)) as [Es Er]
      by (by destruct (s_jan s) as [|nowMs|[|x keys]]).
    destruct (jan_step _ _) as [m' p']. injection Hst as <-. simpl in *.
    split; [|rewrite Er; lia]. split; simpl; rewrite ?Es, ?Er; done.
  - destruct (s_prod s !! n); [done|]. destruct (Messages batch) as [|pm msgs] eqn:Em; [done|].
    injection Hst as <-. split; [|simpl; lia]. split; simpl; try done.
    apply map_Forall_insert_2; [|done]. split; [done|]. simpl in *. by rewrite Em in Hix.
  - destruct (s_prod s !! n) as [p|] eqn:En; simplify_eq/=.
    pose proof (prod_step_ok k Hk (s_mem s) p Hid Hu Hlt (Hp n p En)) as Hok.
    destruct (prod_step _ _) as [m' o]. injection Hst as <-. destruct Hok as (Es & _ & _ & Hle & Hpo).
    unfold is_u64 in *. simpl in *. split; [|lia]. split; simpl; [by rewrite Es|lia|unfold is_u64; lia|done|].
    intros n' p'. destruct (decide (n' = n)) as [-> |Hn].
    + rewrite lookup_partial_alter_eq. apply Hpo.
    + rewrite lookup_partial_alter_ne by done. apply Hp.
  - repeat case_match; simplify_eq/=. split; [by split|lia].
  - simplify_eq/=. split; [by split|lia].
  - repeat case_match; simplify_eq/=; (split; [by split|lia]).
  - repeat case_match; simplify_eq/=. split; [by split|lia].
  - repeat case_match; simplify_eq/=. split; [by split|lia].
  - repeat case_match; simplify_eq/=. split; [by split|lia].
Qed.

Lemma sys_run_gone s evs s' :
  sys_run cfg s evs = Some s' → gone s → Forall ev_publish_ok evs →
  lastID (m_repo (s_mem s)) + len evs < 2 ^ 64 → gone s'.
Proof.
  induction evs as [|ev evs IH] in s |- *; simpl; [by intros [= <-]|].
  destruct (sys_step cfg s ev) as [s1|] eqn:Hst; [|done]. simpl. intros Hr Hg [Hix Hixs]%Forall_cons.
  rewrite len_cons. pose proof (len_nonneg evs). intros Hlt.
  apply sys_step_gone in Hst as [Hg1 Hle]; [|done..|lia]. apply (IH s1); [done..|lia].
Qed.

Lemma at_rest_gone ids m :
  contents (m_store m) !! k = None → key_id k ≤ lastID (m_repo m) → is_u64 (lastID (m_repo m)) →
  gone (at_rest ids m).
Proof. intros Hs Hid Hu. by split. Qed.
End gone.

(** C12. A deleted event stays deleted.  When its key is not in the store and no
    goroutine is in the middle of anything, then through any interleaving the
    key is never stored again and never delivered again: ids are not reused. *)
Theorem deleted_stays_deleted ids m evs s k :
  sys_run cfg (at_rest ids m) evs = Some s → length k = 24%nat →
  contents (m_store m) !! k = None → key_id k ≤ lastID (m_repo m) → 0 ≤ lastID (m_repo m) →
  lastID (m_repo m) + len evs < 2 ^ 64 → Forall ev_publish_ok evs →
  contents (m_store (s_mem s)) !! k = None ∧
  ∀ ev c q, sent cfg s ev = Some (c, q) → qm_DeliveryTag q ≠ k.
Proof.
  intros Hrun Hk Hs Hid Hu Hlt Hix. pose proof (len_nonneg evs).
  assert (gone k s) as [Hs' _ _ [_ Ho] _].
  { eapply sys_run_gone; [done..| |done|done]. apply at_rest_gone; [done..|unfold is_u64; lia]. }
  split; [done|]. intros ev c q Hsent E. apply Ho. rewrite <-E. by eapply sent_tag.
Qed.

(** ** The id counter grows by at most one per step *)
Lemma sys_step_ids s ev s' :
  sys_step cfg s ev = Some s' → is_u64 (lastID (m_repo (s_mem s))) → lastID (m_repo (s_mem s)) + 1 < 2 ^ 64 →
  lastID (m_repo (s_mem s)) ≤ lastID (m_repo (s_mem s')) ≤ lastID (m_repo (s_mem s)) + 1.
Proof.
  intros Hst Hu Hlt. destruct ev; simpl in Hst.
  - pose proof (disp_step_frame cfg (s_mem s) (s_disp s)) as (_ & Er & _).
    destruct (disp_step _ _ _) as [m' p']. injection Hst as <-. simpl in *. rewrite Er. lia.
  - assert (m_repo (del_thread_step (s_mem s) (s_del s)).1 = m_repo (s_mem s)) as Er
      by (destruct (s_del s) as [|keys|keys|[|x keys]]; simpl; by repeat case_match).
    destruct (del_thread_step _ _) as [m' p']. injection Hst as <-. simpl in *. rewrite Er. lia.
  - destruct (s_jan s) as [|nowMs|[|x keys]]; simpl in Hst; simplify_eq/=; lia.
  - repeat case_match; simplify_eq/=; lia.
  - destruct (s_prod s !! n) as [p|]; simplify_eq/=. unfold prod_step in Hst.
    destruct (pr_todo p) as [|pm todo]; [simplify_eq/=; lia|].
    destruct (marshalMessages [pm] _ _ _ _) as [[er b] o] eqn:Hm.
    apply marshalMessages_id in Hm; unfold len in *; simpl in *; [|done|lia].
    destruct o as [[]| | |]; simplify_eq/=; lia.
  - repeat case_match; simplify_eq/=; lia.
  - simplify_eq/=; lia.
  - repeat case_match; simplify_eq/=; lia.
  - repeat case_match; simplify_eq/=; lia.
  - repeat case_match; simplify_eq/=; lia.
  - repeat case_match; simplify_eq/=; lia.
Qed.

Lemma sys_run_ids s evs s' :
  sys_run cfg s evs = Some s' → is_u64 (lastID (m_repo (s_mem s))) →
  lastID (m_repo (s_mem s)) + len evs < 2 ^ 64 →
  lastID (m_repo (s_mem s)) ≤ lastID (m_repo (s_mem s')) ≤ lastID (m_repo (s_mem s)) + len evs.
Proof.
  induction evs as [|ev evs IH] in s |- *; simpl.
  { intros [= <-] _ _. unfold len. simpl. lia. }
  destruct (sys_step cfg s ev) as [s1|] eqn:Hst; [|done]. simpl. rewrite len_cons.
  pose proof (len_nonneg evs). intros Hr Hu Hlt. apply sys_step_ids in Hst; [|done|lia].
  unfold is_u64 in Hu. apply IH in Hr; [lia|unfold is_u64; lia|lia].
Qed.

(** ** From the publication to the end *)
Section life.
Context (Hnf : ∀ b k, batch_fault b (OpDelete k) = None).
Context (Hh : healthy).

(** An acknowledgement and a flush remove the key everywhere. *)
Lemma ack_flush_gone id k m :
  let m' := do_call cfg Hnf CallFlush (do_call cfg Hnf (CallAck id k true) m) in
  contents (m_store m') !! k = None ∧ m_inFlight m' !! k = None ∧ m_pending m' = [] ∧ m_repo m' = m_repo m.
Proof.
  simpl. unfold flush_step, flush. simpl.
  rewrite decide_False by (rewrite length_app; simpl; lia). unfold direct_DeleteKeys. simpl.
  destruct (healthy_commit (m_store m) (direct_batch (m_pending m ++ [k])) Sync Hh) as (d' & -> & Ec).
  rewrite direct_batch_all, apply_ops_deletes in Ec by done. simpl.
  set (d0 := on_deleter _ _). rewrite !RemoveInFlightBatch_deleter. subst d0. simpl.
  split_and!; [|clear Ec|done|done].
  - rewrite Ec. apply map_lookup_filter_None. right. intros v _ Hin. apply Hin. simpl. set_solver.
  - set (d0 := on_deleter _ _). assert (∀ keys (d : @Dispatcher _ (shared_backend Hnf)), k ∈ keys →
      inFlight (RemoveInFlightBatch keys d) !! k = None) as Hrm; [|apply Hrm; set_solver].
    clear. unfold RemoveInFlightBatch.
    assert (∀ keys (d : @Dispatcher _ (shared_backend Hnf)), inFlight d !! k = None →
      inFlight (foldl (λ d k, RemoveInFlight k d) d keys) !! k = None) as Hst.
    { induction keys as [|x keys IH]; intros d Hd; simpl; [done|]. apply IH. simpl.
      by apply lookup_delete_None; right. }
    induction keys as [|x keys IH]; intros d Hin; [by apply elem_of_nil in Hin|].
    apply elem_of_cons in Hin as [<- |Hin]; [|by apply IH].
    apply (Hst keys). simpl. apply lookup_delete_eq.
Qed.

(** A published message stays through the run. *)
Lemma published_kept ids ids2 m m2 batch j pm b evs1 :
  let k := EventKey b (TopicHash (pm_Topic pm)) (lastID (m_repo m) + 1 + Z.of_nat j) in
  repo_inv (contents (m_store m)) (m_repo m) → batch_ok batch (now_ms m) →
  Messages batch !! j = Some pm → (processStandaloneBatch batch (now_ms m) (m_repo m, m_store m)).2 = Ok () →
  CalculateBucket (due_ms (now_ms m) pm) (bucketSize (m_repo m)) = Ok b → k ∉ m_pending m →
  sys_run cfg (at_rest ids (do_call cfg Hnf (CallPublish batch) m)) evs1 = Some (at_rest ids2 m2) →
  lastID (m_repo m) + len (Messages batch) + len evs1 < 2 ^ 64 →
  Forall ev_publish_ok evs1 → Forall (λ ev, ¬ ev_acks k ev) evs1 →
  (∀ n, (m_tick m < n < m_tick m2)%nat → ¬ ttl_over (now_ms m) pm (UnixMilli (now_ns n))) →
  ∃ v msg, contents (m_store m2) !! k = Some v ∧ Unmarshal v = Ok msg ∧ carries (now_ms m) pm msg ∧
    key_id k ≤ lastID (m_repo m2) ∧ is_u64 (lastID (m_repo m2)).
Proof.
  intros k Hinv Hbok Hj Hpub Hb Hp Hrun Hlt Hix Hack Hnow. pose proof (len_nonneg evs1).
  unfold do_call in Hrun. destruct (processStandaloneBatch _ _ _) as [[er d] o] eqn:Hpr. simpl in Hpub. subst o.
  pose proof (ri_u64 _ _ Hinv) as Hu. pose proof (len_nonneg (Messages batch)).
  pose proof Hpr as (items & _ & Hf & Er & _)%standalone_ok; [|done|lia]. simpl in Er.
  assert (len items = len (Messages batch)) as Hlen by (unfold len; by rewrite (Forall2_length _ _ _ Hf)).
  assert (0 ≤ Z.of_nat j < len (Messages batch)) as Hjl by (apply lookup_lt_Some in Hj; unfold len; lia).
  apply publish_all_or_nothing in Hpr as [Hst _]; [|done|lia|done].
  destruct (Hst j pm Hj) as (b' & v & msg & Hb' & Hv & Hum & Hca). simpl in Hv.
  assert (b' = b) as -> by congruence. exists v, msg. unfold is_u64 in Hu.
  assert (key_id k = lastID (m_repo m) + 1 + Z.of_nat j) as Eid by (apply key_id_EventKey; unfold is_u64; lia).
  assert (secure k v msg (at_rest ids2 m2)) as [Hs _ Hid Hu2 _ _ _ _ _]; [|by split_and!].
  eapply (sys_run_secure cfg k v msg); [apply length_EventKey|done|exact Hrun| |done|done| |].
  - apply at_rest_secure; [done..| |]; simpl; rewrite Er; simpl; [lia|unfold is_u64; lia].
  - simpl. rewrite Er. simpl. lia.
  - intros n Hn. eapply carries_expired; [done|]. apply Hnow. simpl in Hn. lia.
Qed.

(** A due record that is not in flight goes to a listener with room. *)
Lemma due_delivered m2 nowMs nb topic c buf cap k v msg b id :
  let range := Some (due_range (TopicHash topic) nb) in
  valid_bucket_size (cfg_bucketSize cfg) → contents (m_store m2) !! k = Some v → Unmarshal v = Ok msg →
  k = EventKey b (TopicHash topic) id → CalculateBucket (fireAtMs msg) (cfg_bucketSize cfg) = Ok b →
  is_i64 nowMs → CalculateBucket nowMs (cfg_bucketSize cfg) = Ok nb → fireAtMs msg ≤ nowMs →
  isExpired msg nowMs = false → ¬ held (H5 := shared_backend Hnf) cfg (as_disp Hnf m2) k →
  clock_stable cfg (as_disp Hnf m2) → listening (m_hub m2) topic c buf cap →
  (length buf + length (range_pairs range (contents (m_store m2))) ≤ cap)%nat →
  let d := (dispatchTopic cfg (m_store m2) topic nowMs (as_disp Hnf m2)).1 in
  ∃ out, chans (d_hub d) !! Ch c = Some (mkChan (buf ++ out) cap) ∧ queue_message msg k ∈ out.
Proof.
  intros range Hbs Hv Hu Ek Hb Hn Hnb Hfire Hx Hheld Hst Hl Hcap.
  destruct (dispatch_topic_complete cfg (m_store m2) topic nowMs (as_disp Hnf m2) c buf cap nb)
    as (d' & Hd & Hch & _); [done|done|exact Hl|apply Hh|done|]. rewrite Hd. simpl.
  eexists. split; [exact Hch|]. apply list_elem_of_omap. exists (k, v). split.
  - apply elem_of_range_pairs. split; [done|]. rewrite Ek.
    pose proof (CalculateBucket_range _ _ _ (i64_range _) Hbs Hb).
    pose proof (CalculateBucket_range _ _ _ Hn Hbs Hnb).
    apply EventKey_in_due_range; [apply Sum64String_range|apply Sum64String_range|unfold is_u64; lia|unfold is_u64; lia|].
    split; [done|]. eapply CalculateBucket_mono; [apply i64_range|exact Hn|done|exact Hfire|done|done].
  - unfold outgoing. rewrite decide_False by done. simpl. by rewrite Hu, Hx.
Qed.

(** C1. The life of a message.  A message of a batch that was published and
    accepted is kept through any interleaved run in which its tag is not
    acknowledged and its ttl is not over.  A scan of its topic, uninterrupted
    and with the goroutines at rest, at or after the time it is due and before
    its ttl is over, puts it into the channel of every universal consumer of the
    topic whose channel has room for the whole due range, if its key is not in
    flight: with the published topic, payload and delay, the time of the
    publication, and its key as delivery tag.  Whatever runs then, an
    acknowledgement with its tag and a flush remove it from the store, from the
    in-flight map and from the queue; and whatever runs after that, it is
    neither stored nor delivered again.  The engine works, and no published
    index encodes to an event key or the key of the counter. *)
Theorem message_lifecycle ids ids2 m m2 batch j pm b evs1 nowMs nb c buf cap :
  let t0 := now_ms m in
  let k := EventKey b (TopicHash (pm_Topic pm)) (lastID (m_repo m) + 1 + Z.of_nat j) in
  let range := Some (due_range (TopicHash (pm_Topic pm)) nb) in
  (* the publication *)
  repo_inv (contents (m_store m)) (m_repo m) → batch_ok batch t0 →
  valid_bucket_size (cfg_bucketSize cfg) → bucketSize (m_repo m) = cfg_bucketSize cfg →
  Messages batch !! j = Some pm → (processStandaloneBatch batch t0 (m_repo m, m_store m)).2 = Ok () →
  CalculateBucket (due_ms t0 pm) (cfg_bucketSize cfg) = Ok b → k ∉ m_pending m →
  (* the run up to the scan *)
  sys_run cfg (at_rest ids (do_call cfg Hnf (CallPublish batch) m)) evs1 = Some (at_rest ids2 m2) →
  lastID (m_repo m) + len (Messages batch) + len evs1 < 2 ^ 64 →
  Forall ev_publish_ok evs1 → Forall (λ ev, ¬ ev_acks k ev) evs1 →
  (∀ n, (m_tick m < n < m_tick m2)%nat → ¬ ttl_over t0 pm (UnixMilli (now_ns n))) →
  (* the scan *)
  is_i64 nowMs → CalculateBucket nowMs (cfg_bucketSize cfg) = Ok nb → due_ms t0 pm ≤ nowMs →
  ¬ ttl_over t0 pm nowMs → ¬ held (H5 := shared_backend Hnf) cfg (as_disp Hnf m2) k →
  clock_stable cfg (as_disp Hnf m2) → listening (m_hub m2) (pm_Topic pm) c buf cap →
  (length buf + length (range_pairs range (contents (m_store m2))) ≤ cap)%nat →
  let d := (dispatchTopic cfg (m_store m2) (pm_Topic pm) nowMs (as_disp Hnf m2)).1 in
  (∃ out q, chans (d_hub d) !! Ch c = Some (mkChan (buf ++ out) cap) ∧ q ∈ out ∧ delivers t0 pm k q) ∧
  (* the end *)
  ∀ ids3 m3 evs2 id,
    sys_run cfg (at_rest ids2 (of_disp Hnf (m_repo m2) d)) evs2 = Some (at_rest ids3 m3) →
    lastID (m_repo m2) + len evs2 < 2 ^ 64 →
    let m4 := do_call cfg Hnf CallFlush (do_call cfg Hnf (CallAck id k true) m3) in
    contents (m_store m4) !! k = None ∧ m_inFlight m4 !! k = None ∧ m_pending m4 = [] ∧
    ∀ evs3 s, sys_run cfg (at_rest ids3 m4) evs3 = Some s → Forall ev_publish_ok evs3 →
      lastID (m_repo m3) + len evs3 < 2 ^ 64 →
      contents (m_store (s_mem s)) !! k = None ∧
      ∀ ev c q, sent cfg s ev = Some (c, q) → qm_DeliveryTag q ≠ k.
Proof.
  intros t0 k range Hinv Hbok Hbs Ebs Hj Hpub Hb Hp Hrun Hlt Hix Hack Hnow Hn Hnb Hfire Hx Hheld Hst Hl Hcap d.
  rewrite <-Ebs in Hb.
  destruct (published_kept ids ids2 m m2 batch j pm b evs1) as (v & msg & Hv & Hu & Hca & Hid & Hu2); [done..|].
  rewrite Ebs in Hb.
  assert (fireAtMs msg = due_ms t0 pm) as Ef by (unfold fireAtMs, due_ms; by destruct Hca as [_ _ -> -> _ _]).
  split.
  { destruct (due_delivered m2 nowMs nb (pm_Topic pm) c buf cap k v msg b (lastID (m_repo m) + 1 + Z.of_nat j))
      as (out & Hout & Hin); try done; rewrite ?Ef; try done; [by eapply carries_expired|].
    exists out, (queue_message msg k). split_and!; [done..|]. by eapply carries_delivers, queue_message_shows. }
  intros ids3 m3 evs2 id Hrun2 Hlt2 m4. pose proof (len_nonneg evs2).
  destruct (ack_flush_gone id k m3) as (Hg & Hfl & Hpend & Er). fold m4 in Hg, Hfl, Hpend, Er.
  clearbody m4. split_and!; [done..|]. intros evs3 s Hrun3 Hix3 Hlt3. pose proof (len_nonneg evs3).
  apply sys_run_ids in Hrun2; [|done..]. simpl in Hrun2. unfold is_u64 in Hu2. fold k in Hid.
  assert (gone k s) as [Hs _ _ [_ Ho] _].
  { eapply sys_run_gone; [apply length_EventKey|exact Hrun3| |done|simpl; by rewrite Er].
    apply at_rest_gone; [done|..]; rewrite Er; [lia|unfold is_u64; lia]. }
  split; [done|]. intros ev c' q Hsent E. apply Ho. rewrite <-E. by eapply sent_tag.
Qed.
End life.
End lifecycle.

(** ** Runs *)
Import Toy.

(** A store from which the second message is gone. *)
Definition fresh_mem : toy_mem :=
  @mkMem MapDB RoundRobinStrategy one_consumer ∅ [] {[key1 := toy_bytes (toy_msg 0)]} (mkEventRepository 2 Millisecond) 0.

Lemma deleted_stays_deleted_witness :
  ∃ s, toy_sys_run (at_rest {["u"%string]} fresh_mem) busy_run = Some s ∧
    @contents MapDB (m_store (s_mem s)) !! key2 = None ∧
    ∀ ev c q, toy_sent s ev = Some (c, q) → qm_DeliveryTag q ≠ key2.
Proof.
  destruct (some_run (toy_sys_run (at_rest {["u"%string]} fresh_mem) busy_run)) as [s Hr]; [by vm_compute|].
  exists s. split; [exact Hr|].
  refine (@deleted_stays_deleted MapDB const_hash toy_index toy_protobuf RoundRobinStrategy key_order
    stopped_clock sample_cfg {["u"%string]} fresh_mem busy_run s key2 Hr _ _ _ _ _ (proj1 busy_run_ok));
    by vm_compute.
Defined.

(** A consumer of topic b, which gets the second message of the batch. *)
Definition life_hub : @Hub RoundRobinStrategy :=
  Register "u" "b" "" 2 (open_chan 2 1024 (NewHub NewRoundRobinStrategy)).

Definition life_start : toy_mem :=
  @mkMem MapDB RoundRobinStrategy life_hub ∅ [] ∅ (mkEventRepository 0 Millisecond) 0.

Definition life_key : bytes := EventKey 1000 7 2.
Definition life_evs : list toy_sys_event := [EAck "u" key1 true; EMark "u"; EJan; EJan; EJan; EDel; EDel; EDel; EDel].
Abbreviation toy_call := (@do_call MapDB const_hash toy_index toy_protobuf RoundRobinStrategy key_order
  stopped_clock sample_cfg (λ _ _, eq_refl)).
Definition life_pub : toy_mem := toy_call (CallPublish sample_batch) life_start.
Definition life_due : toy_mem :=
  default life_pub (s_mem <$> toy_sys_run (at_rest {["u"%string]} life_pub) life_evs).

(** Whether all goroutines are at rest. *)
Definition resting (ids : gset string) (s : toy_sys) : bool :=
  match s_disp s, s_del s, s_jan s with
  | DIdle, FIdle, JIdle => bool_decide (s_prod s = ∅ ∧ s_recv s = gset_to_gmap None ids ∧ s_leaving s = ∅)
  | _, _, _ => false
  end.

Lemma resting_at_rest ids (o : option toy_sys) m :
  (if o is Some s then resting ids s else false) = true → o = Some (at_rest ids (default m (s_mem <$> o))).
Proof.
  destruct o as [[m' p q r prods recvs leaving]|]; [|done]. unfold resting. simpl.
  destruct p; try done. destruct q; try done. destruct r; try done.
  by intros (-> & -> & ->)%bool_decide_eq_true.
Qed.

Lemma life_run : toy_sys_run (at_rest {["u"%string]} life_pub) life_evs = Some (at_rest {["u"%string]} life_due).
Proof. apply resting_at_rest. by vm_compute. Qed.

Lemma life_evs_ok :
  Forall (@ev_publish_ok toy_index toy_protobuf) life_evs ∧
  Forall (λ ev : toy_sys_event, ¬ ev_acks life_key ev) life_evs.
Proof.
  assert (key1 ≠ life_key) as Hne by (intros E; by apply (f_equal key_id) in E).
  split; (repeat (apply Forall_cons_2; [first [exact I|exact Hne|by intros []]|])); by apply Forall_nil_2.
Qed.

Lemma life_batch_ok : @batch_ok toy_index toy_protobuf sample_batch 1000.
Proof.
  repeat apply Forall_cons_2; [..|apply Forall_nil_2]; (split; [apply idx_ok|]);
    apply (bool_decide_unpack _); by vm_compute.
Qed.

Lemma life_hub_eq : m_hub life_due = life_hub.
Proof. vm_cast_no_check (eq_refl life_hub). Qed.
Lemma life_inFlight_eq : m_inFlight life_due = ∅.
Proof. vm_cast_no_check (eq_refl (∅ : gmap bytes inFlightEntry)). Qed.

Lemma life_listening : listening (m_hub life_due) "b" (mkConsumerEntry "u" "b" "" 2) [] 1024.
Proof.
  rewrite life_hub_eq. split_and!; [|by vm_compute..].
  apply Register_inv; [|done|by intros ? ? ?]. by apply (hub_inv_ext (@NewHub RoundRobinStrategy NewRoundRobinStrategy)), hub_init_inv.
Qed.

(** The second message of the batch: published, due, delivered to the consumer,
    acknowledged and gone. *)
Lemma message_lifecycle_witness :
  let d := (@dispatchTopic const_hash toy_index toy_protobuf MapDB RoundRobinStrategy key_order
    (shared_backend (λ _ _, eq_refl)) stopped_clock sample_cfg (m_store life_due) "b" 1000
    (as_disp (λ _ _, eq_refl) life_due)).1 in
  (∃ out q, chans (d_hub d) !! 2%nat = Some (mkChan out 1024) ∧ q ∈ out ∧ delivers 1000 (pub "b" 0) life_key q) ∧
  @contents MapDB (m_store (toy_call CallFlush (toy_call (CallAck "u" life_key true)
    (of_disp (λ _ _, eq_refl) (m_repo life_due) d)))) !! life_key = None.
Proof.
  intros d.
  destruct (@message_lifecycle MapDB const_hash toy_index toy_protobuf RoundRobinStrategy key_order
    stopped_clock sample_cfg (λ _ _, eq_refl) MapDB_healthy {["u"%string]} {["u"%string]} life_start life_due
    sample_batch 1 (pub "b" 0) 1000 life_evs 1000 1000 (mkConsumerEntry "u" "b" "" 2) [] 1024)
    as [Hout Hend].
  - exact fresh_repo_inv.
  - exact life_batch_ok.
  - right. simpl. unfold Millisecond. lia.
  - reflexivity.
  - reflexivity.
  - by vm_compute.
  - by vm_compute.
  - by intros ?%elem_of_nil.
  - exact life_run.
  - by vm_compute.
  - exact (proj1 life_evs_ok).
  - exact (proj2 life_evs_ok).
  - intros n _ [Ht _]. by vm_compute in Ht.
  - by vm_compute.
  - by vm_compute.
  - by vm_compute.
  - intros [Ht _]. by vm_compute in Ht.
  - unfold held. simpl. rewrite life_inFlight_eq, lookup_empty. by intros [].
  - intros k e n He. simpl in He. by rewrite life_inFlight_eq, lookup_empty in He.
  - exact life_listening.
  - vm_compute. lia.
  - split; [exact Hout|].
    exact (proj1 (Hend {["u"%string]} _ [] "u"%string eq_refl ltac:(by vm_compute))).
Defined.
