(* ===== verification/Durability.v ===== *)
(** * Durability: what a power failure leaves of the store

    The sync modes of [src/internal/storage/contract.go], [Flush] of the two
    engines ([pebble.go], [bbolt.go]) and [Sync] and [Close] of the event state
    machine ([src/internal/raft/event/statemachine.go]).

    [Durable] extends the storage contract by the contents a power failure may
    leave behind: all of them after a synced commit or a flush, possibly those
    of an earlier moment after a commit without sync, never a part of a batch.
    Pebble promises this of its write-ahead log, bbolt of every transaction.

    A standalone broker commits with [Sync] only, so a power failure loses
    nothing whatever the goroutines are doing.  A replica commits with [NoSync]
    and [Sync] is called by Raft; the applied index travels with the data, so
    what is left is the state after a prefix of the log, and the replica goes on
    from there. *)
From stdpp Require Import prelude gmap strings sorting.
From S2P Require Import Prelude Bytes Keys Storage Bolt Pebble Proto Repository Codec.
From S2P Require Import EventCommands EventStateMachine EventShard Hub Deleter Dispatcher Janitor Producer Broker.
From S2P Require Import ClusterBroker Runners Threads.
Local Open Scope Z_scope.

Class Durable (DBi : DB) := {
  Flush : db_t → db_t * option error;
  (** The contents a power failure may leave. *)
  after_crash : db_t → gmap bytes bytes → Prop;

  Flush_contents d : contents (Flush d).1 = contents d;
  crash_sync d b d' m : Commit d b Sync = (d', None) → after_crash d' m → m = contents d';
  crash_nosync d b d' m :
    Commit d b NoSync = (d', None) → after_crash d' m → m = contents d' ∨ after_crash d m;
  crash_failed d b mode d' e m : Commit d b mode = (d', Some e) → after_crash d' m → after_crash d m;
  crash_flushed d d' m : Flush d = (d', None) → after_crash d' m → m = contents d';
  crash_unflushed d d' e m : Flush d = (d', Some e) → after_crash d' m → after_crash d m;
}.

#[local] Obligation Tactic := idtac.
#[local] Unset Program Cases.

(** ** The engines *)

(** Pebble: the write-ahead log is written in the order of the commits; a synced
    commit and a flush make everything before them durable.  A failure to write
    or sync the log is fatal for the process, so an error that [Commit] returns
    (a closed or read-only store, a batch that is too large, a synced commit
    without a log) comes before anything is written. *)
Class PebbleWal `{PebbleEngine} := {
  peb_Flush : pebble_raw → pebble_raw * option error;
  peb_recovered : pebble_raw → gmap bytes bytes → Prop;
  peb_Flush_map p : peb_map (peb_Flush p).1 = peb_map p;
  wal_sync p b p' m : peb_batch_Commit p b Sync = (p', None) → peb_recovered p' m → m = peb_map p';
  wal_nosync p b p' m :
    peb_batch_Commit p b NoSync = (p', None) → peb_recovered p' m → m = peb_map p' ∨ peb_recovered p m;
  wal_failed p b mode p' e m :
    peb_batch_Commit p b mode = (p', Some e) → peb_recovered p' m → peb_recovered p m;
  wal_flushed p p' m : peb_Flush p = (p', None) → peb_recovered p' m → m = peb_map p';
  wal_unflushed p p' e m : peb_Flush p = (p', Some e) → peb_recovered p' m → peb_recovered p m;
}.

(** [(p *Pebble) Flush] *)
Definition Pebble_Flush `{PebbleWal} (p : pebble_raw) : pebble_raw * option error := peb_Flush p.

#[export] Program Instance pebble_durable `{PebbleWal} : Durable pebble_DB := {|
  Flush := Pebble_Flush;
  after_crash := peb_recovered;
|}.
Next Obligation. intros. apply peb_Flush_map. Qed.
Next Obligation. intros ? ? p b p' m Hc. exact (wal_sync _ _ _ _ Hc). Qed.
Next Obligation. intros ? ? p b p' m Hc. exact (wal_nosync _ _ _ _ Hc). Qed.
Next Obligation. intros ? ? p b mode p' e m Hc. simpl in Hc. rewrite pebbleBatch_Commit_eq in Hc. by eapply wal_failed. Qed.
Next Obligation. intros ? ? p p' m Hc. exact (wal_flushed _ _ _ Hc). Qed.
Next Obligation. intros ? ? p p' e m Hc. exact (wal_unflushed _ _ _ _ Hc). Qed.

(** bbolt: every committed transaction is synced, [(b *boltDB) Flush] has
    nothing to do. *)
Definition boltDB_Flush `{BoltEngine} (b : boltDB) : boltDB * option error := (b, None).

#[export] Program Instance bolt_durable `{BoltEngine} : Durable bolt_DB := {|
  Flush := boltDB_Flush;
  after_crash b m := m = @contents bolt_DB b;
|}.
Next Obligation. done. Qed.
Next Obligation. done. Qed.
Next Obligation. intros ? b ops b' m _ Hm. by left. Qed.
Next Obligation. intros ? b ops mode b' e m Hc ->. by eapply Commit_err. Qed.
Next Obligation. by intros ? b b' m [= <-]. Qed.
Next Obligation. by intros ? b b' e m [=]. Qed.

(** ** Settled stores *)
Section durability.
Context {DBi : DB} {Du : Durable DBi}.

(** A power failure now loses nothing. *)
Definition settled (d : db_t) : Prop := ∀ m, after_crash d m → m = contents d.

Lemma commit_sync_settled d b d' e : settled d → Commit d b Sync = (d', e) → settled d'.
Proof.
  intros Hs Hc m Hm. destruct e as [e|]; [|by eapply crash_sync].
  rewrite (Commit_err _ _ _ _ _ Hc). eapply Hs, crash_failed; done.
Qed.

Lemma Flush_settled d d' : Flush d = (d', None) → settled d'.
Proof. intros Hf m. by apply (crash_flushed d). Qed.

(** ** The standalone broker *)
Section standalone.
Context `{XXHash} `{Protobuf} `{DispatchStrategy} `{MapRange} `{Clock}.
Context (cfg : dispatch_config).

Lemma sys_step_settled s ev s' :
  sys_step cfg s ev = Some s' → settled (m_store (s_mem s)) → settled (m_store (s_mem s')).
Proof.
  intros Hst Hs. destruct ev; simpl in Hst.
  - pose proof (disp_step_frame cfg (s_mem s) (s_disp s)) as (Ed & _).
    destruct (disp_step _ _ _) as [m' p']. injection Hst as <-. simpl in *. by rewrite Ed.
  - destruct (s_del s) as [|keys|keys|[|x keys]]; simpl in Hst.
    + by case_decide; simplify_eq.
    + unfold direct_DeleteKeys in Hst. destruct (Commit _ _ _) as [d' e] eqn:Hc.
      apply commit_sync_settled in Hc; [|done]. by destruct e; simplify_eq.
    + by simplify_eq.
    + by simplify_eq.
    + by simplify_eq.
  - by destruct (s_jan s) as [|nowMs|[|x keys]]; simpl in Hst; simplify_eq.
  - by repeat case_match; simplify_eq.
  - destruct (s_prod s !! n) as [p|]; simplify_eq/=. unfold prod_step in Hst.
    destruct (pr_todo p) as [|pm todo].
    + injection Hst as <-. simpl. by eapply commit_sync_settled, surjective_pairing.
    + destruct (marshalMessages _ _ _ _ _) as [[er b] o]. by destruct o as [[]| | |]; simplify_eq.
  - by repeat case_match; simplify_eq.
  - by simplify_eq.
  - by repeat case_match; simplify_eq.
  - by repeat case_match; simplify_eq.
  - by repeat case_match; simplify_eq.
  - by repeat case_match; simplify_eq.
Qed.

Lemma sys_run_settled s evs s' :
  sys_run cfg s evs = Some s' → settled (m_store (s_mem s)) → settled (m_store (s_mem s')).
Proof.
  induction evs as [|ev evs IH] in s |- *; simpl; [by intros [= <-]|].
  destruct (sys_step cfg s ev) as [s1|] eqn:Hst; [|done]. simpl. intros Hr Hs.
  by eapply IH, sys_step_settled.
Qed.

(** C8. A power failure loses no message of a standalone broker.  Whatever the
    goroutines are in the middle of, the store a power failure leaves holds
    exactly what was committed; in particular a stored message whose tag was
    not acknowledged and which was not expired at an expiry check. *)
Theorem power_failure_keeps_messages ids m evs s k v msg c :
  sys_run cfg (at_rest ids m) evs = Some s → settled (m_store m) → after_crash (m_store (s_mem s)) c →
  length k = 24%nat → Unmarshal v = Ok msg → contents (m_store m) !! k = Some v → k ∉ m_pending m →
  key_id k ≤ lastID (m_repo m) → 0 ≤ lastID (m_repo m) → lastID (m_repo m) + len evs < 2 ^ 64 →
  Forall ev_publish_ok evs → Forall (λ ev, ¬ ev_acks k ev) evs →
  (∀ n, (m_tick m ≤ n < m_tick (s_mem s))%nat → isExpired msg (UnixMilli (now_ns n)) = false) →
  c = contents (m_store (s_mem s)) ∧ c !! k = Some v.
Proof.
  intros Hrun Hs Hc Hk Hu Hv Hp Hid Hnn Hlt Hix Hack Hnow. pose proof (len_nonneg evs).
  apply (sys_run_settled _ _ _ Hrun Hs) in Hc. split; [done|]. rewrite Hc.
  assert (secure k v msg s) as [Hst _ _ _ _ _ _ _ _]; [|done].
  eapply (sys_run_secure cfg k v msg); [done|done|exact Hrun| |done..].
  apply at_rest_secure; [done..|unfold is_u64; lia].
Qed.
End standalone.

(** ** A replica *)

(** [(s *EventStateMachine) Sync]: a flush of the store. *)
Definition ESM_Sync (s : EventStateMachine) : EventStateMachine * option error :=
  let '(d, e) := Flush (db s) in (mkESM d (repo s) (lastApplied s), e).

(** [(s *EventStateMachine) Close] *)
Definition ESM_Close (s : EventStateMachine) : EventStateMachine * option error :=
  let '(d, e) := Flush (db s) in (mkESM d (repo s) (lastApplied s), e).

(** A replica and the index up to which Raft was told that it is synced. *)
Record disk := mkDisk {
  dk_sm : EventStateMachine;
  dk_synced : Z;
}.

(** The store is opened again after a power failure; what is found there is on
    disk. *)
Definition reopened (d d' : db_t) : Prop := after_crash d (contents d') ∧ settled d'.

(** What happens to a replica fed from the log [log]: portions are applied, the
    store is synced, with or without success, the power fails, also right after
    an [Update] that failed (which stops the process). *)
Inductive disk_step (log : list bytes) : disk → disk → Prop :=
  | disk_apply s n k s' r :
      let es := entries_from log (Z.to_nat (lastApplied s)) k in
      es ≠ [] → Update s es = (s', Ok r) → disk_step log (mkDisk s n) (mkDisk s' n)
  | disk_sync s n s' :
      ESM_Sync s = (s', None) → disk_step log (mkDisk s n) (mkDisk s' (lastApplied s'))
  | disk_sync_failed s n s' e :
      ESM_Sync s = (s', Some e) → disk_step log (mkDisk s n) (mkDisk s' n)
  | disk_power s n d bs s' :
      reopened (db s) d → boot d bs = Ok s' → disk_step log (mkDisk s n) (mkDisk s' (lastApplied s'))
  | disk_update_failed s n k s1 e d bs s' :
      Update s (entries_from log (Z.to_nat (lastApplied s)) k) = (s1, Err e) →
      reopened (db s1) d → boot d bs = Ok s' → disk_step log (mkDisk s n) (mkDisk s' (lastApplied s')).

Lemma Update_fail_crash s es s' e m :
  Update s es = (s', Err e) → after_crash (db s') m → after_crash (db s) m.
Proof.
  unfold Update. destruct (st_mapM _ _ _) as [[[er b] ap] [rs|x| |]]; try (by intros [= <- <-]).
  destruct (batch_Set _ _ _) as [b' [x|]]; [by intros [= <- <-]|].
  destruct (Commit _ _ _) as [d' [x|]] eqn:Hc; intros [= <- <-]. by apply (crash_failed _ _ _ _ _ _ Hc).
Qed.

Lemma Update_ok_crash s es s' r m :
  Update s es = (s', Ok r) → after_crash (db s') m → m = contents (db s') ∨ after_crash (db s) m.
Proof.
  unfold Update. destruct (st_mapM _ _ _) as [[[er b] ap] [rs|x| |]]; try done.
  destruct (batch_Set _ _ _) as [b' [x|]]; [done|].
  destruct (Commit _ _ _) as [d' [x|]] eqn:Hc; intros [= <- <-]. by apply (crash_nosync _ _ _ _ Hc).
Qed.

Lemma ESM_Sync_frame s s' e :
  ESM_Sync s = (s', e) → contents (db s') = contents (db s) ∧ repo s' = repo s ∧ lastApplied s' = lastApplied s ∧
  (∀ m, after_crash (db s') m → if e is None then m = contents (db s') else after_crash (db s) m).
Proof.
  unfold ESM_Sync. pose proof (Flush_contents (db s)) as Hf.
  destruct (Flush (db s)) as [d o] eqn:E. intros [= <- <-]. simpl in *. split_and!; try done.
  intros m. destruct o; [by eapply crash_unflushed|by eapply crash_flushed].
Qed.

Section replica.
Context (Hadd : ∀ b op, batch_fault b op = None).
Context (Hnf : notfound = PebbleErrNotFound).
Context (Hgf : ∀ d k e, get_fault d k = Some e → errors_Is e PebbleErrNotFound = false).
Context (log : list bytes) (Hlog : log_ok log) (Hlen : len log < 2 ^ 64).

(** The replica stands after [i] entries, and what a power failure leaves after
    at most as many, but not before the synced index. *)
Record disk_ok (x : disk) (i : nat) : Prop := {
  dk_le : (i ≤ length log)%nat;
  dk_applied : lastApplied (dk_sm x) = Z.of_nat i;
  dk_count : lastID (repo (dk_sm x)) = sh_id (shard_at log i);
  dk_store : represents (contents (db (dk_sm x))) (Z.of_nat i) (shard_at log i);
  dk_sync : dk_synced x ≤ Z.of_nat i;
  dk_crash : ∀ m, after_crash (db (dk_sm x)) m →
    ∃ j, (j ≤ i)%nat ∧ dk_synced x ≤ Z.of_nat j ∧ represents m (Z.of_nat j) (shard_at log j);
}.

Lemma reboot_ok x i m d bs s' :
  disk_ok x i → (∀ m, after_crash d m → m = contents d) → contents d = m → after_crash (db (dk_sm x)) m →
  boot d bs = Ok s' →
  ∃ j, disk_ok (mkDisk s' (lastApplied s')) j ∧ dk_synced x ≤ lastApplied s'.
Proof.
  intros Hx Hset <- Hm Hb. destruct (dk_crash _ _ Hx _ Hm) as (j & Hj & Hsy & Hr).
  pose proof (dk_le _ _ Hx). destruct (shard_at_inv log j Hlog) as [Hinv _].
  assert (is_u64 (Z.of_nat j)) as Hu by (unfold is_u64, len in *; lia).
  destruct (boot_ok Hnf Hgf _ _ _ _ _ Hr Hinv Hu Hb) as (Hdb & Ha & Hid).
  exists j. split; [|by rewrite Ha]. split; simpl; rewrite ?Hdb; [lia|done..|lia|].
  intros m' ->%Hset. exists j. split_and!; [done|lia|done].
Qed.

Lemma disk_step_ok x x' i :
  disk_step log x x' → disk_ok x i → ∃ j, disk_ok x' j ∧ dk_synced x ≤ lastApplied (dk_sm x').
Proof.
  intros Hst Hx. pose proof Hx as [Hle Ha Hc Hs Hsy Hcr].
  destruct Hst as [s n k s' [rs ks] es Hne Hup|s n s' Hf|s n s' e Hf|s n d bs s' [Hd Hset] Hb
    |s n k s1 e d bs s' Hup [Hd Hset] Hb]; simpl in *.
  - assert (es = entries_from log i k) as Ees by (unfold es; by rewrite Ha, Nat2Z.id). clearbody es. subst es.
    destruct (shard_at_inv log i Hlog) as [_ Hu].
    destruct (Update_represents Hadd _ _ _ _ _ _ _ Hs Hc Hu Hup) as (Hr & Hid & _ & Hap & _).
    rewrite entries_from_cmds, shard_at_run, shard_at_span in Hr, Hid.
    rewrite entries_from_last in Hap by done. simpl in Hap. set (l := take k (drop i log)) in *.
    assert (i + length l ≤ length log)%nat by (unfold l; rewrite length_take, length_drop; lia).
    exists (i + length l)%nat. split; [|rewrite Hap; lia]. split; simpl; [done|done|done|by rewrite <-Hap|lia|].
    intros m [->|Hm]%(Update_ok_crash _ _ _ _ _ Hup).
    + exists (i + length l)%nat. rewrite <-Hap. split_and!; [done|lia|done].
    + destruct (Hcr m Hm) as (j & Hj & Hsj & Hrj). exists j. split_and!; [lia|done|done].
  - destruct (ESM_Sync_frame _ _ _ Hf) as (Ec & Er & El & Hm). exists i. split; [|simpl; by rewrite El, Ha].
    split; simpl; rewrite ?Ec, ?Er, ?El, ?Ha; try done. intros m ->%Hm. exists i. by rewrite Ec.
  - destruct (ESM_Sync_frame _ _ _ Hf) as (Ec & Er & El & Hm). exists i. split; [|simpl; by rewrite El, Ha].
    split; simpl; rewrite ?Ec, ?Er, ?El; try done. intros m ?%Hm. by apply Hcr.
  - by eapply (reboot_ok (mkDisk s n) i _ d).
  - eapply (reboot_ok (mkDisk s n) i _ d); [done..| |done]. by eapply Update_fail_crash.
Qed.

Lemma disk_run_ok x x' i :
  rtc (disk_step log) x x' → disk_ok x i → ∃ j, disk_ok x' j.
Proof.
  intros Hr. revert i. induction Hr as [x|x x1 x' Hs _ IH]; intros i Hx; [by exists i|].
  destruct (disk_step_ok _ _ _ Hs Hx) as (j & Hj & _). by eapply IH.
Qed.

(** C7. A replica survives power failures.  From an empty store, whatever portions
    of the log it is fed, whenever it syncs and however often the power fails,
    its store, its id counter and its applied index are those of the same
    prefix of the log.  What a power failure would leave now is the state after
    an earlier prefix, with its own applied index, and never one before the
    last sync; and a restart always goes on at or after the last sync. *)
Theorem replica_survives_power_failures d er x :
  contents d = ∅ → settled d → lastID er = 0 →
  rtc (disk_step log) (mkDisk (mkESM d er 0) 0) x →
  (∃ i, (i ≤ length log)%nat ∧ lastApplied (dk_sm x) = Z.of_nat i ∧
    lastID (repo (dk_sm x)) = sh_id (shard_at log i) ∧
    represents (contents (db (dk_sm x))) (Z.of_nat i) (shard_at log i) ∧
    ∀ m, after_crash (db (dk_sm x)) m →
      ∃ j, (j ≤ i)%nat ∧ dk_synced x ≤ Z.of_nat j ∧ represents m (Z.of_nat j) (shard_at log j)) ∧
  ∀ x', disk_step log x x' → dk_synced x ≤ lastApplied (dk_sm x').
Proof.
  intros Hd Hset Hid Hr.
  assert (disk_ok (mkDisk (mkESM d er 0) 0) 0) as Hx0.
  { assert (represents ∅ 0 (shard_at log 0)) as Hrep by (split; [done|by right]).
    split; simpl; [lia|done|done|by rewrite Hd|done|]. intros m ->%Hset. exists 0%nat. by rewrite Hd. }
  destruct (disk_run_ok _ _ _ Hr Hx0) as (i & Hx). split.
  - exists i. by destruct Hx.
  - intros x' Hs. by destruct (disk_step_ok _ _ _ Hs Hx) as (j & _ & ?).
Qed.
End replica.

(** ** Recovery from a snapshot *)
Lemma clearDB_crash d stopc d' stopc' o m :
  clearDB d stopc = (d', stopc', o) → after_crash d' m → after_crash d m ∨ (o = Ok () ∧ m = contents d').
Proof.
  unfold clearDB. destruct (NewIter d None) as [it0|e| |]; try (intros [= <- <- <-]; by left).
  destruct (clear_loop _ _ _ _) as [[[it b] st1] [[]|e| |]]; try (intros [= <- <- <-]; by left).
  destruct (Error it); [intros [= <- <- <-]; by left|].
  destruct (Commit d b NoSync) as [d1 [e|]] eqn:Hc; intros [= <- <- <-] Hm.
  - left. by eapply crash_failed.
  - destruct (crash_nosync _ _ _ _ Hc Hm); tauto.
Qed.

(** C21. Recovery from a snapshot is atomic for power failures too: at whatever
    point it stopped, what a power failure leaves is what it could have left
    before, or an empty store, or the snapshot; and after a recovery that
    reported success only the snapshot. *)
Theorem recovery_crash_atomic s r stopc s' o m :
  RecoverFromSnapshot s r stopc = (s', o) → after_crash (db s') m →
  (after_crash (db s) m ∨ m = ∅ ∨ m = contents (db s')) ∧ (o = Ok () → m = contents (db s')).
Proof.
  unfold RecoverFromSnapshot. destruct (clearDB (db s) stopc) as [[d st1] oc] eqn:Hc.
  pose proof (clearDB_cases _ _ _ _ _ Hc) as Hcc.
  assert (after_crash d m → after_crash (db s) m ∨ m = ∅) as Hcl.
  { intros [?|[-> ->]]%(clearDB_crash _ _ _ _ _ _ Hc); [by left|]. right. by destruct Hcc as [[_ ?]|[? _]]. }
  destruct oc as [[]|e| |]; try (intros [= <- <-]; simpl; naive_solver).
  destruct (recover_loop _ _ _ _) as [b|e| |]; try (intros [= <- <-]; simpl; naive_solver).
  destruct (Commit d b Sync) as [d' [e|]] eqn:Hcm.
  { intros [= <- <-] ?%(crash_failed _ _ _ _ _ _ Hcm). naive_solver. }
  intros Hs. assert (db s' = d') as -> by (repeat case_match; by simplify_eq).
  intros ->%(crash_sync _ _ _ _ Hcm). auto.
Qed.

(** An engine that refuses synced commits, as Pebble does without a write-ahead
    log: no recovery from a snapshot succeeds, and one that reads the whole
    snapshot leaves the store empty. *)
Theorem recovery_without_wal s r stopc s' o :
  (∀ d b d', Commit d b Sync ≠ (d', None)) → RecoverFromSnapshot s r stopc = (s', o) →
  o ≠ Ok () ∧
  (∀ d st b, clearDB (db s) stopc = (d, st, Ok ()) → recover_loop (S (length (rd_rest r))) [] st r = Ok b →
     contents (db s') = ∅).
Proof.
  intros Hno. unfold RecoverFromSnapshot. destruct (clearDB (db s) stopc) as [[d st] oc] eqn:Hc.
  pose proof (clearDB_cases _ _ _ _ _ Hc) as Hcc.
  destruct oc as [[]|e| |]; try (intros [= <- <-]; naive_solver).
  destruct (recover_loop _ _ _ _) as [b|e| |] eqn:Hr; try (intros [= <- <-]; naive_solver).
  destruct (Commit d b Sync) as [d' [e|]] eqn:Hcm; [|by destruct (Hno _ _ _ Hcm)].
  intros [= <- <-]. split; [done|]. intros _ _ _ _ _. simpl. rewrite (Commit_err _ _ _ _ _ Hcm). naive_solver.
Qed.
End durability.

(** ** Runs *)
Import Toy.

(** A store with a write-ahead log: the contents, and those of the moments a
    power failure may take it back to. *)
Record wal := mkWal {
  w_now : gmap bytes bytes;
  w_past : list (gmap bytes bytes);
}.

Program Definition WalPebble : PebbleEngine := {|
  pebble_raw := wal;
  pebble_snap := gmap bytes bytes;
  pebble_it := list (bytes * bytes);
  peb_Get p k := match w_now p !! k with Some v => Ok v | None => Err PebbleErrNotFound end;
  peb_batch_fault _ _ := None;
  peb_batch_Commit p b mode :=
    (mkWal (apply_ops (w_now p) b) (if mode is Sync then [] else w_now p :: w_past p), None);
  peb_NewSnapshot p := w_now p;
  snap_NewIter s o := Ok (range_pairs o s);
  pit_First it := it;
  pit_Next it := tail it;
  pit_Valid it := bool_decide (it ≠ []);
  pit_Key it := from_option fst [] (head it);
  pit_Value it := from_option snd [] (head it);
  pit_Error _ := None;
  peb_map := w_now;
  peb_get_fault _ _ := None;
  pit_rest it := it;
|}.
Next Obligation. done. Qed.
Next Obligation. simpl. by intros p b mode p' [= <-]. Qed.
Next Obligation. simpl. by intros. Qed.
Next Obligation. intros. by split. Qed.
Next Obligation. simpl. by intros db o it [= <-]. Qed.
Next Obligation. simpl. by intros db o it [= <-]. Qed.
Next Obligation. by intros it p l ->. Qed.
Next Obligation. done. Qed.
Next Obligation. by intros it p l ->. Qed.

Program Definition wal_log : @PebbleWal WalPebble := {|
  peb_Flush (p : @pebble_raw WalPebble) := (mkWal (w_now p) [], None);
  peb_recovered (p : @pebble_raw WalPebble) m := m ∈ w_now p :: w_past p;
|}.
Next Obligation. done. Qed.
Next Obligation. simpl. by intros p b p' m [= <-] ?%list_elem_of_singleton. Qed.
Next Obligation. simpl. intros p b p' m [= <-] [->|?]%elem_of_cons; [by left|by right]. Qed.
Next Obligation. simpl. by intros. Qed.
Next Obligation. simpl. by intros p p' m [= <-] ?%list_elem_of_singleton. Qed.
Next Obligation. simpl. by intros. Qed.

Definition WalDB : DB := @pebble_DB WalPebble.
Definition WalDurable : Durable WalDB := @pebble_durable WalPebble wal_log.

Definition wal_mem : @mem WalDB RoundRobinStrategy :=
  @mkMem WalDB RoundRobinStrategy one_consumer ∅ [] (mkWal two_messages []) (mkEventRepository 2 Millisecond) 0.

Abbreviation wal_run := (@sys_run WalDB const_hash toy_index toy_protobuf RoundRobinStrategy
  key_order stopped_clock sample_cfg (at_rest {["u"%string]} wal_mem) busy_run).

Lemma power_failure_keeps_messages_witness :
  ∃ s c, wal_run = Some s ∧ @after_crash WalDB WalDurable (m_store (s_mem s)) c ∧
    c !! key1 = Some (toy_bytes (toy_msg 0)).
Proof.
  destruct (some_run wal_run) as [s Hr]; [by vm_compute|].
  destruct busy_key1 as (Hl & Hu & Hs & Hid). destruct busy_run_ok as [Hp Ha].
  assert (@after_crash WalDB WalDurable (m_store (s_mem s)) (w_now (m_store (s_mem s)))) as Hc by apply list_elem_of_here.
  exists s, (w_now (m_store (s_mem s))). split; [exact Hr|]. split; [exact Hc|].
  refine (proj2 (@power_failure_keeps_messages WalDB WalDurable const_hash toy_index toy_protobuf RoundRobinStrategy
    key_order stopped_clock sample_cfg {["u"%string]} wal_mem busy_run s key1 _ (toy_msg 0) _
    Hr _ Hc Hl Hu Hs _ _ _ _ Hp Ha _)); [|by intros ?%elem_of_nil|by rewrite Hid|done|by vm_compute|done].
  by intros m ?%list_elem_of_singleton.
Defined.

(** A replica that applies one entry, syncs, applies two more without sync and
    loses them: it starts again after the first. *)
Definition wal_cmds : list bytes := Cmd <$> sample_log.
Abbreviation wal_update := (@Update WalDB).

Definition wal_0 : @EventStateMachine WalDB := @mkESM WalDB (mkWal ∅ []) fresh_repo 0.
Definition wal_1 : @EventStateMachine WalDB := (wal_update wal_0 (entries_from wal_cmds 0 1)).1.
Definition wal_2 : @EventStateMachine WalDB := (@ESM_Sync WalDB WalDurable wal_1).1.
Definition wal_3 : @EventStateMachine WalDB := (wal_update wal_2 (entries_from wal_cmds 1 2)).1.
Definition wal_found : @db_t WalDB := mkWal (w_now (db wal_1)) [].
Definition wal_4 : @EventStateMachine WalDB :=
  match @boot WalDB wal_found Millisecond with Ok s => s | _ => wal_0 end.

Lemma update_done (s : @EventStateMachine WalDB) es :
  match (wal_update s es).2 with Ok _ => true | _ => false end = true →
  ∃ r, wal_update s es = ((wal_update s es).1, Ok r).
Proof. destruct (wal_update s es) as [s' [r| | |]]; try done. by eexists. Qed.

Lemma boot_done (d : @db_t WalDB) bs s0 :
  match @boot WalDB d bs with Ok _ => true | _ => false end = true →
  @boot WalDB d bs = Ok (match @boot WalDB d bs with Ok s => s | _ => s0 end).
Proof. by destruct (boot d bs). Qed.

Lemma wal_steps :
  rtc (@disk_step WalDB WalDurable wal_cmds) (mkDisk wal_0 0) (mkDisk wal_4 (lastApplied wal_4)).
Proof.
  assert (lastApplied wal_2 = 1) as E by (vm_compute; reflexivity).
  destruct (update_done wal_0 (entries_from wal_cmds 0 1)) as [r1 H1]; [vm_compute; reflexivity|].
  destruct (update_done wal_2 (entries_from wal_cmds 1 2)) as [r2 H2]; [vm_compute; reflexivity|].
  eapply rtc_l; [eapply (disk_apply _ wal_0 0 1); [done|exact H1]|].
  eapply rtc_l; [eapply (disk_sync _ wal_1); reflexivity|].
  eapply rtc_l; [eapply (disk_apply _ wal_2 _ 2); rewrite E; [done|exact H2]|].
  eapply rtc_l; [|apply rtc_refl].
  eapply (disk_power _ wal_3 _ wal_found Millisecond).
  - split; [|by intros m ?%list_elem_of_singleton]. right. left.
  - apply boot_done. vm_compute. reflexivity.
Qed.

Lemma replica_survives_power_failures_witness :
  ∃ i, lastApplied wal_4 = Z.of_nat i ∧
    represents (@contents WalDB (db wal_4)) (Z.of_nat i) (shard_at wal_cmds i) ∧ lastApplied wal_3 = 3.
Proof.
  destruct (@replica_survives_power_failures WalDB WalDurable (λ _ _, eq_refl) eq_refl
    ltac:(by intros ? ? ? [=]) wal_cmds ltac:(apply log_ok_check; vm_compute; reflexivity)
    ltac:(by vm_compute) (mkWal ∅ []) fresh_repo (mkDisk wal_4 (lastApplied wal_4)))
    as [(i & _ & Ha & _ & Hr & _) _].
  - done.
  - by intros m ?%list_elem_of_singleton.
  - done.
  - exact wal_steps.
  - exists i. split; [exact Ha|]. split; [exact Hr|]. vm_compute. reflexivity.
Defined.

(** A recovery from a snapshot over unsynced data, cut off in the middle: an
    empty store. *)
Abbreviation wal_recovery := (@RecoverFromSnapshot WalDB wal_3 (mkReader (take 9 leader_snapshot) ErrUnexpectedEOF) None).

Lemma recovery_crash_atomic_witness :
  @after_crash WalDB WalDurable (db wal_recovery.1) ∅ ∧
  (@after_crash WalDB WalDurable (db wal_3) ∅ ∨ (∅ : gmap bytes bytes) = ∅ ∨ ∅ = @contents WalDB (db wal_recovery.1)).
Proof.
  assert (@after_crash WalDB WalDurable (db wal_recovery.1) ∅) as Hc.
  { assert (w_now (db wal_recovery.1) = ∅) as E by (vm_compute; reflexivity).
    change (∅ ∈ w_now (db wal_recovery.1) :: w_past (db wal_recovery.1)). rewrite E. left. }
  split; [exact Hc|].
  exact (proj1 (@recovery_crash_atomic WalDB WalDurable wal_3 _ None _ _ _ (surjective_pairing wal_recovery) Hc)).
Defined.
