(* ===== verification/Restart.v ===== *)
(** * A standalone node through restarts

    The goroutines of [Threads], interleaved, with power failures anywhere: the
    store is opened again with what the failure left ([Durability]),
    [WithRepositories] reads the id counter ([src/internal/app/app.go],
    [src/internal/repository/events.go]), and hub, dispatcher and deleter are
    new ([src/cmd/futureq/start.go]).  Consumers have to subscribe again, the
    in-flight map and the queue of the deleter are gone, and so are the batches
    that were not committed.

    Publish streams run concurrently over one counter, and the batch that was
    filled first may commit last; the counter on disk is then behind an id that
    is in use, and a restart at that moment issues the id again
    ([interleaved_commits_lose_message] of [Repository]).  So a message is kept
    through restarts when the counter found on disk has reached its id; and that
    is always so when batches are published one at a time. *)
From stdpp Require Import prelude gmap strings sorting.
From S2P Require Import Prelude Bytes Keys Storage Pebble Proto Repository.
From S2P Require Import EventStateMachine Hub Deleter Dispatcher Janitor Producer Broker.
From S2P Require Import ClusterBroker Threads Durability.
Local Open Scope Z_scope.

Section restart.
Context {DBi : DB} {Du : Durable DBi} `{XXHash} `{Protobuf} `{DispatchStrategy} `{MapRange} `{Clock}.
Context (cfg : dispatch_config) (strat0 : strat_t) (bs : Z).
Context (Hnotfound : notfound = PebbleErrNotFound).
(** An engine fault is not reported as a missing key. *)
Context (Hgf : ∀ d k e, get_fault d k = Some e → errors_Is e PebbleErrNotFound = false).

Inductive node_event :=
  | NStep (ev : sys_event)
  | NPower (d : db_t).

(** The process starts over the store [d]. *)
Definition restarted (d : db_t) (er : EventRepository) (tick : nat) : sys :=
  at_rest ∅ (mkMem (NewHub strat0) ∅ [] d er tick).

(** With [serial], a stream receives a batch only when no other is being
    stored. *)
Inductive node_run (serial : bool) : sys → list node_event → sys → Prop :=
  | node_done s : node_run serial s [] s
  | node_step s ev s1 evs s' :
      (serial = true → (∃ n batch, ev = EPublish n batch) → s_prod s = ∅) →
      sys_step cfg s ev = Some s1 → node_run serial s1 evs s' →
      node_run serial s (NStep ev :: evs) s'
  | node_power s d er evs s' :
      reopened (m_store (s_mem s)) d → NewEventRepository d bs = Ok er →
      node_run serial (restarted d er (m_tick (s_mem s))) evs s' →
      node_run serial s (NPower d :: evs) s'.

Definition steps_of (evs : list node_event) : list sys_event :=
  omap (λ e, match e with NStep ev => Some ev | NPower _ => None end) evs.

Lemma node_run_tick serial s evs s' :
  node_run serial s evs s' → (m_tick (s_mem s) ≤ m_tick (s_mem s'))%nat.
Proof.
  induction 1 as [|s ev s1 evs s' _ Hst _ IH|s d er evs s' _ _ _ IH]; [done| |exact IH].
  apply sys_step_tick in Hst. lia.
Qed.

Lemma run_one s ev s' : sys_run cfg s [ev] = Some s' → sys_step cfg s ev = Some s'.
Proof. simpl. by destruct (sys_step cfg s ev). Qed.

(** A stretch of steps without a new batch. *)
Lemma steps_run serial s evs s1 rest s' :
  sys_run cfg s evs = Some s1 →
  Forall (λ ev, match ev with EPublish _ _ => False | _ => True end) evs →
  node_run serial s1 rest s' → node_run serial s ((NStep <$> evs) ++ rest) s'.
Proof.
  intros Hr Hf Hn. revert s Hr. induction Hf as [|ev evs Hev Hf IH]; intros s Hr; simpl in *; [by simplify_eq|].
  destruct (sys_step cfg s ev) as [s2|] eqn:Hst; [|done]. eapply node_step; [|exact Hst|by apply IH].
  intros _ (n & batch & ->). done.
Qed.

(** What a start reads. *)
Lemma start_counter d er :
  NewEventRepository d bs = Ok er → lastID er = persisted (contents d) ∧ is_u64 (lastID er).
Proof.
  unfold NewEventRepository, persisted. rewrite Get_spec.
  destruct (get_fault d eventsLastIDKey) as [e|] eqn:Hg; [by rewrite (Hgf _ _ _ Hg)|].
  destruct (contents d !! eventsLastIDKey) as [v|]; [|rewrite Hnotfound; by intros [= <-]].
  intros (i & Hi & [= <-])%outcome_bind_ok. unfold be_uint in Hi. case_decide; simplify_eq/=.
  split; [done|]. apply be_val_range_u64. rewrite length_take. lia.
Qed.

(** ** One batch at a time: the counter covers the ids *)

(** The counter of the process has reached every id in the store, and so has
    the counter in the store, when there is one. *)
Record covers (c : gmap bytes bytes) (er : EventRepository) : Prop := {
  cv_u64 : is_u64 (lastID er);
  cv_ids : ∀ k v, c !! k = Some v → length k = 24%nat → key_id k ≤ lastID er;
  cv_counter : ∀ v, c !! eventsLastIDKey = Some v →
    length v = 8%nat ∧ ∀ k v', c !! k = Some v' → length k = 24%nat → key_id k ≤ be_val v;
}.

(** An open batch: its ids are up to the counter, and when it is not empty it
    leaves the counter in the store. *)
Record batch_covers (b : Batch) (id : Z) : Prop := {
  bc_ids : Forall (λ op, length (op_key op) = 24%nat → key_id (op_key op) ≤ id) b;
  bc_top : b = [] ∨ ∀ m, apply_ops m b !! eventsLastIDKey = Some (be_bytes 8 id);
}.

Record counted (s : sys) : Prop := {
  ct_store : covers (contents (m_store (s_mem s))) (m_repo (s_mem s));
  ct_prod : ∀ n p, s_prod s !! n = Some p →
    s_prod s = {[n := p]} ∧ batch_covers (pr_batch p) (lastID (m_repo (s_mem s))) ∧
    Forall indexes_ok (pr_todo p);
}.

Lemma covers_sub c c' er :
  covers c er → (∀ k v, c' !! k = Some v → c !! k = Some v) → covers c' er.
Proof.
  intros [Hu Hi Hc] Hs. split; [done|eauto|]. intros v Hv. destruct (Hc v (Hs _ _ Hv)) as [Hl Hk]. eauto.
Qed.

Lemma covers_grow c er er' :
  covers c er → lastID er ≤ lastID er' → is_u64 (lastID er') → covers c er'.
Proof. intros [_ Hi Hc] Hle Hu. split; [done| |done]. intros k v Hk Hl. specialize (Hi k v Hk Hl). lia. Qed.

Lemma covers_commit c er b :
  covers c er → batch_covers b (lastID er) → covers (apply_ops c b) er.
Proof.
  intros Hc [Hids Htop]. destruct (decide (b = [])) as [->|Hne]; [done|].
  assert (∀ k v, apply_ops c b !! k = Some v → length k = 24%nat → key_id k ≤ lastID er) as Hall.
  { intros k v [Hk|(op & Hin & <-)]%apply_ops_from Hl; [by eapply cv_ids|].
    rewrite Forall_forall in Hids. by apply Hids. }
  split; [apply Hc|done|]. intros v. destruct Htop as [?|Htop]; [done|]. rewrite Htop. intros [= <-].
  rewrite be_val_be_bytes, Z.mod_small by apply (cv_u64 _ _ Hc). split; [apply length_be_bytes|done].
Qed.

Lemma batch_covers_store b id id' bk h ixs data :
  batch_covers b id → id ≤ id' → is_u64 id' → Forall index_ok ixs →
  batch_covers (b ++ store_ops id' bk h ixs data) id'.
Proof.
  intros [Hids _] Hle Hu Hix. split.
  - apply Forall_app. split; [eapply Forall_impl; [exact Hids|]; intros op Ho Hl; specialize (Ho Hl); lia|].
    unfold store_ops. repeat apply Forall_cons_2; simpl.
    + done.
    + intros _. by rewrite key_id_EventKey.
    + apply Forall_fmap. eapply Forall_impl; [exact Hix|]. intros ix [_ Hl] E. by destruct Hl.
  - right. intros m. unfold store_ops.
    apply (apply_ops_last m b (OpSet eventsLastIDKey (be_bytes 8 id'))); [done|]. apply Forall_cons_2.
    + apply key_ne_counter, length_EventKey.
    + apply Forall_fmap. eapply Forall_impl; [exact Hix|]. by intros ix [Hne _].
Qed.

Lemma prod_step_covers m p :
  covers (contents (m_store m)) (m_repo m) → lastID (m_repo m) + 1 < 2 ^ 64 →
  batch_covers (pr_batch p) (lastID (m_repo m)) → Forall indexes_ok (pr_todo p) →
  let '(m', o) := prod_step m p in
  covers (contents (m_store m')) (m_repo m') ∧
  lastID (m_repo m) ≤ lastID (m_repo m') ≤ lastID (m_repo m) + 1 ∧
  ∀ p', o = Some p' → batch_covers (pr_batch p') (lastID (m_repo m')) ∧ Forall indexes_ok (pr_todo p').
Proof.
  intros Hc Hlt Hb Hix. pose proof (cv_u64 _ _ Hc) as Hu. unfold is_u64 in Hu.
  unfold prod_step. destruct (pr_todo p) as [|pm todo] eqn:Etd.
  - simpl. destruct (Commit _ _ _) as [d' [e|]] eqn:E; simpl; (split_and!; [|lia..|done]).
    + by rewrite (Commit_err _ _ _ _ _ E).
    + rewrite (Commit_ok _ _ _ _ E). by apply covers_commit.
  - apply Forall_cons in Hix as [Hi Hix]. destruct (marshalMessages _ _ _ _ _) as [[er' b] o] eqn:Hm.
    assert (lastID (m_repo m) ≤ lastID er' ≤ lastID (m_repo m) + 1) as Hle.
    { apply marshalMessages_id in Hm; unfold len in *; simpl in *; [lia|unfold is_u64; lia|lia]. }
    assert (covers (contents (m_store m)) er') as Hc' by (eapply covers_grow; [done|lia|unfold is_u64; lia]).
    destruct o as [[]| | |]; simpl; (split_and!; [done|lia|lia|]); intros p' [= <-]; simpl; (split; [|done]).
    simpl in Hm. case_decide; [done|]. case_decide; [done|]. unfold mbind, st_bind in Hm.
    destruct (StoreWithBatch _ _) as [s1 [key| | |]] eqn:Hsw; simplify_eq/=. injection Hm as ->.
    apply StoreWithBatch_ok in Hsw as (bk & data & ixs & _ & _ & Hf & _ & [= -> ->]). simpl in *.
    rewrite u64_small by (unfold is_u64; lia). apply (batch_covers_store _ (lastID (m_repo m)));
      [done|lia|unfold is_u64; lia|].
    unfold indexes_ok in Hi. clear -Hf Hi. induction Hf as [|i x l l' Hx Hf IH]; [done|].
    apply Forall_cons in Hi as [Hi' Hi]. constructor; [by apply Hi'|by apply IH].
Qed.

Lemma del_step_sub m p k v :
  contents (m_store (del_thread_step m p).1) !! k = Some v → contents (m_store m) !! k = Some v.
Proof.
  destruct p as [|keys|keys|[|x keys]]; simpl; try done; [by case_decide|]. unfold direct_DeleteKeys.
  destruct (Commit _ _ _) as [d' [e|]] eqn:E; simpl; [by rewrite (Commit_err _ _ _ _ _ E)|].
  rewrite (Commit_ok _ _ _ _ E). generalize (direct_batch_ops keys). generalize (direct_batch keys) as ops. clear E.
  generalize (contents (m_store m)). intros c ops. revert c.
  induction ops as [|op ops IH]; intros c Hops; simpl; [done|]. destruct (Hops op ltac:(left)) as (x & _ & ->).
  intros Hk. apply IH in Hk; [|intros op' Hin; apply Hops; by right]. simpl in Hk.
  by apply lookup_delete_Some in Hk as [_ Hk].
Qed.

Lemma sys_step_counted s ev s' :
  sys_step cfg s ev = Some s' → counted s → ev_publish_ok ev →
  ((∃ n batch, ev = EPublish n batch) → s_prod s = ∅) → lastID (m_repo (s_mem s)) + 1 < 2 ^ 64 → counted s'.
Proof.
  intros Hst [Hc Hp] Hix Hser Hlt. destruct ev; simpl in Hst.
  - pose proof (disp_step_frame cfg (s_mem s) (s_disp s)) as (Es & Er & _).
    destruct (disp_step _ _ _) as [m' p']. injection Hst as <-. simpl in *. split; simpl; rewrite ?Es, ?Er; done.
  - pose proof (del_step_sub (s_mem s) (s_del s)) as Hsub.
    assert (m_repo (del_thread_step (s_mem s) (s_del s)).1 = m_repo (s_mem s)) as Er
      by (destruct (s_del s) as [|keys|keys|[|x keys]]; simpl; by repeat case_match).
    destruct (del_thread_step _ _) as [m' p']. injection Hst as <-. simpl in *.
    split; simpl; rewrite ?Er; [by eapply covers_sub|done].
  - destruct (s_jan s) as [|nowMs|[|x keys]]; simpl in Hst; simplify_eq/=; by split.
  - specialize (Hser ltac:(eauto)). rewrite Hser, lookup_empty in Hst.
    destruct (Messages batch) as [|pm msgs] eqn:Em; [done|]. injection Hst as <-. split; simpl; [done|].
    intros n' p'. rewrite lookup_insert_Some. intros [[<- <-]|[_ E]]; [|by rewrite lookup_empty in E].
    split; [by rewrite insert_empty|]. simpl in *. rewrite Em in Hix. split; [|done]. split; [done|by left].
  - destruct (s_prod s !! n) as [p|] eqn:En; simplify_eq/=. destruct (Hp n p En) as (Es & Hb & Hi).
    pose proof (prod_step_covers (s_mem s) p Hc Hlt Hb Hi) as Hok.
    destruct (prod_step _ _) as [m' o]. injection Hst as <-. destruct Hok as (Hc' & Hle & Hp').
    split; simpl; [done|]. rewrite Es. intros n' p' Hn'.
    destruct o as [p1|].
    + assert (partial_alter (λ _, Some p1) n {[n := p]} = ({[n := p1]} : gmap nat prod_pc)) as E
        by exact (insert_singleton_eq n p1 p).
      rewrite E in Hn' |- *. apply lookup_singleton_Some in Hn' as [<- <-]. split; [done|]. by apply Hp'.
    + exfalso. destruct (decide (n' = n)) as [->|Hne].
      * by rewrite lookup_partial_alter_eq in Hn'.
      * by rewrite lookup_partial_alter_ne, lookup_singleton_ne in Hn'.
  - repeat case_match; simplify_eq/=; by split.
  - simplify_eq/=. by split.
  - repeat case_match; simplify_eq/=; by split.
  - repeat case_match; simplify_eq/=; by split.
  - repeat case_match; simplify_eq/=; by split.
  - repeat case_match; simplify_eq/=; by split.
Qed.

Lemma repo_inv_covers c er : repo_inv c er → covers c er.
Proof.
  intros [Hc Hi Hl Hu]. split; [done|intros k v Hk H24; specialize (Hi k v Hk H24); lia|].
  intros v Hv. specialize (Hc v Hv). split; [done|]. unfold persisted in Hi. by rewrite Hv, take_ge in Hi by lia.
Qed.

Lemma at_rest_counted ids m :
  covers (contents (m_store m)) (m_repo m) → counted (at_rest ids m).
Proof. intros Hc. split; [done|]. intros n p. simpl. by rewrite lookup_empty. Qed.

(** ** A restart *)
Lemma restarted_covers c er d er' :
  covers c er → contents d = c → is_Some (contents d !! eventsLastIDKey) →
  NewEventRepository d bs = Ok er' → covers (contents d) er'.
Proof.
  intros [_ _ Hc] <- [v Hv] [El Hu]%start_counter. destruct (Hc v Hv) as [Hl Hk].
  unfold persisted in El. rewrite Hv, take_ge in El by lia.
  split; [done|rewrite El; exact Hk|]. intros v' Hv'. assert (v' = v) as -> by congruence. done.
Qed.

Section kept.
Context (k v : bytes) (msg : StoredMessage) (bound : Z) (serial : bool).
Hypothesis Hk : length k = 24%nat.
Hypothesis Hv : Unmarshal v = Ok msg.

(** What a restart finds on disk: the ids do not run out; the counter has
    reached the id of the message or, when batches come one at a time, there is
    a counter at all. *)
Definition found_ok (e : node_event) : Prop :=
  match e with
  | NStep _ => True
  | NPower d =>
      persisted (contents d) + bound < 2 ^ 64 ∧
      if serial then is_Some (contents d !! eventsLastIDKey) else key_id k ≤ persisted (contents d)
  end.

Record kept (s : sys) : Prop := {
  kp_secure : secure k v msg s;
  kp_settled : settled (m_store (s_mem s));
  kp_counted : serial = true → counted s;
}.

Lemma power_kept s d er :
  kept s → found_ok (NPower d) → reopened (m_store (s_mem s)) d → NewEventRepository d bs = Ok er →
  kept (restarted d er (m_tick (s_mem s))) ∧ lastID er + bound < 2 ^ 64.
Proof.
  intros [Hsec Hset Hct] [Hb Hf] [Hd Hd'] Her. apply Hset in Hd.
  pose proof (start_counter _ _ Her) as [El Hu]. pose proof (se_stored _ _ _ _ Hsec) as Hs.
  rewrite <-Hd in Hs. rewrite El. split; [|done].
  assert (key_id k ≤ lastID er ∧ (serial = true → covers (contents d) er)) as [Hid Hcov].
  { destruct serial.
    - assert (covers (contents d) er) as Hc by (by eapply restarted_covers; [by apply (Hct eq_refl)|..]).
      split; [by eapply cv_ids|done].
    - split; [by rewrite El|done]. }
  split; [|exact Hd'|intros E; by apply at_rest_counted, Hcov].
  apply at_rest_secure; [exact Hs|apply not_elem_of_nil|exact Hid|exact Hu].
Qed.

Lemma node_run_kept s evs s' :
  node_run serial s evs s' → kept s → len evs ≤ bound → lastID (m_repo (s_mem s)) + len evs < 2 ^ 64 →
  Forall found_ok evs → Forall ev_publish_ok (steps_of evs) → Forall (λ ev, ¬ ev_acks k ev) (steps_of evs) →
  (∀ n, (m_tick (s_mem s) ≤ n < m_tick (s_mem s'))%nat → isExpired msg (UnixMilli (now_ns n)) = false) →
  kept s'.
Proof.
  induction 1 as [s|s ev s1 evs s' Hser Hst Hrun IH|s d er evs s' Hre Her Hrun IH];
    intros Hkp Hlen Hlt Hf Hix Hack Hnow; [done|..];
    rewrite len_cons in Hlen, Hlt; pose proof (len_nonneg evs); apply node_run_tick in Hrun as Ht;
    apply Forall_cons in Hf as [Hf1 Hf].
  - simpl in Hix, Hack. apply Forall_cons in Hix as [Hix1 Hix]. apply Forall_cons in Hack as [Ha1 Hack].
    pose proof Hkp as [Hsec Hset Hct].
    pose proof (sys_step_settled cfg _ _ _ Hst Hset) as Hset1.
    assert (serial = true → counted s1) as Hct1.
    { intros E. eapply sys_step_counted; [done|by apply Hct|done|by apply Hser|lia]. }
    apply (sys_step_secure cfg k v msg) in Hst as (Hsec1 & Ht1 & Hle); [|done..|lia|intros ?; apply Hnow; lia].
    apply IH; [by split|lia|lia|done..|]. intros n Hn. apply Hnow. lia.
  - destruct (power_kept s d er Hkp Hf1 Hre Her) as [Hkp1 Hb]. apply IH; [done|lia|simpl; lia|done..].
Qed.
End kept.

(** C9. Messages survive restarts.  The goroutines of a standalone node interleave
    in any way, and power failures with restarts come anywhere between their
    steps.  A stored event stays in the store, with its value, until its tag is
    acknowledged or its ttl is over at a reading of the clock, if at every
    restart the id counter found on disk has reached its id; when batches are
    published one at a time, it is enough that the counter record is on disk.
    In that case every later restart also starts from a counter that covers all
    ids in the store, so no id in use is issued again.  No published index
    encodes to an event key or the key of the counter, and ids do not run out. *)
Theorem restarts_lose_nothing serial ids m evs s k v msg :
  node_run serial (at_rest ids m) evs s →
  repo_inv (contents (m_store m)) (m_repo m) → settled (m_store m) →
  length k = 24%nat → Unmarshal v = Ok msg → contents (m_store m) !! k = Some v → k ∉ m_pending m →
  Forall (found_ok k (len evs) serial) evs → lastID (m_repo m) + len evs < 2 ^ 64 →
  Forall ev_publish_ok (steps_of evs) → Forall (λ ev, ¬ ev_acks k ev) (steps_of evs) →
  (∀ n, (m_tick m ≤ n < m_tick (s_mem s))%nat → isExpired msg (UnixMilli (now_ns n)) = false) →
  contents (m_store (s_mem s)) !! k = Some v ∧ (k ∉ m_pending (s_mem s)) ∧
  ∀ d er, reopened (m_store (s_mem s)) d → NewEventRepository d bs = Ok er →
    contents d = contents (m_store (s_mem s)) ∧
    (serial = true → is_Some (contents d !! eventsLastIDKey) →
     ∀ k' v', contents d !! k' = Some v' → length k' = 24%nat → key_id k' ≤ lastID er).
Proof.
  intros Hrun Hr Hset Hk Hv Hs Hp Hf Hlt Hix Hack Hnow. pose proof (len_nonneg evs).
  pose proof (repo_inv_covers _ _ Hr) as Hc.
  assert (kept k v msg serial s) as [Hsec Hset' Hct].
  { eapply (node_run_kept k v msg (len evs) serial Hk Hv _ evs); [exact Hrun| |done..].
    split; [|done|intros _; by apply at_rest_counted].
    apply at_rest_secure; [done|done|by eapply cv_ids|apply Hc]. }
  split_and!; [apply Hsec|apply Hsec|]. intros d er [Hd _] Her. apply Hset' in Hd. split; [done|].
  intros -> Hsome k' v' Hk' Hl.
  assert (covers (contents d) er) as Hcd by (by eapply restarted_covers; [by apply (Hct eq_refl)|..]).
  by eapply cv_ids.
Qed.
End restart.

(** ** Runs *)
Import Toy.

Definition counted_store : gmap bytes bytes :=
  <[eventsLastIDKey := be_bytes 8 2]> {[key1 := toy_bytes (toy_msg 0)]}.

Abbreviation wal_sys := (@sys WalDB toy_index RoundRobinStrategy).
Abbreviation wal_sys_run := (@sys_run WalDB const_hash toy_index toy_protobuf RoundRobinStrategy
  key_order stopped_clock sample_cfg).
Abbreviation wal_node_run := (@node_run WalDB WalDurable const_hash toy_index toy_protobuf RoundRobinStrategy
  key_order stopped_clock sample_cfg NewRoundRobinStrategy Millisecond).

Definition node_mem : @mem WalDB RoundRobinStrategy :=
  @mkMem WalDB RoundRobinStrategy one_consumer ∅ [] (mkWal counted_store []) (mkEventRepository 2 Millisecond) 0.
Definition node_0 : wal_sys := at_rest {["u"%string]} node_mem.
(** A batch is stored, a sweep has begun. *)
Definition store_evs : list (@sys_event toy_index) := [EProd 0; EProd 0; EJan; EProd 0; EJan].
Definition node_1 : wal_sys := default node_0 (wal_sys_run node_0 [EPublish 0 sample_batch]).
Definition node_2 : wal_sys := default node_0 (wal_sys_run node_1 store_evs).
(** The power fails; the node starts again, and the sweep begins anew. *)
Definition disk_2 : @db_t WalDB := mkWal (w_now (m_store (s_mem node_2))) [].
Definition node_3 : wal_sys :=
  @restarted WalDB toy_index RoundRobinStrategy NewRoundRobinStrategy disk_2
    (mkEventRepository 4 Millisecond) (m_tick (s_mem node_2)).
Definition sweep_evs : list (@sys_event toy_index) := [EJan; EJan; EDisp; EDel].
Definition node_4 : wal_sys := default node_0 (wal_sys_run node_3 sweep_evs).

Definition node_evs : list (@node_event WalDB toy_index) :=
  NStep (EPublish 0 sample_batch) :: (NStep <$> store_evs) ++ NPower disk_2 :: (NStep <$> sweep_evs) ++ [].

Lemma node_evs_run : wal_node_run true node_0 node_evs node_4.
Proof.
  eapply (node_step _ _ _ _ _ _ node_1).
  - done.
  - apply run_one, some_default. by vm_compute.
  - eapply (steps_run _ _ _ _ _ _ node_2).
    + apply some_default. by vm_compute.
    + repeat constructor.
    + eapply node_power with (er := mkEventRepository 4 Millisecond).
      * split; [left|]. by intros m ?%list_elem_of_singleton.
      * vm_compute. reflexivity.
      * eapply (steps_run _ _ _ _ _ _ node_4); [apply some_default; by vm_compute|repeat constructor|apply node_done].
Qed.

Lemma counted_store_inv : repo_inv counted_store (mkEventRepository 2 Millisecond).
Proof.
  split; [intros v Hv|intros k v Hk H24| |]; try by vm_compute.
  - unfold counted_store in Hv. rewrite lookup_insert_eq in Hv. by injection Hv as <-.
  - assert (map_Forall (λ k _, key_id k ≤ 2 ∨ length k ≠ 24%nat) counted_store) as Hall
      by (apply (bool_decide_unpack _); by vm_compute).
    destruct (Hall k v Hk) as [Hle|?]; [|done]. exact Hle.
Qed.

Lemma node_evs_ok :
  Forall (found_ok key1 (len node_evs) true) node_evs ∧
  Forall (@ev_publish_ok toy_index toy_protobuf) (steps_of node_evs) ∧
  Forall (λ ev : @sys_event toy_index, ¬ ev_acks key1 ev) (steps_of node_evs).
Proof.
  assert (Forall (@indexes_ok toy_index toy_protobuf) (Messages sample_batch)) as Hix.
  { apply Forall_cons_2; [apply idx_ok|]. apply Forall_cons_2; [apply idx_ok|by apply Forall_nil_2]. }
  split_and!.
  - repeat (apply Forall_cons_2; [first [exact I|split; [by vm_compute|apply is_Some_alt; by vm_compute]]|]).
    by apply Forall_nil_2.
  - repeat (apply Forall_cons_2; [first [exact I|exact Hix]|]). by apply Forall_nil_2.
  - repeat (apply Forall_cons_2; [by intros []|]). by apply Forall_nil_2.
Qed.

Lemma restarts_lose_nothing_witness :
  @contents WalDB (m_store (s_mem node_4)) !! key1 = Some (toy_bytes (toy_msg 0)).
Proof.
  destruct node_evs_ok as (Hf & Hix & Hack).
  refine (proj1 (@restarts_lose_nothing WalDB WalDurable const_hash toy_index toy_protobuf RoundRobinStrategy
    key_order stopped_clock sample_cfg NewRoundRobinStrategy Millisecond eq_refl
    ltac:(by intros ? ? ? [=]) true {["u"%string]} node_mem node_evs node_4 key1 _ (toy_msg 0)
    node_evs_run counted_store_inv _ _ _ _ _ Hf _ Hix Hack _)).
  - by intros m ?%list_elem_of_singleton.
  - done.
  - by vm_compute.
  - by vm_compute.
  - by intros ?%elem_of_nil.
  - by vm_compute.
  - done.
Defined.
