(* ===== verification/Handles.v ===== *)
(** * Engine resources

    Read transactions, snapshots, iterators, batches and the closers of [Get]
    have to be released by whoever opened them: [NewIter], [NewBatch], [Get],
    [Scan], [Commit] and the [Close] methods of the two engines
    ([src/internal/storage/bbolt.go], [pebble.go]) and their uses in the
    repository ([src/internal/repository/events.go]), the event state machine
    ([src/internal/raft/event/statemachine.go]), the producer handler and the
    deleter, with the order in which the deferred calls run.

    [handles] are the resources a goroutine holds.  The operations of the other
    files are repeated here with the acquisitions and releases of the source
    around them; every theorem says that the result is the one of the plain
    operation and what is left open.  [HandleDB] is what an engine promises. *)
From stdpp Require Import prelude gmap strings sorting.
From S2P Require Import Prelude Bytes Keys Storage Bolt Pebble Proto Repository Codec.
From S2P Require Import EventCommands EventStateMachine Hub Deleter Dispatcher Janitor Producer.
Local Open Scope Z_scope.

Inductive handle := HReadTx | HWriteTx | HSnapshot | HIter | HBatch | HValue.

#[export] Instance handle_eq_dec : EqDecision handle.
Proof. solve_decision. Defined.

(** [h_misuse]: something was closed that is not open.  [h_nested]: a write
    transaction was begun under an open read transaction of the same goroutine,
    which bbolt documents as a deadlock when the file has to be remapped. *)
Record handles := mkHandles {
  h_next : nat;
  h_open : gmap nat handle;
  h_misuse : bool;
  h_nested : bool;
}.

Definition no_handles : handles := mkHandles 0 ∅ false false.

(** Identifiers in use are below the next one. *)
Definition h_wf (h : handles) : Prop := ∀ i, is_Some (h_open h !! i) → (i < h_next h)%nat.

(** A read transaction is open. *)
Definition reading (h : handles) : Prop := HReadTx ∈ (map_to_list (h_open h)).*2.

#[export] Instance reading_dec h : Decision (reading h).
Proof. unfold reading. apply _. Defined.

(** Code that acquires and releases, with its result. *)
Abbreviation ht A := (handles → handles * A).

Definition acquire (k : handle) (h : handles) : handles * nat :=
  (mkHandles (S (h_next h)) (<[h_next h := k]> (h_open h)) (h_misuse h) (h_nested h), h_next h).

Definition release (i : nat) (h : handles) : handles :=
  mkHandles (h_next h) (delete i (h_open h))
    (h_misuse h || bool_decide (h_open h !! i = None)) (h_nested h).

Definition release_all (own : list nat) (h : handles) : handles := foldl (flip release) h own.

(** [defer f()]: [f] runs when the function returns, also with a panic. *)
Definition deferred {A} (f : handles → handles) (m : ht A) : ht A := λ h,
  let '(h', o) := m h in (f h', o).

(** ** What a piece of code does to the handles *)

(** Nothing is left open or closed and nothing was misused. *)
Record same (h h' : handles) : Prop := {
  sm_open : h_open h' = h_open h;
  sm_next : (h_next h ≤ h_next h')%nat;
  sm_misuse : h_misuse h' = h_misuse h;
}.

(** The handles [own] are open in addition. *)
Record more (own : list nat) (h h' : handles) : Prop := {
  mo_open : ∀ i, i ∉ own → h_open h' !! i = h_open h !! i;
  mo_own : ∀ i, i ∈ own → h_open h !! i = None ∧ is_Some (h_open h' !! i) ∧ (i < h_next h')%nat;
  mo_nodup : NoDup own;
  mo_next : (h_next h ≤ h_next h')%nat;
  mo_misuse : h_misuse h' = h_misuse h;
}.

#[export] Instance same_preorder : PreOrder same.
Proof.
  split; [by intros h|]. intros h1 h2 h3 [O1 N1 M1] [O2 N2 M2]. split; [congruence|lia|congruence].
Qed.

Lemma same_wf h h' : h_wf h → same h h' → h_wf h'.
Proof. intros Hw [Ho Hn _] i. rewrite Ho. intros Hi%Hw. lia. Qed.

Lemma more_wf own h h' : h_wf h → more own h h' → h_wf h'.
Proof.
  intros Hw [Ho Hown _ Hn _] i Hi. destruct (decide (i ∈ own)) as [Hin|Hin]; [by apply Hown|].
  rewrite Ho in Hi by done. apply Hw in Hi. lia.
Qed.

Lemma more_same own h h1 h2 : more own h h1 → same h1 h2 → more own h h2.
Proof.
  intros [Ho Hown Hnd Hn Hm] [O N M]. split.
  - intros i Hi. rewrite O. by apply Ho.
  - intros i Hi. rewrite O. destruct (Hown i Hi) as (? & ? & ?). split_and!; [done..|lia].
  - done.
  - lia.
  - congruence.
Qed.

Lemma same_more h h' : same h h' → more [] h h'.
Proof.
  intros [Ho Hn Hm]. split; [by rewrite Ho| |apply NoDup_nil_2|done..].
  by intros i Hi%elem_of_nil.
Qed.

Lemma acquire_more k h : h_wf h → more [(acquire k h).2] h (acquire k h).1.
Proof.
  intros Hw. split; simpl; try done; try lia.
  - intros i Hi%not_elem_of_cons. by rewrite lookup_insert_ne by naive_solver.
  - intros i ->%list_elem_of_singleton. rewrite lookup_insert_eq. split_and!; [|done|lia].
    apply eq_None_not_Some. intros Hi%Hw. lia.
  - apply NoDup_singleton.
Qed.

Lemma more_app own own' h h1 h2 : h_wf h1 → more own h h1 → more own' h1 h2 → more (own' ++ own) h h2.
Proof.
  intros Hw M1 M2. destruct M1 as [Ho Hown Hnd Hn Hm], M2 as [Ho' Hown' Hnd' Hn' Hm'].
  assert (∀ i, i ∈ own' → i ∉ own) as Hdis.
  { intros i Hi Hi2. destruct (Hown' i Hi) as [E _]. destruct (Hown i Hi2) as (_ & [k Hk] & _). congruence. }
  split.
  - intros i [Hi Hi2]%not_elem_of_app. rewrite Ho', Ho by done. done.
  - intros i [Hi|Hi]%elem_of_app.
    + destruct (Hown' i Hi) as (E & ? & ?). rewrite <-(Ho i) by (by apply Hdis). done.
    + destruct (Hown i Hi) as (? & ? & ?). rewrite Ho' by (intros ?; by eapply Hdis). split_and!; [done..|lia].
  - apply NoDup_app. by split_and!.
  - lia.
  - congruence.
Qed.

(** Releasing what was acquired, in whatever order, restores the handles. *)
Lemma release_all_more own own' h h' : own' ≡ₚ own → more own h h' → same h (release_all own' h').
Proof.
  intros Hp [Ho Hown Hnd Hn Hm].
  assert (∀ l g, NoDup l → (∀ i, i ∈ l → is_Some (h_open g !! i)) →
    h_next (release_all l g) = h_next g ∧ h_misuse (release_all l g) = h_misuse g ∧
    ∀ i, h_open (release_all l g) !! i = if decide (i ∈ l) then None else h_open g !! i) as Hrel.
  { induction l as [|x l IH]; intros g Hl Hg; [by split_and!; try done; intros i; rewrite decide_False by apply not_elem_of_nil|].
    apply NoDup_cons in Hl as [Hx Hl]. destruct (IH (release x g) Hl) as (E1 & E2 & E4).
    { intros i Hi. simpl. rewrite lookup_delete_ne by (intros ->; done). apply Hg. by right. }
    simpl. split_and!; [done| |].
    - rewrite E2. simpl. rewrite bool_decide_eq_false_2; [by rewrite orb_false_r|].
      destruct (Hg x) as [k ->]; [by left|done].
    - intros i. rewrite E4. simpl. destruct (decide (i = x)) as [->|Hne].
      + rewrite decide_False by done. rewrite lookup_delete_eq. by rewrite decide_True by left.
      + rewrite lookup_delete_ne by done. apply decide_ext. rewrite elem_of_cons. naive_solver. }
  destruct (Hrel own' h') as (E1 & E2 & E4); [by rewrite Hp|intros i Hi; rewrite Hp in Hi; by apply Hown|].
  split; [|by rewrite E1|congruence]. apply map_eq. intros i. rewrite E4. case_decide as Hin.
  - rewrite Hp in Hin. symmetry. by apply Hown.
  - rewrite Hp in Hin. by apply Ho.
Qed.

Lemma release_all_nested own h : h_nested (release_all own h) = h_nested h.
Proof. induction own as [|i own IH] in h |- *; [done|]. apply (IH (release i h)). Qed.

(** A [Close] method or a closer: what it does to the handles. *)
Abbreviation closer := (handles → handles).

(** What was opened between [h] and [h'] is what [close] releases. *)
Definition owns (close : closer) (h h' : handles) : Prop :=
  ∃ own, (∀ g, close g = release_all own g) ∧ more own h h'.

Lemma owns_wf close h h' : h_wf h → owns close h h' → h_wf h'.
Proof. intros Hw (own & _ & M). by eapply more_wf. Qed.

Lemma owns_close close h h1 h2 : owns close h h1 → same h1 h2 → same h (close h2).
Proof. intros (own & -> & M) S. eapply release_all_more; [done|]. by eapply more_same. Qed.

Lemma owns_nested close h h' g : owns close h h' → h_nested (close g) = h_nested g.
Proof. intros (own & -> & _). apply release_all_nested. Qed.

(** Code that returns [a] and leaves the handles as it found them; code that
    also begins no write transaction under a read transaction of its own. *)
Definition leaves {A} (m : ht A) (a : A) : Prop := ∀ h, h_wf h → (m h).2 = a ∧ same h (m h).1.

Definition flat {A} (m : ht A) : Prop :=
  ∀ h, h_wf h → ¬ reading h → h_nested (m h).1 = h_nested h.

Definition tidy {A} (m : ht A) (a : A) : Prop := leaves m a ∧ flat m.

(** Code that may also panic with something still open. *)
Definition leaves_unless {A} (panics : A → Prop) (m : ht A) (a : A) : Prop :=
  ∀ h, h_wf h → (m h).2 = a ∧ (¬ panics a → same h (m h).1).

(** A constructor of a resource: what it hands out has to be released, an
    error hands out nothing. *)
Definition opens {A} (m : ht (outcome (A * closer))) (r : outcome A) : Prop := ∀ h, h_wf h →
  h_nested (m h).1 = h_nested h ∧
  match m h with
  | (h', Ok (a, close)) => r = Ok a ∧ owns close h h'
  | (h', Err e) => r = Err e ∧ same h h'
  | (h', Panic) => r = Panic ∧ same h h'
  | (h', OutOfFuel) => r = OutOfFuel ∧ same h h'
  end.

(** ** What an engine promises *)
Class HandleDB (DBi : DB) := {
  GetH : db_t → bytes → ht (outcome (bytes * closer));
  NewBatchH : ht closer;
  CommitH : db_t → Batch → SyncMode → ht (db_t * option error);
  ScanH : ∀ {A}, db_t → option IterOptions → yield_t A → A → ht (A * option error);
  NewIterH : db_t → option IterOptions → ht (outcome (it_t * closer));

  GetH_opens d k : opens (GetH d k) (Get d k);
  NewIterH_opens d o : opens (NewIterH d o) (NewIter d o);
  NewBatchH_owns h : h_wf h → owns (NewBatchH h).2 h (NewBatchH h).1;
  NewBatchH_nested h : h_nested (NewBatchH h).1 = h_nested h;
  NewBatchH_reading h : h_wf h → reading (NewBatchH h).1 → reading h;
  CommitH_tidy d b m : tidy (CommitH d b m) (Commit d b m);
  ScanH_tidy A d o (yield : yield_t A) a : tidy (ScanH d o yield a) (Scan d o yield a);
}.

Lemma reading_insert h k :
  h_wf h → reading (acquire k h).1 ↔ k = HReadTx ∨ reading h.
Proof.
  intros Hw. unfold reading. simpl. rewrite map_to_list_insert.
  - simpl. rewrite elem_of_cons. naive_solver.
  - apply eq_None_not_Some. intros Hi%Hw. lia.
Qed.

(** A resource that is released at the end of the function. *)
Lemma acquire_release k h : h_wf h → same h (release (acquire k h).2 (acquire k h).1).
Proof. intros Hw. exact (release_all_more _ [_] _ _ (reflexivity _) (acquire_more k h Hw)). Qed.

Lemma acquire_owns k h : h_wf h → owns (release (acquire k h).2) h (acquire k h).1.
Proof. intros Hw. exists [(acquire k h).2]. split; [done|]. by apply acquire_more. Qed.

Lemma same_owns h h' : same h h' → owns id h h'.
Proof. intros S. exists []. split; [done|]. by apply same_more. Qed.

(** ** bbolt *)
Section bolt.
Context `{BoltEngine}.

(** [View] and [Begin(false)]: the read transaction is over when the callback
    returns, or when the caller rolls it back. *)
Definition bolt_ViewH {A} (raw : bolt_raw) (failed : error → A) (f : A) : ht A := λ h,
  match bolt_begin_err raw with
  | Some e => (h, failed e)
  | None =>
      let '(h1, tx) := acquire HReadTx h in
      (release tx h1, f)
  end.

(** The callback copies the value, so the closer has nothing to release
    ([io.NopCloser]). *)
Definition bolt_GetH (b : boltDB) (key : bytes) : ht (outcome (bytes * closer)) :=
  bolt_ViewH (bdb_db b) Err
    match tx_Bucket (bdb_db b) (bdb_bucket b) with
    | None => Err err_bucket
    | Some bkt =>
        match bkt_Get bkt key with
        | None => Err ErrNotFound
        | Some v => Ok (v, id)
        end
    end.

(** A [boltBatch] is a slice of operations: [Close] empties it, and there is
    nothing to release. *)
Definition boltBatch_Close (_ : Batch) : Batch := [].
Definition bolt_NewBatchH : ht closer := λ h, (h, id).

Definition bolt_ScanH {A} (b : boltDB) (o : option IterOptions) (yield : yield_t A) (a : A)
    : ht (A * option error) :=
  bolt_ViewH (bdb_db b) (λ e, (a, Some e))
    match tx_Bucket (bdb_db b) (bdb_bucket b) with
    | None => (a, None)
    | Some bkt =>
        let r := bolt_start (lower_of o) (bkt_Cursor bkt) in
        bolt_scan_loop (length (cur_ahead r)) (upper_of o) yield r a
    end.

(** The iterator owns its transaction; [Close] rolls it back. *)
Definition boltIterator_Close (tx : nat) : closer := release tx.

Definition bolt_NewIterH (b : boltDB) (o : option IterOptions)
    : ht (outcome (boltIterator * closer)) := λ h,
  match bolt_begin_err (bdb_db b) with
  | Some e => (h, Err (ErrorWrap "bbolt: failed to begin read tx" e))
  | None =>
      let '(h1, tx) := acquire HReadTx h in
      match tx_Bucket (bdb_db b) (bdb_bucket b) with
      | None => (release tx h1, Err err_bucket)
      | Some bkt =>
          (h1, Ok (mkBoltIterator (bkt_Cursor bkt) (lower_of o) (upper_of o) None false,
                   boltIterator_Close tx))
      end
  end.

(** [Update]: committed or rolled back, the transaction is over. *)
Definition bolt_CommitH (b : boltDB) (ops : Batch) (mode : SyncMode)
    : ht (boltDB * option error) := λ h,
  match bolt_begin_rw_err (bdb_db b) with
  | Some e => (h, (b, Some e))
  | None =>
      let nested := h_nested h || bool_decide (reading h) in
      let '(h1, tx) := acquire HWriteTx h in
      (release tx (mkHandles (h_next h1) (h_open h1) (h_misuse h1) nested),
       bolt_Commit b ops mode)
  end.

Lemma bolt_ViewH_tidy {A} raw failed (f : A) r :
  r = match bolt_begin_err raw with Some e => failed e | None => f end →
  tidy (bolt_ViewH raw failed f) r.
Proof.
  intros ->. unfold bolt_ViewH. split.
  - intros h Hw. destruct (bolt_begin_err raw); [done|]. split; [done|]. by apply acquire_release.
  - intros h _ _. by destruct (bolt_begin_err raw).
Qed.

Lemma bolt_CommitH_tidy b ops m : tidy (bolt_CommitH b ops m) (bolt_Commit b ops m).
Proof.
  unfold bolt_CommitH. split; intros h Hw.
  - unfold bolt_Commit. destruct (bolt_begin_rw_err (bdb_db b)); [done|]. split; [done|].
    by destruct (acquire_release HWriteTx h Hw).
  - intros Hr. destruct (bolt_begin_rw_err (bdb_db b)); [done|]. simpl.
    by rewrite bool_decide_eq_false_2, orb_false_r.
Qed.

Lemma bolt_GetH_opens b k : opens (bolt_GetH b k) (bolt_Get b k).
Proof.
  intros h Hw. unfold bolt_GetH, bolt_ViewH, bolt_Get.
  destruct (bolt_begin_err _); [done|]. split; [done|].
  pose proof (acquire_release HReadTx h Hw) as Hs.
  destruct (tx_Bucket _ _) as [bkt|]; [|done]. destruct (bkt_Get _ _); [|done].
  split; [done|]. by apply same_owns.
Qed.

Lemma bolt_NewIterH_opens b o : opens (bolt_NewIterH b o) (bolt_NewIter b o).
Proof.
  intros h Hw. unfold bolt_NewIterH, bolt_NewIter.
  destruct (bolt_begin_err _); [done|].
  destruct (tx_Bucket _ _) as [bkt|]; (split; [done|]); (split; [done|]).
  - by apply (acquire_owns HReadTx).
  - by apply (acquire_release HReadTx).
Qed.
End bolt.

#[export] Instance bolt_HandleDB `{BE : BoltEngine} : HandleDB (@bolt_DB BE) :=
  Build_HandleDB (@bolt_DB BE) bolt_GetH bolt_NewBatchH bolt_CommitH (@bolt_ScanH BE) bolt_NewIterH
    bolt_GetH_opens bolt_NewIterH_opens (λ h _, same_owns h h (reflexivity h)) (λ h, eq_refl) (λ h _ Hr, Hr)
    bolt_CommitH_tidy (λ A d o yield a, bolt_ViewH_tidy _ _ _ _ eq_refl).

(** ** Pebble *)
Section pebble.
Context `{PebbleEngine}.

(** The closer of a value that was found unpins it; an error has none. *)
Definition Pebble_GetH (p : pebble_raw) (key : bytes) : ht (outcome (bytes * closer)) := λ h,
  match peb_Get p key with
  | Ok v => let '(h1, c) := acquire HValue h in (h1, Ok (v, release c))
  | Err e => (h, Err e)
  | Panic => (h, Panic)
  | OutOfFuel => (h, OutOfFuel)
  end.

Definition pebbleBatch_Close (b : nat) : closer := release b.
Definition Pebble_NewBatchH : ht closer := λ h,
  let '(h1, b) := acquire HBatch h in (h1, pebbleBatch_Close b).

Definition Pebble_CommitH (p : pebble_raw) (b : Batch) (mode : SyncMode)
    : ht (pebble_raw * option error) := λ h, (h, pebbleBatch_Commit p b mode).

(** [Close] goes on to the snapshot when closing the iterator failed. *)
Definition pebbleIterator_CloseH (iter snap : nat) : closer := λ h, release snap (release iter h).

(** The iterator owns the snapshot too: its [Close] releases the iterator,
    then the snapshot.  When the iterator cannot be made the snapshot is
    released at once. *)
Definition Pebble_NewIterH (p : pebble_raw) (o : option IterOptions)
    : ht (outcome (pebble_it * closer)) := λ h,
  let '(h1, snap) := acquire HSnapshot h in
  match snap_NewIter (peb_NewSnapshot p) (po ← o; Some (mkIterOptions (LowerBound po) (UpperBound po))) with
  | Ok it => let '(h2, iter) := acquire HIter h1 in (h2, Ok (it, pebbleIterator_CloseH iter snap))
  | Err e => (release snap h1, Err e)
  | Panic => (h1, Panic)
  | OutOfFuel => (h1, OutOfFuel)
  end.

(** [defer snap.Close()] comes first and [defer iter.Close()] runs first. *)
Definition Pebble_ScanH {A} (p : pebble_raw) (o : option IterOptions) (yield : yield_t A) (a : A)
    : ht (A * option error) := λ h,
  let '(h1, snap) := acquire HSnapshot h in
  deferred (release snap) (λ h1,
    match snap_NewIter (peb_NewSnapshot p) (po ← o; Some (mkIterOptions (LowerBound po) (UpperBound po))) with
    | Ok iter =>
        let '(h2, i) := acquire HIter h1 in
        deferred (release i) (λ h2,
          let it := pit_First iter in
          (h2, pebble_scan_loop (length (pit_rest it)) yield it a)) h2
    | Err e => (h1, (a, Some e))
    | _ => (h1, (a, None))
    end) h1.

Lemma Pebble_GetH_opens p k : opens (Pebble_GetH p k) (Pebble_Get p k).
Proof.
  intros h Hw. unfold Pebble_GetH, Pebble_Get. destruct (peb_Get p k); [|done..].
  split; [done|]. split; [done|]. by apply (acquire_owns HValue).
Qed.

Lemma Pebble_NewIterH_opens p o : opens (Pebble_NewIterH p o) (Pebble_NewIter p o).
Proof.
  intros h Hw. unfold Pebble_NewIterH, Pebble_NewIter. pose proof (acquire_more HSnapshot h Hw) as M.
  set (po := (po ← o; _) : option IterOptions). pose proof (snap_NewIter_total (peb_NewSnapshot p) po).
  destruct (snap_NewIter _ po) as [it|e| |]; [|..|tauto|tauto]; (split; [done|]); (split; [done|]).
  - pose proof (more_wf _ _ _ Hw M) as Hw1.
    eexists [_; _]. split; [done|]. apply (more_app _ _ _ _ _ Hw1 M (acquire_more HIter (acquire HSnapshot h).1 Hw1)).
  - by apply (acquire_release HSnapshot).
Qed.

Lemma Pebble_ScanH_tidy A p o (yield : yield_t A) a :
  tidy (Pebble_ScanH p o yield a) (Pebble_Scan p o yield a).
Proof.
  unfold Pebble_ScanH, Pebble_Scan, Pebble_NewIter. set (po := (po ← o; _) : option IterOptions).
  split; intros h Hw.
  - pose proof (acquire_more HSnapshot h Hw) as M. pose proof (more_wf _ _ _ Hw M) as Hw1.
    unfold deferred. simpl. destruct (snap_NewIter _ po) as [it|e| |]; simpl.
    2-4: (split; [done|]; by apply (acquire_release HSnapshot)).
    split; [done|]. pose proof (acquire_release HIter (acquire HSnapshot h).1 Hw1) as S.
    exact (release_all_more _ [_] _ _ (reflexivity _) (more_same _ _ _ _ M S)).
  - intros _. unfold deferred. simpl. by destruct (snap_NewIter _ po).
Qed.

Lemma Pebble_NewBatchH_reading h : h_wf h → reading (Pebble_NewBatchH h).1 → reading h.
Proof. intros Hw Hr. by apply (reading_insert h HBatch Hw) in Hr as [?|?]. Qed.
End pebble.

#[export] Instance pebble_HandleDB `{PE : PebbleEngine} : HandleDB (@pebble_DB PE) :=
  Build_HandleDB (@pebble_DB PE) Pebble_GetH Pebble_NewBatchH Pebble_CommitH (@Pebble_ScanH PE)
    Pebble_NewIterH Pebble_GetH_opens Pebble_NewIterH_opens (acquire_owns HBatch) (λ h, eq_refl)
    Pebble_NewBatchH_reading (λ d b m, conj (λ h _, conj eq_refl (reflexivity h)) (λ h _ _, eq_refl))
    Pebble_ScanH_tidy.

(** ** The code that uses the engines *)
Section clients.
Context {DBi : DB} {HD : HandleDB DBi}.

(** [b := db.NewBatch(); defer b.Close()] and the rest of the function. *)
Definition with_batch {A} (f : ht A) : ht A := λ h,
  let '(h1, close) := NewBatchH h in deferred close f h1.

(** The counter is read before [defer closer.Close()] is reached. *)
Definition NewEventRepositoryH (d : db_t) (bsize : Z) : ht (outcome EventRepository) := λ h,
  match GetH d eventsLastIDKey h with
  | (h1, Err e) =>
      (h1, if errors_Is e PebbleErrNotFound then Ok (mkEventRepository 0 bsize) else Err e)
  | (h1, Ok (val, close)) =>
      match be_uint 8 val with
      | Ok id => (close h1, Ok (mkEventRepository id bsize))
      | Err e => (h1, Err e)
      | Panic => (h1, Panic)
      | OutOfFuel => (h1, OutOfFuel)
      end
  | (h1, Panic) => (h1, Panic)
  | (h1, OutOfFuel) => (h1, OutOfFuel)
  end.

(** Here the value is read after [defer closer.Close()]. *)
Definition OpenH (s : EventStateMachine) : ht (EventStateMachine * outcome Z) := λ h,
  match GetH (db s) appliedIndexKey h with
  | (h1, Err e) =>
      (h1, if errors_Is e PebbleErrNotFound
           then (mkESM (db s) (repo s) 0, Ok 0)
           else (s, Err e))
  | (h1, Ok (val, close)) =>
      deferred close (λ h2,
        (h2, match be_uint 8 val with
             | Ok i => (mkESM (db s) (repo s) i, Ok i)
             | r => (s, r)
             end)) h1
  | (h1, Panic) => (h1, (s, Panic))
  | (h1, OutOfFuel) => (h1, (s, OutOfFuel))
  end.

Definition UpdateH (s : EventStateMachine) (entries : list Entry)
    : ht (EventStateMachine * outcome (list Z * list bytes)) :=
  with_batch (λ h,
    match st_mapM apply_one entries ((repo s, []), lastApplied s) with
    | ((er, b, applied), Ok rs) =>
        match batch_Set b appliedIndexKey (be_bytes 8 applied) with
        | (_, Some e) => (h, (mkESM (db s) er applied, Err e))
        | (b', None) =>
            match CommitH (db s) b' NoSync h with
            | (h', (db', Some e)) => (h', (mkESM db' er applied, Err e))
            | (h', (db', None)) => (h', (mkESM db' er applied, Ok (rs.*1, mjoin rs.*2)))
            end
        end
    | ((er, _, applied), Err e) => (h, (mkESM (db s) er applied, Err e))
    | ((er, _, applied), Panic) => (h, (mkESM (db s) er applied, Panic))
    | ((er, _, applied), OutOfFuel) => (h, (mkESM (db s) er applied, OutOfFuel))
    end).

Definition SaveSnapshotH `{Writer} (s : EventStateMachine) (w : w_t) (stopc : stop_t)
    : ht ((w_t * stop_t) * option error) :=
  ScanH (db s) None save_pair (w, stopc).

(** The iterator and the batch are open until the commit has returned; the
    batch is closed before the iterator. *)
Definition clearDBH (d : db_t) (stopc : stop_t) : ht (db_t * stop_t * outcome ()) := λ h,
  match NewIterH d None h with
  | (h1, Ok (it0, close)) =>
      deferred close (with_batch (λ h2,
        match clear_loop (S (size (contents d))) (First it0) [] stopc with
        | ((it, b, stopc'), Ok ()) =>
            match Error it with
            | Some e => (h2, (d, stopc', Err e))
            | None =>
                match CommitH d b NoSync h2 with
                | (h3, (d', Some e)) => (h3, (d', stopc', Err e))
                | (h3, (d', None)) => (h3, (d', stopc', Ok ()))
                end
            end
        | ((_, _, stopc'), o) => (h2, (d, stopc', o))
        end)) h1
  | (h1, Err e) => (h1, (d, stopc, Err e))
  | (h1, Panic) => (h1, (d, stopc, Panic))
  | (h1, OutOfFuel) => (h1, (d, stopc, OutOfFuel))
  end.

(** After the commit of a snapshot: the applied index is read before
    [defer closer.Close()]. *)
Definition recover_indexH (d' : db_t) (s : EventStateMachine) : ht (EventStateMachine * outcome ()) := λ h,
  let s2 := mkESM d' (repo s) (lastApplied s) in
  match GetH d' appliedIndexKey h with
  | (h1, Ok (val, close)) =>
      match be_uint 8 val with
      | Ok i => (close h1, (mkESM d' (repo s) i, Ok ()))
      | Err e => (h1, (s2, Err e))
      | Panic => (h1, (s2, Panic))
      | OutOfFuel => (h1, (s2, OutOfFuel))
      end
  | (h1, Err e) => (h1, (s2, if errors_Is e PebbleErrNotFound then Ok () else Err e))
  | (h1, Panic) => (h1, (s2, Panic))
  | (h1, OutOfFuel) => (h1, (s2, OutOfFuel))
  end.

Definition RecoverFromSnapshotH (s : EventStateMachine) (r : Reader) (stopc : stop_t)
    : ht (EventStateMachine * outcome ()) := λ h,
  match clearDBH (db s) stopc h with
  | (h1, (d, stopc', Ok ())) =>
      let s1 := mkESM d (repo s) (lastApplied s) in
      with_batch (λ h2,
        match recover_loop (S (length (rd_rest r))) [] stopc' r with
        | Ok b =>
            match CommitH d b Sync h2 with
            | (h3, (d', Some e)) => (h3, (mkESM d' (repo s) (lastApplied s), Err e))
            | (h3, (d', None)) => recover_indexH d' s h3
            end
        | Err e => (h2, (s1, Err e))
        | Panic => (h2, (s1, Panic))
        | OutOfFuel => (h2, (s1, OutOfFuel))
        end) h1
  | (h1, (d, _, o)) => (h1, (mkESM d (repo s) (lastApplied s), o))
  end.

Definition direct_DeleteKeysH (d : db_t) (keys : list bytes) : ht (db_t * option error) :=
  with_batch (CommitH d (direct_batch keys) Sync).

Definition processStandaloneBatchH `{XXHash} `{Protobuf} (batch : PublishBatch)
    (nowMs : Z) (er : EventRepository) (d : db_t) : ht ((EventRepository * db_t) * outcome ()) :=
  with_batch (λ h,
    match marshalMessages (Messages batch) 0 nowMs
            (λ data, StoreWithBatch data;; mret ()) (er, []) with
    | ((er', b), Ok ()) =>
        match CommitH d b Sync h with
        | (h', (d', Some _)) => (h', ((er', d'), Err errBatchSave))
        | (h', (d', None)) => (h', ((er', d'), Ok ()))
        end
    | ((er', _), o) => (h, ((er', d), o))
    end).

Lemma with_batch_leaves_unless {A} P (f : ht A) a :
  leaves_unless P f a → leaves_unless P (with_batch f) a.
Proof.
  intros Hf h Hw. unfold with_batch, deferred. pose proof (NewBatchH_owns h Hw) as M.
  destruct (NewBatchH h) as [h1 close]. simpl in *. destruct (Hf h1 (owns_wf _ _ _ Hw M)) as [E S].
  destruct (f h1) as [h2 r]. simpl in *. split; [done|]. intros HP.
  by eapply owns_close, S.
Qed.

Lemma leaves_unless_leaves {A} P (m : ht A) a : leaves m a → leaves_unless P m a.
Proof. intros L h Hw. by destruct (L h Hw). Qed.

Lemma leaves_unless_False {A} (m : ht A) a : leaves_unless (λ _, False) m a → leaves m a.
Proof. intros L h Hw. destruct (L h Hw) as [? S]. split; [done|]. apply S. tauto. Qed.

Lemma with_batch_tidy {A} (f : ht A) a : tidy f a → tidy (with_batch f) a.
Proof.
  intros [L F]. split.
  - apply leaves_unless_False, with_batch_leaves_unless. by apply leaves_unless_leaves.
  - intros h Hw Hr. unfold with_batch, deferred. pose proof (NewBatchH_owns h Hw) as M.
    pose proof (NewBatchH_nested h) as En. pose proof (NewBatchH_reading h Hw) as Er.
    destruct (NewBatchH h) as [h1 close]. simpl in *.
    pose proof (F h1 (owns_wf _ _ _ Hw M) (λ Hr1, Hr (Er Hr1))) as Ef.
    destruct (f h1) as [h2 r]. simpl in *. rewrite (owns_nested _ _ _ _ M). congruence.
Qed.

Lemma tidy_ret {A} (a : A) : tidy (λ h, (h, a)) a.
Proof. by split; intros h. Qed.

(** Code that goes on with the result of a commit. *)
Lemma tidy_commit {B} d b m (k : db_t * option error → B) (f : ht B) r :
  (∀ h, f h = ((CommitH d b m h).1, k (CommitH d b m h).2)) → r = k (Commit d b m) → tidy f r.
Proof.
  intros E ->. destruct (CommitH_tidy d b m) as [L F]. split; intros h Hw; rewrite E; simpl.
  - by destruct (L h Hw) as [-> S].
  - by apply F.
Qed.

Lemma UpdateH_tidy s entries : tidy (UpdateH s entries) (Update s entries).
Proof.
  apply with_batch_tidy. unfold Update.
  destruct (st_mapM apply_one entries _) as [[[er b] ap] [rs|e| |]]; try apply tidy_ret.
  destruct (batch_Set b _ _) as [b' [e|]]; [apply tidy_ret|].
  apply (tidy_commit (db s) b' NoSync (λ '(db', e), match e with
    | Some e => (mkESM db' er ap, Err e)
    | None => (mkESM db' er ap, Ok (rs.*1, mjoin rs.*2)) end)).
  - intros h. simpl. by destruct (CommitH _ _ _ h) as [h' [db' [e|]]].
  - by destruct (Commit _ _ _) as [db' [e|]].
Qed.

Lemma processStandaloneBatchH_tidy `{XXHash} `{Protobuf} batch nowMs er d :
  tidy (processStandaloneBatchH batch nowMs er d) (processStandaloneBatch batch nowMs (er, d)).
Proof.
  apply with_batch_tidy. unfold processStandaloneBatch.
  destruct (marshalMessages _ _ _ _ _) as [[er' b] [[]|e| |]]; try apply tidy_ret.
  apply (tidy_commit d b Sync (λ '(d', e), match e with
    | Some _ => ((er', d'), Err errBatchSave)
    | None => ((er', d'), Ok ()) end)).
  - intros h. simpl. by destruct (CommitH _ _ _ h) as [h' [db' [e|]]].
  - by destruct (Commit _ _ _) as [db' [e|]].
Qed.

Lemma OpenH_tidy s : tidy (OpenH s) (Open s).
Proof.
  unfold OpenH, Open. pose proof (GetH_opens (db s) appliedIndexKey) as Ho.
  split; intros h Hw; destruct (Ho h Hw) as [En Hr]; (destruct (GetH _ _ h) as [h1 [[v close]|e| |]];
    simpl in *; destruct Hr as [E Hm]); try done.
  - rewrite E. split; [by destruct (be_uint 8 v)|]. by eapply owns_close.
  - by rewrite E.
  - by rewrite E.
  - by rewrite E.
  - intros _. by rewrite (owns_nested _ _ _ _ Hm).
Qed.

Lemma be_uint_cases n b : (∃ i, be_uint n b = Ok i) ∨ be_uint n b = Panic.
Proof. unfold be_uint. case_decide; eauto. Qed.

Lemma NewEventRepositoryH_leaves d bsize :
  leaves_unless (λ r, r = Panic) (NewEventRepositoryH d bsize) (NewEventRepository d bsize).
Proof.
  intros h Hw. unfold NewEventRepositoryH, NewEventRepository.
  destruct (GetH_opens d eventsLastIDKey h Hw) as [_ Hr].
  destruct (GetH _ _ h) as [h1 [[v close]|e| |]]; destruct Hr as [-> Hm]; try done.
  destruct (be_uint_cases 8 v) as [[i ->]| ->]; [|done]. split; [done|]. intros _.
  by eapply owns_close.
Qed.

Lemma NewEventRepositoryH_flat d bsize : flat (NewEventRepositoryH d bsize).
Proof.
  intros h Hw _. unfold NewEventRepositoryH. destruct (GetH_opens d eventsLastIDKey h Hw) as [En Hr].
  destruct (GetH _ _ h) as [h1 [[v close]|e| |]]; try done. simpl in *.
  destruct Hr as [_ Hm]. destruct (be_uint 8 v); [|done..].
  by etrans; [eapply owns_nested|].
Qed.

Lemma clearDBH_leaves d stopc : leaves (clearDBH d stopc) (clearDB d stopc).
Proof.
  intros h Hw. unfold clearDBH, clearDB. destruct (NewIterH_opens d None h Hw) as [_ Hr].
  destruct (NewIterH _ _ h) as [h1 [[it close]|e| |]]; destruct Hr as [-> Hm]; try done.
  unfold deferred. match goal with |- context [with_batch ?f] => set (m := f) end.
  match goal with |- _ = ?r ∧ _ => assert (tidy m r) as T end.
  { unfold m. clear m. destruct (clear_loop _ _ _ _) as [[[it' b] stopc'] [[]|e| |]]; try apply tidy_ret.
    destruct (Error it'); [apply tidy_ret|].
    apply (tidy_commit d b NoSync (λ '(d', e), match e with
      | Some e => (d', stopc', Err e) | None => (d', stopc', Ok ()) end)).
    - intros h2. by destruct (CommitH _ _ _ h2) as [h3 [d' [e|]]].
    - by destruct (Commit _ _ _) as [d' [e|]]. }
  apply with_batch_tidy in T as [L _]. destruct (L h1 (owns_wf _ _ _ Hw Hm)) as [<- S].
  destruct (with_batch m h1) as [h2 r]. split; [done|]. simpl in *.
  by eapply owns_close.
Qed.

Lemma recover_indexH_leaves d s :
  leaves_unless (λ r, r.2 = Panic) (recover_indexH d s)
    (let s2 := mkESM d (repo s) (lastApplied s) in
     match Get d appliedIndexKey with
     | Ok val =>
         match be_uint 8 val with
         | Ok i => (mkESM d (repo s) i, Ok ())
         | Err e => (s2, Err e)
         | Panic => (s2, Panic)
         | OutOfFuel => (s2, OutOfFuel)
         end
     | Err e => (s2, if errors_Is e PebbleErrNotFound then Ok () else Err e)
     | Panic => (s2, Panic)
     | OutOfFuel => (s2, OutOfFuel)
     end).
Proof.
  intros h Hw. unfold recover_indexH. destruct (GetH_opens d appliedIndexKey h Hw) as [_ Hr].
  destruct (GetH _ _ h) as [h1 [[v close]|e| |]]; destruct Hr as [-> Hm]; try done.
  destruct (be_uint_cases 8 v) as [[i ->]| ->]; [|done]. split; [done|]. intros _.
  by eapply owns_close.
Qed.

Lemma RecoverFromSnapshotH_leaves s r stopc :
  leaves_unless (λ r, r.2 = Panic) (RecoverFromSnapshotH s r stopc) (RecoverFromSnapshot s r stopc).
Proof.
  intros h Hw. unfold RecoverFromSnapshotH, RecoverFromSnapshot.
  destruct (clearDBH_leaves (db s) stopc h Hw) as [E S].
  destruct (clearDBH _ _ h) as [h1 [[d stopc'] [[]|e| |]]]; cbn [fst snd] in *; rewrite <-E; try done.
  match goal with |- context [with_batch ?f] => set (m := f) end.
  match goal with |- _ = ?r ∧ _ => assert (leaves_unless (λ x, x.2 = Panic) m r) as L end.
  { unfold m. clear m. destruct (recover_loop _ _ _ _) as [b|e| |];
      try (apply leaves_unless_leaves, tidy_ret).
    intros h2 Hw2. destruct (CommitH_tidy d b Sync) as [L _]. destruct (L h2 Hw2) as [E2 S2].
    destruct (CommitH _ _ _ h2) as [h3 [d' [e|]]]; cbn [fst snd] in *; rewrite <-E2; [done|].
    destruct (recover_indexH_leaves d' s h3 (same_wf _ _ Hw2 S2)) as [E3 S3].
    split; [done|]. intros HP. by rewrite S2, <-(S3 HP). }
  destruct (with_batch_leaves_unless _ _ _ L h1 (same_wf _ _ Hw S)) as [E2 S2].
  split; [done|]. intros HP. by rewrite S, <-(S2 HP).
Qed.

(** C34. Whatever an engine opens for the broker is closed again, once, on every
    path.  Starting the repository, opening, updating, saving and recovering
    the event state machine, publishing a batch and deleting keys: each returns
    what the operation without handles returns and leaves open exactly what was
    open, errors, early returns and the panic of a zero bucket size included;
    only a stored counter or applied index of less than eight bytes makes
    [NewEventRepository] and [RecoverFromSnapshot] panic before the deferred
    close.  No operation but [clearDB] commits while it reads. *)
Theorem resources_released `{XXHash} `{Protobuf} `{Writer} :
  (∀ batch nowMs er d, tidy (processStandaloneBatchH batch nowMs er d)
                            (processStandaloneBatch batch nowMs (er, d))) ∧
  (∀ d keys, tidy (direct_DeleteKeysH d keys) (direct_DeleteKeys d keys)) ∧
  (∀ s, tidy (OpenH s) (Open s)) ∧
  (∀ s entries, tidy (UpdateH s entries) (Update s entries)) ∧
  (∀ s w stopc, tidy (SaveSnapshotH s w stopc) (SaveSnapshot s w stopc)) ∧
  (∀ d bsize, flat (NewEventRepositoryH d bsize) ∧
     leaves_unless (λ r, r = Panic) (NewEventRepositoryH d bsize) (NewEventRepository d bsize)) ∧
  (∀ d stopc, leaves (clearDBH d stopc) (clearDB d stopc)) ∧
  (∀ s r stopc, leaves_unless (λ r, r.2 = Panic)
                  (RecoverFromSnapshotH s r stopc) (RecoverFromSnapshot s r stopc)).
Proof.
  split_and!; intros.
  - apply processStandaloneBatchH_tidy.
  - apply with_batch_tidy, CommitH_tidy.
  - apply OpenH_tidy.
  - apply UpdateH_tidy.
  - apply ScanH_tidy.
  - split; [apply NewEventRepositoryH_flat|apply NewEventRepositoryH_leaves].
  - apply clearDBH_leaves.
  - apply RecoverFromSnapshotH_leaves.
Qed.
End clients.

Lemma no_handles_wf : h_wf no_handles.
Proof. intros i [k Hk]. simpl in Hk. by rewrite lookup_empty in Hk. Qed.

Import Toy.

(** On the map store: an update of an empty state machine closes its batch. *)
Lemma resources_released_witness :
  (UpdateH (DBi := MapDB) (mkESM (∅ : @db_t MapDB) fresh_repo 0) [] no_handles).2 =
    Update (mkESM (∅ : @db_t MapDB) fresh_repo 0) [] ∧
  same no_handles (UpdateH (DBi := MapDB) (mkESM (∅ : @db_t MapDB) fresh_repo 0) [] no_handles).1.
Proof.
  destruct (@resources_released MapDB (@pebble_HandleDB MapPebble) const_hash toy_index toy_protobuf
    buffer_writer) as (_ & _ & _ & U & _).
  destruct (U (mkESM (∅ : @db_t MapDB) fresh_repo 0) []) as [L _]. apply L, no_handles_wf.
Defined.

(** [clearDB] commits while its own iterator is open.  On bbolt that is a write
    transaction under a read transaction of the same goroutine, which bbolt's
    documentation rules out; on Pebble there is nothing to nest. *)
Theorem clear_nests_on_bolt `{BoltEngine} b stopc b' stopc' h :
  clearDB (H := bolt_DB) b stopc = (b', stopc', Ok ()) →
  h_nested (clearDBH (DBi := bolt_DB) b stopc h).1 = true.
Proof.
  unfold clearDB, clearDBH. generalize (clear_loop (H := bolt_DB) (S (size (contents b)))) as loop.
  intros loop. simpl. unfold bolt_NewIter, bolt_NewIterH, deferred.
  destruct (bolt_begin_err _); [done|]. destruct (tx_Bucket _ _) as [bkt|]; [|done]. simpl.
  destruct (loop _ _ _) as [[[it c] sc] [[]|e| |]]; [|done..]. simpl.
  unfold with_batch, deferred. simpl. unfold bolt_CommitH, bolt_Commit.
  destruct (bolt_begin_rw_err _); [done|]. intros _. simpl.
  assert (bool_decide (reading (acquire HReadTx h).1) = true) as Hr.
  { apply bool_decide_eq_true_2. unfold reading. apply list_elem_of_fmap.
    exists (h_next h, HReadTx). split; [done|]. apply elem_of_map_to_list, lookup_insert_eq. }
  destruct (match tx_Bucket _ _ with Some _ => _ | None => _ end) as [d' [e|]]; simpl in *;
    rewrite Hr; apply orb_true_r.
Qed.

(** An empty database file. *)
Definition empty_bolt : @boltDB MapBolt :=
  mkBoltDB ({[ of_str "futureq" := ∅ ]} : gmap bytes (gmap bytes bytes)) (of_str "futureq").

Lemma clear_nests_on_bolt_witness :
  h_nested (clearDBH (DBi := @bolt_DB MapBolt) empty_bolt None no_handles).1 = true.
Proof. apply (clear_nests_on_bolt empty_bolt None empty_bolt None no_handles). reflexivity. Defined.

Theorem clear_is_flat_on_pebble `{PebbleEngine} p stopc : flat (clearDBH (DBi := pebble_DB) p stopc).
Proof.
  intros h Hw _. unfold clearDBH.
  generalize (clear_loop (H := pebble_DB) (S (size (contents p)))) as loop. intros loop.
  simpl. unfold Pebble_NewIterH. simpl.
  destruct (snap_NewIter _ _); [|done..]. simpl. unfold with_batch, deferred. simpl.
  destruct (loop _ _ _) as [[[it c] sc] [[]|e| |]]; [|done..].
  simpl. destruct (pit_Error _); [done|]. by destruct (peb_batch_Commit _ _ _) as [? []].
Qed.
