(* ===== verification/Liveness.v ===== *)
(** * The dispatch loop makes progress

    A backlog larger than the consumers' channels takes several passes.  This
    file shows that they come to an end with every due record handed out: a pass
    that reports no work has found every due record of a served topic in
    flight, and with consumers that empty their channels between the passes,
    such a pass comes after at most one round per stored key. *)
From stdpp Require Import prelude gmap strings sorting.
From S2P Require Import Prelude Bytes Keys Storage Pebble Proto Repository.
From S2P Require Import Hub Deleter Dispatcher Runners.
Local Open Scope Z_scope.

Section liveness.
Context `{XXHash} `{Protobuf} `{DB} `{DispatchStrategy} `{MapRange} `{DeleteBackend} `{Clock}.
Context (cfg : dispatch_config).

(** ** Receptive topics *)

(** A consumer of the topic that is offered every message and has room, or a
    group whose members all have room. *)
Definition receptive (h : Hub) (topic : string) : Prop :=
  ∃ c, byID h !! ID c = Some c ∧ Topic c = topic ∧ has_room h c ∧
    (Group c ≠ ""%string → ∀ c', byID h !! ID c' = Some c' → Topic c' = topic → Group c' = Group c →
       has_room h c').

Lemma receptive_sent topic msg tag h :
  hub_inv h → receptive h topic → (DispatchToTopic topic msg tag h).2 ≠ [].
Proof.
  intros Hi (c & Hreg & Ht & Hroom & Hgroup).
  destruct (DispatchToTopic_targets topic msg tag h Hi) as (ts & s' & n & Htg & ->). simpl.
  assert (∃ c', c' ∈ filter (has_room h) ts) as [c' Hc'].
  { destruct (decide (Group c = ""%string)) as [Hu|Hg].
    - exists c. apply list_elem_of_filter. split; [done|]. by apply (tg_universal _ _ _ Htg).
    - destruct (tg_group _ _ _ Htg c Hreg Ht Hg) as (c' & Hin & Hgc & _). exists c'.
      apply list_elem_of_filter. split; [|done].
      destruct (proj1 (Forall_forall _ _) (tg_reg _ _ _ Htg) _ Hin) as [Hreg' Ht']. by apply Hgroup. }
  intros E%fmap_nil_inv. rewrite E in Hc'. by apply elem_of_nil in Hc'.
Qed.

(** Nothing but the strategy and the counters change when nobody gets the
    message. *)
Lemma unsent_chans topic msg tag h :
  hub_inv h → (DispatchToTopic topic msg tag h).2 = [] →
  chans (DispatchToTopic topic msg tag h).1 = chans h.
Proof.
  intros Hi. destruct (DispatchToTopic_targets topic msg tag h Hi) as (ts & s' & n & _ & ->).
  simpl. by intros ->%fmap_nil_inv.
Qed.

(** ** Quiet passes *)

(** Between [d] and [d'] nothing was sent. *)
Record quiet (d d' : Dispatcher) : Prop := {
  qt_topics : topics (d_hub d') = topics (d_hub d);
  qt_byID : byID (d_hub d') = byID (d_hub d);
  qt_chans : chans (d_hub d') = chans (d_hub d);
  qt_inFlight : inFlight d' ⊆ inFlight d;
  qt_tick : (d_tick d ≤ d_tick d')%nat;
}.

(** The tracker found the key in flight, before its timeout, between [d] and
    [d']. *)
Definition seen (d d' : Dispatcher) (k : bytes) : Prop :=
  ∃ e m, inFlight d !! k = Some e ∧ (d_tick d ≤ m < d_tick d')%nat ∧
    now_ns m - dispatchedAt e < inFlightTimeout cfg.

Lemma quiet_refl d : quiet d d.
Proof. by split. Qed.

Lemma quiet_trans d1 d2 d3 : quiet d1 d2 → quiet d2 d3 → quiet d1 d3.
Proof. intros [] []. split; [congruence..|by etrans|lia]. Qed.

Lemma quiet_inv d d' : quiet d d' → hub_inv (d_hub d) → hub_inv (d_hub d').
Proof. intros [Ht Hb _ _ _]. by apply hub_inv_ext. Qed.

Lemma quiet_receptive d d' topic : quiet d d' → receptive (d_hub d) topic → receptive (d_hub d') topic.
Proof. intros [_ Hb Hc _ _]. unfold receptive, has_room. by rewrite Hb, Hc. Qed.

Lemma seen_l d1 d2 d3 k : seen d1 d2 k → quiet d2 d3 → seen d1 d3 k.
Proof. intros (e & m & He & Hm & Hl) [_ _ _ _ Ht]. exists e, m. split_and!; [done|lia|lia|done]. Qed.

Lemma seen_r d1 d2 d3 k : quiet d1 d2 → seen d2 d3 k → seen d1 d3 k.
Proof.
  intros [_ _ _ Hi Ht] (e & m & He & Hm & Hl). exists e, m. split_and!; [|lia|lia|done].
  by eapply lookup_weaken.
Qed.

(** A record the pass should hand out. *)
Definition wanted (nowMs : Z) (v : bytes) : Prop :=
  match Unmarshal v with Ok msg => isExpired msg nowMs = false | _ => False end.

(** What a part of a pass over the pairs [l] has done when its count did not
    move. *)
Definition idle (topic : string) (nowMs : Z) (l : list (bytes * bytes)) (d d' : Dispatcher) : Prop :=
  hub_inv (d_hub d) → quiet d d' ∧
  (receptive (d_hub d) topic → ∀ p, p ∈ l → wanted nowMs p.2 → seen d d' p.1).

Lemma isInFlight_quiet k d d1 b :
  isInFlight cfg k d = (d1, b) → quiet d d1 ∧ (b = true → seen d d1 k).
Proof.
  unfold isInFlight. destruct (inFlight d !! k) as [e|] eqn:He; [case_decide as Hd|];
    intros [= <- <-]; (split; [split; simpl; try done; try lia|]); try done.
  - intros _. exists e, (d_tick d). simpl. split_and!; [done|lia|lia|done].
  - apply delete_subseteq.
Qed.

Lemma dispatch_one_idle topic nowMs s k v :
  (dispatch_one cfg topic nowMs s k v).1.2 = s.1.2 →
  idle topic nowMs [(k, v)] s.1.1 (dispatch_one cfg topic nowMs s k v).1.1.
Proof.
  destruct s as [[d n] ex]. unfold dispatch_one. destruct (isInFlight cfg k d) as [d1 b] eqn:Eb.
  apply isInFlight_quiet in Eb as [Hq Hs].
  assert (b = true ∨ ¬ wanted nowMs v → idle topic nowMs [(k, v)] d d1) as Hskip.
  { intros Hb _. split; [done|]. intros _ p ->%list_elem_of_singleton Hw. destruct Hb; [by apply Hs|done]. }
  destruct b; [intros _; apply Hskip; by left|].
  destruct (Unmarshal v) as [msg|e| |] eqn:Hu;
    try (intros _; apply Hskip; right; unfold wanted; rewrite Hu; tauto).
  destruct (isExpired msg nowMs) eqn:Hx;
    [intros _; apply Hskip; right; unfold wanted; rewrite Hu; congruence|].
  destruct (DispatchToTopic _ _ _ _) as [h' sent] eqn:Ed. case_decide as Hlen; simpl; [lia|].
  intros _ Hi. pose proof (quiet_inv _ _ Hq Hi) as Hi1.
  assert (sent = []) as -> by (destruct sent; simpl in *; [done|lia]).
  pose proof (unsent_chans topic (queue_message msg k) k (d_hub d1) Hi1) as Hch.
  pose proof (DispatchToTopic_frame topic (queue_message msg k) k (d_hub d1)) as [Hft Hfb].
  rewrite Ed in *. simpl in *. split.
  - eapply quiet_trans; [exact Hq|]. split; simpl; [done|done|by apply Hch|done|done].
  - intros Hr. destruct (receptive_sent topic (queue_message msg k) k (d_hub d1) Hi1); [|by rewrite Ed].
    by eapply quiet_receptive.
Qed.

Lemma idle_app topic nowMs l1 l2 d1 d2 d3 :
  idle topic nowMs l1 d1 d2 → idle topic nowMs l2 d2 d3 → idle topic nowMs (l1 ++ l2) d1 d3.
Proof.
  intros H1' H2' Hi. destruct (H1' Hi) as [Hq1 Hs1].
  destruct (H2' (quiet_inv _ _ Hq1 Hi)) as [Hq2 Hs2]. split; [by eapply quiet_trans|].
  intros Hr p [Hp|Hp]%elem_of_app Hw.
  - eapply seen_l; [|done]. by apply Hs1.
  - eapply seen_r; [done|]. apply Hs2; [by eapply quiet_receptive|done..].
Qed.

Lemma run_pairs_idle topic nowMs s l :
  (run_pairs cfg topic nowMs s l).1.2 = s.1.2 →
  idle topic nowMs l s.1.1 (run_pairs cfg topic nowMs s l).1.1.
Proof.
  unfold run_pairs. induction l as [|[k v] l IH] in s |- *; simpl; intros Hn.
  { intros _. split; [apply quiet_refl|]. by intros _ p ?%elem_of_nil. }
  pose proof (dispatch_one_count cfg topic nowMs s k v) as Hle1.
  pose proof (run_pairs_count cfg topic nowMs (dispatch_one cfg topic nowMs s k v) l) as Hle2.
  unfold run_pairs in Hle2. eapply (idle_app topic nowMs [(k, v)]).
  - apply dispatch_one_idle. lia.
  - apply IH. lia.
Qed.

(** Every due record of the topic that should go out was found in flight. *)
Definition attended (store : db_t) (topic : string) (nowMs : Z) (d d' : Dispatcher) : Prop :=
  ∀ nb k v, CalculateBucket nowMs (cfg_bucketSize cfg) = Ok nb → contents store !! k = Some v →
    in_range (Some (due_range (TopicHash topic) nb)) k → wanted nowMs v → seen d d' k.

(** The scans of the store see all of it. *)
Definition scans_ok (store : db_t) : Prop := ∀ o, iter_error store o = None.

Lemma dispatchTopic_idle store topic nowMs d d' :
  scans_ok store → dispatchTopic cfg store topic nowMs d = (d', Ok 0) → hub_inv (d_hub d) →
  quiet d d' ∧ (receptive (d_hub d) topic → attended store topic nowMs d d').
Proof.
  intros Hok Hd Hi. destruct (CalculateBucket nowMs (cfg_bucketSize cfg)) as [nb|e| |] eqn:Hb.
  2-4: unfold dispatchTopic in Hd; rewrite Hb in Hd; done.
  rewrite (dispatchTopic_eq _ _ _ _ _ _ Hb) in Hd. revert Hd. set (l := iter_pairs _ _).
  pose proof (run_pairs_idle topic nowMs (d, 0, []) l) as Hr.
  destruct (run_pairs _ _ _ _ _) as [[d1 n] ex]. intros [= <- ->].
  destruct (Hr eq_refl Hi) as [Hq Hs]. simpl in *.
  assert (quiet d1 (mark_all ex d1)) as Hm by (by split).
  split; [by eapply quiet_trans|]. intros Hrc nb' k v Hb' Hk Hin Hw.
  rewrite Hb in Hb'. injection Hb' as <-. eapply seen_l; [|done].
  apply (Hs Hrc (k, v)); [|done]. unfold l. rewrite iter_pairs_complete by apply Hok.
  apply elem_of_range_pairs. done.
Qed.

Lemma dispatch_topics_idle store ts nowMs n d d' :
  scans_ok store → dispatch_topics cfg store ts nowMs n d = (d', Ok n) → hub_inv (d_hub d) →
  quiet d d' ∧ ∀ t, t ∈ ts → receptive (d_hub d) t → attended store t nowMs d d'.
Proof.
  intros Hok. revert d. induction ts as [|t ts IH]; intros d Hd Hi.
  { injection Hd as <-. split; [apply quiet_refl|]. by intros t ?%elem_of_nil. }
  simpl in Hd. unfold mbind, st_bind in Hd.
  destruct (dispatchTopic cfg store t nowMs d) as [d1 [m|e| |]] eqn:Ht; try done.
  pose proof (dispatchTopic_count _ _ _ _ _ _ _ Ht) as Hm.
  assert (m = 0) as ->.
  { apply (dispatch_topics_ind cfg (λ _ _ n, 0 ≤ n)) in Hd; try lia.
    intros. by eapply dispatchTopic_count. }
  rewrite Z.add_0_r in Hd. destruct (dispatchTopic_idle _ _ _ _ _ Hok Ht Hi) as [Hq Hs].
  destruct (IH d1 Hd (quiet_inv _ _ Hq Hi)) as [Hq' Hs']. split; [by eapply quiet_trans|].
  intros t' [-> |Hin]%elem_of_cons Hr nb k v Hb Hk Hin' Hw.
  - eapply seen_l; [|done]. by eapply Hs.
  - eapply seen_r; [done|]. eapply Hs'; [done|by eapply quiet_receptive|done..].
Qed.

Lemma receptive_active h topic :
  hub_inv h → receptive h topic → HasConsumers h = true ∧ topic ∈ (ActiveTopics h).2.
Proof.
  intros Hi (c & Hreg & Ht & _). split.
  - apply bool_decide_eq_true. destruct (hi_reg _ Hi _ _ Hreg) as [_ _].
    assert (size (byID h) ≠ 0%nat); [|lia]. intros E%map_size_empty_inv. by rewrite E in Hreg.
  - destruct (hi_reg _ Hi _ _ Hreg) as (_ & sub & Hsub & _). rewrite Ht in Hsub. simpl.
    apply list_elem_of_fmap. exists (topic, sub). split; [done|].
    rewrite range_map_perm. by apply elem_of_map_to_list.
Qed.

(** A pass of the leader that reports no work. *)
Lemma dispatchAll_idle store nh d d' topic :
  scans_ok store → isLeader cfg nh = true → hub_inv (d_hub d) → receptive (d_hub d) topic →
  dispatchAll cfg store nh d = (d', Ok 0) →
  attended store topic (UnixMilli (now_ns (d_tick d))) d d'.
Proof.
  intros Hok Hl Hi Hr. destruct (receptive_active _ _ Hi Hr) as [Hc Ht].
  unfold dispatchAll. rewrite Hc, Hl. simpl in *. case_decide as Hlen.
  { apply nil_length_inv in Hlen. rewrite Hlen in Ht. by apply elem_of_nil in Ht. }
  set (d1 := mkDispatcher _ _ _ _). intros Hd.
  assert (quiet d d1) as Hq by (split; simpl; [done..|lia]).
  apply dispatch_topics_idle in Hd as [_ Hs]; [|done|by eapply quiet_inv].
  intros nb k v Hb Hk Hin Hw. eapply seen_r; [done|].
  eapply Hs; [done|by eapply quiet_receptive|done..].
Qed.

(** ** Served topics

    The consumers [cs] take everything out of their channels. *)
Definition take_all (ch : nat) (h : Hub) : Hub :=
  match chans h !! ch with
  | Some c => Nat.iter (length (ch_buf c)) (λ h, (recv ch h).1) h
  | None => h
  end.

Definition serve (cs : list ConsumerEntry) (h : Hub) : Hub :=
  foldl (λ h c, take_all (Ch c) h) h cs.

(** The registrations are the same, and the channels up to what is in them. *)
Definition same_shape (h h' : Hub) : Prop :=
  topics h' = topics h ∧ byID h' = byID h ∧ ∀ ch, ch_cap <$> chans h' !! ch = ch_cap <$> chans h !! ch.

Lemma same_shape_refl h : same_shape h h.
Proof. done. Qed.

Lemma same_shape_trans h1 h2 h3 : same_shape h1 h2 → same_shape h2 h3 → same_shape h1 h3.
Proof. intros (? & ? & Hc) (? & ? & Hc'). split_and!; [congruence..|]. intros ch. by rewrite Hc', Hc. Qed.

Lemma recv_shape ch h : same_shape h (recv ch h).1.
Proof.
  unfold recv. destruct (chans h !! ch) as [[[|m buf] cap]|] eqn:E; simpl; try apply same_shape_refl.
  split_and!; [done..|]. intros ch'. simpl. destruct (decide (ch' = ch)) as [->|Hne].
  - by rewrite lookup_insert_eq, E.
  - by rewrite lookup_insert_ne.
Qed.

Lemma iter_recv_shape n ch h : same_shape h (Nat.iter n (λ h, (recv ch h).1) h).
Proof.
  induction n as [|n IH]; simpl; [apply same_shape_refl|]. eapply same_shape_trans; [done|apply recv_shape].
Qed.

Lemma recv_buf ch h buf cap :
  chans h !! ch = Some (mkChan buf cap) → chans (recv ch h).1 !! ch = Some (mkChan (drop 1 buf) cap).
Proof. intros E. unfold recv. rewrite E. destruct buf as [|m buf]; simpl; [done|apply lookup_insert_eq]. Qed.

Lemma iter_recv_buf n ch h buf cap :
  chans h !! ch = Some (mkChan buf cap) →
  chans (Nat.iter n (λ h, (recv ch h).1) h) !! ch = Some (mkChan (drop n buf) cap).
Proof.
  intros E. induction n as [|n IH]; simpl; [done|]. erewrite recv_buf by exact IH.
  by rewrite drop_drop, Nat.add_comm.
Qed.

Lemma take_all_shape ch h : same_shape h (take_all ch h).
Proof. unfold take_all. destruct (chans h !! ch); [apply iter_recv_shape|apply same_shape_refl]. Qed.

Definition chan_empty (ch : nat) (h : Hub) : Prop := ∀ c, chans h !! ch = Some c → ch_buf c = [].

Lemma recv_other ch ch' h : ch' ≠ ch → chans (recv ch h).1 !! ch' = chans h !! ch'.
Proof. intros Hne. unfold recv. repeat case_split_eq; simpl; try done. by rewrite lookup_insert_ne. Qed.

Lemma take_all_empty ch ch' h :
  ch' = ch ∨ chan_empty ch' h → chan_empty ch' (take_all ch h).
Proof.
  intros Hc c. unfold take_all. destruct (chans h !! ch) as [[buf cap]|] eqn:E; simpl.
  - destruct (decide (ch' = ch)) as [->|Hne].
    + rewrite (iter_recv_buf _ _ _ _ _ E), drop_all. by intros [= <-].
    + destruct Hc as [?|Hc]; [done|].
      assert (∀ n, chans (Nat.iter n (λ h, (recv ch h).1) h) !! ch' = chans h !! ch') as ->; [|apply Hc].
      intros n. induction n as [|n IH]; simpl; [done|]. by rewrite recv_other.
  - destruct Hc as [->|Hc]; [congruence|apply Hc].
Qed.

Lemma serve_spec cs h :
  same_shape h (serve cs h) ∧ ∀ c, c ∈ cs → chan_empty (Ch c) (serve cs h).
Proof.
  assert (∀ h0, same_shape h0 (serve cs h0) ∧
    ∀ ch, chan_empty ch h0 ∨ (∃ c, c ∈ cs ∧ Ch c = ch) → chan_empty ch (serve cs h0)) as Hgen.
  { unfold serve. induction cs as [|c cs IH]; intros h0; simpl.
    { split; [apply same_shape_refl|]. intros ch [?|(c & ?%elem_of_nil & _)]; done. }
    destruct (IH (take_all (Ch c) h0)) as [Hs He]. split.
    - eapply same_shape_trans; [apply take_all_shape|done].
    - intros ch [Hc|(c' & [-> |Hin]%elem_of_cons & <-)]; apply He.
      + left. apply take_all_empty. by right.
      + left. apply take_all_empty. by left.
      + right. eauto. }
  destruct (Hgen h) as [Hs He]. split; [done|]. intros c Hc. apply He. right. eauto.
Qed.

(** The consumers [cs] of the topic have channels with a capacity, and they are
    all the members of some group, or one of them gets every message. *)
Definition served (cs : list ConsumerEntry) (topic : string) (h : Hub) : Prop :=
  hub_inv h ∧
  (∀ c, c ∈ cs → byID h !! ID c = Some c ∧ Topic c = topic ∧
     ∃ cap, ch_cap <$> chans h !! Ch c = Some cap ∧ (0 < cap)%nat) ∧
  ∃ c, c ∈ cs ∧ (Group c ≠ ""%string → ∀ c', byID h !! ID c' = Some c' → Topic c' = topic →
     Group c' = Group c → c' ∈ cs).

Lemma served_shape cs topic h h' : same_shape h h' → served cs topic h → served cs topic h'.
Proof.
  intros (Ht & Hb & Hc) (Hi & Hcs & Hcov). split_and!.
  - by eapply hub_inv_ext.
  - intros c Hin. rewrite Hb, Hc. by apply Hcs.
  - by rewrite Hb.
Qed.

Lemma served_receptive cs topic h : served cs topic h → receptive (serve cs h) topic.
Proof.
  intros Hs. destruct (serve_spec cs h) as [Hsh He].
  apply (served_shape _ _ _ _ Hsh) in Hs as (Hi & Hcs & c & Hc & Hcov).
  assert (∀ c, c ∈ cs → has_room (serve cs h) c) as Hroom.
  { intros c' Hc'. destruct (Hcs c' Hc') as (_ & _ & cap & Hcap & Hpos). unfold has_room.
    destruct (chans (serve cs h) !! Ch c') as [ch|] eqn:E; simplify_eq/=.
    rewrite (He c' Hc' ch E). done. }
  destruct (Hcs c Hc) as (Hreg & Ht & _). exists c. split_and!; [done|done|by apply Hroom|].
  intros Hg c' Hr' Ht' Hg'. apply Hroom. by apply Hcov.
Qed.

(** ** Rounds *)

(** What a pass does to the hub. *)
Lemma dispatch_one_shape topic nowMs s k v :
  same_shape (d_hub s.1.1) (d_hub (dispatch_one cfg topic nowMs s k v).1.1).
Proof.
  pose proof (dispatch_one_grows cfg topic nowMs s k v) as Hg.
  split_and!; [| |intros ch; specialize (Hg ch)].
  1-2: destruct s as [[d n] ex]; unfold dispatch_one; pose proof (isInFlight_hub cfg k d) as Eh;
    destruct (isInFlight cfg k d) as [d1 []]; simpl in *; rewrite ?Eh; try done;
    repeat case_split_eq; simpl; rewrite ?Eh; try done;
    match goal with E : DispatchToTopic ?t ?m ?g ?h = (?h', _) |- _ =>
      pose proof (DispatchToTopic_frame t m g h) as [Ft Fb]; rewrite E in Ft, Fb; simpl in *; congruence end.
  destruct (chans _ !! ch); [by destruct Hg as (new & -> & _)|by rewrite Hg].
Qed.

Lemma run_pairs_shape topic nowMs s l :
  same_shape (d_hub s.1.1) (d_hub (run_pairs cfg topic nowMs s l).1.1).
Proof.
  unfold run_pairs. induction l as [|[k v] l IH] in s |- *; simpl; [apply same_shape_refl|].
  eapply same_shape_trans; [apply dispatch_one_shape|apply IH].
Qed.

Lemma dispatchAll_shape store nh d d' n :
  dispatchAll cfg store nh d = (d', Ok n) → same_shape (d_hub d) (d_hub d').
Proof.
  apply (dispatchAll_ind cfg (λ d d' _, same_shape (d_hub d) (d_hub d'))).
  - intros. apply same_shape_refl.
  - intros d1 d2 d3 n1 n2. apply same_shape_trans.
  - done.
  - intros t d1 d2 m. destruct (CalculateBucket (UnixMilli (now_ns (d_tick d))) (cfg_bucketSize cfg)) as [nb|e| |] eqn:Hb.
    2-4: unfold dispatchTopic; rewrite Hb; done.
    rewrite (dispatchTopic_eq _ _ _ _ _ _ Hb). set (l := iter_pairs _ _).
    pose proof (run_pairs_shape t (UnixMilli (now_ns (d_tick d))) (d1, 0, []) l) as Hs.
    destruct (run_pairs _ _ _ _ _) as [[d3 x] ex]. by intros [= <- <-].
Qed.

Context (interval : Z) (nh : leader_info) (store : db_t) (cs : list ConsumerEntry).

(** The consumers empty their channels, then the timer fires. *)
Definition round : list run_event := [RunHub (serve cs); RunTimer nh store].

Fixpoint rounds (n : nat) : list run_event :=
  match n with O => [] | S n' => rounds n' ++ round end.

Definition after (n : nat) (r : runner) : runner := (Dispatcher_Run cfg interval (rounds n) r).1.

Hypothesis Hvalid : valid_bucket_size (cfg_bucketSize cfg).
Hypothesis Hclock : clock_ok.

Lemma run_case_ok ev r :
  ∃ r', run_case cfg interval ev r = (r', Ok (negb (is_done ev))).
Proof.
  destruct (run_case_charged cfg interval 0 0 (ev_keys ev) ev r Hvalid Hclock) as (r' & Hr & _);
    [intros m n ?; lia|done|eauto].
Qed.

Lemma Dispatcher_Run_app evs evs' r :
  existsb is_done evs = false →
  Dispatcher_Run cfg interval (evs ++ evs') r =
    Dispatcher_Run cfg interval evs' (Dispatcher_Run cfg interval evs r).1.
Proof.
  revert r. induction evs as [|ev evs IH]; intros r; simpl; [done|]. intros [Hd Hds]%orb_false_iff.
  destruct (run_case_ok ev r) as [r' ->]. rewrite Hd. simpl. by apply IH.
Qed.

Lemma rounds_no_done n : existsb is_done (rounds n) = false.
Proof. induction n as [|n IH]; simpl; [done|]. by rewrite existsb_app, IH. Qed.

Lemma rounds_keys n ev : ev ∈ rounds n → ev_keys ev ⊆ dom (contents store).
Proof.
  induction n as [|n IH]; simpl; [by intros ?%elem_of_nil|].
  intros [?|Hin]%elem_of_app; [by apply IH|]. unfold round in Hin.
  apply elem_of_cons in Hin as [-> | ->%list_elem_of_singleton]; [apply empty_subseteq|done].
Qed.

Lemma rounds_removes n : removes (rounds n) = 0%nat.
Proof. induction n as [|n IH]; [done|]. unfold removes in *. simpl. by rewrite omap_app, length_app, IH. Qed.

(** One more round. *)
Lemma after_S n r :
  ∃ d' m, dispatchAll cfg store nh (on_hub (serve cs) (rn_disp (after n r))) = (d', Ok m) ∧
    after (S n) r = mkRunner d' (if decide (0 < m) then 0 else interval) (rn_counts (after n r) ++ [m]).
Proof.
  unfold after at 2. simpl. rewrite Dispatcher_Run_app by apply rounds_no_done. fold (after n r).
  simpl. edestruct (run_pass_ok cfg nh store) as (d' & m & -> & Hd); [done..|]. by exists d', m.
Qed.

Lemma after_served n topic r :
  served cs topic (d_hub (rn_disp r)) → served cs topic (d_hub (rn_disp (after n r))).
Proof.
  intros Hs. induction n as [|n IH]; [done|]. destruct (after_S n r) as (d' & m & Hd & ->). simpl.
  eapply served_shape; [|exact IH]. eapply same_shape_trans; [apply (serve_spec cs)|].
  exact (dispatchAll_shape _ _ _ _ _ Hd).
Qed.

(** Either a round reports no work, or every round reports some. *)
Lemma after_total n r :
  (∃ i, (i < n)%nat ∧ ∃ d', dispatchAll cfg store nh (on_hub (serve cs) (rn_disp (after i r))) = (d', Ok 0)) ∨
  total (rn_counts r) + Z.of_nat n ≤ total (rn_counts (after n r)).
Proof.
  induction n as [|n [(i & Hi & Hd)|IH]]; [right; change (after 0 r) with r; lia|left; exists i; split; [lia|done]|].
  destruct (after_S n r) as (d' & m & Hd & E). destruct (decide (m = 0)) as [->|Hm].
  - left. exists n. split; [lia|eauto].
  - right. rewrite E. simpl. rewrite total_app. apply dispatchAll_count in Hd.
    change (total [m]) with (m + 0). lia.
Qed.

(** C15. Progress of the dispatch loop.  On the leader, over a store that does not
    change, with consumers of the topic that empty their channels between the
    passes (one that gets every message, or all members of a group), and with
    clock readings less than the in-flight timeout apart: after at most one
    round for every stored key there is a round that reports no work and sets
    the timer back to the interval, and in it every due record of the topic
    that can be decoded and has not expired was found in flight, so it has been
    handed out.  The capacity of the channels plays no role: a backlog of any
    size drains. *)
Theorem backlog_drains topic r :
  scans_ok store → isLeader cfg nh = true → served cs topic (d_hub (rn_disp r)) →
  let N := S (size (contents store)) in
  calm cfg (d_tick (rn_disp r)) (d_tick (rn_disp (after N r))) →
  ∃ i, (i < N)%nat ∧ rn_timer (after (S i) r) = interval ∧
    attended store topic (UnixMilli (now_ns (d_tick (rn_disp (after i r)))))
      (rn_disp (after i r)) (rn_disp (after (S i) r)).
Proof.
  intros Hok Hl Hs N Hcalm. destruct (after_total N r) as [(i & Hi & d' & Hd)|Htot].
  - exists i. split; [done|]. destruct (after_S i r) as (d2 & m & Hd2 & ->).
    rewrite Hd in Hd2. injection Hd2 as <- <-. split; [done|].
    pose proof (after_served i topic r Hs) as Hsi.
    apply (dispatchAll_idle _ _ _ _ topic) in Hd; [|done|done| |by apply served_receptive].
    + intros nb k v Hb Hk Hin Hw. apply (Hd nb k v Hb Hk Hin Hw).
    + apply (served_shape cs topic (d_hub (rn_disp (after i r)))); [apply serve_spec|done].
  - exfalso. destruct (Dispatcher_Run_charged cfg interval _ _ (dom (contents store)) (rounds N) r
      Hvalid Hclock Hcalm (rounds_keys N)) as (r' & Hr & new & En & Hn & Hle & Hch).
    assert (after N r = r') as Ea by (unfold after; by rewrite Hr). rewrite Ea in *.
    destruct (Hch ltac:(done) ltac:(done) ∅) as (F & HF & _ & Hsz); [set_solver..|].
    apply subseteq_size in HF. rewrite size_empty, rounds_removes in Hsz. rewrite size_dom in HF.
    rewrite En, total_app in Htot. lia.
Qed.
End liveness.

(** ** A run *)
Import Toy.

Definition sample_server : list ConsumerEntry := [mkConsumerEntry "u" "t" "" 2].

Abbreviation sample_after := (@after const_hash toy_index toy_protobuf MapDB RoundRobinStrategy
  key_order map_direct stopped_clock sample_cfg 100 None sample_store sample_server).

Lemma sample_served : served sample_server "t" sample_hub.
Proof.
  split; [exact (proj1 (reachable_inv _ _ sample_reachable))|]. split.
  - intros c ->%list_elem_of_singleton. split_and!; [by vm_compute..|].
    exists 1024%nat. split; [by vm_compute|lia].
  - exists (mkConsumerEntry "u" "t" "" 2). split; [left|]. by intros [].
Qed.

Lemma sample_valid : valid_bucket_size (cfg_bucketSize sample_cfg).
Proof. right. by vm_compute. Qed.

Lemma sample_clock_ok : @clock_ok stopped_clock.
Proof. intros n. by vm_compute. Qed.

Lemma sample_calm t0 T : @calm stopped_clock sample_cfg t0 T.
Proof. intros m n _ _. by vm_compute. Qed.

Lemma backlog_drains_witness :
  ∃ i e, (i < 4)%nat ∧ rn_timer (sample_after (S i) sample_runner) = 100 ∧
    inFlight (rn_disp (sample_after i sample_runner)) !! EventKey 950 7 1 = Some e.
Proof.
  assert (size (@contents MapDB sample_store) = 3%nat) as HN by (by vm_compute).
  pose proof (@backlog_drains const_hash toy_index toy_protobuf MapDB RoundRobinStrategy key_order
    map_direct stopped_clock sample_cfg 100 None sample_store sample_server sample_valid
    sample_clock_ok "t" sample_runner (λ _, eq_refl) eq_refl sample_served (sample_calm _ _)) as Hb.
  rewrite HN in Hb. destruct Hb as (i & Hi & Htimer & Hatt).
  destruct (Hatt 1000 (EventKey 950 7 1) (toy_bytes (toy_msg 0))) as (e & m & He & _).
  - by vm_compute.
  - vm_compute. reflexivity.
  - split; by vm_compute.
  - by vm_compute.
  - exists i, e. exact (conj Hi (conj Htimer He)).
Defined.
