(* ===== verification/Net.v ===== *)
(** * Network addresses

    [net.SplitHostPort] and [net.JoinHostPort] of the standard library, byte by
    byte, and the address a node advertises to clients
    ([grpcAdvertiseAddr] of [src/internal/app/app.go]). *)
From stdpp Require Import prelude gmap strings.
From S2P Require Import Prelude Bytes.
Local Open Scope Z_scope.

Definition colon : byte := Init.Byte.x3a.
Definition lbrack : byte := Init.Byte.x5b.
Definition rbrack : byte := Init.Byte.x5d.

(** [strings.IndexByte] and [strings.LastIndexByte]. *)
Fixpoint IndexByte (s : bytes) (c : byte) : option nat :=
  match s with
  | [] => None
  | x :: s' => if decide (x = c) then Some 0%nat else S <$> IndexByte s' c
  end.

(** [strings.IndexByte(s, c) >= 0] *)
Definition has_byte (s : bytes) (c : byte) : bool :=
  match IndexByte s c with Some _ => true | None => false end.

Fixpoint LastIndexByte (s : bytes) (c : byte) : option nat :=
  match s with
  | [] => None
  | x :: s' =>
      match LastIndexByte s' c with
      | Some i => Some (S i)
      | None => if decide (x = c) then Some 0%nat else None
      end
  end.

Definition addrErr {A} (why : string) : outcome A := Err (ErrorMsg why []).

Definition SplitHostPort (hostport : bytes) : outcome (bytes * bytes) :=
  match LastIndexByte hostport colon with
  | None => addrErr "missing port in address"
  | Some i =>
      let rest (host : bytes) (j k : nat) :=
        if has_byte (drop j hostport) lbrack then addrErr "unexpected '[' in address"
        else if has_byte (drop k hostport) rbrack then addrErr "unexpected ']' in address"
        else Ok (host, drop (S i) hostport) in
      if decide (head hostport = Some lbrack) then
        match IndexByte hostport rbrack with
        | None => addrErr "missing ']' in address"
        | Some e =>
            if decide ((e + 1)%nat = length hostport) then addrErr "missing port in address"
            else if decide ((e + 1)%nat = i) then rest (take (e - 1) (drop 1 hostport)) 1%nat (e + 1)%nat
            else if decide (hostport !! (e + 1)%nat = Some colon)
                 then addrErr "too many colons in address"
                 else addrErr "missing port in address"
        end
      else if has_byte (take i hostport) colon then addrErr "too many colons in address"
      else rest (take i hostport) 0%nat 0%nat
  end.

Definition JoinHostPort (host port : bytes) : bytes :=
  if has_byte host colon then [lbrack] ++ host ++ [rbrack; colon] ++ port
  else host ++ [colon] ++ port.

Definition grpcAdvertiseAddr (raftAddr grpcListen : bytes) : outcome bytes :=
  match SplitHostPort raftAddr with
  | Ok (host, _) =>
      match SplitHostPort grpcListen with
      | Ok (_, grpcPort) => Ok (JoinHostPort host grpcPort)
      | Err e => Err (ErrorWrap "invalid grpc listen address" e)
      | Panic => Panic
      | OutOfFuel => OutOfFuel
      end
  | Err e => Err (ErrorWrap "invalid raft address" e)
  | Panic => Panic
  | OutOfFuel => OutOfFuel
  end.

(** ** Indexes *)
Lemma IndexByte_None s c : IndexByte s c = None ↔ c ∉ s.
Proof.
  induction s as [|x s IH]; simpl; [split; [intros _; apply not_elem_of_nil|done]|].
  rewrite not_elem_of_cons, <-IH. case_decide; subst.
  - split; [done|]. by intros [].
  - destruct (IndexByte s c); simpl; split; try done; naive_solver.
Qed.

Lemma IndexByte_app s c s' : c ∉ s → IndexByte (s ++ c :: s') c = Some (length s).
Proof.
  induction s as [|x s IH]; simpl; intros Hn; [by rewrite decide_True|].
  rewrite not_elem_of_cons in Hn. rewrite decide_False, IH by naive_solver. done.
Qed.

Lemma IndexByte_Some s c i :
  IndexByte s c = Some i → s = take i s ++ c :: drop (S i) s ∧ (c ∉ take i s) ∧ (i < length s)%nat.
Proof.
  revert i. induction s as [|x s IH]; intros i; simpl; [done|]. case_decide as Hx.
  - intros [= <-]. subst. simpl. split_and!; [done|apply not_elem_of_nil|lia].
  - destruct (IndexByte s c) as [j|]; intros [= <-]. destruct (IH j eq_refl) as (E & Hn & Hl).
    simpl. split_and!; [by f_equal|rewrite not_elem_of_cons; naive_solver|lia].
Qed.

Lemma LastIndexByte_None s c : LastIndexByte s c = None ↔ c ∉ s.
Proof.
  induction s as [|x s IH]; simpl; [split; [intros _; apply not_elem_of_nil|done]|].
  rewrite not_elem_of_cons, <-IH. destruct (LastIndexByte s c); simpl; [naive_solver|].
  case_decide; naive_solver.
Qed.

Lemma LastIndexByte_app s c s' : c ∉ s' → LastIndexByte (s ++ c :: s') c = Some (length s).
Proof.
  intros Hn. induction s as [|x s IH]; simpl; [|by rewrite IH].
  apply LastIndexByte_None in Hn. by rewrite Hn, decide_True.
Qed.

Lemma LastIndexByte_Some s c i :
  LastIndexByte s c = Some i → s = take i s ++ c :: drop (S i) s ∧ (c ∉ drop (S i) s) ∧ (i < length s)%nat.
Proof.
  revert i. induction s as [|x s IH]; intros i; simpl; [done|].
  destruct (LastIndexByte s c) as [j|] eqn:Ej.
  - intros [= <-]. destruct (IH j eq_refl) as (E & Hn & Hl). simpl. split_and!; [by f_equal|done|lia].
  - case_decide; intros [= <-]. subst. simpl. rewrite drop_0.
    split_and!; [done|by apply LastIndexByte_None|lia].
Qed.

Lemma has_byte_spec s c : has_byte s c = true ↔ c ∈ s.
Proof.
  unfold has_byte. pose proof (IndexByte_None s c) as Hn.
  destruct (IndexByte s c); split; try done.
  - intros _. destruct (decide (c ∈ s)) as [|Hc]; [done|]. by apply Hn in Hc.
  - intros Hc. by destruct (proj1 Hn eq_refl).
Qed.

Lemma has_byte_false s c : has_byte s c = false ↔ c ∉ s.
Proof. rewrite <-has_byte_spec. by destruct (has_byte s c). Qed.

(** ** Hosts and ports *)
Definition plain (s : bytes) : Prop := (lbrack ∉ s) ∧ rbrack ∉ s.
Definition host_port (host port : bytes) : Prop := plain host ∧ plain port ∧ colon ∉ port.

Lemma in_take {A} (x : A) n l : x ∈ take n l → x ∈ l.
Proof. rewrite <-(take_drop n l) at 2. rewrite elem_of_app. tauto. Qed.

Lemma in_drop {A} (x : A) n l : x ∈ drop n l → x ∈ l.
Proof. rewrite <-(take_drop n l) at 2. rewrite elem_of_app. tauto. Qed.

Lemma in_drop_le {A} (x : A) n m l : (m ≤ n)%nat → x ∈ drop n l → x ∈ drop m l.
Proof. intros Hle. replace n with (m + (n - m))%nat by lia. rewrite <-drop_drop. apply in_drop. Qed.

Lemma SplitHostPort_parts s host port :
  SplitHostPort s = Ok (host, port) → host_port host port.
Proof.
  unfold SplitHostPort. destruct (LastIndexByte s colon) as [i|] eqn:Ei; [|done].
  apply LastIndexByte_Some in Ei as (_ & Hp & _). cbv zeta. case_decide as Hh.
  - destruct (IndexByte s rbrack) as [e|] eqn:Ee; [|done].
    apply IndexByte_Some in Ee as (_ & He & _). case_decide; [done|].
    case_decide as Hei; [|by case_decide]. subst i.
    destruct (has_byte (drop 1 s) lbrack) eqn:Hl; [done|].
    destruct (has_byte (drop (e + 1) s) rbrack) eqn:Hr; [done|].
    apply has_byte_false in Hl, Hr. intros [= <- <-]. split_and!; [split|split|done].
    + by intros ?%in_take.
    + destruct e as [|e]; [by intros ?%elem_of_nil|]. replace (S e - 1)%nat with e by lia.
      rewrite take_drop_commute. by intros ?%in_drop.
    + intros Hx. apply Hl. by eapply in_drop_le, Hx; lia.
    + intros Hx. apply Hr. by eapply in_drop_le, Hx; lia.
  - destruct (has_byte (take i s) colon); [done|]. rewrite !drop_0.
    destruct (has_byte s lbrack) eqn:Hl; [done|]. destruct (has_byte s rbrack) eqn:Hr; [done|].
    apply has_byte_false in Hl, Hr. intros [= <- <-].
    split_and!; [split|split|done]; [by intros ?%in_take..|by intros ?%in_drop|by intros ?%in_drop].
Qed.

Lemma colon_plain s : plain (colon :: s) ↔ plain s.
Proof. unfold plain. rewrite !not_elem_of_cons. naive_solver. Qed.

Lemma plain_app s s' : plain (s ++ s') ↔ plain s ∧ plain s'.
Proof. unfold plain. rewrite !not_elem_of_app. tauto. Qed.

Lemma SplitHostPort_join host port :
  host_port host port → SplitHostPort (JoinHostPort host port) = Ok (host, port).
Proof.
  intros ([Hl Hr] & [Hl' Hr'] & Hp). unfold JoinHostPort, SplitHostPort.
  destruct (has_byte host colon) eqn:Hc.
  - set (s := [lbrack] ++ _).
    assert (LastIndexByte s colon = Some (length host + 2)%nat) as ->.
    { replace s with (([lbrack] ++ host ++ [rbrack]) ++ colon :: port) by (unfold s; by rewrite <-!app_assoc).
      rewrite LastIndexByte_app by done. simpl. rewrite length_app. f_equal. simpl. lia. }
    assert (IndexByte s rbrack = Some (length host + 1)%nat) as ->.
    { change s with ((lbrack :: host) ++ rbrack :: colon :: port). rewrite IndexByte_app.
      - simpl. f_equal. lia.
      - by rewrite not_elem_of_cons. }
    cbv zeta. rewrite decide_True by done.
    assert (length s = length host + 3 + length port)%nat as Hlen.
    { unfold s. rewrite !length_app. simpl. lia. }
    rewrite decide_False, decide_True by lia.
    assert (drop 1 s = host ++ rbrack :: colon :: port) as -> by done.
    assert (drop (length host + 1 + 1) s = colon :: port) as ->.
    { change s with ((lbrack :: host) ++ [rbrack] ++ colon :: port). rewrite app_assoc.
      apply drop_app_length'. rewrite length_app. simpl. lia. }
    assert (drop (S (length host + 2)) s = port) as ->.
    { change s with ((lbrack :: host) ++ [rbrack; colon] ++ port). rewrite app_assoc.
      apply drop_app_length'. rewrite length_app. simpl. lia. }
    rewrite (proj2 (has_byte_false _ lbrack)), (proj2 (has_byte_false _ rbrack)).
    + do 2 f_equal. replace (length host + 1 - 1)%nat with (length host) by lia. apply take_app_length.
    + by rewrite not_elem_of_cons.
    + rewrite not_elem_of_app, !not_elem_of_cons. done.
  - set (s := host ++ _). apply has_byte_false in Hc.
    assert (LastIndexByte s colon = Some (length host)) as -> by (by apply LastIndexByte_app).
    cbv zeta. rewrite decide_False.
    2: { unfold s. destruct host as [|x host]; simpl; [done|]. intros [= ->]. apply Hl. left. }
    assert (take (length host) s = host) as -> by apply take_app_length.
    assert (drop (S (length host)) s = port) as ->.
    { unfold s. rewrite app_assoc. apply drop_app_length'. rewrite length_app. simpl. lia. }
    rewrite (proj2 (has_byte_false host colon)) by done. rewrite drop_0.
    rewrite (proj2 (has_byte_false _ lbrack)), (proj2 (has_byte_false _ rbrack)); [done|..];
      unfold s; rewrite !not_elem_of_app, list_elem_of_singleton; done.
Qed.

(** ** Properties *)

(** The address a node advertises is well formed: it splits back into the host
    of its Raft address and the port of its gRPC listener, whatever the two
    configured addresses look like (IPv6 literals included), and it exists
    exactly when both of them split. *)
Theorem advertise_roundtrip raftAddr grpcListen :
  match grpcAdvertiseAddr raftAddr grpcListen with
  | Ok a => ∃ host p h port, SplitHostPort raftAddr = Ok (host, p) ∧
              SplitHostPort grpcListen = Ok (h, port) ∧ SplitHostPort a = Ok (host, port)
  | Err _ => (∃ e, SplitHostPort raftAddr = Err e) ∨ (∃ e, SplitHostPort grpcListen = Err e)
  | _ => False
  end.
Proof.
  unfold grpcAdvertiseAddr.
  assert (∀ s, (∃ r, SplitHostPort s = Ok r) ∨ ∃ e, SplitHostPort s = Err e) as Htot.
  { intros s. unfold SplitHostPort, addrErr. cbv zeta. repeat case_match; eauto. }
  destruct (Htot raftAddr) as [[[host p] Er]|[e Er]]; rewrite Er; [|eauto].
  destruct (Htot grpcListen) as [[[h port] Eg]|[e Eg]]; rewrite Eg; [|eauto].
  exists host, p, h, port. split_and!; [done..|]. apply SplitHostPort_join.
  apply SplitHostPort_parts in Er as (Hh & _ & _), Eg as (_ & Hp & Hc). done.
Qed.

Lemma advertise_ipv6 :
  grpcAdvertiseAddr (of_str "[fe80::1]:50005") (of_str "0.0.0.0:8443") = Ok (of_str "[fe80::1]:8443").
Proof. by vm_compute. Qed.
