(* ===== verification/App.v ===== *)
(** * Start-up

    [Init], [WithRepositories], [hasRaftData] and [StartRaft] of
    [src/internal/app/app.go], the engine constructors they call
    ([NewPebble], [NewBoltDB]), and the start and leave commands of
    [src/cmd/futureq].

    The engines' files, the Raft library and the seed nodes are classes and
    arguments.  [storage.DB] is an interface, so an opened store is an engine
    together with a handle of it ([AnyDB]); [logger.Fatal] ends the process,
    which is an error of [startRun]. *)
From stdpp Require Import prelude gmap strings.
From S2P Require Import Prelude Bytes Keys Config Storage Bolt Pebble Repository Net.
From S2P Require Import MetaCommands MetaStateMachine MetaService Cluster.
From S2P Require Import Proto Deleter Runners.
Local Open Scope Z_scope.

(** ** Opening an engine *)

(** [bolt.Open] and an update transaction that runs CreateBucketIfNotExists. *)
Class BoltFiles `{BoltEngine} := {
  bolt_Open : string → outcome bolt_raw;
  bolt_CreateBucket : bolt_raw → bytes → bolt_raw * option error;
  bolt_CreateBucket_ok db n db' :
    bolt_CreateBucket db n = (db', None) →
    bkt_map <$> tx_Bucket db' n = Some (from_option bkt_map ∅ (tx_Bucket db n));
}.

(** What NewPebble sets of [pebble.Options]. *)
Record PebbleOptions := mkPebbleOptions {
  po_DisableWAL : bool;
  po_CacheSize : Z;
  po_MemTableSize : Z;
  po_InMemory : bool;
}.

(** [pebble.Open]; a memory file system is new and therefore empty. *)
Class PebbleFiles `{PebbleEngine} := {
  pebble_Open : string → PebbleOptions → outcome pebble_raw;
  pebble_Open_mem path o db : pebble_Open path o = Ok db → po_InMemory o = true → peb_map db = ∅;
}.

Definition defaultBucket : string := "futureq".

Definition NewBoltDB `{BoltFiles} (cfg : BoltCfg) : outcome boltDB :=
  match bolt_Open (BoltDataPath cfg) with
  | Ok db =>
      let bname := if decide (DefaultBucket cfg = ""%string) then defaultBucket else DefaultBucket cfg in
      match bolt_CreateBucket db (of_str bname) with
      | (_, Some e) => Err (ErrorWrap "bbolt: failed to create bucket" e)
      | (db', None) => Ok (mkBoltDB db' (of_str bname))
      end
  | Err e => Err (ErrorWrap "bbolt: failed to open" e)
  | Panic => Panic
  | OutOfFuel => OutOfFuel
  end.

(** The sizes are an int64 and a uint64 product. *)
Definition NewPebble `{PebbleFiles} (cfg : PebbleCfg) : outcome pebble_raw :=
  let cacheSize := i64 (i64 (CacheSizeMB cfg * 1024) * 1024) in
  let cacheSize := if decide (cacheSize ≤ 0) then 64 * 1024 * 1024 else cacheSize in
  let dbOpts := mkPebbleOptions (DisableWAL cfg) cacheSize
                  (u64 (u64 (InMemTableSizeMB cfg * 1024) * 1024))
                  (bool_decide (PebbleDataPath cfg = ""%string)) in
  pebble_Open (PebbleDataPath cfg) dbOpts.

(** A value of the interface [storage.DB]. *)
Record AnyDB := mkAnyDB {
  any_DB : DB;
  any_db : @db_t any_DB;
}.

Definition any_contents (a : AnyDB) : gmap bytes bytes := @contents (any_DB a) (any_db a).

(** ** The Raft library, as far as start-up uses it *)
Definition ErrShardNotBootstrapped : error := ErrorMsg "shard not bootstrapped" [].

(** What a replica is started with. *)
Record StartArgs := mkStartArgs {
  sa_ReplicaID : Z;
  sa_ShardID : Z;
  sa_members : gmap Z string;
  sa_join : bool;
  sa_onDisk : bool;
  sa_SnapshotEntries : Z;
  sa_CompactionOverhead : Z;
}.

(** The data directory and the NodeHost of a node: whether the manifest of the
    log database exists, the replicas that were started, the address. *)
Class RaftRuntime := {
  rt_t : Type;
  rt_manifest : rt_t → bool;
  rt_running : rt_t → list StartArgs;
  rt_RaftAddress : rt_t → bytes;
  rt_RemoveAll : rt_t → rt_t * option error;       (* os.RemoveAll of the data directory *)
  rt_NewNodeHost : rt_t → string → rt_t * option error;
  rt_StartReplica : rt_t → StartArgs → rt_t * option error;
  rt_RemoveAll_ok rt rt' : rt_RemoveAll rt = (rt', None) → rt_manifest rt' = false;
  rt_RemoveAll_running rt : rt_running (rt_RemoveAll rt).1 = rt_running rt;
  rt_NewNodeHost_running rt a : rt_running (rt_NewNodeHost rt a).1 = rt_running rt;
  rt_NewNodeHost_addr rt a rt' : rt_NewNodeHost rt a = (rt', None) → rt_RaftAddress rt' = of_str a;
  rt_StartReplica_addr rt args : rt_RaftAddress (rt_StartReplica rt args).1 = rt_RaftAddress rt;
  rt_StartReplica_ok rt args rt' :
    rt_StartReplica rt args = (rt', None) → rt_running rt' = rt_running rt ++ [args];
  rt_StartReplica_err rt args rt' e :
    rt_StartReplica rt args = (rt', Some e) → rt_running rt' = rt_running rt;
}.

Section app.
Context `{BF : BoltFiles} `{PF : PebbleFiles}.

(** ** Init and WithRepositories *)

(** The switch has no default: another type leaves [DB] nil. *)
Definition Init (cfg : Config) : outcome (option AnyDB) :=
  if decide (Type_ (Storage cfg) = "pebble"%string) then
    match NewPebble (Pebble (Storage cfg)) with
    | Ok p => Ok (Some (mkAnyDB pebble_DB p))
    | Err e => Err (ErrorWrap "failed to initialize pebble storage" e)
    | Panic => Panic
    | OutOfFuel => OutOfFuel
    end
  else if decide (Type_ (Storage cfg) = "bolt"%string) then
    match NewBoltDB (Bolt (Storage cfg)) with
    | Ok b => Ok (Some (mkAnyDB bolt_DB b))
    | Err e => Err (ErrorWrap "failed to initialize bolt storage" e)
    | Panic => Panic
    | OutOfFuel => OutOfFuel
    end
  else Ok None.

(** Calling a method of a nil interface panics. *)
Definition WithRepositories (cfg : Config) (db : option AnyDB) : outcome EventRepository :=
  match db with
  | Some a =>
      wrap_err "failed to init event repo"
        (@NewEventRepository (any_DB a) (any_db a) (TimeBucketSize (Storage cfg)))
  | None => Panic
  end.

(** An opened bbolt store has its bucket. *)
Lemma NewBoltDB_bucket cfg b :
  NewBoltDB cfg = Ok b → is_Some (tx_Bucket (bdb_db b) (bdb_bucket b)).
Proof.
  unfold NewBoltDB. destruct (bolt_Open _) as [db|e| |]; try done.
  set (n := of_str _). destruct (bolt_CreateBucket db n) as [db' [e|]] eqn:E; [done|].
  intros [= <-]. simpl. apply bolt_CreateBucket_ok in E. by destruct (tx_Bucket db' n).
Qed.

(** ** StartRaft *)
Context `{RT : RaftRuntime} `{NR : NodeRange} {MG : MetaGroup}.

(** What StartRaft works on: the runtime of the node, its metadata service, and
    the metadata group as the node sees it. *)
Record RaftApp := mkRaftApp {
  ra_rt : rt_t;
  ra_svc : Service;
  ra_group : mg_t;
}.

Definition hasRaftData (rt : rt_t) : bool := rt_manifest rt.

(** The members that are passed on: only to bootstrap a new cluster. *)
Definition start_members (cfg : Config) (join : bool) (rt : rt_t) : gmap Z string :=
  if negb join && negb (hasRaftData rt) then InitialMembers (Raft cfg) else ∅.

Definition metadataRC (cfg : Config) (join : bool) (members : gmap Z string) : StartArgs :=
  mkStartArgs (NodeID (Raft cfg)) MetadataShardID members join false 5 5.
Definition eventRC (cfg : Config) (join : bool) (members : gmap Z string) : StartArgs :=
  mkStartArgs (NodeID (Raft cfg)) (ClusterID (Raft cfg)) members join true
    (SnapshotEntries (Raft cfg)) (CompactionOverhead (Raft cfg)).

(** Starting a replica; a bootstrap that failed half-way wipes the data
    directory, and whether that worked is not looked at. *)
Definition start_group (ctx : string) (args : StartArgs) : st RaftApp () := λ a,
  match rt_StartReplica (ra_rt a) args with
  | (rt', None) => (mkRaftApp rt' (ra_svc a) (ra_group a), Ok ())
  | (rt', Some e) =>
      let rt'' := if errors_Is e ErrShardNotBootstrapped then (rt_RemoveAll rt').1 else rt' in
      (mkRaftApp rt'' (ra_svc a) (ra_group a), Err (ErrorWrap ctx e))
  end.

Definition new_node_host (cfg : Config) : st RaftApp () := λ a,
  match rt_NewNodeHost (ra_rt a) (ListenAddress (Raft cfg)) with
  | (rt', None) => (mkRaftApp rt' (ra_svc a) (ra_group a), Ok ())
  | (rt', Some e) =>
      (mkRaftApp rt' (ra_svc a) (ra_group a), Err (ErrorWrap "failed to create dragonboat nodehost" e))
  end.

Definition on_svc (f : Service → Service) : st RaftApp () := λ a,
  (mkRaftApp (ra_rt a) (f (ra_svc a)) (ra_group a), Ok ()).

(** After a failed attempt: the application is shut down, or two seconds pass in
    which the other members of the group may act. *)
Inductive retry := RetryCtxDone | RetryAfter (f : mg_t → mg_t).

Fixpoint register_loop (nodeID : Z) (addr : bytes) (evs : list retry) (g : mg_t) : mg_t * outcome () :=
  match RegisterNodeAddr nodeID addr g with
  | (g', Ok _) => (g', Ok ())
  | (g', Err e) =>
      match evs with
      | [] => (g', OutOfFuel)
      | RetryCtxDone :: _ => (g', Err (ErrorWrap "failed to register gRPC address" e))
      | RetryAfter f :: evs' => register_loop nodeID addr evs' (f g')
      end
  | (g', Panic) => (g', Panic)
  | (g', OutOfFuel) => (g', OutOfFuel)
  end.

Definition announce (cfg : Config) (evs : list retry) : st RaftApp () := λ a,
  match grpcAdvertiseAddr (rt_RaftAddress (ra_rt a)) (of_str (Listen (Server cfg))) with
  | Ok addr =>
      let '(g', o) := register_loop (NodeID (Raft cfg)) addr evs (ra_group a) in
      (mkRaftApp (ra_rt a) (ra_svc a) g', o)
  | Err e => (a, Err (ErrorWrap "failed to compute gRPC advertise address" e))
  | Panic => (a, Panic)
  | OutOfFuel => (a, OutOfFuel)
  end.

Definition register_shard (tick : nat) (nh : NodeHost) (shardID : Z) : st RaftApp () := λ a,
  let '(s', g') := handle_event tick nh (EvRegisterShard shardID) (ra_svc a) (ra_group a) in
  (mkRaftApp (ra_rt a) s' g', Ok ()).

Definition get_rt : st RaftApp rt_t := λ a, (a, Ok (ra_rt a)).

(** [nh] is the NodeHost when the shard is registered, [evs] the waits between
    the attempts to register the address. *)
Definition StartRaft (cfg : Config) (join : bool) (tick : nat) (nh : NodeHost) (evs : list retry)
    : st RaftApp () :=
  new_node_host cfg;;
  on_svc (λ _, NewService);;
  rt ← get_rt;
  let members := start_members cfg join rt in
  start_group "failed to start metadata raft group" (metadataRC cfg join members);;
  on_svc (SetGrpcAddrsSource (local_addrs tick));;
  start_group "failed to start event raft group" (eventRC cfg join members);;
  announce cfg evs;;
  register_shard tick nh (ClusterID (Raft cfg)).

(** ** The start command *)
Context `{CH : ClusterHost}.

(** What contacting a seed comes to: no connection, or a call of the seed's
    JoinCluster, whose answer may be lost.  [shard] is the event shard of the
    seed's configuration. *)
Inductive contact :=
  | NoConnection (e : error)
  | Call (lost : option error) (seedRaft : bool) (shard : Z) (evs1 evs2 : list wait_event).

Fixpoint joinCluster (cfg : Config) (seeds : list contact) (h : h_t) : h_t * outcome () :=
  match seeds with
  | [] => (h, Err (ErrorMsg "failed to join cluster: all seeds exhausted" []))
  | NoConnection _ :: seeds' => joinCluster cfg seeds' h
  | Call lost seedRaft shard evs1 evs2 :: seeds' =>
      let '(h', o) := JoinCluster seedRaft shard (NodeID (Raft cfg))
                        (of_str (ListenAddress (Raft cfg))) evs1 evs2 h in
      match lost, o with
      | None, Ok resp => if Success resp then (h', Ok ()) else joinCluster cfg seeds' h'
      | _, _ => joinCluster cfg seeds' h'
      end
  end.

(** [time.Duration(ms) * time.Millisecond]: an int64 product of a converted
    uint64. *)
Definition duration_ms (ms : Z) : Z := i64 (i64 ms * Millisecond).

(** What the start command has built when it reaches the server. *)
Record Running := mkRunning {
  run_cfg : Config;
  run_db : AnyDB;
  run_repo : EventRepository;
  run_joining : bool;
  inFlightTimeout_ : Z;
  deleteInterval : Z;
  dispatchInterval : Z;
  janitorInterval : Z;
}.

(** The world of a start: the cluster the seeds belong to, and the node's own
    Raft runtime. *)
Abbreviation world := (h_t * RaftApp)%type.

Definition join_flow (cfg : Config) (seeds : list contact) : st world bool := λ '(h, a),
  if Enabled (Raft cfg) && bool_decide (0 < length seeds)%nat then
    if hasRaftData (ra_rt a) then ((h, a), Ok false)
    else match joinCluster cfg seeds h with
         | (h', Ok _) => ((h', a), Ok true)
         | (h', Err e) => ((h', a), Err e)
         | (h', Panic) => ((h', a), Panic)
         | (h', OutOfFuel) => ((h', a), OutOfFuel)
         end
  else ((h, a), Ok false).

Definition raft_flow (cfg : Config) (joining : bool) (tick : nat) (nh : NodeHost) (evs : list retry)
    : st world () := λ '(h, a),
  if Enabled (Raft cfg) then
    let '(a', o) := StartRaft cfg joining tick nh evs a in
    ((h, a'), wrap_err "failed to start raft" o)
  else ((h, a), Ok ()).

Definition startRun (decoded : outcome Config) (getenv : string → string) (seeds : list contact)
    (tick : nat) (nh : NodeHost) (evs : list retry) : st world Running :=
  cfg ← st_lift (wrap_err "failed to load config" (Load decoded getenv));
  db ← st_lift (wrap_err "failed to init app" (Init cfg));
  repo ← st_lift (wrap_err "failed to init repositories" (WithRepositories cfg db));
  joining ← join_flow cfg seeds;
  raft_flow cfg joining tick nh evs;;
  st_lift match db with
          | Some a =>
              let c := Consumer cfg in
              Ok (mkRunning cfg a repo joining
                    (duration_ms (InFlightTimeoutMs c)) (duration_ms (DeleteBatchIntervalMs c))
                    (duration_ms (DispatchPollIntervalMs c)) (duration_ms (TTLJanitorIntervalMs c)))
          | None => Panic
          end.

(** ** The leave command *)
Definition leaveRun (decoded : outcome Config) (getenv : string → string) (seed : contact) (h : h_t)
    : h_t * outcome () :=
  match wrap_err "failed to load config" (Load decoded getenv) with
  | Ok cfg =>
      if negb (Enabled (Raft cfg))
      then (h, Err (ErrorMsg "raft must be enabled in config to leave a cluster" []))
      else
        match seed with
        | NoConnection e => (h, Err (ErrorWrap "failed to connect to seed node" e))
        | Call lost seedRaft shard _ _ =>
            let '(h', o) := LeaveCluster seedRaft shard (NodeID (Raft cfg)) h in
            match lost, o with
            | None, Ok resp =>
                if Success resp then (h', Ok ())
                else (h', Err (ErrorWrap "failed to leave cluster" (default ErrEOF (ErrorMessage resp))))
            | Some e, _ => (h', Err (ErrorWrap "LeaveCluster RPC failed" e))
            | None, Err e => (h', Err (ErrorWrap "LeaveCluster RPC failed" e))
            | None, Panic => (h', Err (ErrorMsg "LeaveCluster RPC failed" []))
            | None, OutOfFuel => (h', OutOfFuel)
            end
        end
  | Err e => (h, Err e)
  | Panic => (h, Panic)
  | OutOfFuel => (h, OutOfFuel)
  end.

(** ** Lemmas *)
Lemma start_group_ok ctx args a a' :
  start_group ctx args a = (a', Ok ()) →
  rt_running (ra_rt a') = rt_running (ra_rt a) ++ [args] ∧
  rt_RaftAddress (ra_rt a') = rt_RaftAddress (ra_rt a) ∧ ra_svc a' = ra_svc a ∧ ra_group a' = ra_group a.
Proof.
  unfold start_group. pose proof (rt_StartReplica_addr (ra_rt a) args) as Ha.
  destruct (rt_StartReplica _ _) as [rt' [e|]] eqn:E; intros [= <-]. simpl in *.
  apply rt_StartReplica_ok in E. done.
Qed.

(** A data directory that was just removed, or would not be. *)
Definition wiped (rt : rt_t) : Prop := ∃ rt0, rt = (rt_RemoveAll rt0).1 ∧
  ((rt_RemoveAll rt0).2 = None → rt_manifest rt = false).

Lemma start_group_err ctx args a a' e :
  start_group ctx args a = (a', Err e) →
  rt_running (ra_rt a') = rt_running (ra_rt a) ∧
  ∃ e', e = ErrorWrap ctx e' ∧ (errors_Is e' ErrShardNotBootstrapped = true → wiped (ra_rt a')).
Proof.
  unfold start_group. destruct (rt_StartReplica _ _) as [rt' [e'|]] eqn:E; intros [= <- <-]. simpl.
  apply rt_StartReplica_err in E. destruct (errors_Is e' _) eqn:He.
  - rewrite rt_RemoveAll_running. split; [congruence|]. exists e'. split; [done|]. intros _. exists rt'. split; [done|].
    pose proof (rt_RemoveAll_ok rt') as Hok. destruct (rt_RemoveAll rt') as [r o]. intros E'. simpl in E'. subst. by apply Hok.
  - split; [done|]. exists e'. split; [done|congruence].
Qed.

Lemma start_group_total ctx args a :
  (∃ a', start_group ctx args a = (a', Ok ())) ∨ ∃ a' e, start_group ctx args a = (a', Err e).
Proof. unfold start_group. destruct (rt_StartReplica _ _) as [rt' [e|]]; eauto. Qed.

Lemma register_loop_ok nodeID addr evs g g' :
  is_u64 nodeID → addr_ok addr → register_loop nodeID addr evs g = (g', Ok ()) →
  grpcAddrs (mg_machine g') !! nodeID = Some addr.
Proof.
  intros Hid Ha. revert g. induction evs as [|ev evs IH]; intros g; simpl;
    destruct (RegisterNodeAddr nodeID addr g) as [g1 [[]|e| |]] eqn:E; try done.
  - intros [= <-]. rewrite (RegisterNodeAddr_ok _ _ _ _ Hid Ha E). apply lookup_insert_eq.
  - intros [= <-]. rewrite (RegisterNodeAddr_ok _ _ _ _ Hid Ha E). apply lookup_insert_eq.
  - destruct ev as [|f]; [done|apply IH].
Qed.

(** What the node advertises. *)
Definition advertised (cfg : Config) : outcome bytes :=
  grpcAdvertiseAddr (of_str (ListenAddress (Raft cfg))) (of_str (Listen (Server cfg))).

Lemma announce_ok cfg evs a a' :
  is_u64 (NodeID (Raft cfg)) → (∀ x, advertised cfg = Ok x → addr_ok x) →
  rt_RaftAddress (ra_rt a) = of_str (ListenAddress (Raft cfg)) →
  announce cfg evs a = (a', Ok ()) →
  ra_rt a' = ra_rt a ∧ ra_svc a' = ra_svc a ∧
  ∃ addr, advertised cfg = Ok addr ∧
    grpcAddrs (mg_machine (ra_group a')) !! NodeID (Raft cfg) = Some addr.
Proof.
  intros Hid Hok Haddr. unfold announce. rewrite Haddr. fold (advertised cfg).
  destruct (advertised cfg) as [addr|e| |] eqn:Ea; try done.
  destruct (register_loop _ _ _ _) as [g' o] eqn:Er. intros [= <- ->]. simpl.
  split_and!; [done..|]. exists addr. split; [done|]. eapply register_loop_ok, Er; auto.
Qed.

(** What a replica of a group is started with.  A node that joins is told by its
    seed who the members are, so it passes none; a new cluster is bootstrapped
    with the configured members; a restart finds them in its log. *)
Record group_args (cfg : Config) (join manifest : bool) (shard : Z) (onDisk : bool) (sa : StartArgs) : Prop := {
  ga_replica : sa_ReplicaID sa = NodeID (Raft cfg);
  ga_shard : sa_ShardID sa = shard;
  ga_onDisk : sa_onDisk sa = onDisk;
  ga_join : sa_join sa = join;
  ga_joining : join = true → sa_members sa = ∅;
  ga_bootstrap : join = false → manifest = false → sa_members sa = InitialMembers (Raft cfg);
  ga_restart : join = false → manifest = true → sa_members sa = ∅;
}.

(** The metadata group and the event group. *)
Definition group_pair (cfg : Config) (join manifest : bool) (meta event : StartArgs) : Prop :=
  group_args cfg join manifest MetadataShardID false meta ∧
  group_args cfg join manifest (ClusterID (Raft cfg)) true event ∧
  sa_SnapshotEntries event = SnapshotEntries (Raft cfg) ∧
  sa_CompactionOverhead event = CompactionOverhead (Raft cfg).

Lemma start_group_pair cfg join rt ms :
  ms = start_members cfg join rt →
  group_pair cfg join (rt_manifest rt) (metadataRC cfg join ms) (eventRC cfg join ms).
Proof.
  intros ->. unfold start_members, hasRaftData.
  split_and!; [split|split|..]; simpl; try done; intros ->; try done; by intros ->.
Qed.

(** The node's start in the two groups. *)
Record raft_started (cfg : Config) (join : bool) (a a' : RaftApp) : Prop := {
  rs_groups : ∃ rt1 meta event, rt_NewNodeHost (ra_rt a) (ListenAddress (Raft cfg)) = (rt1, None) ∧
    group_pair cfg join (rt_manifest rt1) meta event ∧
    rt_running (ra_rt a') = rt_running (ra_rt a) ++ [meta; event];
  rs_shard : ClusterID (Raft cfg) ∈ shards (ra_svc a');
  rs_addr : ∃ addr g1 s1 tick nh, advertised cfg = Ok addr ∧
    grpcAddrs (mg_machine g1) !! NodeID (Raft cfg) = Some addr ∧
    getGrpcAddrs s1 = Some (local_addrs tick) ∧
    handle_event tick nh (EvRegisterShard (ClusterID (Raft cfg))) s1 g1 = (ra_svc a', ra_group a');
}.

Lemma publishTopology_shards tick nh shardID s g :
  shards (publishTopology tick nh shardID s g).1.1 = shards s.
Proof. unfold publishTopology. repeat case_split_eq; by simplify_eq/=. Qed.

Lemma StartRaft_ok cfg join tick nh evs a a' :
  is_u64 (NodeID (Raft cfg)) → (∀ x, advertised cfg = Ok x → addr_ok x) →
  StartRaft cfg join tick nh evs a = (a', Ok ()) → raft_started cfg join a a'.
Proof.
  intros Hid Hok. unfold StartRaft. intros Hs.
  apply st_bind_ok in Hs as (a1 & [] & Hnh & Hs). apply st_bind_ok in Hs as (a2 & [] & [= <-] & Hs).
  apply st_bind_ok in Hs as (a3 & rt & [= <- <-] & Hs).
  apply st_bind_ok in Hs as (a4 & [] & Hm & Hs). apply st_bind_ok in Hs as (a5 & [] & [= <-] & Hs).
  apply st_bind_ok in Hs as (a6 & [] & He & Hs). apply st_bind_ok in Hs as (a7 & [] & Ha & Hs).
  unfold new_node_host in Hnh.
  pose proof (rt_NewNodeHost_running (ra_rt a) (ListenAddress (Raft cfg))) as Hrun.
  destruct (rt_NewNodeHost _ _) as [rt1 [e|]] eqn:En; [done|]. injection Hnh as <-. simpl in *.
  apply start_group_ok in Hm as (Rm & Am & Sm & Gm), He as (Re & Ae & Se & Ge). simpl in *.
  apply announce_ok in Ha as (Ert & Es & addr & Hadv & Hg); [|done|done|].
  2: { rewrite Ae, Am. by eapply rt_NewNodeHost_addr. }
  unfold register_shard in Hs. destruct (handle_event _ _ _ _ _) as [s' g'] eqn:Ev.
  injection Hs as <-. split; simpl.
  - eexists rt1, _, _. split; [done|]. split; [by apply start_group_pair|].
    rewrite Ert, Re, Rm, Hrun. by rewrite <-app_assoc.
  - simpl in Ev. pose proof (publishTopology_shards tick nh (ClusterID (Raft cfg))
      (track (ClusterID (Raft cfg)) (ra_svc a7)) (ra_group a7)) as Hsh.
    rewrite Ev in Hsh. simpl in Hsh. rewrite Hsh. set_solver.
  - exists addr, (ra_group a7), (ra_svc a7), tick, nh. split_and!; [done..| |done].
    by rewrite Es, Se.
Qed.

Lemma register_loop_err nodeID addr evs g g' e :
  register_loop nodeID addr evs g = (g', Err e) →
  ∃ e', e = ErrorWrap "failed to register gRPC address" e'.
Proof.
  revert g. induction evs as [|ev evs IH]; intros g; simpl;
    destruct (RegisterNodeAddr nodeID addr g) as [g1 [[]|e1| |]]; try done.
  destruct ev as [|f]; [|apply IH]. intros [= _ <-]. eauto.
Qed.

Lemma announce_err cfg evs a a' o :
  announce cfg evs a = (a', o) →
  ra_rt a' = ra_rt a ∧
  ∀ e, o = Err e → ∃ e', e = ErrorWrap "failed to register gRPC address" e' ∨
                         e = ErrorWrap "failed to compute gRPC advertise address" e'.
Proof.
  unfold announce. destruct (grpcAdvertiseAddr _ _) as [addr|e1| |].
  - destruct (register_loop _ _ _ _) as [g' o'] eqn:Er. intros [= <- <-]. split; [done|].
    intros e ->. destruct (register_loop_err _ _ _ _ _ _ Er) as [e' ->]. eauto.
  - intros [= <- <-]. split; [done|]. intros e [= <-]. eauto.
  - by intros [= <- <-].
  - by intros [= <- <-].
Qed.

(** Replicas started by a start that did not succeed. *)
Lemma StartRaft_err cfg join tick nh evs a a' e :
  StartRaft cfg join tick nh evs a = (a', Err e) →
  (∃ manifest meta event l, group_pair cfg join manifest meta event ∧ l `prefix_of` [meta; event] ∧
     rt_running (ra_rt a') = rt_running (ra_rt a) ++ l) ∧
  ∀ e', e = ErrorWrap "failed to start metadata raft group" e' ∨
        e = ErrorWrap "failed to start event raft group" e' →
    errors_Is e' ErrShardNotBootstrapped = true → wiped (ra_rt a').
Proof.
  unfold StartRaft, mbind, st_bind. unfold new_node_host at 1.
  pose proof (rt_NewNodeHost_running (ra_rt a) (ListenAddress (Raft cfg))) as Hrun.
  destruct (rt_NewNodeHost _ _) as [rt1 [e1|]] eqn:En; simpl in *.
  { intros [= <- <-]. split; [exists (rt_manifest rt1); do 2 eexists; exists []; split_and!;
      [by apply start_group_pair|apply prefix_nil|by rewrite app_nil_r]|].
    intros e' [?|?]; done. }
  set (ms := start_members cfg join rt1).
  pose proof (start_group_pair cfg join rt1 ms eq_refl) as Hpair.
  set (a1 := mkRaftApp rt1 NewService (ra_group a)).
  destruct (start_group_total "failed to start metadata raft group" (metadataRC cfg join ms) a1)
    as [[a2 Em]|(a2 & e2 & Em)]; rewrite Em.
  2: { intros [= <- <-]. apply start_group_err in Em as (Hr & e' & -> & Hw). split.
       - do 3 eexists. exists []. split; [exact Hpair|]. split; [apply prefix_nil|]. by rewrite app_nil_r, Hr.
       - by intros e'' [[= <-]|?]. }
  apply start_group_ok in Em as (Rm & _ & _ & _). simpl.
  set (a3 := mkRaftApp (ra_rt a2) _ _).
  destruct (start_group_total "failed to start event raft group" (eventRC cfg join ms) a3)
    as [[a4 Ee]|(a4 & e4 & Ee)]; rewrite Ee.
  2: { intros [= <- <-]. apply start_group_err in Ee as (Hr & e' & -> & Hw). split.
       - do 3 eexists. exists [metadataRC cfg join ms]. split; [exact Hpair|].
         split; [by exists [eventRC cfg join ms]|].
         rewrite Hr. simpl. by rewrite Rm, <-Hrun.
       - by intros e'' [?|[= <-]]. }
  apply start_group_ok in Ee as (Re & _ & _ & _).
  assert (rt_running (ra_rt a4) = rt_running (ra_rt a) ++ [metadataRC cfg join ms; eventRC cfg join ms]) as Hboth.
  { rewrite Re. simpl. rewrite Rm. simpl. by rewrite Hrun, <-app_assoc. }
  destruct (announce cfg evs a4) as [a5 o] eqn:Ea.
  apply announce_err in Ea as [Ert Herr]. destruct o as [[]|e5| |]; try done.
  - unfold register_shard. by destruct (handle_event _ _ _ _ _).
  - intros [= <- <-]. split.
    + do 4 eexists. split; [exact Hpair|]. split; [reflexivity|]. by rewrite Ert.
    + destruct (Herr _ eq_refl) as [e' [-> | ->]]; by intros e'' [?|?].
Qed.

(** ** The flows of the start command *)
Definition same_cluster (cfg : Config) (c : contact) : Prop :=
  match c with NoConnection _ => True | Call _ _ shard _ _ => shard = ClusterID (Raft cfg) end.

Abbreviation both_groups cfg := [MetadataShardID; ClusterID (Raft cfg)].

(** The node votes in both groups under its address. *)
Definition votes (cfg : Config) (h : h_t) : Prop :=
  ∀ sh, sh ∈ both_groups cfg →
    voters (shard_members h sh) !! NodeID (Raft cfg) = Some (of_str (ListenAddress (Raft cfg))) ∧
    observers (shard_members h sh) !! NodeID (Raft cfg) = None.

Lemma joinCluster_sound cfg seeds h h' o :
  ClusterID (Raft cfg) ≠ MetadataShardID → Forall (same_cluster cfg) seeds →
  joinCluster cfg seeds h = (h', o) →
  only_node (NodeID (Raft cfg)) (both_groups cfg) (shard_members h) (shard_members h') ∧
  (o = Ok () → votes cfg h').
Proof.
  intros Hne Hall. revert h. induction Hall as [|c seeds Hc Hall IH]; intros h; simpl.
  { intros [= <- <-]. by split. }
  destruct c as [e|lost raft shard evs1 evs2]; [apply IH|]. simpl in Hc. subst shard.
  destruct (JoinCluster _ _ _ _ _ _ _) as [h1 o1] eqn:Ej.
  apply join_cluster_sound in Ej as (Ho & Hv & _); [|done].
  assert (joinCluster cfg seeds h1 = (h', o) →
    only_node (NodeID (Raft cfg)) (both_groups cfg) (shard_members h) (shard_members h') ∧
    (o = Ok () → votes cfg h')) as Hnext.
  { intros [Ho' Hv']%IH. split; [by etrans|done]. }
  destruct lost; [done|]. destruct o1 as [resp|e| |]; try done.
  destruct (Success resp) eqn:Hs; [|done]. intros [= <- <-]. split; [done|].
  intros _. exact (Hv resp eq_refl Hs).
Qed.

Lemma join_flow_ok cfg seeds h a h' a' joining :
  ClusterID (Raft cfg) ≠ MetadataShardID → Forall (same_cluster cfg) seeds →
  join_flow cfg seeds (h, a) = ((h', a'), Ok joining) →
  a' = a ∧
  (joining = true ↔ Enabled (Raft cfg) = true ∧ seeds ≠ [] ∧ hasRaftData (ra_rt a) = false) ∧
  (joining = false → h' = h) ∧
  only_node (NodeID (Raft cfg)) (both_groups cfg) (shard_members h) (shard_members h') ∧
  (joining = true → votes cfg h').
Proof.
  intros Hne Hall. unfold join_flow.
  destruct (Enabled (Raft cfg)) eqn:En; simpl; [|intros [= <- <- <-]; split_and!; naive_solver].
  destruct seeds as [|c seeds]; [intros [= <- <- <-]; split_and!; naive_solver|].
  rewrite bool_decide_true by (simpl; lia).
  destruct (hasRaftData (ra_rt a)); [intros [= <- <- <-]; split_and!; naive_solver|].
  destruct (joinCluster cfg (c :: seeds) h) as [h1 [[]|e| |]] eqn:Ej; intros [= <- <- <-].
  apply joinCluster_sound in Ej as [Ho Hv]; [|done..]. split_and!; naive_solver.
Qed.

Lemma raft_flow_ok cfg joining tick nh evs h a h' a' :
  is_u64 (NodeID (Raft cfg)) → (∀ x, advertised cfg = Ok x → addr_ok x) →
  raft_flow cfg joining tick nh evs (h, a) = ((h', a'), Ok ()) →
  h' = h ∧ (Enabled (Raft cfg) = false → a' = a) ∧
  (Enabled (Raft cfg) = true → raft_started cfg joining a a').
Proof.
  intros Hid Hok. unfold raft_flow. destruct (Enabled (Raft cfg)); [|intros [= <- <-]; done].
  destruct (StartRaft cfg joining tick nh evs a) as [a1 o] eqn:Es.
  intros [= <- <- Ho]. destruct o as [[]|e| |]; try done. split_and!; [done..|].
  intros _. by eapply StartRaft_ok.
Qed.

(** A failing read is not answered with the not-found error. *)
Definition faults_told (a : AnyDB) : Prop :=
  ∀ k e, @get_fault (any_DB a) (any_db a) k = Some e → errors_Is e PebbleErrNotFound = false.

(** The store and the repository a start gets. *)
Lemma WithRepositories_ok cfg db repo :
  WithRepositories cfg db = Ok repo →
  ∃ a, db = Some a ∧ bucketSize repo = TimeBucketSize (Storage cfg) ∧
    (faults_told a → lastID repo = persisted (any_contents a)).
Proof.
  destruct db as [a|]; [|done]. simpl. intros Hn. exists a. split; [done|].
  assert (@NewEventRepository (any_DB a) (any_db a) (TimeBucketSize (Storage cfg)) = Ok repo) as E.
  { unfold wrap_err in Hn. by destruct (@NewEventRepository _ _ _). }
  unfold NewEventRepository in E.
  pose proof (@Get_spec (any_DB a) (any_db a) eventsLastIDKey) as Hg. rewrite Hg in E. clear Hg Hn.
  unfold faults_told, any_contents, persisted.
  destruct (@get_fault (any_DB a) (any_db a) eventsLastIDKey) as [e|] eqn:Ef.
  { destruct (errors_Is e PebbleErrNotFound) eqn:Hnf; [|done]. injection E as <-. split; [done|].
    intros Hf. by rewrite (Hf _ _ Ef) in Hnf. }
  destruct (@contents (any_DB a) (any_db a) !! eventsLastIDKey) as [v|].
  - unfold be_uint in E. case_decide; [|done]. injection E as <-. done.
  - destruct (errors_Is _ _); [|done]. injection E as <-. done.
Qed.

(** ** Properties *)

(** C31. A start that succeeds is sound.  The configuration is valid; the id counter
    is the one the store holds.  Without Raft nothing else happens.  With Raft
    the node asks to join exactly when seeds were given and it has no local
    Raft data; the metadata group is started before the event group, both with
    the node's id and the same join flag: a joining node passes no members, a
    node that neither joins nor finds a log database when its NodeHost is up
    passes the configured ones, a restart passes none.  The node's advertised
    address is registered in the metadata group before the topology of the
    event shard is published.  A join touches nobody else, and afterwards the
    node votes in both groups under its address.  The seeds are of the same
    cluster, whose id is not the metadata shard's, and the address and the node
    id fit their encodings. *)
Theorem start_sound decoded getenv seeds tick nh evs h a h' a' run :
  (∀ c0, decoded = Ok c0 → is_i64 (TimeBucketSize (Storage c0))) →
  is_u64 (NodeID (Raft (run_cfg run))) →
  (∀ x, advertised (run_cfg run) = Ok x → addr_ok x) →
  ClusterID (Raft (run_cfg run)) ≠ MetadataShardID →
  Forall (same_cluster (run_cfg run)) seeds →
  startRun decoded getenv seeds tick nh evs (h, a) = ((h', a'), Ok run) →
  let cfg := run_cfg run in
  config_ok cfg ∧
  bucketSize (run_repo run) = TimeBucketSize (Storage cfg) ∧
  (faults_told (run_db run) → lastID (run_repo run) = persisted (any_contents (run_db run))) ∧
  (run_joining run = true ↔ Enabled (Raft cfg) = true ∧ seeds ≠ [] ∧ hasRaftData (ra_rt a) = false) ∧
  (Enabled (Raft cfg) = false → h' = h ∧ a' = a) ∧
  (Enabled (Raft cfg) = true → raft_started cfg (run_joining run) a a') ∧
  only_node (NodeID (Raft cfg)) (both_groups cfg) (shard_members h) (shard_members h') ∧
  (run_joining run = true → votes cfg h').
Proof.
  intros Hdec Hid Hadv Hne Hall Hs. unfold startRun in Hs.
  apply st_bind_ok in Hs as (w1 & cfg & Hl & Hs). apply st_bind_ok in Hs as (w2 & db & Hi & Hs).
  apply st_bind_ok in Hs as (w3 & repo & Hr & Hs). apply st_bind_ok in Hs as ([h4 a4] & j & Hj & Hs).
  apply st_bind_ok in Hs as ([h5 a5] & [] & Hra & Hs). unfold st_lift in *.
  injection Hl as <- Hl. injection Hi as <- Hi. injection Hr as <- Hr.
  apply wrap_err_ok in Hl, Hi, Hr. apply WithRepositories_ok in Hr as (adb & -> & Hb & Hid').
  injection Hs as <- <- <-. simpl in *.
  apply join_flow_ok in Hj as (-> & Hjoin & Hno & Hon & Hv); [|done..].
  apply raft_flow_ok in Hra as (-> & Hoff & Hon'); [|done..].
  split_and!; try done.
  - by eapply loaded_config_sound.
  - intros Hen. split; [|by apply Hoff]. apply Hno. destruct j; [|done].
    destruct (proj1 Hjoin eq_refl) as (? & _). congruence.
Qed.

(** C32. A start of the Raft groups that fails leaves no event replica without its
    metadata replica.  A bootstrap that broke off half-way has tried to remove
    the data directory; unless the removal itself failed, which the code does
    not look at, no log database is left, and the start command that is run
    next with seeds asks them to join again instead of taking the node for a
    restarted member. *)
Theorem failed_start_clean cfg join tick nh evs a a' e :
  StartRaft cfg join tick nh evs a = (a', Err e) →
  (∃ manifest meta event l, group_pair cfg join manifest meta event ∧ l `prefix_of` [meta; event] ∧
     rt_running (ra_rt a') = rt_running (ra_rt a) ++ l) ∧
  ∀ e', e = ErrorWrap "failed to start metadata raft group" e' ∨
        e = ErrorWrap "failed to start event raft group" e' →
    errors_Is e' ErrShardNotBootstrapped = true →
    ∃ rt0, ra_rt a' = (rt_RemoveAll rt0).1 ∧
      ((rt_RemoveAll rt0).2 = None →
       rt_manifest (ra_rt a') = false ∧
       ∀ seeds h h' o, Enabled (Raft cfg) = true → seeds ≠ [] → joinCluster cfg seeds h = (h', o) →
         (join_flow cfg seeds (h, a')).1 = (h', a') ∧
         (o = Ok () → (join_flow cfg seeds (h, a')).2 = Ok true)).
Proof.
  intros [Hl Hw]%StartRaft_err. split; [done|]. intros e' He Hb.
  destruct (Hw e' He Hb) as (rt0 & E & Hd). exists rt0. split; [done|]. intros Hr. specialize (Hd Hr).
  split; [done|]. intros seeds h h' o Hen Hne Hj. unfold join_flow, hasRaftData.
  rewrite Hen, Hd, bool_decide_true by (destruct seeds; simpl; [done|lia]). simpl. rewrite Hj.
  by destruct o as [[]|e1| |].
Qed.

(** A node leaves through a seed: when the command succeeds the node is a member
    of neither group, and nobody else is touched whatever happens. *)
Theorem leave_command_sound decoded getenv seed h h' o c :
  Load decoded getenv = Ok c → ClusterID (Raft c) ≠ MetadataShardID → same_cluster c seed →
  leaveRun decoded getenv seed h = (h', o) →
  only_node (NodeID (Raft c)) (both_groups c) (shard_members h) (shard_members h') ∧
  (o = Ok () → ∀ sh, sh ∈ both_groups c →
     voters (shard_members h' sh) !! NodeID (Raft c) = None ∧
     observers (shard_members h' sh) !! NodeID (Raft c) = None).
Proof.
  intros Hl Hne Hc. unfold leaveRun. rewrite Hl. simpl.
  destruct (Enabled (Raft c)); simpl; [|by intros [= <- <-]].
  destruct seed as [e|lost raft shard evs1 evs2]; [by intros [= <- <-]|]. simpl in Hc. subst shard.
  destruct (LeaveCluster _ _ _ _) as [h1 o1] eqn:El.
  apply leave_cluster_sound in El as [Ho Hv]; [|done].
  destruct lost; [by intros [= <- <-]|].
  destruct o1 as [resp|e| |]; try (by intros [= <- <-]).
  destruct (Success resp) eqn:Hs; intros [= <- <-]; (split; [done|]); [|done].
  intros _. exact (Hv resp eq_refl Hs).
Qed.
End app.

(** ** Runs *)
#[local] Unset Program Cases.
#[local] Obligation Tactic := idtac.

(** Files that start empty. *)
#[program] Definition mem_files : @PebbleFiles MapPebble := {|
  pebble_Open _ _ := Ok (∅ : gmap bytes bytes);
|}.
Next Obligation. by intros path o db [= <-]. Qed.

Definition create_bucket (db : gmap bytes (gmap bytes bytes)) (n : bytes) : gmap bytes (gmap bytes bytes) :=
  <[n := default ∅ (db !! n)]> db.

#[program] Definition bolt_files : @BoltFiles MapBolt := {|
  bolt_Open _ := Ok (∅ : gmap bytes (gmap bytes bytes));
  bolt_CreateBucket db n := (create_bucket db n, None);
|}.
Next Obligation.
  intros db n db' [= <-]. simpl. unfold create_bucket. rewrite lookup_insert_eq.
  by destruct ((db : gmap bytes (gmap bytes bytes)) !! n).
Qed.

(** A runtime whose bootstraps succeed when [lr_good]. *)
Record local_rt := mkLocalRt {
  lr_good : bool;
  lr_manifest : bool;
  lr_running : list StartArgs;
  lr_addr : bytes;
}.

#[program] Definition local_runtime : RaftRuntime := {|
  rt_t := local_rt;
  rt_manifest := lr_manifest;
  rt_running := lr_running;
  rt_RaftAddress := lr_addr;
  rt_RemoveAll r := (mkLocalRt (lr_good r) false (lr_running r) (lr_addr r), None);
  rt_NewNodeHost r a := (mkLocalRt (lr_good r) (lr_manifest r) (lr_running r) (of_str a), None);
  rt_StartReplica r args :=
    if lr_good r
    then (mkLocalRt true true (lr_running r ++ [args]) (lr_addr r), None)
    else (mkLocalRt false true (lr_running r) (lr_addr r), Some ErrShardNotBootstrapped);
|}.
Next Obligation. by intros rt rt' [= <-]. Qed.
Next Obligation. done. Qed.
Next Obligation. done. Qed.
Next Obligation. by intros rt a rt' [= <-]. Qed.
Next Obligation. intros rt args. simpl. by destruct (lr_good rt). Qed.
Next Obligation. intros rt args rt'. simpl. by destruct (lr_good rt); intros [= <-]. Qed.
Next Obligation. intros rt args rt' e. simpl. by destruct (lr_good rt); intros [= <- <-]. Qed.

Definition raft_config : Config := set_Raft (λ r, mkRaftCfg true (NodeID r) (ClusterID r) (ListenAddress r)
  (RaftDataPath r) (InitialMembers r) (RTTMillisecond r) (SnapshotEntries r) (CompactionOverhead r))
  defaultConfig.

Definition node3_env (name : string) : string :=
  if decide (name = "FUTUREQ_RAFT_NODEID"%string) then "3"
  else if decide (name = "FUTUREQ_RAFT_LISTENADDRESS"%string) then "n3:50005" else "".

Definition fresh_app (good : bool) : @RaftApp local_runtime local_group :=
  @mkRaftApp local_runtime local_group (mkLocalRt good false [] []) NewService NewMetadataStateMachine.

(** Node 3 joins through its second seed. *)
Definition sample_start :=
  @startRun MapBolt bolt_files MapPebble mem_files local_runtime id_order local_group map_host
    (Ok raft_config) node3_env
    [NoConnection ErrEOF; Call None true 1 [EvTick None] [EvTick None]] 0 sample_host []
    ((∅ : gmap Z members), fresh_app true).

Definition node3_config : Config :=
  set_Raft (set_ListenAddress "n3:50005") (set_Raft (set_NodeID 3) raft_config).

Definition sample_running : Running :=
  mkRunning node3_config (mkAnyDB pebble_DB (∅ : @db_t (@pebble_DB MapPebble)))
    (mkEventRepository 0 Millisecond) true (5000 * Millisecond) (500 * Millisecond) (50 * Millisecond)
    (60000 * Millisecond).

Lemma sample_start_ok : sample_start.2 = Ok sample_running.
Proof. reflexivity. Qed.

Lemma start_sound_witness :
  config_ok node3_config ∧
  voters (@shard_members map_host sample_start.1.1 1) !! 3 = Some (of_str "n3:50005") ∧
  ∃ meta event, rt_running (ra_rt sample_start.1.2) = [meta; event] ∧
    sa_join meta = true ∧ sa_members meta = ∅ ∧ sa_join event = true ∧ sa_members event = ∅.
Proof.
  edestruct (@start_sound MapBolt bolt_files MapPebble mem_files local_runtime id_order local_group
    map_host (Ok raft_config) node3_env
    [NoConnection ErrEOF; Call None true 1 [EvTick None] [EvTick None]] 0 sample_host []
    (∅ : gmap Z members) (fresh_app true) sample_start.1.1 sample_start.1.2 sample_running)
    as (Hok & _ & _ & Hj & _ & Hr & _ & Hv).
  - intros c0 [= <-]. by vm_compute.
  - by vm_compute.
  - intros x Hx. vm_compute in Hx. injection Hx as <-. by vm_compute.
  - done.
  - by repeat constructor.
  - rewrite <-surjective_pairing, <-sample_start_ok. apply surjective_pairing.
  - split; [exact Hok|]. split; [apply (proj1 (Hv eq_refl 1 ltac:(right; left)))|].
    destruct (Hr eq_refl) as [(rt1 & meta & event & _ & (Gm & Ge & _) & Hrun) _ _].
    exists meta, event. split; [exact Hrun|]. destruct Gm as [_ _ _ Jm Mm _ _], Ge as [_ _ _ Je Me _ _].
    split_and!; [exact Jm|exact (Mm eq_refl)|exact Je|exact (Me eq_refl)].
Defined.

Definition failed_start :=
  (@StartRaft local_runtime id_order local_group node3_config false 0 sample_host [] (fresh_app false)).1.

Lemma failed_start_clean_witness :
  rt_manifest (ra_rt failed_start) = false.
Proof.
  edestruct (@failed_start_clean local_runtime id_order local_group map_host node3_config false 0 sample_host []
    (fresh_app false)) as [_ Hw].
  - apply (pair_snd_eq _ (Err (ErrorWrap "failed to start metadata raft group" ErrShardNotBootstrapped))).
    reflexivity.
  - destruct (Hw _ (or_introl eq_refl) eq_refl) as (rt0 & _ & Hc). exact (proj1 (Hc eq_refl)).
Defined.

Lemma leave_command_sound_witness :
  voters (@shard_members map_host (@leaveRun map_host (Ok raft_config) node3_env
    (Call None true 1 [] []) sample_start.1.1).1 1) !! 3 = None.
Proof.
  edestruct (@leave_command_sound map_host (Ok raft_config) node3_env (Call None true 1 [] [])
    sample_start.1.1) as [_ Hv]; [| | |apply (pair_snd_eq _ (Ok ()))|].
  - reflexivity.
  - done.
  - done.
  - reflexivity.
  - exact (proj1 (Hv eq_refl 1 ltac:(right; left))).
Defined.

(** ** Intervals that are not checked *)
Definition no_delete_interval : Config :=
  let c := Consumer defaultConfig in
  mkConfig (Server defaultConfig) (Observability defaultConfig) (Storage defaultConfig) (Raft defaultConfig)
    (mkConsumerCfg (DispatchPollIntervalMs c) 0 (InFlightTimeoutMs c) 0).

(** The intervals of the deleter and the janitor are not validated: a
    configuration that sets them to zero loads, and both loops panic in
    [time.NewTicker], which ends the process. *)
Theorem zero_interval_panics `{Protobuf} `{DB} `{DeleteBackend} evs jevs d :
  let cfg := no_delete_interval in
  Load (Ok cfg) (λ _, ""%string) = Ok cfg ∧
  (Deleter_Run (duration_ms (DeleteBatchIntervalMs (Consumer cfg))) evs d).2 = Panic ∧
  (Janitor_Run (duration_ms (TTLJanitorIntervalMs (Consumer cfg))) jevs d).2 = Panic.
Proof. done. Qed.
