(* ===== verification/Commands.v ===== *)
(** * The command line

    The command tree of [src/cmd/futureq] ([root.go], [start.go], [leave.go]):
    the command variables, the [init] functions that give them their flags and
    subcommands, and [main].  The commands are package variables that hold
    pointers, so they form a store by variable name, and a flag names the
    variable it is bound to.

    cobra is the class [Cobra]: parsing picks a registered command, accepts only
    flags that were declared for it, with values of their kind, and refuses a
    command whose required flags are not all given. *)
From stdpp Require Import prelude gmap strings.
From S2P Require Import Prelude Bytes Keys Config Storage Bolt Pebble Repository Net.
From S2P Require Import MetaCommands MetaStateMachine MetaService Cluster.
From S2P Require Import Proto Deleter Runners App.
Local Open Scope Z_scope.
Local Open Scope string_scope.

(** The value of a flag variable; a nil slice is the empty one. *)
Inductive flag_value :=
  | StringVal (s : string)
  | StringSliceVal (l : list string).

Definition same_kind (v w : flag_value) : bool :=
  match v, w with
  | StringVal _, StringVal _ | StringSliceVal _, StringSliceVal _ => true
  | _, _ => false
  end.

Record Flag := mkFlag {
  fl_var : string;          (* the variable it is bound to *)
  fl_name : string;
  fl_default : flag_value;
  fl_required : bool;
}.

Inductive run_fn := StartRun | LeaveRun.

Record Command := mkCommand {
  Use : string;
  Run : option run_fn;
  Flags : list Flag;
  PersistentFlags : list Flag;
  subcommands : list string;
}.

Abbreviation package := (gmap string Command).

(** ** The command variables *)
Definition rootCmd : Command := mkCommand "futureq" None [] [] [].
Definition startCmd : Command := mkCommand "start" (Some StartRun) [] [] [].
Definition leaveCmd : Command := mkCommand "leave" (Some LeaveRun) [] [] [].

Definition package_vars : package :=
  <["rootCmd" := rootCmd]> (<["startCmd" := startCmd]> {["leaveCmd" := leaveCmd]}).

Definition add_flag (f : Flag) (c : Command) : Command :=
  mkCommand (Use c) (Run c) (Flags c ++ [f]) (PersistentFlags c) (subcommands c).
Definition add_persistent (f : Flag) (c : Command) : Command :=
  mkCommand (Use c) (Run c) (Flags c) (PersistentFlags c ++ [f]) (subcommands c).
Definition mark_required (n : string) (c : Command) : Command :=
  mkCommand (Use c) (Run c)
    ((λ f, if decide (fl_name f = n) then mkFlag (fl_var f) (fl_name f) (fl_default f) true else f) <$> Flags c)
    (PersistentFlags c) (subcommands c).
Definition add_command (sub : string) (c : Command) : Command :=
  mkCommand (Use c) (Run c) (Flags c) (PersistentFlags c) (subcommands c ++ [sub]).

(** ** The [init] functions, one per file *)
Definition leave_init (p : package) : package :=
  alter (add_command "leaveCmd") "rootCmd"
    (alter (mark_required "seed") "leaveCmd"
      (alter (add_flag (mkFlag "leaveSeedAddr" "seed" (StringVal "") false)) "leaveCmd" p)).

Definition root_init (p : package) : package :=
  alter (add_command "startCmd") "rootCmd"
    (alter (add_persistent (mkFlag "cfgFile" "config" (StringVal "") false)) "rootCmd" p).

Definition start_init (p : package) : package :=
  alter (add_flag (mkFlag "joinSeeds" "join" (StringSliceVal []) false)) "startCmd" p.

(** The files of a package are initialised in the order of their names. *)
Definition commands : package := start_init (root_init (leave_init package_vars)).

(** ** Parsing *)

(** What [Execute] found: the command to run and the flags that were given, with
    the value their variable has then. *)
Record parsed := mkParsed {
  p_cmd : string;
  p_given : gmap string flag_value;
}.

(** The flags a command accepts: its own and the persistent ones of its parent. *)
Definition accepted_flags (p : package) (root cmd : string) : list Flag :=
  from_option Flags [] (p !! cmd) ++ from_option PersistentFlags [] (p !! root).

Class Cobra := {
  (** [Ok None]: the help text was printed. *)
  Execute : package → string → list string → outcome (option parsed);
  Execute_total p root args : Execute p root args ≠ Panic ∧ Execute p root args ≠ OutOfFuel;
  Execute_registered p root args c :
    Execute p root args = Ok (Some c) →
    (∃ r, p !! root = Some r ∧ (p_cmd c = root ∨ p_cmd c ∈ subcommands r)) ∧
    ∃ sub, p !! p_cmd c = Some sub ∧ is_Some (Run sub);
  Execute_flags p root args c n v :
    Execute p root args = Ok (Some c) → p_given c !! n = Some v →
    ∃ f, f ∈ accepted_flags p root (p_cmd c) ∧ fl_name f = n ∧ same_kind (fl_default f) v = true;
  Execute_required p root args c f :
    Execute p root args = Ok (Some c) → f ∈ accepted_flags p root (p_cmd c) → fl_required f = true →
    is_Some (p_given c !! fl_name f);
}.

(** The variable bound to a flag. *)
Definition flag_var (c : parsed) (n : string) (initial : flag_value) : flag_value :=
  default initial (p_given c !! n).

Definition as_string (v : flag_value) : string := match v with StringVal s => s | _ => "" end.
Definition as_slice (v : flag_value) : list string := match v with StringSliceVal l => l | _ => [] end.

Definition cfgFile (c : parsed) : string := as_string (flag_var c "config" (StringVal "")).
Definition joinSeeds (c : parsed) : list string := as_slice (flag_var c "join" (StringSliceVal [])).
Definition leaveSeedAddr (c : parsed) : string := as_string (flag_var c "seed" (StringVal "")).

(** ** What the command line can start *)

(** The tree the [init] functions build: two commands under the root, [start]
    with an optional list of seeds and [leave] with a seed it insists on. *)
Lemma commands_tree :
  commands !! "rootCmd" = Some (mkCommand "futureq" None []
    [mkFlag "cfgFile" "config" (StringVal "") false] ["leaveCmd"; "startCmd"]) ∧
  commands !! "startCmd" = Some (mkCommand "start" (Some StartRun)
    [mkFlag "joinSeeds" "join" (StringSliceVal []) false] [] []) ∧
  commands !! "leaveCmd" = Some (mkCommand "leave" (Some LeaveRun)
    [mkFlag "leaveSeedAddr" "seed" (StringVal "") true] [] []).
Proof. by vm_compute. Qed.

(** ** [main] *)
Section main.
Context `{BF : BoltFiles} `{PF : PebbleFiles} `{RT : RaftRuntime} `{NR : NodeRange} {MG : MetaGroup}.
Context `{CH : ClusterHost} {CO : Cobra}.
(** The configuration file a path names, the environment, and what contacting
    an address comes to. *)
Context (decode : string → outcome Config) (getenv : string → string) (dial : string → contact).

(** A broker that serves, or the exit code of the process. *)
Inductive process :=
  | Serving (r : Running)
  | Exited (code : Z).

Definition main (args : list string) (tick : nat) (nh : NodeHost) (evs : list retry)
    : st (h_t * RaftApp) process := λ '(h, a),
  match Execute commands "rootCmd" args with
  | Err _ => ((h, a), Ok (Exited 1))
  | Ok None => ((h, a), Ok (Exited 0))
  | Ok (Some c) =>
      match commands !! p_cmd c ≫= Run with
      | Some StartRun =>
          match startRun (decode (cfgFile c)) getenv (dial <$> joinSeeds c) tick nh evs (h, a) with
          | (w, Ok r) => (w, Ok (Serving r))
          | (w, Err _) => (w, Ok (Exited 1))
          | (w, Panic) => (w, Panic)
          | (w, OutOfFuel) => (w, OutOfFuel)
          end
      | Some LeaveRun =>
          match leaveRun (decode (cfgFile c)) getenv (dial (leaveSeedAddr c)) h with
          | (h', Ok ()) => ((h', a), Ok (Exited 0))
          | (h', Err _) => ((h', a), Ok (Exited 1))
          | (h', Panic) => ((h', a), Panic)
          | (h', OutOfFuel) => ((h', a), OutOfFuel)
          end
      | None => ((h, a), Ok (Exited 0))
      end
  | Panic => ((h, a), Panic)
  | OutOfFuel => ((h, a), OutOfFuel)
  end.

(** Without seeds a start asks no cluster to change. *)
Lemma startRun_no_seeds decoded tick nh evs h a h' a' o :
  startRun decoded getenv [] tick nh evs (h, a) = ((h', a'), o) →
  h' = h ∧ ∀ r, o = Ok r → run_joining r = false.
Proof.
  unfold startRun, mbind, st_bind, st_lift. simpl.
  destruct (wrap_err "failed to load config" _) as [cfg|e| |]; [|by intros [= <- _ <-]..].
  destruct (wrap_err "failed to init app" _) as [d|e| |]; [|by intros [= <- _ <-]..].
  destruct (wrap_err "failed to init repositories" _) as [er|e| |]; [|by intros [= <- _ <-]..].
  unfold join_flow. simpl. rewrite andb_false_r. unfold raft_flow. simpl.
  destruct (Enabled (Raft cfg)).
  - destruct (StartRaft _ _ _ _ _ _) as [a1 o1]. simpl.
    destruct (wrap_err "failed to start raft" o1); [|by intros [= <- _ <-]..].
    destruct d; intros [= <- _ <-]; (split; [done|]); by intros r [= <-].
  - destruct d; intros [= <- _ <-]; (split; [done|]); by intros r [= <-].
Qed.

(** Every call of the program is one of these: a refused command line exits with
    1 and the help text with 0, and neither contacts anyone; [start] joins a
    cluster only when it was given seeds; [leave] runs only with the seed that
    was given, and exits with 0 only when the seed has confirmed. *)
Theorem main_sound args tick nh evs h a h' a' o :
  main args tick nh evs (h, a) = ((h', a'), o) →
  match Execute commands "rootCmd" args with
  | Ok (Some c) =>
      (p_cmd c = "startCmd" ∧
       (joinSeeds c = [] → h' = h ∧ ∀ r, o = Ok (Serving r) → run_joining r = false)) ∨
      (p_cmd c = "leaveCmd" ∧ p_given c !! "seed" = Some (StringVal (leaveSeedAddr c)) ∧ a' = a ∧
       (o = Ok (Exited 0) ↔
        leaveRun (decode (cfgFile c)) getenv (dial (leaveSeedAddr c)) h = (h', Ok ())))
  | Ok None => o = Ok (Exited 0) ∧ h' = h ∧ a' = a
  | _ => o = Ok (Exited 1) ∧ h' = h ∧ a' = a
  end.
Proof.
  unfold main. destruct (Execute_total commands "rootCmd" args) as [Hp Ho].
  destruct (Execute commands "rootCmd" args) as [[c|]|e| |] eqn:E; [|by intros [= <- <- <-]..|done|done].
  destruct commands_tree as (Hroot & Hstart & Hleave).
  destruct (Execute_registered _ _ _ _ E) as [(r & Hr & Hc) (sub & Hsub & Hrun)].
  rewrite Hroot in Hr. injection Hr as <-. simpl in Hc.
  assert (p_cmd c = "rootCmd" ∨ p_cmd c = "leaveCmd" ∨ p_cmd c = "startCmd") as [Hc'|[Hc'|Hc']] by set_solver;
    clear Hc; rename Hc' into Hc; rewrite Hc in *.
  - rewrite Hroot in Hsub. injection Hsub as <-. by destruct Hrun.
  - rewrite Hleave. simpl. intros Hm. right.
    destruct (Execute_required _ _ _ _ (mkFlag "leaveSeedAddr" "seed" (StringVal "") true) E) as [v Hv].
    { unfold accepted_flags. rewrite Hc, Hleave. by left. }
    { done. }
    simpl in Hv. destruct (Execute_flags _ _ _ _ _ _ E Hv) as (f & Hf & Hn & Hk).
    unfold accepted_flags in Hf. rewrite Hc, Hleave, Hroot in Hf. simpl in Hf.
    assert (v = StringVal (leaveSeedAddr c)) as ->.
    { unfold leaveSeedAddr, flag_var. rewrite Hv. simpl.
      apply elem_of_cons in Hf as [->|Hf%list_elem_of_singleton]; [|by subst f].
      by destruct v. }
    destruct (leaveRun _ _ _ _) as [h1 [[]|e| |]]; injection Hm as <- <- <-;
      split_and!; try done; split; congruence.
  - rewrite Hstart. simpl. intros Hm. left. split; [done|]. intros Hj. rewrite Hj in Hm. simpl in Hm.
    destruct (startRun _ _ _ _ _ _ _) as [[h1 a1] o1] eqn:Es.
    destruct (startRun_no_seeds _ _ _ _ _ _ _ _ _ Es) as [-> Hj'].
    destruct o1 as [r|e| |]; injection Hm as <- <- <-; (split; [done|]); intros r' [= <-]; by apply Hj'.
Qed.
End main.

(** ** A concrete parser

    Flags are written as two words, [--name value]; a repeated list flag collects
    its values.  What it finds is checked against the laws. *)
Definition legal (p : package) (root : string) (c : parsed) : Prop :=
  match p !! root, p !! p_cmd c with
  | Some r, Some sub => (p_cmd c = root ∨ p_cmd c ∈ subcommands r) ∧ is_Some (Run sub)
  | _, _ => False
  end ∧
  map_Forall (λ n v, Exists (λ f, fl_name f = n ∧ same_kind (fl_default f) v = true)
                       (accepted_flags p root (p_cmd c))) (p_given c) ∧
  Forall (λ f, fl_required f = true → is_Some (p_given c !! fl_name f)) (accepted_flags p root (p_cmd c)).

#[local] Instance legal_dec p root c : Decision (legal p root c).
Proof. unfold legal. destruct (p !! root), (p !! p_cmd c); apply _. Defined.

Fixpoint words (fs : list Flag) (args : list string) : gmap string flag_value :=
  match args with
  | w :: v :: args' =>
      let m := words fs args' in
      match list_find (λ f, "--" +:+ fl_name f = w) fs with
      | Some (_, f) =>
          match fl_default f with
          | StringVal _ => <[fl_name f := default (StringVal v) (m !! fl_name f)]> m
          | StringSliceVal _ =>
              <[fl_name f := StringSliceVal (v :: as_slice (default (StringSliceVal []) (m !! fl_name f)))]> m
          end
      | None => <[w := StringVal v]> m
      end
  | [w] => {[ w := StringVal "" ]}
  | [] => ∅
  end.

Definition word_Execute (p : package) (root : string) (args : list string) : outcome (option parsed) :=
  match args with
  | [] => Ok None
  | name :: args' =>
      match list_find (λ v, (Use <$> p !! v) = Some name) (from_option subcommands [] (p !! root)) with
      | Some (_, cmd) =>
          let c := mkParsed cmd (words (accepted_flags p root cmd) args') in
          if decide (legal p root c) then Ok (Some c) else Err (ErrorMsg "usage" [])
      | None => Err (ErrorMsg "unknown command" [])
      end
  end.

Lemma word_Execute_legal p root args c : word_Execute p root args = Ok (Some c) → legal p root c.
Proof.
  unfold word_Execute. destruct args as [|name args]; [done|]. destruct (list_find _ _) as [[i cmd]|]; [|done].
  simpl. case_decide; [|done]. by intros [= <-].
Qed.

#[program] Definition word_cobra : Cobra := {| Execute := word_Execute |}.
Next Obligation. intros p root [|name args]; unfold word_Execute; repeat case_match; done. Qed.
Next Obligation.
  intros p root args c (Hc & _)%word_Execute_legal.
  destruct (p !! root) as [r|] eqn:Er, (p !! p_cmd c) as [sub|] eqn:Es; try done. naive_solver.
Qed.
Next Obligation.
  intros p root args c n v (_ & Hf & _)%word_Execute_legal Hv. apply Hf, Exists_exists in Hv. naive_solver.
Qed.
Next Obligation.
  intros p root args c f (_ & _ & Hr)%word_Execute_legal Hf. rewrite Forall_forall in Hr. by apply Hr.
Qed.

(** [leave] without its seed is refused; with it, it runs on that seed; seeds of
    a start are collected in order. *)
Example leave_needs_seed :
  match word_Execute commands "rootCmd" ["leave"; "--config"; "n.yaml"] with Err _ => true | _ => false end = true.
Proof. by vm_compute. Qed.

Example leave_with_seed :
  match word_Execute commands "rootCmd" ["leave"; "--seed"; "n1:8443"] with
  | Ok (Some c) => bool_decide (p_cmd c = "leaveCmd" ∧ leaveSeedAddr c = "n1:8443")
  | _ => false
  end = true.
Proof. by vm_compute. Qed.

Example start_seeds_in_order :
  match word_Execute commands "rootCmd" ["start"; "--join"; "a:1"; "--config"; "n.yaml"; "--join"; "b:2"] with
  | Ok (Some c) => bool_decide (p_cmd c = "startCmd" ∧ joinSeeds c = ["a:1"; "b:2"] ∧ cfgFile c = "n.yaml")
  | _ => false
  end = true.
Proof. by vm_compute. Qed.

(** A node leaves through the seed it is given. *)
Definition sample_leave :=
  @main MapBolt bolt_files MapPebble mem_files local_runtime id_order local_group map_host word_cobra
    (λ _, Ok raft_config) node3_env (λ _, Call None true 1 [] [])
    ["leave"; "--seed"; "n1:8443"] 0 sample_host [] (∅ : gmap Z members, fresh_app true).

Lemma pairs_eta {A B C} (x : A * B * C) : x = ((x.1.1, x.1.2), x.2).
Proof. by destruct x as [[? ?] ?]. Qed.

Lemma main_sound_witness :
  match word_Execute commands "rootCmd" ["leave"; "--seed"; "n1:8443"] with
  | Ok (Some c) => p_cmd c = "leaveCmd" ∧ p_given c !! "seed" = Some (StringVal (leaveSeedAddr c))
  | _ => False
  end.
Proof.
  pose proof (@main_sound MapBolt bolt_files MapPebble mem_files local_runtime id_order local_group map_host
    word_cobra (λ _, Ok raft_config) node3_env (λ _, Call None true 1 [] [])
    ["leave"; "--seed"; "n1:8443"] 0 sample_host [] (∅ : gmap Z members) (fresh_app true)
    sample_leave.1.1 sample_leave.1.2 sample_leave.2 (pairs_eta sample_leave)) as H.
  cbn [Execute word_cobra] in H. pose proof leave_with_seed as E.
  destruct (word_Execute commands "rootCmd" ["leave"; "--seed"; "n1:8443"]) as [[c|]|e| |]; try done.
  apply bool_decide_eq_true_1 in E as [E _]. rewrite E in *. destruct H as [[[=] _]|(_ & Hs & _)]. by split.
Defined.
