(* ===== verification/Shutdown.v ===== *)
(** * Shutdown

    The goroutines of a running broker and the order in which they stop:
    the wait group and [WithGracefulShutdown] of [src/internal/app/app.go],
    [WaitForShutdown] of [src/internal/api/grpc/setup.go], the metrics server's
    [Run] ([src/internal/metrics/prometheus.go]) and the goroutines that
    [startRun] spawns ([src/cmd/futureq/start.go]).

    A state is where the goroutines stand; a step is one action of one of them,
    or the end of the shutdown window, in any interleaving.  A read of a nil
    context, a negative wait group and a panic of a component or of a gRPC
    handler, which nothing recovers, are [Crashed]; a step that has to wait is
    [Blocked].  [NodeHost.Close] and the engine's [Flush] and [Close] are taken
    to return. *)
From stdpp Require Import prelude gmap.
From S2P Require Import Prelude.
Local Open Scope Z_scope.

Inductive component := CMetrics | CDeleter | CDispatcher | CJanitor | CGrpc.

#[export] Instance component_eq_dec : EqDecision component.
Proof. solve_decision. Defined.

(** Where [main] is: registering and spawning components, serving, the shutdown
    window created, waiting for the components, then closing one after the
    other. *)
Inductive main_phase :=
  | MStart (todo : list component)
  | MServe
  | MWindow
  | MWait
  | MNodeHost
  | MFlush
  | MClose
  | MExit.

(** The handler that stops the gRPC server: waiting for the context, in
    GracefulStop, stopped. *)
Inductive grpc_phase := GServing | GDraining | GStopped.

#[export] Instance grpc_phase_eq_dec : EqDecision grpc_phase.
Proof. solve_decision. Defined.

Record proc := mkProc {
  p_main : main_phase;
  p_ctxDone : bool;            (* a.Ctx is cancelled *)
  p_ShutCtx : option bool;     (* nil, or whether the window is over *)
  p_wg : Z;                    (* a.wg *)
  p_live : list component;     (* spawned and not returned *)
  p_grpc : grpc_phase;
  p_nodeHost : bool;           (* a.NodeHost is open *)
  p_db : bool;                 (* a.DB is open *)
}.

Definition set_main m p := mkProc m (p_ctxDone p) (p_ShutCtx p) (p_wg p) (p_live p) (p_grpc p)
  (p_nodeHost p) (p_db p).
Definition set_grpc g p := mkProc (p_main p) (p_ctxDone p) (p_ShutCtx p) (p_wg p) (p_live p) g
  (p_nodeHost p) (p_db p).

Inductive step_result := Blocked | Crashed | To (p : proc).

(** [RegisterComponentWithShutdown], followed by the go statement. *)
Definition spawn (c : component) (p : proc) : proc :=
  mkProc (p_main p) (p_ctxDone p) (p_ShutCtx p) (p_wg p + 1) (p_live p ++ [c]) (p_grpc p)
    (p_nodeHost p) (p_db p).

(** A component returns; the deferred [ComponentShutdownDone] runs. *)
Definition returns (c : component) (p : proc) : step_result :=
  if decide (p_wg p - 1 < 0) then Crashed
  else To (mkProc (p_main p) (p_ctxDone p) (p_ShutCtx p) (p_wg p - 1)
             (filter (λ c', c' ≠ c) (p_live p)) (p_grpc p) (p_nodeHost p) (p_db p)).

(** The next action of [main]; [WithGracefulShutdown] from [MServe] on. *)
Definition main_step (p : proc) : step_result :=
  match p_main p with
  | MStart (c :: todo) => To (spawn c (set_main (MStart todo) p))
  | MStart [] => To (set_main MServe p)
  | MServe => Blocked
  | MWindow =>
      To (mkProc MWait true (p_ShutCtx p) (p_wg p) (p_live p) (p_grpc p) (p_nodeHost p) (p_db p))
  | MWait =>
      if decide (p_wg p = 0 ∨ p_ShutCtx p = Some true) then To (set_main MNodeHost p) else Blocked
  | MNodeHost =>
      To (mkProc MFlush (p_ctxDone p) (p_ShutCtx p) (p_wg p) (p_live p) (p_grpc p) false (p_db p))
  | MFlush => To (set_main MClose p)
  | MClose =>
      To (mkProc MExit (p_ctxDone p) (p_ShutCtx p) (p_wg p) (p_live p) (p_grpc p) (p_nodeHost p) false)
  | MExit => Blocked
  end.

(** The handler of [WaitForShutdown] once the context is cancelled: it reads
    ShutCtx and starts GracefulStop; then GracefulStop is done, or the window is
    over and Stop is called. *)
Definition grpc_stop (p : proc) : step_result :=
  if decide (p_ctxDone p = true ∧ CGrpc ∈ p_live p ∧ p_grpc p = GServing)
  then match p_ShutCtx p with
       | None => Crashed
       | Some _ => To (set_grpc GDraining p)
       end
  else Blocked.

Definition grpc_stopped (p : proc) : step_result :=
  if decide (p_grpc p = GDraining) then To (set_grpc GStopped p) else Blocked.

(** What can panic in the code that serves: a component that has not returned
    (a ticker of a zero interval, a store closed under it), or the handler of a
    request, from the moment the gRPC server is started. *)
Inductive panicking := InComponent (c : component) | InHandler.

#[export] Instance panicking_eq_dec : EqDecision panicking.
Proof. solve_decision. Defined.

Definition todo_of (m : main_phase) : list component := match m with MStart l => l | _ => [] end.
Definition store_closed (m : main_phase) : bool := match m with MExit => true | _ => false end.

Definition can_panic (p : proc) (w : panicking) : bool :=
  match w with
  | InComponent c => bool_decide (c ∈ p_live p)
  | InHandler => bool_decide (CGrpc ∉ todo_of (p_main p)) && negb (store_closed (p_main p))
  end.

Inductive event :=
  | EMain
  | ESignal                    (* SIGTERM or SIGINT *)
  | EExpire                    (* the ten seconds are over *)
  | EReturn (c : component)    (* a component has seen the cancelled context and returns *)
  | EGrpcStop                  (* the gRPC handler has seen it and starts GracefulStop *)
  | EGrpcStopped               (* GracefulStop is done, or the window is over and Stop is called *)
  | EPanic (w : panicking).    (* a component or a handler panics *)

Definition step (p : proc) (ev : event) : step_result :=
  match ev with
  | EMain => main_step p
  | ESignal =>
      match p_main p with
      | MServe => To (mkProc MWindow (p_ctxDone p) (Some false) (p_wg p) (p_live p) (p_grpc p)
                        (p_nodeHost p) (p_db p))
      | _ => Blocked
      end
  | EExpire =>
      match p_ShutCtx p with
      | Some false => To (mkProc (p_main p) (p_ctxDone p) (Some true) (p_wg p) (p_live p) (p_grpc p)
                            (p_nodeHost p) (p_db p))
      | _ => Blocked
      end
  | EReturn c =>
      if decide (p_ctxDone p = true ∧ c ∈ p_live p ∧ (c = CGrpc → p_grpc p = GStopped))
      then returns c p else Blocked
  | EGrpcStop => grpc_stop p
  | EGrpcStopped => grpc_stopped p
  | EPanic w => if can_panic p w then Crashed else Blocked
  end.

(** What [startRun] spawns, in this order. *)
Definition components : list component := [CMetrics; CDeleter; CDispatcher; CJanitor; CGrpc].

Definition started (raft : bool) : proc :=
  mkProc (MStart components) false None 0 [] GServing raft true.

Inductive leads : proc → proc → Prop :=
  | leads_step p ev p' : step p ev = To p' → leads p p'.

(** ** The invariant *)

(** What the phase of [main] tells: the window does not exist yet, the context is
    cancelled, the wait is over, the NodeHost is closed, the store is closed. *)
Definition before_window (m : main_phase) : bool := match m with MStart _ | MServe => true | _ => false end.
Definition cancelled (m : main_phase) : bool :=
  match m with MStart _ | MServe | MWindow => false | _ => true end.
Definition past_wait (m : main_phase) : bool :=
  match m with MNodeHost | MFlush | MClose | MExit => true | _ => false end.
Definition host_closed (m : main_phase) : bool := match m with MFlush | MClose | MExit => true | _ => false end.

Record proc_inv (p : proc) : Prop := {
  pv_wg : p_wg p = Z.of_nat (length (p_live p));
  pv_nodup : NoDup (p_live p ++ todo_of (p_main p));
  pv_shut : bool_decide (p_ShutCtx p = None) = before_window (p_main p);
  pv_ctx : p_ctxDone p = cancelled (p_main p);
  pv_wait : past_wait (p_main p) = true → p_live p = [] ∨ p_ShutCtx p = Some true;
  pv_grpc : p_grpc p ≠ GServing → p_ctxDone p = true;
  pv_nh : host_closed (p_main p) = true → p_nodeHost p = false;
  pv_db : p_db p = negb (store_closed (p_main p));
}.

#[export] Instance main_phase_eq_dec : EqDecision main_phase.
Proof. solve_decision. Defined.

Lemma started_inv raft : proc_inv (started raft).
Proof.
  split; simpl; try done. apply (bool_decide_unpack _). by vm_compute.
Qed.

Lemma filter_absent (c : component) (l : list component) : c ∉ l → filter (λ c', c' ≠ c) l = l.
Proof.
  induction l as [|x l IH]; [done|]. rewrite not_elem_of_cons, filter_cons. intros [Hx Hl].
  rewrite decide_True by congruence. by rewrite IH.
Qed.

Lemma filter_removes (c : component) (l : list component) : NoDup l → c ∈ l →
  Z.of_nat (length (filter (λ c', c' ≠ c) l)) = Z.of_nat (length l) - 1.
Proof.
  induction 1 as [|x l Hx Hl IH]; [by intros ?%elem_of_nil|]. rewrite filter_cons.
  intros [-> |Hin]%elem_of_cons.
  - rewrite decide_False, filter_absent by tauto. simpl. lia.
  - rewrite decide_True by (intros ->; done). simpl. rewrite !Nat2Z.inj_succ, IH by done. lia.
Qed.

(** The cases of the invariant that only look at the phase. *)
Ltac phase := split; simpl in *; auto; try congruence.

Lemma main_step_inv p p' : proc_inv p → main_step p = To p' → proc_inv p'.
Proof.
  intros [Hwg Hnd Hsh Hctx Hw Hg Hnh Hdb] Hs.
  destruct p as [m cd sh wg live g nh db]; unfold main_step in Hs; simpl in *.
  destruct m as [[|c todo]| | | | | | |]; simplify_eq/=; try case_decide as Hor; simplify_eq/=.
  - phase.
  - phase.
    + rewrite length_app. simpl. lia.
    + by rewrite <-app_assoc.
  - phase.
  - phase. intros _. destruct live as [|c l]; [by left|]. right. simpl in *. destruct Hor; [lia|done].
  - phase.
  - phase.
  - phase.
Qed.

Lemma proc_inv_step p ev p' : proc_inv p → step p ev = To p' → proc_inv p'.
Proof.
  intros Hi Hs. destruct ev as [| | |c| | |w]; simpl in Hs; [by eapply main_step_inv| | | | | |];
    destruct Hi as [Hwg Hnd Hsh Hctx Hw Hg Hnh Hdb];
    destruct p as [m cd sh wg live g nh db]; simpl in *.
  - destruct m; simplify_eq/=. phase.
  - destruct sh as [[]|]; simplify_eq/=. phase.
  - case_decide as Hc; [|done]. destruct Hc as (Hcd & Hin & Hgr). unfold returns in Hs. simpl in Hs.
    case_decide; simplify_eq/=. apply NoDup_app in Hnd as (Hnd & Hdis & Hnt). phase.
    + by rewrite filter_removes.
    + apply NoDup_app. split_and!; [by apply NoDup_filter| |done].
      intros x [_ Hx]%list_elem_of_filter. by apply Hdis.
    + intros Hp. destruct (Hw Hp) as [-> |?]; [by left|by right].
  - unfold grpc_stop in Hs. case_decide as Hc; [|done]. simpl in *. destruct sh; simplify_eq/=. phase.
    intros _. apply Hc.
  - unfold grpc_stopped in Hs. case_decide; simplify_eq/=. phase.
  - by destruct (can_panic _ w).
Qed.

Lemma reachable_proc raft p : rtc leads (started raft) p → proc_inv p.
Proof.
  intros Hr. remember (started raft) as p0 eqn:E. assert (proc_inv p0) as Hi by (subst; apply started_inv).
  clear E. induction Hr as [|p1 p2 p3 [p1' ev p2' Hs] Hr IH]; [done|]. apply IH. by eapply proc_inv_step.
Qed.

Lemma proc_inv_shut p : proc_inv p → p_ctxDone p = true → is_Some (p_ShutCtx p).
Proof.
  intros [_ _ Hsh Hctx _ _ _ _]. rewrite Hctx. intros Hc. destruct (p_ShutCtx p); [eauto|]. by destruct (p_main p).
Qed.

Lemma proc_inv_crash p ev : proc_inv p → step p ev = Crashed → ∃ w, ev = EPanic w ∧ can_panic p w = true.
Proof.
  intros Hp. pose proof (proc_inv_shut p Hp) as Hshut. destruct Hp as [Hwg _ _ _ _ _ _ _].
  destruct ev as [| | |c| | |w]; unfold step.
  - unfold main_step. by repeat case_match.
  - by destruct (p_main p).
  - by destruct (p_ShutCtx p) as [[]|].
  - case_decide as Hc; [|done]. unfold returns. case_decide as Hn; [|done].
    destruct Hc as (_ & Hin & _). rewrite Hwg in Hn. destruct (p_live p); [by apply elem_of_nil in Hin|].
    simpl in Hn. lia.
  - unfold grpc_stop. case_decide as Hc; [|done]. destruct Hc as (Hc & _). by destruct (Hshut Hc) as [b ->].
  - unfold grpc_stopped. by case_decide.
  - destruct (can_panic p w) eqn:E; [|done]. eauto.
Qed.

(** ** Progress *)

(** The actions [main] still has to take, and whether the window can still
    expire. *)
Definition weight (m : main_phase) : nat :=
  match m with
  | MStart l => 14 + 2 * length l
  | MServe => 12
  | MWindow => 10
  | MWait => 8
  | MNodeHost => 6
  | MFlush => 4
  | MClose => 2
  | MExit => 0
  end.

Definition measure (p : proc) : nat :=
  weight (p_main p) + match p_ShutCtx p with Some true => 0 | _ => 1 end.

Definition by_main (ev : event) : bool := match ev with EMain | EExpire | ESignal => true | _ => false end.

Lemma step_measure p ev p' :
  step p ev = To p' →
  (measure p' ≤ measure p)%nat ∧ (by_main ev = true → (measure p' < measure p)%nat).
Proof.
  destruct p as [m cd sh wg live g nh db]. unfold measure.
  destruct ev as [| | |c| | |w]; unfold step, main_step, returns, grpc_stop, grpc_stopped; simpl; intros Hs;
    repeat case_match; simplify_eq/=; lia.
Qed.

(** ** Properties *)

(** C28. Shutdown is orderly, in every interleaving of the goroutines.  The
    shutdown code itself never brings the process down: the wait group counts
    exactly the components that have not returned, whoever sees the cancelled
    context finds the shutdown window set, and a crash is always a panic of a
    component that has not returned or of a gRPC handler.  The store is open
    until [main] has closed it, which is after the NodeHost and only when every
    component has returned or the window is over; before that no component that
    has not returned finds the store closed. *)
Theorem shutdown_orderly raft p :
  rtc leads (started raft) p →
  (∀ ev, step p ev = Crashed → ∃ w, ev = EPanic w ∧ can_panic p w = true) ∧
  p_wg p = Z.of_nat (length (p_live p)) ∧ NoDup (p_live p) ∧
  (p_ctxDone p = true → is_Some (p_ShutCtx p)) ∧
  (p_db p = false → p_nodeHost p = false ∧ (p_live p = [] ∨ p_ShutCtx p = Some true)) ∧
  (p_live p ≠ [] → p_ShutCtx p ≠ Some true → p_db p = true ∧ past_wait (p_main p) = false).
Proof.
  intros Hp%reachable_proc. pose proof (proc_inv_shut p Hp) as Hshut.
  pose proof Hp as [Hwg Hnd Hsh Hctx Hw Hg Hnh Hdb].
  apply NoDup_app in Hnd as (Hnd & _). split_and!; try done.
  - intros ev. by apply proc_inv_crash.
  - rewrite Hdb. intros Hd. assert (p_main p = MExit) as Em by (by destruct (p_main p)).
    rewrite Em in *. auto.
  - intros Hl Hs. assert (past_wait (p_main p) = false) as Hpw.
    { destruct (past_wait (p_main p)); [|done]. by destruct (Hw eq_refl). }
    split; [|done]. rewrite Hdb. by destruct (p_main p).
Qed.

(** C29. Shutdown terminates.  After the signal, as long as [main] has not exited,
    its next action or the end of the window is possible whatever the
    components do, also when one of them never returns; every such action
    brings the exit nearer and no action of a component puts it off.  So a run
    takes at most eleven of them. *)
Theorem shutdown_terminates raft p :
  rtc leads (started raft) p → before_window (p_main p) = false →
  (measure p ≤ 11)%nat ∧
  (p_main p ≠ MExit → ∃ ev p', (ev = EMain ∨ ev = EExpire) ∧ step p ev = To p') ∧
  (∀ ev p', step p ev = To p' →
     before_window (p_main p') = false ∧ (measure p' ≤ measure p)%nat ∧
     (ev = EMain ∨ ev = EExpire → (measure p' < measure p)%nat)).
Proof.
  intros [_ _ Hsh _ _ _ _ _]%reachable_proc Hb. split_and!.
  - unfold measure. destruct (p_main p), (p_ShutCtx p) as [[]|]; simpl in *; try done; lia.
  - intros Hm. destruct (p_ShutCtx p) as [[]|] eqn:Es.
    + exists EMain. unfold step, main_step. destruct (p_main p); try done; try (eexists; split; [by left|done]).
      rewrite decide_True by (by right). eexists. split; [by left|done].
    + exists EExpire. unfold step. rewrite Es. eexists. split; [by right|done].
    + by rewrite bool_decide_true, Hb in Hsh.
  - intros ev p' Hs. destruct (step_measure _ _ _ Hs) as [Hle Hlt]. split_and!; [|done|].
    + revert Hs. destruct p as [m cd sh wg live g nh db]. simpl in *.
      destruct ev; unfold step, main_step, returns, grpc_stop, grpc_stopped; simpl; intros Hs; repeat case_match; simplify_eq/=; done.
    + intros [-> | ->]; by apply Hlt.
Qed.

(** ** Runs *)
Fixpoint run_events (p : proc) (evs : list event) : option proc :=
  match evs with
  | [] => Some p
  | ev :: evs' => match step p ev with To p' => run_events p' evs' | _ => None end
  end.

Lemma run_events_leads p evs p' : run_events p evs = Some p' → rtc leads p p'.
Proof.
  revert p. induction evs as [|ev evs IH]; intros p; simpl; [by intros [= ->]|].
  destruct (step p ev) as [| |p1] eqn:Es; try done. intros Hr. eapply rtc_l; [by econstructor|]. by apply IH.
Qed.

(** The metrics server does not return; the window expires. *)
Definition stuck_metrics : list event :=
  replicate 6 EMain ++ [ESignal; EMain; EReturn CDeleter; EGrpcStop; EReturn CJanitor; EExpire;
                        EGrpcStopped; EReturn CGrpc; EMain].

Definition stuck_state : proc :=
  mkProc MNodeHost true (Some true) 2 [CMetrics; CDispatcher] GStopped true true.

Lemma stuck_run : run_events (started true) stuck_metrics = Some stuck_state.
Proof. reflexivity. Qed.

Lemma shutdown_orderly_witness :
  step stuck_state (EPanic (InComponent CMetrics)) = Crashed ∧ step stuck_state (EReturn CDispatcher) ≠ Crashed ∧
  p_wg stuck_state = 2.
Proof.
  destruct (shutdown_orderly true stuck_state (run_events_leads _ _ _ stuck_run)) as (Hc & Hw & _).
  split_and!; [by vm_compute|by intros (w & E & _)%Hc|exact Hw].
Defined.

Lemma shutdown_terminates_witness : (measure stuck_state ≤ 11)%nat ∧ ∃ ev p', step stuck_state ev = To p'.
Proof.
  destruct (shutdown_terminates true stuck_state (run_events_leads _ _ _ stuck_run) eq_refl) as (Hm & Hp & _).
  split; [exact Hm|]. destruct (Hp ltac:(discriminate)) as (ev & p' & _ & Hs). by exists ev, p'.
Defined.
