(* ===== verification/Servers.v ===== *)
(** * The servers of a node

    [New], [Listen] and the stop of the gRPC server
    ([src/internal/api/grpc/setup.go]) with the handler constructors
    ([handlers/producer.go], [consumer.go], [cluster.go]), the HTTP server of the
    metrics ([src/internal/metrics/prometheus.go]) and the logger
    ([src/pkg/log/logger.go]).

    The gRPC library is the class [GrpcServer]: what the code relies on is that
    [Serve] accepts connections until the server is stopped, and refuses a
    server that is stopped already.  zap is the class [Zap].  The goroutine that
    [Listen] starts runs beside those of [Shutdown]; a step is an action of one
    of them, in any interleaving. *)
From stdpp Require Import prelude gmap strings.
From S2P Require Import Prelude Bytes Keys Config Shutdown.
Local Open Scope Z_scope.

(** ** The gRPC server *)
Record EnforcementPolicy := mkEnforcementPolicy {
  MinTime : Z;
  PermitWithoutStream : bool;
}.

Record ServerParameters := mkServerParameters {
  MaxConnectionIdle : Z;
  MaxConnectionAge : Z;
  MaxConnectionAgeGrace : Z;
  Time : Z;
  KeepaliveTimeout : Z;
}.

Inductive ServerOption :=
  | MaxConcurrentStreams (n : Z)
  | MaxRecvMsgSize (n : Z)
  | MaxSendMsgSize (n : Z)
  | KeepaliveEnforcementPolicy (p : EnforcementPolicy)
  | KeepaliveParams (p : ServerParameters).

(** The handlers; the hub and the deleter they share are those of the process. *)
Record ProducerHandler := mkProducerHandler { timeBucketSize : Z }.

Inductive service :=
  | FutureQProducer (h : ProducerHandler)
  | FutureQConsumer
  | FutureQCluster.

(** [NewProducerHandler]: the bucket size is read from the configuration of the
    application once. *)
Definition NewProducerHandler (cfg : Config) : ProducerHandler :=
  mkProducerHandler (TimeBucketSize (Storage cfg)).

Class GrpcServer := {
  srv_t : Type;
  grpc_NewServer : list ServerOption → srv_t;
  (** [Serve] from the call to the accept loop, or the error it returns. *)
  grpc_Serve : srv_t → srv_t * option error;
  (** [GracefulStop] and [Stop], from the moment they are called. *)
  grpc_Stop : srv_t → srv_t;
  srv_stopped : srv_t → bool;
  ErrServerStopped : error;

  NewServer_running opts : srv_stopped (grpc_NewServer opts) = false;
  Stop_stopped s : srv_stopped (grpc_Stop s) = true;
  Serve_stopped s : srv_stopped s = true → grpc_Serve s = (s, Some ErrServerStopped);
  Serve_running s : srv_stopped s = false → (grpc_Serve s).2 = None ∧ srv_stopped (grpc_Serve s).1 = false;
}.

(** The product with 1024 is an int product. *)
Definition server_options (cfg : ServerCfg) : list ServerOption :=
  [MaxConcurrentStreams (MaxConns cfg);
   MaxRecvMsgSize (i64 (MaxRecvSizeKB cfg * 1024));
   MaxSendMsgSize (i64 (MaxSendSizeKB cfg * 1024));
   KeepaliveEnforcementPolicy (mkEnforcementPolicy (5 * Second) true);
   KeepaliveParams (mkServerParameters (30 * Second) (120 * Second) (10 * Second) (10 * Second) (Timeout cfg))].

Section servers.
Context `{GrpcServer}.

Record GServer := mkGServer {
  srv : srv_t;
  services : list service;
  addr : string;
}.

Definition New (cfg : Config) : GServer :=
  mkGServer (grpc_NewServer (server_options (Server cfg)))
    [FutureQProducer (NewProducerHandler cfg); FutureQConsumer; FutureQCluster] (Listen (Server cfg)).

(** ** [Listen]

    The goroutine: before it runs, about to bind, about to call Serve, in the
    accept loop, returned. *)
Inductive listen_phase := LNone | LBind | LServe | LAccept | LDone.

#[global] Instance listen_phase_eq_dec : EqDecision listen_phase.
Proof. solve_decision. Defined.

(** The process; [x_exit] is the exit code once it is over. *)
Record process := mkProcess {
  x_proc : proc;
  x_srv : srv_t;
  x_listen : listen_phase;
  x_exit : option Z;
}.

(** [logger.Fatal]: the process ends at once. *)
Definition fatal (x : process) : process := mkProcess (x_proc x) (x_srv x) (x_listen x) (Some 1).

Definition set_listen (l : listen_phase) (x : process) : process :=
  mkProcess (x_proc x) (x_srv x) l (x_exit x).

(** The next action of the goroutine; [err] is what the operating system answers
    to it, if that is an error: to the bind, or to an accept. *)
Definition listen_step (err : option error) (x : process) : option process :=
  match x_listen x with
  | LNone | LDone => None
  | LBind => Some (if err is Some _ then fatal x else set_listen LServe x)
  | LServe =>
      let '(s, e) := grpc_Serve (x_srv x) in
      let x' := mkProcess (x_proc x) s (x_listen x) (x_exit x) in
      Some (if e is Some _ then fatal x' else set_listen LAccept x')
  | LAccept =>
      if srv_stopped (x_srv x) then Some (set_listen LDone x)
      else match err with Some _ => Some (fatal x) | None => None end
  end.

Inductive process_event :=
  | XProc (ev : event)
  | XListen (err : option error).

(** A step of one of the goroutines of [Shutdown].  [main] comes to
    [New(...).Listen().WaitForShutdown]: Listen starts the goroutine, and
    WaitForShutdown registers the component.  When [main] returns the process
    exits. *)
Definition after_proc (p' : proc) (ev : event) (x : process) : process :=
  let listen := match p_main (x_proc x), ev with MStart (CGrpc :: _), EMain => LBind | _, _ => x_listen x end in
  let s := match ev with EGrpcStop => grpc_Stop (x_srv x) | _ => x_srv x end in
  mkProcess p' s listen (match p_main p' with MExit => Some 0 | _ => None end).

Definition process_step (x : process) (ev : process_event) : option process :=
  match x_exit x with
  | Some _ => None
  | None =>
      match ev with
      | XProc ev =>
          match step (x_proc x) ev with
          | To p' => Some (after_proc p' ev x)
          | Blocked => None
          | Crashed => Some (mkProcess (x_proc x) (x_srv x) (x_listen x) (Some 2))
          end
      | XListen err => listen_step err x
      end
  end.

Fixpoint process_run (x : process) (evs : list process_event) : option process :=
  match evs with
  | [] => Some x
  | ev :: evs' => x' ← process_step x ev; process_run x' evs'
  end.

(** The state in which [startRun] begins to start the components. *)
Definition launched (cfg : Config) : process :=
  mkProcess (started (Enabled (Raft cfg))) (srv (New cfg)) LNone None.

(** ** The invariant *)
Record process_inv (x : process) : Prop := {
  xi_proc : proc_inv (x_proc x);
  (** GracefulStop is called by the shutdown handler, after the cancellation. *)
  xi_stop : srv_stopped (x_srv x) = true → p_ctxDone (x_proc x) = true;
  xi_exit : x_exit x = Some 0 → p_main (x_proc x) = MExit;
  (** The gRPC server is started once. *)
  xi_listen : x_listen x ≠ LNone → CGrpc ∉ todo_of (p_main (x_proc x));
}.

Lemma launched_inv cfg : process_inv (launched cfg).
Proof. split; simpl; [apply started_inv|by rewrite NewServer_running|done|done]. Qed.

Lemma step_todo p ev p' : step p ev = To p' → todo_of (p_main p') ⊆ todo_of (p_main p).
Proof.
  destruct p as [m cd sh wg live g nh db].
  destruct ev; unfold step, main_step, returns, grpc_stop, grpc_stopped; simpl; intros Hs;
    repeat case_match; simplify_eq/=; first [done|set_solver].
Qed.

Lemma step_ctxDone p ev p' : step p ev = To p' → p_ctxDone p = true → p_ctxDone p' = true.
Proof.
  destruct p as [m cd sh wg live g nh db].
  destruct ev; unfold step, main_step, returns, grpc_stop, grpc_stopped; simpl; intros Hs ->;
    repeat case_match; by simplify_eq/=.
Qed.

Lemma grpc_stop_ctxDone p p' : step p EGrpcStop = To p' → p_ctxDone p' = true.
Proof.
  simpl. unfold grpc_stop. case_decide as Hc; [|done]. destruct Hc as (Hc & _).
  destruct (p_ShutCtx p); [|done]. intros [= <-]. done.
Qed.

(** A bind or an accept that fails. *)
Definition os_error (ev : process_event) : Prop := ∃ e, ev = XListen (Some e).

(** A panic of a component or of a handler. *)
Definition is_panic (ev : process_event) : Prop := ∃ w, ev = XProc (EPanic w).

(** What a step that ends the process with code 1 or 2 was. *)
Lemma process_step_inv x ev x' :
  process_step x ev = Some x' → process_inv x →
  process_inv x' ∧ (x_exit x' = Some 2 → is_panic ev) ∧
  (x_exit x' = Some 1 → os_error ev ∨ (x_listen x = LServe ∧ srv_stopped (x_srv x) = true)).
Proof.
  unfold process_step. destruct (x_exit x) eqn:Ex; [done|]. intros Hs [Hp Hst He Hl].
  destruct ev as [ev|err].
  - destruct (step (x_proc x) ev) as [| |p'] eqn:Hstep; [done| |].
    + injection Hs as <-. destruct (proc_inv_crash _ ev Hp Hstep) as (w & -> & _).
      split; [by split|]. split; [|done]. intros _. by exists w.
    + injection Hs as <-. split; [split|]; simpl.
      * by eapply proc_inv_step.
      * intros Hsr. destruct ev; try (eapply step_ctxDone; [exact Hstep|]; by apply Hst).
        by eapply grpc_stop_ctxDone.
      * by destruct (p_main p').
      * pose proof (step_todo _ _ _ Hstep) as Ht. destruct (p_main (x_proc x)) as [[|[] todo]| | | | | | |] eqn:Em;
          try (intros ?%Hl; set_solver). destruct ev; try (intros ?%Hl; set_solver). intros _.
        pose proof (pv_nodup _ Hp) as Hnd. rewrite Em in Hnd. simpl in Hnd.
        apply NoDup_app in Hnd as (_ & _ & [Hnt _]%NoDup_cons).
        unfold step, main_step in Hstep. rewrite Em in Hstep. by injection Hstep as <-.
      * by destruct (p_main p').
  - assert (x_listen x ≠ LNone → CGrpc ∉ todo_of (p_main (x_proc x))) as Hl' by done.
    unfold listen_step in Hs. destruct (x_listen x) eqn:El; try done; specialize (Hl' ltac:(done)).
    + destruct err; injection Hs as <-; (split; [by split|]); simpl; rewrite ?Ex; [|done].
      split; [done|]. intros _. left. by eexists.
    + destruct (srv_stopped (x_srv x)) eqn:Est.
      * rewrite (Serve_stopped _ Est) in Hs. injection Hs as <-. split; [split; simpl; auto; discriminate|]. split; [done|]. by right.
      * destruct (Serve_running _ Est) as [E2 Er]. destruct (grpc_Serve (x_srv x)) as [s e]. simpl in *. subst e.
        injection Hs as <-. split; [split; simpl; [done|congruence|congruence|done]|]. simpl. rewrite Ex. done.
    + destruct (srv_stopped (x_srv x)) eqn:Est.
      * injection Hs as <-. split; [split; simpl; auto; by rewrite Ex|]. simpl. by rewrite Ex.
      * destruct err; [|done]. injection Hs as <-. split; [split; simpl; [done|congruence|done|done]|].
        split; [done|]. intros _. left. by eexists.
Qed.

Lemma process_run_inv x evs x' : process_run x evs = Some x' → process_inv x → process_inv x'.
Proof.
  induction evs as [|ev evs IH] in x |- *; simpl; [by intros [= <-]|].
  destruct (process_step x ev) as [x1|] eqn:Hs; [|done]. simpl. intros Hr Hx.
  apply (IH x1 Hr). by eapply process_step_inv.
Qed.

Lemma process_run_app x evs evs' :
  process_run x (evs ++ evs') = x1 ← process_run x evs; process_run x1 evs'.
Proof.
  induction evs as [|ev evs IH] in x |- *; [done|]. simpl. destruct (process_step x ev); [apply IH|done].
Qed.

Lemma process_step_ctxDone x ev x' :
  process_step x ev = Some x' → p_ctxDone (x_proc x) = true → p_ctxDone (x_proc x') = true.
Proof.
  unfold process_step. destruct (x_exit x); [done|]. destruct ev as [ev|err].
  - destruct (step (x_proc x) ev) as [| |p'] eqn:E; [done|..]; intros [= <-]; [done|]. by eapply step_ctxDone.
  - unfold listen_step. intros Hs Hc. repeat case_match; by simplify_eq/=.
Qed.

(** A server that serves does not go back to the call of Serve. *)
Definition serving (l : listen_phase) : bool := match l with LAccept | LDone => true | _ => false end.

Lemma process_step_serving x ev x' :
  process_step x ev = Some x' → process_inv x → serving (x_listen x) = true → serving (x_listen x') = true.
Proof.
  unfold process_step. destruct (x_exit x); [done|]. intros Hs Hx Hl. destruct ev as [ev|err].
  - destruct (step (x_proc x) ev) as [| |p'] eqn:Hstep; [done|..]; injection Hs as <-; [done|]. simpl.
    pose proof (xi_listen _ Hx) as Ht. destruct (p_main (x_proc x)) as [[|[] todo]| | | | | | |]; try done.
    exfalso. apply Ht; [|left]. by intros E; rewrite E in Hl.
  - unfold listen_step in Hs. destruct (x_listen x) eqn:El; try done.
    destruct (srv_stopped _); [by injection Hs as <-|]. destruct err; [|done].
    injection Hs as <-. simpl. by rewrite El.
Qed.

Lemma process_run_serving x evs x' :
  process_run x evs = Some x' → process_inv x →
  serving (x_listen x) = true → x_exit x ≠ Some 1 → Forall (λ ev, ¬ os_error ev) evs → x_exit x' ≠ Some 1.
Proof.
  induction evs as [|ev evs IH] in x |- *; simpl; [by intros [= <-]|].
  destruct (process_step x ev) as [x1|] eqn:Hs; [|done]. simpl. intros Hr Hx Hl Hne [Hos Hf]%Forall_cons.
  destruct (process_step_inv _ _ _ Hs Hx) as (Hx1 & _ & H1).
  pose proof (process_step_serving _ _ _ Hs Hx Hl) as Hl1.
  apply (IH x1); try done. intros [?|[E _]]%H1; [done|]. by rewrite E in Hl.
Qed.

(** ** Properties *)

(** C30. How a node ends, in every interleaving of its goroutines.  It exits with
    code 0 only by the orderly shutdown, with the store closed; with code 2, a
    crash, only by a panic of a component or of a gRPC handler, never by the code
    that starts and stops them.  Fatal (code 1) is called only when the operating
    system refuses the bind or an accept, or when the shutdown had begun before
    the gRPC server served: once the goroutine of Listen is in its accept loop, a
    node whose network works never exits through Fatal, whenever the signal
    comes. *)
Theorem process_ends cfg evs x :
  process_run (launched cfg) evs = Some x →
  (x_exit x = Some 2 → ∃ evs0 w, evs = evs0 ++ [XProc (EPanic w)]) ∧
  (x_exit x = Some 0 → p_db (x_proc x) = false) ∧
  (x_exit x = Some 1 → Forall (λ ev, ¬ os_error ev) evs → p_ctxDone (x_proc x) = true) ∧
  (x_exit x = None → x_listen x = LAccept →
   ∀ evs' x', process_run x evs' = Some x' → Forall (λ ev, ¬ os_error ev) evs' → x_exit x' ≠ Some 1).
Proof.
  intros Hr. pose proof (process_run_inv _ _ _ Hr (launched_inv cfg)) as Hx. split_and!.
  - destruct evs as [|ev evs _] using rev_ind; [by injection Hr as <-|].
    rewrite process_run_app in Hr. destruct (process_run _ evs) as [x1|] eqn:E; [|done]. simpl in Hr.
    pose proof (process_run_inv _ _ _ E (launched_inv cfg)) as Hx1.
    destruct (process_step x1 ev) eqn:Hs; simplify_eq/=.
    destruct (process_step_inv _ _ _ Hs Hx1) as (_ & Hpan & _). intros [w ->]%Hpan. by exists evs, w.
  - intros He. rewrite (pv_db _ (xi_proc _ Hx)), (xi_exit _ Hx He). done.
  - intros H1 Hf. destruct evs as [|ev evs _] using rev_ind; [by injection Hr as <-|].
    rewrite process_run_app in Hr. destruct (process_run _ evs) as [x1|] eqn:E; [|done]. simpl in Hr.
    pose proof (process_run_inv _ _ _ E (launched_inv cfg)) as Hx1. apply Forall_app in Hf as [_ [Hos _]%Forall_cons].
    destruct (process_step x1 ev) eqn:Hs; simplify_eq/=.
    destruct (process_step_inv _ _ _ Hs Hx1) as (_ & _ & [?|[El Est]]%(λ f, f H1)); [done|].
    eapply process_step_ctxDone; [exact Hs|]. by apply (xi_stop _ Hx1).
  - intros Hex El evs' x' Hr' Hf. eapply process_run_serving; [exact Hr'|done..| |congruence|done].
    by rewrite El.
Qed.
End servers.

(** ** The metrics server *)
Record http_response := mkResponse {
  http_status : Z;
  http_body : bytes;
}.

(** The mux: the exposition of the registry ([promhttp], the argument [expose])
    and the health probe; a path that is not registered is the mux's 404. *)
Definition healthz : http_response := mkResponse 200 (of_str "ok").

Definition serve_http (expose : http_response) (path : string) : http_response :=
  if decide (path = "/metrics"%string) then expose
  else if decide (path = "/healthz"%string) then healthz
  else mkResponse 404 (of_str "404 page not found").

(** [(s *Server) Run]: before its first action, without an address, waiting with
    the HTTP server up or failed, in Shutdown, returned. *)
Inductive run_phase := RStart | RDisabled | RServing (up : bool) | RShutdown | RReturned.

Inductive metrics_event :=
  | MRun                       (* the next action of Run *)
  | MListenError.              (* ListenAndServe returns an error: it is logged *)

(** [idle]: no request is being served, so that Shutdown can return. *)
Definition metrics_step (addr : string) (ctxDone idle : bool) (p : run_phase) (ev : metrics_event)
    : option run_phase :=
  match ev, p with
  | MRun, RStart => Some (if decide (addr = ""%string) then RDisabled else RServing true)
  | MRun, RDisabled => if ctxDone then Some RReturned else None
  | MRun, RServing _ => if ctxDone then Some RShutdown else None
  | MRun, RShutdown => if idle then Some RReturned else None
  | MListenError, RServing true => Some (RServing false)
  | _, _ => None
  end.

(** The probes answer independently of the state of the broker, and the server
    returns only after the cancellation: a listener that fails does not end
    it, a request that does not end keeps it from returning. *)
Lemma metrics_server_returns addr ctxDone idle p ev :
  metrics_step addr ctxDone idle p ev = Some RReturned → ev = MRun ∧ (ctxDone = true ∨ p = RShutdown ∧ idle = true).
Proof. destruct ev, p as [| |[]| |], ctxDone, idle; simpl; try case_decide; intros; simplify_eq; auto. Qed.

(** ** The logger *)
Class Zap := {
  level_t : Type;
  logger_t : Type;
  InfoLevel : level_t;                            (* of the production configuration *)
  level_UnmarshalText : string → outcome level_t;
  zap_Build : level_t → outcome logger_t;
}.

(** [InitLogger]; the second component is the global logger. *)
Definition InitLogger `{Zap} (level : string) (global : logger_t) : logger_t * outcome logger_t :=
  let l := match level_UnmarshalText level with Ok l => l | _ => InfoLevel end in
  match zap_Build l with
  | Ok logger => (logger, Ok logger)
  | o => (global, o)
  end.

(** ** Runs *)

(** A server is a flag: stopped or not. *)
#[local] Obligation Tactic := idtac.
Program Definition flag_server : GrpcServer := {|
  srv_t := bool;
  grpc_NewServer _ := false;
  grpc_Serve s := if s : bool then (s, Some (ErrorMsg "grpc: the server has been stopped" [])) else (s, None);
  grpc_Stop _ := true;
  srv_stopped s := s;
  ErrServerStopped := ErrorMsg "grpc: the server has been stopped" [];
|}.
Next Obligation. done. Qed.
Next Obligation. done. Qed.
Next Obligation. by intros s ->. Qed.
Next Obligation. by intros s ->. Qed.

Definition serve_and_stop : list process_event :=
  replicate 6 (XProc EMain) ++ [XListen None; XListen None; XProc ESignal; XProc EMain; XProc EGrpcStop; XListen None;
    XProc EGrpcStopped; XProc (EReturn CGrpc); XProc (EReturn CMetrics); XProc (EReturn CJanitor);
    XProc (EReturn CDeleter); XProc (EReturn CDispatcher)] ++ replicate 4 (XProc EMain).

Lemma process_ends_witness :
  ∃ x, @process_run flag_server (@launched flag_server defaultConfig) serve_and_stop = Some x ∧
    x_exit x = Some 0 ∧ p_db (x_proc x) = false.
Proof.
  destruct (@process_run flag_server (@launched flag_server defaultConfig) serve_and_stop) as [x|] eqn:E;
    [|by vm_compute in E].
  exists x. split; [done|]. assert (x_exit x = Some 0) as He.
  { assert (x_exit <$> @process_run flag_server (@launched flag_server defaultConfig) serve_and_stop = Some (Some 0))
      as Hx by (vm_compute; reflexivity). rewrite E in Hx. by injection Hx as Hx. }
  split; [exact He|].
  by apply (@process_ends flag_server defaultConfig serve_and_stop x E).
Defined.

(** A signal right after the start: the shutdown handler stops the gRPC server
    before the goroutine of Listen has called Serve, which then fails, and
    Fatal ends the process in the middle of the orderly shutdown: no component
    has returned, the store is neither flushed nor closed. *)
Definition early_signal : list process_event :=
  replicate 6 (XProc EMain) ++ [XProc ESignal; XProc EMain; XProc EGrpcStop; XListen None; XListen None].

Theorem early_stop_is_fatal :
  (λ x, (x_exit x, p_db (x_proc x), p_live (x_proc x))) <$>
    @process_run flag_server (@launched flag_server defaultConfig) early_signal
  = Some (Some 1, true, components).
Proof. vm_compute. reflexivity. Qed.

(** The size limits are int products: a limit of 2^53 KB is no limit but a
    negative one. *)
Theorem size_limit_wraps :
  (∀ cfg, 0 ≤ MaxRecvSizeKB cfg < 2 ^ 53 → MaxRecvMsgSize (MaxRecvSizeKB cfg * 1024) ∈ server_options cfg) ∧
  MaxRecvMsgSize (- 2 ^ 63) ∈ server_options (mkServerCfg "" 10 0 (2 ^ 53) 100).
Proof.
  split.
  - intros cfg Hr. unfold server_options. rewrite i64_small by (unfold is_i64; lia). right. left.
  - right. left.
Qed.
