(* ===== verification/Metrics.v ===== *)
(** * Metrics ([src/internal/metrics/prometheus.go])

    The registry and the places that update it: the publish handler, the
    dispatcher's scan, the consumer handler, the janitor and the deleter.  A
    standalone broker runs with a registry beside it; the registry never
    influences the broker, and the theorems say what its gauges and counters
    are worth.

    A labelled value is a function of the metric and its labels; a histogram
    keeps its observations.  Observed values are integers before the
    conversion to float64. *)
From stdpp Require Import prelude gmap strings sorting.
From S2P Require Import Prelude Bytes Keys Storage Pebble Proto Repository Codec.
From S2P Require Import EventCommands EventStateMachine Hub Deleter Dispatcher Janitor Producer Broker.
From S2P Require Import Runners Liveness.
Local Open Scope Z_scope.

Inductive metric :=
  | PublishRequestsTotal
  | MessagesPublishedTotal
  | PublishBatchSize
  | PublishLatencyMs
  | RaftProposeDurationMs
  | ActiveConsumers
  | ConsumerAckTotal
  | MessagesInFlight
  | MessagesDispatchedTotal
  | DispatchPassDurationMs
  | DeliveryLatencyMs
  | DeliveryOverheadMs
  | MessagesExpiredTotal
  | DeleteBatchSize
  | DeleteFailuresTotal.

#[export] Instance metric_eq_dec : EqDecision metric.
Proof. solve_decision. Defined.

Abbreviation labels := (list string).

(** Counters and gauges, and the observations of histograms. *)
Record registry := mkRegistry {
  value : metric → labels → Z;
  samples : metric → labels → list Z;
}.

Definition empty_registry : registry := mkRegistry (λ _ _, 0) (λ _ _, []).

(** [WithLabelValues(ls...).Add(x)]; [Inc] and [Dec] are [Add] of 1 and -1. *)
Definition add (m : metric) (ls : labels) (x : Z) (r : registry) : registry :=
  mkRegistry (λ m' ls', value r m' ls' + (if decide (m' = m ∧ ls' = ls) then x else 0)) (samples r).

Definition observe (m : metric) (ls : labels) (x : Z) (r : registry) : registry :=
  mkRegistry (value r) (λ m' ls', samples r m' ls' ++ (if decide (m' = m ∧ ls' = ls) then [x] else [])).

Abbreviation inc m ls := (add m ls 1).
Abbreviation dec m ls := (add m ls (-1)).

Lemma value_add m ls x r m' ls' :
  value (add m ls x r) m' ls' = value r m' ls' + (if decide (m' = m ∧ ls' = ls) then x else 0).
Proof. done. Qed.

Lemma value_observe m ls x r m' ls' : value (observe m ls x r) m' ls' = value r m' ls'.
Proof. done. Qed.

Definition boolToStr (b : bool) : string := if b then "true" else "false".

Definition ack_string (a : AckLevel) : string :=
  match a with
  | ACK_LEVEL_QUORUM => "ACK_LEVEL_QUORUM"
  | ACK_LEVEL_LEADER => "ACK_LEVEL_LEADER"
  | ACK_LEVEL_NO_ACK => "ACK_LEVEL_NO_ACK"
  end.

Section metrics.
Context {DBi : DB} `{XXHash} `{Protobuf} `{DispatchStrategy} `{MapRange} `{Clock}.
Context (Hnf : ∀ b k, batch_fault b (OpDelete k) = None).
Context (cfg : dispatch_config).

#[local] Instance metered_backend : DeleteBackend := standalone_backend Hnf.

(** ** The updates of each operation *)

(** [processBatch]: [o] is the outcome of the write path, [took] the time it
    took. *)
Definition publish_metrics (batch : PublishBatch) (o : outcome ()) (took : Z) (r : registry) : registry :=
  match Messages batch with
  | [] => r
  | _ =>
      let topicLabel := batchTopicLabel batch in
      let level := ack_string (pb_AckLevel batch) in
      match o with
      | Ok _ =>
          let msgCount := len (Messages batch) in
          observe PublishLatencyMs [topicLabel; level] took
            (observe PublishBatchSize [topicLabel] msgCount
               (add MessagesPublishedTotal [topicLabel; level] msgCount
                  (inc PublishRequestsTotal [topicLabel; level; "success"%string] r)))
      | Err _ => inc PublishRequestsTotal [topicLabel; level; "error"%string] r
      | _ => r
      end
  end.

(** The end of the scan callback for a message that went to the groups
    [sentTo]. *)
Definition sent_metrics (topic : string) (sentTo : list string) (r : registry) : registry :=
  foldl (λ r gid, inc MessagesInFlight [topic; gid] (inc MessagesDispatchedTotal [topic; gid] r)) r sentTo.

Definition delivery_metrics (topic : string) (nowMs : Z) (msg : StoredMessage) (sentTo : list string)
    (r : registry) : registry :=
  let latencyMs := Z.max 0 (i64 (nowMs - sm_EnqueuedAtUnixMs msg)) in
  let scheduledMs := i64 (sm_EnqueuedAtUnixMs msg + sm_DelayMs msg) in
  let overheadMs := Z.max 0 (i64 (nowMs - scheduledMs)) in
  sent_metrics topic sentTo
    (observe DeliveryOverheadMs [topic] overheadMs (observe DeliveryLatencyMs [topic] latencyMs r)).

(** The scan callback, beside [dispatch_one]. *)
Definition dispatch_metrics (topic : string) (nowMs : Z) (d : Dispatcher) (key val : bytes)
    (r : registry) : registry :=
  let '(d1, flying) := isInFlight cfg key d in
  if flying : bool then r
  else match Unmarshal val with
  | Ok msg =>
      if isExpired msg nowMs then inc MessagesExpiredTotal [topic; "dispatcher"%string] r
      else
        let sentTo := (DispatchToTopic topic (queue_message msg key) key (d_hub d1)).2 in
        if decide (0 < length sentTo)%nat then delivery_metrics topic nowMs msg sentTo r else r
  | _ => r
  end.

(** The scan callback with its metrics. *)
Definition metered_one (topic : string) (nowMs : Z) (s : (Dispatcher * Z * list bytes) * registry)
    (key val : bytes) : (Dispatcher * Z * list bytes) * registry :=
  (dispatch_one cfg topic nowMs s.1 key val, dispatch_metrics topic nowMs s.1.1.1 key val s.2).

Definition metered_scan (store : db_t) (topic : string) (nowMs : Z) (d : Dispatcher) (r : registry)
    : registry :=
  match CalculateBucket nowMs (cfg_bucketSize cfg) with
  | Ok nowBucket =>
      (Scan store (Some (due_range (TopicHash topic) nowBucket))
         (λ s key val, (metered_one topic nowMs s key val, None)) ((d, 0, []), r)).1.2
  | _ => r
  end.

(** The janitor counts an expired record under the topic of the message. *)
Definition sweep_metrics (nowMs : Z) (key val : bytes) (r : registry) : registry :=
  match ParseEventKey key, Unmarshal val with
  | Ok _, Ok msg =>
      if decide (0 < sm_TtlMs msg ∧ i64 (sm_EnqueuedAtUnixMs msg + sm_TtlMs msg) ≤ nowMs)
      then inc MessagesExpiredTotal [sm_Topic msg; "janitor"%string] r else r
  | _, _ => r
  end.

Definition metered_sweep (store : db_t) (nowMs : Z) (r : registry) : registry :=
  (Scan store None (λ r key val, (sweep_metrics nowMs key val r, None)) r).1.

(** [flush] *)
Definition flush_metrics (d : Deleter) (r : registry) : registry :=
  if decide (length (pending d) = 0%nat) then r
  else match (DeleteKeys (backend d) (pending d)).2 with
       | Some _ => inc DeleteFailuresTotal [] r
       | None => observe DeleteBatchSize [] (len (pending d)) r
       end.

(** The receiver of a session: its labels are those of the handshake. *)
Definition ack_metrics (c : ConsumerEntry) (success : bool) (r : registry) : registry :=
  dec MessagesInFlight [Topic c; Group c]
    (inc ConsumerAckTotal [Topic c; Group c; boolToStr success] r).

(** ** A broker with its registry

    An acknowledgement and a disconnection belong to a session, whose consumer
    is registered. *)
Definition metered_step (s : Broker Hnf * registry) (ev : broker_event) : Broker Hnf * registry :=
  let '(b, r) := s in
  (broker_step Hnf cfg b ev,
   match ev with
   | BPublish batch nowMs =>
       publish_metrics batch (processStandaloneBatch batch nowMs (b_repo Hnf b, b_store Hnf b)).2 0 r
   | BDispatch topic nowMs => metered_scan (b_store Hnf b) topic nowMs (b_disp Hnf b) r
   | BSweep nowMs => metered_sweep (b_store Hnf b) nowMs r
   | BAck id _ success =>
       match byID (d_hub (b_disp Hnf b)) !! id with Some c => ack_metrics c success r | None => r end
   | BFlush => flush_metrics (d_deleter (b_disp Hnf b)) r
   | BConnect id topic groupID _ => inc ActiveConsumers [topic; groupID] r
   | BSend _ => r
   | BDisconnect id =>
       match byID (d_hub (b_disp Hnf b)) !! id with
       | Some c => dec ActiveConsumers [Topic c; Group c] r
       | None => r
       end
   end).

Definition metered_run (s : Broker Hnf * registry) (evs : list broker_event) : Broker Hnf * registry :=
  foldl metered_step s evs.

(** ** What the updates keep *)

(** Messages counted as in flight beyond those dispatched and not answered. *)
Definition drift (r : registry) (t g : string) : Z :=
  value r MessagesInFlight [t; g] - value r MessagesDispatchedTotal [t; g] +
  value r ConsumerAckTotal [t; g; "true"%string] + value r ConsumerAckTotal [t; g; "false"%string].

Definition keeps (r r' : registry) : Prop :=
  ∀ t g, value r' ActiveConsumers [t; g] = value r ActiveConsumers [t; g] ∧ drift r' t g = drift r t g.

#[local] Instance keeps_preorder : PreOrder keeps.
Proof.
  split; [by intros r t g|]. intros r1 r2 r3 H12 H23 t g.
  destruct (H12 t g) as [E1 D1], (H23 t g) as [E2 D2]. split; congruence.
Qed.

(** An update of any other metric. *)
Lemma keeps_add m ls x r :
  m ∉ [ActiveConsumers; ConsumerAckTotal; MessagesInFlight; MessagesDispatchedTotal] →
  keeps r (add m ls x r).
Proof.
  intros Hm t g. unfold drift. rewrite !value_add, !decide_False; [lia|..]; intros [<- _]; set_solver.
Qed.

Lemma keeps_observe m ls x r : keeps r (observe m ls x r).
Proof. by intros t g. Qed.

Ltac other_metric := apply keeps_add; rewrite !not_elem_of_cons; split_and!; first [done | apply not_elem_of_nil].

Lemma metered_publish_keeps batch o took r : keeps r (publish_metrics batch o took r).
Proof.
  unfold publish_metrics. destruct (Messages batch); [done|]. destruct o; try done; try other_metric.
  do 2 (etrans; [|apply keeps_observe]). etrans; [|other_metric]. other_metric.
Qed.

Lemma sent_keeps topic sentTo r : keeps r (sent_metrics topic sentTo r).
Proof.
  unfold sent_metrics. induction sentTo as [|gid l IH] in r |- *; simpl; [done|].
  etrans; [|apply IH]. intros t g. unfold drift. rewrite !value_add.
  repeat (rewrite (decide_False (P := _ ∧ _)) by (by intros [? _])).
  repeat case_decide; naive_solver lia.
Qed.

Lemma dispatch_keeps topic nowMs d key val r : keeps r (dispatch_metrics topic nowMs d key val r).
Proof.
  unfold dispatch_metrics, delivery_metrics. destruct (isInFlight cfg key d) as [d1 []]; [done|].
  destruct (Unmarshal val) as [msg|e| |]; try done. destruct (isExpired msg nowMs); [other_metric|].
  case_decide; [|done]. etrans; [|apply sent_keeps]. by do 2 (etrans; [|apply keeps_observe]).
Qed.

Lemma scan_keeps {A} (step : A * registry → bytes → bytes → A * registry) store o a r :
  (∀ a r k v, keeps r (step (a, r) k v).2) →
  keeps r (Scan store o (λ s k v, (step s k v, None)) (a, r)).1.2.
Proof.
  intros Hstep. rewrite Scan_spec, (scan_fold_total step). simpl.
  generalize (iter_pairs store o) as l. intros l. revert a r.
  induction l as [|[k v] l IH]; intros a r; simpl; [done|].
  pose proof (Hstep a r k v) as Hk. destruct (step (a, r) k v) as [a' r']. simpl in *.
  etrans; [exact Hk|apply IH].
Qed.

Lemma metered_scan_keeps store topic nowMs d r : keeps r (metered_scan store topic nowMs d r).
Proof.
  unfold metered_scan. destruct (CalculateBucket _ _) as [nb|e| |]; try done.
  apply (scan_keeps (metered_one topic nowMs)). intros s r' k v. apply dispatch_keeps.
Qed.

Lemma metered_sweep_keeps store nowMs r : keeps r (metered_sweep store nowMs r).
Proof.
  unfold metered_sweep. rewrite Scan_spec, (scan_fold_total (λ r k v, sweep_metrics nowMs k v r)). simpl.
  generalize (iter_pairs store None) as l. intros l. revert r.
  induction l as [|[k v] l IH]; intros r; simpl; [done|]. etrans; [|apply IH].
  unfold sweep_metrics. destruct (ParseEventKey k), (Unmarshal v); try done. case_decide; [other_metric|done].
Qed.

Lemma flush_keeps d r : keeps r (flush_metrics d r).
Proof.
  unfold flush_metrics. case_decide; [done|].
  destruct (DeleteKeys _ _).2; [other_metric|apply keeps_observe].
Qed.

(** ** The registrations during a run *)
Definition members_of (h : Hub) (t g : string) : gmap string ConsumerEntry :=
  filter (λ p, Topic p.2 = t ∧ Group p.2 = g) (byID h).

Record accounted (b : Broker Hnf) (r : registry) : Prop := {
  ac_ids : ∀ id c, byID (d_hub (b_disp Hnf b)) !! id = Some c → ID c = id;
  ac_active : ∀ t g, value r ActiveConsumers [t; g] = Z.of_nat (size (members_of (d_hub (b_disp Hnf b)) t g));
  ac_drift : ∀ t g, drift r t g = 0;
}.

Lemma accounted_keeps b b' r r' :
  accounted b r → keeps r r' → byID (d_hub (b_disp Hnf b')) = byID (d_hub (b_disp Hnf b)) →
  accounted b' r'.
Proof.
  intros [Hid Ha Hd] Hk E. split; [by rewrite E|..]; intros t g; destruct (Hk t g) as [Ea Ed].
  - unfold members_of in *. by rewrite E, Ea, Ha.
  - by rewrite Ed.
Qed.

Lemma dispatchTopic_byID store topic nowMs d :
  byID (d_hub (dispatchTopic cfg store topic nowMs d).1) = byID (d_hub d).
Proof.
  destruct (CalculateBucket nowMs (cfg_bucketSize cfg)) as [nb|e| |] eqn:Hb.
  2-4: unfold dispatchTopic; rewrite Hb; done.
  rewrite (dispatchTopic_eq _ _ _ _ _ _ Hb). set (l := iter_pairs _ _).
  destruct (run_pairs_shape cfg topic nowMs (d, 0, []) l) as (_ & Hi & _).
  by destruct (run_pairs _ _ _ _ _) as [[d1 n] ex].
Qed.

Lemma RemoveInFlightBatch_hub keys d : d_hub (RemoveInFlightBatch keys d) = d_hub d.
Proof. unfold RemoveInFlightBatch. induction keys as [|k ks IH] in d |- *; simpl; [done|by rewrite IH]. Qed.

(** Sessions have ids of their own. *)
Definition fresh_id (b : Broker Hnf) (ev : broker_event) : Prop :=
  match ev with BConnect id _ _ _ => byID (d_hub (b_disp Hnf b)) !! id = None | _ => True end.

Fixpoint fresh_ids (b : Broker Hnf) (evs : list broker_event) : Prop :=
  match evs with
  | [] => True
  | ev :: evs' => fresh_id b ev ∧ fresh_ids (broker_step Hnf cfg b ev) evs'
  end.

Lemma size_members_insert (m : gmap string ConsumerEntry) c t g :
  m !! ID c = None →
  Z.of_nat (size (filter (λ p, Topic p.2 = t ∧ Group p.2 = g) (<[ID c := c]> m))) =
  Z.of_nat (size (filter (λ p, Topic p.2 = t ∧ Group p.2 = g) m)) +
  (if decide (Topic c = t ∧ Group c = g) then 1 else 0).
Proof.
  intros Hn. case_decide as Hc.
  - rewrite map_filter_insert_True by done. rewrite map_size_insert_None; [lia|].
    apply map_lookup_filter_None. by left.
  - rewrite map_filter_insert_False by done. rewrite delete_id by done. lia.
Qed.

Lemma size_members_delete (m : gmap string ConsumerEntry) id c t g :
  m !! id = Some c → ID c = id →
  Z.of_nat (size (filter (λ p, Topic p.2 = t ∧ Group p.2 = g) (delete id m))) =
  Z.of_nat (size (filter (λ p, Topic p.2 = t ∧ Group p.2 = g) m)) -
  (if decide (Topic c = t ∧ Group c = g) then 1 else 0).
Proof.
  intros Hm Hid. pose proof (size_members_insert (delete id m) c t g) as Hs.
  rewrite Hid in Hs. rewrite lookup_delete_eq, insert_delete_id in Hs by done.
  rewrite (Hs eq_refl). lia.
Qed.

Lemma decide_label (t g t' g' : string) (A : Type) (x y : A) :
  (if decide (ActiveConsumers = ActiveConsumers ∧ [t; g] = [t'; g']) then x else y) =
  (if decide (t' = t ∧ g' = g) then x else y).
Proof. repeat case_decide; naive_solver. Qed.

Lemma ack_drift c success r t g : drift (ack_metrics c success r) t g = drift r t g.
Proof.
  unfold drift, ack_metrics. rewrite !value_add.
  destruct success; simpl; repeat case_decide; naive_solver lia.
Qed.

Lemma accounted_ack b r id c success tag :
  accounted b r → byID (d_hub (b_disp Hnf b)) !! id = Some c →
  accounted (broker_step Hnf cfg b (BAck id tag success)) (ack_metrics c success r).
Proof.
  intros Hac Hc. eapply accounted_keeps; [done| |].
  - intros t g. split; [|apply ack_drift]. unfold ack_metrics. rewrite !value_add.
    rewrite !decide_False by (by intros []). lia.
  - simpl. unfold RemoveInFlightForConsumer. by repeat case_match.
Qed.

Lemma accounted_connect b r id topic g0 ch :
  accounted b r → byID (d_hub (b_disp Hnf b)) !! id = None →
  accounted (broker_step Hnf cfg b (BConnect id topic g0 ch)) (inc ActiveConsumers [topic; g0] r).
Proof.
  intros [Hid Ha Hd] Hn. split; simpl.
  - intros i c [[<- <-]|[_ Hi]]%lookup_insert_Some; [done|by apply Hid].
  - intros t g. unfold members_of. simpl.
    pose proof (size_members_insert (byID (d_hub (b_disp Hnf b))) (mkConsumerEntry id topic g0 ch) t g Hn) as Hs.
    simpl in Hs. rewrite Hs, Ha, decide_label. done.
  - intros t g. rewrite <-(Hd t g). unfold drift. rewrite !value_add, !decide_False by (by intros []). lia.
Qed.

Lemma accounted_disconnect b r id c :
  accounted b r → byID (d_hub (b_disp Hnf b)) !! id = Some c →
  accounted (broker_step Hnf cfg b (BDisconnect id)) (dec ActiveConsumers [Topic c; Group c] r).
Proof.
  intros [Hid Ha Hd] Hc. destruct (Unregister_frame id (d_hub (b_disp Hnf b))) as (Eb & _ & _).
  split; simpl.
  - rewrite Eb. intros i c' [_ Hi]%lookup_delete_Some. by apply Hid.
  - intros t g. unfold members_of. rewrite Eb.
    rewrite (size_members_delete _ id c t g Hc (Hid _ _ Hc)). rewrite Ha, decide_label.
    unfold members_of. case_decide; lia.
  - intros t g. rewrite <-(Hd t g). unfold drift. rewrite !value_add, !decide_False by (by intros []). lia.
Qed.

Lemma metered_step_accounted b r ev :
  fresh_id b ev → accounted b r →
  accounted (metered_step (b, r) ev).1 (metered_step (b, r) ev).2.
Proof.
  intros Hfr Hac. destruct ev as [batch nowMs|topic nowMs|nowMs|id tag success| |id topic g0 ch|ch|id].
  - eapply accounted_keeps; [done|apply metered_publish_keeps|].
    unfold metered_step, broker_step. cbn [fst]. by destruct (processStandaloneBatch batch nowMs _) as [[er db'] o].
  - eapply accounted_keeps; [done|apply metered_scan_keeps|]. apply dispatchTopic_byID.
  - eapply accounted_keeps; [done|apply metered_sweep_keeps|done].
  - simpl. destruct (byID _ !! id) as [c|] eqn:Hc; [by eapply accounted_ack|].
    eapply accounted_keeps; [done|done|]. simpl. unfold RemoveInFlightForConsumer. by repeat case_match.
  - eapply accounted_keeps; [done|apply flush_keeps|]. simpl. unfold flush_step.
    destruct (flush _) as [dl keys]. simpl. by rewrite RemoveInFlightBatch_hub.
  - by apply accounted_connect.
  - eapply accounted_keeps; [done|done|]. simpl. unfold recv. by repeat case_split_eq.
  - simpl. destruct (byID _ !! id) as [c|] eqn:Hc; [by apply (accounted_disconnect b r id c)|].
    eapply accounted_keeps; [done|done|]. simpl. unfold Unregister. by rewrite Hc.
Qed.

(** ** Properties *)

(** The gauges and counters of a standalone broker over any run that starts
    without consumers: the registry does not influence the broker;
    [futureq_active_consumers] is, for every topic and group, the number of
    consumers registered with the hub; and [futureq_messages_in_flight] is the
    number of sends minus the number of answers (ACK and NACK). *)
Theorem metrics_account b evs :
  byID (d_hub (b_disp Hnf b)) = ∅ → fresh_ids b evs →
  let '(b', r) := metered_run (b, empty_registry) evs in
  b' = broker_run Hnf cfg b evs ∧
  (∀ t g, value r ActiveConsumers [t; g] = Z.of_nat (size (members_of (d_hub (b_disp Hnf b')) t g))) ∧
  ∀ t g, value r MessagesInFlight [t; g] =
    value r MessagesDispatchedTotal [t; g] -
    (value r ConsumerAckTotal [t; g; "true"%string] + value r ConsumerAckTotal [t; g; "false"%string]).
Proof.
  intros He Hf.
  assert (accounted b empty_registry) as Hac.
  { split; [by rewrite He|intros t g|done]. unfold members_of. rewrite He, map_filter_empty.
    by rewrite map_size_empty. }
  revert Hac Hf. generalize empty_registry as r. clear He.
  unfold metered_run, broker_run. induction evs as [|ev evs IH] in b |- *; intros r Hac Hf; simpl.
  { destruct Hac as [_ Ha Hd]. split_and!; [done..|]. intros t g. specialize (Hd t g). unfold drift in Hd. lia. }
  destruct Hf as [Hf1 Hf]. apply (metered_step_accounted _ _ _ Hf1) in Hac.
  apply (IH (broker_step Hnf cfg b ev)); [exact Hac|done].
Qed.
End metrics.

(** ** The publish stream with its counters, standalone or clustered *)
Section publishing.
Context {DBi : DB} `{XXHash} `{Protobuf} {PR : @Proposer DBi} {RN : RaftNode PR}.
Context (pcfg : producer_config).

(** [processRaftBatch]: the proposal is timed, whatever its result; [took] is
    the time it took. *)
Definition propose_metrics (batch : PublishBatch) (nowMs took : Z) (p : pr_t) (r : registry) : registry :=
  if negb (isClusterLeader pcfg p) then r
  else match build_items pcfg batch nowMs with
       | Ok items =>
           match MarshalStoreBatchCmd items with
           | Ok _ => observe RaftProposeDurationMs [ack_string (pb_AckLevel batch)] took r
           | _ => r
           end
       | _ => r
       end.

(** [processBatch]: a refused level counts as rejected. *)
Definition process_metrics (batch : PublishBatch) (nowMs took : Z) (a : app_st) (r : registry) : registry :=
  match Messages batch with
  | [] => r
  | _ =>
      let ackLevel := pb_AckLevel batch in
      if decide (MinAckLevel pcfg = "Quorum"%string ∧ ackLevel = ACK_LEVEL_NO_ACK)
      then inc PublishRequestsTotal [batchTopicLabel batch; ack_string ackLevel; "rejected"%string] r
      else match a with
           | Clustered p =>
               publish_metrics batch (processRaftBatch pcfg batch nowMs ackLevel p).2 took
                 (propose_metrics batch nowMs took p r)
           | Standalone er d =>
               publish_metrics batch (processStandaloneBatch batch nowMs (er, d)).2 took r
           end
  end.

(** [PublishStream], beside its model. *)
Fixpoint stream_metrics (took : Z) (evs : list recv_event) (a : app_st) (r : registry) : registry :=
  match evs with
  | RecvBatch batch nowMs sendErr :: evs' =>
      let r' := process_metrics batch nowMs took a r in
      match processBatch pcfg batch nowMs a, sendErr with
      | (a', Ok _), None => stream_metrics took evs' a' r'
      | _, _ => r'
      end
  | _ => r
  end.

(** The batches of a stream that were answered with a successful ack: the n-th
    ack answers the n-th batch. *)
Fixpoint acked_batches (evs : list recv_event) (acks : list bool) : list PublishBatch :=
  match evs, acks with
  | RecvBatch batch _ _ :: evs', ack :: acks' =>
      (if ack : bool then [batch] else []) ++ acked_batches evs' acks'
  | _, _ => []
  end.

(** The messages of the batches that carry the label and the level. *)
Definition labelled (label level : string) (b : PublishBatch) : Prop :=
  batchTopicLabel b = label ∧ ack_string (pb_AckLevel b) = level.
#[local] Instance labelled_dec label level b : Decision (labelled label level b).
Proof. unfold labelled. apply _. Defined.

Definition messages_in (label level : string) (l : list PublishBatch) : Z :=
  foldr (λ b n, (if decide (labelled label level b) then len (Messages b) else 0) + n) 0 l.

Lemma propose_metrics_value batch nowMs took p r m ls :
  value (propose_metrics batch nowMs took p r) m ls = value r m ls.
Proof. unfold propose_metrics. by repeat case_match. Qed.

Lemma publish_metrics_published batch o took r label level :
  Messages batch ≠ [] →
  value (publish_metrics batch o took r) MessagesPublishedTotal [label; level] =
  value r MessagesPublishedTotal [label; level] +
    match o with Ok _ => messages_in label level [batch] | _ => 0 end.
Proof.
  intros Hne. unfold publish_metrics. destruct (Messages batch) as [|m ms] eqn:E; [done|]. rewrite <-E. clear Hne.
  destruct o as [[]|e| |]; rewrite ?value_observe, ?value_add, ?(decide_False (P := MessagesPublishedTotal = _ ∧ _)) by
    (naive_solver || lia); try lia.
  unfold messages_in, labelled. simpl. repeat case_decide; naive_solver lia.
Qed.

Lemma process_metrics_published batch nowMs took a r label level :
  value (process_metrics batch nowMs took a r) MessagesPublishedTotal [label; level] =
  value r MessagesPublishedTotal [label; level] +
    match (processBatch pcfg batch nowMs a).2 with Ok true => messages_in label level [batch] | _ => 0 end.
Proof.
  unfold process_metrics, processBatch. destruct (Messages batch) as [|m ms] eqn:E; [simpl; lia|].
  assert (Messages batch ≠ []) as Hne by (by rewrite E). clear E.
  case_decide.
  { rewrite value_add, decide_False by naive_solver. simpl. lia. }
  destruct a as [er d|p].
  - rewrite publish_metrics_published by done. destruct (processStandaloneBatch _ _ _) as [[er' d'] o].
    by destruct o as [[]| | |].
  - rewrite publish_metrics_published, propose_metrics_value by done.
    destruct (processRaftBatch _ _ _ _ _) as [p' o]. by destruct o as [[]| | |].
Qed.

(** C35. The published counter follows the acknowledgements.  Over any publish
    stream, standalone or clustered, with refused, failed and empty batches,
    [futureq_messages_published_total] grows, for every label and level, by the
    number of messages in the batches answered with a successful ack, in the
    order of the stream, and in at most one more: the batch whose processing
    returned success and whose ack could not be sent, with which the stream
    ended.  Success is what [processBatch] returns: for a batch at level NO_ACK
    in a cluster that is a proposal that was queued. *)
Theorem published_counter_exact took evs a r acks0 a' acks o :
  PublishStream pcfg evs (a, acks0) = ((a', acks), o) →
  ∃ new unsent, acks = acks0 ++ new ∧
    (∀ label level, value (stream_metrics took evs a r) MessagesPublishedTotal [label; level] =
       value r MessagesPublishedTotal [label; level] + messages_in label level (acked_batches evs new ++ unsent)) ∧
    (unsent = [] ∨ ∃ batch nowMs e, evs !! length new = Some (RecvBatch batch nowMs (Some e)) ∧
       unsent = [batch] ∧ o = Err (ErrorWrap "failed to send ack" e)).
Proof.
  induction evs as [|[|e|batch nowMs sendErr] evs IH] in a, r, acks0 |- *; cbn [PublishStream stream_metrics].
  1-3: intros [= <- <- <-]; exists [], []; rewrite app_nil_r; (split; [done|]); split; [|by left]; intros; simpl; lia.
  pose proof (process_metrics_published batch nowMs took a r) as Hv.
  destruct (processBatch pcfg batch nowMs a) as [a1 [ack|e| |]]; simpl in Hv;
    try (intros [= <- <- <-]; exists [], []; rewrite app_nil_r; (split; [done|]); split; [|by left]; intros; rewrite Hv; simpl; lia).
  destruct sendErr as [e|].
  { intros [= <- <- <-]. exists [], (if ack then [batch] else []). rewrite app_nil_r. split; [done|]. split.
    - intros. rewrite Hv. by destruct ack.
    - destruct ack; [right|by left]. by exists batch, nowMs, e. }
  intros Hr. apply (IH a1 (process_metrics batch nowMs took a r)) in Hr as (new & unsent & -> & Hm & Hu).
  exists (ack :: new), unsent. rewrite <-app_assoc. split; [done|]. split; [|exact Hu].
  intros label level. rewrite Hm, Hv. destruct ack; simpl; lia.
Qed.
End publishing.

(** ** Runs *)
Import Toy.

(** A clock on which the in-flight timeout passes between two readings. *)
Definition slow_clock : Clock := λ n, 60000000000 * Z.of_nat n.

Definition one_event : gmap bytes bytes := {[EventKey 950 7 1 := toy_bytes (toy_msg 0)]}.

Definition idle_broker : @Broker MapDB RoundRobinStrategy (λ _ _, eq_refl) :=
  @mkBroker MapDB RoundRobinStrategy (λ _ _, eq_refl) (mkEventRepository 1 Millisecond)
    (@mkDispatcher RoundRobinStrategy map_direct (NewHub NewRoundRobinStrategy)
       (@NewDeleter map_direct one_event) ∅ 0).

(** A consumer gets the message twice, because its answer takes longer than the
    timeout, and acknowledges it once. *)
Definition slow_consumer : list broker_event :=
  [BConnect "u" "t" "" 0; BDispatch "t" 1000; BSend 0; BDispatch "t" 1000; BSend 0;
   BAck "u" (EventKey 950 7 1) true; BFlush].

Abbreviation sample_metered evs := (@metered_run MapDB const_hash toy_index toy_protobuf RoundRobinStrategy
  key_order slow_clock (λ _ _, eq_refl) sample_cfg (idle_broker, empty_registry) evs).

Lemma metrics_account_witness :
  value (sample_metered slow_consumer).2 ActiveConsumers ["t"; ""]%string =
  Z.of_nat (size (members_of (d_hub (b_disp _ (sample_metered slow_consumer).1)) "t" "")).
Proof.
  pose proof (@metrics_account MapDB const_hash toy_index toy_protobuf RoundRobinStrategy key_order
    slow_clock (λ _ _, eq_refl) sample_cfg idle_broker slow_consumer eq_refl
    (conj eq_refl (conj I (conj I (conj I (conj I (conj I (conj I I)))))))) as Hm.
  rewrite (surjective_pairing (sample_metered slow_consumer)) in Hm.
  exact (proj1 (proj2 Hm) "t"%string ""%string).
Defined.

(** The in-flight gauge counts sends and answers, not messages: a message that
    is delivered again after its timeout and answered once stays in the gauge
    for ever, although it is acknowledged, deleted and no longer tracked. *)
Theorem in_flight_gauge_drifts :
  let '(b, r) := sample_metered slow_consumer in
  inFlight (b_disp _ b) = ∅ ∧ b_store _ b = (∅ : gmap bytes bytes) ∧
  value r MessagesInFlight ["t"; ""]%string = 1.
Proof. split_and!; vm_compute; reflexivity. Qed.

(** Two batches; the acknowledgement of the second cannot be sent. *)
Definition two_batches : list recv_event :=
  [RecvBatch sample_batch 100 None; RecvBatch (mkPublishBatch [] ACK_LEVEL_QUORUM) 100 None;
   RecvBatch sample_batch 100 (Some (ErrorMsg "closed" []))].

Abbreviation sample_stream := (@PublishStream MapDB zero_hash toy_index toy_protobuf local_raft leader_node
  sample_producer_cfg two_batches (@Standalone MapDB local_raft fresh_repo (∅ : gmap bytes bytes), [])).
Abbreviation sample_counted := (@stream_metrics MapDB zero_hash toy_index toy_protobuf local_raft leader_node
  sample_producer_cfg 0 two_batches (@Standalone MapDB local_raft fresh_repo (∅ : gmap bytes bytes)) empty_registry).

Lemma published_counter_exact_witness :
  ∃ new unsent, new = [true; false] ∧
    value sample_counted MessagesPublishedTotal ["a|b"; "ACK_LEVEL_QUORUM"]%string =
      messages_in "a|b" "ACK_LEVEL_QUORUM" (acked_batches two_batches new ++ unsent) ∧
    value sample_counted MessagesPublishedTotal ["a|b"; "ACK_LEVEL_QUORUM"]%string = 4.
Proof.
  destruct sample_stream as [[a' acks] o] eqn:E.
  pose proof (@published_counter_exact MapDB zero_hash toy_index toy_protobuf local_raft leader_node
    sample_producer_cfg 0 two_batches _ empty_registry [] a' acks o E) as (new & unsent & Ha & Hm & _).
  exists new, unsent. split; [|split; [exact (Hm "a|b"%string "ACK_LEVEL_QUORUM"%string)|vm_compute; reflexivity]].
  simpl in Ha. rewrite <-Ha. assert (sample_stream.1.2 = [true; false]) as Hs by (vm_compute; reflexivity).
  by rewrite E in Hs.
Defined.
